(* ===== verification/_CoqProject ===== *)
-Q . S2P
Prelude.v
Shard.v
Rpc.v
ShardMaster.v
ShardMasterSpec.v
ShardMasterConc.v
MD5.v
MD5Spec.v
MD5Rounds.v
Hash.v
QueueDetails.v
QueueIndex.v
QueueBlock.v
FreeListConc.v
FreeListAlone.v
DebugFreeList.v
ProducerListConc.v
ProducerListAlone.v
Producer.v
ImplicitProducer.v
ImplicitIndex.v
ImplicitSpec.v
ImplicitBulk.v
BlockCells.v
ImplicitBulkSpec.v
BulkLoops.v
ImplicitBulkEnqueue.v
ImplicitTrace.v
ExplicitProducer.v
ExplicitSpec.v
ExplicitEnqueue.v
ExplicitDestroy.v
ExplicitBulk.v
ExplicitBulkSpec.v
ExplicitBulkEnqueue.v
ExplicitTrace.v
ProducerHash.v
Queue.v
ThreadExit.v
QueueBulk.v
QueueSpec.v
QueueBulkSpec.v
QueueThreads.v
QueueTokens.v
QueueRuns.v
QueueTrace.v
QueueGrowth.v
QueueMove.v
QueueMoveSpec.v
QueueMoveWrite.v
QueueMoveTrace.v
Semaphore.v
SemaphoreSpec.v
SemaphoreTrace.v
BlockingQueue.v
BlockingQueueSpec.v
BlockingQueueTrace.v
BlockingMove.v
ThreadPool.v
SyncedStream.v
Storage.v
MoveQueueImpl.v
VolumeServer.v
VolumeServerSpec.v
VolumeServerConc.v
Client.v
Cluster.v
ClusterSpec.v
