(* ===== verification/Prelude.v ===== *)
(** * DKV-Store: a verification of the distributed key-value store

    ** The program and its parts

    DKV-Store distributes keys over volume servers.  A key is hashed with MD5 to one
    of 1000 chunks; the shard master (server/shard_master) assigns ranges of chunks
    to volume servers and numbers its configurations; a volume server
    (server/volume_server) stores the keys of its chunks in leveldb, polls the shard
    master, and moves keys whose chunks went to another server; the client
    (client/client.cc) caches the configuration and sends each request to the owner
    of the key.  A volume server hands keys to move from its tick to its mover
    through a [moodycamel::ConcurrentQueue] and does the remote calls in a thread
    pool; both libraries are part of the sources (utils/).

    ** Where the parts are modelled

    Names of definitions are those of the code.  Integers are [Z] with the wrap-around
    of their width written out ([+u], [-u] for 32 bits, [+w], [-w] for 64 bits).  Code
    that may not return normally returns [outcome]: a failed [assert], an access out
    of bounds, a bad pointer, an uncaught exception, [exit] or a loop that exceeds its
    bound are values of [fault], and theorems show that they do not occur, or that
    they do.
    - this file: integers, outcomes, tactics and hints;
    - Shard: ranges of chunks (utils/utils.h); Rpc: messages and statuses (protos/);
    - ShardMaster: state and handlers of shard_master.cc; ShardMasterSpec: their
      specification; ShardMasterConc: the handlers as interleaved critical sections;
    - MD5: utils/md5.cc; MD5Spec: RFC 1321 and the streaming interface; MD5Rounds: the
      64 unrolled steps against the table-driven loop; Hash: get_hash_uint and the
      chunk of a key, the interface [KeyHash];
    - Storage: what the server uses of leveldb and of the queue, as the interfaces
      [LevelDB] and [MoveQueue] with their laws; VolumeServer: state and handlers of
      volume_server.cc; VolumeServerSpec: their specification; VolumeServerConc: the
      handlers as interleaved steps;
    - Client: client.cc; Cluster, ClusterSpec: shard master, servers, keys in transit
      and clients together, with lost remote calls;
    - ThreadPool, SyncedStream: utils/thread-pool/thread_pool.hpp as interleaved atomic
      steps;
    - concurrentqueue.h, bottom up.  QueueDetails: index comparison, rounding,
      hashing.  QueueIndex: the counters by which concurrent consumers claim elements,
      as interleaved atomic operations.  QueueBlock: blocks, pool, free list, over a
      heap [Heap] of numbered blocks.  FreeListConc, FreeListAlone: the free list as
      interleaved atomic operations; DebugFreeList: the list with a mutex of
      internal/concurrentqueue_internal_debug.h, likewise.  ProducerListConc,
      ProducerListAlone: the list of producers, as interleaved atomic operations.  Producer: what the two kinds of producers share.
      ImplicitProducer, ImplicitIndex, ImplicitSpec, ImplicitTrace: the producer of a
      thread; ImplicitBulk, ImplicitBulkSpec, ImplicitBulkEnqueue: its bulk operations.
      ExplicitProducer, ExplicitSpec, ExplicitEnqueue, ExplicitDestroy, ExplicitTrace:
      the producer of a token; ExplicitBulk, ExplicitBulkSpec, ExplicitBulkEnqueue: its
      bulk operations.  BlockCells, BulkLoops: the loops over a run of blocks that both
      kinds share.  ProducerHash: the hash tables from
      threads to producers.  Queue, QueueBulk: the queue itself.  ThreadExit: what the
      option MOODYCAMEL_CPP11_THREAD_LOCAL_SUPPORTED adds, listeners that are told when
      a thread ends; everything else describes the build without it.  QueueSpec,
      QueueBulkSpec, QueueThreads, QueueTokens, QueueRuns, QueueTrace: its
      specification.  QueueMove, QueueMoveSpec, QueueMoveWrite, QueueMoveTrace: queues as
      objects with addresses, which are moved and swapped, with QueueGrowth, that no
      operation loses a hash table or a producer.  MoveQueueImpl: the queue obeys the laws the
      volume server is proved against;
    - lightweightsemaphore.h in Semaphore, as interleaved atomic operations, its
      account of permits in SemaphoreSpec, SemaphoreTrace; blockingconcurrentqueue.h in
      BlockingQueue, over the queue and the semaphore, with BlockingQueueSpec and
      BlockingQueueTrace; BlockingMove, on moving and swapping.

    ** What is proved

    - Shard master: every chunk belongs to exactly one server in every reachable
      configuration; any sequence of requests is answered as the abstract assignment
      of chunks says; joins and leaves keep this under any interleaving.
    - Hashing: the MD5 code computes RFC 1321 whatever the sizes of the chunks it is
      fed, and the chunk of a key is always defined and below 1000.
    - Volume server: any sequence of requests is answered as by a key-value store
      with an acceptance test; a new configuration registers exactly the keys that
      are to move.
    - Cluster: no key and no value is lost under any interleaving of
      reconfigurations, migrations and lost messages; migrations complete; a client
      reads what it stored; client and server agree on the owner of a key.
    - Thread pool: every task is run once, in order, and an idle pool drains; what
      threads print to a synchronized stream is not mixed.
    - Queue: claims of concurrent consumers are exclusive; the free list gives no node
      to two threads, loses none, and makes nobody wait, and its variant with a mutex is
      a stack; no producer is given to two callers, and the search for one ends whatever
      other threads do; a thread that ends is out of the tables and its producers can be
      had again; both kinds of producers
      are first-in first-out queues, one element at a time and in bulk, that give their
      blocks back; the queue is one
      first-in first-out list per thread and per producer token, refuses nothing while
      memory can be allocated, and frees all its blocks; so the server's use of it is
      justified.  Queues that are moved and swapped keep their elements and tokens, and
      their producers and hash tables point to where they are.
    - Semaphore: under any interleaving no permit is made up or lost, nobody sleeps
      while a permit is left, and a thread alone returns within bounded steps.
      Blocking queue: its semaphore counts its elements, so a thread with permits
      finds as many elements, and nobody sleeps while an unclaimed element is there;
      moved or swapped, elements and semaphore stay together.
    - Where the code does not do what it means to (races between unlocked checks and
      updates, inverted and out-of-range moves, swallowed errors, an exception at the
      start of a block of an explicit producer, a refused bulk enqueue of an explicit
      producer, hash tables that threads which end use up), a theorem exhibits it.

    ** Bounds and fuel

    Loops that are not structural carry a fuel argument and return [Diverges] when it
    runs out.  The bounds are taken from the state (the number of producers, the
    capacity of a table, the number of blocks), and the theorems say that the result
    is [Ret]: the bound is enough.  Theorems about the queue bound the number of
    operations or elements below the point where 32-bit producer counts or 64-bit
    circular indices would wrap into each other; indices themselves wrap.

    ** What is not modelled

    gRPC, leveldb and the operating system are parameters: what the servers use of
    them is an interface or an argument (answers of remote calls, results of
    [malloc], thread identifiers).  The queue's operations run one at a time, except
    for the claims of QueueIndex, the free lists of FreeListConc and DebugFreeList and the
    list of producers of ProducerListConc: the memory orders of the C++ memory model are
    not modelled.  The blocking queue takes a
    call of the queue inside for one step.  Printing, command lines, tests, benchmarks
    and the C interface are left out. *)
From stdpp Require Export base gmap list strings sets fin_maps.
From Stdlib Require Export ZArith Lia.

Declare Scope dkv_scope.
Delimit Scope dkv_scope with dkv.
Open Scope Z_scope.
Open Scope dkv_scope.

(** ** Machine integers *)

Definition UINT_MOD : Z := 4294967296.

(** A 32-bit [unsigned int]: arithmetic wraps modulo 2^32. *)
Definition u32 (x : Z) : Z := x mod UINT_MOD.

Notation "a +u b" := (u32 (a + b)) (at level 50, left associativity) : dkv_scope.
Notation "a -u b" := (u32 (a - b)) (at level 50, left associativity) : dkv_scope.
Notation "a *u b" := (u32 (a * b)) (at level 40, left associativity) : dkv_scope.

Definition is_u32 (x : Z) : Prop := 0 <= x < UINT_MOD.

#[export] Instance is_u32_dec x : Decision (is_u32 x).
Proof. unfold is_u32; apply _. Defined.

(** A 64-bit [size_t]. *)
Definition UINT64_MOD : Z := 18446744073709551616.
Definition u64 (x : Z) : Z := x mod UINT64_MOD.
Definition is_u64 (x : Z) : Prop := 0 <= x < UINT64_MOD.

Notation "a +w b" := (u64 (a + b)) (at level 50, left associativity) : dkv_scope.
Notation "a -w b" := (u64 (a - b)) (at level 50, left associativity) : dkv_scope.
Notation "a *w b" := (u64 (a * b)) (at level 40, left associativity) : dkv_scope.

#[export] Instance is_u64_dec x : Decision (is_u64 x).
Proof. unfold is_u64; apply _. Defined.

(** ** Outcomes of C++ code that may not return normally *)

Inductive fault :=
  | AssertFailed       (** an [assert] whose condition is false *)
  | OutOfBounds        (** an access outside an allocated buffer *)
  | BadPointer         (** a null pointer, or memory without an object in it *)
  | UncaughtException  (** an exception of the standard library nobody catches *)
  | ProcessExit        (** [exit(-1)] *)
  | DivisionByZero     (** an integer division by zero *)
  | Diverges.          (** the loop bound given to the model was exhausted *)

Inductive outcome (A : Type) :=
  | Ret (a : A)
  | Fault (f : fault).
Arguments Ret {A} a.
Arguments Fault {A} f.

#[export] Instance fault_eq_dec : EqDecision fault.
Proof. solve_decision. Defined.

#[export] Instance outcome_ret : MRet outcome := fun A a => Ret a.
#[export] Instance outcome_bind : MBind outcome := fun A B k m =>
  match m with Ret a => k a | Fault f => Fault f end.

Definition of_option {A} (f : fault) (o : option A) : outcome A :=
  match o with Some a => Ret a | None => Fault f end.

Definition returns {A} (m : outcome A) : Prop := exists a, m = Ret a.

(** ** Hint databases *)

Create HintDb dkv.
Create Rewrite HintDb dkv.

(** ** Tactics *)

(** Case analysis on every boolean comparison of the goal or the context. *)
Ltac zbool :=
  repeat match goal with
  | |- context [?a <? ?b] => destruct (Z.ltb_spec a b)
  | |- context [?a <=? ?b] => destruct (Z.leb_spec a b)
  | |- context [?a =? ?b] => destruct (Z.eqb_spec a b)
  | H : context [?a <? ?b] |- _ => destruct (Z.ltb_spec a b)
  | H : context [?a <=? ?b] |- _ => destruct (Z.leb_spec a b)
  | H : context [?a =? ?b] |- _ => destruct (Z.eqb_spec a b)
  end.

(** Splits the conjunctions and unpacks the existentials of the context. *)
Ltac deex :=
  repeat match goal with
  | H : exists _, _ |- _ => destruct H
  | H : _ /\ _ |- _ => destruct H
  end.

(** ** Lemmas on machine integers *)

Lemma u32_range x : is_u32 (u32 x).
Proof. unfold is_u32, u32, UINT_MOD. apply Z.mod_pos_bound. lia. Qed.

Lemma u32_small x : is_u32 x -> u32 x = x.
Proof. unfold is_u32, u32. intros. apply Z.mod_small. lia. Qed.

Lemma u32_idemp x : u32 (u32 x) = u32 x.
Proof. apply u32_small, u32_range. Qed.

Lemma u64_range x : is_u64 (u64 x).
Proof. unfold is_u64, u64, UINT64_MOD. apply Z.mod_pos_bound. lia. Qed.

Lemma u64_small x : is_u64 x -> u64 x = x.
Proof. unfold is_u64, u64. intros. apply Z.mod_small. lia. Qed.

Lemma u64_add_l x y : u64 (u64 x + y) = u64 (x + y).
Proof. unfold u64. apply Zplus_mod_idemp_l. Qed.

Lemma u64_sub_l x y : u64 (u64 x - y) = u64 (x - y).
Proof. unfold u64. apply Zminus_mod_idemp_l. Qed.

Lemma u64_sub_r x y : u64 (x - u64 y) = u64 (x - y).
Proof. unfold u64. apply Zminus_mod_idemp_r. Qed.

#[export] Hint Resolve u32_range u64_range : dkv.
#[export] Hint Rewrite u32_idemp : dkv.

(** ** Lemmas on outcomes *)

(** One step of a sequence, without reducing the rest of it. *)
Lemma ret_bind {A B} (a : A) (k : A -> outcome B) : Ret a ≫= k = k a.
Proof. done. Qed.

Lemma bind_Ret {A B} (m : outcome A) (k : A -> outcome B) b :
  (m ≫= k) = Ret b <-> exists a, m = Ret a /\ k a = Ret b.
Proof.
  destruct m; split; unfold mbind, outcome_bind; intros; deex; naive_solver.
Qed.

Lemma returns_bind {A B} (m : outcome A) (k : A -> outcome B) :
  returns m -> (forall a, m = Ret a -> returns (k a)) -> returns (m ≫= k).
Proof. intros [a ->] H. exact (H a eq_refl). Qed.

(** ** Lemmas on lists *)

Lemma filter_all {A} (P : A -> Prop) `{!forall x, Decision (P x)} (l : list A) :
  Forall P l -> filter P l = l.
Proof. induction 1; [done|]. rewrite filter_cons_True by done. by f_equal. Qed.

(** ** Sums over lists *)

Fixpoint total {A} (f : A -> Z) (l : list A) : Z := match l with [] => 0 | x :: l => f x + total f l end.

Lemma total_app {A} (f : A -> Z) l l' : total f (l ++ l') = total f l + total f l'.
Proof. induction l as [|x l IH]; cbn; [done|]. rewrite IH. lia. Qed.

Lemma total_insert {A} (f : A -> Z) l i x y : l !! i = Some x -> total f (<[i := y]> l) = total f l - f x + f y.
Proof.
  revert i. induction l as [|z l IH]; intros [|i] Hi; simpl in *; try done.
  - injection Hi as ->. lia.
  - rewrite (IH i Hi). lia.
Qed.

Lemma total_bounds {A} (f : A -> Z) a b l : Forall (fun x => a <= f x <= b) l -> a * Z.of_nat (length l) <= total f l <= b * Z.of_nat (length l).
Proof. induction 1 as [|x l Hx _ IH]; cbn [total length]; lia. Qed.

Lemma total_nonneg {A} (f : A -> Z) l : Forall (fun x => 0 <= f x) l -> 0 <= total f l.
Proof. induction 1; cbn; lia. Qed.

Lemma total_le {A} (f g : A -> Z) l : Forall (fun x => f x <= g x) l -> total f l <= total g l.
Proof. induction 1; cbn; lia. Qed.

(** One of a sum of non-negative numbers. *)
Lemma total_elem {A} (f : A -> Z) l i x : Forall (fun x => 0 <= f x) l -> l !! i = Some x -> f x <= total f l.
Proof.
  intros H. revert i. induction H as [|y l Hy Hl IH]; intros [|i] Hi; cbn in *; try done.
  - injection Hi as ->. pose proof (total_nonneg f l Hl). lia.
  - specialize (IH i Hi). lia.
Qed.

Lemma total_zero {A} (f : A -> Z) l i x : total f l = 0 -> Forall (fun x => 0 <= f x) l -> l !! i = Some x -> f x = 0.
Proof. intros H0 Hl Hi. pose proof (total_elem f l i x Hl Hi). assert (0 <= f x) by (by eapply (Forall_lookup_1 _ _ _ _ Hl)). lia. Qed.

Lemma total_sub {A} (f g : A -> Z) l : total (fun x => f x - g x) l = total f l - total g l.
Proof. induction l as [|x l IH]; cbn; lia. Qed.
