(* ===== verification/Shard.v ===== *)
(** * Shards and configuration entries (utils/utils.h)

    [SMShard] is an inclusive range of chunk numbers held in two 32-bit
    unsigned integers, [SMConfigEntry] one volume server with its shards.
    [subtract] is the range difference the shard master uses to take a moved
    range away from every server.  The number of shards of a list that hold a
    chunk, [holders], is the measure in which its effect is stated: the
    configuration is a partition when every chunk has exactly one holder. *)
From S2P Require Import Prelude.

(** ** Data *)

Record SMShard := mkShard { lower : Z; upper : Z }.

Record SMConfigEntry := mkEntry { shards : list SMShard; vs_addr : string }.

#[export] Instance SMShard_eq_dec : EqDecision SMShard.
Proof. solve_decision. Defined.

#[export] Instance SMConfigEntry_eq_dec : EqDecision SMConfigEntry.
Proof. solve_decision. Defined.

(** ** Operations *)

(** [SMShard::subtract]: the chunks of [a] that are not in [b].  The end of the
    function is an [assert(false)]. *)
Definition subtract (a b : SMShard) : outcome (list SMShard) :=
  if (upper a <? lower b) || (upper b <? lower a) then Ret [a]
  else if (lower b <=? lower a) && (upper a <=? upper b) then Ret []
  else if (lower a <? lower b) && (upper b <? upper a) then
    Ret [ mkShard (lower a) (lower b -u 1); mkShard (upper b +u 1) (upper a) ]
  else if lower a <? lower b then Ret [ mkShard (lower a) (lower b -u 1) ]
  else if upper b <? upper a then Ret [ mkShard (upper b +u 1) (upper a) ]
  else Fault AssertFailed.

(** [SMShard::operator==] *)
Definition shard_eqb (a b : SMShard) : bool :=
  (lower a =? lower b) && (upper a =? upper b).

(** The test [shard.lower <= n && n <= shard.upper] the servers and the client
    write out at each use. *)
Definition contains (n : Z) (s : SMShard) : bool :=
  (lower s <=? n) && (n <=? upper s).

(** ** Well-formedness and the chunks a list of shards holds *)

Definition shard_wf (s : SMShard) : Prop :=
  0 <= lower s /\ lower s <= upper s /\ upper s < UINT_MOD.

#[export] Instance shard_wf_dec s : Decision (shard_wf s).
Proof. unfold shard_wf; apply _. Defined.

(** How many shards of [l] hold the chunk [n]. *)
Definition holders (n : Z) (l : list SMShard) : nat :=
  length (List.filter (contains n) l).

(** ** Lemmas *)

Lemma contains_spec n s : contains n s = true <-> lower s <= n <= upper s.
Proof. unfold contains. rewrite andb_true_iff, !Z.leb_le. done. Qed.

Lemma holders_nil n : holders n [] = 0%nat.
Proof. done. Qed.

Lemma holders_cons n s l :
  holders n (s :: l) = ((if contains n s then 1 else 0) + holders n l)%nat.
Proof. unfold holders; simpl. by destruct (contains n s). Qed.

Lemma holders_app n l1 l2 : holders n (l1 ++ l2) = (holders n l1 + holders n l2)%nat.
Proof. unfold holders. by rewrite List.filter_app, List.length_app. Qed.

Lemma holders_existsb n l : existsb (contains n) l = true <-> (0 < holders n l)%nat.
Proof.
  induction l as [|s l IH]; [simpl; rewrite holders_nil; split; [done|lia]|].
  rewrite holders_cons. simpl. rewrite orb_true_iff, IH.
  destruct (contains n s); split; intros; try lia; naive_solver lia.
Qed.

#[export] Hint Rewrite holders_nil holders_cons holders_app : dkv.

Lemma shard_eqb_spec a b : reflect (a = b) (shard_eqb a b).
Proof.
  destruct a as [l u], b as [l' u']. unfold shard_eqb; simpl.
  destruct (Z.eqb_spec l l'), (Z.eqb_spec u u'); constructor; congruence.
Qed.

(** The five branches of [subtract] cover every pair of arguments. *)
Lemma subtract_returns a b : returns (subtract a b).
Proof.
  unfold subtract, returns. zbool; simpl; eauto; lia.
Qed.

(** Case analysis on the branch [subtract] took, with the 32-bit arithmetic of
    the branch reduced. *)
Lemma subtract_inv a b l :
  shard_wf a -> shard_wf b -> subtract a b = Ret l ->
  (l = [a] /\ (upper a < lower b \/ upper b < lower a)) \/
  (l = [] /\ lower b <= lower a /\ upper a <= upper b) \/
  (l = [mkShard (lower a) (lower b - 1); mkShard (upper b + 1) (upper a)] /\
     lower a < lower b /\ upper b < upper a) \/
  (l = [mkShard (lower a) (lower b - 1)] /\
     lower a < lower b <= upper a /\ upper a <= upper b) \/
  (l = [mkShard (upper b + 1) (upper a)] /\
     lower b <= lower a <= upper b /\ upper b < upper a).
Proof.
  unfold shard_wf, subtract. intros Ha Hb H.
  zbool; simpl in H; try lia; simplify_eq; rewrite ?u32_small by (unfold is_u32; lia);
    auto 10 with lia.
Qed.

Lemma subtract_wf a b l :
  shard_wf a -> shard_wf b -> subtract a b = Ret l -> Forall shard_wf l.
Proof.
  intros Ha Hb H. pose proof (subtract_inv _ _ _ Ha Hb H) as Hl.
  unfold shard_wf in *. destruct Hl as [[-> ?]|[[-> ?]|[[-> ?]|[[-> ?]|[-> ?]]]]];
    repeat constructor; simpl; lia.
Qed.

Lemma subtract_holders a b l n :
  shard_wf a -> shard_wf b -> subtract a b = Ret l ->
  holders n l = if contains n a && negb (contains n b) then 1%nat else 0%nat.
Proof.
  intros Ha Hb H. pose proof (subtract_inv _ _ _ Ha Hb H) as Hl.
  unfold shard_wf in *. destruct Hl as [[-> ?]|[[-> ?]|[[-> ?]|[[-> ?]|[-> ?]]]]];
    autorewrite with dkv; unfold contains; simpl; zbool; simpl; lia.
Qed.

#[export] Hint Resolve subtract_returns : dkv.

(** ** Properties *)

(** C6: for every pair of well-formed ranges [subtract] returns (its final
    [assert(false)] is unreachable), each range it returns is well formed (no
    32-bit wrap-around in the bounds it computes), and every chunk has exactly
    one holder in the result when it is in [a] and not in [b], and none
    otherwise. *)
Theorem subtract_correct (a b : SMShard) (Ha : shard_wf a) (Hb : shard_wf b) :
  exists l, subtract a b = Ret l /\ Forall shard_wf l /\
    forall n, holders n l = if contains n a && negb (contains n b) then 1%nat else 0%nat.
Proof.
  destruct (subtract_returns a b) as [l Hl]. exists l. split; [done|split].
  - exact (subtract_wf a b l Ha Hb Hl).
  - intros n. exact (subtract_holders a b l n Ha Hb Hl).
Qed.

Lemma subtract_correct_witness :
  exists l, subtract (mkShard 0 1000) (mkShard 201 404) = Ret l /\ Forall shard_wf l /\
    forall n, holders n l =
      if contains n (mkShard 0 1000) && negb (contains n (mkShard 201 404)) then 1%nat else 0%nat.
Proof.
  apply (subtract_correct (mkShard 0 1000) (mkShard 201 404)); vm_compute; repeat split; congruence.
Defined.

(** an inverted range ([lower > upper], which [Move] does not reject) makes
    [subtract] return overlapping pieces: chunk 3 of [0, 1000] minus [5, 2] is
    held twice, so a well-formed second argument is needed for C1. *)
Theorem subtract_inverted_overlaps :
  exists l, subtract (mkShard 0 1000) (mkShard 5 2) = Ret l /\ holders 3 l = 2%nat.
Proof. eexists. split; [reflexivity|]. vm_compute. reflexivity. Qed.
