(* ===== verification/Rpc.v ===== *)
(** * gRPC statuses and protocol messages (protos/)

    The message types of protos/shard_master.proto and protos/volume_server.proto
    as records, with the fields the code reads and writes, and the status a
    handler returns.  gRPC itself is not part of the repository: a call is
    modelled at its two ends, by the handler of the server and by the status the
    caller sees, [UNAVAILABLE] standing for a transport failure. *)
From S2P Require Import Prelude Shard.

(** ** Statuses *)

Inductive StatusCode :=
  | OK | NOT_FOUND | ALREADY_EXISTS | INVALID_ARGUMENT | UNAVAILABLE.

Record Status := mkStatus { error_code : StatusCode; error_message : string }.

#[export] Instance StatusCode_eq_dec : EqDecision StatusCode.
Proof. solve_decision. Defined.

#[export] Instance Status_eq_dec : EqDecision Status.
Proof. solve_decision. Defined.

Definition status_OK : Status := mkStatus OK "".

(** [grpc::Status::ok()] *)
Definition ok (s : Status) : bool := bool_decide (error_code s = OK).

(** ** Messages of ShardMasterService *)

Record Shard := mkPbShard { pb_lower : Z; pb_upper : Z }.
Record ConfigEntry := mkPbEntry { pb_shards : list Shard; pb_server_addr : string }.
Record QueryResponse := mkQueryResponse { pb_config : list ConfigEntry }.
Record QueryConfigNumResponse := mkQueryConfigNumResponse { pb_config_num : Z }.
Record JoinRequest := mkJoinRequest { join_server_addr : string }.
Record LeaveRequest := mkLeaveRequest { leave_server_addr : string }.
Record MoveRequest := mkMoveRequest { move_server : string; move_shard : Shard }.

(** ** Messages of VolumeServerService *)

Record GetRequest := mkGetRequest { get_key : string }.
Record GetResponse := mkGetResponse { res_key : string; res_value : string }.
Record PutRequest := mkPutRequest { put_key : string; put_value : string }.
Record DeleteRequest := mkDeleteRequest { del_key : string; del_value : string }.

#[export] Instance Shard_eq_dec : EqDecision Shard.
Proof. solve_decision. Defined.
#[export] Instance ConfigEntry_eq_dec : EqDecision ConfigEntry.
Proof. solve_decision. Defined.
#[export] Instance QueryResponse_eq_dec : EqDecision QueryResponse.
Proof. solve_decision. Defined.

Lemma ok_spec s : ok s = true <-> error_code s = OK.
Proof. unfold ok. apply bool_decide_eq_true. Qed.
