(* ===== verification/ShardMaster.v ===== *)
(** * The shard master (server/shard_master/)

    [ShardMaster] holds the configuration, one entry per volume server in the
    order in which the servers joined, and the number of the configuration.  The
    handlers are [Query], [QueryConfigNum], [Move], [Join] and [Leave];
    [redistributeChunks] gives every server an equal range of the chunks
    [0 .. NUM_CHUNKS].  Here each handler runs as one step; its critical sections
    are interleaved in ShardMasterConc.  The leveldb database the constructor
    opens is never used again and has no counterpart. *)
From S2P Require Import Prelude Shard Rpc.

(** ** State *)

Definition NUM_CHUNKS : Z := 1000.

Record ShardMaster := mkSM { sm_config : list SMConfigEntry; config_num : Z }.

#[export] Instance ShardMaster_eq_dec : EqDecision ShardMaster.
Proof. solve_decision. Defined.

Definition VS_NOT_FOUND : string := "Server doesn't exist!".
Definition VS_EXISTS : string := "Server already exists!".

(** The constructor: configuration number 0, no server. *)
Definition ShardMaster_init : ShardMaster := mkSM [] 0.

(** ** Handlers *)

Definition Query_shard (s : SMShard) : Shard := mkPbShard (lower s) (upper s).

Definition Query_entry (e : SMConfigEntry) : ConfigEntry :=
  mkPbEntry (map Query_shard (shards e)) (vs_addr e).

Definition Query (sm : ShardMaster) : Status * QueryResponse :=
  (status_OK, mkQueryResponse (map Query_entry (sm_config sm))).

Definition QueryConfigNum (sm : ShardMaster) : Status * QueryConfigNumResponse :=
  (status_OK, mkQueryConfigNumResponse (config_num sm)).

(** The loops [for (config : sm_config) if (config.vs_addr == addr)]. *)
Definition serverExists (addr : string) (cfg : list SMConfigEntry) : bool :=
  existsb (fun e => bool_decide (vs_addr e = addr)) cfg.

(** The inner loop of [Move]: at most the first two ranges of each difference
    are kept. *)
Fixpoint Move_shards (mv : SMShard) (l : list SMShard) : outcome (list SMShard) :=
  match l with
  | [] => Ret []
  | shard :: rest =>
      result ← subtract shard mv;
      new_shards ← Move_shards mv rest;
      Ret (match result with
           | [] => new_shards
           | r0 :: [] => r0 :: new_shards
           | r0 :: r1 :: _ => r0 :: r1 :: new_shards
           end)
  end.

(** The body of the outer loop of [Move]. *)
Definition Move_entry (addr : string) (mv : SMShard) (e : SMConfigEntry) : outcome SMConfigEntry :=
  new_shards ← Move_shards mv (shards e);
  Ret (mkEntry (if decide (vs_addr e = addr) then new_shards ++ [mv] else new_shards) (vs_addr e)).

Fixpoint Move_config (addr : string) (mv : SMShard) (cfg : list SMConfigEntry) : outcome (list SMConfigEntry) :=
  match cfg with
  | [] => Ret []
  | e :: rest =>
      e' ← Move_entry addr mv e;
      rest' ← Move_config addr mv rest;
      Ret (e' :: rest')
  end.

Definition Move (sm : ShardMaster) (req : MoveRequest) : outcome (Status * ShardMaster) :=
  if negb (serverExists (move_server req) (sm_config sm)) then
    Ret (mkStatus NOT_FOUND VS_NOT_FOUND, sm)
  else
    let mv := mkShard (pb_lower (move_shard req)) (pb_upper (move_shard req)) in
    cfg ← Move_config (move_server req) mv (sm_config sm);
    Ret (status_OK, mkSM cfg (config_num sm +u 1)).

(** [int num_vs = this->sm_config.size()]: a 64-bit size converted to a signed
    32-bit integer. *)
Definition int_of_size (n : Z) : Z := (n + 2147483648) mod UINT_MOD - 2147483648.

(** The shard of the [i]-th of [num_vs] servers; [NUM_CHUNKS] is unsigned, so the
    arithmetic is unsigned. *)
Definition chunk_shard (num_vs i : Z) : SMShard :=
  let width := NUM_CHUNKS / u32 num_vs in
  mkShard (width *u i)
          (if i =? num_vs - 1 then NUM_CHUNKS else (width *u (i + 1)) -u 1).

Definition redistribute (cfg : list SMConfigEntry) : list SMConfigEntry :=
  let num_vs := int_of_size (Z.of_nat (length cfg)) in
  imap (fun i e => if Z.of_nat i <? num_vs
                   then mkEntry [chunk_shard num_vs (Z.of_nat i)] (vs_addr e) else e) cfg.

Definition redistributeChunks (sm : ShardMaster) : ShardMaster :=
  mkSM (redistribute (sm_config sm)) (config_num sm +u 1).

Definition Join (sm : ShardMaster) (req : JoinRequest) : Status * ShardMaster :=
  if serverExists (join_server_addr req) (sm_config sm) then
    (mkStatus ALREADY_EXISTS VS_EXISTS, sm)
  else
    let pushed := mkSM (sm_config sm ++ [mkEntry [] (join_server_addr req)]) (config_num sm) in
    (status_OK, redistributeChunks pushed).

(** The loop of [Leave]: erases the first entry of the server and tells whether
    there was one. *)
Fixpoint Leave_erase (addr : string) (cfg : list SMConfigEntry) : bool * list SMConfigEntry :=
  match cfg with
  | [] => (false, [])
  | e :: rest =>
      if decide (vs_addr e = addr) then (true, rest)
      else let '(found, rest') := Leave_erase addr rest in (found, e :: rest')
  end.

Definition Leave (sm : ShardMaster) (req : LeaveRequest) : Status * ShardMaster :=
  let '(found, cfg) := Leave_erase (leave_server_addr req) (sm_config sm) in
  let erased := mkSM cfg (config_num sm) in
  if found then (status_OK, redistributeChunks erased)
  else (mkStatus NOT_FOUND VS_NOT_FOUND, erased).

(** ** The chunks of a configuration *)

Definition addrs (cfg : list SMConfigEntry) : list string := map vs_addr cfg.

Definition cfg_holders (n : Z) (cfg : list SMConfigEntry) : nat :=
  holders n (flat_map shards cfg).

Definition cfg_wf (cfg : list SMConfigEntry) : Prop :=
  Forall (fun e => Forall shard_wf (shards e)) cfg.

(** Every chunk of [0 .. NUM_CHUNKS] has exactly one holder. *)
Definition partition (cfg : list SMConfigEntry) : Prop :=
  forall n, 0 <= n <= NUM_CHUNKS -> cfg_holders n cfg = 1%nat.

(** How many entries carry the address [a]. *)
Definition entries_of (a : string) (cfg : list SMConfigEntry) : nat :=
  length (List.filter (fun e => bool_decide (vs_addr e = a)) cfg).

Lemma cfg_holders_nil n : cfg_holders n [] = 0%nat.
Proof. done. Qed.

Lemma cfg_holders_cons n e cfg :
  cfg_holders n (e :: cfg) = (holders n (shards e) + cfg_holders n cfg)%nat.
Proof. unfold cfg_holders. simpl. apply holders_app. Qed.

#[export] Hint Rewrite cfg_holders_nil cfg_holders_cons : dkv.

Lemma entries_of_cons a e cfg :
  entries_of a (e :: cfg) = ((if decide (vs_addr e = a) then 1 else 0) + entries_of a cfg)%nat.
Proof.
  unfold entries_of. simpl. case_bool_decide; case_decide; done.
Qed.

Lemma serverExists_spec a cfg : serverExists a cfg = true <-> a ∈ addrs cfg.
Proof.
  unfold serverExists, addrs. rewrite existsb_exists, list_elem_of_In, in_map_iff.
  setoid_rewrite bool_decide_eq_true. naive_solver.
Qed.

Lemma entries_of_notin a cfg : a ∉ addrs cfg -> entries_of a cfg = 0%nat.
Proof.
  induction cfg as [|e cfg IH]; [done|]. simpl. rewrite not_elem_of_cons, entries_of_cons.
  intros [? ?]. rewrite decide_False by done. by rewrite IH.
Qed.

Lemma entries_of_nodup a cfg : NoDup (addrs cfg) -> a ∈ addrs cfg -> entries_of a cfg = 1%nat.
Proof.
  induction cfg as [|e cfg IH]; simpl; [by intros _ ?%elem_of_nil|].
  rewrite NoDup_cons, elem_of_cons, entries_of_cons. intros [Hn Hd] Ha.
  case_decide as E.
  - rewrite entries_of_notin; [done|]. by rewrite <- E.
  - rewrite IH; [done|done|]. naive_solver.
Qed.

(** ** redistributeChunks *)

Lemma int_of_size_small n : 0 <= n < 2147483648 -> int_of_size n = n.
Proof. intros. unfold int_of_size. rewrite Z.mod_small; unfold UINT_MOD; lia. Qed.

Lemma chunk_shard_small n i :
  1 <= n <= NUM_CHUNKS -> 0 <= i < n ->
  chunk_shard n i = mkShard (NUM_CHUNKS / n * i)
    (if i =? n - 1 then NUM_CHUNKS else NUM_CHUNKS / n * (i + 1) - 1).
Proof.
  unfold NUM_CHUNKS. intros Hn Hi. unfold chunk_shard, NUM_CHUNKS.
  rewrite (u32_small n) by (unfold is_u32, UINT_MOD; lia).
  assert (1 <= 1000 / n <= 1000).
  { split; [apply Z.div_le_lower_bound; lia | apply Z.div_le_upper_bound; lia]. }
  assert (1000 / n * n <= 1000) by (rewrite Z.mul_comm; apply Z.mul_div_le; lia).
  rewrite (u32_small (1000 / n * i)) by (unfold is_u32, UINT_MOD; nia).
  rewrite (u32_small (1000 / n * (i + 1))) by (unfold is_u32, UINT_MOD; nia).
  by rewrite (u32_small (_ - 1)) by (unfold is_u32, UINT_MOD; nia).
Qed.

(** The shards of the first [k] of [n] servers, [k < n]. *)
Lemma chunk_prefix n k c :
  1 <= n <= NUM_CHUNKS -> Z.of_nat k < n ->
  holders c (map (fun i => chunk_shard n (Z.of_nat i)) (seq 0 k)) =
    if (0 <=? c) && (c <? NUM_CHUNKS / n * Z.of_nat k) then 1%nat else 0%nat.
Proof.
  intros Hn. induction k as [|k IH]; intros Hk.
  - simpl. zbool; simpl; try done. lia.
  - rewrite seq_S, map_app, holders_app, IH by lia. simpl.
    rewrite chunk_shard_small by lia. autorewrite with dkv.
    assert (0 <= NUM_CHUNKS / n) by (apply Z.div_pos; unfold NUM_CHUNKS; lia).
    rewrite (proj2 (Z.eqb_neq _ _)) by lia.
    unfold contains; simpl lower; simpl upper. zbool; simpl; nia.
Qed.

Lemma chunk_all n c :
  1 <= Z.of_nat n <= NUM_CHUNKS ->
  holders c (map (fun i => chunk_shard (Z.of_nat n) (Z.of_nat i)) (seq 0 n)) =
    if (0 <=? c) && (c <=? NUM_CHUNKS) then 1%nat else 0%nat.
Proof.
  intros Hn. destruct n as [|k]; [lia|].
  rewrite seq_S, map_app, holders_app, chunk_prefix by lia. simpl map.
  rewrite chunk_shard_small by lia. rewrite (proj2 (Z.eqb_eq _ _)) by lia.
  autorewrite with dkv. unfold contains; simpl lower; simpl upper.
  assert (0 <= NUM_CHUNKS / Z.of_nat (S k) * Z.of_nat k <= NUM_CHUNKS).
  { pose proof (Z.mul_div_le NUM_CHUNKS (Z.of_nat (S k))).
    assert (0 <= NUM_CHUNKS / Z.of_nat (S k)) by (apply Z.div_pos; unfold NUM_CHUNKS; lia). nia. }
  simpl (0 + k)%nat. zbool; simpl; lia.
Qed.

Lemma shards_imap g k cfg :
  flat_map shards (imap (fun i e => mkEntry [g (k + i)%nat] (vs_addr e)) cfg) =
    map g (seq k (length cfg)).
Proof.
  revert k. induction cfg as [|e cfg IH]; intros k; [done|].
  rewrite imap_cons. simpl. rewrite Nat.add_0_r. f_equal.
  rewrite <- (IH (S k)). f_equal. apply imap_ext. intros i x _. simpl. by rewrite Nat.add_succ_r.
Qed.

Lemma redistribute_small cfg :
  Z.of_nat (length cfg) <= NUM_CHUNKS ->
  redistribute cfg =
    imap (fun i e => mkEntry [chunk_shard (Z.of_nat (length cfg)) (Z.of_nat i)] (vs_addr e)) cfg.
Proof.
  unfold NUM_CHUNKS, redistribute. intros H. rewrite int_of_size_small by lia.
  apply imap_ext. intros i e Hi. apply lookup_lt_Some in Hi.
  by rewrite (proj2 (Z.ltb_lt _ _)) by lia.
Qed.

Lemma redistribute_holders cfg c :
  1 <= Z.of_nat (length cfg) <= NUM_CHUNKS ->
  cfg_holders c (redistribute cfg) = if (0 <=? c) && (c <=? NUM_CHUNKS) then 1%nat else 0%nat.
Proof.
  intros H. unfold cfg_holders. rewrite redistribute_small by lia.
  rewrite (shards_imap (fun i => chunk_shard (Z.of_nat (length cfg)) (Z.of_nat i)) 0).
  by apply chunk_all.
Qed.

Lemma redistribute_addrs cfg : addrs (redistribute cfg) = addrs cfg.
Proof.
  unfold addrs, redistribute. generalize (int_of_size (Z.of_nat (length cfg))) as n.
  intros n. apply list_eq. intros i. rewrite !list_lookup_fmap, list_lookup_imap.
  destruct (cfg !! i); simpl; [|done]. by destruct (_ <? _).
Qed.

Lemma redistribute_wf cfg :
  Z.of_nat (length cfg) <= NUM_CHUNKS -> cfg_wf (redistribute cfg).
Proof.
  intros H. rewrite redistribute_small by done. apply Forall_lookup_2.
  intros i e He. rewrite list_lookup_imap in He. apply fmap_Some in He as (x & Hx & ->).
  apply lookup_lt_Some in Hx. apply Forall_singleton. unfold NUM_CHUNKS in *.
  rewrite chunk_shard_small by (unfold NUM_CHUNKS; lia).
  assert (1 <= 1000 / Z.of_nat (length cfg)) by (apply Z.div_le_lower_bound; lia).
  pose proof (Z.mul_div_le 1000 (Z.of_nat (length cfg))).
  unfold shard_wf, UINT_MOD, NUM_CHUNKS. zbool; simpl; nia.
Qed.

#[export] Hint Rewrite redistribute_addrs : dkv.
#[export] Hint Resolve redistribute_wf : dkv.

(** ** Move *)

Lemma Move_shards_spec mv l :
  shard_wf mv -> Forall shard_wf l ->
  exists l', Move_shards mv l = Ret l' /\ Forall shard_wf l' /\
    forall n, holders n l' = if contains n mv then 0%nat else holders n l.
Proof.
  intros Hmv. induction 1 as [|s l Hs Hl IH].
  { exists []. split; [done|]. split; [done|]. intros n. by destruct (contains n mv). }
  destruct IH as (l' & E & Hwf & Hh). destruct (subtract_returns s mv) as [r Hr].
  assert (Forall shard_wf (r ++ l')) as Hwf'.
  { apply Forall_app; split; [|done]. exact (subtract_wf _ _ _ Hs Hmv Hr). }
  exists (r ++ l'). split; [|split; [done|]].
  - simpl. rewrite Hr. cbn. rewrite E. cbn.
    pose proof (subtract_inv _ _ _ Hs Hmv Hr) as Hi.
    by destruct Hi as [[-> ?]|[[-> ?]|[[-> ?]|[[-> ?]|[-> ?]]]]].
  - intros n. rewrite holders_app, Hh, (subtract_holders _ _ _ n Hs Hmv Hr), holders_cons.
    by destruct (contains n s), (contains n mv).
Qed.

(** What [Move] does to one entry. *)
Definition entry_moved (addr : string) (mv : SMShard) (e e' : SMConfigEntry) : Prop :=
  vs_addr e' = vs_addr e /\ Forall shard_wf (shards e') /\
  forall n, holders n (shards e') =
    if contains n mv then (if decide (vs_addr e = addr) then 1%nat else 0%nat)
    else holders n (shards e).

Lemma Move_entry_spec addr mv e :
  shard_wf mv -> Forall shard_wf (shards e) ->
  exists e', Move_entry addr mv e = Ret e' /\ entry_moved addr mv e e'.
Proof.
  intros Hmv He. destruct (Move_shards_spec mv (shards e) Hmv He) as (l' & E & Hwf & Hh).
  unfold Move_entry. rewrite E. cbn. eexists. split; [done|]. unfold entry_moved; simpl.
  case_decide; split; try split; try done.
  - apply Forall_app; split; [done|by apply Forall_singleton].
  - intros n. rewrite holders_app, Hh, holders_cons, holders_nil. by destruct (contains n mv); [|lia].
Qed.

Lemma Move_config_spec addr mv cfg :
  shard_wf mv -> cfg_wf cfg ->
  exists cfg', Move_config addr mv cfg = Ret cfg' /\ Forall2 (entry_moved addr mv) cfg cfg'.
Proof.
  intros Hmv. induction 1 as [|e cfg He Hc IH]; [by exists []|].
  destruct IH as (cfg' & E & HF). destruct (Move_entry_spec addr mv e Hmv He) as (e' & Ee & Hm).
  exists (e' :: cfg'). simpl. rewrite Ee. cbn. rewrite E. cbn. by split; [|constructor].
Qed.

Lemma moved_addrs addr mv cfg cfg' :
  Forall2 (entry_moved addr mv) cfg cfg' -> addrs cfg' = addrs cfg.
Proof.
  unfold addrs. induction 1 as [|e e' cfg cfg' (Ha & _) _ IH]; simpl; [done|]. by rewrite Ha, IH.
Qed.

Lemma moved_wf addr mv cfg cfg' : Forall2 (entry_moved addr mv) cfg cfg' -> cfg_wf cfg'.
Proof. induction 1 as [|e e' cfg cfg' (_ & Hw & _) _ IH]; constructor; done. Qed.

Lemma moved_holders addr mv cfg cfg' n :
  Forall2 (entry_moved addr mv) cfg cfg' ->
  cfg_holders n cfg' = if contains n mv then entries_of addr cfg else cfg_holders n cfg.
Proof.
  induction 1 as [|e e' cfg cfg' (_ & _ & Hh) _ IH]; [by destruct (contains n mv)|].
  rewrite !cfg_holders_cons, entries_of_cons, Hh, IH. by destruct (contains n mv).
Qed.

(** ** Leave and Join *)

Lemma Leave_erase_found addr cfg : fst (Leave_erase addr cfg) = serverExists addr cfg.
Proof.
  unfold serverExists. induction cfg as [|e cfg IH]; simpl; [done|].
  case_decide; case_bool_decide; try done. rewrite <- IH. by destruct (Leave_erase addr cfg).
Qed.

Lemma Leave_erase_notin addr cfg : addr ∉ addrs cfg -> Leave_erase addr cfg = (false, cfg).
Proof.
  induction cfg as [|e cfg IH]; simpl; [done|]. rewrite not_elem_of_cons. intros [? ?].
  rewrite decide_False by done. by rewrite IH.
Qed.

Lemma Leave_erase_app addr cfg e :
  addr ∉ addrs cfg -> vs_addr e = addr -> Leave_erase addr (cfg ++ [e]) = (true, cfg).
Proof.
  intros Hn He. induction cfg as [|e' cfg IH]; simpl in *.
  - by rewrite decide_True.
  - rewrite not_elem_of_cons in Hn. rewrite decide_False by naive_solver. by rewrite IH by naive_solver.
Qed.

Lemma Leave_erase_sublist addr cfg : sublist (snd (Leave_erase addr cfg)) cfg.
Proof.
  induction cfg as [|e cfg IH]; simpl; [done|]. case_decide; [by constructor|].
  destruct (Leave_erase addr cfg). simpl in *. by constructor.
Qed.

Lemma Leave_erase_gone addr cfg :
  NoDup (addrs cfg) -> addr ∉ addrs (snd (Leave_erase addr cfg)).
Proof.
  induction cfg as [|e cfg IH]; simpl; [set_solver|]. rewrite NoDup_cons. intros [Hn Hd].
  case_decide as E; [simpl; by subst addr|]. specialize (IH Hd).
  destruct (Leave_erase addr cfg). simpl in *. rewrite elem_of_cons. naive_solver.
Qed.

(** ** The invariant *)

(** At most [NUM_CHUNKS] servers with distinct addresses, well-formed shards, no
    chunk held twice, and as soon as there is a server no chunk without holder. *)
Record sm_inv (sm : ShardMaster) : Prop := mk_sm_inv {
  inv_size : Z.of_nat (length (sm_config sm)) <= NUM_CHUNKS;
  inv_nodup : NoDup (addrs (sm_config sm));
  inv_wf : cfg_wf (sm_config sm);
  inv_unique : forall n, (cfg_holders n (sm_config sm) <= 1)%nat;
  inv_partition : sm_config sm <> [] -> partition (sm_config sm);
  inv_num : is_u32 (config_num sm) }.

(** One request at a time: a join while there is room, a leave, or a move of a
    well-formed range, whatever the answer. *)
Inductive sm_step : ShardMaster -> ShardMaster -> Prop :=
  | step_join sm req :
      Z.of_nat (length (sm_config sm)) < NUM_CHUNKS ->
      sm_step sm (snd (Join sm req))
  | step_leave sm req : sm_step sm (snd (Leave sm req))
  | step_move sm req st sm' :
      shard_wf (mkShard (pb_lower (move_shard req)) (pb_upper (move_shard req))) ->
      Move sm req = Ret (st, sm') ->
      sm_step sm sm'.

Lemma redistribute_inv cfg n :
  Z.of_nat (length cfg) <= NUM_CHUNKS -> NoDup (addrs cfg) ->
  sm_inv (redistributeChunks (mkSM cfg n)).
Proof.
  intros Hl Hd. assert (length (redistribute cfg) = length cfg) as El.
  { apply length_imap. }
  destruct (decide (cfg = [])) as [->|Hne].
  { constructor; simpl; try done; eauto with dkv. }
  assert (1 <= Z.of_nat (length cfg) <= NUM_CHUNKS) as Hr.
  { destruct cfg; [done|simpl in *; lia]. }
  constructor; simpl; rewrite ?El, ?redistribute_addrs; eauto with dkv.
  - intros c. rewrite redistribute_holders by done. by destruct (_ && _); lia.
  - intros _ c Hc. rewrite redistribute_holders by done. by zbool; simpl; try lia.
Qed.

Lemma Join_inv sm req :
  Z.of_nat (length (sm_config sm)) < NUM_CHUNKS -> sm_inv sm -> sm_inv (snd (Join sm req)).
Proof.
  intros Hl Hi. unfold Join. destruct (serverExists _ _) eqn:E; [done|]. simpl.
  apply redistribute_inv; [rewrite length_app; simpl; lia|].
  assert (join_server_addr req ∉ addrs (sm_config sm)) as Hn.
  { rewrite <- serverExists_spec, E. done. }
  unfold addrs. rewrite map_app. apply NoDup_app. split; [apply Hi|]. split.
  - intros x Hx. simpl. rewrite list_elem_of_singleton. intros ->. done.
  - apply NoDup_singleton.
Qed.

Lemma Leave_inv sm req : sm_inv sm -> sm_inv (snd (Leave sm req)).
Proof.
  intros Hi. unfold Leave.
  pose proof (Leave_erase_sublist (leave_server_addr req) (sm_config sm)) as Hs.
  destruct (Leave_erase _ _) as [[] cfg] eqn:E; simpl in *.
  - apply redistribute_inv.
    + apply sublist_length in Hs. pose proof (inv_size _ Hi). lia.
    + eapply sublist_NoDup; [apply (inv_nodup _ Hi)|]. by apply (fmap_sublist vs_addr).
  - assert (leave_server_addr req ∉ addrs (sm_config sm)) as Hn.
    { rewrite <- serverExists_spec, <- Leave_erase_found, E. done. }
    rewrite Leave_erase_notin in E by done. injection E as <-. by destruct sm.
Qed.

Lemma Move_inv sm req st sm' :
  shard_wf (mkShard (pb_lower (move_shard req)) (pb_upper (move_shard req))) ->
  Move sm req = Ret (st, sm') -> sm_inv sm -> sm_inv sm'.
Proof.
  intros Hmv H Hi. unfold Move in H. destruct (serverExists _ _) eqn:Ex; [|by simplify_eq/=].
  apply serverExists_spec in Ex. simpl in H.
  destruct (Move_config_spec (move_server req) _ _ Hmv (inv_wf _ Hi)) as (cfg' & E & HF).
  rewrite E in H. cbn in H. simplify_eq.
  pose proof (fun n => moved_holders _ _ _ _ n HF) as Hh.
  rewrite entries_of_nodup in Hh by (try done; apply Hi).
  constructor; simpl.
  - erewrite <- Forall2_length by done. apply Hi.
  - rewrite (moved_addrs _ _ _ _ HF). apply Hi.
  - eapply moved_wf; done.
  - intros n. rewrite Hh. destruct (contains _ _); [done|apply Hi].
  - intros _ n Hn. rewrite Hh. destruct (contains _ _); [done|].
    apply (inv_partition _ Hi); [|done]. intros E'. rewrite E' in Ex. by apply elem_of_nil in Ex.
  - eauto with dkv.
Qed.

Lemma sm_init_inv : sm_inv ShardMaster_init.
Proof.
  apply mk_sm_inv; simpl; unfold NUM_CHUNKS, is_u32, UINT_MOD; try done; try lia.
  - apply NoDup_nil_2.
  - apply Forall_nil_2.
  - intros n. rewrite cfg_holders_nil. lia.
Qed.

Lemma sm_step_inv sm sm' : sm_step sm sm' -> sm_inv sm -> sm_inv sm'.
Proof. destruct 1; eauto using Join_inv, Leave_inv, Move_inv. Qed.

#[export] Hint Resolve sm_init_inv sm_step_inv : dkv.
