(* ===== verification/ShardMasterSpec.v ===== *)
(** * What the shard master promises

    The abstract specification of the shard master is an assignment: the member
    servers in joining order, the owner of every chunk and a version number.
    [Join] and [Leave] replace the assignment by the balanced one, [Move] gives a
    range of chunks to one server.  The handlers of ShardMaster.v refine it on
    every sequence of requests ([sm_trace_refines]); the other properties are the
    partition invariant, the error branches, the balance of
    [redistributeChunks] and what happens beyond [NUM_CHUNKS] servers. *)
From S2P Require Import Prelude Shard Rpc ShardMaster.

(** ** Owners *)

(** The first server of the configuration one of whose shards holds [c]. *)
Definition owner (cfg : list SMConfigEntry) (c : Z) : option string :=
  vs_addr <$> List.find (fun e => existsb (contains c) (shards e)) cfg.

(** ** The abstract specification *)

Record Assignment := mkAssignment {
  members : list string; owner_of : Z -> option string; version : Z }.

Definition a_init : Assignment := mkAssignment [] (fun _ => None) 0.

(** Each of the [n] members gets a run of [NUM_CHUNKS / n] chunks, the last one
    also the remainder. *)
Definition balanced_owner (ms : list string) (c : Z) : option string :=
  let n := Z.of_nat (length ms) in
  if decide (0 <= c <= NUM_CHUNKS)
  then ms !! Z.to_nat (Z.min (c / (NUM_CHUNKS / n)) (n - 1)) else None.

Inductive request :=
  | RJoin (a : string) | RLeave (a : string) | RMove (a : string) (l u : Z).

Definition a_handle (s : Assignment) (r : request) : StatusCode * Assignment :=
  match r with
  | RJoin a =>
      if decide (a ∈ members s) then (ALREADY_EXISTS, s)
      else let ms := members s ++ [a] in
           (OK, mkAssignment ms (balanced_owner ms) (version s +u 1))
  | RLeave a =>
      if decide (a ∈ members s)
      then let ms := filter (fun x => x <> a) (members s) in
           (OK, mkAssignment ms (balanced_owner ms) (version s +u 1))
      else (NOT_FOUND, s)
  | RMove a l u =>
      if decide (a ∈ members s)
      then (OK, mkAssignment (members s)
             (fun c => if decide (l <= c <= u) then Some a else owner_of s c) (version s +u 1))
      else (NOT_FOUND, s)
  end.

(** ** The implementation on the same requests *)

Definition handle (sm : ShardMaster) (r : request) : outcome (Status * ShardMaster) :=
  match r with
  | RJoin a => Ret (Join sm (mkJoinRequest a))
  | RLeave a => Ret (Leave sm (mkLeaveRequest a))
  | RMove a l u => Move sm (mkMoveRequest a (mkPbShard l u))
  end.

Fixpoint run (sm : ShardMaster) (rs : list request) : outcome (list StatusCode * ShardMaster) :=
  match rs with
  | [] => Ret ([], sm)
  | r :: rs =>
      '(st, sm') ← handle sm r;
      '(sts, sm'') ← run sm' rs;
      Ret (error_code st :: sts, sm'')
  end.

Fixpoint a_run (s : Assignment) (rs : list request) : list StatusCode * Assignment :=
  match rs with
  | [] => ([], s)
  | r :: rs =>
      let '(st, s') := a_handle s r in
      let '(sts, s'') := a_run s' rs in
      (st :: sts, s'')
  end.

(** Requests whose range is well formed. *)
Definition request_ok (r : request) : Prop :=
  match r with RMove _ l u => shard_wf (mkShard l u) | _ => True end.

#[export] Instance request_ok_dec r : Decision (request_ok r).
Proof. destruct r; simpl; apply _. Defined.

Definition is_join (r : request) : bool := match r with RJoin _ => true | _ => false end.

Definition joins (rs : list request) : nat := length (List.filter is_join rs).

(** The implementation state [sm] represents the assignment [s]. *)
Record refines (sm : ShardMaster) (s : Assignment) : Prop := mk_refines {
  ref_members : members s = addrs (sm_config sm);
  ref_owner : forall c, owner_of s c = owner (sm_config sm) c;
  ref_version : version s = config_num sm }.

(** ** Lemmas on owners *)

Lemma find_index {A} (f : A -> bool) l k x :
  l !! k = Some x -> (forall i y, l !! i = Some y -> (f y = true <-> i = k)) -> List.find f l = Some x.
Proof.
  revert k. induction l as [|y l IH]; intros k Hk Hf; [done|]. simpl.
  destruct k as [|k].
  - assert (f y = true) as -> by by apply (Hf 0%nat). by simplify_eq/=.
  - destruct (f y) eqn:E; [by apply (Hf 0%nat) in E|].
    apply (IH k); [done|]. intros i z Hz. rewrite (Hf (S i) z Hz). lia.
Qed.

Lemma owner_None cfg c : owner cfg c = None <-> cfg_holders c cfg = 0%nat.
Proof.
  unfold owner. induction cfg as [|e cfg IH]; [done|]. simpl. rewrite cfg_holders_cons.
  pose proof (holders_existsb c (shards e)) as He.
  destruct (existsb _ _); simpl.
  - split; [done|]. destruct He as [He _]. specialize (He eq_refl). lia.
  - rewrite IH. destruct (holders c (shards e)); [lia|]. by assert (false = true) by (apply He; lia).
Qed.

Lemma owner_Some cfg c a :
  owner cfg c = Some a -> exists e, e ∈ cfg /\ vs_addr e = a /\ (0 < holders c (shards e))%nat.
Proof.
  unfold owner. intros (e & He & ->)%fmap_Some. apply List.find_some in He as [Hin Hc].
  exists e. rewrite list_elem_of_In. split; [done|split; [done|]]. by apply holders_existsb.
Qed.

(** When no chunk is held twice the owner is the only entry that holds it. *)
Lemma owner_unique cfg c e :
  (cfg_holders c cfg <= 1)%nat -> e ∈ cfg -> (0 < holders c (shards e))%nat ->
  owner cfg c = Some (vs_addr e).
Proof.
  unfold owner. induction cfg as [|e' cfg IH]; [by intros _ ?%elem_of_nil|].
  rewrite cfg_holders_cons, elem_of_cons. intros Hu Hin Hh. simpl.
  pose proof (holders_existsb c (shards e')) as He. destruct (existsb _ _) eqn:Ex.
  - destruct Hin as [->|Hin]; [done|]. exfalso.
    assert (0 < cfg_holders c cfg)%nat; [|destruct He as [He _]; specialize (He eq_refl); lia].
    clear -Hin Hh. induction Hin; rewrite cfg_holders_cons; lia.
  - destruct Hin as [->|Hin]; [by assert (false = true) by (by apply He)|]. apply IH; [lia|done|done].
Qed.

(** Server [i] of [n] holds exactly the chunks of the balanced assignment. *)
Lemma chunk_shard_index n i c :
  1 <= n <= NUM_CHUNKS -> 0 <= i < n -> 0 <= c <= NUM_CHUNKS ->
  contains c (chunk_shard n i) = true <-> i = Z.min (c / (NUM_CHUNKS / n)) (n - 1).
Proof.
  intros Hn Hi Hc. rewrite chunk_shard_small by done. rewrite contains_spec. simpl.
  assert (1 <= NUM_CHUNKS / n) as Hw by (apply Z.div_le_lower_bound; unfold NUM_CHUNKS in *; lia).
  pose proof (Z.div_mod c (NUM_CHUNKS / n) ltac:(lia)) as Hq.
  pose proof (Z.mod_pos_bound c (NUM_CHUNKS / n) ltac:(lia)) as Hm.
  set (w := NUM_CHUNKS / n) in *. set (q := c / w) in *. zbool; nia.
Qed.

Lemma owner_redistribute cfg c :
  Z.of_nat (length cfg) <= NUM_CHUNKS ->
  owner (redistribute cfg) c = balanced_owner (addrs cfg) c.
Proof.
  intros Hl. destruct (decide (cfg = [])) as [->|Hne].
  { unfold balanced_owner. by case_decide. }
  assert (1 <= Z.of_nat (length cfg)) as Hl1 by (destruct cfg; [done|simpl; lia]).
  unfold balanced_owner. assert (length (addrs cfg) = length cfg) as -> by apply length_map.
  case_decide as Hc.
  2:{ apply owner_None. rewrite redistribute_holders by lia. zbool; simpl; lia. }
  set (n := Z.of_nat (length cfg)) in *. set (k := Z.min _ _).
  assert (0 <= k < n) as Hk.
  { split; [|unfold k; lia]. apply Z.min_glb; [apply Z.div_pos; try lia|lia].
    apply Z.div_str_pos. unfold NUM_CHUNKS in *. lia. }
  destruct (lookup_lt_is_Some_2 cfg (Z.to_nat k)) as [e He]; [lia|].
  unfold owner. rewrite redistribute_small by done. fold n.
  erewrite (find_index _ _ (Z.to_nat k)); [|by rewrite list_lookup_imap, He|].
  - simpl. unfold addrs. by rewrite list_lookup_fmap, He.
  - intros i y Hy. rewrite list_lookup_imap in Hy. apply fmap_Some in Hy as (x & Hx & ->).
    apply lookup_lt_Some in Hx. simpl. rewrite orb_false_r, chunk_shard_index by lia. fold k. lia.
Qed.

Lemma existsb_holders c l : existsb (contains c) l = (0 <? Z.of_nat (holders c l)).
Proof.
  apply eq_true_iff_eq. rewrite holders_existsb, Z.ltb_lt. lia.
Qed.

Lemma owner_moved addr mv cfg cfg' c :
  Forall2 (entry_moved addr mv) cfg cfg' -> NoDup (addrs cfg) -> addr ∈ addrs cfg ->
  owner cfg' c = if contains c mv then Some addr else owner cfg c.
Proof.
  intros HF Hd Ha. destruct (contains c mv) eqn:Ec.
  - unfold addrs in Ha. apply list_elem_of_fmap in Ha as (e & -> & He).
    apply list_elem_of_lookup in He as [i Hi].
    destruct (Forall2_lookup_l _ _ _ _ _ HF Hi) as (e' & Hi' & Hm & _ & Hh).
    rewrite <- Hm. apply owner_unique.
    + rewrite (moved_holders _ _ _ _ c HF), Ec, entries_of_nodup; [done|done|].
      unfold addrs. apply list_elem_of_fmap. exists e. split; [done|]. by eapply list_elem_of_lookup_2.
    + by eapply list_elem_of_lookup_2.
    + rewrite Hh, Ec, decide_True by done. lia.
  - unfold owner. clear Hd Ha. induction HF as [|e e' l l' (Hm & _ & Hh) _ IH]; [done|]. simpl.
    rewrite !existsb_holders, Hh, Ec, <- !existsb_holders.
    destruct (existsb _ _); simpl; [by rewrite Hm|done].
Qed.

Lemma Leave_erase_addrs addr cfg :
  NoDup (addrs cfg) -> addrs (snd (Leave_erase addr cfg)) = filter (fun x => x <> addr) (addrs cfg).
Proof.
  induction cfg as [|e cfg IH]; simpl; [done|]. rewrite NoDup_cons. intros [Hn Hd].
  rewrite filter_cons. specialize (IH Hd). case_decide as E.
  - rewrite decide_False by naive_solver. simpl. rewrite filter_all; [done|].
    apply Forall_forall. intros x Hx ->. apply Hn. by rewrite E.
  - rewrite decide_True by done. destruct (Leave_erase addr cfg). simpl in *. by rewrite IH.
Qed.

Lemma refines_balanced cfg n ms :
  Z.of_nat (length cfg) <= NUM_CHUNKS -> ms = addrs cfg ->
  refines (redistributeChunks (mkSM cfg n)) (mkAssignment ms (balanced_owner ms) (n +u 1)).
Proof.
  intros Hl ->. constructor; simpl; [by rewrite redistribute_addrs| |done].
  intros c. by rewrite owner_redistribute.
Qed.

(** ** Simulation of one request *)

Definition room (sm : ShardMaster) (r : request) : Prop :=
  is_join r = true -> Z.of_nat (length (sm_config sm)) < NUM_CHUNKS.

Definition simulates (sm : ShardMaster) (s : Assignment) (r : request) : Prop :=
  exists st sm', handle sm r = Ret (st, sm') /\ error_code st = fst (a_handle s r) /\
    refines sm' (snd (a_handle s r)).

Lemma refines_member sm s a :
  refines sm s -> a ∈ members s <-> serverExists a (sm_config sm) = true.
Proof. intros H. by rewrite (ref_members _ _ H), serverExists_spec. Qed.

Lemma join_simulates sm s a : refines sm s -> room sm (RJoin a) -> simulates sm s (RJoin a).
Proof.
  intros Hr Hroom. specialize (Hroom eq_refl). unfold simulates; simpl. unfold Join; simpl.
  pose proof (refines_member _ _ a Hr) as Hm.
  destruct (serverExists a (sm_config sm)); case_decide; try naive_solver.
  do 2 eexists. split; [done|]. split; [done|]. simpl. rewrite (ref_version _ _ Hr).
  apply refines_balanced; [rewrite length_app; simpl; lia|].
  unfold addrs. by rewrite map_app, (ref_members _ _ Hr).
Qed.

Lemma leave_simulates sm s a : sm_inv sm -> refines sm s -> simulates sm s (RLeave a).
Proof.
  intros Hi Hr. unfold simulates; simpl. unfold Leave; simpl.
  pose proof (refines_member _ _ a Hr) as Hm.
  pose proof (Leave_erase_addrs a _ (inv_nodup _ Hi)) as Ha.
  pose proof (sublist_length _ _ (Leave_erase_sublist a (sm_config sm))) as Hl.
  rewrite <- Leave_erase_found in Hm. destruct (Leave_erase _ _) as [[] cfg] eqn:E; simpl in *.
  - rewrite decide_True by naive_solver. do 2 eexists. split; [done|]. split; [done|].
    rewrite (ref_version _ _ Hr), (ref_members _ _ Hr).
    apply refines_balanced; [pose proof (inv_size _ Hi); lia|done].
  - rewrite decide_False by naive_solver. do 2 eexists. split; [done|]. split; [done|].
    rewrite Leave_erase_notin in E.
    2:{ rewrite <- serverExists_spec, <- Leave_erase_found, E. done. }
    simplify_eq/=. by destruct sm.
Qed.

Lemma move_simulates sm s a l u :
  sm_inv sm -> refines sm s -> request_ok (RMove a l u) -> simulates sm s (RMove a l u).
Proof.
  intros Hi Hr Hok. unfold simulates; simpl. unfold Move; simpl.
  pose proof (refines_member _ _ a Hr) as Hm.
  destruct (serverExists a (sm_config sm)) eqn:E; case_decide; try naive_solver. simpl.
  destruct (Move_config_spec a (mkShard l u) _ Hok (inv_wf _ Hi)) as (cfg' & -> & HF).
  cbn. do 2 eexists. split; [done|]. split; [done|].
  constructor; simpl.
  - by rewrite (moved_addrs _ _ _ _ HF), (ref_members _ _ Hr).
  - intros c. rewrite (owner_moved _ _ _ _ c HF); [|apply Hi|by apply serverExists_spec].
    rewrite (ref_owner _ _ Hr). pose proof (contains_spec c (mkShard l u)) as Hc. simpl in Hc.
    destruct (contains _ _); case_decide; naive_solver.
  - by rewrite (ref_version _ _ Hr).
Qed.

Lemma handle_simulates sm s r :
  sm_inv sm -> refines sm s -> request_ok r -> room sm r -> simulates sm s r.
Proof. destruct r; eauto using join_simulates, leave_simulates, move_simulates. Qed.

Lemma handle_step sm r st sm' :
  handle sm r = Ret (st, sm') -> request_ok r -> room sm r -> sm_step sm sm'.
Proof.
  destruct r; simpl; intros H Hok Hroom.
  - injection H as H. replace sm' with (snd (Join sm (mkJoinRequest a))) by by rewrite H.
    constructor. by apply Hroom.
  - injection H as H. replace sm' with (snd (Leave sm (mkLeaveRequest a))) by by rewrite H.
    constructor.
  - by apply (step_move sm (mkMoveRequest a (mkPbShard l u)) st).
Qed.

Lemma handle_length sm r st sm' :
  handle sm r = Ret (st, sm') ->
  (length (sm_config sm') <= length (sm_config sm) + if is_join r then 1 else 0)%nat.
Proof.
  destruct r; simpl; intros H.
  - injection H as H. unfold Join in H. simpl in H. destruct (serverExists _ _); simplify_eq/=; [lia|].
    unfold redistribute. rewrite length_imap, length_app. simpl. lia.
  - injection H as H. unfold Leave in H. simpl in H.
    pose proof (sublist_length _ _ (Leave_erase_sublist a (sm_config sm))) as Hl.
    destruct (Leave_erase _ _) as [[] cfg]; simplify_eq/=; unfold redistribute; rewrite ?length_imap; lia.
  - unfold Move in H. simpl in H. destruct (serverExists _ _); simplify_eq/=; [|lia].
    apply bind_Ret in H as (cfg & Hc & H). simplify_eq/=.
    enough (length cfg = length (sm_config sm)) by lia. clear -Hc. revert cfg Hc.
    induction (sm_config sm) as [|e es IH]; simpl; intros cfg Hc; [by simplify_eq|].
    apply bind_Ret in Hc as (e' & _ & Hc). apply bind_Ret in Hc as (es' & Hl & Hc).
    simplify_eq/=. by rewrite (IH _ Hl).
Qed.

(** ** Properties *)


Definition demo_trace : list request :=
  [RJoin "a"; RJoin "b"; RJoin "a"; RMove "a" 600 700; RMove "z" 0 1; RLeave "b"; RLeave "b"].


(** in every configuration reachable by requests (joins while there are
    fewer than [NUM_CHUNKS] servers, moves of well-formed ranges) the addresses
    are distinct, the shards are well formed, no chunk is held twice, and if
    there is a server every chunk of [0 .. NUM_CHUNKS] is held exactly once. *)
Theorem sm_reachable_partition (sm : ShardMaster) (H : rtc sm_step ShardMaster_init sm) :
  NoDup (addrs (sm_config sm)) /\ cfg_wf (sm_config sm) /\
  (forall n, (cfg_holders n (sm_config sm) <= 1)%nat) /\
  (sm_config sm <> [] -> partition (sm_config sm)).
Proof.
  assert (sm_inv sm) as Hi.
  { eapply (rtc_ind_r sm_inv); [..|exact H]; eauto with dkv. }
  split; [apply Hi|]. split; [apply Hi|]. split; apply Hi.
Qed.

Lemma sm_reachable_partition_witness :
  partition (sm_config (snd (Join (snd (Join ShardMaster_init (mkJoinRequest "a"))) (mkJoinRequest "b")))).
Proof.
  refine (proj2 (proj2 (proj2 (sm_reachable_partition _ _))) _).
  - eapply rtc_l; [apply (step_join _ (mkJoinRequest "a")); vm_compute; congruence|].
    eapply rtc_l; [apply (step_join _ (mkJoinRequest "b")); vm_compute; congruence|].
    apply rtc_refl.
  - vm_compute. discriminate.
Defined.

(** C12: [redistributeChunks] on [n] servers, [1 <= n <= NUM_CHUNKS], keeps the
    servers in order, increments the configuration number modulo 2^32, and gives
    chunk [c] to server [min (c / (NUM_CHUNKS / n)) (n - 1)]: runs of equal width
    with the remainder on the last server, every chunk held once. *)
Theorem redistributeChunks_balanced (sm : ShardMaster)
    (Hn : 1 <= Z.of_nat (length (sm_config sm)) <= NUM_CHUNKS) :
  addrs (sm_config (redistributeChunks sm)) = addrs (sm_config sm) /\
  config_num (redistributeChunks sm) = config_num sm +u 1 /\
  (forall c, owner (sm_config (redistributeChunks sm)) c = balanced_owner (addrs (sm_config sm)) c) /\
  (forall c, cfg_holders c (sm_config (redistributeChunks sm)) =
     if (0 <=? c) && (c <=? NUM_CHUNKS) then 1%nat else 0%nat).
Proof.
  simpl. split; [apply redistribute_addrs|]. split; [done|]. split.
  - intros c. apply owner_redistribute. lia.
  - intros c. by apply redistribute_holders.
Qed.

Lemma redistributeChunks_balanced_witness :
  owner (sm_config (redistributeChunks (mkSM [mkEntry [] "a"; mkEntry [] "b"; mkEntry [] "c"] 7))) 999
    = Some "c"%string.
Proof.
  rewrite (proj1 (proj2 (proj2 (redistributeChunks_balanced
    (mkSM [mkEntry [] "a"; mkEntry [] "b"; mkEntry [] "c"] 7) ltac:(vm_compute; split; congruence))))).
  vm_compute. reflexivity.
Defined.

(** beyond [NUM_CHUNKS] servers the width [NUM_CHUNKS / n] is 0 and the upper
    bound [0 * (i + 1) - 1] wraps to [UINT_MAX]: after [redistributeChunks] every
    server but the last holds every 32-bit chunk number, so chunk 0 has as many
    holders as there are servers. *)
Theorem redistributeChunks_overflow (sm : ShardMaster)
    (Hn : NUM_CHUNKS < Z.of_nat (length (sm_config sm)) < 2147483648) :
  (forall i e, sm_config (redistributeChunks sm) !! i = Some e ->
     (S i < length (sm_config sm))%nat -> shards e = [mkShard 0 (UINT_MOD - 1)]) /\
  cfg_holders 0 (sm_config (redistributeChunks sm)) = length (sm_config sm).
Proof.
  destruct sm as [cfg num]; simpl in *. unfold NUM_CHUNKS in Hn.
  set (n := Z.of_nat (length cfg)) in *.
  assert (redistribute cfg = imap (fun i e => mkEntry [chunk_shard n (Z.of_nat i)] (vs_addr e)) cfg) as E.
  { unfold redistribute. rewrite int_of_size_small by lia. apply imap_ext. intros i e Hi.
    apply lookup_lt_Some in Hi. by rewrite (proj2 (Z.ltb_lt _ _)) by lia. }
  assert (forall i, chunk_shard n i = mkShard 0 (if i =? n - 1 then NUM_CHUNKS else UINT_MOD - 1)) as Ec.
  { intros i. unfold chunk_shard. rewrite (u32_small n) by (unfold is_u32, UINT_MOD; lia).
    rewrite Z.div_small by (unfold NUM_CHUNKS; lia). simpl. by destruct (_ =? _). }
  rewrite E. split.
  - intros i e He Hi. rewrite list_lookup_imap in He. apply fmap_Some in He as (x & _ & ->). simpl.
    rewrite Ec. by rewrite (proj2 (Z.eqb_neq _ _)) by lia.
  - unfold cfg_holders. rewrite (shards_imap (fun i => chunk_shard n (Z.of_nat i)) 0).
    clear Hn E. clearbody n. generalize 0%nat as k. induction cfg as [|e cfg IH]; intros k; [done|].
    simpl. rewrite holders_cons, IH, Ec. unfold contains; simpl. by destruct (_ =? _).
Qed.

Lemma redistributeChunks_overflow_witness :
  cfg_holders 0 (sm_config (redistributeChunks (mkSM (replicate 1001 (mkEntry [] "a")) 0))) = 1001%nat.
Proof.
  refine (eq_trans (proj2 (redistributeChunks_overflow (mkSM (replicate 1001 (mkEntry [] "a")) 0) _)) _).
  - vm_compute. split; congruence.
  - vm_compute. reflexivity.
Defined.

(** a server that joins and leaves again leaves no trace: from a
    configuration of at most [NUM_CHUNKS - 1] servers, [Join] of a new address
    followed by [Leave] of it both succeed and give the balanced configuration
    of the original servers, with the configuration number two higher. *)
Theorem join_leave_roundtrip (sm : ShardMaster) (a : string)
    (Hn : Z.of_nat (length (sm_config sm)) < NUM_CHUNKS) (Ha : a ∉ addrs (sm_config sm)) :
  exists sm1, Join sm (mkJoinRequest a) = (status_OK, sm1) /\
    Leave sm1 (mkLeaveRequest a) =
      (status_OK, mkSM (redistribute (sm_config sm)) (config_num sm +u 2)).
Proof.
  unfold Join. simpl. destruct (serverExists a (sm_config sm)) eqn:E.
  { by apply serverExists_spec in E. }
  eexists. split; [done|]. unfold Leave, redistributeChunks. simpl.
  set (cfg := sm_config sm ++ [mkEntry [] a]).
  assert (exists cfg' s, redistribute cfg = cfg' ++ [mkEntry [s] a] /\
            cfg' = imap (fun i e => mkEntry [chunk_shard (Z.of_nat (length cfg)) (Z.of_nat i)] (vs_addr e))
                     (sm_config sm)) as (cfg' & s & -> & Hcfg').
  { rewrite redistribute_small by (unfold cfg; rewrite length_app; simpl; lia).
    unfold cfg at 2. rewrite imap_app. by do 2 eexists. }
  assert (addrs cfg' = addrs (sm_config sm)) as Ha'.
  { rewrite Hcfg'. unfold addrs. apply list_eq. intros i.
    rewrite !list_lookup_fmap, list_lookup_imap. by destruct (sm_config sm !! i). }
  rewrite (Leave_erase_app a) by (rewrite ?Ha'; done). f_equal. f_equal.
  - unfold redistribute. rewrite Hcfg', length_imap. apply list_eq. intros i.
    rewrite !list_lookup_imap. destruct (sm_config sm !! i) eqn:Ei; [|done]. simpl.
    apply lookup_lt_Some in Ei. unfold NUM_CHUNKS in Hn. rewrite int_of_size_small by lia.
    by rewrite (proj2 (Z.ltb_lt _ _)) by lia.
  - unfold u32. rewrite Zplus_mod_idemp_l. f_equal. lia.
Qed.

Lemma join_leave_roundtrip_witness :
  exists sm1, Join (mkSM [mkEntry [mkShard 0 1000] "a"] 1) (mkJoinRequest "b") = (status_OK, sm1) /\
    Leave sm1 (mkLeaveRequest "b") =
      (status_OK, mkSM (redistribute [mkEntry [mkShard 0 1000] "a"]) (1 +u 2)).
Proof.
  apply (join_leave_roundtrip (mkSM [mkEntry [mkShard 0 1000] "a"] 1) "b").
  - vm_compute. reflexivity.
  - simpl. rewrite list_elem_of_singleton. discriminate.
Defined.

(** C17: rejected requests change nothing: [Join] of a member answers
    ALREADY_EXISTS, [Leave] and [Move] of a server that is not a member answer
    NOT_FOUND, each with the state as it was. *)
Theorem sm_errors_keep_state (sm : ShardMaster) (a : string) (l u : Z) :
  (a ∈ addrs (sm_config sm) ->
     Join sm (mkJoinRequest a) = (mkStatus ALREADY_EXISTS VS_EXISTS, sm)) /\
  (a ∉ addrs (sm_config sm) ->
     Leave sm (mkLeaveRequest a) = (mkStatus NOT_FOUND VS_NOT_FOUND, sm) /\
     Move sm (mkMoveRequest a (mkPbShard l u)) = Ret (mkStatus NOT_FOUND VS_NOT_FOUND, sm)).
Proof.
  rewrite <- serverExists_spec. split.
  - intros H. unfold Join. simpl. by rewrite H.
  - intros H. split.
    + unfold Leave. simpl. rewrite Leave_erase_notin by by rewrite <- serverExists_spec.
      by destruct sm.
    + unfold Move. simpl. by destruct (serverExists a (sm_config sm)).
Qed.

Lemma sm_errors_keep_state_witness :
  Join (mkSM [mkEntry [] "a"] 0) (mkJoinRequest "a") =
    (mkStatus ALREADY_EXISTS VS_EXISTS, mkSM [mkEntry [] "a"] 0).
Proof.
  apply (proj1 (sm_errors_keep_state (mkSM [mkEntry [] "a"] 0) "a" 0 0)).
  simpl. constructor.
Defined.


(** ** Types of the fields *)

Definition shard_typed (s : SMShard) : Prop := is_u32 (lower s) /\ is_u32 (upper s).

(** What the C++ types say: every number is an [unsigned int]. *)
Definition sm_typed (sm : ShardMaster) : Prop :=
  is_u32 (config_num sm) /\ Forall (fun e => Forall shard_typed (shards e)) (sm_config sm).

Definition request_typed (r : request) : Prop :=
  match r with RMove _ l u => is_u32 l /\ is_u32 u | _ => True end.

Lemma sublist_Forall {A} (P : A -> Prop) l k : sublist l k -> Forall P k -> Forall P l.
Proof. induction 1; [done|..]; rewrite ?Forall_cons; naive_solver. Qed.

Lemma subtract_typed a b l : subtract a b = Ret l -> shard_typed a -> shard_typed b -> Forall shard_typed l.
Proof.
  unfold subtract. intros E [La Ua] [Lb Ub]. repeat case_match; try done; injection E as <-;
    repeat first [apply List.Forall_nil|apply List.Forall_cons; [split; cbn; first [done|apply u32_range]|]].
Qed.

Lemma Move_shards_typed mv l : shard_typed mv -> Forall shard_typed l -> exists l', Move_shards mv l = Ret l' /\ Forall shard_typed l'.
Proof.
  intros Hmv. induction 1 as [|s l Hs Hl (l' & E & Hl')]; [by exists []|]. cbn. destruct (subtract_returns s mv) as [r Hr]. rewrite Hr, E.
  cbn [mbind outcome_bind]. eexists. split; [done|]. pose proof (subtract_typed _ _ _ Hr Hs Hmv) as Ht.
  destruct r as [|r0 [|r1 r]]; [done|..].
  - apply Forall_cons in Ht as [H0 _]. by apply Forall_cons.
  - apply Forall_cons in Ht as [H0 [H1 _]%Forall_cons]. apply Forall_cons. split; [done|]. by apply Forall_cons.
Qed.

Lemma Move_config_typed addr mv cfg : shard_typed mv -> Forall (fun e => Forall shard_typed (shards e)) cfg ->
  exists cfg', Move_config addr mv cfg = Ret cfg' /\ Forall (fun e => Forall shard_typed (shards e)) cfg'.
Proof.
  intros Hmv. induction 1 as [|e cfg He Hcfg (cfg' & E & Hcfg')]; [by exists []|]. cbn. unfold Move_entry.
  destruct (Move_shards_typed mv (shards e) Hmv He) as (l' & -> & Hl'). cbn [mbind outcome_bind]. rewrite E. cbn [mbind outcome_bind].
  eexists. split; [done|]. constructor; [|done]. cbn. case_decide; [|done]. apply Forall_app. split; [done|by constructor].
Qed.

Lemma redistributeChunks_typed sm : Forall (fun e => Forall shard_typed (shards e)) (sm_config sm) -> sm_typed (redistributeChunks sm).
Proof.
  intros Hcfg. split; [apply u32_range|]. cbn. apply Forall_lookup. intros i e Hi. unfold redistribute in Hi. rewrite list_lookup_imap in Hi.
  destruct (sm_config sm !! i) as [e0|] eqn:E0; [|done]. injection Hi as <-. case_match; [|by eapply Forall_lookup in Hcfg].
  cbn. apply Forall_singleton. split; cbn; [apply u32_range|]. case_match; [done|apply u32_range].
Qed.

Lemma handle_typed sm r : sm_typed sm -> request_typed r -> exists st sm', handle sm r = Ret (st, sm') /\ sm_typed sm'.
Proof.
  intros [Hn Hcfg] Hr. destruct r as [a|a|a l u]; cbn [handle].
  - unfold Join. case_match; eexists _, _; (split; [done|]); [done|]. apply redistributeChunks_typed. apply Forall_app. split; [done|]. by constructor.
  - unfold Leave. destruct (Leave_erase _ _) as [found cfg] eqn:El. cbn in El.
    assert (Forall (fun e => Forall shard_typed (shards e)) cfg) as Hc.
    { pose proof (Leave_erase_sublist a (sm_config sm)) as Hs. rewrite El in Hs. by eapply sublist_Forall. }
    destruct found; eexists _, _; (split; [done|]); [by apply redistributeChunks_typed|done].
  - unfold Move. case_match; [eexists _, _; (split; [done|]); done|]. cbn [move_server move_shard pb_lower pb_upper].
    destruct (Move_config_typed a (mkShard l u) (sm_config sm) Hr Hcfg) as (cfg' & -> & Hc). cbn [mbind outcome_bind].
    eexists _, _. split; [done|]. split; [apply u32_range|done].
Qed.


