(* ===== verification/ShardMasterConc.v ===== *)
(** * Concurrent requests at the shard master

    gRPC runs the handlers of one server on several threads.  [Join], [Leave] and
    [Move] are split here where the code takes and releases [mtx]: [Join] looks for
    the address before it locks, pushes the entry in one critical section and
    redistributes in another; [Leave] erases and redistributes in two; [Move]
    looks for the server before it locks.  A [Thread] is a handler between two of
    these points, and the points of different handlers interleave freely.

    Joins and leaves alone are safe: whenever no handler is in the middle the
    chunks are partitioned ([quiescent_partition]).  The checks outside the lock
    are not: two joins of one address both succeed, and a [Move] whose target
    leaves in between takes its range away from everybody. *)
From S2P Require Import Prelude Shard Rpc ShardMaster.

(** ** Handlers between two critical sections *)

Inductive Thread :=
  | JoinChecked (addr : string)      (** the address was not found *)
  | Redistributing                   (** entry pushed or erased, [redistributeChunks] still to run *)
  | MoveChecked (req : MoveRequest). (** the server was found *)

#[export] Instance Thread_eq_dec : EqDecision Thread.
Proof. intros x y. unfold Decision. repeat decide equality; apply string_eq_dec. Defined.

Record Conc := mkConc { conc_sm : ShardMaster; conc_threads : list Thread }.

Definition conc_init : Conc := mkConc ShardMaster_init [].

(** What a client or the scheduler does next. *)
Inductive Event :=
  | EJoin (addr : string) | ELeave (addr : string) | EMove (req : MoveRequest)
  | EResume (i : nat).        (** the [i]-th handler in flight goes on *)

(** [Join] until its first lock. *)
Definition join_check (sm : ShardMaster) (addr : string) : option Thread :=
  if serverExists addr (sm_config sm) then None else Some (JoinChecked addr).

(** The first critical section of [Join]. *)
Definition join_push (sm : ShardMaster) (addr : string) : ShardMaster :=
  mkSM (sm_config sm ++ [mkEntry [] addr]) (config_num sm).

(** The first critical section of [Leave], with what is left to do. *)
Definition leave_section (sm : ShardMaster) (addr : string) : ShardMaster * option Thread :=
  let '(found, cfg) := Leave_erase addr (sm_config sm) in
  (mkSM cfg (config_num sm), if found then Some Redistributing else None).

(** [Move] until its lock, and its critical section. *)
Definition move_check (sm : ShardMaster) (req : MoveRequest) : option Thread :=
  if serverExists (move_server req) (sm_config sm) then Some (MoveChecked req) else None.

Definition move_section (sm : ShardMaster) (req : MoveRequest) : outcome ShardMaster :=
  cfg ← Move_config (move_server req) (mkShard (pb_lower (move_shard req)) (pb_upper (move_shard req))) (sm_config sm);
  Ret (mkSM cfg (config_num sm +u 1)).

(** A thread runs its next critical section. *)
Definition resume (sm : ShardMaster) (t : Thread) : outcome (ShardMaster * option Thread) :=
  match t with
  | JoinChecked addr => Ret (join_push sm addr, Some Redistributing)
  | Redistributing => Ret (redistributeChunks sm, None)
  | MoveChecked req => sm' ← move_section sm req; Ret (sm', None)
  end.

Definition add_thread (o : option Thread) (l : list Thread) : list Thread :=
  match o with Some t => l ++ [t] | None => l end.

Definition conc_step (c : Conc) (ev : Event) : outcome Conc :=
  let sm := conc_sm c in let ts := conc_threads c in
  match ev with
  | EJoin addr => Ret (mkConc sm (add_thread (join_check sm addr) ts))
  | ELeave addr =>
      let '(sm', o) := leave_section sm addr in Ret (mkConc sm' (add_thread o ts))
  | EMove req => Ret (mkConc sm (add_thread (move_check sm req) ts))
  | EResume i =>
      match ts !! i with
      | None => Ret c
      | Some t =>
          '(sm', o) ← resume sm t;
          Ret (mkConc sm' (add_thread o (delete i ts)))
      end
  end.

Fixpoint conc_run (c : Conc) (evs : list Event) : outcome Conc :=
  match evs with
  | [] => Ret c
  | ev :: evs => c' ← conc_step c ev; conc_run c' evs
  end.

(** ** The sections of a handler, run without interruption, are the handler *)

Lemma join_sections sm addr :
  Join sm (mkJoinRequest addr) =
    match join_check sm addr with
    | None => (mkStatus ALREADY_EXISTS VS_EXISTS, sm)
    | Some _ => (status_OK, redistributeChunks (join_push sm addr))
    end.
Proof. unfold Join, join_check. cbn. by destruct (serverExists _ _). Qed.

Lemma leave_sections sm addr :
  Leave sm (mkLeaveRequest addr) =
    match leave_section sm addr with
    | (sm', None) => (mkStatus NOT_FOUND VS_NOT_FOUND, sm')
    | (sm', Some _) => (status_OK, redistributeChunks sm')
    end.
Proof. unfold Leave, leave_section. cbn. by destruct (Leave_erase _ _) as [[] cfg]. Qed.

Lemma move_sections sm req :
  Move sm req =
    match move_check sm req with
    | None => Ret (mkStatus NOT_FOUND VS_NOT_FOUND, sm)
    | Some _ => sm' ← move_section sm req; Ret (status_OK, sm')
    end.
Proof.
  unfold Move, move_check, move_section. destruct (serverExists _ _); cbn [negb]; [|done].
  by destruct (Move_config _ _ _).
Qed.

(** ** Joins and leaves *)

Definition no_move (ev : Event) : Prop := match ev with EMove _ => False | _ => True end.
Definition is_move (t : Thread) : Prop := match t with MoveChecked _ => True | _ => False end.

(** A redistribution is on its way or the last change was one. *)
Record balanced_or_pending (c : Conc) : Prop := mk_bop {
  bop_threads : Forall (fun t => ~ is_move t) (conc_threads c);
  bop_done : Redistributing ∈ conc_threads c \/
    exists cfg, sm_config (conc_sm c) = redistribute cfg /\ length cfg = length (sm_config (conc_sm c)) }.

Lemma redistribute_length cfg : length (redistribute cfg) = length cfg.
Proof. apply length_imap. Qed.

Lemma add_thread_elem t o l : t ∈ add_thread o l <-> t ∈ l \/ o = Some t.
Proof.
  destruct o as [t'|]; cbn; [|naive_solver]. rewrite elem_of_app, list_elem_of_singleton. naive_solver.
Qed.

Lemma add_thread_Forall (P : Thread -> Prop) o l :
  Forall P l -> (forall t, o = Some t -> P t) -> Forall P (add_thread o l).
Proof.
  intros Hl Ho. apply Forall_forall. intros t [Ht|Ht]%add_thread_elem; [by eapply Forall_forall in Hl|by apply Ho].
Qed.

Lemma conc_step_balanced c ev c' :
  no_move ev -> balanced_or_pending c -> conc_step c ev = Ret c' -> balanced_or_pending c'.
Proof.
  intros Hev [Ht Hd] H. destruct ev as [addr|addr|req|i]; cbn in H.
  - simplify_eq. constructor; cbn.
    + apply add_thread_Forall; [done|]. unfold join_check. intros t. destruct (serverExists _ _); [done|].
      intros E. simplify_eq. by intros [].
    + destruct Hd as [Hd|Hd]; [left|by right]. apply add_thread_elem. by left.
  - unfold leave_section in H. pose proof (Leave_erase_found addr (sm_config (conc_sm c))) as Hf.
    destruct (Leave_erase addr (sm_config (conc_sm c))) as [[] cfg] eqn:E; simplify_eq; cbn [fst] in Hf.
    + constructor; cbn; [|left; set_solver].
      apply Forall_app. split; [done|]. apply Forall_singleton. by intros [].
    + rewrite Leave_erase_notin in E by (rewrite <- serverExists_spec, <- Hf; done). simplify_eq.
      constructor; cbn; [done|]. destruct Hd as [Hd|Hd]; [by left|by right].
  - done.
  - destruct (conc_threads c !! i) as [t|] eqn:Ei; [|by simplify_eq].
    assert (Forall (fun t => ~ is_move t) (delete i (conc_threads c))) as Hdel.
    { apply Forall_forall. intros t' Ht'. eapply Forall_forall in Ht; [exact Ht|].
      by eapply elem_of_submseteq, sublist_submseteq, sublist_delete. }
    destruct t as [addr| |req]; cbn in H; simplify_eq.
    + constructor; cbn; [|left; set_solver]. apply Forall_app. split; [done|]. apply Forall_singleton. by intros [].
    + constructor; cbn; [done|]. right. eexists. split; [done|]. by rewrite redistribute_length.
    + exfalso. eapply Forall_lookup_1 in Ht; [|done]. by apply Ht.
Qed.

Lemma conc_run_balanced c evs c' :
  Forall no_move evs -> balanced_or_pending c -> conc_run c evs = Ret c' -> balanced_or_pending c'.
Proof.
  intros Hev. revert c. induction Hev as [|ev evs Hev _ IH]; intros c Hc H; cbn in H; [by simplify_eq|].
  apply bind_Ret in H as (c1 & E & H). eapply IH; [|done]. by eapply conc_step_balanced.
Qed.

Lemma conc_step_returns c ev : no_move ev -> balanced_or_pending c -> returns (conc_step c ev).
Proof.
  intros Hev [Ht _]. destruct ev as [addr|addr|req|i]; cbn; [by eexists| |done|].
  - destruct (leave_section _ _). by eexists.
  - destruct (conc_threads c !! i) as [t|] eqn:Ei; [|by eexists].
    eapply Forall_lookup_1 in Ht; [|done]. destruct t as [addr| |req]; cbn; [by eexists|by eexists|].
    exfalso. by apply Ht.
Qed.

Lemma conc_run_returns c evs : Forall no_move evs -> balanced_or_pending c -> returns (conc_run c evs).
Proof.
  intros Hev. revert c. induction Hev as [|ev evs Hev _ IH]; intros c Hc; cbn; [by eexists|].
  destruct (conc_step_returns c ev Hev Hc) as [c1 E]. rewrite E. cbn. apply IH. by eapply conc_step_balanced.
Qed.

Lemma conc_init_balanced : balanced_or_pending conc_init.
Proof. constructor; [constructor|]. right. by exists []. Qed.

(** ** Properties *)

(** C37: under any interleaving of the critical sections of concurrent [Join]s and
    [Leave]s the handlers return, and whenever none of them is in the middle and
    there are between one and [NUM_CHUNKS] entries every chunk has exactly one
    holder: the last redistribution comes after the last change of the entries,
    whichever thread runs it. *)
Theorem quiescent_partition (evs : list Event) (Hev : Forall no_move evs) :
  exists c, conc_run conc_init evs = Ret c /\
    (conc_threads c = [] -> 1 <= Z.of_nat (length (sm_config (conc_sm c))) <= NUM_CHUNKS ->
     partition (sm_config (conc_sm c)) /\ cfg_wf (sm_config (conc_sm c))).
Proof.
  destruct (conc_run_returns conc_init evs Hev conc_init_balanced) as [c E]. exists c. split; [done|].
  intros Hq Hl. pose proof (conc_run_balanced _ _ _ Hev conc_init_balanced E) as [_ Hd].
  rewrite Hq in Hd. destruct Hd as [Hd|(cfg & Hc & Hlen)]; [by apply elem_of_nil in Hd|].
  rewrite Hc. rewrite <- Hlen in Hl. split; [|apply redistribute_wf; lia].
  intros n Hn. rewrite redistribute_holders by lia. zbool; simpl; try lia; done.
Qed.

Definition demo_events : list Event :=
  [EJoin "a"; EJoin "b"; EResume 1; EResume 0; ELeave "b"; EResume 1; EResume 1; EResume 0].

Lemma quiescent_partition_witness :
  exists c, conc_run conc_init demo_events = Ret c /\ partition (sm_config (conc_sm c)) /\
    addrs (sm_config (conc_sm c)) = ["a"%string].
Proof.
  destruct (quiescent_partition demo_events ltac:(repeat constructor)) as (c & E & Hc).
  exists c. split; [exact E|]. vm_compute in E. injection E as <-.
  split; [|reflexivity]. apply Hc; [reflexivity|]. vm_compute. split; discriminate.
Defined.

(** the address is looked up before the lock is taken, so two concurrent
    [Join]s of one address both answer OK and leave two entries with it; a third
    [Join] is then refused, and one [Leave] removes only one of them. *)
Theorem join_race_duplicates :
  exists c, conc_run conc_init [EJoin "a"; EJoin "a"; EResume 0; EResume 0; EResume 0; EResume 0] = Ret c /\
    conc_threads c = [] /\ addrs (sm_config (conc_sm c)) = ["a"%string; "a"%string] /\
    addrs (sm_config (snd (Leave (conc_sm c) (mkLeaveRequest "a")))) = ["a"%string].
Proof. eexists. split; [vm_compute; reflexivity|]. vm_compute. done. Qed.

(** a [Move] whose target leaves between the look-up and the lock answers OK
    and takes the range away from the remaining servers without giving it to
    anybody: no server holds the chunks any more. *)
Theorem move_race_loses_chunks :
  exists c, conc_run conc_init
      [EJoin "a"; EResume 0; EResume 0; EJoin "b"; EResume 0; EResume 0;
       EMove (mkMoveRequest "b" (mkPbShard 10 20)); ELeave "b"; EResume 1; EResume 0] = Ret c /\
    conc_threads c = [] /\ addrs (sm_config (conc_sm c)) = ["a"%string] /\
    forall n, 10 <= n <= 20 -> cfg_holders n (sm_config (conc_sm c)) = 0%nat.
Proof.
  eexists. split; [vm_compute; reflexivity|]. split; [reflexivity|]. split; [reflexivity|].
  intros n Hn. unfold cfg_holders, holders, contains. cbn. zbool; cbn; try lia; done.
Qed.
