(* ===== verification/MD5.v ===== *)
(** * MD5 (utils/md5.h, utils/md5.cc)

    The class [MD5] with its streaming interface: [init], [update], [finalize],
    [hexdigest], and the function [md5].  A [uint4] is a [Z] below 2^32 with the
    wrap-around written out, a [uint1] a [Z] below 256, an array a list.  Memory
    the C++ code leaves uninitialised is the memory of the object given to [init].
    [memcpy] and the reads of [transform(&input[i])] fail with [OutOfBounds]
    outside their arrays; the block loop of [update] runs with a bound on its
    iterations and fails with [Diverges] when the bound is exceeded.  MD5Spec
    proves that neither happens on inputs below 2^32 - 64 bytes. *)
From S2P Require Import Prelude.
From Stdlib Require Import Ascii.

(** ** Constants *)

Definition S11 : Z := 7.
Definition S12 : Z := 12.
Definition S13 : Z := 17.
Definition S14 : Z := 22.
Definition S21 : Z := 5.
Definition S22 : Z := 9.
Definition S23 : Z := 14.
Definition S24 : Z := 20.
Definition S31 : Z := 4.
Definition S32 : Z := 11.
Definition S33 : Z := 16.
Definition S34 : Z := 23.
Definition S41 : Z := 6.
Definition S42 : Z := 10.
Definition S43 : Z := 15.
Definition S44 : Z := 21.

Definition blocksize : Z := 64.

(** ** Low-level logic operations *)

Definition not32 (x : Z) : Z := u32 (Z.lnot x).

Definition F (x y z : Z) : Z := Z.lor (Z.land x y) (Z.land (not32 x) z).
Definition G (x y z : Z) : Z := Z.lor (Z.land x z) (Z.land y (not32 z)).
Definition H (x y z : Z) : Z := Z.lxor (Z.lxor x y) z.
Definition I (x y z : Z) : Z := Z.lxor y (Z.lor x (not32 z)).

Definition rotate_left (x n : Z) : Z := Z.lor (u32 (Z.shiftl x n)) (Z.shiftr x (32 - n)).

(** Each returns the new value of its first argument. *)
Definition FF (a b c d x s ac : Z) : Z := rotate_left (a +u F b c d +u x +u ac) s +u b.
Definition GG (a b c d x s ac : Z) : Z := rotate_left (a +u G b c d +u x +u ac) s +u b.
Definition HH (a b c d x s ac : Z) : Z := rotate_left (a +u H b c d +u x +u ac) s +u b.
Definition II (a b c d x s ac : Z) : Z := rotate_left (a +u I b c d +u x +u ac) s +u b.

(** ** State *)

Record state4 := mkState { st_a : Z; st_b : Z; st_c : Z; st_d : Z }.

Record MD5 := mkMD5 {
  finalized : bool;
  buffer : list Z;       (* bytes that did not fit in the last 64-byte chunk *)
  count0 : Z;            (* 64-bit counter of bits, low word *)
  count1 : Z;            (* high word *)
  state : state4;        (* digest so far *)
  digest : list Z }.     (* the result *)

(** [init]: the buffer and the digest keep whatever the memory held. *)
Definition init (mem : MD5) : MD5 :=
  mkMD5 false (buffer mem) 0 0
    (mkState 0x67452301 0xefcdab89 0x98badcfe 0x10325476) (digest mem).

(** ** decode and encode *)

Definition decode_word (input : list Z) (j : nat) : Z :=
  Z.lor (Z.lor (Z.lor (nth j input 0) (Z.shiftl (nth (j + 1) input 0) 8))
               (Z.shiftl (nth (j + 2) input 0) 16))
        (Z.shiftl (nth (j + 3) input 0) 24).

Definition decode (input : list Z) (len : nat) : list Z :=
  map (fun i => decode_word input (4 * i)) (seq 0 (len / 4)).

Definition encode_word (w : Z) : list Z :=
  [ Z.land w 0xff; Z.land (Z.shiftr w 8) 0xff;
    Z.land (Z.shiftr w 16) 0xff; Z.land (Z.shiftr w 24) 0xff ].

Definition encode (input : list Z) (len : nat) : list Z :=
  flat_map encode_word (take (len / 4) input).

(** ** transform *)

(** An assignment to a local variable. *)
Definition assign (e : Z) (k : Z -> state4) : state4 := k e.
#[local] Notation "x ⇐ e ; k" := (assign e (fun x : Z => k))
  (at level 20, e at level 100, k at level 200, only parsing).

Definition transform (st : state4) (block : list Z) : state4 :=
  let a := st_a st in let b := st_b st in let c := st_c st in let d := st_d st in
  let xs := decode block 64 in
  let x (i : Z) := nth (Z.to_nat i) xs 0 in
  (* Round 1 *)
  a ⇐ FF a b c d (x 0) S11 0xd76aa478;
  d ⇐ FF d a b c (x 1) S12 0xe8c7b756;
  c ⇐ FF c d a b (x 2) S13 0x242070db;
  b ⇐ FF b c d a (x 3) S14 0xc1bdceee;
  a ⇐ FF a b c d (x 4) S11 0xf57c0faf;
  d ⇐ FF d a b c (x 5) S12 0x4787c62a;
  c ⇐ FF c d a b (x 6) S13 0xa8304613;
  b ⇐ FF b c d a (x 7) S14 0xfd469501;
  a ⇐ FF a b c d (x 8) S11 0x698098d8;
  d ⇐ FF d a b c (x 9) S12 0x8b44f7af;
  c ⇐ FF c d a b (x 10) S13 0xffff5bb1;
  b ⇐ FF b c d a (x 11) S14 0x895cd7be;
  a ⇐ FF a b c d (x 12) S11 0x6b901122;
  d ⇐ FF d a b c (x 13) S12 0xfd987193;
  c ⇐ FF c d a b (x 14) S13 0xa679438e;
  b ⇐ FF b c d a (x 15) S14 0x49b40821;
  (* Round 2 *)
  a ⇐ GG a b c d (x 1) S21 0xf61e2562;
  d ⇐ GG d a b c (x 6) S22 0xc040b340;
  c ⇐ GG c d a b (x 11) S23 0x265e5a51;
  b ⇐ GG b c d a (x 0) S24 0xe9b6c7aa;
  a ⇐ GG a b c d (x 5) S21 0xd62f105d;
  d ⇐ GG d a b c (x 10) S22 0x2441453;
  c ⇐ GG c d a b (x 15) S23 0xd8a1e681;
  b ⇐ GG b c d a (x 4) S24 0xe7d3fbc8;
  a ⇐ GG a b c d (x 9) S21 0x21e1cde6;
  d ⇐ GG d a b c (x 14) S22 0xc33707d6;
  c ⇐ GG c d a b (x 3) S23 0xf4d50d87;
  b ⇐ GG b c d a (x 8) S24 0x455a14ed;
  a ⇐ GG a b c d (x 13) S21 0xa9e3e905;
  d ⇐ GG d a b c (x 2) S22 0xfcefa3f8;
  c ⇐ GG c d a b (x 7) S23 0x676f02d9;
  b ⇐ GG b c d a (x 12) S24 0x8d2a4c8a;
  (* Round 3 *)
  a ⇐ HH a b c d (x 5) S31 0xfffa3942;
  d ⇐ HH d a b c (x 8) S32 0x8771f681;
  c ⇐ HH c d a b (x 11) S33 0x6d9d6122;
  b ⇐ HH b c d a (x 14) S34 0xfde5380c;
  a ⇐ HH a b c d (x 1) S31 0xa4beea44;
  d ⇐ HH d a b c (x 4) S32 0x4bdecfa9;
  c ⇐ HH c d a b (x 7) S33 0xf6bb4b60;
  b ⇐ HH b c d a (x 10) S34 0xbebfbc70;
  a ⇐ HH a b c d (x 13) S31 0x289b7ec6;
  d ⇐ HH d a b c (x 0) S32 0xeaa127fa;
  c ⇐ HH c d a b (x 3) S33 0xd4ef3085;
  b ⇐ HH b c d a (x 6) S34 0x4881d05;
  a ⇐ HH a b c d (x 9) S31 0xd9d4d039;
  d ⇐ HH d a b c (x 12) S32 0xe6db99e5;
  c ⇐ HH c d a b (x 15) S33 0x1fa27cf8;
  b ⇐ HH b c d a (x 2) S34 0xc4ac5665;
  (* Round 4 *)
  a ⇐ II a b c d (x 0) S41 0xf4292244;
  d ⇐ II d a b c (x 7) S42 0x432aff97;
  c ⇐ II c d a b (x 14) S43 0xab9423a7;
  b ⇐ II b c d a (x 5) S44 0xfc93a039;
  a ⇐ II a b c d (x 12) S41 0x655b59c3;
  d ⇐ II d a b c (x 3) S42 0x8f0ccc92;
  c ⇐ II c d a b (x 10) S43 0xffeff47d;
  b ⇐ II b c d a (x 1) S44 0x85845dd1;
  a ⇐ II a b c d (x 8) S41 0x6fa87e4f;
  d ⇐ II d a b c (x 15) S42 0xfe2ce6e0;
  c ⇐ II c d a b (x 6) S43 0xa3014314;
  b ⇐ II b c d a (x 13) S44 0x4e0811a1;
  a ⇐ II a b c d (x 4) S41 0xf7537e82;
  d ⇐ II d a b c (x 11) S42 0xbd3af235;
  c ⇐ II c d a b (x 2) S43 0x2ad7d2bb;
  b ⇐ II b c d a (x 9) S44 0xeb86d391;
  mkState (st_a st +u a) (st_b st +u b) (st_c st +u c) (st_d st +u d).

(** ** update *)

(** [memcpy(&dst[off], &src[soff], n)] *)
Definition memcpy (dst : list Z) (off : Z) (src : list Z) (soff n : Z) : outcome (list Z) :=
  if (off + n <=? Z.of_nat (length dst)) && (soff + n <=? Z.of_nat (length src)) then
    Ret (take (Z.to_nat off) dst ++ take (Z.to_nat n) (drop (Z.to_nat soff) src)
         ++ drop (Z.to_nat (off + n)) dst)
  else Fault OutOfBounds.

(** [transform(&input[i])] *)
Definition transform_at (st : state4) (input : list Z) (i : Z) : outcome state4 :=
  if i + blocksize <=? Z.of_nat (length input)
  then Ret (transform st (take 64 (drop (Z.to_nat i) input)))
  else Fault OutOfBounds.

(** [for (i = firstpart; i + blocksize <= length; i += blocksize) transform(&input[i]);] *)
Fixpoint update_loop (fuel : nat) (st : state4) (input : list Z) (i length : Z)
    : outcome (state4 * Z) :=
  match fuel with
  | O => Fault Diverges
  | S fuel =>
      if i +u blocksize <=? length then
        st' ← transform_at st input i;
        update_loop fuel st' input (i +u blocksize) length
      else Ret (st, i)
  end.

Definition update (m : MD5) (input : list Z) (length : Z) : outcome MD5 :=
  let index := count0 m / 8 mod blocksize in
  let bits := u32 (Z.shiftl length 3) in
  let c0 := count0 m +u bits in
  let c1 := if c0 <? bits then count1 m +u 1 else count1 m in
  let c1 := c1 +u Z.shiftr length 29 in
  let firstpart := 64 -u index in
  if firstpart <=? length then
    buf ← memcpy (buffer m) index input 0 firstpart;
    '(st, i) ← update_loop (S (Z.to_nat (length / blocksize))) (transform (state m) buf) input firstpart length;
    buf' ← memcpy buf 0 input i (length -u i);
    Ret (mkMD5 (finalized m) buf' c0 c1 st (digest m))
  else
    buf' ← memcpy (buffer m) index input 0 length;
    Ret (mkMD5 (finalized m) buf' c0 c1 (state m) (digest m)).

(** ** finalize *)

Definition padding : list Z := 0x80 :: replicate 63 0.

Definition state_words (st : state4) : list Z := [st_a st; st_b st; st_c st; st_d st].

Definition finalize (m : MD5) : outcome MD5 :=
  if finalized m then Ret m
  else
    let bits := encode [count0 m; count1 m] 8 in
    let index := count0 m / 8 mod 64 in
    let padLen := if index <? 56 then 56 -u index else 120 -u index in
    m1 ← update m padding padLen;
    m2 ← update m1 bits 8;
    Ret (mkMD5 true (replicate 64 0) 0 0 (state m2) (encode (state_words (state m2)) 16)).

(** ** hexdigest and md5 *)

Definition hex_digit (n : Z) : ascii :=
  nth (Z.to_nat n) (String.list_ascii_of_string "0123456789abcdef") "?"%char.

(** [sprintf(..., "%02x", b)] for a byte *)
Definition hex2 (b : Z) : list ascii := [hex_digit (b / 16); hex_digit (b mod 16)].

Definition hexdigest (m : MD5) : string :=
  if finalized m then String.string_of_list_ascii (flat_map hex2 (take 16 (digest m))) else "".

Definition bytes_of_string (s : string) : list Z :=
  map (fun c => Z.of_N (N_of_ascii c)) (String.list_ascii_of_string s).

(** [MD5::MD5(const std::string &text)]: [text.length()] is converted to the
    32-bit [size_type]. *)
Definition MD5_of_text (mem : MD5) (text : string) : outcome MD5 :=
  let input := bytes_of_string text in
  m ← update (init mem) input (u32 (Z.of_nat (length input)));
  finalize m.

Definition md5 (mem : MD5) (str : string) : outcome string :=
  m ← MD5_of_text mem str;
  Ret (hexdigest m).

(** Zeroed memory for an object. *)
Definition MD5_zero : MD5 := mkMD5 false (replicate 64 0) 0 0 (mkState 0 0 0 0) (replicate 16 0).
