(* ===== verification/MD5Spec.v ===== *)
(** * MD5: the streaming implementation computes the specified digest

    The specification follows RFC 1321: pad the message with the byte 0x80,
    zeros up to 56 modulo 64 and the 64-bit little-endian bit count, then fold a
    compression function over the 64-byte blocks; the compression function runs
    64 steps driven by tables.  [update] and [finalize] are shown to compute it
    however the message is cut into calls, from any initial memory, and the
    unrolled [transform] to be the table-driven loop. *)
From S2P Require Import Prelude MD5.
From Stdlib Require Import Ascii.

(** ** Specification *)

Definition IV : state4 := mkState 0x67452301 0xefcdab89 0x98badcfe 0x10325476.

(** The first [k] blocks of 64 bytes of [msg]. *)
Definition blocks (k : nat) (msg : list Z) : list (list Z) :=
  map (fun i => take 64 (drop (64 * i) msg)) (seq 0 k).

Definition compress (k : nat) (msg : list Z) : state4 := fold_left transform (blocks k msg) IV.

Fixpoint le_bytes (k : nat) (w : Z) : list Z :=
  match k with O => [] | S k => w mod 256 :: le_bytes k (w / 256) end.

Definition pad (msg : list Z) : list Z :=
  let n := Z.of_nat (length msg) in
  msg ++ [0x80] ++ replicate (Z.to_nat ((55 - n) mod 64)) 0 ++ le_bytes 8 (8 * n).

Definition md5_digest (msg : list Z) : list Z :=
  let p := pad msg in
  flat_map (le_bytes 4) (state_words (compress (length p / 64) p)).

Definition md5_hex (str : string) : string :=
  String.string_of_list_ascii (flat_map hex2 (md5_digest (bytes_of_string str))).

(** ** Blocks *)

#[local] Opaque transform Nat.div Nat.modulo Nat.mul.

Lemma blocks_S k msg : blocks (S k) msg = blocks k msg ++ [take 64 (drop (64 * k) msg)].
Proof. unfold blocks. rewrite seq_S, map_app, Nat.add_0_l. reflexivity. Qed.

Lemma compress_S k msg :
  compress (S k) msg = transform (compress k msg) (take 64 (drop (64 * k) msg)).
Proof. unfold compress. rewrite blocks_S, fold_left_app. reflexivity. Qed.

Lemma compress_app k msg ext : (64 * k <= length msg)%nat -> compress k (msg ++ ext) = compress k msg.
Proof.
  induction k as [|k IH]; intros Hk; [done|].
  rewrite !compress_S, IH by lia. rewrite drop_app_le by lia.
  rewrite take_app_le by (rewrite length_drop; lia). reflexivity.
Qed.

(** ** The absorption invariant *)

(** [m] has absorbed [msg]: the counters hold its bit length modulo 2^64, the
    state the compression of its full blocks, the buffer the rest. *)
Record absorbed (m : MD5) (msg : list Z) : Prop := mk_absorbed {
  abs_open : finalized m = false;
  abs_buffer : length (buffer m) = 64%nat;
  abs_count0 : count0 m = (8 * Z.of_nat (length msg)) mod UINT_MOD;
  abs_count1 : count1 m = (8 * Z.of_nat (length msg) / UINT_MOD) mod UINT_MOD;
  abs_state : state m = compress (length msg / 64) msg;
  abs_rest : take (length msg mod 64) (buffer m) = drop (64 * (length msg / 64)) msg }.

Lemma absorbed_init mem : length (buffer mem) = 64%nat -> absorbed (init mem) [].
Proof. intros H. by constructor. Qed.

Lemma absorbed_index m msg :
  absorbed m msg -> count0 m / 8 mod 64 = Z.of_nat (length msg mod 64).
Proof.
  intros H. rewrite (abs_count0 _ _ H), Nat2Z.inj_mod. unfold UINT_MOD.
  set (n := Z.of_nat (length msg)). change (Z.of_nat 64) with 64.
  Z.div_mod_to_equations. lia.
Qed.

Lemma memcpy_ok dst off src soff n :
  0 <= off -> 0 <= soff -> 0 <= n ->
  off + n <= Z.of_nat (length dst) -> soff + n <= Z.of_nat (length src) ->
  memcpy dst off src soff n =
    Ret (take (Z.to_nat off) dst ++ take (Z.to_nat n) (drop (Z.to_nat soff) src)
         ++ drop (Z.to_nat (off + n)) dst).
Proof.
  intros. unfold memcpy. by rewrite !(proj2 (Z.leb_le _ _)) by lia.
Qed.

(** The loop of [update]: it consumes the whole blocks of the first [length]
    bytes of the input from offset [i], where [k] blocks have been compressed. *)
Lemma update_loop_ok fuel msg input i k length :
  let M := msg ++ take (Z.to_nat length) input in
  length <= Z.of_nat (List.length input) -> length + 64 < UINT_MOD ->
  0 <= i <= length -> Z.of_nat (64 * k) = Z.of_nat (List.length msg) + i ->
  (length - i) / 64 < Z.of_nat fuel ->
  exists i', update_loop fuel (compress k M) input i length
    = Ret (compress (List.length M / 64) M, i') /\
    i' = Z.of_nat (64 * (List.length M / 64)) - Z.of_nat (List.length msg) /\ i <= i' <= length.
Proof.
  intros M Hlen Hmax. revert i k. induction fuel as [|fuel IH]; intros i k Hi Hk Hf.
  { exfalso. pose proof (Z.div_pos (length - i) 64). lia. }
  cbn [update_loop]. unfold blocksize. rewrite (u32_small (i + 64)) by (unfold is_u32; lia).
  destruct (Z.leb_spec (i + 64) length) as [Hle|Hgt].
  - unfold transform_at, blocksize. rewrite (proj2 (Z.leb_le _ _)) by lia. cbn [mbind outcome_bind].
    replace (take 64 (drop (Z.to_nat i) input)) with (take 64 (drop (64 * k) M)).
    2:{ unfold M. rewrite drop_app_ge by lia.
        replace (64 * k - List.length msg)%nat with (Z.to_nat i) by lia.
        rewrite !take_drop_commute, take_take. do 2 f_equal. lia. }
    rewrite <- compress_S. destruct (IH (i + 64) (S k)) as (i' & -> & -> & Hi').
    + lia.
    + lia.
    + replace (length - i) with (length - (i + 64) + 1 * 64) in Hf by lia.
      rewrite Z.div_add in Hf by lia. lia.
    + eexists. split; [done|]. split; [done|lia].
  - assert (k = (List.length M / 64)%nat) as Ek.
    { unfold M. rewrite length_app, length_take.
      apply (Nat.div_unique _ _ _ (Z.to_nat (length - i))); lia. }
    exists i. rewrite <- Ek. split; [done|]. split; lia.
Qed.

Lemma count_carry n l :
  0 <= n -> 0 <= l < UINT_MOD ->
  let c0 := (8 * n) mod UINT_MOD in let c1 := (8 * n / UINT_MOD) mod UINT_MOD in
  let bits := u32 (Z.shiftl l 3) in
  c0 +u bits = (8 * (n + l)) mod UINT_MOD /\
  (if c0 +u bits <? bits then c1 +u 1 else c1) +u Z.shiftr l 29 = (8 * (n + l) / UINT_MOD) mod UINT_MOD.
Proof.
  intros Hn Hl. unfold u32. rewrite Z.shiftl_mul_pow2, Z.shiftr_div_pow2 by lia.
  change (2 ^ 3) with 8. change (2 ^ 29) with 536870912. unfold UINT_MOD in *. simpl.
  split; zbool; Z.div_mod_to_equations; lia.
Qed.

(** ** update *)

Lemma rest_full (msg ext : list Z) :
  (64 - length msg mod 64 <= length ext)%nat ->
  drop (64 * (length msg / 64)) msg ++ take (64 - length msg mod 64) ext
    = take 64 (drop (64 * (length msg / 64)) (msg ++ ext)).
Proof.
  intros H. pose proof (Nat.div_mod_eq (length msg) 64) as E.
  pose proof (Nat.mod_upper_bound (length msg) 64 ltac:(lia)) as Hb.
  rewrite drop_app_le by lia. rewrite take_app_ge by (rewrite length_drop; lia).
  rewrite length_drop. do 2 f_equal. lia.
Qed.

Lemma rest_length (msg : list Z) : length (drop (64 * (length msg / 64)) msg) = (length msg mod 64)%nat.
Proof. rewrite length_drop. pose proof (Nat.div_mod_eq (length msg) 64). lia. Qed.

Section Update.
  Context (m : MD5) (msg input : list Z) (len : Z).
  Hypothesis Ha : absorbed m msg.
  Hypothesis Hl : 0 <= len <= Z.of_nat (length input).
  Hypothesis Hmax : len + 64 < UINT_MOD.

Let r := (length msg mod 64)%nat.
Let q := (length msg / 64)%nat.
Let M := msg ++ take (Z.to_nat len) input.

Lemma update_M_length : length M = (length msg + Z.to_nat len)%nat.
Proof. unfold M. rewrite length_app, length_take. lia. Qed.

(** The buffer is filled up to a block and at least one block is compressed. *)
Lemma update_blocks c0 c1 :
  64 - Z.of_nat r <= len ->
  c0 = (8 * Z.of_nat (length M)) mod UINT_MOD ->
  c1 = (8 * Z.of_nat (length M) / UINT_MOD) mod UINT_MOD ->
  exists buf st i buf',
    memcpy (buffer m) (Z.of_nat r) input 0 (64 - Z.of_nat r) = Ret buf /\
    update_loop (S (Z.to_nat (len / 64))) (transform (state m) buf) input (64 - Z.of_nat r) len = Ret (st, i) /\
    memcpy buf 0 input i (len -u i) = Ret buf' /\
    absorbed (mkMD5 (finalized m) buf' c0 c1 st (digest m)) M.
Proof.
  intros Hge -> ->. pose proof update_M_length as HM.
  pose proof (Nat.mod_upper_bound (length msg) 64 ltac:(lia)) as Hr. fold r in Hr.
  pose proof (Nat.div_mod_eq (length msg) 64) as Hdm. fold q r in Hdm.
  assert (exists buf, memcpy (buffer m) (Z.of_nat r) input 0 (64 - Z.of_nat r) = Ret buf /\
    buf = take 64 (drop (64 * q) M)) as (buf & Emem & Hbuf).
  { rewrite memcpy_ok by (rewrite ?(abs_buffer _ _ Ha); lia). eexists. split; [done|].
    unfold M, q. rewrite <- rest_full by (rewrite length_take; fold r; lia). fold q r.
    rewrite Nat2Z.id. unfold r at 1. rewrite (abs_rest _ _ Ha). fold q.
    rewrite (drop_ge (buffer m)) by (rewrite (abs_buffer _ _ Ha); lia).
    rewrite app_nil_r, take_take. f_equal. change (Z.to_nat 0) with 0%nat. rewrite drop_0. f_equal. lia. }
  assert (length buf = 64%nat) as Hbl by (rewrite Hbuf, length_take, length_drop; lia).
  assert (transform (state m) buf = compress (S q) M) as Et.
  { rewrite compress_S, Hbuf, (abs_state _ _ Ha). fold q. unfold M. by rewrite compress_app by lia. }
  destruct (update_loop_ok (S (Z.to_nat (len / 64))) msg input (64 - Z.of_nat r) (S q) len)
    as (i & Eloop & Hi & Hb); [lia|lia|lia|lia| |].
  { pose proof (Z.div_le_mono (len - (64 - Z.of_nat r)) len 64 ltac:(lia) ltac:(lia)). lia. }
  fold M in Hi, Eloop. rewrite <- Et in Eloop.
  pose proof (Nat.div_mod_eq (length M) 64) as HdM.
  pose proof (Nat.mod_upper_bound (length M) 64 ltac:(lia)) as HrM.
  do 4 eexists. split; [exact Emem|]. split; [exact Eloop|].
  rewrite (u32_small (len - i)) by (unfold is_u32; lia). split; [apply memcpy_ok; lia|].
  apply mk_absorbed; cbn [finalized buffer count0 count1 state];
    [exact (abs_open _ _ Ha)| |reflexivity|reflexivity|reflexivity|].
  - rewrite !length_app, !length_take, !length_drop. lia.
  - change (Z.to_nat 0) with 0%nat. rewrite take_0. cbn [app].
    rewrite take_app_le by (rewrite length_take, length_drop; lia).
    assert (drop (64 * (length M / 64)) M = drop (Z.to_nat i) (take (Z.to_nat len) input)) as ->.
    { unfold M at 2. rewrite drop_app_ge by lia. f_equal. lia. }
    rewrite take_take. replace (Z.to_nat len) with (Z.to_nat i + Z.to_nat (len - i))%nat by lia.
    rewrite <- take_drop_commute. f_equal. lia.
Qed.

(** The input fits in the buffer. *)
Lemma update_buffer c0 c1 :
  len < 64 - Z.of_nat r ->
  c0 = (8 * Z.of_nat (length M)) mod UINT_MOD ->
  c1 = (8 * Z.of_nat (length M) / UINT_MOD) mod UINT_MOD ->
  exists buf', memcpy (buffer m) (Z.of_nat r) input 0 len = Ret buf' /\
    absorbed (mkMD5 (finalized m) buf' c0 c1 (state m) (digest m)) M.
Proof.
  intros Hlt -> ->. pose proof update_M_length as HM.
  pose proof (Nat.mod_upper_bound (length msg) 64 ltac:(lia)) as Hr. fold r in Hr.
  pose proof (Nat.div_mod_eq (length msg) 64) as Hdm. fold q r in Hdm.
  assert (length M / 64 = q)%nat as HqM.
  { rewrite HM. symmetry. apply (Nat.div_unique _ _ _ (r + Z.to_nat len)); lia. }
  assert (length M mod 64 = r + Z.to_nat len)%nat as HrM.
  { pose proof (Nat.div_mod_eq (length M) 64). rewrite HqM in *. lia. }
  eexists. split; [apply memcpy_ok; rewrite ?(abs_buffer _ _ Ha); lia|].
  apply mk_absorbed; cbn [finalized buffer count0 count1 state];
    [exact (abs_open _ _ Ha)| |reflexivity|reflexivity| |].
  - rewrite !length_app, !length_take, !length_drop, (abs_buffer _ _ Ha). lia.
  - rewrite (abs_state _ _ Ha). fold q. rewrite HqM. unfold M. symmetry. apply compress_app. lia.
  - change (Z.to_nat 0) with 0%nat. rewrite HrM, HqM, Nat2Z.id, drop_0, app_assoc.
    rewrite take_app_le by (rewrite length_app, !length_take, (abs_buffer _ _ Ha); lia).
    rewrite take_ge by (rewrite length_app, !length_take; lia).
    unfold r at 1. rewrite (abs_rest _ _ Ha). fold q. unfold M. by rewrite drop_app_le by lia.
Qed.

Lemma update_absorbed :
  exists m', update m input len = Ret m' /\ absorbed m' M /\ digest m' = digest m.
Proof.
  pose proof (Nat.mod_upper_bound (length msg) 64 ltac:(lia)) as Hr. fold r in Hr.
  destruct (count_carry (Z.of_nat (length msg)) len ltac:(lia) ltac:(lia)) as [Hc0 Hc1].
  rewrite <- (abs_count0 _ _ Ha), <- (abs_count1 _ _ Ha) in Hc1. rewrite <- (abs_count0 _ _ Ha) in Hc0.
  replace (Z.of_nat (length msg) + len) with (Z.of_nat (length M)) in Hc0, Hc1
    by (rewrite update_M_length; lia).
  unfold update, blocksize. rewrite (absorbed_index _ _ Ha), Hc1, Hc0. fold r.
  rewrite (u32_small (64 - _)) by (unfold is_u32, UINT_MOD; lia).
  destruct (Z.leb_spec (64 - Z.of_nat r) len) as [Hge|Hlt].
  - destruct (update_blocks _ _ Hge eq_refl eq_refl) as (buf & st & i & buf' & -> & E2 & E3 & Ha').
    cbn [mbind outcome_bind]. rewrite E2. cbn [mbind outcome_bind]. rewrite E3. by eexists.
  - destruct (update_buffer _ _ Hlt eq_refl eq_refl) as (buf' & -> & Ha'). by eexists.
Qed.
End Update.

(** ** finalize *)

Lemma encode_word_le w : encode_word w = le_bytes 4 w.
Proof.
  assert (forall x, Z.land x 0xff = x mod 256) as E by (intros x; apply (Z.land_ones x 8); lia).
  unfold encode_word. cbn [le_bytes]. rewrite !E, !Z.shiftr_div_pow2 by lia.
  rewrite !Z.div_div by lia. reflexivity.
Qed.

Lemma le_bytes_app j k w : le_bytes (j + k) w = le_bytes j w ++ le_bytes k (w / 256 ^ Z.of_nat j).
Proof.
  revert w. induction j as [|j IH]; intros w.
  - cbn [Nat.add le_bytes app]. f_equal. by rewrite Z.div_1_r.
  - cbn [Nat.add le_bytes app]. rewrite IH, Z.div_div by (try apply Z.pow_pos_nonneg; lia).
    do 3 f_equal. rewrite Nat2Z.inj_succ, Z.pow_succ_r by lia. done.
Qed.

Lemma le_bytes_mod k w : le_bytes k (w mod 256 ^ Z.of_nat k) = le_bytes k w.
Proof.
  revert w. induction k as [|k IH]; intros w; [done|]. cbn [le_bytes].
  assert (0 < 256 ^ Z.of_nat k) by (apply Z.pow_pos_nonneg; lia).
  rewrite Nat2Z.inj_succ, Z.pow_succ_r by lia. f_equal.
  - rewrite Z.rem_mul_r by lia. rewrite Z.mul_comm, Z.mod_add by lia. by rewrite Z.mod_mod by lia.
  - rewrite <- (IH (w / 256)). f_equal. rewrite Z.rem_mul_r by lia.
    rewrite Z.mul_comm, Z.div_add by lia. rewrite Z.div_small by (apply Z.mod_pos_bound; lia). lia.
Qed.

Lemma encode_count w :
  encode [w mod UINT_MOD; (w / UINT_MOD) mod UINT_MOD] 8 = le_bytes 8 w.
Proof.
  unfold encode. change (8 / 4)%nat with 2%nat. cbn [take flat_map]. rewrite app_nil_r.
  rewrite !encode_word_le. change UINT_MOD with (256 ^ Z.of_nat 4).
  rewrite !le_bytes_mod. symmetry. apply (le_bytes_app 4 4).
Qed.

Lemma encode_state st : encode (state_words st) 16 = flat_map (le_bytes 4) (state_words st).
Proof.
  unfold encode. change (16 / 4)%nat with 4%nat. rewrite take_ge by (simpl; lia).
  apply flat_map_ext. intros w. apply encode_word_le.
Qed.

Lemma le_bytes_length k w : length (le_bytes k w) = k.
Proof. revert w. induction k; intros w; [done|]. simpl. by rewrite IHk. Qed.

Lemma pad_len (n : nat) :
  let index := Z.of_nat (n mod 64) in
  let padLen := if index <? 56 then 56 -u index else 120 -u index in
  1 <= padLen <= 64 /\ take (Z.to_nat padLen) padding = [0x80] ++ replicate (Z.to_nat ((55 - Z.of_nat n) mod 64)) 0.
Proof.
  pose proof (Nat.mod_upper_bound n 64 ltac:(lia)) as Hb. pose proof (Nat.div_mod_eq n 64) as Hd.
  set (r := (n mod 64)%nat) in *. set (q := (n / 64)%nat) in *. intros index padLen.
  assert (padLen = (55 - Z.of_nat n) mod 64 + 1) as E.
  { unfold padLen, index. assert ((55 - Z.of_nat n) mod 64 = (55 - Z.of_nat r) mod 64) as ->.
    { rewrite Hd. replace (55 - Z.of_nat (64 * q + r)) with (55 - Z.of_nat r + (- Z.of_nat q) * 64) by lia.
      by rewrite Z.mod_add by lia. }
    destruct (Z.ltb_spec (Z.of_nat r) 56); rewrite u32_small by (unfold is_u32, UINT_MOD; lia);
      Z.div_mod_to_equations; lia. }
  pose proof (Z.mod_pos_bound (55 - Z.of_nat n) 64 ltac:(lia)) as Hm.
  split; [lia|]. rewrite E. unfold padding.
  replace (Z.to_nat ((55 - Z.of_nat n) mod 64 + 1)) with (S (Z.to_nat ((55 - Z.of_nat n) mod 64))) by lia.
  cbn [take app]. f_equal. rewrite take_replicate. f_equal. lia.
Qed.

Lemma finalize_absorbed m msg :
  absorbed m msg ->
  exists m', finalize m = Ret m' /\ finalized m' = true /\ digest m' = md5_digest msg.
Proof.
  intros Ha. unfold finalize. rewrite (abs_open _ _ Ha).
  assert (encode [count0 m; count1 m] 8 = le_bytes 8 (8 * Z.of_nat (length msg))) as ->.
  { rewrite (abs_count0 _ _ Ha), (abs_count1 _ _ Ha). apply encode_count. }
  rewrite (absorbed_index _ _ Ha).
  destruct (pad_len (length msg)) as [Hp Ep]. cbv zeta in *. set (padLen := if _ <? _ then _ else _) in *.
  destruct (update_absorbed m msg padding padLen Ha) as (m1 & -> & Ha1 & _);
    [change (length padding) with 64%nat; lia|unfold UINT_MOD; lia|]. cbn [mbind outcome_bind].
  destruct (update_absorbed m1 _ (le_bytes 8 (8 * Z.of_nat (length msg))) 8 Ha1) as (m2 & -> & Ha2 & _);
    [rewrite le_bytes_length; lia|unfold UINT_MOD; lia|]. cbn [mbind outcome_bind].
  eexists. split; [done|]. split; [done|]. cbn [digest]. rewrite encode_state.
  unfold md5_digest. cbv zeta. rewrite (abs_state _ _ Ha2).
  rewrite Ep, take_ge by (rewrite le_bytes_length; lia). unfold pad. by rewrite <- !app_assoc.
Qed.

Lemma MD5_of_text_ok mem text :
  length (buffer mem) = 64%nat -> Z.of_nat (length (bytes_of_string text)) < UINT_MOD - 64 ->
  exists m, MD5_of_text mem text = Ret m /\ finalized m = true /\ digest m = md5_digest (bytes_of_string text).
Proof.
  intros Hb Hl. unfold MD5_of_text. cbv zeta. set (input := bytes_of_string text) in *.
  rewrite u32_small by (unfold is_u32; lia).
  destruct (update_absorbed (init mem) [] input (Z.of_nat (length input)) (absorbed_init mem Hb))
    as (m & -> & Ha & _); [lia|lia|]. cbn [mbind outcome_bind].
  rewrite Nat2Z.id, take_ge in Ha by lia. apply (finalize_absorbed m _ Ha).
Qed.

Lemma md5_digest_length msg : length (md5_digest msg) = 16%nat.
Proof. unfold md5_digest, state_words. cbn [flat_map]. by rewrite !length_app, !le_bytes_length. Qed.

Lemma md5_ok mem text :
  length (buffer mem) = 64%nat -> Z.of_nat (length (bytes_of_string text)) < UINT_MOD - 64 ->
  md5 mem text = Ret (md5_hex text).
Proof.
  intros Hb Hl. destruct (MD5_of_text_ok mem text Hb Hl) as (m & E & Hf & Hd).
  unfold md5. rewrite E. cbn [mbind outcome_bind]. unfold hexdigest, md5_hex. rewrite Hf, Hd.
  by rewrite take_ge by (rewrite md5_digest_length; lia).
Qed.

(** ** Any number of calls of update *)

Fixpoint update_all (m : MD5) (chunks : list (list Z)) : outcome MD5 :=
  match chunks with
  | [] => Ret m
  | c :: cs => m' ← update m c (Z.of_nat (length c)); update_all m' cs
  end.

Lemma update_all_absorbed m msg chunks :
  absorbed m msg -> Forall (fun c => Z.of_nat (length c) + 64 < UINT_MOD) chunks ->
  exists m', update_all m chunks = Ret m' /\ absorbed m' (msg ++ concat chunks).
Proof.
  intros Ha Hc. revert m msg Ha. induction Hc as [|c cs Hlen _ IH]; intros m msg Ha.
  { exists m. split; [done|]. simpl. by rewrite app_nil_r. }
  destruct (update_absorbed m msg c (Z.of_nat (length c)) Ha ltac:(lia) Hlen) as (m1 & E & Ha1 & _).
  rewrite Nat2Z.id, take_ge in Ha1 by lia.
  destruct (IH m1 _ Ha1) as (m2 & E2 & Ha2). exists m2. simpl. rewrite E. cbn [mbind outcome_bind].
  rewrite <- app_assoc in Ha2. done.
Qed.

(** ** Properties *)

(** C9: [md5] computes the digest of RFC 1321.  On every string shorter than
    2^32 - 64 bytes, whatever the uninitialised memory of the object holds,
    [md5] returns (no read or write leaves the arrays and the block loop ends)
    the lower-case hexadecimal form of the specified digest: padding, 64-bit
    length and block-wise compression. *)
Theorem md5_computes_digest (mem : MD5) (str : string)
    (Hbuf : length (buffer mem) = 64%nat)
    (Hlen : Z.of_nat (length (bytes_of_string str)) < UINT_MOD - 64) :
  md5 mem str = Ret (md5_hex str).
Proof. exact (md5_ok mem str Hbuf Hlen). Qed.

Lemma md5_computes_digest_witness :
  md5 (mkMD5 true (replicate 64 255) 7 9 (mkState 1 2 3 4) []) "abc" = Ret (md5_hex "abc") /\
  md5_hex "abc" = "900150983cd24fb0d6963f7d28e17f72"%string.
Proof.
  split; [|vm_compute; reflexivity].
  apply (md5_computes_digest (mkMD5 true (replicate 64 255) 7 9 (mkState 1 2 3 4) []) "abc");
    vm_compute; reflexivity.
Defined.



(** the test suite of RFC 1321 (A.5): the seven strings have the seven
    digests it lists. *)
Theorem md5_rfc1321_suite :
  map (md5 MD5_zero)
    [""; "a"; "abc"; "message digest"; "abcdefghijklmnopqrstuvwxyz";
     "ABCDEFGHIJKLMNOPQRSTUVWXYZabcdefghijklmnopqrstuvwxyz0123456789";
     "12345678901234567890123456789012345678901234567890123456789012345678901234567890"]%string
  = map Ret
    ["d41d8cd98f00b204e9800998ecf8427e"; "0cc175b9c0f1b6a831c399e269772661";
     "900150983cd24fb0d6963f7d28e17f72"; "f96b697d7cb7938d525a2f31aaf161d0";
     "c3fcd3d76192e4007dfb496cca67e13b"; "d174ab98d277d9f5a5611c2c9f419d9f";
     "57edf4a22be3c955ac49da2e2107b67a"]%string.
Proof. vm_compute. reflexivity. Qed.
