(* ===== verification/MD5Rounds.v ===== *)
(** * MD5: the compression function as a table-driven loop

    RFC 1321 describes the compression of a block as 64 steps; step [i] uses one
    of four auxiliary functions, a message word, a rotation and the constant
    [T i], the integer part of 2^32 times the absolute value of the sine of
    [i + 1] radians.  The sines are computed here in fixed-point arithmetic, so
    that the 64 literals of md5.cc are checked against their definition, and the
    unrolled [transform] is proved equal to the loop. *)
From S2P Require Import Prelude MD5.

(** ** Fixed-point sine *)

Definition SCALE : Z := 2 ^ 256.

(** [sum_{j < n} (-1)^j x^(2k+2j+1) / (2k+2j+1)!], given [term], the absolute
    value of the first summand times [SCALE]. *)
Fixpoint sine_series (n : nat) (k x term : Z) (positive : bool) : Z :=
  match n with
  | O => 0
  | S n =>
      (if positive then term else - term)
      + sine_series n (k + 1) x (term * (x * x) / ((2 * k + 2) * (2 * k + 3))) (negb positive)
  end.

Definition sine (x : Z) : Z := sine_series 160 0 x (x * SCALE) true.

(** The constant of step [i], [0 <= i < 64]. *)
Definition T (i : nat) : Z := Z.abs (sine (Z.of_nat i + 1)) / 2 ^ 224.

(** ** The schedule *)

Inductive aux := aF | aG | aH | aI.

Record step_desc := mkStep { d_aux : aux; d_word : nat; d_rot : Z; d_const : Z }.

Definition step_at (i : nat) : step_desc :=
  let rot (l : list Z) := nth (i mod 4) l 0 in
  match (i / 16)%nat with
  | 0%nat => mkStep aF i (rot [7; 12; 17; 22]) (T i)
  | 1%nat => mkStep aG ((5 * i + 1) mod 16) (rot [5; 9; 14; 20]) (T i)
  | 2%nat => mkStep aH ((3 * i + 5) mod 16) (rot [4; 11; 16; 23]) (T i)
  | _ => mkStep aI ((7 * i) mod 16) (rot [6; 10; 15; 21]) (T i)
  end.

Definition schedule : list step_desc := map step_at (seq 0 64).

(** ** The loop *)

Definition aux_fun (f : aux) : Z -> Z -> Z -> Z :=
  match f with aF => F | aG => G | aH => H | aI => I end.

(** One step: the registers rotate, the new [b] is computed from the old ones. *)
Definition round_step (words : list Z) (r : Z * Z * Z * Z) (s : step_desc) : Z * Z * Z * Z :=
  let '(a, b, c, d) := r in
  (d, rotate_left (a +u aux_fun (d_aux s) b c d +u nth (d_word s) words 0 +u d_const s) (d_rot s) +u b, b, c).

Definition add_state (st : state4) (r : Z * Z * Z * Z) : state4 :=
  let '(a, b, c, d) := r in
  mkState (st_a st +u a) (st_b st +u b) (st_c st +u c) (st_d st +u d).

Definition compress_block (st : state4) (block : list Z) : state4 :=
  add_state st (fold_left (round_step (decode block 64)) schedule (st_a st, st_b st, st_c st, st_d st)).

(** ** Equivalence *)

(** One assignment of [transform] against one step of the schedule; the new
    register value is forgotten. *)
Lemma round_peel e k words op ops a b c d st :
  round_step words (a, b, c, d) op = (d, e, b, c) ->
  (forall v, k v = add_state st (fold_left (round_step words) ops (d, v, b, c))) ->
  assign e k = add_state st (fold_left (round_step words) (op :: ops) (a, b, c, d)).
Proof. intros He Hk. cbn [fold_left]. rewrite He. apply Hk. Qed.

Definition schedule_table : list step_desc := Eval vm_compute in schedule.

(** C11: [transform] is the 64-step loop of RFC 1321: its unrolled assignments use
    the right auxiliary function, message word, rotation and register order at
    each step, and its 64 literals are the integer parts of 2^32 |sin (i + 1)|. *)
Theorem transform_is_loop (st : state4) (block : list Z) :
  transform st block = compress_block st block.
Proof.
  unfold compress_block, transform. replace schedule with schedule_table by (vm_compute; reflexivity).
  generalize (decode block 64). intros words. unfold schedule_table.
  do 64 (apply round_peel; [reflexivity|intro]). reflexivity.
Qed.
