(* ===== verification/Hash.v ===== *)
(** * From keys to chunks (utils/utils.h, get_hash_uint)

    A key is mapped to its chunk by three lines that the volume server and the
    client share: [md5(key)], [get_hash_uint], and the remainder modulo 1000.
    [get_hash_uint] parses the four groups of eight hexadecimal digits with
    [std::stoul(_, nullptr, 16)], which throws on bad input, and combines them
    with exclusive or.

    The class [KeyHash] is what the components above promise to the servers and
    to the client: a total function from keys to chunks below 1000.  The instance
    [md5_KeyHash] discharges it. *)
From S2P Require Import Prelude MD5 MD5Spec.
From Stdlib Require Import Ascii.

(** ** std::stoul, base 16 *)

Definition is_space (c : ascii) : bool :=
  let n := N_of_ascii c in ((9 <=? n) && (n <=? 13) || (n =? 32))%N.

Definition hex_value (c : ascii) : option Z :=
  let n := Z.of_N (N_of_ascii c) in
  if (48 <=? n) && (n <=? 57) then Some (n - 48)
  else if (97 <=? n) && (n <=? 102) then Some (n - 87)
  else if (65 <=? n) && (n <=? 70) then Some (n - 55)
  else None.

Fixpoint skip_space (l : list ascii) : list ascii :=
  match l with c :: t => if is_space c then skip_space t else l | [] => [] end.

Definition read_sign (l : list ascii) : bool * list ascii :=
  match l with
  | "-"%char :: t => (true, t)
  | "+"%char :: t => (false, t)
  | _ => (false, l)
  end.

(** An optional [0x] or [0X], if a digit follows it. *)
Definition skip_prefix (l : list ascii) : list ascii :=
  match l with
  | "0"%char :: x :: d :: t =>
      if (bool_decide (x = "x"%char) || bool_decide (x = "X"%char)) && bool_decide (hex_value d <> None)
      then d :: t else l
  | _ => l
  end.

(** The value of the longest prefix of digits, and whether there was one. *)
Fixpoint read_digits (acc : Z) (some : bool) (l : list ascii) : bool * Z :=
  match l with
  | c :: t => match hex_value c with
              | Some d => read_digits (16 * acc + d) true t
              | None => (some, acc)
              end
  | [] => (some, acc)
  end.

Definition ULONG_MOD : Z := 2 ^ 64.

Definition stoul16 (l : list ascii) : outcome Z :=
  let '(neg, l) := read_sign (skip_space l) in
  let '(some, v) := read_digits 0 false (skip_prefix l) in
  if negb some then Fault UncaughtException           (* std::invalid_argument *)
  else if ULONG_MOD <=? v then Fault UncaughtException  (* std::out_of_range *)
  else Ret (if neg then (- v) mod ULONG_MOD else v).

(** [std::string::substr(pos, n)] *)
Definition substr (l : list ascii) (pos n : nat) : outcome (list ascii) :=
  if (pos <=? length l)%nat then Ret (take n (drop pos l)) else Fault UncaughtException.

(** ** get_hash_uint *)

(** [uint seg = std::stoul(hash.substr(pos, 8), nullptr, 16);] *)
Definition hash_segment (hash : list ascii) (pos : nat) : outcome Z :=
  s ← substr hash pos 8;
  v ← stoul16 s;
  Ret (u32 v).

Definition get_hash_uint (hash : string) : outcome Z :=
  let l := String.list_ascii_of_string hash in
  seg1 ← hash_segment l 0;
  seg2 ← hash_segment l 8;
  seg3 ← hash_segment l 16;
  seg4 ← hash_segment l 24;
  Ret (Z.lxor (Z.lxor (Z.lxor seg1 seg2) seg3) seg4).

(** [hash = md5(key); hash_int = get_hash_uint(hash); shard_mod = hash_int % NUM_CHUNKS;] *)
Definition key_shard (mem : MD5) (key : string) : outcome Z :=
  hash ← md5 mem key;
  hash_int ← get_hash_uint hash;
  Ret (hash_int mod 1000).

(** ** The interface of the servers and the client *)

Class KeyHash := {
  shard_mod : string -> Z;
  shard_mod_range : forall key, 0 <= shard_mod key < 1000 }.

(** ** Lemmas *)

Definition word_be (b0 b1 b2 b3 : Z) : Z := ((b0 * 256 + b1) * 256 + b2) * 256 + b3.

Definition is_byte (b : Z) : Prop := 0 <= b < 256.

Lemma hex_digit_facts n :
  0 <= n < 16 ->
  hex_value (hex_digit n) = Some n /\ is_space (hex_digit n) = false /\
  hex_digit n <> "-"%char /\ hex_digit n <> "+"%char /\
  hex_digit n <> "x"%char /\ hex_digit n <> "X"%char.
Proof.
  intros Hn. assert (Z.to_nat n < 16)%nat as Hk by lia. rewrite <- (Z2Nat.id n) by lia.
  generalize (Z.to_nat n) Hk. intros k Hk'. clear -Hk'.
  do 16 (destruct k as [|k]; [vm_compute; repeat split; congruence|]). lia.
Qed.

Lemma read_digits_hex acc some bs :
  Forall is_byte bs ->
  read_digits acc some (flat_map hex2 bs) =
    (match bs with [] => some | _ => true end, fold_left (fun a b => a * 256 + b) bs acc).
Proof.
  intros H. revert acc some. induction H as [|b bs Hb _ IH]; intros acc some; [done|].
  unfold is_byte in Hb.
  destruct (hex_digit_facts (b / 16)) as [H1 _]; [split; [apply Z.div_pos|apply Z.div_lt_upper_bound]; lia|].
  destruct (hex_digit_facts (b mod 16)) as [H2 _]; [apply Z.mod_pos_bound; lia|].
  cbn [flat_map hex2 app read_digits]. rewrite H1, H2, IH. cbn [fold_left].
  replace (16 * (16 * acc + b / 16) + b mod 16) with (acc * 256 + b) by (Z.div_mod_to_equations; lia).
  by destruct bs.
Qed.

Lemma stoul16_hex b0 b1 b2 b3 :
  is_byte b0 -> is_byte b1 -> is_byte b2 -> is_byte b3 ->
  stoul16 (flat_map hex2 [b0; b1; b2; b3]) = Ret (word_be b0 b1 b2 b3).
Proof.
  intros H0 H1 H2 H3. unfold is_byte in *.
  destruct (hex_digit_facts (b0 / 16)) as (_ & Hs & Hm & Hp & _);
    [split; [apply Z.div_pos|apply Z.div_lt_upper_bound]; lia|].
  destruct (hex_digit_facts (b0 mod 16)) as (_ & _ & _ & _ & Hx & HX); [apply Z.mod_pos_bound; lia|].
  set (l := flat_map hex2 [b0; b1; b2; b3]).
  assert (skip_space l = l) as E1 by (unfold l; cbn [flat_map hex2 app skip_space]; by rewrite Hs).
  assert (read_sign l = (false, l)) as E2.
  { unfold l; cbn [flat_map hex2 app read_sign].
    destruct (hex_digit (b0 / 16)) as [[] [] [] [] [] [] [] []]; congruence. }
  assert (skip_prefix l = l) as E3.
  { unfold l; cbn [flat_map hex2 app skip_prefix]. rewrite !bool_decide_eq_false_2 by done.
    by destruct (hex_digit (b0 / 16)) as [[] [] [] [] [] [] [] []]. }
  unfold stoul16. rewrite E1, E2, E3. unfold l.
  rewrite read_digits_hex by (rewrite !Forall_cons; split_and!; [done..|constructor]).
  cbn [negb fold_left]. unfold word_be, ULONG_MOD. rewrite (proj2 (Z.leb_gt _ _)) by lia. reflexivity.
Qed.

Lemma hex_length bs : length (flat_map hex2 bs) = (2 * length bs)%nat.
Proof. induction bs; simpl; [done|]. rewrite IHbs. lia. Qed.

Lemma flat_map_hex_app bs1 bs2 : flat_map hex2 (bs1 ++ bs2) = flat_map hex2 bs1 ++ flat_map hex2 bs2.
Proof. apply flat_map_app. Qed.

(** A segment of a digest in hexadecimal is the big-endian word of its bytes. *)
Lemma hash_segment_hex pre b0 b1 b2 b3 post :
  is_byte b0 -> is_byte b1 -> is_byte b2 -> is_byte b3 ->
  hash_segment (flat_map hex2 (pre ++ [b0; b1; b2; b3] ++ post)) (2 * length pre) =
    Ret (word_be b0 b1 b2 b3).
Proof.
  intros H0 H1 H2 H3. unfold hash_segment, substr.
  rewrite (proj2 (Nat.leb_le _ _)) by (rewrite hex_length, length_app; lia). cbn [mbind outcome_bind].
  rewrite !flat_map_hex_app, drop_app_length' by by rewrite hex_length.
  rewrite take_app_length' by by rewrite hex_length.
  rewrite stoul16_hex by done. cbn [mbind outcome_bind]. f_equal. apply u32_small.
  unfold is_u32, word_be, UINT_MOD, is_byte in *. lia.
Qed.

Lemma lxor_u32 a b : is_u32 a -> is_u32 b -> is_u32 (Z.lxor a b).
Proof.
  unfold is_u32, UINT_MOD. intros Ha Hb. split; [apply Z.lxor_nonneg; lia|].
  destruct (Z.eq_dec (Z.lxor a b) 0) as [->|Hne]; [lia|].
  assert (0 < Z.lxor a b) by (assert (0 <= Z.lxor a b) by (apply Z.lxor_nonneg; lia); lia).
  change 4294967296 with (2 ^ 32). apply Z.log2_lt_pow2; [done|].
  assert (forall x, 0 <= x < 4294967296 -> Z.log2 x < 32) as Hlog.
  { intros x Hx. destruct (Z.eq_dec x 0) as [->|]; [simpl; lia|]. apply Z.log2_lt_pow2; lia. }
  pose proof (Z.log2_lxor a b ltac:(lia) ltac:(lia)).
  pose proof (Hlog a Ha). pose proof (Hlog b Hb). lia.
Qed.

(** The exclusive or of the four big-endian words of a digest. *)
Definition digest_hash (d : list Z) : Z :=
  let w i := word_be (nth (4 * i) d 0) (nth (4 * i + 1) d 0) (nth (4 * i + 2) d 0) (nth (4 * i + 3) d 0) in
  Z.lxor (Z.lxor (Z.lxor (w 0%nat) (w 1%nat)) (w 2%nat)) (w 3%nat).

Lemma get_hash_uint_digest d :
  length d = 16%nat -> Forall is_byte d ->
  get_hash_uint (String.string_of_list_ascii (flat_map hex2 d)) = Ret (digest_hash d) /\
  is_u32 (digest_hash d).
Proof.
  intros Hl Hb. do 16 (destruct d as [|? d]; [done|]). destruct d; [|done].
  repeat match goal with H : Forall _ (_ :: _) |- _ => apply Forall_cons in H as [? H] end.
  unfold get_hash_uint. rewrite String.list_ascii_of_string_of_list_ascii. split.
  - pose proof (hash_segment_hex [] z z0 z1 z2 [z3; z4; z5; z6; z7; z8; z9; z10; z11; z12; z13; z14]) as E1.
    pose proof (hash_segment_hex [z; z0; z1; z2] z3 z4 z5 z6 [z7; z8; z9; z10; z11; z12; z13; z14]) as E2.
    pose proof (hash_segment_hex [z; z0; z1; z2; z3; z4; z5; z6] z7 z8 z9 z10 [z11; z12; z13; z14]) as E3.
    pose proof (hash_segment_hex [z; z0; z1; z2; z3; z4; z5; z6; z7; z8; z9; z10] z11 z12 z13 z14 []) as E4.
    cbn [app length Nat.mul Nat.add] in E1, E2, E3, E4.
    rewrite E1, E2, E3, E4 by done. reflexivity.
  - unfold digest_hash. cbn [nth Nat.mul Nat.add]. unfold is_byte in *.
    repeat apply lxor_u32; unfold is_u32, word_be, UINT_MOD; lia.
Qed.

Lemma le_bytes_byte k w : Forall is_byte (le_bytes k w).
Proof.
  revert w. induction k; intros w; constructor; [|done]. apply Z.mod_pos_bound. lia.
Qed.

Lemma md5_digest_bytes msg : Forall is_byte (md5_digest msg).
Proof.
  unfold md5_digest, state_words. cbn [flat_map].
  repeat (apply Forall_app; split); try apply le_bytes_byte. constructor.
Qed.

(** ** The md5 instance *)

Lemma key_shard_range mem key n : key_shard mem key = Ret n -> 0 <= n < 1000.
Proof.
  unfold key_shard. intros H. apply bind_Ret in H as (h & _ & H). apply bind_Ret in H as (i & _ & H).
  injection H as <-. apply Z.mod_pos_bound. lia.
Qed.

(** Keys on which [key_shard] does not return are 4 GB long; they are given
    chunk 0. *)
Definition md5_shard_mod (key : string) : Z :=
  match key_shard MD5_zero key with Ret n => n | Fault _ => 0 end.

Program Definition md5_KeyHash : KeyHash := {| shard_mod := md5_shard_mod |}.
Next Obligation.
  unfold md5_shard_mod. intros key. destruct (key_shard MD5_zero key) eqn:E; [|lia].
  by eapply key_shard_range.
Qed.

(** ** Properties *)


