(* ===== verification/QueueDetails.v ===== *)
(** * The helpers of the concurrent queue (utils/concurrentqueue-1.0.3/concurrentqueue.h, namespace details)

    Indices and sizes are 64-bit here ([size_t] and [index_t] of the default
    traits).  [circular_less_than] compares indices that may have wrapped,
    [ceil_to_pow_2] sizes the block index, [hash_thread_id] spreads thread
    identifiers over the hash table of implicit producers. *)
From S2P Require Import Prelude.

(** ** Default traits *)

Definition BLOCK_SIZE : Z := 32.
Definition EXPLICIT_BLOCK_EMPTY_COUNTER_THRESHOLD : Z := 32.
Definition EXPLICIT_INITIAL_INDEX_SIZE : Z := 32.
Definition IMPLICIT_INITIAL_INDEX_SIZE : Z := 32.
Definition INITIAL_IMPLICIT_PRODUCER_HASH_SIZE : Z := 32.
Definition EXPLICIT_CONSUMER_CONSUMPTION_QUOTA_BEFORE_ROTATE : Z := 256.

(** [details::const_numeric_max<size_t>::value] *)
Definition const_numeric_max : Z := UINT64_MOD - 1.

(** The class constant, computed from the one of the traits. *)
Definition max_subqueue_size (traits : Z) : Z :=
  if const_numeric_max - traits <? BLOCK_SIZE then const_numeric_max
  else (traits +w (BLOCK_SIZE - 1)) / BLOCK_SIZE *w BLOCK_SIZE.

Definition MAX_SUBQUEUE_SIZE : Z := max_subqueue_size const_numeric_max.

(** ** Functions *)

Definition invalid_thread_id : Z := 0.
Definition invalid_thread_id2 : Z := 1.

(** [details::circular_less_than<std::uint64_t>] *)
Definition circular_less_than (a b : Z) : bool := 9223372036854775808 <? a -w b.

(** [x |= x >> k] *)
Definition smear (k x : Z) : Z := Z.lor x (Z.shiftr x k).

(** The loop over [i = 1, 2, 4] of [ceil_to_pow_2] shifts by 8, 16 and 32. *)
Definition ceil_to_pow_2 (x : Z) : Z :=
  let x := x -w 1 in
  let x := smear 1 x in
  let x := smear 2 x in
  let x := smear 4 x in
  let x := smear (Z.shiftl 1 3) x in
  let x := smear (Z.shiftl 2 3) x in
  let x := smear (Z.shiftl 4 3) x in
  x +w 1.

(** [h ^= h >> k] *)
Definition xorshift (k h : Z) : Z := Z.lxor h (Z.shiftr h k).

(** [_hash_32_or_64<0>::hash] *)
Definition hash_32 (h : Z) : Z :=
  let h := xorshift 16 h in
  let h := h *u 2246822507 in
  let h := xorshift 13 h in
  let h := h *u 3266489909 in
  xorshift 16 h.

(** [_hash_32_or_64<1>::hash] *)
Definition hash_64 (h : Z) : Z :=
  let h := xorshift 33 h in
  let h := h *w 18397679294719823053 in
  let h := xorshift 33 h in
  let h := h *w 14181476777654086739 in
  xorshift 33 h.

(** Thread identifiers are addresses, [prehash] is the identity. *)
Definition hash_thread_id (id : Z) : Z := hash_64 id.

(** [details::align_for]: the next address with the given alignment. *)
Definition align_for (alignment ptr : Z) : Z :=
  ptr + (alignment - ptr mod alignment) mod alignment.

(** ** Circular comparison *)

Lemma circular_less_than_spec x y :
  -9223372036854775808 < x - y <= 9223372036854775808 ->
  circular_less_than (u64 x) (u64 y) = (x <? y).
Proof.
  intros Hd. unfold circular_less_than. rewrite u64_sub_l, u64_sub_r.
  assert (u64 (x - y) = if x <? y then x - y + UINT64_MOD else x - y) as ->.
  { unfold u64, UINT64_MOD. destruct (Z.ltb_spec x y).
    - symmetry. apply Z.mod_unique with (-1); lia.
    - apply Z.mod_small. lia. }
  unfold UINT64_MOD. destruct (Z.ltb_spec x y); zbool; lia.
Qed.

(** ** Rounding up to a power of two *)

(** The [w] topmost bits of [x] are set. *)
Definition top_bits (w x : Z) : Prop :=
  forall i, Z.log2 x - w < i <= Z.log2 x -> 0 <= i -> Z.testbit x i = true.

Lemma smear_log2 k x : 0 < x -> 0 <= k -> Z.log2 (smear k x) = Z.log2 x.
Proof.
  intros Hx Hk. unfold smear. assert (0 <= Z.shiftr x k) by (apply Z.shiftr_nonneg; lia).
  rewrite Z.log2_lor by lia. apply Z.max_l. rewrite Z.log2_shiftr by lia. pose proof (Z.log2_nonneg x). lia.
Qed.

Lemma smear_pos k x : 0 < x -> 0 <= k -> 0 < smear k x.
Proof.
  intros Hx Hk. unfold smear. assert (0 <= Z.shiftr x k) by (apply Z.shiftr_nonneg; lia).
  assert (0 <= Z.lor x (Z.shiftr x k)) by (apply Z.lor_nonneg; lia).
  destruct (Z.eq_dec (Z.lor x (Z.shiftr x k)) 0) as [E|]; [|lia]. apply Z.lor_eq_0_iff in E. lia.
Qed.

Lemma smear_top w x : 0 < x -> 0 < w -> top_bits w x -> top_bits (2 * w) (smear w x).
Proof.
  intros Hx Hw Ht i Hi H0. rewrite smear_log2 in Hi by lia. unfold smear. rewrite Z.lor_spec.
  destruct (Z.le_gt_cases i (Z.log2 x - w)) as [Hlo|Hhi].
  - rewrite Z.shiftr_spec by lia. rewrite (Ht (i + w)) by lia. apply orb_true_r.
  - rewrite (Ht i) by lia. done.
Qed.

Lemma top_bits_ones x w : 0 < x -> Z.log2 x < w -> top_bits w x -> x = 2 ^ (Z.log2 x + 1) - 1.
Proof.
  intros Hx Hw Ht. pose proof (Z.log2_nonneg x). rewrite Z.sub_1_r, <- Z.ones_equiv. apply Z.bits_inj'. intros i Hi.
  destruct (Z.le_gt_cases i (Z.log2 x)) as [Hle|Hgt].
  - rewrite (Ht i) by lia. symmetry. apply Z.ones_spec_low. lia.
  - rewrite Z.bits_above_log2 by lia. symmetry. apply Z.ones_spec_high. lia.
Qed.

Lemma ceil_to_pow_2_ok x : 1 <= x <= 9223372036854775808 -> ceil_to_pow_2 x = 2 ^ Z.log2_up x.
Proof.
  intros Hx. unfold ceil_to_pow_2. cbv zeta. rewrite (u64_small (x - 1)) by (unfold is_u64, UINT64_MOD; lia).
  destruct (Z.eq_dec x 1) as [->|Hne]; [done|].
  set (y := x - 1). assert (0 < y < 2 ^ 63) as Hy by (unfold y; lia).
  assert (top_bits 1 y) as T0.
  { intros i Hi H0. replace i with (Z.log2 y) by lia. apply Z.bit_log2. lia. }
  assert (Z.log2 y < 63) as HL by (apply Z.log2_lt_pow2; lia).
  pose proof (smear_top 1 y ltac:(lia) ltac:(lia) T0) as T1. pose proof (smear_pos 1 y ltac:(lia) ltac:(lia)) as P1.
  pose proof (smear_top 2 _ P1 ltac:(lia) T1) as T2. pose proof (smear_pos 2 _ P1 ltac:(lia)) as P2.
  pose proof (smear_top 4 _ P2 ltac:(lia) T2) as T3. pose proof (smear_pos 4 _ P2 ltac:(lia)) as P3.
  pose proof (smear_top 8 _ P3 ltac:(lia) T3) as T4. pose proof (smear_pos 8 _ P3 ltac:(lia)) as P4.
  pose proof (smear_top 16 _ P4 ltac:(lia) T4) as T5. pose proof (smear_pos 16 _ P4 ltac:(lia)) as P5.
  pose proof (smear_top 32 _ P5 ltac:(lia) T5) as T6. pose proof (smear_pos 32 _ P5 ltac:(lia)) as P6.
  change (Z.shiftl 1 3) with 8. change (Z.shiftl 2 3) with 16. change (Z.shiftl 4 3) with 32.
  set (z := smear 32 _) in *.
  assert (Z.log2 z = Z.log2 y) as EL by (unfold z; rewrite !smear_log2 by lia; done).
  rewrite (top_bits_ones z 64 P6 ltac:(rewrite EL; lia) T6), EL.
  rewrite Z.sub_add. rewrite u64_small.
  - rewrite (Z.log2_up_eqn x) by lia. unfold y. by rewrite Z.sub_1_r.
  - unfold is_u64. pose proof (Z.log2_nonneg y). split; [apply Z.pow_nonneg; lia|].
    apply Z.le_lt_trans with (2 ^ 63); [apply Z.pow_le_mono_r; lia|done].
Qed.

(** ** The hash is a bijection *)

Lemma xorshift_nonneg k h : 0 <= h -> 0 <= xorshift k h.
Proof. intros Hh. unfold xorshift. apply Z.lxor_nonneg. rewrite Z.shiftr_nonneg. lia. Qed.

Lemma xorshift_bound k h n : 0 <= k -> 0 <= n -> 0 <= h < 2 ^ n -> 0 <= xorshift k h < 2 ^ n.
Proof.
  intros Hk Hn Hh. split; [apply xorshift_nonneg; lia|].
  destruct (Z.eq_dec (xorshift k h) 0) as [->|Hne]; [apply Z.pow_pos_nonneg; lia|].
  assert (0 < xorshift k h) by (pose proof (xorshift_nonneg k h); lia).
  apply Z.log2_lt_pow2; [done|]. unfold xorshift. assert (0 <= Z.shiftr h k) by (apply Z.shiftr_nonneg; lia).
  eapply Z.le_lt_trans; [apply Z.log2_lxor; lia|]. apply Z.max_lub_lt.
  - destruct (Z.eq_dec h 0) as [->|]; [unfold xorshift in Hne; by rewrite Z.shiftr_0_l in Hne|]. apply Z.log2_lt_pow2; lia.
  - destruct (Z.eq_dec h 0) as [->|]; [unfold xorshift in Hne; by rewrite Z.shiftr_0_l in Hne|].
    rewrite Z.log2_shiftr by lia. assert (Z.log2 h < n) by (apply Z.log2_lt_pow2; lia). pose proof (Z.log2_nonneg h). lia.
Qed.

Lemma shiftr_small h k : 0 <= k -> 0 <= h < 2 ^ k -> Z.shiftr h k = 0.
Proof. intros Hk Hh. rewrite Z.shiftr_div_pow2 by lia. apply Z.div_small. lia. Qed.

(** Shifting by at least half of the width: the step is its own inverse. *)
Lemma xorshift_involutive k h : 0 <= k -> 0 <= h < 2 ^ (k + k) -> xorshift k (xorshift k h) = h.
Proof.
  intros Hk Hh. unfold xorshift. rewrite Z.shiftr_lxor, Z.shiftr_shiftr by lia.
  rewrite (shiftr_small h (k + k)) by lia. rewrite Z.lxor_0_r, Z.lxor_assoc, Z.lxor_nilpotent. apply Z.lxor_0_r.
Qed.

(** Shifting by at least a third of the width. *)
Definition unxorshift (k h : Z) : Z := Z.lxor (xorshift k h) (Z.shiftr h (k + k)).

Lemma unxorshift_ok k h : 0 <= k -> 0 <= h < 2 ^ (k + k + k) -> unxorshift k (xorshift k h) = h.
Proof.
  intros Hk Hh. unfold unxorshift, xorshift. rewrite !Z.shiftr_lxor, !Z.shiftr_shiftr by lia.
  replace (k + (k + k)) with (k + k + k) by lia. rewrite (shiftr_small h (k + k + k)) by lia. rewrite Z.lxor_0_r.
  rewrite (Z.lxor_assoc h (Z.shiftr h k)). rewrite <- (Z.lxor_assoc (Z.shiftr h k)), Z.lxor_nilpotent, Z.lxor_0_l.
  by rewrite Z.lxor_assoc, Z.lxor_nilpotent, Z.lxor_0_r.
Qed.

Lemma mul64_inverse c d h : u64 (c * d) = 1 -> is_u64 h -> (h *w c) *w d = h.
Proof.
  intros Hcd Hh. unfold u64 in *. rewrite Zmult_mod_idemp_l, <- Z.mul_assoc, <- Zmult_mod_idemp_r, Hcd.
  rewrite Z.mul_1_r. by apply u64_small.
Qed.

Lemma mul32_inverse c d h : u32 (c * d) = 1 -> is_u32 h -> (h *u c) *u d = h.
Proof.
  intros Hcd Hh. unfold u32 in *. rewrite Zmult_mod_idemp_l, <- Z.mul_assoc, <- Zmult_mod_idemp_r, Hcd.
  rewrite Z.mul_1_r. by apply u32_small.
Qed.

Definition unhash_64 (h : Z) : Z :=
  xorshift 33 (xorshift 33 (xorshift 33 h *w 11291846944257947611) *w 5725274745694666757).

Definition unhash_32 (h : Z) : Z :=
  xorshift 16 (unxorshift 13 (xorshift 16 h *u 2127672349) *u 2781581891).

Lemma hash_64_range h : is_u64 h -> is_u64 (hash_64 h).
Proof.
  intros Hh. unfold hash_64. cbv zeta. unfold is_u64. change UINT64_MOD with (2 ^ 64). apply xorshift_bound; [lia|lia|].
  apply u64_range.
Qed.

(** the hash of thread identifiers loses nothing: on 64-bit identifiers it is
    undone by [unhash_64], so two threads never have the same full hash and only
    meet in a table because of its size; the 32-bit variant likewise. *)
Theorem hash_thread_id_injective (h : Z) (H64 : is_u64 h) :
  is_u64 (hash_thread_id h) /\ unhash_64 (hash_thread_id h) = h /\ (is_u32 h -> unhash_32 (hash_32 h) = h).
Proof.
  split; [by apply hash_64_range|]. split.
  - unfold hash_thread_id, hash_64, unhash_64. cbv zeta.
    assert (forall x, is_u64 x -> 0 <= x < 2 ^ (33 + 33)) as Hb by (unfold is_u64, UINT64_MOD; lia).
    assert (forall x, is_u64 x -> is_u64 (xorshift 33 x)) as Hx.
    { intros x Hx. unfold is_u64. change UINT64_MOD with (2 ^ 64). by apply xorshift_bound. }
    rewrite xorshift_involutive by first [lia|apply Hb; auto with dkv].
    rewrite mul64_inverse by first [reflexivity|auto with dkv].
    rewrite xorshift_involutive by first [lia|apply Hb; auto with dkv].
    rewrite mul64_inverse by first [reflexivity|auto with dkv].
    apply xorshift_involutive; auto; lia.
  - intros H32. unfold hash_32, unhash_32. cbv zeta.
    assert (forall x, is_u32 x -> 0 <= x < 2 ^ (16 + 16)) as Hb by (unfold is_u32, UINT_MOD; lia).
    assert (forall x, is_u32 x -> 0 <= x < 2 ^ (13 + 13 + 13)) as Hb3 by (unfold is_u32, UINT_MOD; lia).
    assert (forall k x, 0 <= k -> is_u32 x -> is_u32 (xorshift k x)) as Hx.
    { intros k x Hk Hx. unfold is_u32. change UINT_MOD with (2 ^ 32). by apply xorshift_bound. }
    rewrite xorshift_involutive by first [lia|apply Hb; auto with dkv].
    rewrite mul32_inverse by first [reflexivity|apply Hx; [lia|auto with dkv]].
    rewrite unxorshift_ok by first [lia|apply Hb3; auto with dkv].
    rewrite mul32_inverse by first [reflexivity|apply Hx; [lia|auto with dkv]].
    apply xorshift_involutive; auto; lia.
Qed.

Lemma hash_thread_id_injective_witness : unhash_64 (hash_thread_id 140737353627392) = 140737353627392.
Proof. refine (proj1 (proj2 (hash_thread_id_injective 140737353627392 _))). unfold is_u64, UINT64_MOD. lia. Defined.

(** the helpers on indices and sizes: [circular_less_than] decides the order of
    two counters that may have wrapped as long as they are less than 2^63 apart,
    and [ceil_to_pow_2] returns the least power of two that is not smaller. *)
Theorem queue_helpers_correct (x y : Z)
    (Hd : -9223372036854775808 < x - y <= 9223372036854775808) :
  circular_less_than (u64 x) (u64 y) = (x <? y) /\
  (1 <= x <= 9223372036854775808 ->
     x <= ceil_to_pow_2 x /\ ceil_to_pow_2 x = 2 ^ Z.log2_up x /\ forall k, 0 <= k -> x <= 2 ^ k -> ceil_to_pow_2 x <= 2 ^ k).
Proof.
  split; [by apply circular_less_than_spec|]. intros Hx. rewrite ceil_to_pow_2_ok by done. split; [|split; [done|]].
  - destruct (Z.eq_dec x 1) as [->|]; [done|]. apply Z.log2_up_spec. lia.
  - intros k Hk Hxk. apply Z.pow_le_mono_r; [lia|]. apply Z.log2_up_le_pow2; lia.
Qed.

Lemma queue_helpers_correct_witness :
  circular_less_than (u64 18446744073709551615) (u64 18446744073709551617) = true /\ ceil_to_pow_2 33 = 64.
Proof.
  split.
  - refine (proj1 (queue_helpers_correct 18446744073709551615 18446744073709551617 _)). lia.
  - destruct (proj2 (queue_helpers_correct 33 40 ltac:(lia)) ltac:(lia)) as (_ & E & _). exact E.
Defined.
