(* ===== verification/QueueIndex.v ===== *)
(** * How consumers claim elements (dequeue and dequeue_bulk of both producers)

    A producer's sub-queue has four counters: [tailIndex], which only the producer
    advances, [headIndex], from which consumers take indices, and the pair
    [dequeueOptimisticCount] / [dequeueOvercommit], with which consumers find out
    whether there is something for them without a lock.  Here the loads and the
    fetch-and-adds of any number of concurrent [dequeue] and [dequeue_bulk] calls
    and of the producer interleave freely, one atomic operation per step.

    [claims_are_exclusive]: whatever the interleaving, the ranges of indices the
    consumers are given are consecutive and below [tailIndex]; no element is
    handed out twice and none before it was enqueued.  The argument is the one of
    the comments of the code: the marks of the ghost list say what became of every
    unit added to the optimistic counter. *)
From S2P Require Import Prelude QueueDetails.

(** ** State *)

Inductive Kind := Single | Bulk (max : Z).

(** A consumer between two atomic operations of [dequeue] ([Single]) or
    [dequeue_bulk], with its local variables. *)
Inductive Consumer :=
  | CStart (k : Kind)
  | CTail (k : Kind) (tail : Z)                              (** [tail] loaded *)
  | COver (k : Kind) (tail overcommit : Z)                   (** [overcommit] loaded *)
  | CGo (k : Kind) (desiredCount overcommit : Z)             (** the first test passed *)
  | CCounted (k : Kind) (desiredCount overcommit my : Z)     (** optimistic counter advanced *)
  | CAdjust (desiredCount actualCount my : Z)                (** fewer elements than desired *)
  | CClaim (actualCount my : Z)                              (** about to take indices *)
  | CBack (desiredCount my : Z).                             (** nothing there after all *)

Record Indices := mkIdx {
  tailIndex : Z; headIndex : Z; dequeueOptimisticCount : Z; dequeueOvercommit : Z;
  consumers : gmap nat Consumer;
  claims : list (Z * Z);          (** first index and number of elements, in the order of the claims *)
  refused : nat }.                (** how many calls returned empty-handed *)

Definition idx_init : Indices := mkIdx 0 0 0 0 ∅ [] 0.

(** ** Steps *)

Inductive IEvent :=
  | IEnqueue (count : Z)            (** the producer publishes [count] elements *)
  | IStart (t : nat) (k : Kind)     (** thread [t] calls [dequeue] or [dequeue_bulk] *)
  | IStep (t : nat).                (** thread [t] does its next atomic operation *)

Definition set_consumer (s : Indices) (t : nat) (c : Consumer) : Indices :=
  mkIdx (tailIndex s) (headIndex s) (dequeueOptimisticCount s) (dequeueOvercommit s)
        (<[t := c]> (consumers s)) (claims s) (refused s).

(** The call returns without an element. *)
Definition return_empty (s : Indices) (t : nat) : Indices :=
  mkIdx (tailIndex s) (headIndex s) (dequeueOptimisticCount s) (dequeueOvercommit s)
        (delete t (consumers s)) (claims s) (S (refused s)).

Definition consumer_step (s : Indices) (t : nat) (c : Consumer) : Indices :=
  match c with
  | CStart k => set_consumer s t (CTail k (tailIndex s))
  | CTail k tail => set_consumer s t (COver k tail (dequeueOvercommit s))
  | COver Single tail overcommit =>
      if circular_less_than (dequeueOptimisticCount s -w overcommit) tail
      then set_consumer s t (CGo Single 1 overcommit) else return_empty s t
  | COver (Bulk max) tail overcommit =>
      let desiredCount := tail -w (dequeueOptimisticCount s -w overcommit) in
      if circular_less_than 0 desiredCount
      then set_consumer s t (CGo (Bulk max) (if desiredCount <? max then desiredCount else max) overcommit)
      else return_empty s t
  | CGo k desiredCount overcommit =>
      mkIdx (tailIndex s) (headIndex s) (dequeueOptimisticCount s +w desiredCount) (dequeueOvercommit s)
            (<[t := CCounted k desiredCount overcommit (dequeueOptimisticCount s)]> (consumers s)) (claims s) (refused s)
  | CCounted Single desiredCount overcommit my =>
      if circular_less_than (my -w overcommit) (tailIndex s)
      then set_consumer s t (CClaim 1 my) else set_consumer s t (CBack 1 my)
  | CCounted (Bulk _) desiredCount overcommit my =>
      let actualCount := tailIndex s -w (my -w overcommit) in
      if circular_less_than 0 actualCount then
        let actualCount := if desiredCount <? actualCount then desiredCount else actualCount in
        if actualCount <? desiredCount then set_consumer s t (CAdjust desiredCount actualCount my)
        else set_consumer s t (CClaim actualCount my)
      else set_consumer s t (CBack desiredCount my)
  | CAdjust desiredCount actualCount my =>
      mkIdx (tailIndex s) (headIndex s) (dequeueOptimisticCount s) (dequeueOvercommit s +w (desiredCount -w actualCount))
            (<[t := CClaim actualCount my]> (consumers s)) (claims s) (refused s)
  | CClaim actualCount my =>
      mkIdx (tailIndex s) (headIndex s +w actualCount) (dequeueOptimisticCount s) (dequeueOvercommit s)
            (delete t (consumers s)) (claims s ++ [(headIndex s, actualCount)]) (refused s)
  | CBack desiredCount my =>
      mkIdx (tailIndex s) (headIndex s) (dequeueOptimisticCount s) (dequeueOvercommit s +w desiredCount)
            (delete t (consumers s)) (claims s) (S (refused s))
  end.

Definition idx_step (s : Indices) (ev : IEvent) : Indices :=
  match ev with
  | IEnqueue count =>
      mkIdx (tailIndex s +w count) (headIndex s) (dequeueOptimisticCount s) (dequeueOvercommit s)
            (consumers s) (claims s) (refused s)
  | IStart t k => match consumers s !! t with Some _ => s | None => set_consumer s t (CStart k) end
  | IStep t => match consumers s !! t with Some c => consumer_step s t c | None => s end
  end.

Definition idx_run (s : Indices) (evs : list IEvent) : Indices := fold_left idx_step evs s.

(** The most an event can add to a counter. *)
Definition weight (ev : IEvent) : Z :=
  match ev with
  | IEnqueue count => count
  | IStart _ Single => 1
  | IStart _ (Bulk max) => max
  | IStep _ => 0
  end.

Definition total_weight (evs : list IEvent) : Z := foldr (fun ev w => weight ev + w) 0 evs.

(** ** Ghost marks *)

(** What became of a unit of the optimistic counter: its thread has not decided
    yet, has found an element, has given it up but not said so in the overcommit
    counter, has taken an index for it, or has put it in the overcommit counter. *)
Inductive Mark := MPending (t : nat) | MWon (t : nat) | MLost (t : nat) | MClaimed | MBack.

Definition is_back (m : Mark) : bool := match m with MBack => true | _ => false end.
Definition is_claimed (m : Mark) : bool := match m with MClaimed => true | _ => false end.
Definition is_won (m : Mark) : bool := match m with MWon _ | MClaimed => true | _ => false end.

Definition count (f : Mark -> bool) (l : list Mark) : Z := Z.of_nat (length (List.filter f l)).

(** The [n] marks from position [i] on are all [m]. *)
Definition slice (l : list Mark) (i n : Z) (m : Mark) : Prop :=
  0 <= i /\ 0 <= n /\ i + n <= Z.of_nat (length l) /\
  forall x : nat, i <= Z.of_nat x < i + n -> l !! x = Some m.

(** They become [m]. *)
Definition remark (l : list Mark) (i n : Z) (m : Mark) : list Mark :=
  take (Z.to_nat i) l ++ replicate (Z.to_nat n) m ++ drop (Z.to_nat (i + n)) l.

Lemma count_app f l1 l2 : count f (l1 ++ l2) = count f l1 + count f l2.
Proof. unfold count. rewrite List.filter_app, List.length_app. lia. Qed.

Lemma count_replicate f n m : count f (replicate n m) = if f m then Z.of_nat n else 0.
Proof.
  unfold count. induction n as [|n IH]; cbn [replicate List.filter]; [by destruct (f m)|].
  destruct (f m); cbn [length]; lia.
Qed.

Lemma count_nonneg f l : 0 <= count f l.
Proof. unfold count. lia. Qed.

Lemma count_le f l : count f l <= Z.of_nat (length l).
Proof. unfold count. pose proof (List.filter_length_le f l). lia. Qed.

(** Disjoint kinds of marks. *)
Lemma count_disjoint f g l :
  (forall m, f m = true -> g m = true -> False) -> count f l + count g l <= Z.of_nat (length l).
Proof.
  intros Hd. unfold count. induction l as [|m l IH]; [done|]. cbn [List.filter length].
  pose proof (Hd m). destruct (f m), (g m); cbn [length]; try lia.
Qed.

(** Every won unit is covered by an element or by units given up before it. *)
Definition covered (l : list Mark) (tail : Z) : Prop :=
  forall x m, l !! x = Some m -> is_won m = true -> Z.of_nat x + 1 <= tail + count is_back (take x l).

Lemma last_won l :
  count is_won l = 0 \/ exists x m, l !! x = Some m /\ is_won m = true /\ count is_won (drop (S x) l) = 0.
Proof.
  induction l as [|m l IH]; [by left|]. destruct IH as [IH|(x & m' & Hx & Hm & H2)].
  - destruct (is_won m) eqn:E.
    + right. by exists 0%nat, m.
    + left. unfold count in *. cbn [List.filter]. by rewrite E.
  - right. by exists (S x), m'.
Qed.

(** No more units won than elements enqueued. *)
Lemma covered_won l tail : covered l tail -> 0 <= tail -> count is_won l <= tail.
Proof.
  intros Hc Ht. destruct (last_won l) as [->|(x & m & Hx & Hm & H2)]; [done|].
  specialize (Hc x m Hx Hm). rewrite <- (take_drop_middle l x m Hx).
  rewrite count_app. change (m :: drop (S x) l) with ([m] ++ drop (S x) l). rewrite count_app, H2.
  pose proof (count_disjoint is_won is_back (take x l) ltac:(by intros [])) as Hd.
  pose proof (count_le is_won [m]) as H1. cbn [length] in H1.
  rewrite length_take_le in Hd by (apply lookup_lt_Some in Hx; lia). lia.
Qed.

(** *** Changing marks *)

Lemma slice_split l i n m :
  slice l i n m -> l = take (Z.to_nat i) l ++ replicate (Z.to_nat n) m ++ drop (Z.to_nat (i + n)) l.
Proof.
  intros (Hi & Hn & Hl & Hx). rewrite <- (take_drop (Z.to_nat i) l) at 1. f_equal.
  rewrite <- (take_drop (Z.to_nat n) (drop (Z.to_nat i) l)), drop_drop.
  replace (Z.to_nat i + Z.to_nat n)%nat with (Z.to_nat (i + n)) by lia. f_equal.
  apply list_eq. intros x. destruct (decide (x < Z.to_nat n)%nat) as [Hlt|Hge].
  - rewrite lookup_take_lt, lookup_drop by lia. rewrite lookup_replicate_2 by lia. apply Hx. lia.
  - rewrite !lookup_ge_None_2; [done| |]; rewrite ?length_replicate, ?length_take; lia.
Qed.

Lemma remark_count f l i n m m' :
  slice l i n m -> count f (remark l i n m') = count f l + (if f m' then n else 0) - (if f m then n else 0).
Proof.
  intros Hs. pose proof Hs as (Hi & Hn & Hl & _). rewrite (slice_split l i n m Hs) at 2. unfold remark.
  rewrite !count_app, !count_replicate. rewrite Z2Nat.id by lia. destruct (f m), (f m'); lia.
Qed.

Lemma remark_lookup l i n m m' x :
  slice l i n m -> remark l i n m' !! x = if decide (i <= Z.of_nat x < i + n) then Some m' else l !! x.
Proof.
  intros (Hi & Hn & Hl & _). unfold remark. case_decide as D.
  - rewrite lookup_app_r by (rewrite length_take; lia). rewrite length_take, Nat.min_l by lia.
    rewrite lookup_app_l by (rewrite length_replicate; lia). apply lookup_replicate_2. lia.
  - destruct (decide (x < Z.to_nat i)%nat) as [Hlt|Hge].
    + rewrite lookup_app_l by (rewrite length_take; lia). by apply lookup_take_lt.
    + rewrite lookup_app_r by (rewrite length_take; lia). rewrite length_take, Nat.min_l by lia.
      rewrite lookup_app_r by (rewrite length_replicate; lia). rewrite length_replicate, lookup_drop. f_equal. lia.
Qed.

Lemma remark_length l i n m m' : slice l i n m -> length (remark l i n m') = length l.
Proof.
  intros (Hi & Hn & Hl & _). unfold remark. rewrite !length_app, length_take, length_replicate, length_drop. lia.
Qed.

(** Another slice is left alone. *)
Lemma slice_remark_ne l i n m m' j k m2 :
  slice l i n m -> slice l j k m2 -> m2 <> m -> slice (remark l i n m') j k m2.
Proof.
  intros Hs (Hj & Hk & Hl & Hx) Hne. unfold slice. rewrite (remark_length _ _ _ _ _ Hs). split; [done|]. split; [done|].
  split; [done|]. intros x Hr. rewrite (remark_lookup _ _ _ _ _ x Hs). case_decide as D; [|by apply Hx].
  destruct Hs as (_ & _ & _ & Hm). specialize (Hx x Hr). specialize (Hm x D). congruence.
Qed.

(** A part of the slice itself. *)
Lemma slice_remark l i n m m' : slice l i n m -> slice (remark l i n m') i n m'.
Proof.
  intros Hs. pose proof Hs as (Hi & Hn & Hl & _). unfold slice. rewrite (remark_length _ _ _ _ _ Hs).
  split; [done|]. split; [done|]. split; [done|]. intros x Hr.
  rewrite (remark_lookup _ _ _ _ _ x Hs). by rewrite decide_True.
Qed.

Lemma slice_sub l i n m j k : slice l i n m -> i <= j -> 0 <= k -> j + k <= i + n -> slice l j k m.
Proof.
  intros (Hi & Hn & Hl & Hx) Hij Hk Hjk. unfold slice. split; [lia|]. split; [lia|]. split; [lia|].
  intros x Hr. apply Hx. lia.
Qed.

Lemma slice_app l l' i n m : slice l i n m -> slice (l ++ l') i n m.
Proof.
  intros (Hi & Hn & Hl & Hx). unfold slice. rewrite length_app. split; [done|]. split; [done|]. split; [lia|].
  intros x Hr. rewrite lookup_app_l by lia. by apply Hx.
Qed.

(** Units given up stay so. *)
Definition keeps (l l' : list Mark) : Prop := forall x, l !! x = Some MBack -> l' !! x = Some MBack.

Lemma count_keeps l l' x : keeps l l' -> count is_back (take x l) <= count is_back (take x l').
Proof.
  revert l' x. induction l as [|m l IH]; intros l' x Hk; [rewrite take_nil; apply count_nonneg|].
  destruct x as [|x]; [done|]. assert (keeps l (tail l')) as Hk'.
  { intros y Hy. specialize (Hk (S y) Hy). by destruct l'. }
  specialize (IH (tail l') x Hk'). cbn [take].
  change (m :: take x l) with ([m] ++ take x l). rewrite count_app.
  destruct m as [t|t|t| |].
  1-4: destruct l' as [|m' l']; [cbn in *; rewrite take_nil in IH; unfold count in *; cbn in *; lia|].
  1-4: cbn [take tail] in *; change (m' :: take x l') with ([m'] ++ take x l'); rewrite count_app;
       pose proof (count_nonneg is_back [m']); unfold count at 1; cbn; lia.
  specialize (Hk 0%nat eq_refl). destruct l' as [|m' l']; [done|]. cbn in Hk. simplify_eq. cbn [take tail] in *.
  change (MBack :: take x l') with ([MBack] ++ take x l'). rewrite count_app. lia.
Qed.

Lemma keeps_remark l i n m m' : slice l i n m -> is_back m = false -> keeps l (remark l i n m').
Proof.
  intros Hs Hm x Hx. rewrite (remark_lookup _ _ _ _ _ x Hs). case_decide as D; [|done].
  destruct Hs as (_ & _ & _ & Hs). rewrite (Hs x D) in Hx. by simplify_eq.
Qed.

Lemma keeps_app l l' : keeps l (l ++ l').
Proof. intros x Hx. rewrite lookup_app_l; [done|]. by eapply lookup_lt_Some. Qed.

(** ** The invariant *)

Definition max_of (k : Kind) : Z := match k with Single => 1 | Bulk max => max end.

(** What a consumer may still add to the optimistic counter. *)
Definition to_add (c : Consumer) : Z :=
  match c with
  | CStart k | CTail k _ | COver k _ _ => max_of k
  | CGo _ d _ => d
  | _ => 0
  end.

Definition consumer_ok (s : Indices) (l : list Mark) (t : nat) (c : Consumer) : Prop :=
  match c with
  | CStart k => 0 <= max_of k
  | CTail k tail => 0 <= max_of k /\ 0 <= tail <= tailIndex s
  | COver k tail overcommit => 0 <= max_of k /\ 0 <= tail <= tailIndex s /\ 0 <= overcommit <= dequeueOvercommit s
  | CGo k d overcommit => 0 <= d <= max_of k /\ (k = Single -> d = 1) /\ 0 <= overcommit <= dequeueOvercommit s
  | CCounted k d overcommit my =>
      (k = Single -> d = 1) /\ slice l my d (MPending t) /\ 0 <= overcommit <= count is_back (take (Z.to_nat my) l)
  | CAdjust d a my => 0 <= a <= d /\ slice l my a (MWon t) /\ slice l (my + a) (d - a) (MLost t)
  | CClaim a my => slice l my a (MWon t)
  | CBack d my => slice l my d (MLost t)
  end.

(** The units of the optimistic counter a consumer still has to account for. *)
Definition in_flight (c : Consumer) : Z :=
  match c with CCounted _ d _ _ | CAdjust d _ _ | CBack d _ => d | CClaim a _ => a | _ => 0 end.

Definition sum_of (f : Consumer -> Z) (m : gmap nat Consumer) : Z := map_fold (fun _ c w => f c + w) 0 m.

Record idx_inv (s : Indices) (l : list Mark) (work : Z) : Prop := mk_idx_inv {
  ii_opt : dequeueOptimisticCount s = Z.of_nat (length l);
  ii_over : dequeueOvercommit s = count is_back l;
  ii_head : headIndex s = count is_claimed l;
  ii_tail : 0 <= tailIndex s;
  ii_cov : covered l (tailIndex s);
  ii_cons : map_Forall (consumer_ok s l) (consumers s);
  ii_work : tailIndex s + dequeueOptimisticCount s + sum_of to_add (consumers s) <= work;
  ii_flight : dequeueOptimisticCount s = dequeueOvercommit s + headIndex s + sum_of in_flight (consumers s);
  ii_claims : flat_map (fun ic => seqZ (fst ic) (snd ic)) (claims s) = seqZ 0 (headIndex s) }.

(** *** Bookkeeping *)

Lemma sum_insert f t c (m : gmap nat Consumer) : m !! t = None -> sum_of f (<[t := c]> m) = f c + sum_of f m.
Proof. intros Hm. unfold sum_of. rewrite map_fold_insert_L; [done| |done]. intros. lia. Qed.

Lemma sum_delete f t c (m : gmap nat Consumer) : m !! t = Some c -> sum_of f m = f c + sum_of f (delete t m).
Proof. intros Hm. unfold sum_of. rewrite (map_fold_delete_L _ _ t c m); [done| |done]. intros. lia. Qed.

Lemma to_add_nonneg s l t c : consumer_ok s l t c -> 0 <= to_add c.
Proof. destruct c; cbn; lia. Qed.

Lemma sum_nonneg s l (m : gmap nat Consumer) : map_Forall (consumer_ok s l) m -> 0 <= sum_of to_add m.
Proof.
  induction m as [|t c m Hm IH] using map_ind; [done|]. intros Hall. apply map_Forall_insert in Hall as [Hc Hf]; [|done].
  rewrite sum_insert by done. apply to_add_nonneg in Hc. specialize (IH Hf). lia.
Qed.

(** The marks of other threads. *)
Definition owner (m : Mark) : option nat :=
  match m with MPending t | MWon t | MLost t => Some t | _ => None end.

Definition others_kept (l l' : list Mark) (t : nat) : Prop :=
  forall t' i n m, t' <> t -> owner m = Some t' -> slice l i n m -> slice l' i n m.

Lemma others_refl l t : others_kept l l t.
Proof. by intros ? ? ? ?. Qed.

Lemma others_remark l i n m m' t : slice l i n m -> owner m = Some t -> others_kept l (remark l i n m') t.
Proof. intros Hs Ho t' j k m2 Hne Ho2 Hs2. apply (slice_remark_ne l i n m); [done|done|]. congruence. Qed.

Lemma others_app l l' t : others_kept l (l ++ l') t.
Proof. intros t' i n m _ _ Hs. by apply slice_app. Qed.

Lemma others_trans l1 l2 l3 t : others_kept l1 l2 t -> others_kept l2 l3 t -> others_kept l1 l3 t.
Proof. intros H1 H2 t' i n m Hne Ho Hs. eapply H2; [done..|]. by eapply H1. Qed.

Lemma keeps_trans l1 l2 l3 : keeps l1 l2 -> keeps l2 l3 -> keeps l1 l3.
Proof. intros H1 H2 x Hx. by apply H2, H1. Qed.

Lemma other_ok s s' l l' t t' c :
  t' <> t -> tailIndex s <= tailIndex s' -> dequeueOvercommit s <= dequeueOvercommit s' ->
  keeps l l' -> others_kept l l' t -> consumer_ok s l t' c -> consumer_ok s' l' t' c.
Proof.
  intros Hne Ht Ho Hk Hoth. destruct c as [k|k tl|k tl ov|k d ov|k d ov my|d a my|a my|d my]; cbn; try (intros; lia).
  - intros (H1 & H2 & H3). split; [done|]. split; [done|]. lia.
  - intros (H1 & H2 & H3 & H4). split; [done|]. split; [by eapply (Hoth t')|].
    split; [done|]. pose proof (count_keeps l l' (Z.to_nat my) Hk). lia.
  - intros (H1 & H2 & H3). split; [done|]. split; by eapply (Hoth t').
  - intros H1. by eapply (Hoth t').
  - intros H1. by eapply (Hoth t').
Qed.

Lemma covered_mono l l' tail tail' :
  covered l tail -> tail <= tail' -> keeps l l' ->
  (forall x m', l' !! x = Some m' -> is_won m' = true ->
     (exists m, l !! x = Some m /\ is_won m = true) \/ Z.of_nat x + 1 <= tail' + count is_back (take x l')) ->
  covered l' tail'.
Proof.
  intros Hc Ht Hk Hw x m' Hx Hm. destruct (Hw x m' Hx Hm) as [(m & Hxm & Hmm)|?]; [|done].
  specialize (Hc x m Hxm Hmm). pose proof (count_keeps l l' x Hk). lia.
Qed.

(** A step of thread [t] from [c] to [o] (or to its end). *)
Lemma inv_update s l work t c s' l' (o : option Consumer) :
  idx_inv s l work -> consumers s !! t = Some c ->
  consumers s' = match o with Some c' => <[t := c']> (consumers s) | None => delete t (consumers s) end ->
  tailIndex s' = tailIndex s ->
  dequeueOptimisticCount s' = Z.of_nat (length l') -> dequeueOvercommit s' = count is_back l' ->
  headIndex s' = count is_claimed l' ->
  (forall c', o = Some c' -> consumer_ok s' l' t c') ->
  keeps l l' -> others_kept l l' t -> dequeueOvercommit s <= dequeueOvercommit s' ->
  (forall x m', l' !! x = Some m' -> is_won m' = true ->
     (exists m, l !! x = Some m /\ is_won m = true) \/ Z.of_nat x + 1 <= tailIndex s + count is_back (take x l')) ->
  dequeueOptimisticCount s' + match o with Some c' => to_add c' | None => 0 end <= dequeueOptimisticCount s + to_add c ->
  dequeueOptimisticCount s' - dequeueOvercommit s' - headIndex s' - match o with Some c' => in_flight c' | None => 0 end =
    dequeueOptimisticCount s - dequeueOvercommit s - headIndex s - in_flight c ->
  flat_map (fun ic => seqZ (fst ic) (snd ic)) (claims s') = seqZ 0 (headIndex s') ->
  idx_inv s' l' work.
Proof.
  intros [Io Iv Ih It Ic If Iw Ig Il] Hc Ec Et Eo Ev Eh Hok Hk Hoth Hov Hcov Hw Hg Hcl.
  assert (map_Forall (consumer_ok s' l') (delete t (consumers s))) as Hdel.
  { intros t' c' [Hne Ht']%lookup_delete_Some. eapply (other_ok s s' l l' t); [done| |done|done|done|by apply If]. lia. }
  constructor; try done; [lia| | | |].
  - rewrite Et. by eapply covered_mono.
  - rewrite Ec. destruct o as [c'|]; [|done]. intros t' x. rewrite lookup_insert_Some.
    intros [[<- <-]|[Hne Ht']]; [by apply Hok|]. apply Hdel. by apply lookup_delete_Some.
  - rewrite (sum_delete to_add t c _ Hc) in Iw. rewrite Ec, Et. destruct o as [c'|]; [|lia].
    rewrite <- (insert_delete_eq (consumers s)), sum_insert by apply lookup_delete_eq. lia.
  - rewrite (sum_delete in_flight t c _ Hc) in Ig. rewrite Ec. destruct o as [c'|]; [|lia].
    rewrite <- (insert_delete_eq (consumers s)), sum_insert by apply lookup_delete_eq. lia.
Qed.

(** ** Every step keeps the invariant *)

Definition HALF : Z := 9223372036854775808.

Lemma inv_bounds s l work t c :
  idx_inv s l work -> consumers s !! t = Some c ->
  0 <= dequeueOvercommit s <= dequeueOptimisticCount s /\ 0 <= headIndex s <= dequeueOptimisticCount s /\
  0 <= tailIndex s /\ tailIndex s + dequeueOptimisticCount s + to_add c <= work /\ 0 <= to_add c.
Proof.
  intros [Io Iv Ih It Ic If Iw Ig Il] Hc. pose proof (count_nonneg is_back l). pose proof (count_le is_back l).
  pose proof (count_nonneg is_claimed l). pose proof (count_le is_claimed l). rewrite (sum_delete to_add t c _ Hc) in Iw. pose proof (to_add_nonneg _ _ _ _ (If t c Hc)).
  assert (0 <= sum_of to_add (delete t (consumers s))).
  { eapply sum_nonneg. apply map_Forall_delete. exact If. }
  lia.
Qed.

(** The test of a difference, [a - (b - c)] with everything below 2^63. *)
Lemma difference_small a b c :
  0 <= a < HALF -> 0 <= c -> c <= b -> b < HALF ->
  circular_less_than (b -w c) a = (b - c <? a) /\
  circular_less_than 0 (a -w (b -w c)) = (0 <? a - (b - c)) /\
  (0 < a - (b - c) -> a -w (b -w c) = a - (b - c)).
Proof.
  unfold HALF. intros Ha Hc Hcb Hb. rewrite (u64_small (b - c)) by (unfold is_u64, UINT64_MOD; lia).
  split; [|split].
  - pose proof (circular_less_than_spec (b - c) a ltac:(lia)) as E.
    by rewrite !u64_small in E by (unfold is_u64, UINT64_MOD; lia).
  - exact (circular_less_than_spec 0 (a - (b - c)) ltac:(lia)).
  - intros Hp. apply u64_small. unfold is_u64, UINT64_MOD. lia.
Qed.

(** Steps that neither touch the marks nor the counters. *)
Lemma inv_local s l work t c c' :
  idx_inv s l work -> consumers s !! t = Some c -> consumer_ok s l t c' -> to_add c' <= to_add c ->
  in_flight c = 0 -> in_flight c' = 0 ->
  idx_inv (set_consumer s t c') l work.
Proof.
  intros Hi Hc Hok Hadd Hf1 Hf2. destruct Hi as [Io Iv Ih It Ic If Iw Ig Il].
  eapply (inv_update s l work t c _ l (Some c')); try done; try apply others_refl; try (by intros ?); cbn.
  - intros x [= <-]. destruct c'; exact Hok.
  - intros x m Hx Hm. left. by exists m.
  - lia.
  - lia.
Qed.

Lemma inv_give_up s l work t c :
  idx_inv s l work -> consumers s !! t = Some c -> in_flight c = 0 -> idx_inv (return_empty s t) l work.
Proof.
  intros Hi Hc Hf. pose proof (inv_bounds _ _ _ _ _ Hi Hc). destruct Hi as [Io Iv Ih It Ic If Iw Ig Il].
  eapply (inv_update s l work t c _ l None); try done; try apply others_refl; try (by intros ?); cbn.
  - intros x m Hx Hm. left. by exists m.
  - lia.
  - lia.
Qed.

(** [fetch_add] on the optimistic counter. *)
Lemma inv_count s l work t k d ov :
  idx_inv s l work -> consumers s !! t = Some (CGo k d ov) -> work < HALF ->
  idx_inv (consumer_step s t (CGo k d ov)) (l ++ replicate (Z.to_nat d) (MPending t)) work.
Proof.
  intros Hi Hc Hw. pose proof (inv_bounds _ _ _ _ _ Hi Hc) as (Hb1 & Hb2 & Hb3 & Hb4 & Hb5). cbn [to_add] in *.
  pose proof (ii_cons _ _ _ Hi t _ Hc) as (Hd & Hs & Hov). pose proof Hi as [Io Iv Ih It Ic If Iw Ig Il].
  unfold HALF in *.
  eapply (inv_update s l work t _ _ _ (Some (CCounted k d ov (dequeueOptimisticCount s)))); try done; cbn [consumer_step dequeueOptimisticCount dequeueOvercommit headIndex tailIndex to_add claims].
  - rewrite u64_small by (unfold is_u64, UINT64_MOD; lia). rewrite length_app, length_replicate. lia.
  - rewrite count_app, count_replicate. cbn [is_back]. lia.
  - rewrite count_app, count_replicate. cbn [is_claimed]. lia.
  - intros x [= <-]. cbn. split; [done|]. split.
    + unfold slice. rewrite length_app, length_replicate. split; [lia|]. split; [lia|]. split; [lia|].
      intros x Hx. rewrite lookup_app_r by lia. apply lookup_replicate_2. lia.
    + rewrite Io, Nat2Z.id, take_app_length. lia.
  - apply keeps_app.
  - apply others_app.
  - intros x m Hx Hm. left. apply lookup_app_Some in Hx as [Hx|[_ Hx]]; [by exists m|].
    apply lookup_replicate in Hx as [-> _]. done.
  - rewrite u64_small by (unfold is_u64, UINT64_MOD; lia). lia.
  - rewrite u64_small by (unfold is_u64, UINT64_MOD; lia). cbn [in_flight]. lia.
Qed.

(** The decision of a consumer that was counted: [a] units won, the rest lost. *)
Definition decide_marks (l : list Mark) (my d a : Z) (t : nat) : list Mark :=
  remark (remark l my a (MWon t)) (my + a) (d - a) (MLost t).

Lemma decide_marks_ok l my d a t :
  slice l my d (MPending t) -> 0 <= a <= d ->
  slice (decide_marks l my d a t) my a (MWon t) /\ slice (decide_marks l my d a t) (my + a) (d - a) (MLost t) /\
  length (decide_marks l my d a t) = length l /\
  count is_back (decide_marks l my d a t) = count is_back l /\
  count is_claimed (decide_marks l my d a t) = count is_claimed l /\
  keeps l (decide_marks l my d a t) /\ others_kept l (decide_marks l my d a t) t /\
  forall x m', decide_marks l my d a t !! x = Some m' -> is_won m' = true ->
    (exists m, l !! x = Some m /\ is_won m = true) \/ my <= Z.of_nat x < my + a.
Proof.
  intros Hs Ha. unfold decide_marks. pose proof Hs as (Hmy & _ & Hlen & _).
  assert (slice l my a (MPending t)) as S1 by (eapply slice_sub; [exact Hs|lia|lia|lia]).
  set (l1 := remark l my a (MWon t)).
  assert (slice l1 (my + a) (d - a) (MPending t)) as S2.
  { unfold slice, l1. rewrite (remark_length _ _ _ _ _ S1). split; [lia|]. split; [lia|]. split; [lia|].
    intros x Hx. rewrite (remark_lookup _ _ _ _ _ x S1). rewrite decide_False by lia.
    destruct Hs as (_ & _ & _ & Hs). apply Hs. lia. }
  split; [apply (slice_remark_ne l1 _ _ (MPending t)); [done|by apply (slice_remark l _ _ (MPending t))|done]|].
  split; [by apply (slice_remark l1 _ _ (MPending t))|].
  split; [rewrite (remark_length _ _ _ _ _ S2); by apply (remark_length l my a (MPending t))|].
  split; [rewrite (remark_count _ _ _ _ _ _ S2); unfold l1; rewrite (remark_count _ _ _ _ _ _ S1); cbn; lia|].
  split; [rewrite (remark_count _ _ _ _ _ _ S2); unfold l1; rewrite (remark_count _ _ _ _ _ _ S1); cbn; lia|].
  split; [eapply keeps_trans; [by apply (keeps_remark l my a (MPending t) (MWon t))|by apply (keeps_remark l1 _ _ (MPending t))]|].
  split; [eapply others_trans; [by apply (others_remark l my a (MPending t) (MWon t))|by apply (others_remark l1 _ _ (MPending t))]|].
  intros x m' Hx Hm. rewrite (remark_lookup _ _ _ _ _ x S2) in Hx. case_decide; [by simplify_eq|].
  unfold l1 in Hx. rewrite (remark_lookup _ _ _ _ _ x S1) in Hx. case_decide; [by right|]. left. by exists m'.
Qed.

Lemma inv_decide s l work t k d ov my a c' :
  idx_inv s l work -> consumers s !! t = Some (CCounted k d ov my) -> 0 <= a <= d -> my + a <= tailIndex s + ov \/ a = 0 ->
  to_add c' = 0 -> in_flight c' = d -> consumer_ok s (decide_marks l my d a t) t c' ->
  exists l', idx_inv (set_consumer s t c') l' work.
Proof.
  intros Hi Hc Ha Hta Hadd Hfl Hok. exists (decide_marks l my d a t).
  pose proof (ii_cons _ _ _ Hi t _ Hc) as (_ & Hs & Hov). pose proof Hi as [Io Iv Ih It Ic If Iw Ig Il].
  destruct (decide_marks_ok l my d a t Hs Ha) as (W & L & El & Eb & Ec & K & O & X).
  eapply (inv_update s l work t _ _ _ (Some c')); try done; cbn [set_consumer dequeueOptimisticCount dequeueOvercommit headIndex tailIndex claims].
  - by rewrite El.
  - by rewrite Eb.
  - by rewrite Ec.
  - intros x [= <-]. destruct c'; exact Hok.
  - intros x m' Hx Hm. destruct (X x m' Hx Hm) as [?|Hr]; [by left|]. right.
    destruct Hta as [Hta|Hta]; [|lia]. pose proof (count_keeps l (decide_marks l my d a t) (Z.to_nat my) K) as Hck.
    assert (count is_back (take (Z.to_nat my) (decide_marks l my d a t)) <= count is_back (take x (decide_marks l my d a t))); [|lia].
    replace (take (Z.to_nat my) (decide_marks l my d a t)) with (take (Z.to_nat my) (take x (decide_marks l my d a t)))
      by (rewrite take_take; f_equal; lia).
    rewrite <- (take_drop (Z.to_nat my) (take x (decide_marks l my d a t))) at 2. rewrite count_app.
    pose proof (count_nonneg is_back (drop (Z.to_nat my) (take x (decide_marks l my d a t)))). lia.
  - cbn [to_add]. lia.
  - cbn [in_flight]. lia.
Qed.

(** The units lost are put in the overcommit counter. *)
Lemma inv_back s l work t c n i s' r (o : option Consumer) :
  idx_inv s l work -> consumers s !! t = Some c -> work < HALF -> slice l i n (MLost t) ->
  s' = mkIdx (tailIndex s) (headIndex s) (dequeueOptimisticCount s) (dequeueOvercommit s +w n)
         match o with Some c' => <[t := c']> (consumers s) | None => delete t (consumers s) end (claims s) r ->
  (forall c', o = Some c' -> to_add c' = 0 /\ consumer_ok s' (remark l i n MBack) t c') ->
  in_flight c = n + match o with Some c' => in_flight c' | None => 0 end ->
  idx_inv s' (remark l i n MBack) work.
Proof.
  intros Hi Hc Hw Hs Es Hok Hfl. pose proof (inv_bounds _ _ _ _ _ Hi Hc) as (Hb1 & Hb2 & Hb3 & Hb4 & Hb5).
  pose proof Hi as [Io Iv Ih It Ic If Iw Ig Il]. pose proof Hs as (Hi0 & Hn & Hlen & _). unfold HALF in *.
  assert (dequeueOvercommit s + n <= Z.of_nat (length l)) as Hle.
  { rewrite Iv. pose proof (count_le is_back (remark l i n MBack)) as Hx.
    rewrite (remark_count _ _ _ _ _ _ Hs), (remark_length _ _ _ _ _ Hs) in Hx. cbn in Hx. lia. }
  assert (dequeueOvercommit s +w n = dequeueOvercommit s + n) as Eu by (apply u64_small; unfold is_u64, UINT64_MOD; lia).
  subst s'. eapply (inv_update s l work t c _ _ o); try done;
    cbn [dequeueOptimisticCount dequeueOvercommit headIndex tailIndex claims consumers].
  - by rewrite (remark_length _ _ _ _ _ Hs).
  - rewrite Eu, (remark_count _ _ _ _ _ _ Hs). cbn. lia.
  - rewrite (remark_count _ _ _ _ _ _ Hs). cbn. lia.
  - intros c' Ho. by apply Hok.
  - by eapply keeps_remark.
  - by eapply others_remark.
  - lia.
  - intros x m' Hx Hm. rewrite (remark_lookup _ _ _ _ _ x Hs) in Hx. case_decide; [by simplify_eq|]. left. by exists m'.
  - destruct o as [c'|]; [|lia]. destruct (Hok c' eq_refl) as [-> _]. lia.
  - rewrite Eu. lia.
Qed.

(** [fetch_add] on [headIndex]. *)
Lemma inv_claim s l work t a my :
  idx_inv s l work -> consumers s !! t = Some (CClaim a my) -> work < HALF ->
  idx_inv (consumer_step s t (CClaim a my)) (remark l my a MClaimed) work.
Proof.
  intros Hi Hc Hw. pose proof (inv_bounds _ _ _ _ _ Hi Hc) as (Hb1 & Hb2 & Hb3 & Hb4 & Hb5). cbn [to_add] in *.
  pose proof (ii_cons _ _ _ Hi t _ Hc) as Hs. cbn in Hs. pose proof Hi as [Io Iv Ih It Ic If Iw Ig Il].
  pose proof Hs as (Hi0 & Hn & Hlen & _). unfold HALF in *.
  assert (headIndex s + a <= Z.of_nat (length l)) as Hle.
  { rewrite Ih. pose proof (count_le is_claimed (remark l my a MClaimed)) as Hx.
    rewrite (remark_count _ _ _ _ _ _ Hs), (remark_length _ _ _ _ _ Hs) in Hx. cbn in Hx. lia. }
  assert (headIndex s +w a = headIndex s + a) as Eu by (apply u64_small; unfold is_u64, UINT64_MOD; lia).
  eapply (inv_update s l work t _ _ _ None); try done;
    cbn [consumer_step dequeueOptimisticCount dequeueOvercommit headIndex tailIndex claims].
  - by rewrite (remark_length _ _ _ _ _ Hs).
  - rewrite (remark_count _ _ _ _ _ _ Hs). cbn. lia.
  - rewrite Eu, (remark_count _ _ _ _ _ _ Hs). cbn. lia.
  - by eapply keeps_remark.
  - by eapply others_remark.
  - intros x m' Hx Hm. left. rewrite (remark_lookup _ _ _ _ _ x Hs) in Hx. case_decide as D; [|by exists m'].
    destruct Hs as (_ & _ & _ & Hs). exists (MWon t). split; [by apply Hs|done].
  - rewrite Eu. cbn [in_flight]. lia.
  - rewrite flat_map_app, Il, Eu. cbn. rewrite app_nil_r. rewrite seqZ_app by lia. by rewrite Z.add_0_l.
Qed.

Lemma inv_consumer s l work t c :
  idx_inv s l work -> consumers s !! t = Some c -> work < HALF ->
  exists l', idx_inv (consumer_step s t c) l' work.
Proof.
  intros Hi Hc Hw. pose proof (inv_bounds _ _ _ _ _ Hi Hc) as (Hb1 & Hb2 & Hb3 & Hb4 & Hb5).
  pose proof (ii_cons _ _ _ Hi t c Hc) as Hok. unfold HALF in Hw.
  destruct c as [k|k tl|k tl ov|k d ov|k d ov my|d a my|a my|d my]; cbn [to_add] in *; cbn [consumer_step].
  - exists l. eapply inv_local; [done|done| |done|done|done]. cbn in *. lia.
  - exists l. eapply inv_local; [done|done| |done|done|done]. cbn in *. lia.
  - exists l. cbn in Hok. destruct Hok as (Hmax & Htl & Hov).
    destruct (difference_small tl (dequeueOptimisticCount s) ov) as (E1 & E2 & E3); [unfold HALF; lia..|].
    destruct k as [|max]; cbn [max_of] in *.
    + rewrite E1. destruct (_ <? tl); [|by eapply (inv_give_up s l work)].
      eapply inv_local; [done|done| |done|done|done]. cbn. lia.
    + rewrite E2. destruct (Z.ltb_spec 0 (tl - (dequeueOptimisticCount s - ov))) as [Hp|Hp]; [|by eapply (inv_give_up s l work)].
      rewrite (E3 Hp). eapply inv_local; [done|done| | |done|done]; cbn; destruct (Z.ltb_spec (tl - (dequeueOptimisticCount s - ov)) max); try lia;
        (split; [lia|]); split; try lia; done.
  - eexists. by apply inv_count.
  - destruct Hok as (Hd & Hs & Hov). pose proof Hs as (Hm0 & Hd0 & Hlen & _).
    assert (ov <= my) as Hom.
    { pose proof (count_le is_back (take (Z.to_nat my) l)) as Hx. rewrite length_take in Hx. lia. }
    pose proof (ii_opt _ _ _ Hi) as Io.
    destruct (difference_small (tailIndex s) my ov) as (E1 & E2 & E3); [unfold HALF; lia..|].
    pose proof (fun a Ha => decide_marks_ok l my d a t Hs Ha) as Hdm.
    destruct k as [|max].
    + rewrite (Hd eq_refl) in *. rewrite E1. destruct (Z.ltb_spec (my - ov) (tailIndex s)) as [Hlt|Hge].
      * eapply (inv_decide s l work t _ _ _ _ 1); [done|done|lia|left; lia|done|done|]. apply (Hdm 1). lia.
      * eapply (inv_decide s l work t _ _ _ _ 0); [done|done|lia|by right|done|done|].
        destruct (Hdm 0) as (_ & HL & _); [lia|]. by rewrite Z.add_0_r, Z.sub_0_r in HL.
    + rewrite E2. destruct (Z.ltb_spec 0 (tailIndex s - (my - ov))) as [Hp|Hp].
      * rewrite (E3 Hp). set (A := tailIndex s - (my - ov)) in *.
        destruct (Z.ltb_spec d A) as [HdA|HdA].
        -- rewrite Z.ltb_irrefl. eapply (inv_decide s l work t _ _ _ _ d); [done|done|lia|left; unfold A in *; lia|done|done|].
           destruct (Hdm d) as (HW & _); [lia|done].
        -- destruct (Z.ltb_spec A d) as [HAd|HAd].
           ++ eapply (inv_decide s l work t _ _ _ _ A); [done|done|lia|left; unfold A in *; lia|done|done|].
              destruct (Hdm A) as (HW & HL & _); [lia|]. cbn. split; [lia|]. by split.
           ++ assert (A = d) as HA by lia. rewrite HA. eapply (inv_decide s l work t _ _ _ _ d); [done|done|lia|left; unfold A in *; lia|done|done|].
              destruct (Hdm d) as (HW & _); [lia|done].
      * eapply (inv_decide s l work t _ _ _ _ 0); [done|done|lia|by right|done|done|].
        destruct (Hdm 0) as (_ & HL & _); [lia|]. by rewrite Z.add_0_r, Z.sub_0_r in HL.
  - cbn in Hok. destruct Hok as (Ha & HW & HL). pose proof HL as (_ & _ & Hlen & _).
    rewrite (u64_small (d - a)) by (unfold is_u64, UINT64_MOD; pose proof (ii_opt _ _ _ Hi); destruct HW as (? & _); lia).
    eexists. eapply (inv_back s l work t _ (d - a) (my + a) _ _ (Some (CClaim a my))); [done|done|unfold HALF; lia|done|done| |cbn; lia].
    intros x [= <-]. split; [done|]. cbn. by apply (slice_remark_ne l _ _ (MLost t)).
  - eexists. apply inv_claim; [done|done|unfold HALF; lia].
  - eexists. eapply (inv_back s l work t _ d my _ _ None); [done|done|unfold HALF; lia|done|done|done|cbn; lia].
Qed.

Lemma inv_event s l work ev :
  idx_inv s l work -> 0 <= weight ev -> work + weight ev < HALF ->
  exists l', idx_inv (idx_step s ev) l' (work + weight ev).
Proof.
  intros Hi Hw Hlt. pose proof Hi as [Io Iv Ih It Ic If Iw Ig Il].
  pose proof (sum_nonneg _ _ _ If) as Hsum. unfold HALF in Hlt.
  destruct ev as [n|t k|t]; cbn [idx_step weight] in *.
  - exists l. rewrite (u64_small (tailIndex s + n)) by (unfold is_u64, UINT64_MOD; lia).
    constructor; cbn [dequeueOptimisticCount dequeueOvercommit headIndex tailIndex claims consumers]; try done; try lia.
    + intros x m Hx Hm. specialize (Ic x m Hx Hm). lia.
    + intros t c Hc. specialize (If t c Hc). destruct c; cbn in *; try done; lia.
  - change (match k with Single => 1 | Bulk max => max end) with (max_of k) in *.
    exists l. destruct (consumers s !! t) eqn:Et; [constructor; try done; lia|].
    constructor; cbn [set_consumer dequeueOptimisticCount dequeueOvercommit headIndex tailIndex claims consumers]; try done.
    + intros t' c. rewrite lookup_insert_Some. intros [[<- <-]|[_ Hc]]; [by cbn|].
      specialize (If t' c Hc). destruct c; exact If.
    + rewrite sum_insert by done. cbn [to_add]. lia.
    + rewrite sum_insert by done. cbn [in_flight]. lia.
  - rewrite Z.add_0_r in *. destruct (consumers s !! t) as [c|] eqn:Et; [|by exists l].
    eapply inv_consumer; [done|done|unfold HALF; lia].
Qed.

Lemma idx_inv_run evs s l work :
  idx_inv s l work -> Forall (fun ev => 0 <= weight ev) evs -> work + total_weight evs < HALF ->
  exists l', idx_inv (idx_run s evs) l' (work + total_weight evs).
Proof.
  revert s l work. induction evs as [|ev evs IH]; intros s l work Hi Hw Hlt; cbn in *.
  { exists l. by rewrite Z.add_0_r. }
  apply Forall_cons in Hw as [Hev Hevs].
  assert (0 <= total_weight evs) as Hn.
  { unfold total_weight. clear -Hevs. induction Hevs as [|ev evs Hev _ IH]; cbn [foldr]; lia. }
  destruct (inv_event s l work ev Hi Hev ltac:(unfold total_weight in *; lia)) as [l1 H1].
  destruct (IH _ _ _ H1 Hevs ltac:(unfold total_weight in *; lia)) as [l2 H2]. exists l2. by rewrite Z.add_assoc.
Qed.

Lemma inv_start : idx_inv idx_init [] 0.
Proof.
  constructor; try done.
Qed.

Lemma claimed_won l : count is_claimed l <= count is_won l.
Proof.
  unfold count. induction l as [|m l IH]; [done|]. cbn [List.filter]. destruct m; cbn [is_claimed is_won length] in *; lia.
Qed.

(** The calls of one thread with nobody else around. *)
Definition run_alone (s : Indices) (k : Kind) : Indices :=
  idx_run s [IStart 0 k; IStep 0; IStep 0; IStep 0; IStep 0; IStep 0; IStep 0].

(** Nobody in the middle of a call. *)
Record quiet (s : Indices) : Prop := mk_quiet {
  q_none : consumers s = ∅;
  q_counts : dequeueOptimisticCount s = dequeueOvercommit s + headIndex s;
  q_bounds : 0 <= dequeueOvercommit s /\ 0 <= headIndex s <= tailIndex s /\
             tailIndex s + dequeueOptimisticCount s < HALF }.

Lemma alone_ok s k :
  quiet s -> 0 < max_of k ->
  let n := tailIndex s - headIndex s in
  claims (run_alone s k) = (if n =? 0 then claims s else claims s ++ [(headIndex s, Z.min n (max_of k))]) /\
  consumers (run_alone s k) = ∅.
Proof.
  intros [Hn Hc (Hv & Hh & Hb)] Hm n. unfold HALF in *. destruct s as [tl hd op ov cs cl rf]. cbn in *. subst cs op.
  destruct (difference_small tl (ov + hd) ov) as (E1 & E2 & E3); [unfold HALF; lia..|].
  rewrite Z.add_simpl_l in *.
  unfold run_alone, idx_run. cbn [fold_left]. unfold idx_step. cbn -[circular_less_than u64]. rewrite lookup_empty.
  repeat (cbn -[circular_less_than u64]; rewrite ?lookup_insert_eq, ?insert_insert_eq, ?Z.add_simpl_l).
  destruct k as [|max]; cbn -[circular_less_than u64] in *.
  - rewrite E1. unfold n. destruct (Z.ltb_spec hd tl) as [Hlt|Hge].
    + rewrite (proj2 (Z.eqb_neq _ _)) by lia.
      repeat (cbn -[circular_less_than u64]; rewrite ?lookup_insert_eq, ?insert_insert_eq, ?Z.add_simpl_l, ?E1).
      rewrite Z.min_r by lia. by rewrite delete_insert_eq, delete_empty.
    + rewrite (proj2 (Z.eqb_eq _ _)) by lia.
      repeat (cbn -[circular_less_than u64]; rewrite ?delete_insert_eq, ?delete_empty, ?lookup_empty). done.
  - rewrite E2. unfold n. destruct (Z.ltb_spec 0 (tl - hd)) as [Hp|Hp].
    + rewrite (proj2 (Z.eqb_neq _ _)) by lia. rewrite (E3 Hp).
      set (d := if tl - hd <? max then tl - hd else max).
      assert (d = Z.min (tl - hd) max) as Ed by (unfold d; destruct (Z.ltb_spec (tl - hd) max); lia).
      repeat (cbn -[circular_less_than u64]; rewrite ?lookup_insert_eq, ?insert_insert_eq, ?Z.add_simpl_l, ?E2, ?(E3 Hp)).
      assert ((if d <? tl - hd then d else tl - hd) = d) as -> by (rewrite Ed; destruct (Z.ltb_spec (Z.min (tl - hd) max) (tl - hd)); lia).
      rewrite Z.ltb_irrefl.
      repeat (cbn -[circular_less_than u64]; rewrite ?lookup_insert_eq, ?insert_insert_eq, ?Z.add_simpl_l, ?delete_insert_eq, ?delete_empty).
      by rewrite Ed.
    + rewrite (proj2 (Z.eqb_eq _ _)) by lia.
      repeat (cbn -[circular_less_than u64]; rewrite ?delete_insert_eq, ?delete_empty, ?lookup_empty). done.
Qed.

Lemma inv_quiet s l work : idx_inv s l work -> work < HALF -> consumers s = ∅ -> quiet s.
Proof.
  intros [Io Iv Ih It Ic If Iw Ig Il] Hw Hn. rewrite Hn in *. unfold sum_of in *. rewrite map_fold_empty in *. constructor; [done|lia|].
  pose proof (count_nonneg is_back l). pose proof (count_nonneg is_claimed l).
  pose proof (covered_won l _ Ic It). pose proof (claimed_won l). lia.
Qed.

(** C24: consumers never collide.  Take any interleaving of the atomic operations
    of any number of [dequeue] and [dequeue_bulk] calls with the producer, with
    less than 2^63 elements and attempts in all.  The ranges of indices handed out
    so far are consecutive and start at 0, each index exactly once, and they end
    at [headIndex], which never exceeds [tailIndex]: no element is taken twice and
    none that was not enqueued.  Whenever no call is in the middle, the next
    [dequeue] gets the next element if there is one, and the next [dequeue_bulk]
    as many as there are up to its maximum. *)
Theorem claims_are_exclusive (evs : list IEvent)
    (Hw : Forall (fun ev => 0 <= weight ev) evs) (Hlt : total_weight evs < HALF) :
  let s := idx_run idx_init evs in
  flat_map (fun ic => seqZ (fst ic) (snd ic)) (claims s) = seqZ 0 (headIndex s) /\
  0 <= headIndex s <= tailIndex s /\
  (consumers s = ∅ -> forall k, 0 < max_of k ->
     claims (run_alone s k) =
       if tailIndex s =? headIndex s then claims s
       else claims s ++ [(headIndex s, Z.min (tailIndex s - headIndex s) (max_of k))]).
Proof.
  destruct (idx_inv_run evs idx_init [] 0 inv_start Hw Hlt) as [l Hi]. cbn zeta.
  set (s := idx_run idx_init evs) in *. pose proof Hi as [Io Iv Ih It Ic If Iw Ig Il]. split; [done|]. split.
  - pose proof (count_nonneg is_claimed l). pose proof (covered_won l _ Ic It). pose proof (claimed_won l). lia.
  - intros Hn k Hk. destruct (alone_ok s k (inv_quiet _ _ _ Hi Hlt Hn) Hk) as [E _]. rewrite E.
    destruct (Z.eqb_spec (tailIndex s) (headIndex s)), (Z.eqb_spec (tailIndex s - headIndex s) 0); try lia; done.
Qed.

Definition demo_index_events : list IEvent :=
  [IStart 1 Single; IEnqueue 3; IStep 1; IStart 2 (Bulk 5); IStep 2; IStep 2; IStep 1; IStep 1; IStep 2; IStep 2; IStep 1;
   IStep 1; IStep 2; IStep 2; IStep 2; IStep 1; IStep 1].

Lemma claims_are_exclusive_witness :
  claims (idx_run idx_init demo_index_events) = [(0, 3)] /\ refused (idx_run idx_init demo_index_events) = 1%nat /\
  headIndex (idx_run idx_init demo_index_events) <= tailIndex (idx_run idx_init demo_index_events).
Proof.
  split; [vm_compute; reflexivity|]. split; [vm_compute; reflexivity|].
  refine (proj2 (proj1 (proj2 (claims_are_exclusive demo_index_events _ _)))).
  - repeat constructor; vm_compute; discriminate.
  - vm_compute. reflexivity.
Defined.
