(* ===== verification/QueueBlock.v ===== *)
(** * Blocks, the free list and the block pool (concurrentqueue.h)

    [Block] is the class of the same name; pointers are numbers and memory is the
    map [blocks], so blocks are shared the way the code shares them.  [Heap] also
    holds what the queue keeps for all its producers: the pool of initial blocks
    and the head of the free list.  The member functions run here without
    contention, one call at a time.
    Whether [malloc] succeeds is an input: [mem] lists the results of the next
    calls, and calls beyond the list succeed. *)
From S2P Require Import Prelude QueueDetails.

Inductive InnerQueueContext := implicit_context | explicit_context.
Inductive AllocationMode := CanAlloc | CannotAlloc.

Section Block.
Context {T : Type}.

(** ** Block *)

(** A slot of [elements] is raw memory ([None]) or holds an object. *)
Record Block := mkBlock {
  elements : list (option T);
  next : option nat;
  elementsCompletelyDequeued : Z;
  emptyFlags : list bool;
  freeListRefs : Z;
  freeListNext : option nat;
  dynamicallyAllocated : bool }.

Definition set_elements (b : Block) (l : list (option T)) : Block :=
  mkBlock l (next b) (elementsCompletelyDequeued b) (emptyFlags b) (freeListRefs b) (freeListNext b) (dynamicallyAllocated b).
Definition set_next (b : Block) (n : option nat) : Block :=
  mkBlock (elements b) n (elementsCompletelyDequeued b) (emptyFlags b) (freeListRefs b) (freeListNext b) (dynamicallyAllocated b).
Definition set_counter (b : Block) (n : Z) : Block :=
  mkBlock (elements b) (next b) n (emptyFlags b) (freeListRefs b) (freeListNext b) (dynamicallyAllocated b).
Definition set_emptyFlags (b : Block) (l : list bool) : Block :=
  mkBlock (elements b) (next b) (elementsCompletelyDequeued b) l (freeListRefs b) (freeListNext b) (dynamicallyAllocated b).
Definition set_free (b : Block) (refs : Z) (n : option nat) : Block :=
  mkBlock (elements b) (next b) (elementsCompletelyDequeued b) (emptyFlags b) refs n (dynamicallyAllocated b).
Definition set_dynamic (b : Block) (d : bool) : Block :=
  mkBlock (elements b) (next b) (elementsCompletelyDequeued b) (emptyFlags b) (freeListRefs b) (freeListNext b) d.

(** The constructor.  It leaves [emptyFlags] as the memory was. *)
Definition Block_new (garbage : list bool) : Block :=
  mkBlock (replicate (Z.to_nat BLOCK_SIZE) None) None 0 garbage 0 None true.

(** [static_cast<size_t>(idx & static_cast<index_t>(BLOCK_SIZE - 1))] *)
Definition offset (idx : Z) : nat := Z.to_nat (Z.land idx (BLOCK_SIZE - 1)).

(** The flag of element [i]. *)
Definition flag_of (i : Z) : nat := Z.to_nat (BLOCK_SIZE - 1 - Z.of_nat (offset i)).

(** [operator[]], reading an object and constructing or destroying one. *)
Definition block_get (b : Block) (idx : Z) : option T := mjoin (elements b !! offset idx).
Definition block_set (b : Block) (idx : Z) (o : option T) : Block :=
  set_elements b (<[offset idx := o]> (elements b)).

(** The flags are used in the explicit context, because [BLOCK_SIZE] is not larger
    than the threshold, the counter in the implicit one. *)
Definition is_empty (ctx : InnerQueueContext) (b : Block) : outcome bool :=
  match ctx with
  | explicit_context => Ret (forallb id (emptyFlags b))
  | implicit_context =>
      if elementsCompletelyDequeued b =? BLOCK_SIZE then Ret true
      else if elementsCompletelyDequeued b <=? BLOCK_SIZE then Ret false
      else Fault AssertFailed
  end.

Definition set_empty (ctx : InnerQueueContext) (b : Block) (i : Z) : outcome (bool * Block) :=
  match ctx with
  | explicit_context =>
      match emptyFlags b !! flag_of i with
      | None => Fault OutOfBounds
      | Some true => Fault AssertFailed
      | Some false => Ret (false, set_emptyFlags b (<[flag_of i := true]> (emptyFlags b)))
      end
  | implicit_context =>
      let prevVal := elementsCompletelyDequeued b in
      let b' := set_counter b (prevVal +w 1) in
      if prevVal <? BLOCK_SIZE then Ret (prevVal =? BLOCK_SIZE - 1, b') else Fault AssertFailed
  end.

(** The loop that sets [count] flags from position [i] on. *)
Fixpoint set_flags_from (flags : list bool) (i count : nat) : outcome (list bool) :=
  match count with
  | O => Ret flags
  | S count =>
      match flags !! i with
      | None => Fault OutOfBounds
      | Some true => Fault AssertFailed
      | Some false => set_flags_from (<[i := true]> flags) (S i) count
      end
  end.

Definition set_many_empty (ctx : InnerQueueContext) (b : Block) (i count : Z) : outcome (bool * Block) :=
  match ctx with
  | explicit_context =>
      let i := BLOCK_SIZE - 1 - Z.of_nat (offset i) - count + 1 in
      flags ← set_flags_from (emptyFlags b) (Z.to_nat i) (Z.to_nat count);
      Ret (false, set_emptyFlags b flags)
  | implicit_context =>
      let prevVal := elementsCompletelyDequeued b in
      let b' := set_counter b (prevVal +w count) in
      if prevVal +w count <=? BLOCK_SIZE then Ret (prevVal +w count =? BLOCK_SIZE, b') else Fault AssertFailed
  end.

Definition set_all_empty (ctx : InnerQueueContext) (b : Block) : Block :=
  match ctx with
  | explicit_context => set_emptyFlags b (replicate (Z.to_nat BLOCK_SIZE) true)
  | implicit_context => set_counter b BLOCK_SIZE
  end.

Definition reset_empty (ctx : InnerQueueContext) (b : Block) : Block :=
  match ctx with
  | explicit_context => set_emptyFlags b (replicate (Z.to_nat BLOCK_SIZE) false)
  | implicit_context => set_counter b 0
  end.

(** ** Heap *)

Record Heap := mkHeap {
  blocks : gmap nat Block;
  fresh : nat;                     (** blocks allocated from here on are new *)
  mem : list bool;                 (** the results of the next calls of [malloc] *)
  initialBlockPoolIndex : Z;
  initialBlockPoolSize : Z;        (** the initial pool is blocks [0 .. size - 1] *)
  freeListHead : option nat }.

Definition set_blocks (h : Heap) (m : gmap nat Block) : Heap :=
  mkHeap m (fresh h) (mem h) (initialBlockPoolIndex h) (initialBlockPoolSize h) (freeListHead h).
Definition set_freeListHead (h : Heap) (o : option nat) : Heap :=
  mkHeap (blocks h) (fresh h) (mem h) (initialBlockPoolIndex h) (initialBlockPoolSize h) o.

Definition get_block (h : Heap) (p : nat) : outcome Block := of_option BadPointer (blocks h !! p).
Definition put_block (h : Heap) (p : nat) (b : Block) : Heap := set_blocks h (<[p := b]> (blocks h)).

Definition malloc (h : Heap) : bool * Heap :=
  match mem h with
  | [] => (true, h)
  | r :: rest => (r, mkHeap (blocks h) (fresh h) rest (initialBlockPoolIndex h) (initialBlockPoolSize h) (freeListHead h))
  end.

(** [create<Block>()] *)
Definition create_block (h : Heap) (garbage : list bool) : option nat * Heap :=
  match malloc h with
  | (false, h) => (None, h)
  | (true, h) =>
      (Some (fresh h),
       mkHeap (<[fresh h := Block_new garbage]> (blocks h)) (S (fresh h)) (mem h)
              (initialBlockPoolIndex h) (initialBlockPoolSize h) (freeListHead h))
  end.

(** [populate_initial_block_list] on a heap without blocks. *)
Definition populate_initial_block_list (h : Heap) (blockCount : Z) (garbage : list bool) : Heap :=
  let zero h := mkHeap (blocks h) (fresh h) (mem h) (initialBlockPoolIndex h) 0 (freeListHead h) in
  if blockCount =? 0 then zero h
  else match malloc h with
       | (false, h) => zero h
       | (true, h) =>
           let n := Z.to_nat blockCount in
           mkHeap (list_to_map (map (fun i => (i, set_dynamic (Block_new garbage) false)) (seq 0 n)))
                  n (mem h) (initialBlockPoolIndex h) blockCount (freeListHead h)
       end.

Definition try_get_block_from_initial_pool (h : Heap) : option nat * Heap :=
  if initialBlockPoolSize h <=? initialBlockPoolIndex h then (None, h)
  else
    let index := initialBlockPoolIndex h in
    let h := mkHeap (blocks h) (fresh h) (mem h) (index +w 1) (initialBlockPoolSize h) (freeListHead h) in
    (if index <? initialBlockPoolSize h then Some (Z.to_nat index) else None, h).

(** ** Free list *)

Definition REFS_MASK : Z := 2147483647.
Definition SHOULD_BE_ON_FREELIST : Z := 2147483648.

(** Without contention the compare-and-swap succeeds at once. *)
Definition add_knowing_refcount_is_zero (h : Heap) (node : nat) : outcome Heap :=
  b ← get_block h node;
  Ret (set_freeListHead (put_block h node (set_free b 1 (freeListHead h))) (Some node)).

Definition freeList_add (h : Heap) (node : nat) : outcome Heap :=
  b ← get_block h node;
  let h := put_block h node (set_free b (freeListRefs b +u SHOULD_BE_ON_FREELIST) (freeListNext b)) in
  if freeListRefs b =? 0 then add_knowing_refcount_is_zero h node else Ret h.

(** A head with reference count zero makes the loop read the same head again. *)
Definition freeList_try_get (h : Heap) : outcome (option nat * Heap) :=
  match freeListHead h with
  | None => Ret (None, h)
  | Some head =>
      b ← get_block h head;
      if Z.land (freeListRefs b) REFS_MASK =? 0 then Fault Diverges
      else
        let refs := freeListRefs b +u 1 in
        let h := set_freeListHead h (freeListNext b) in
        if Z.land refs SHOULD_BE_ON_FREELIST =? 0
        then Ret (Some head, put_block h head (set_free b (refs -u 2) (freeListNext b)))
        else Fault AssertFailed
  end.

Definition add_block_to_free_list (h : Heap) (block : nat) : outcome Heap := freeList_add h block.

(** [add_blocks_to_free_list]: follows [next]; the fuel bounds the chain. *)
Fixpoint add_blocks_to_free_list (fuel : nat) (h : Heap) (block : option nat) : outcome Heap :=
  match fuel, block with
  | _, None => Ret h
  | O, Some _ => Fault Diverges
  | S fuel, Some p =>
      b ← get_block h p;
      h ← add_block_to_free_list h p;
      add_blocks_to_free_list fuel h (next b)
  end.

Definition try_get_block_from_free_list (h : Heap) : outcome (option nat * Heap) := freeList_try_get h.

Definition requisition_block (canAlloc : AllocationMode) (garbage : list bool) (h : Heap) : outcome (option nat * Heap) :=
  match try_get_block_from_initial_pool h with
  | (Some p, h) => Ret (Some p, h)
  | (None, h) =>
      '(o, h) ← try_get_block_from_free_list h;
      match o with
      | Some p => Ret (Some p, h)
      | None => Ret (match canAlloc with CanAlloc => create_block h garbage | CannotAlloc => (None, h) end)
      end
  end.
(** ** What the allocator promises *)

(** No object lives in the block. *)
Definition raw (b : Block) : Prop := elements b = replicate (Z.to_nat BLOCK_SIZE) None.

(** The free list from [o] on. *)
Fixpoint free_chain (m : gmap nat Block) (o : option nat) (l : list nat) : Prop :=
  match l with
  | [] => o = None
  | x :: l => o = Some x /\ exists b, m !! x = Some b /\ freeListRefs b = 1 /\ raw b /\ free_chain m (freeListNext b) l
  end.

(** The blocks of the initial pool nobody has asked for yet. *)
Definition in_pool (h : Heap) (x : nat) : Prop := initialBlockPoolIndex h <= Z.of_nat x < initialBlockPoolSize h.

(** Every block is owned by a producer, on the free list, or still in the pool, and
    knows whether it was allocated on its own. *)
Record heap_inv (h : Heap) (owned : gset nat) : Prop := mk_heap_inv {
  hi_chain : exists l, free_chain (blocks h) (freeListHead h) l /\ NoDup l /\
    forall x, x ∈ l <-> is_Some (blocks h !! x) /\ (x ∉ owned) /\ ~ in_pool h x;
  hi_pool : forall x, in_pool h x -> (x ∉ owned) /\ exists b, blocks h !! x = Some b /\ freeListRefs b = 0 /\ raw b;
  hi_owned : forall x, x ∈ owned ->
    exists b, blocks h !! x = Some b /\ freeListRefs b = 0 /\ length (elements b) = Z.to_nat BLOCK_SIZE;
  hi_fresh : forall x b, blocks h !! x = Some b -> (x < fresh h)%nat;
  hi_origin : forall x b, blocks h !! x = Some b -> dynamicallyAllocated b = (initialBlockPoolSize h <=? Z.of_nat x);
  hi_index : 0 <= initialBlockPoolIndex h /\ 0 <= initialBlockPoolSize h <= 288230376151711744 /\
    initialBlockPoolSize h <= Z.of_nat (fresh h) }.

(** The blocks of [s] are the same in both heaps. *)
Definition same_blocks (s : gset nat) (h h' : Heap) : Prop := forall x, x ∈ s -> blocks h' !! x = blocks h !! x.

(** [malloc] never fails. *)
Definition mem_ok (h : Heap) : Prop := Forall (fun r => r = true) (mem h).

Lemma same_blocks_refl s h : same_blocks s h h.
Proof. by intros x _. Qed.

Lemma same_blocks_trans s h1 h2 h3 : same_blocks s h1 h2 -> same_blocks s h2 h3 -> same_blocks s h1 h3.
Proof. intros H1 H2 x Hx. by rewrite H2, H1. Qed.

Lemma same_blocks_mono s s' h h' : s ⊆ s' -> same_blocks s' h h' -> same_blocks s h h'.
Proof. intros Hs H x Hx. apply H. by apply Hs. Qed.

Lemma raw_length b : raw b -> length (elements b) = Z.to_nat BLOCK_SIZE.
Proof. intros ->. by rewrite length_replicate. Qed.

Lemma get_block_Ret h x b : blocks h !! x = Some b -> get_block h x = Ret b.
Proof. unfold get_block. by intros ->. Qed.

Lemma free_chain_insert m o l x b :
  x ∉ l -> free_chain m o l -> free_chain (<[x := b]> m) o l.
Proof.
  revert o. induction l as [|y l IH]; intros o Hx; [done|]. apply not_elem_of_cons in Hx as [Hne Hx].
  intros (-> & c & Hc & Hr & Hw & Hl). split; [done|]. exists c. rewrite lookup_insert_ne by done. eauto.
Qed.

Lemma free_chain_dom m o l x : free_chain m o l -> x ∈ l -> is_Some (m !! x).
Proof.
  revert o. induction l as [|y l IH]; intros o; [by intros _ ?%elem_of_nil|].
  intros (-> & c & Hc & Hr & Hw & Hl) [->|Hx]%elem_of_cons; [by eexists|by eapply IH].
Qed.

(** Writing an owned block. *)
Lemma heap_inv_put h owned x b b0 :
  heap_inv h owned -> x ∈ owned -> freeListRefs b = 0 -> length (elements b) = Z.to_nat BLOCK_SIZE ->
  blocks h !! x = Some b0 -> dynamicallyAllocated b = dynamicallyAllocated b0 ->
  heap_inv (put_block h x b) owned.
Proof.
  intros [(l & Hc & Hd & Hl) Hp Ho Hf Hg Hi] Hx Hr He Hb0 Hdyn.
  constructor; cbn [blocks freeListHead put_block set_blocks fresh]; [| | | | |done].
  - exists l. split; [|split; [done|]].
    + apply free_chain_insert; [|done]. intros Hin. by apply Hl in Hin as (_ & Hin & _).
    + intros y. rewrite Hl, lookup_insert_is_Some'. naive_solver.
  - intros y Hy. destruct (Hp y Hy) as [Hyo (c & Hc' & Hr' & Hw)]. split; [done|]. exists c.
    rewrite lookup_insert_ne; [done|]. by intros ->.
  - intros y Hy. rewrite lookup_insert. case_decide; [subst; by exists b|by apply Ho].
  - intros y c. rewrite lookup_insert. case_decide; [|by apply Hf]. intros _. subst. by eapply Hf.
  - intros y c. rewrite lookup_insert. case_decide; [|by apply Hg]. intros [= <-]. subst. rewrite Hdyn. by apply Hg.
Qed.

Lemma put_block_lookup h x b y : blocks (put_block h x b) !! y = if decide (x = y) then Some b else blocks h !! y.
Proof. cbn. apply lookup_insert. Qed.

Lemma in_pool_take h x :
  in_pool (mkHeap (blocks h) (fresh h) (mem h) (initialBlockPoolIndex h + 1) (initialBlockPoolSize h) (freeListHead h)) x ->
  in_pool h x /\ Z.of_nat x <> initialBlockPoolIndex h.
Proof. unfold in_pool. cbn. lia. Qed.

(** *** Taking a block *)

(** What a caller who owns [owned] gets. *)
Definition taken (owned : gset nat) (h h' : Heap) (o : option nat) : Prop :=
  same_blocks owned h h' /\ (mem_ok h -> mem_ok h') /\
  match o with
  | None => heap_inv h' owned
  | Some x => (x ∉ owned) /\ heap_inv h' ({[x]} ∪ owned) /\ exists b, blocks h' !! x = Some b /\ raw b
  end.

Lemma initial_pool_spec h owned :
  heap_inv h owned ->
  let '(o, h') := try_get_block_from_initial_pool h in
  taken owned h h' o /\ (o = None -> h' = h).
Proof.
  intros Hinv. unfold try_get_block_from_initial_pool. destruct (Z.leb_spec (initialBlockPoolSize h) (initialBlockPoolIndex h)) as [Hge|Hlt].
  { split; [|done]. split; [apply same_blocks_refl|]. split; done. }
  destruct Hinv as [(l & Hc & Hd & Hl) Hp Ho Hf Hg (Hi1 & Hi2 & Hi3)]. cbn [initialBlockPoolSize].
  rewrite (u64_small (initialBlockPoolIndex h + 1)) by (unfold is_u64, UINT64_MOD; lia). zbool; [|lia]. split; [|done].
  set (x := Z.to_nat (initialBlockPoolIndex h)).
  assert (in_pool h x) as Hx by (unfold in_pool, x; lia). destruct (Hp x Hx) as [Hxo (b & Hb & Hr & Hw)].
  split; [by intros y _|]. split; [done|]. split; [done|]. split; [|by exists b].
  constructor; cbn [blocks freeListHead fresh initialBlockPoolIndex initialBlockPoolSize]; [| | |done|done|split; [lia|done]].
  - exists l. split; [done|]. split; [done|]. intros y. rewrite Hl. split.
    + intros (Hy & Hyo & Hyp). split; [done|]. split.
      * rewrite elem_of_union, elem_of_singleton. intros [->|?]; done.
      * intros [? ?]%in_pool_take. done.
    + rewrite elem_of_union, elem_of_singleton. intros (Hy & Hyo & Hyp). split; [done|]. split; [tauto|].
      intros Hpool. apply Hyp. split; [|apply Hpool]. destruct Hpool. cbn. assert (y <> x) by tauto. unfold x in *. lia.
  - intros y [Hy Hne]%in_pool_take. destruct (Hp y Hy) as [Hyo Hy']. split; [|done].
    rewrite elem_of_union, elem_of_singleton. intros [->|?]; [|done]. unfold x in Hne. lia.
  - intros y [->%elem_of_singleton|Hy]%elem_of_union; [|by apply Ho]. exists b. eauto using raw_length.
Qed.

Lemma free_list_try_get_spec h owned :
  heap_inv h owned ->
  exists o h', try_get_block_from_free_list h = Ret (o, h') /\ taken owned h h' o /\ (o = None -> h' = h).
Proof.
  intros Hinv. pose proof Hinv as [(l & Hc & Hd & Hl) Hp Ho Hf Hg Hi].
  unfold try_get_block_from_free_list, freeList_try_get. destruct l as [|x l].
  { cbn in Hc. rewrite Hc. exists None, h. split; [done|]. split; [|done]. split; [apply same_blocks_refl|done]. }
  destruct Hc as (Eh & b & Hb & Hr & Hw & Hc). rewrite Eh, (get_block_Ret _ _ _ Hb). cbn [mbind outcome_bind].
  rewrite Hr. change (Z.land 1 REFS_MASK =? 0) with false. change (Z.land (1 +u 1) SHOULD_BE_ON_FREELIST =? 0) with true.
  change (1 +u 1 -u 2) with 0. cbv iota. eexists (Some x), _. split; [done|]. split; [|done].
  apply NoDup_cons in Hd as [Hxl Hd]. destruct (proj1 (Hl x)) as (Hxs & Hxo & Hxp); [by left|].
  split.
  { intros y Hy. rewrite put_block_lookup. rewrite decide_False by congruence. done. }
  split; [done|]. split; [done|]. split.
  2:{ eexists. rewrite put_block_lookup, decide_True by done. split; [done|]. exact Hw. }
  constructor; cbn [put_block set_blocks set_freeListHead blocks freeListHead fresh initialBlockPoolIndex initialBlockPoolSize]; [| | | | |done].
  - exists l. split; [by apply free_chain_insert|]. split; [done|]. intros y. specialize (Hl y).
    rewrite lookup_insert_is_Some', elem_of_union, elem_of_singleton. rewrite elem_of_cons in Hl.
    change (in_pool (put_block _ _ _) y) with (in_pool h y) in *. unfold in_pool in *. cbn [set_blocks initialBlockPoolIndex initialBlockPoolSize set_freeListHead].
    assert (y ∈ l -> y <> x) by congruence. naive_solver.
  - intros y Hy. change (in_pool h y) in Hy. destruct (Hp y Hy) as [Hyo Hy']. assert (x <> y) by congruence. split.
    + rewrite elem_of_union, elem_of_singleton. intros [->|?]; done.
    + rewrite lookup_insert_ne by done. done.
  - intros y Hy. rewrite lookup_insert. case_decide; subst.
    + eexists. split; [done|]. cbn. eauto using raw_length.
    + apply elem_of_union in Hy as [Hy%elem_of_singleton|Hy]; [congruence|]. by apply Ho.
  - intros y c. rewrite lookup_insert. case_decide; [subst; intros _; by eapply Hf|by apply Hf].
  - intros y c. rewrite lookup_insert. case_decide; [subst; intros [= <-]; exact (Hg y _ Hb)|by apply Hg].
Qed.

(** A new block with the next number. *)
Lemma heap_inv_create h owned garbage m :
  heap_inv h owned -> (fresh h ∉ owned) /\
  heap_inv (mkHeap (<[fresh h := Block_new garbage]> (blocks h)) (S (fresh h)) m (initialBlockPoolIndex h) (initialBlockPoolSize h) (freeListHead h))
    ({[fresh h]} ∪ owned).
Proof.
  intros [(l & Hc & Hd & Hl) Hp Ho Hf Hg (Hi1 & Hi2 & Hi3)].
  assert (blocks h !! fresh h = None) as Hnew by (destruct (blocks h !! fresh h) eqn:E; [apply Hf in E; lia|done]).
  assert (fresh h ∉ owned) as Hno by (intros (b & Hb & _)%Ho; congruence).
  split; [done|]. constructor; cbn [blocks freeListHead fresh initialBlockPoolIndex initialBlockPoolSize].
  - exists l. split; [apply free_chain_insert; [|done]; intros Hin; destruct (free_chain_dom _ _ _ _ Hc Hin); congruence|].
    split; [done|]. intros y. rewrite Hl, lookup_insert_is_Some', elem_of_union, elem_of_singleton. unfold in_pool. cbn.
    assert (is_Some (blocks h !! y) -> y <> fresh h) by (intros [? ?] ->; congruence). naive_solver.
  - intros y Hy. change (in_pool h y) in Hy. destruct (Hp y Hy) as [Hyo (b & Hb & Hy')].
    assert (fresh h <> y) by congruence. split; [rewrite elem_of_union, elem_of_singleton; intros [->|?]; done|].
    exists b. by rewrite lookup_insert_ne.
  - intros y Hy. rewrite lookup_insert. case_decide; subst; [by eexists|].
    apply elem_of_union in Hy as [Hy%elem_of_singleton|Hy]; [congruence|by apply Ho].
  - intros y c. rewrite lookup_insert. case_decide; [lia|]. intros Hy%Hf. lia.
  - intros y c. rewrite lookup_insert. case_decide; [|by apply Hg]. intros [= <-]. subst. cbn. symmetry. apply Z.leb_le. lia.
  - split; [done|]. split; [done|]. lia.
Qed.

Lemma create_block_spec h owned garbage :
  heap_inv h owned ->
  let '(o, h') := create_block h garbage in
  taken owned h h' o /\ (mem_ok h -> is_Some o).
Proof.
  intros Hinv. unfold create_block, malloc. destruct (mem h) as [|r rest] eqn:Em; [|destruct r].
  3:{ split; [|unfold mem_ok; rewrite Em; by inversion 1].
      split; [by intros x|]. split; [unfold mem_ok; rewrite Em; by inversion 1|].
      destruct Hinv. by constructor. }
  1: destruct (heap_inv_create h owned garbage (mem h) Hinv) as [Hno Hi].
  2: destruct (heap_inv_create h owned garbage rest Hinv) as [Hno Hi].
  all: split; [|by eexists];
    (split; [intros x Hx; cbn; rewrite lookup_insert_ne by congruence; done|]);
    (split; [unfold mem_ok; rewrite Em; cbn; rewrite ?Em; inversion 1; done|]);
    (split; [done|]); (split; [exact Hi|eexists; cbn; rewrite lookup_insert_eq; done]).
Qed.

Lemma requisition_block_spec canAlloc garbage h owned :
  heap_inv h owned ->
  exists o h', requisition_block canAlloc garbage h = Ret (o, h') /\ taken owned h h' o /\
    (canAlloc = CanAlloc -> mem_ok h -> is_Some o).
Proof.
  intros Hinv. unfold requisition_block. pose proof (initial_pool_spec h owned Hinv) as H1.
  destruct (try_get_block_from_initial_pool h) as [[x|] h1]; destruct H1 as [H1 E1]; [by eexists _, _|].
  rewrite (E1 eq_refl). destruct (free_list_try_get_spec h owned Hinv) as (o & h2 & -> & H2 & E2). cbn [mbind outcome_bind].
  destruct o as [x|]; [by eexists _, _|]. rewrite (E2 eq_refl).
  pose proof (create_block_spec h owned garbage Hinv) as H3. destruct canAlloc.
  - destruct (create_block h garbage) as [o h3]. destruct H3. by eexists _, _.
  - eexists _, _. split; [done|]. split; [|done]. by rewrite (E2 eq_refl) in H2.
Qed.

(** *** Giving a block back *)

Lemma add_block_to_free_list_spec h owned x b :
  heap_inv h owned -> x ∈ owned -> blocks h !! x = Some b -> raw b ->
  exists h', add_block_to_free_list h x = Ret h' /\ heap_inv h' (owned ∖ {[x]}) /\
    same_blocks (owned ∖ {[x]}) h h' /\ mem h' = mem h.
Proof.
  intros [(l & Hc & Hd & Hl) Hp Ho Hf Hg Hi] Hx Hb Hw. destruct (Ho x Hx) as (b' & Hb' & Hr & _).
  rewrite Hb in Hb'. injection Hb' as <-.
  unfold add_block_to_free_list, freeList_add. rewrite (get_block_Ret _ _ _ Hb). cbn [mbind outcome_bind].
  rewrite Hr, Z.eqb_refl. unfold add_knowing_refcount_is_zero.
  erewrite get_block_Ret by (rewrite put_block_lookup, decide_True by done; reflexivity). cbn [mbind outcome_bind].
  eexists. split; [done|]. split; [|split; [|done]].
  2:{ intros y [Hy Hne%not_elem_of_singleton]%elem_of_difference. cbn. by rewrite !lookup_insert_ne by done. }
  assert (x ∉ l) as Hxl by (intros Hin; by apply Hl in Hin as (_ & ? & _)).
  assert (~ in_pool h x) as Hxp by (intros Hin; by apply Hp in Hin as [? _]).
  constructor; cbn [put_block set_blocks set_freeListHead blocks freeListHead fresh]; rewrite ?insert_insert_eq; [| | | | |done].
  - exists (x :: l). split; [|split; [by constructor|]].
    + split; [done|]. eexists. rewrite lookup_insert_eq. split; [done|]. split; [done|]. split; [exact Hw|].
      by apply free_chain_insert.
    + intros y. rewrite elem_of_cons, Hl, lookup_insert_is_Some', elem_of_difference, elem_of_singleton.
      change (in_pool _ y) with (in_pool h y) at 2. destruct (decide (y = x)); naive_solver.
  - intros y Hy. change (in_pool h y) in Hy. destruct (Hp y Hy) as [Hyo Hy']. split; [rewrite elem_of_difference; tauto|].
    rewrite lookup_insert_ne by congruence. done.
  - intros y [Hy Hne%not_elem_of_singleton]%elem_of_difference. rewrite lookup_insert_ne by done. by apply Ho.
  - intros y c. rewrite lookup_insert. case_decide; [subst; intros _; by eapply Hf|by apply Hf].
  - intros y c. rewrite lookup_insert. case_decide; [subst; intros [= <-]; exact (Hg y _ Hb)|by apply Hg].
Qed.

(** *** A new queue *)

Definition Heap_empty (results : list bool) : Heap := mkHeap ∅ 0 results 0 0 None.

Lemma heap_inv_empty m : heap_inv (mkHeap ∅ 0 m 0 0 None) ∅.
Proof.
  constructor; cbn; [|intros x [? ?]; cbn in *; lia|done|done|done|done].
  exists []. split; [done|]. split; [constructor|]. intros x. rewrite lookup_empty. split; [by intros ?%elem_of_nil|]. by intros [[? ?] _].
Qed.

(** More than 2^58 blocks do not fit in memory. *)
Lemma populate_spec results blockCount garbage :
  0 <= blockCount <= 288230376151711744 -> heap_inv (populate_initial_block_list (Heap_empty results) blockCount garbage) ∅.
Proof.
  intros Hn. unfold populate_initial_block_list. destruct (Z.eqb_spec blockCount 0) as [->|Hne].
  { by apply heap_inv_empty. }
  unfold malloc. cbn [Heap_empty mem].
  assert (forall m, heap_inv (mkHeap (list_to_map (map (fun i => (i, set_dynamic (Block_new garbage) false)) (seq 0 (Z.to_nat blockCount))))
                                (Z.to_nat blockCount) m 0 blockCount None) ∅) as Hi.
  { intros m. assert (forall x b, (list_to_map (map (fun i => (i, set_dynamic (Block_new garbage) false)) (seq 0 (Z.to_nat blockCount))) : gmap nat Block) !! x = Some b
        <-> b = set_dynamic (Block_new garbage) false /\ (x < Z.to_nat blockCount)%nat) as Hlk.
    { intros x b. rewrite <- elem_of_list_to_map.
      - change (map ?f ?l) with (f <$> l). rewrite list_elem_of_fmap. setoid_rewrite elem_of_seq. split.
        + intros (y & E & Hy). injection E as -> ->. split; [done|lia].
        + intros [-> Hx]. exists x. split; [done|lia].
      - change (map ?f ?l) with (f <$> l). rewrite <- list_fmap_compose. cbn. rewrite list_fmap_id. apply NoDup_seq. }
    constructor; cbn [blocks freeListHead fresh initialBlockPoolIndex initialBlockPoolSize]; [| |done| | |lia].
    - exists []. split; [done|]. split; [constructor|]. intros x. split; [by intros ?%elem_of_nil|].
      intros [[b Hb%Hlk] [_ Hno]]. exfalso. apply Hno. unfold in_pool. cbn. lia.
    - intros x [Hx1 Hx2]. cbn in *. split; [done|]. eexists. rewrite Hlk. split; [split; [done|lia]|]. done.
    - intros x b Hx%Hlk. lia.
    - intros x b [-> Hx]%Hlk. cbn. symmetry. apply Z.leb_gt. lia. }
  destruct results as [|[] rest]; cbn; auto using heap_inv_empty.
Qed.

(** ** Sequences of requests *)

(** A producer asks for a block, or gives back a block it owns and has emptied. *)
Inductive AEvent := ARequire (canAlloc : AllocationMode) (garbage : list bool) | ARelease (x : nat).

(** The heap, the blocks given out and not given back, and the answers. *)
Definition alloc_step (s : Heap * gset nat * list (option nat)) (ev : AEvent) : outcome (Heap * gset nat * list (option nat)) :=
  let '(h, owned, log) := s in
  match ev with
  | ARequire canAlloc garbage =>
      '(o, h) ← requisition_block canAlloc garbage h;
      Ret (h, match o with Some x => {[x]} ∪ owned | None => owned end, log ++ [o])
  | ARelease x =>
      if decide (x ∈ owned) then h ← add_block_to_free_list h x; Ret (h, owned ∖ {[x]}, log) else Ret s
  end.

Fixpoint alloc_run (s : Heap * gset nat * list (option nat)) (evs : list AEvent) : outcome (Heap * gset nat * list (option nat)) :=
  match evs with
  | [] => Ret s
  | ev :: evs => s ← alloc_step s ev; alloc_run s evs
  end.

Definition all_raw (h : Heap) (owned : gset nat) : Prop :=
  forall x, x ∈ owned -> exists b, blocks h !! x = Some b /\ raw b.

(** One step: a block that is given out was owned by nobody. *)
Lemma alloc_step_spec h owned log ev :
  heap_inv h owned -> all_raw h owned ->
  exists h' owned' log', alloc_step (h, owned, log) ev = Ret (h', owned', log') /\ heap_inv h' owned' /\ all_raw h' owned'
    /\ (mem_ok h -> mem_ok h')
    /\ match ev with
       | ARequire canAlloc _ => exists o, log' = log ++ [o] /\ (canAlloc = CanAlloc -> mem_ok h -> is_Some o) /\
           match o with None => owned' = owned | Some x => (x ∉ owned) /\ owned' = {[x]} ∪ owned end
       | ARelease x => log' = log /\ owned' = owned ∖ {[x]}
       end.
Proof.
  intros Hi Hr. destruct ev as [c g|x]; cbn [alloc_step].
  - destruct (requisition_block_spec c g h owned Hi) as (o & h' & -> & (Hs & Hm & Ho) & Hc). cbn [mbind outcome_bind].
    eexists _, _, _. split; [done|]. destruct o as [x|].
    + destruct Ho as (Hx & Hi' & b & Hb & Hw). split; [done|]. split; [|split; [done|by exists (Some x)]].
      intros y [->%elem_of_singleton|Hy]%elem_of_union; [by exists b|]. destruct (Hr y Hy) as (c' & Hc' & Hw').
      exists c'. by rewrite Hs.
    + split; [done|]. split; [|split; [done|by exists None]]. intros y Hy. rewrite Hs by done. by apply Hr.
  - case_decide as Hx.
    + destruct (Hr x Hx) as (b & Hb & Hw).
      destruct (add_block_to_free_list_spec h owned x b Hi Hx Hb Hw) as (h' & -> & Hi' & Hs & Em). cbn [mbind outcome_bind].
      eexists _, _, _. split; [done|]. split; [done|]. split; [|unfold mem_ok; by rewrite Em].
      intros y Hy. rewrite Hs by done. apply Hr. by apply elem_of_difference in Hy as [? _].
    + eexists _, _, _. split; [done|]. split; [done|]. split; [done|]. split; [done|]. split; [done|].
      apply leibniz_equiv. intros y. rewrite elem_of_difference, elem_of_singleton. split; [|tauto]. intros Hy. split; [done|]. by intros ->.
Qed.

Lemma alloc_run_app s evs1 evs2 : alloc_run s (evs1 ++ evs2) = s' ← alloc_run s evs1; alloc_run s' evs2.
Proof. revert s. induction evs1 as [|ev evs1 IH]; intros s; [done|]. cbn. destruct (alloc_step s ev); cbn; [apply IH|done]. Qed.

Lemma alloc_run_inv results n garbage evs :
  0 <= n <= 288230376151711744 ->
  exists h owned log,
    alloc_run (populate_initial_block_list (Heap_empty results) n garbage, ∅, []) evs = Ret (h, owned, log) /\
    heap_inv h owned /\ all_raw h owned.
Proof.
  intros Hn. induction evs as [|ev evs IH] using rev_ind.
  { eexists _, _, _. split; [done|]. split; [by apply populate_spec|]. by intros x ?%elem_of_empty. }
  destruct IH as (h & owned & log & E & Hi & Hr). rewrite alloc_run_app, E. cbn [mbind outcome_bind alloc_run].
  destruct (alloc_step_spec h owned log ev Hi Hr) as (h' & o' & l' & E' & Hi' & Hr' & _).
  rewrite E'. by eexists _, _, _.
Qed.
End Block.

Arguments Block : clear implicits.
Arguments Heap : clear implicits.

(** Whatever producers ask for and give back, the pool, the free list and the
    allocation of blocks never fail an assertion or loop, and a block that is
    given out is not in the hands of anybody else; a request is refused only when
    allocation is not allowed or [malloc] fails.  (One call at a time.) *)
Theorem blocks_are_exclusive {T} (results : list bool) n garbage (evs : list AEvent) canAlloc garbage' :
  0 <= n <= 288230376151711744 ->
  exists (h : Heap T) owned log h' o,
    alloc_run (populate_initial_block_list (Heap_empty results) n garbage, ∅, []) evs = Ret (h, owned, log) /\
    requisition_block canAlloc garbage' h = Ret (o, h') /\
    (forall x, o = Some x -> x ∉ owned) /\
    (o = None -> canAlloc = CanAlloc -> false ∈ mem h).
Proof.
  intros Hn. destruct (alloc_run_inv (T := T) results n garbage evs Hn) as (h & owned & log & E & Hi & _).
  destruct (requisition_block_spec canAlloc garbage' h owned Hi) as (o & h' & E' & (_ & _ & Ho) & Hc).
  exists h, owned, log, h', o. split; [done|]. split; [done|]. split.
  - intros x ->. by destruct Ho.
  - intros -> ->. destruct (decide (false ∈ mem h)) as [|Hm]; [done|]. destruct (Hc eq_refl) as [? ?]; [|done].
    apply Forall_forall. intros [] Hr; done.
Qed.

(** Four requests with two blocks in the pool, the second block given back: the
    third request gets it from the free list and the fourth a new one. *)
Lemma blocks_are_exclusive_witness :
  exists (h : Heap Z) owned log h' o,
    alloc_run (populate_initial_block_list (Heap_empty []) 2 [], ∅, [])
      [ARequire CannotAlloc []; ARequire CannotAlloc []; ARelease 1; ARequire CannotAlloc []] = Ret (h, owned, log) /\
    requisition_block CanAlloc [] h = Ret (o, h') /\ (forall x, o = Some x -> x ∉ owned) /\
    (o = None -> CanAlloc = CanAlloc -> false ∈ mem h).
Proof. apply (blocks_are_exclusive (T := Z)). lia. Defined.
