(* ===== verification/FreeListConc.v ===== *)
(** * The free list under contention (concurrentqueue.h, struct FreeList)

    Any number of threads add nodes to the list and take nodes from it; every atomic
    operation of [add], [try_get] and [add_knowing_refcount_is_zero] is a step.  A node
    has a count of references and a flag that says that it should be on the list.  The
    theorems: the list is always a chain without a node twice, a node that is taken is
    nobody else's, the assertion of the code holds, and no node is lost. *)
From S2P Require Import Prelude QueueDetails QueueBlock.

(** ** State *)

(** [freeListRefs] and [freeListNext] *)
Record FNode := mkFNode { fn_refs : Z; fn_next : option nat }.

(** What follows [add_knowing_refcount_is_zero]: the end of [add], or the loop of
    [try_get] with the head it has seen. *)
Inductive FCont := FReturn | FLoop (head : option nat).

(** Where a thread is: outside the list's functions, or before the atomic operation
    named.  In [add]: *)
Inductive FPc :=
  | FIdle
  | FAdd (n : nat)                                        (** [freeListRefs.fetch_add(SHOULD_BE_ON_FREELIST)] *)
  (** in [add_knowing_refcount_is_zero]: *)
  | FKnow (n : nat) (k : FCont)                           (** [freeListHead.load()] *)
  | FSetNext (n : nat) (head : option nat) (k : FCont)    (** [freeListNext.store(head)] *)
  | FSetRefs (n : nat) (head : option nat) (k : FCont)    (** [freeListRefs.store(1)] *)
  | FLink (n : nat) (head : option nat) (k : FCont)       (** the exchange of [freeListHead] *)
  | FRetry (n : nat) (head : option nat) (k : FCont)      (** [freeListRefs.fetch_add(SHOULD_BE_ON_FREELIST - 1)] *)
  (** in [try_get]: *)
  | FLoad                                                 (** [freeListHead.load()] *)
  | FRefs (n : nat)                                       (** [freeListRefs.load()] *)
  | FTake (n : nat) (refs : Z)                            (** the exchange of [freeListRefs] *)
  | FNext (n : nat)                                       (** [freeListNext.load()] *)
  | FPop (n : nat) (next : option nat)                    (** the exchange of [freeListHead] *)
  | FCheck (n : nat)                                      (** the assertion *)
  | FRelease (n : nat)                                    (** [freeListRefs.fetch_sub(2)] *)
  | FBack (n : nat) (head : option nat).                  (** [freeListRefs.fetch_sub(1)] *)

(** [fl_owned] are the nodes outside the list that callers may add. *)
Record FList := mkFList { fl_head : option nat; fl_nodes : gmap nat FNode; fl_threads : list FPc; fl_owned : gset nat }.

Implicit Types (s : FList) (nd : FNode) (pc : FPc) (n i : nat).

(** ** Operations *)

(** [while (head != nullptr)] *)
Definition loop_head (head : option nat) : FPc := match head with None => FIdle | Some n => FRefs n end.

Definition finish (k : FCont) : FPc := match k with FReturn => FIdle | FLoop head => loop_head head end.

Definition set_pc s i pc : FList := mkFList (fl_head s) (fl_nodes s) (<[i := pc]> (fl_threads s)) (fl_owned s).
Definition set_fnode s n nd : FList := mkFList (fl_head s) (<[n := nd]> (fl_nodes s)) (fl_threads s) (fl_owned s).
Definition set_head s (head : option nat) : FList := mkFList head (fl_nodes s) (fl_threads s) (fl_owned s).
Definition set_owned s (owned : gset nat) : FList := mkFList (fl_head s) (fl_nodes s) (fl_threads s) owned.
Definition fnode s n : outcome FNode := of_option BadPointer (fl_nodes s !! n).

(** The next atomic operation of thread [i], which is at [pc]. *)
Definition fpc_step s i pc : outcome FList :=
  match pc with
  | FIdle => Ret s
  | FAdd n =>
      nd ← fnode s n;
      let s := set_fnode s n (mkFNode (fn_refs nd +u SHOULD_BE_ON_FREELIST) (fn_next nd)) in
      Ret (set_pc s i (if fn_refs nd =? 0 then FKnow n FReturn else FIdle))
  | FKnow n k => Ret (set_pc s i (FSetNext n (fl_head s) k))
  | FSetNext n head k => nd ← fnode s n; Ret (set_pc (set_fnode s n (mkFNode (fn_refs nd) head)) i (FSetRefs n head k))
  | FSetRefs n head k => nd ← fnode s n; Ret (set_pc (set_fnode s n (mkFNode 1 (fn_next nd))) i (FLink n head k))
  | FLink n head k =>
      if decide (fl_head s = head) then Ret (set_pc (set_head s (Some n)) i (finish k))
      else Ret (set_pc s i (FRetry n (fl_head s) k))
  | FRetry n head k =>
      nd ← fnode s n;
      let s := set_fnode s n (mkFNode (fn_refs nd +u (SHOULD_BE_ON_FREELIST - 1)) (fn_next nd)) in
      Ret (set_pc s i (if fn_refs nd =? 1 then FSetNext n head k else finish k))
  | FLoad => Ret (set_pc s i (loop_head (fl_head s)))
  | FRefs n => nd ← fnode s n; Ret (set_pc s i (if Z.land (fn_refs nd) REFS_MASK =? 0 then FLoad else FTake n (fn_refs nd)))
  | FTake n refs =>
      nd ← fnode s n;
      if fn_refs nd =? refs then Ret (set_pc (set_fnode s n (mkFNode (refs +u 1) (fn_next nd))) i (FNext n))
      else Ret (set_pc s i FLoad)
  | FNext n => nd ← fnode s n; Ret (set_pc s i (FPop n (fn_next nd)))
  | FPop n next =>
      if decide (fl_head s = Some n) then Ret (set_pc (set_head s next) i (FCheck n))
      else Ret (set_pc s i (FBack n (fl_head s)))
  | FCheck n =>
      nd ← fnode s n;
      if Z.land (fn_refs nd) SHOULD_BE_ON_FREELIST =? 0 then Ret (set_pc s i (FRelease n)) else Fault AssertFailed
  | FRelease n =>
      nd ← fnode s n;
      Ret (set_owned (set_pc (set_fnode s n (mkFNode (fn_refs nd -u 2) (fn_next nd))) i FIdle) ({[n]} ∪ fl_owned s))
  | FBack n head =>
      nd ← fnode s n;
      let s := set_fnode s n (mkFNode (fn_refs nd -u 1) (fn_next nd)) in
      Ret (set_pc s i (if fn_refs nd =? SHOULD_BE_ON_FREELIST +u 1 then FKnow n (FLoop head) else loop_head head))
  end.

(** A node is made; thread [i] calls [add] with a node that is its to give away; it calls
    [try_get]; it takes a step. *)
Inductive FEvent := FCreate (n : nat) | FCallAdd (i n : nat) | FCallGet (i : nat) | FGo (i : nat).

Definition flist_step s (ev : FEvent) : outcome FList :=
  match ev with
  | FCreate n =>
      match fl_nodes s !! n with
      | None => Ret (set_owned (set_fnode s n (mkFNode 0 None)) ({[n]} ∪ fl_owned s))
      | Some _ => Ret s
      end
  | FCallAdd i n =>
      match fl_threads s !! i with
      | Some FIdle => if decide (n ∈ fl_owned s) then Ret (set_owned (set_pc s i (FAdd n)) (fl_owned s ∖ {[n]})) else Ret s
      | _ => Ret s
      end
  | FCallGet i => match fl_threads s !! i with Some FIdle => Ret (set_pc s i FLoad) | _ => Ret s end
  | FGo i => match fl_threads s !! i with Some pc => fpc_step s i pc | None => Ret s end
  end.

Fixpoint flist_run s (evs : list FEvent) : outcome FList :=
  match evs with [] => Ret s | ev :: evs => s ← flist_step s ev; flist_run s evs end.

(** An empty list, and [threads] threads. *)
Definition flist_start (threads : nat) : FList := mkFList None ∅ (replicate threads FIdle) ∅.

(** ** The invariant *)

(** The references on [n] a thread has taken, and the node only it works on. *)
Definition refs_on n pc : Z :=
  match pc with FNext m | FPop m _ | FCheck m | FRelease m | FBack m _ => if decide (m = n) then 1 else 0 | _ => 0 end.

Definition carried pc : option nat :=
  match pc with
  | FAdd n | FKnow n _ | FSetNext n _ _ | FSetRefs n _ _ | FLink n _ _ | FRetry n _ _ | FCheck n | FRelease n => Some n
  | _ => None
  end.

(** The rest of the count of a carried node: the flag while nobody may take a reference,
    or the reference of the list. *)
Definition base pc : Z :=
  match pc with FKnow _ _ | FSetNext _ _ _ | FSetRefs _ _ _ => SHOULD_BE_ON_FREELIST | FLink _ _ _ | FRetry _ _ _ | FCheck _ | FRelease _ => 1 | _ => 0 end.

Definition closed pc : bool := match pc with FKnow _ _ | FSetNext _ _ _ | FSetRefs _ _ _ => true | _ => false end.

(** Where a node is: on the list, with a caller, carried by a thread, or flagged, to be
    added by the last thread that has a reference. *)
Inductive Place := Listed | Owned | Carried (i : nat) | Flagged.

Definition held (threads : list FPc) n : Z := total (refs_on n) threads.

Definition node_ok (threads : list FPc) n nd (p : Place) : Prop :=
  match p with
  | Listed => fn_refs nd = 1 + held threads n
  | Owned => fn_refs nd = held threads n
  | Flagged => fn_refs nd = SHOULD_BE_ON_FREELIST + held threads n /\ 1 <= held threads n
  | Carried i => exists pc, threads !! i = Some pc /\ carried pc = Some n /\ fn_refs nd = base pc + held threads n /\ (closed pc = true -> held threads n = 0)
  end.

Definition ptr_ok (nodes : gmap nat FNode) (o : option nat) : Prop := match o with None => True | Some n => is_Some (nodes !! n) end.
Definition cont_ok (nodes : gmap nat FNode) (k : FCont) : Prop := match k with FReturn => True | FLoop head => ptr_ok nodes head end.
Definition next_is (nodes : gmap nat FNode) n (next : option nat) : Prop := exists nd, nodes !! n = Some nd /\ fn_next nd = next.

(** Pointers lead to nodes; what a thread has read of a node it has a reference on, or
    written to a node it carries, is still there. *)
Definition pc_ok (nodes : gmap nat FNode) pc : Prop :=
  match pc with
  | FIdle | FLoad => True
  | FAdd n | FRefs n | FNext n | FCheck n | FRelease n => is_Some (nodes !! n)
  | FTake n refs => is_Some (nodes !! n) /\ Z.land refs REFS_MASK <> 0
  | FKnow n k => is_Some (nodes !! n) /\ cont_ok nodes k
  | FSetNext n head k | FRetry n head k => is_Some (nodes !! n) /\ ptr_ok nodes head /\ cont_ok nodes k
  | FSetRefs n head k | FLink n head k => next_is nodes n head /\ ptr_ok nodes head /\ cont_ok nodes k
  | FPop n next => next_is nodes n next
  | FBack n head => is_Some (nodes !! n) /\ ptr_ok nodes head
  end.

Fixpoint fchain (nodes : gmap nat FNode) (o : option nat) (l : list nat) : Prop :=
  match l with [] => o = None | n :: l => o = Some n /\ exists next, next_is nodes n next /\ fchain nodes next l end.

Record flist_inv s (l : list nat) (P : gmap nat Place) : Prop := mk_flist_inv {
  fi_chain : fchain (fl_nodes s) (fl_head s) l;
  fi_nodup : NoDup l;
  fi_places : forall n, is_Some (P !! n) <-> is_Some (fl_nodes s !! n);
  fi_listed : forall n, n ∈ l <-> P !! n = Some Listed;
  fi_owned : forall n, n ∈ fl_owned s <-> P !! n = Some Owned;
  fi_carried : forall i pc n, fl_threads s !! i = Some pc -> carried pc = Some n -> P !! n = Some (Carried i);
  fi_nodes : forall n nd p, fl_nodes s !! n = Some nd -> P !! n = Some p -> node_ok (fl_threads s) n nd p;
  fi_pcs : forall i pc, fl_threads s !! i = Some pc -> pc_ok (fl_nodes s) pc;
  fi_bound : Z.of_nat (length (fl_threads s)) + 1 < SHOULD_BE_ON_FREELIST }.

(** *** Counts *)

Lemma refs_on_bounds n pc : 0 <= refs_on n pc <= 1.
Proof. destruct pc; cbn; repeat case_decide; lia. Qed.

Lemma held_bounds threads n : 0 <= held threads n <= Z.of_nat (length threads).
Proof.
  assert (Forall (fun x => 0 <= refs_on n x <= 1) threads) as F by (apply Forall_forall; intros pc _; apply refs_on_bounds).
  pose proof (total_bounds (refs_on n) 0 1 threads F). unfold held. lia.
Qed.

Lemma held_insert threads i pc pc' n : threads !! i = Some pc -> held (<[i := pc']> threads) n = held threads n - refs_on n pc + refs_on n pc'.
Proof. apply total_insert. Qed.

Lemma held_at threads i pc n : threads !! i = Some pc -> refs_on n pc <= held threads n.
Proof. apply total_elem, Forall_forall. intros x _. apply refs_on_bounds. Qed.

(** Nobody but the carrier is at a node whose count is zero. *)
Lemma held_zero threads i pc n : held threads n = 0 -> threads !! i = Some pc -> refs_on n pc = 0.
Proof. intros H Hi. pose proof (held_at threads i pc n Hi). pose proof (refs_on_bounds n pc). lia. Qed.

Lemma next_is_insert nodes n nd nd' m next : nodes !! n = Some nd -> (m = n -> fn_next nd' = fn_next nd) -> next_is nodes m next -> next_is (<[n := nd']> nodes) m next.
Proof.
  intros Hn Hm (x & Hx & E). unfold next_is. destruct (decide (m = n)) as [->|Hne].
  - exists nd'. rewrite lookup_insert_eq. split; [done|]. rewrite Hm by done. congruence.
  - exists x. by rewrite lookup_insert_ne.
Qed.

Lemma present_insert (nodes : gmap nat FNode) n nd' m : is_Some (nodes !! m) -> is_Some (<[n := nd']> nodes !! m).
Proof. intros Hm. rewrite lookup_insert. case_decide; [by eexists|done]. Qed.

Lemma ptr_ok_insert nodes n nd' o : ptr_ok nodes o -> ptr_ok (<[n := nd']> nodes) o.
Proof. destruct o; [apply present_insert|done]. Qed.

Lemma cont_ok_insert nodes n nd' k : cont_ok nodes k -> cont_ok (<[n := nd']> nodes) k.
Proof. destruct k; [done|apply ptr_ok_insert]. Qed.

(** What threads know of a node stays true when its link does, or when they neither carry
    it nor have a reference on it. *)
Lemma pc_ok_insert nodes n nd nd' pc :
  nodes !! n = Some nd -> (fn_next nd' = fn_next nd \/ (carried pc <> Some n /\ refs_on n pc = 0)) -> pc_ok nodes pc -> pc_ok (<[n := nd']> nodes) pc.
Proof.
  intros Hn Hd. assert (forall m next, (m = n -> carried pc = Some n \/ refs_on n pc = 1) -> next_is nodes m next -> next_is (<[n := nd']> nodes) m next) as Hnx.
  { intros m next Hm. apply (next_is_insert _ _ nd); [done|]. intros ->. destruct (Hm eq_refl) as [H|H]; destruct Hd as [?|[? ?]]; try done; lia. }
  destruct pc; cbn [pc_ok]; try (by apply present_insert); try done;
    repeat match goal with |- _ /\ _ -> _ => intros [? ?] | |- _ -> _ /\ _ => intros ? | H : _ /\ _ |- _ => destruct H end; repeat split;
    auto using present_insert, ptr_ok_insert, cont_ok_insert.
  - apply Hnx; [|done]. intros ->. by left.
  - apply Hnx; [|done]. intros ->. by left.
  - apply Hnx. intros ->. right. cbn. by rewrite decide_True.
Qed.

(** *** Steps *)

(** A thread goes on without touching anything. *)
Lemma flist_inv_move s l P i pc pc' :
  flist_inv s l P -> fl_threads s !! i = Some pc -> (forall m, refs_on m pc' = refs_on m pc) -> carried pc' = carried pc -> base pc' = base pc ->
  closed pc' = closed pc -> pc_ok (fl_nodes s) pc' -> flist_inv (set_pc s i pc') l P.
Proof.
  intros [Hc Hnd Hp Hl Ho Hca Hn Hpc Hb] Hi Er Ec Eb Ed Hok.
  assert (forall m, held (<[i := pc']> (fl_threads s)) m = held (fl_threads s) m) as Eh by (intros m; rewrite (held_insert _ _ _ _ _ Hi), Er; lia).
  constructor; cbn; try done.
  - intros j x m [(-> & -> & _)|(Hne & Hj)]%list_lookup_insert_Some Hx; [|by eapply Hca]. eapply Hca; [exact Hi|congruence].
  - intros m nd p Hm HP. specialize (Hn m nd p Hm HP). destruct p as [| |j|]; cbn in *; rewrite ?Eh; try done.
    destruct Hn as (x & Hj & Hx & Hr & Hz). destruct (decide (j = i)) as [->|Hne].
    + exists pc'. rewrite list_lookup_insert_eq by (by eapply lookup_lt_Some). replace x with pc in * by congruence. rewrite Ec, Eb, Ed. done.
    + exists x. by rewrite list_lookup_insert_ne.
  - intros j x [(-> & -> & _)|(Hne & Hj)]%list_lookup_insert_Some; [done|by eapply Hpc].
  - by rewrite length_insert.
Qed.

(** A thread works on node [n] only. *)
Definition works_on n pc : Prop := (forall m, carried pc = Some m -> m = n) /\ forall m, m <> n -> refs_on m pc = 0.

Lemma flist_inv_step s l P i pc pc' n nd nd' p p' head' l' owned' :
  flist_inv s l P -> fl_threads s !! i = Some pc -> fl_nodes s !! n = Some nd -> P !! n = Some p -> works_on n pc -> works_on n pc' ->
  (fn_next nd' = fn_next nd \/ (held (fl_threads s) n = 0 /\ carried pc = Some n)) ->
  fchain (<[n := nd']> (fl_nodes s)) head' l' -> NoDup l' -> (forall m, m <> n -> m ∈ l' <-> m ∈ l) -> (forall m, m <> n -> m ∈ owned' <-> m ∈ fl_owned s) ->
  (n ∈ l' <-> p' = Listed) -> (n ∈ owned' <-> p' = Owned) -> (carried pc' = Some n -> p' = Carried i) -> (forall j, j <> i -> p = Carried j -> p' = Carried j) ->
  node_ok (<[i := pc']> (fl_threads s)) n nd' p' -> pc_ok (<[n := nd']> (fl_nodes s)) pc' ->
  flist_inv (mkFList head' (<[n := nd']> (fl_nodes s)) (<[i := pc']> (fl_threads s)) owned') l' (<[n := p']> P).
Proof.
  intros [Hc Hnd Hp Hl Ho Hca Hn Hpc Hb] Hi Hm HP [W1 W2] [W1' W2'] Hx Hc' Hnd' El Eo Hl' Ho' Hca' Hother Hok Hpc'. constructor; cbn; try done.
  - intros m. rewrite !lookup_insert. case_decide; [by split|apply Hp].
  - intros m. rewrite lookup_insert. case_decide; subst; [rewrite Hl'; split; congruence|rewrite El by done; apply Hl].
  - intros m. rewrite lookup_insert. case_decide; subst; [rewrite Ho'; split; congruence|rewrite Eo by done; apply Ho].
  - intros j x m [(-> & -> & _)|(Hne & Hj)]%list_lookup_insert_Some Hm'.
    + pose proof (W1' m Hm') as ->. rewrite lookup_insert_eq. f_equal. by apply Hca'.
    + pose proof (Hca j x m Hj Hm') as HPm. rewrite lookup_insert. case_decide; subst; [|done]. f_equal. apply Hother; congruence.
  - intros m x q. rewrite !lookup_insert. case_decide; subst; [intros [= <-] [= <-]; done|]. intros Hx' Hq. specialize (Hn m x q Hx' Hq).
    assert (held (<[i := pc']> (fl_threads s)) m = held (fl_threads s) m) as Eh by (rewrite (held_insert _ _ _ _ _ Hi), W2, W2' by done; lia).
    destruct q as [| |j|]; cbn in *; rewrite ?Eh; try done. destruct Hn as (y & Hj & Hy & Hr & Hz). exists y. split; [|done]. rewrite list_lookup_insert_ne; [done|].
    intros <-. replace y with pc in * by congruence. by apply W1 in Hy.
  - intros j x [(-> & -> & _)|(Hne & Hj)]%list_lookup_insert_Some; [done|]. eapply pc_ok_insert; [exact Hm| |by eapply Hpc].
    destruct Hx as [?|[H0 H1]]; [by left|]. right. split; [|by eapply held_zero]. intros H2. pose proof (Hca _ _ _ Hi H1). pose proof (Hca _ _ _ Hj H2). congruence.
  - by rewrite length_insert.
Qed.

Lemma fchain_insert nodes n nd nd' o l : nodes !! n = Some nd -> (n ∈ l -> fn_next nd' = fn_next nd) -> fchain nodes o l -> fchain (<[n := nd']> nodes) o l.
Proof.
  intros Hn. revert o. induction l as [|m l IH]; intros o Hx; [done|]. intros (-> & next & Hm & Hl). split; [done|]. exists next. split.
  - eapply next_is_insert; [exact Hn| |exact Hm]. intros ->. apply Hx. by left.
  - apply IH; [|done]. intros Hin. apply Hx. by right.
Qed.

Lemma fchain_head nodes o l n : fchain nodes o l -> o = Some n -> exists next l', l = n :: l' /\ next_is nodes n next /\ fchain nodes next l'.
Proof. destruct l as [|m l]; [by intros -> |]. intros (-> & next & Hm & Hl) [= ->]. by exists next, l. Qed.

Lemma fchain_ptr nodes o l : fchain nodes o l -> ptr_ok nodes o.
Proof. destruct l as [|n l]; [by intros -> |]. intros (-> & next & (nd & Hn & _) & _). by eexists. Qed.

(** *** Bits *)

Lemma land_refs x : Z.land x REFS_MASK = x mod SHOULD_BE_ON_FREELIST.
Proof. change REFS_MASK with (Z.ones 31). rewrite Z.land_ones by lia. done. Qed.

Lemma land_flag x : 0 <= x < SHOULD_BE_ON_FREELIST -> Z.land x SHOULD_BE_ON_FREELIST = 0.
Proof.
  intros Hx. change SHOULD_BE_ON_FREELIST with (2 ^ 31) in *. apply Z.bits_inj'. intros k Hk. rewrite Z.land_spec, Z.bits_0, Z.pow2_bits_eqb by lia.
  destruct (Z.eqb_spec 31 k) as [<-|]; [|apply andb_false_r]. rewrite <- (Z.mod_small x (2 ^ 31)) by lia. by rewrite Z.mod_pow2_bits_high by lia.
Qed.

(** *** Every operation *)

Section Steps.
Variables (s : FList) (l : list nat) (P : gmap nat Place).
Hypothesis I : flist_inv s l P.

(** The node a thread carries. *)
Lemma carried_node i pc n : fl_threads s !! i = Some pc -> carried pc = Some n ->
  exists nd, fl_nodes s !! n = Some nd /\ P !! n = Some (Carried i) /\ fn_refs nd = base pc + held (fl_threads s) n /\ (closed pc = true -> held (fl_threads s) n = 0).
Proof.
  intros Hi Hc. pose proof (fi_carried _ _ _ I _ _ _ Hi Hc) as HP. destruct (fi_places _ _ _ I n) as [[nd Hn] _]; [by eexists|].
  exists nd. split; [done|]. split; [done|]. destruct (fi_nodes _ _ _ I n nd _ Hn HP) as (pc0 & Hi0 & _ & Hr & Hz). by replace pc0 with pc in * by congruence.
Qed.

Lemma carried_not_listed i n : P !! n = Some (Carried i) -> (n ∉ l) /\ (n ∉ fl_owned s).
Proof. intros HP. split; [intros H%(fi_listed _ _ _ I)|intros H%(fi_owned _ _ _ I)]; congruence. Qed.

Lemma held_small n : 0 <= held (fl_threads s) n /\ held (fl_threads s) n + 1 < SHOULD_BE_ON_FREELIST.
Proof. pose proof (held_bounds (fl_threads s) n). pose proof (fi_bound _ _ _ I). lia. Qed.

(** A step that writes the count of a node and leaves the list as it is. *)
Lemma step_refs i pc pc' n nd r p p' :
  fl_threads s !! i = Some pc -> fl_nodes s !! n = Some nd -> P !! n = Some p -> works_on n pc -> works_on n pc' ->
  (p' = Listed <-> p = Listed) -> (p' = Owned <-> p = Owned) -> (carried pc' = Some n -> p' = Carried i) -> (forall j, j <> i -> p = Carried j -> p' = Carried j) ->
  node_ok (<[i := pc']> (fl_threads s)) n (mkFNode r (fn_next nd)) p' -> pc_ok (<[n := mkFNode r (fn_next nd)]> (fl_nodes s)) pc' ->
  flist_inv (set_pc (set_fnode s n (mkFNode r (fn_next nd))) i pc') l (<[n := p']> P).
Proof.
  intros Hi Hn HP W W' E1 E2 Hc Ho Hok Hpc. apply (flist_inv_step s l P i pc pc' n nd _ p p' (fl_head s) l (fl_owned s)); try done; [by left|apply (fchain_insert _ _ nd); [done|done|apply I]|apply I|..].
  - rewrite E1, (fi_listed _ _ _ I n), HP. split; congruence.
  - rewrite E2, (fi_owned _ _ _ I n), HP. split; congruence.
Qed.

Lemma works_none n pc : carried pc = None -> (forall m, refs_on m pc = 0) -> works_on n pc.
Proof. intros Hc Hr. split; [by rewrite Hc|done]. Qed.

Lemma carried_loop h : carried (loop_head h) = None.
Proof. by destruct h. Qed.

Lemma carried_finish k : carried (finish k) = None.
Proof. destruct k; [done|apply carried_loop]. Qed.

Lemma refs_on_loop n h : refs_on n (loop_head h) = 0.
Proof. by destruct h. Qed.

Lemma refs_on_finish n k : refs_on n (finish k) = 0.
Proof. destruct k; [done|apply refs_on_loop]. Qed.

Lemma works_loop n h : works_on n (loop_head h).
Proof. by destruct h; apply works_none. Qed.

Lemma works_finish n k : works_on n (finish k).
Proof. destruct k; [by apply works_none|apply works_loop]. Qed.

Lemma works_carried n pc : carried pc = Some n -> (forall m, refs_on m pc = 0) -> works_on n pc.
Proof. intros Hc Hr. split; [by rewrite Hc; intros m [= ->]|done]. Qed.

Lemma works_refs n pc : refs_on n pc = 1 -> works_on n pc.
Proof. destruct pc; cbn; try lia; case_decide; try lia; subst; intros _; (split; [by try (intros m [= ->])|intros m Hm; cbn; by rewrite decide_False]). Qed.

Lemma loop_ok nodes h : ptr_ok nodes h -> pc_ok nodes (loop_head h).
Proof. by destruct h. Qed.

Lemma finish_ok nodes k : cont_ok nodes k -> pc_ok nodes (finish k).
Proof. destruct k; [done|apply loop_ok]. Qed.

Lemma head_ok : ptr_ok (fl_nodes s) (fl_head s).
Proof. eapply fchain_ptr, I. Qed.

(** The simple conditions of a step. *)
Ltac side := try first [done|split; congruence|by apply works_carried|apply works_loop|apply works_finish|by apply works_none|by apply works_refs; cbn; rewrite decide_True|by rewrite carried_finish|by rewrite carried_loop|congruence].

(** The thread's own place after the step. *)
Lemma node_carried i pc pc' n nd :
  fl_threads s !! i = Some pc -> carried pc' = Some n -> fn_refs nd = base pc' + (held (fl_threads s) n - refs_on n pc + refs_on n pc') ->
  (closed pc' = true -> held (fl_threads s) n - refs_on n pc + refs_on n pc' = 0) -> node_ok (<[i := pc']> (fl_threads s)) n nd (Carried i).
Proof. intros Hi Hc Hr Hz. exists pc'. rewrite list_lookup_insert_eq by (by eapply lookup_lt_Some). by rewrite (held_insert _ _ _ _ _ Hi). Qed.

Lemma step_add i n : fl_threads s !! i = Some (FAdd n) -> exists s' P', fpc_step s i (FAdd n) = Ret s' /\ flist_inv s' l P'.
Proof.
  intros Hi. destruct (carried_node i _ n Hi eq_refl) as (nd & Hn & HP & Hr & _). pose proof (held_small n) as Hh. cbn [base] in Hr. rewrite Z.add_0_l in Hr.
  cbn [fpc_step]. unfold fnode. rewrite Hn. cbn [of_option]. rewrite ret_bind, Hr, u32_small by (unfold is_u32, UINT_MOD, SHOULD_BE_ON_FREELIST in *; lia).
  destruct (Z.eqb_spec (held (fl_threads s) n) 0) as [E|E].
  - eexists _, (<[n := Carried i]> P). split; [done|]. eapply step_refs; side.
    + eapply node_carried; [exact Hi|done|cbn; lia|cbn; lia].
    + cbn. split; [|done]. rewrite lookup_insert_eq. by eexists.
  - eexists _, (<[n := Flagged]> P). split; [done|]. eapply step_refs; side.
    cbn. rewrite (held_insert _ _ _ _ _ Hi). cbn. lia.
Qed.

Lemma step_set_next i n h k : fl_threads s !! i = Some (FSetNext n h k) -> exists s' P', fpc_step s i (FSetNext n h k) = Ret s' /\ flist_inv s' l P'.
Proof.
  intros Hi. destruct (carried_node i _ n Hi eq_refl) as (nd & Hn & HP & Hr & Hz). specialize (Hz eq_refl). destruct (carried_not_listed _ _ HP) as [Hl Ho].
  destruct (fi_pcs _ _ _ I _ _ Hi) as (_ & Hh & Hk). cbn [fpc_step]. unfold fnode. rewrite Hn. cbn [of_option]. rewrite ret_bind.
  eexists _, (<[n := Carried i]> P). split; [done|].
  apply (flist_inv_step s l P i (FSetNext n h k) (FSetRefs n h k) n nd (mkFNode (fn_refs nd) h) (Carried i) (Carried i) (fl_head s) l (fl_owned s)); side.
  - by right.
  - apply (fchain_insert _ _ nd); [done|done|apply I].
  - apply I.
  - eapply node_carried; [exact Hi|done|cbn in *; lia|cbn in *; lia].
  - cbn. split; [exists (mkFNode (fn_refs nd) h); by rewrite lookup_insert_eq|]. split; [by apply ptr_ok_insert|by apply cont_ok_insert].
Qed.

Lemma step_set_refs i n h k : fl_threads s !! i = Some (FSetRefs n h k) -> exists s' P', fpc_step s i (FSetRefs n h k) = Ret s' /\ flist_inv s' l P'.
Proof.
  intros Hi. destruct (carried_node i _ n Hi eq_refl) as (nd & Hn & HP & Hr & Hz). specialize (Hz eq_refl).
  destruct (fi_pcs _ _ _ I _ _ Hi) as (Hx & Hh & Hk). cbn [fpc_step]. unfold fnode. rewrite Hn. cbn [of_option]. rewrite ret_bind.
  eexists _, (<[n := Carried i]> P). split; [done|]. eapply step_refs; side.
  - eapply node_carried; [exact Hi|done|cbn in *; lia|done].
  - cbn. split; [by eapply next_is_insert|]. split; [by apply ptr_ok_insert|by apply cont_ok_insert].
Qed.

Lemma step_link i n h k : fl_threads s !! i = Some (FLink n h k) -> exists s' l' P', fpc_step s i (FLink n h k) = Ret s' /\ flist_inv s' l' P'.
Proof.
  intros Hi. destruct (carried_node i _ n Hi eq_refl) as (nd & Hn & HP & Hr & _). destruct (carried_not_listed _ _ HP) as [Hl Ho].
  destruct (fi_pcs _ _ _ I _ _ Hi) as (Hx & Hh & Hk). cbn [fpc_step]. case_decide as E.
  - eexists _, (n :: l), (<[n := Listed]> P). split; [done|]. unfold set_pc, set_head. cbn. rewrite <- (fin_maps.insert_id (fl_nodes s) n nd) by done.
    eapply flist_inv_step; side.
    + by left.
    + rewrite fin_maps.insert_id by done. split; [done|]. exists h. split; [done|]. rewrite <- E. apply I.
    + constructor; [done|apply I].
    + intros m Hm. rewrite elem_of_cons. tauto.
    + split; [done|by left].
    + cbn. rewrite (held_insert _ _ _ _ _ Hi), refs_on_finish. cbn in *. lia.
    + rewrite fin_maps.insert_id by done. by apply finish_ok.
  - eexists _, l, P. split; [done|]. eapply flist_inv_move; [exact I|exact Hi|done|done|done|done|]. split; [by eexists|]. split; [apply head_ok|done].
Qed.

Lemma step_retry i n h k : fl_threads s !! i = Some (FRetry n h k) -> exists s' P', fpc_step s i (FRetry n h k) = Ret s' /\ flist_inv s' l P'.
Proof.
  intros Hi. destruct (carried_node i _ n Hi eq_refl) as (nd & Hn & HP & Hr & _). pose proof (held_small n) as Hh. cbn [base] in Hr.
  destruct (fi_pcs _ _ _ I _ _ Hi) as (_ & Hp & Hk). cbn [fpc_step]. unfold fnode. rewrite Hn. cbn [of_option]. rewrite ret_bind, Hr.
  rewrite u32_small by (unfold is_u32, UINT_MOD, SHOULD_BE_ON_FREELIST in *; lia). destruct (Z.eqb_spec (1 + held (fl_threads s) n) 1) as [E|E].
  - eexists _, (<[n := Carried i]> P). split; [done|]. eapply step_refs; side.
    + eapply node_carried; [exact Hi|done|cbn; lia|cbn; lia].
    + split; [rewrite lookup_insert_eq; by eexists|]. split; [by apply ptr_ok_insert|by apply cont_ok_insert].
  - eexists _, (<[n := Flagged]> P). split; [done|]. eapply step_refs; side.
    + cbn. rewrite (held_insert _ _ _ _ _ Hi), refs_on_finish. cbn. lia.
    + by apply finish_ok, cont_ok_insert.
Qed.

(** A node another thread carries, when somebody has or takes a reference on it. *)
Lemma carried_open j n nd : fl_nodes s !! n = Some nd -> P !! n = Some (Carried j) -> Z.land (fn_refs nd) REFS_MASK <> 0 \/ held (fl_threads s) n <> 0 ->
  exists pc, fl_threads s !! j = Some pc /\ carried pc = Some n /\ fn_refs nd = base pc + held (fl_threads s) n /\ closed pc = false /\ 0 <= base pc <= 1.
Proof.
  intros Hn HP Hopen. destruct (fi_nodes _ _ _ I n nd _ Hn HP) as (pc & Hj & Hc & Hr & Hz). exists pc. split; [done|]. split; [done|]. split; [done|].
  destruct (closed pc) eqn:Ec; [|split; [done|by destruct pc]]. specialize (Hz eq_refl). destruct Hopen as [Hopen|?]; [|done].
  destruct Hopen. rewrite Hr, Hz, land_refs. by destruct pc.
Qed.

(** Adding to the references on a node that a thread may reach. *)
Lemma node_ok_refs i pc pc' n nd p (d : Z) :
  fl_threads s !! i = Some pc -> fl_nodes s !! n = Some nd -> P !! n = Some p -> carried pc = None ->
  Z.land (fn_refs nd) REFS_MASK <> 0 \/ held (fl_threads s) n <> 0 -> refs_on n pc' - refs_on n pc = d ->
  (p = Flagged -> 1 <= held (fl_threads s) n + d) -> node_ok (<[i := pc']> (fl_threads s)) n (mkFNode (fn_refs nd + d) (fn_next nd)) p.
Proof.
  intros Hi Hn HP Hc Hopen Hd Hf. pose proof (fi_nodes _ _ _ I n nd p Hn HP) as Hok. destruct p as [| |j|]; cbn in *; rewrite ?(held_insert _ _ _ _ _ Hi); try lia.
  - destruct (carried_open j n nd Hn HP Hopen) as (pcj & Hj & Hcj & Hr & Hz & _). exists pcj.
    rewrite list_lookup_insert_ne by (intros <-; congruence). split; [done|]. split; [done|]. split; [lia|congruence].
  - specialize (Hf eq_refl). lia.
Qed.

Lemma step_take_ref i n r : fl_threads s !! i = Some (FTake n r) -> exists s' P', fpc_step s i (FTake n r) = Ret s' /\ flist_inv s' l P'.
Proof.
  intros Hi. destruct (fi_pcs _ _ _ I _ _ Hi) as ([nd Hn] & Hr). cbn [fpc_step]. unfold fnode. rewrite Hn. cbn [of_option]. rewrite ret_bind.
  destruct (Z.eqb_spec (fn_refs nd) r) as [<-|E].
  - destruct (fi_places _ _ _ I n) as [_ [p HP]]; [by eexists|]. pose proof (held_small n) as Hh.
    assert (fn_refs nd +u 1 = fn_refs nd + 1) as ->.
    { apply u32_small. pose proof (fi_nodes _ _ _ I n nd p Hn HP) as Hok. unfold is_u32, UINT_MOD. destruct p as [| |j|]; cbn in Hok; unfold SHOULD_BE_ON_FREELIST in *; try lia.
      destruct (carried_open j n nd Hn HP) as (? & _ & _ & ? & _ & ?); [by left|lia]. }
    eexists _, (<[n := p]> P). split; [done|]. eapply step_refs; side.
    + eapply node_ok_refs; side; [by left|cbn; by rewrite decide_True|lia].
    + cbn. rewrite lookup_insert_eq. by eexists.
  - eexists _, P. split; [done|]. by eapply flist_inv_move.
Qed.

Lemma step_pop i n h : fl_threads s !! i = Some (FPop n h) -> exists s' l' P', fpc_step s i (FPop n h) = Ret s' /\ flist_inv s' l' P'.
Proof.
  intros Hi. destruct (fi_pcs _ _ _ I _ _ Hi) as (nd & Hn & Hx). cbn [fpc_step]. case_decide as E.
  - destruct (fchain_head _ _ _ n (fi_chain _ _ _ I) E) as (next & l' & -> & (nd' & Hn' & Hx') & Hl'). replace nd' with nd in * by congruence.
    assert (next = h) as -> by congruence. pose proof (fi_nodup _ _ _ I) as [Hnl Hnd]%NoDup_cons.
    assert (P !! n = Some Listed) as HP by (apply (fi_listed _ _ _ I); by left).
    eexists _, l', (<[n := Carried i]> P). split; [done|]. unfold set_pc, set_head. cbn. rewrite <- (fin_maps.insert_id (fl_nodes s) n nd) by done.
    eapply flist_inv_step; side.
    + by left.
    + by rewrite fin_maps.insert_id.
    + intros m Hm. rewrite elem_of_cons. tauto.
    + rewrite (fi_owned _ _ _ I n), HP. done.
    + eapply node_carried; [exact Hi|done| |done]. pose proof (fi_nodes _ _ _ I n nd _ Hn HP) as Hok. cbn in *. rewrite decide_True by done. lia.
    + rewrite fin_maps.insert_id by done. by eexists.
  - eexists _, l, P. split; [done|]. eapply flist_inv_move; [exact I|exact Hi|done|done|done|done|]. split; [by eexists|apply head_ok].
Qed.

Lemma step_release i n : fl_threads s !! i = Some (FRelease n) -> exists s' P', fpc_step s i (FRelease n) = Ret s' /\ flist_inv s' l P'.
Proof.
  intros Hi. destruct (carried_node i _ n Hi eq_refl) as (nd & Hn & HP & Hr & _). destruct (carried_not_listed _ _ HP) as [Hl Ho]. pose proof (held_small n) as Hh.
  pose proof (held_at _ _ _ n Hi) as Hat. cbn in Hr, Hat. rewrite decide_True in Hat by done.
  cbn [fpc_step]. unfold fnode. rewrite Hn. cbn [of_option]. rewrite ret_bind, Hr, u32_small by (unfold is_u32, UINT_MOD, SHOULD_BE_ON_FREELIST in *; lia).
  eexists _, (<[n := Owned]> P). split; [done|].
  apply (flist_inv_step s l P i (FRelease n) FIdle n nd (mkFNode (1 + held (fl_threads s) n - 2) (fn_next nd)) (Carried i) Owned (fl_head s) l ({[n]} ∪ fl_owned s)); side.
  - by left.
  - apply (fchain_insert _ _ nd); [done|done|apply I].
  - apply I.
  - intros m Hm. rewrite elem_of_union, elem_of_singleton. tauto.
  - split; [done|]. intros _. by apply elem_of_union_l, elem_of_singleton.
  - cbn. rewrite (held_insert _ _ _ _ _ Hi). cbn. rewrite decide_True by done. lia.
Qed.

Lemma step_back i n h : fl_threads s !! i = Some (FBack n h) -> exists s' P', fpc_step s i (FBack n h) = Ret s' /\ flist_inv s' l P'.
Proof.
  intros Hi. destruct (fi_pcs _ _ _ I _ _ Hi) as ([nd Hn] & Hp). destruct (fi_places _ _ _ I n) as [_ [p HP]]; [by eexists|]. pose proof (held_small n) as Hh.
  pose proof (held_at _ _ _ n Hi) as Hat. cbn in Hat. rewrite decide_True in Hat by done. pose proof (fi_nodes _ _ _ I n nd p Hn HP) as Hok.
  assert (held (fl_threads s) n <> 0) as Hopen by lia.
  assert (0 < fn_refs nd <= SHOULD_BE_ON_FREELIST + held (fl_threads s) n /\ (fn_refs nd = SHOULD_BE_ON_FREELIST + 1 -> p = Flagged /\ held (fl_threads s) n = 1)) as [Hr Hlast].
  { destruct p as [| |j|]; cbn in Hok; unfold SHOULD_BE_ON_FREELIST in *; [split; [lia|intros; exfalso; lia]..| |split; [lia|intros; split; [done|lia]]].
    destruct (carried_open j n nd Hn HP) as (? & _ & _ & ? & _ & ?); [by right|]. split; [lia|intros; exfalso; lia]. }
  cbn [fpc_step]. unfold fnode. rewrite Hn. cbn [of_option]. rewrite ret_bind, !u32_small by (unfold is_u32, UINT_MOD, SHOULD_BE_ON_FREELIST in *; lia).
  destruct (Z.eqb_spec (fn_refs nd) (SHOULD_BE_ON_FREELIST + 1)) as [E|E].
  - destruct (Hlast E) as [-> H1]. eexists _, (<[n := Carried i]> P). split; [done|]. eapply step_refs; side.
    + eapply node_carried; [exact Hi|done|cbn; rewrite decide_True by done; lia|cbn; rewrite decide_True by done; lia].
    + split; [rewrite lookup_insert_eq; by eexists|by apply ptr_ok_insert].
  - eexists _, (<[n := p]> P). split; [done|]. eapply step_refs; side.
    + apply (node_ok_refs i (FBack n h)); side; [by right|rewrite refs_on_loop; cbn; by rewrite decide_True|].
      intros ->. cbn in Hok. lia.
    + by apply loop_ok, ptr_ok_insert.
Qed.

(** Thread [i] takes its next step. *)
Lemma fpc_step_spec i pc : fl_threads s !! i = Some pc -> exists s' l' P', fpc_step s i pc = Ret s' /\ flist_inv s' l' P'.
Proof.
  intros Hi. pose proof (fi_pcs _ _ _ I _ _ Hi) as Hok. destruct pc as [|n|n k|n h k|n h k|n h k|n h k| |n|n r|n|n h|n|n|n h]; cbn [pc_ok] in Hok.
  - by exists s, l, P.
  - destruct (step_add i n Hi) as (s' & P' & E & I'). by exists s', l, P'.
  - destruct Hok as [Hn Hk]. eexists _, l, P. split; [done|]. eapply flist_inv_move; [exact I|exact Hi|done|done|done|done|]. split; [done|]. split; [apply head_ok|done].
  - destruct (step_set_next i n h k Hi) as (s' & P' & E & I'). by exists s', l, P'.
  - destruct (step_set_refs i n h k Hi) as (s' & P' & E & I'). by exists s', l, P'.
  - by apply step_link.
  - destruct (step_retry i n h k Hi) as (s' & P' & E & I'). by exists s', l, P'.
  - eexists _, l, P. split; [done|]. eapply flist_inv_move; [exact I|exact Hi|intros m; apply refs_on_loop|apply carried_loop|by destruct (fl_head s)..|apply loop_ok, head_ok].
  - destruct Hok as [nd Hn]. cbn [fpc_step]. unfold fnode. rewrite Hn. cbn [of_option]. rewrite ret_bind. eexists _, l, P. split; [done|].
    destruct (Z.eqb_spec (Z.land (fn_refs nd) REFS_MASK) 0); (eapply flist_inv_move; [exact I|exact Hi|done|done|done|done|]); [done|]. split; [by eexists|done].
  - destruct (step_take_ref i n r Hi) as (s' & P' & E & I'). by exists s', l, P'.
  - destruct Hok as [nd Hn]. cbn [fpc_step]. unfold fnode. rewrite Hn. cbn [of_option]. rewrite ret_bind. eexists _, l, P. split; [done|].
    eapply flist_inv_move; [exact I|exact Hi|done|done|done|done|]. by exists nd.
  - by apply step_pop.
  - destruct (carried_node i _ n Hi eq_refl) as (nd & Hn & HP & Hr & _). pose proof (held_small n) as Hh. cbn [base] in Hr. cbn [fpc_step]. unfold fnode. rewrite Hn. cbn [of_option].
    rewrite ret_bind, land_flag by lia. eexists _, l, P. split; [done|]. by eapply flist_inv_move.
  - destruct (step_release i n Hi) as (s' & P' & E & I'). by exists s', l, P'.
  - destruct (step_back i n h Hi) as (s' & P' & E & I'). by exists s', l, P'.
Qed.

Lemma step_call_add i n : fl_threads s !! i = Some FIdle -> n ∈ fl_owned s -> flist_inv (set_owned (set_pc s i (FAdd n)) (fl_owned s ∖ {[n]})) l (<[n := Carried i]> P).
Proof.
  intros Hi Ho. assert (P !! n = Some Owned) as HP by (by apply (fi_owned _ _ _ I)). destruct (fi_places _ _ _ I n) as [[nd Hn] _]; [by eexists|].
  unfold set_owned, set_pc. cbn. rewrite <- (fin_maps.insert_id (fl_nodes s) n nd) by done. eapply flist_inv_step; side.
  - by left.
  - rewrite fin_maps.insert_id by done. apply I.
  - apply I.
  - intros m Hm. rewrite elem_of_difference, elem_of_singleton. tauto.
  - rewrite (fi_listed _ _ _ I n), HP. done.
  - rewrite elem_of_difference, elem_of_singleton. split; [tauto|done].
  - eapply node_carried; [exact Hi|done| |done]. pose proof (fi_nodes _ _ _ I n nd _ Hn HP) as Hok. cbn in *. lia.
  - rewrite fin_maps.insert_id by done. by eexists.
Qed.

Lemma step_create n : fl_nodes s !! n = None -> flist_inv (set_owned (set_fnode s n (mkFNode 0 None)) ({[n]} ∪ fl_owned s)) l (<[n := Owned]> P).
Proof.
  intros Hn. pose proof I as [Hc Hnd Hp Hl Ho Hca Hnodes Hpc Hb].
  assert (P !! n = None) as HP. { destruct (P !! n) eqn:E; [|done]. destruct (Hp n) as [[? ?] _]; [by eexists|congruence]. }
  assert (forall m o, next_is (fl_nodes s) m o -> next_is (<[n := mkFNode 0 None]> (fl_nodes s)) m o) as Hx.
  { intros m o (nd & Hm & Eo). exists nd. rewrite lookup_insert_ne; [done|congruence]. }
  assert (forall i pc, fl_threads s !! i = Some pc -> refs_on n pc = 0) as Hz.
  { intros i pc Hi. specialize (Hpc i pc Hi). destruct pc; cbn in *; try done; case_decide; try done; subst;
      repeat match goal with H : _ /\ _ |- _ => destruct H | H : next_is _ _ _ |- _ => destruct H as (? & ? & ?) | H : is_Some _ |- _ => destruct H end; congruence. }
  constructor; cbn; try done.
  - clear -Hc Hx. revert Hc. generalize (fl_head s). induction l as [|m l' IH]; intros o; [done|]. intros (-> & next & Hm & Hl). split; [done|]. exists next. auto.
  - intros m. rewrite !lookup_insert. case_decide; [by split|apply Hp].
  - intros m. rewrite Hl, lookup_insert. case_decide; subst; [rewrite HP; split; congruence|done].
  - intros m. rewrite elem_of_union, elem_of_singleton, Ho, lookup_insert. case_decide; subst; [tauto|]. split; [intros [?|?]; congruence|tauto].
  - intros i pc m Hi Hm. pose proof (Hca _ _ _ Hi Hm). rewrite lookup_insert_ne; [done|congruence].
  - intros m nd p. rewrite !lookup_insert. case_decide; subst; [|apply Hnodes]. intros [= <-] [= <-]. cbn. unfold held. symmetry.
    assert (Forall (fun x => 0 <= refs_on m x <= 0) (fl_threads s)) as F by (apply Forall_lookup; intros i pc Hi; rewrite (Hz i pc Hi); lia).
    pose proof (total_bounds (refs_on m) 0 0 _ F). lia.
  - intros i pc Hi. specialize (Hpc i pc Hi). destruct pc; cbn in *; try done; try (by apply present_insert);
      repeat match goal with H : _ /\ _ |- _ => destruct H end; repeat split; auto using present_insert, ptr_ok_insert, cont_ok_insert.
Qed.
End Steps.

Lemma flist_step_spec s l P ev : flist_inv s l P -> exists s' l' P', flist_step s ev = Ret s' /\ flist_inv s' l' P'.
Proof.
  intros I. destruct ev as [n|i n|i|i]; cbn [flist_step].
  - destruct (fl_nodes s !! n) as [nd|] eqn:Hn; [by exists s, l, P|]. eexists _, l, _. split; [done|]. by apply step_create.
  - destruct (fl_threads s !! i) as [[]|] eqn:Hi; try (by exists s, l, P). case_decide; [|by exists s, l, P]. eexists _, l, _. split; [done|]. by apply step_call_add.
  - destruct (fl_threads s !! i) as [[]|] eqn:Hi; try (by exists s, l, P). eexists _, l, P. split; [done|]. by eapply flist_inv_move.
  - destruct (fl_threads s !! i) as [pc|] eqn:Hi; [|by exists s, l, P]. by eapply fpc_step_spec.
Qed.

Lemma flist_run_spec evs : forall s l P, flist_inv s l P -> exists s' l' P', flist_run s evs = Ret s' /\ flist_inv s' l' P'.
Proof.
  induction evs as [|ev evs IH]; intros s l P I; cbn [flist_run]; [by exists s, l, P|].
  destruct (flist_step_spec s l P ev I) as (s1 & l1 & P1 & -> & I1). rewrite ret_bind. by eapply IH.
Qed.

Lemma flist_start_inv n : Z.of_nat n + 1 < SHOULD_BE_ON_FREELIST -> flist_inv (flist_start n) [] ∅.
Proof.
  intros Hn. constructor; cbn; try done; [constructor|..].
  - intros m. by rewrite !lookup_empty, !is_Some_alt.
  - intros m. rewrite lookup_empty. split; [by intros ?%elem_of_nil|done].
  - intros i pc m [-> _]%lookup_replicate_1. done.
  - intros i pc [-> _]%lookup_replicate_1. done.
  - by rewrite length_replicate.
Qed.

(** C25: Under any interleaving of fewer than 2^31 - 1 threads that add nodes they own and
    take nodes, no step follows a bad pointer and the assertion in [try_get] holds.  The
    list is a chain in which no node is twice; a node that a thread is about to return
    is on no list, with no caller, and no other thread is about to return or to add it.
    When no thread is in a call every node is on the list or with a caller, so none is
    lost, and its count has no reference left but the list's. *)
Theorem free_list_safe threads evs :
  Z.of_nat threads + 1 < SHOULD_BE_ON_FREELIST ->
  exists s l, flist_run (flist_start threads) evs = Ret s /\ fchain (fl_nodes s) (fl_head s) l /\ NoDup l /\
    (forall n, n ∈ l -> n ∉ fl_owned s) /\
    (forall i n, fl_threads s !! i = Some (FRelease n) ->
      (n ∉ l) /\ (n ∉ fl_owned s) /\ forall j pc, fl_threads s !! j = Some pc -> carried pc = Some n -> j = i) /\
    (Forall (fun pc => pc = FIdle) (fl_threads s) ->
      forall n nd, fl_nodes s !! n = Some nd -> (n ∈ l /\ fn_refs nd = 1) \/ (n ∈ fl_owned s /\ fn_refs nd = 0)).
Proof.
  intros Hb. destruct (flist_run_spec evs _ _ _ (flist_start_inv threads Hb)) as (s & l & P & E & I). exists s, l. split; [done|]. split; [apply I|]. split; [apply I|].
  split; [|split].
  - intros n H1%(fi_listed _ _ _ I) H2%(fi_owned _ _ _ I). congruence.
  - intros i n Hi. pose proof (fi_carried _ _ _ I _ _ n Hi eq_refl) as HP. destruct (carried_not_listed s l P I i n HP) as [H1 H2]. split; [done|]. split; [done|].
    intros j pc Hj Hc. pose proof (fi_carried _ _ _ I _ _ n Hj Hc). congruence.
  - intros Hidle n nd Hn. assert (held (fl_threads s) n = 0) as Hz.
    { assert (Forall (fun x => 0 <= refs_on n x <= 0) (fl_threads s)) as F by (eapply Forall_impl; [exact Hidle|]; by intros pc ->).
      pose proof (total_bounds (refs_on n) 0 0 _ F). unfold held. lia. }
    destruct (fi_places _ _ _ I n) as [_ [p HP]]; [by eexists|]. pose proof (fi_nodes _ _ _ I n nd p Hn HP) as Hok. destruct p as [| |j|]; cbn in Hok.
    + left. split; [by apply (fi_listed _ _ _ I)|lia].
    + right. split; [by apply (fi_owned _ _ _ I)|lia].
    + destruct Hok as (pc & Hj & Hc & _). eapply Forall_lookup in Hidle; [|exact Hj]. by subst pc.
    + lia.
Qed.

(** Thread 1 has a reference on node 1 when thread 0 takes the node and adds it again:
    thread 0 can only flag it, and thread 1, which finds another head, adds it. *)
Definition demo_fevents : list FEvent :=
  let go i k := replicate k (FGo i) in
  [FCreate 1; FCreate 2; FCallAdd 0 1] ++ go 0%nat 5%nat ++ [FCallGet 1] ++ go 1%nat 4%nat ++ [FCallGet 0] ++ go 0%nat 7%nat ++ [FCallAdd 0 1] ++ go 0%nat 1%nat ++ go 1%nat 6%nat.

Example demo_flagged_node_comes_back :
  match flist_run (flist_start 2) demo_fevents with
  | Ret s => (fl_head s, fn_refs <$> fl_nodes s !! 1%nat, fl_threads s, bool_decide (fl_owned s = {[2%nat]})) = (Some 1%nat, Some 1, [FIdle; FIdle], true)
  | Fault _ => False
  end.
Proof. vm_compute. reflexivity. Qed.

Lemma free_list_safe_witness :
  exists s l, flist_run (flist_start 2) demo_fevents = Ret s /\ fchain (fl_nodes s) (fl_head s) l /\ NoDup l /\
    (forall n, n ∈ l -> n ∉ fl_owned s) /\
    (forall i n, fl_threads s !! i = Some (FRelease n) ->
      (n ∉ l) /\ (n ∉ fl_owned s) /\ forall j pc, fl_threads s !! j = Some pc -> carried pc = Some n -> j = i) /\
    (Forall (fun pc => pc = FIdle) (fl_threads s) ->
      forall n nd, fl_nodes s !! n = Some nd -> (n ∈ l /\ fn_refs nd = 1) \/ (n ∈ fl_owned s /\ fn_refs nd = 0)).
Proof. apply (free_list_safe 2 demo_fevents). reflexivity. Defined.
