(* ===== verification/FreeListAlone.v ===== *)
(** * A thread that runs alone gets out of the free list

    From any state the threads can reach, a thread that is in the middle of [add] or
    [try_get] returns after a bounded number of steps of its own when the others pause
    wherever they are: nobody has to wait for another thread. *)
From S2P Require Import Prelude QueueDetails QueueBlock FreeListConc.

(** Thread [i] is out of the call after at most [k] steps. *)
Inductive returns_in (i : nat) : nat -> FList -> Prop :=
  | ri_now k s : fl_threads s !! i = Some FIdle -> returns_in i k s
  | ri_step k s s' : flist_step s (FGo i) = Ret s' -> returns_in i k s' -> returns_in i (S k) s.

Implicit Types (s : FList) (P : gmap nat Place) (l : list nat) (n i : nat).

Lemma returns_mono i k k' s : (k <= k')%nat -> returns_in i k s -> returns_in i k' s.
Proof. intros Hle H. revert k' Hle. induction H; intros [|k'] Hle; try lia; [by constructor..|]. econstructor; [done|]. apply IHreturns_in. lia. Qed.

(** The next step, and what it leaves. *)
Lemma alone_step s l P i pc k :
  flist_inv s l P -> fl_threads s !! i = Some pc -> (forall s' l' P', fpc_step s i pc = Ret s' -> flist_inv s' l' P' -> returns_in i k s') -> returns_in i (S k) s.
Proof.
  intros I Hi Hnext. destruct (fpc_step_spec s l P I i pc Hi) as (s' & l' & P' & E & I'). apply (ri_step _ _ _ s'); [cbn; by rewrite Hi|]. by eapply Hnext.
Qed.

Lemma at_pc s i pc pc' : fl_threads s !! i = Some pc -> <[i := pc']> (fl_threads s) !! i = Some pc'.
Proof. intros Hi. apply list_lookup_insert_eq. by eapply lookup_lt_Some. Qed.

(** Takes one step of thread [i], which reads a node, and goes on with the state it
    leaves. *)
Ltac alone I Hi :=
  eapply alone_step; [exact I|exact Hi|]; let E := fresh "E" in intros s' l' P' E I'; cbn [fpc_step] in E; unfold fnode in E;
  repeat match type of E with
  | (of_option _ (fl_nodes _ !! ?n) ≫= _) = _ =>
      let nd := fresh "nd" in let Hn := fresh "Hn" in
      destruct (fl_nodes _ !! n) as [nd|] eqn:Hn; cbn [of_option] in E; [rewrite ret_bind in E|discriminate E]
  end.

Ltac taken E := injection E as <-.

(** ** Taking the head of the list *)

Lemma alone_release s l P i n : flist_inv s l P -> fl_threads s !! i = Some (FRelease n) -> returns_in i 1 s.
Proof. intros I Hi. alone I Hi. taken E. constructor. by eapply at_pc. Qed.

Lemma alone_check s l P i n : flist_inv s l P -> fl_threads s !! i = Some (FCheck n) -> returns_in i 2 s.
Proof. intros I Hi. alone I Hi. case_match; [|done]. taken E. eapply alone_release; [exact I'|by eapply at_pc]. Qed.

Lemma alone_pop s l P i n h : flist_inv s l P -> fl_threads s !! i = Some (FPop n h) -> fl_head s = Some n -> returns_in i 3 s.
Proof. intros I Hi Hh. alone I Hi. rewrite decide_True in E by done. taken E. eapply alone_check; [exact I'|by eapply at_pc]. Qed.

Lemma alone_next s l P i n : flist_inv s l P -> fl_threads s !! i = Some (FNext n) -> fl_head s = Some n -> returns_in i 4 s.
Proof. intros I Hi Hh. alone I Hi. taken E. eapply alone_pop; [exact I'|by eapply at_pc|done]. Qed.

(** A node on the list can be referred to. *)
Lemma listed_refs s l P n nd : flist_inv s l P -> n ∈ l -> fl_nodes s !! n = Some nd -> Z.land (fn_refs nd) REFS_MASK <> 0 /\ fn_refs nd < SHOULD_BE_ON_FREELIST.
Proof.
  intros I Hl%(fi_listed _ _ _ I) Hn. pose proof (fi_nodes _ _ _ I n nd _ Hn Hl) as Hr. cbn in Hr. pose proof (held_small s l P I n) as Hh.
  rewrite land_refs, Z.mod_small by lia. lia.
Qed.

Lemma head_listed s l P n : flist_inv s l P -> fl_head s = Some n -> n ∈ l.
Proof. intros I Hh. destruct (fchain_head _ _ _ n (fi_chain _ _ _ I) Hh) as (next & l' & -> & _). by left. Qed.

Lemma alone_refs s l P i n : flist_inv s l P -> fl_threads s !! i = Some (FRefs n) -> fl_head s = Some n -> returns_in i 6 s.
Proof.
  intros I Hi Hh. alone I Hi. destruct (listed_refs s l P n nd I (head_listed _ _ _ _ I Hh) Hn) as [Hm _].
  destruct (Z.eqb_spec (Z.land (fn_refs nd) REFS_MASK) 0) as [|_]; [done|]. taken E. clear I. rename I' into I.
  assert (fl_threads (set_pc s i (FTake n (fn_refs nd))) !! i = Some (FTake n (fn_refs nd))) as Hi' by (by eapply at_pc).
  eapply alone_step; [exact I|exact Hi'|]. intros s2 l2 P2 E I2. cbn in E. unfold fnode in E. cbn in E. rewrite Hn in E. cbn in E. rewrite Z.eqb_refl in E. taken E.
  eapply alone_next; [exact I2|by eapply at_pc|done].
Qed.

(** The loop of [try_get] at the head of the list. *)
Lemma alone_head s l P i : flist_inv s l P -> fl_threads s !! i = Some (loop_head (fl_head s)) -> returns_in i 6 s.
Proof. intros I Hi. destruct (fl_head s) as [n|] eqn:Hh; [by eapply alone_refs|by constructor]. Qed.

Lemma alone_load s l P i : flist_inv s l P -> fl_threads s !! i = Some FLoad -> returns_in i 7 s.
Proof. intros I Hi. alone I Hi. taken E. eapply alone_head; [exact I'|by eapply at_pc]. Qed.

(** ** From a node that may not be the head any more *)

Definition on_list s n : Prop := exists l, fchain (fl_nodes s) (fl_head s) l /\ n ∈ l.

Lemma fchain_fun nodes l : forall o l', fchain nodes o l -> fchain nodes o l' -> l = l'.
Proof.
  induction l as [|n l IH]; intros o [|n' l']; cbn; [done|by intros -> (? & _)|by intros (-> & _)|].
  intros (-> & next & (nd & Hn & <-) & Hl) ([= <-] & next' & (nd' & Hn' & <-) & Hl'). replace nd' with nd in * by congruence. f_equal. by eapply IH.
Qed.

Lemma on_list_elem s l P n : flist_inv s l P -> on_list s n -> n ∈ l.
Proof. intros I (l' & Hc & Hn). by rewrite (fchain_fun _ _ _ _ (fi_chain _ _ _ I) Hc). Qed.

(** Writing a count leaves the list alone. *)
Lemma on_list_refs s i pc m nd r n : fl_nodes s !! m = Some nd -> on_list s n -> on_list (set_pc (set_fnode s m (mkFNode r (fn_next nd))) i pc) n.
Proof. intros Hm (l & Hc & Hn). exists l. split; [|done]. by apply (fchain_insert _ _ nd). Qed.

Lemma alone_back_listed s l P i n h : flist_inv s l P -> fl_threads s !! i = Some (FBack n h) -> h = fl_head s -> on_list s n -> returns_in i 7 s.
Proof.
  intros I Hi -> Hl. alone I Hi. destruct (listed_refs s l P n nd I (on_list_elem _ _ _ _ I Hl) Hn) as [_ Hr].
  rewrite (u32_small (SHOULD_BE_ON_FREELIST + 1)) in E by (unfold is_u32, UINT_MOD, SHOULD_BE_ON_FREELIST; lia).
  destruct (Z.eqb_spec (fn_refs nd) (SHOULD_BE_ON_FREELIST + 1)) as [|_]; [lia|]. taken E. eapply alone_head; [exact I'|by eapply at_pc].
Qed.

(** The loop of [try_get] at a node of the list. *)
Lemma alone_listed s l P i n : flist_inv s l P -> fl_threads s !! i = Some (FRefs n) -> on_list s n -> returns_in i 11 s.
Proof.
  intros I Hi Hl. alone I Hi. destruct (listed_refs s l P n nd I (on_list_elem _ _ _ _ I Hl) Hn) as [Hm _].
  destruct (Z.eqb_spec (Z.land (fn_refs nd) REFS_MASK) 0) as [|_]; [done|]. taken E.
  eapply alone_step; [exact I'|by eapply at_pc|]. intros s2 l2 P2 E I2. cbn in E. unfold fnode in E. cbn in E. rewrite Hn in E. cbn in E. rewrite Z.eqb_refl in E. taken E.
  match type of I2 with flist_inv ?x _ _ => set (s2 := x) in * end.
  assert (fl_threads s2 !! i = Some (FNext n)) as Hi2 by (eapply at_pc; by eapply at_pc).
  assert (on_list s2 n) as Hl2 by (apply (on_list_refs (set_pc s i (FTake n (fn_refs nd)))); done).
  clearbody s2. clear -I2 Hi2 Hl2. alone I2 Hi2. taken E. destruct (decide (fl_head s2 = Some n)) as [Hh|Hh].
  - apply (returns_mono i 3); [lia|]. eapply alone_pop; [exact I'|by eapply at_pc|done].
  - eapply alone_step; [exact I'|by eapply at_pc|]. intros s3 l3 P3 E I3. cbn [fpc_step] in E. cbn in E. rewrite decide_False in E by done. taken E.
    eapply alone_back_listed; [exact I3|eapply at_pc; by eapply at_pc|done|exact Hl2].
Qed.

(** ** Adding a node *)

(** With the head it has read still the head, a thread puts its node on the list. *)
Lemma alone_set_next_fresh k0 s l P i n h k :
  flist_inv s l P -> fl_threads s !! i = Some (FSetNext n h k) -> h = fl_head s ->
  (forall s' l' P', flist_inv s' l' P' -> fl_threads s' !! i = Some (finish k) -> (forall m, on_list s m -> on_list s' m) -> returns_in i k0 s') ->
  returns_in i (3 + k0) s.
Proof.
  intros I Hi -> Hk. destruct (carried_node s l P I i _ n Hi eq_refl) as (nd0 & Hn0 & HP & _). destruct (carried_not_listed s l P I i n HP) as [Hnl _].
  pose proof (fi_chain _ _ _ I) as Hc. alone I Hi. replace nd with nd0 in * by congruence. taken E.
  set (nd1 := mkFNode (fn_refs nd0) (fl_head s)) in *. set (s1 := set_pc (set_fnode s n nd1) i (FSetRefs n (fl_head s) k)) in *.
  assert (fl_nodes s1 !! n = Some nd1) as Hn1 by apply lookup_insert_eq.
  eapply alone_step; [exact I'|by eapply at_pc|]. intros s2 l2 P2 E I2. cbn [fpc_step] in E. unfold fnode in E. rewrite Hn1 in E. cbn [of_option] in E. rewrite ret_bind in E. taken E.
  eapply alone_step; [exact I2|eapply at_pc; by eapply at_pc|]. intros s3 l3 P3 E I3. cbn [fpc_step] in E. rewrite decide_True in E by done. taken E.
  eapply Hk; [exact I3|eapply at_pc; eapply at_pc; by eapply at_pc|]. intros m (l0 & Hc0 & Hm).
  assert (l0 = l) as -> by (by eapply fchain_fun). exists (n :: l). split; [|by right]. cbn. split; [done|]. exists (fl_head s). split.
  - exists (mkFNode 1 (fl_head s)). by rewrite lookup_insert_eq.
  - apply (fchain_insert _ _ nd1); [done|done|]. by apply (fchain_insert _ _ nd0).
Qed.

Lemma alone_know k0 s l P i n k :
  flist_inv s l P -> fl_threads s !! i = Some (FKnow n k) ->
  (forall s' l' P', flist_inv s' l' P' -> fl_threads s' !! i = Some (finish k) -> (forall m, on_list s m -> on_list s' m) -> returns_in i k0 s') ->
  returns_in i (4 + k0) s.
Proof.
  intros I Hi Hk. alone I Hi. taken E. eapply (alone_set_next_fresh k0); [exact I'|by eapply at_pc|done|exact Hk].
Qed.

(** ** Every step *)

(** A thread that has seen the head has it still to be the head when it gives its
    reference back. *)
Lemma alone_back_fresh s l P i n h : flist_inv s l P -> fl_threads s !! i = Some (FBack n h) -> h = fl_head s -> returns_in i 16 s.
Proof.
  intros I Hi ->. alone I Hi. case_match.
  - taken E. apply (alone_know 11 _ l' P' i n (FLoop (fl_head s)) I'); [by eapply at_pc|]. intros s2 l2 P2 I2 Hi2 Hl2. cbn [finish] in Hi2.
    destruct (fl_head s) as [m|] eqn:Hh; [|by constructor]. eapply alone_listed; [exact I2|exact Hi2|]. apply Hl2. apply on_list_refs; [done|].
    exists l. split; [apply I|by eapply head_listed].
  - taken E. apply (returns_mono i 6); [lia|]. eapply alone_head; [exact I'|by eapply at_pc].
Qed.

Lemma alone_pop_any s l P i n h : flist_inv s l P -> fl_threads s !! i = Some (FPop n h) -> returns_in i 17 s.
Proof.
  intros I Hi. destruct (decide (fl_head s = Some n)) as [Hh|Hh]; [apply (returns_mono i 3); [lia|by eapply alone_pop]|].
  alone I Hi. rewrite decide_False in E by done. taken E. eapply alone_back_fresh; [exact I'|by eapply at_pc|done].
Qed.

Lemma alone_next_any s l P i n : flist_inv s l P -> fl_threads s !! i = Some (FNext n) -> returns_in i 18 s.
Proof. intros I Hi. alone I Hi. taken E. eapply alone_pop_any; [exact I'|by eapply at_pc]. Qed.

Lemma alone_take_any s l P i n r : flist_inv s l P -> fl_threads s !! i = Some (FTake n r) -> returns_in i 19 s.
Proof.
  intros I Hi. alone I Hi. case_match; taken E; [eapply alone_next_any; [exact I'|by eapply at_pc]|].
  apply (returns_mono i 7); [lia|]. eapply alone_load; [exact I'|by eapply at_pc].
Qed.

Lemma alone_refs_any s l P i n : flist_inv s l P -> fl_threads s !! i = Some (FRefs n) -> returns_in i 20 s.
Proof.
  intros I Hi. alone I Hi. case_match; taken E; [|eapply alone_take_any; [exact I'|by eapply at_pc]].
  apply (returns_mono i 7); [lia|]. eapply alone_load; [exact I'|by eapply at_pc].
Qed.

Lemma alone_loop_any s l P i h : flist_inv s l P -> fl_threads s !! i = Some (loop_head h) -> returns_in i 20 s.
Proof. intros I Hi. destruct h as [n|]; [by eapply alone_refs_any|by constructor]. Qed.

Lemma alone_finish s l P i k : flist_inv s l P -> fl_threads s !! i = Some (finish k) -> returns_in i 20 s.
Proof. intros I Hi. destruct k as [|h]; [by constructor|by eapply alone_loop_any]. Qed.

Lemma alone_set_next_head s l P i n h k : flist_inv s l P -> fl_threads s !! i = Some (FSetNext n h k) -> h = fl_head s -> returns_in i 23 s.
Proof. intros I Hi Hh. eapply (alone_set_next_fresh 20); [exact I|exact Hi|done|]. intros s' l' P' I' Hi' _. by eapply alone_finish. Qed.

Lemma alone_know_any s l P i n k : flist_inv s l P -> fl_threads s !! i = Some (FKnow n k) -> returns_in i 24 s.
Proof. intros I Hi. eapply (alone_know 20); [exact I|exact Hi|]. intros s' l' P' I' Hi' _. by eapply alone_finish. Qed.

Lemma alone_retry_head s l P i n h k : flist_inv s l P -> fl_threads s !! i = Some (FRetry n h k) -> h = fl_head s -> returns_in i 24 s.
Proof.
  intros I Hi ->. alone I Hi. case_match; taken E; [eapply alone_set_next_head; [exact I'|by eapply at_pc|done]|].
  apply (returns_mono i 20); [lia|]. eapply alone_finish; [exact I'|by eapply at_pc].
Qed.

Lemma alone_link_any s l P i n h k : flist_inv s l P -> fl_threads s !! i = Some (FLink n h k) -> returns_in i 25 s.
Proof.
  intros I Hi. alone I Hi. case_decide; taken E; [|eapply alone_retry_head; [exact I'|by eapply at_pc|done]].
  apply (returns_mono i 20); [lia|]. eapply alone_finish; [exact I'|by eapply at_pc].
Qed.

Lemma alone_set_refs_any s l P i n h k : flist_inv s l P -> fl_threads s !! i = Some (FSetRefs n h k) -> returns_in i 26 s.
Proof. intros I Hi. alone I Hi. taken E. eapply alone_link_any; [exact I'|by eapply at_pc]. Qed.

Lemma alone_set_next_any s l P i n h k : flist_inv s l P -> fl_threads s !! i = Some (FSetNext n h k) -> returns_in i 27 s.
Proof. intros I Hi. alone I Hi. taken E. eapply alone_set_refs_any; [exact I'|by eapply at_pc]. Qed.

Lemma alone_any s l P i pc : flist_inv s l P -> fl_threads s !! i = Some pc -> returns_in i 28 s.
Proof.
  intros I Hi. destruct pc as [|n|n k|n h k|n h k|n h k|n h k| |n|n r|n|n h|n|n|n h].
  - by constructor.
  - apply (returns_mono i 25); [lia|]. alone I Hi. case_match; taken E; [|constructor; by eapply at_pc]. eapply alone_know_any; [exact I'|by eapply at_pc].
  - apply (returns_mono i 24); [lia|]. by eapply alone_know_any.
  - apply (returns_mono i 27); [lia|]. by eapply alone_set_next_any.
  - apply (returns_mono i 26); [lia|]. by eapply alone_set_refs_any.
  - apply (returns_mono i 25); [lia|]. by eapply alone_link_any.
  - alone I Hi. case_match; taken E; [eapply alone_set_next_any; [exact I'|by eapply at_pc]|].
    apply (returns_mono i 20); [lia|]. eapply alone_finish; [exact I'|by eapply at_pc].
  - apply (returns_mono i 7); [lia|]. by eapply alone_load.
  - apply (returns_mono i 20); [lia|]. by eapply alone_refs_any.
  - apply (returns_mono i 19); [lia|]. by eapply alone_take_any.
  - apply (returns_mono i 18); [lia|]. by eapply alone_next_any.
  - apply (returns_mono i 17); [lia|]. by eapply alone_pop_any.
  - apply (returns_mono i 2); [lia|]. by eapply alone_check.
  - apply (returns_mono i 1); [lia|]. by eapply alone_release.
  - apply (returns_mono i 25); [lia|]. alone I Hi. case_match; taken E; [eapply alone_know_any; [exact I'|by eapply at_pc]|].
    apply (returns_mono i 20); [lia|]. eapply alone_loop_any; [exact I'|by eapply at_pc].
Qed.

Lemma returns_run i k s : returns_in i k s -> exists j s', (j <= k)%nat /\ flist_run s (replicate j (FGo i)) = Ret s' /\ fl_threads s' !! i = Some FIdle.
Proof.
  induction 1 as [k s Hi|k s s' E _ (j & s2 & Hj & Er & Hi)]; [exists 0%nat, s; split; [lia|done]|].
  exists (S j), s2. split; [lia|]. cbn [replicate flist_run]. by rewrite E, ret_bind.
Qed.

(** Threads do not come or go. *)
Lemma flist_step_threads s ev s' : flist_step s ev = Ret s' -> length (fl_threads s') = length (fl_threads s).
Proof.
  intros E. destruct ev as [n|i n|i|i]; cbn [flist_step] in E.
  - case_match; by injection E as <-.
  - repeat case_match; injection E as <-; try done. cbn. by rewrite length_insert.
  - repeat case_match; injection E as <-; try done. cbn. by rewrite length_insert.
  - destruct (fl_threads s !! i) as [pc|]; [|by injection E as <-].
    destruct pc; cbn [fpc_step] in E; try (apply bind_Ret in E as (nd & _ & E)); repeat case_match; try discriminate E; injection E as <-; cbn; by rewrite ?length_insert.
Qed.

Lemma flist_run_threads evs : forall s s', flist_run s evs = Ret s' -> length (fl_threads s') = length (fl_threads s).
Proof.
  induction evs as [|ev evs IH]; intros s s' E; cbn [flist_run] in E; [by injection E as <-|]. apply bind_Ret in E as (s1 & E1 & E).
  rewrite (IH _ _ E). by eapply flist_step_threads.
Qed.

(** C26: Whatever the threads have done and wherever they are, a thread that now runs alone is
    out of [add] or [try_get] after at most 28 atomic operations. *)
Theorem free_list_returns_alone threads evs i :
  Z.of_nat threads + 1 < SHOULD_BE_ON_FREELIST -> (i < threads)%nat ->
  exists s, flist_run (flist_start threads) evs = Ret s /\
    exists k s', (k <= 28)%nat /\ flist_run s (replicate k (FGo i)) = Ret s' /\ fl_threads s' !! i = Some FIdle.
Proof.
  intros Hb Hi. destruct (flist_run_spec evs _ _ _ (flist_start_inv threads Hb)) as (s & l & P & E & I). exists s. split; [done|].
  destruct (lookup_lt_is_Some_2 (fl_threads s) i) as [pc Hpc]; [rewrite (flist_run_threads _ _ _ E); cbn; by rewrite length_replicate|].
  by eapply returns_run, alone_any.
Qed.

Lemma free_list_returns_alone_witness :
  exists s, flist_run (flist_start 2) (take 24 demo_fevents) = Ret s /\
    exists k s', (k <= 28)%nat /\ flist_run s (replicate k (FGo 1)) = Ret s' /\ fl_threads s' !! 1%nat = Some FIdle.
Proof. apply (free_list_returns_alone 2 (take 24 demo_fevents) 1); [reflexivity|lia]. Defined.
