(* ===== verification/DebugFreeList.v ===== *)
(** * The free list with a lock (concurrentqueue_internal_debug.h)

    [DebugFreeList] takes the place of the lock-free list in builds for debugging: [add] and
    [try_get] hold a mutex while they work on plain pointers.  Threads interleave between
    any two accesses.  The theorems: the list is a stack whose operations take effect one
    after the other, in the order in which the mutex is released, and nobody waits for a
    mutex that is not going to be released. *)
From S2P Require Import Prelude QueueDetails.

(** ** State *)

(** A call that is over, with its argument or its result. *)
Inductive DOp := DAdded (n : nat) | DGot (o : option nat).

(** Where a thread is: outside, or before the access named.  In [add]: *)
Inductive DPc :=
  | DIdle
  | DLockAdd (n : nat)     (** [mutex.lock()], by the constructor of [DebugLock] *)
  | DSetNext (n : nat)     (** [node->freeListNext = head] *)
  | DSetHead (n : nat)     (** [head = node] *)
  (** in [try_get]: *)
  | DLockGet               (** [mutex.lock()] *)
  | DTest                  (** [head == nullptr] *)
  | DPrev                  (** [auto prevHead = head] *)
  | DAdvance (prev : nat)  (** [head = head->freeListNext] *)
  (** and at the end of both: *)
  | DUnlock (op : DOp).    (** [mutex.unlock()], by the destructor of [DebugLock] *)

(** [dl_next] are the members [freeListNext] of the nodes, [dl_mutex] is the thread that has
    the mutex, [dl_owned] the nodes of callers, and [dl_log] the calls that are over, the
    last one first. *)
Record DList := mkDList {
  dl_head : option nat; dl_next : gmap nat (option nat); dl_mutex : option nat; dl_threads : list DPc; dl_owned : gset nat; dl_log : list DOp }.

Implicit Types (s : DList) (pc : DPc) (n i : nat) (st : list nat).

(** ** Operations *)

Definition dl_at s i pc : DList := mkDList (dl_head s) (dl_next s) (dl_mutex s) (<[i := pc]> (dl_threads s)) (dl_owned s) (dl_log s).
Definition dl_set_head s (o : option nat) : DList := mkDList o (dl_next s) (dl_mutex s) (dl_threads s) (dl_owned s) (dl_log s).
Definition dl_set_next s n (o : option nat) : DList := mkDList (dl_head s) (<[n := o]> (dl_next s)) (dl_mutex s) (dl_threads s) (dl_owned s) (dl_log s).
Definition dl_set_mutex s (o : option nat) : DList := mkDList (dl_head s) (dl_next s) o (dl_threads s) (dl_owned s) (dl_log s).
Definition dl_set_owned s (g : gset nat) : DList := mkDList (dl_head s) (dl_next s) (dl_mutex s) (dl_threads s) g (dl_log s).

(** [DebugMutex::lock] waits while another thread has the mutex. *)
Definition lock s i pc : DList := match dl_mutex s with None => dl_at (dl_set_mutex s (Some i)) i pc | Some _ => s end.

(** [DebugMutex::unlock]; the call returns, and a node that was taken is the caller's. *)
Definition unlock s i (op : DOp) : DList :=
  mkDList (dl_head s) (dl_next s) None (<[i := DIdle]> (dl_threads s))
    (match op with DGot (Some n) => {[n]} ∪ dl_owned s | _ => dl_owned s end) (op :: dl_log s).

Definition dpc_step s i pc : outcome DList :=
  match pc with
  | DIdle => Ret s
  | DLockAdd n => Ret (lock s i (DSetNext n))
  | DSetNext n => _ ← of_option BadPointer (dl_next s !! n); Ret (dl_at (dl_set_next s n (dl_head s)) i (DSetHead n))
  | DSetHead n => Ret (dl_at (dl_set_head s (Some n)) i (DUnlock (DAdded n)))
  | DLockGet => Ret (lock s i DTest)
  | DTest => Ret (dl_at s i (match dl_head s with None => DUnlock (DGot None) | Some _ => DPrev end))
  | DPrev => head ← of_option BadPointer (dl_head s); Ret (dl_at s i (DAdvance head))
  | DAdvance prev =>
      head ← of_option BadPointer (dl_head s);
      next ← of_option BadPointer (dl_next s !! head);
      Ret (dl_at (dl_set_head s next) i (DUnlock (DGot (Some prev))))
  | DUnlock op => Ret (unlock s i op)
  end.

(** A node is made; thread [i] calls [add] with a node of its own; it calls [try_get]; it
    takes a step. *)
Inductive DEvent := DCreate (n : nat) | DCallAdd (i n : nat) | DCallGet (i : nat) | DGo (i : nat).

Definition dlist_step s (ev : DEvent) : outcome DList :=
  match ev with
  | DCreate n =>
      match dl_next s !! n with
      | None => Ret (dl_set_owned (dl_set_next s n None) ({[n]} ∪ dl_owned s))
      | Some _ => Ret s
      end
  | DCallAdd i n =>
      match dl_threads s !! i with
      | Some DIdle => if decide (n ∈ dl_owned s) then Ret (dl_set_owned (dl_at s i (DLockAdd n)) (dl_owned s ∖ {[n]})) else Ret s
      | _ => Ret s
      end
  | DCallGet i => match dl_threads s !! i with Some DIdle => Ret (dl_at s i DLockGet) | _ => Ret s end
  | DGo i => match dl_threads s !! i with Some pc => dpc_step s i pc | None => Ret s end
  end.

Fixpoint dlist_run s (evs : list DEvent) : outcome DList :=
  match evs with [] => Ret s | ev :: evs => s ← dlist_step s ev; dlist_run s evs end.

(** The constructor, with [threads] threads about. *)
Definition dlist_start (threads : nat) : DList := mkDList None ∅ None (replicate threads DIdle) ∅ [].

(** The move constructor and [swap], on the heads. *)
Definition dlist_move (other : option nat) : option nat * option nat := (other, None).
Definition dlist_swap (this other : option nat) : option nat * option nat := (other, this).

(** ** The specification: a stack *)

Definition stack_op st (op : DOp) : option (list nat) :=
  match op, st with
  | DAdded n, _ => Some (n :: st)
  | DGot None, [] => Some []
  | DGot (Some n), m :: st => if decide (n = m) then Some st else None
  | _, _ => None
  end.

(** The stack after the calls of a log, if a stack answers so. *)
Fixpoint replay (log : list DOp) : option (list nat) :=
  match log with [] => Some [] | op :: log => match replay log with Some st => stack_op st op | None => None end end.

(** ** The invariant *)

Definition inside pc : bool := match pc with DIdle | DLockAdd _ | DLockGet => false | _ => true end.

(** The node a thread brings. *)
Definition brings pc : option nat := match pc with DLockAdd n | DSetNext n | DSetHead n | DUnlock (DAdded n) => Some n | _ => None end.

Fixpoint dchain (next : gmap nat (option nat)) (o : option nat) (st : list nat) : Prop :=
  match st with [] => o = None | n :: st => o = Some n /\ exists o', next !! n = Some o' /\ dchain next o' st end.

(** What is in memory when the holder of the mutex is at [pc] and the stack is [st]. *)
Definition in_memory (next : gmap nat (option nat)) (o : option nat) st pc : Prop :=
  match pc with
  | DSetHead n => dchain next o st /\ next !! n = Some o
  | DPrev => dchain next o st /\ st <> []
  | DAdvance prev => dchain next o st /\ head st = Some prev
  | DUnlock op => exists st', stack_op st op = Some st' /\ dchain next o st'
  | _ => dchain next o st
  end.

Record dlist_inv s st : Prop := mk_dlist_inv {
  di_log : replay (dl_log s) = Some st;
  di_mutex : forall i pc, dl_threads s !! i = Some pc -> inside pc = true <-> dl_mutex s = Some i;
  di_holder : forall i, dl_mutex s = Some i -> is_Some (dl_threads s !! i);
  di_memory : match dl_mutex s with None => dchain (dl_next s) (dl_head s) st | Some i => forall pc, dl_threads s !! i = Some pc -> in_memory (dl_next s) (dl_head s) st pc end;
  di_nodup : NoDup st;
  di_listed : forall n, n ∈ st -> (n ∉ dl_owned s) /\ is_Some (dl_next s !! n);
  di_owned : forall n, n ∈ dl_owned s -> is_Some (dl_next s !! n);
  di_brings : forall i pc n, dl_threads s !! i = Some pc -> brings pc = Some n ->
    (n ∉ st) /\ (n ∉ dl_owned s) /\ is_Some (dl_next s !! n) /\ forall j pc', dl_threads s !! j = Some pc' -> brings pc' = Some n -> j = i;
  di_all : forall n, is_Some (dl_next s !! n) -> n ∈ st \/ n ∈ dl_owned s \/ exists i pc, dl_threads s !! i = Some pc /\ brings pc = Some n }.

Lemma dchain_insert next n o' o st : n ∉ st -> dchain next o st -> dchain (<[n := o']> next) o st.
Proof.
  revert o. induction st as [|m st IH]; intros o Hn; [done|]. rewrite not_elem_of_cons in Hn. intros (-> & p & Hp & Hl). split; [done|]. exists p.
  rewrite lookup_insert_ne by naive_solver. split; [done|]. apply IH; tauto.
Qed.

Lemma dchain_cons next o st : dchain next o st -> st <> [] -> exists n st' o', st = n :: st' /\ o = Some n /\ next !! n = Some o' /\ dchain next o' st'.
Proof. destruct st as [|n st]; [done|]. intros (-> & o' & H1 & H2) _. by exists n, st, o'. Qed.

Ltac thread_cases := match goal with H : <[_ := _]> _ !! _ = Some _ |- _ => apply list_lookup_insert_Some in H as [(? & ? & _)|(? & H)]; subst end.

(** *** Steps *)

Section Steps.
Variables (s : DList) (st : list nat).
Hypothesis I : dlist_inv s st.

(** A thread that has the mutex, or takes it, goes on; it may write to memory. *)
Lemma dlist_inv_hold i pc pc' o' next' :
  dl_threads s !! i = Some pc -> (dl_mutex s = None \/ dl_mutex s = Some i) -> inside pc' = true -> brings pc' = brings pc ->
  (forall n, is_Some (next' !! n) <-> is_Some (dl_next s !! n)) -> in_memory next' o' st pc' ->
  dlist_inv (mkDList o' next' (Some i) (<[i := pc']> (dl_threads s)) (dl_owned s) (dl_log s)) st.
Proof.
  intros Hi Hm Hin Hb Hdom Hmem. pose proof I as [Hl Hmu Hh Hme Hnd Hli Ho Hbr Hall]. constructor; cbn; try done.
  - intros j x Hj. thread_cases; [done|]. rewrite (Hmu _ _ Hj). destruct Hm as [->| ->]; split; congruence.
  - intros j [= <-]. eexists. apply list_lookup_insert_eq. by eapply lookup_lt_Some.
  - intros x Hx. by thread_cases.
  - intros n Hn. rewrite Hdom. by apply Hli.
  - intros n Hn. rewrite Hdom. by apply Ho.
  - intros j x n Hj Hx. assert (exists y, dl_threads s !! j = Some y /\ brings y = Some n) as (y & Hy & Hy').
    { thread_cases; [exists pc; split; congruence|by exists x]. }
    destruct (Hbr _ _ _ Hy Hy') as (H1 & H2 & H3 & H4). rewrite Hdom. repeat (split; [done|]). intros k z Hk Hz. thread_cases; [|by eapply H4].
    eapply H4; [exact Hi|congruence].
  - intros n Hn. rewrite Hdom in Hn. destruct (Hall n Hn) as [?|[?|(j & x & Hj & Hx)]]; [auto..|]. right. right. destruct (decide (j = i)) as [->|Hne].
    + exists i, pc'. rewrite list_lookup_insert_eq by (by eapply lookup_lt_Some). split; [done|congruence].
    + exists j, x. by rewrite list_lookup_insert_ne.
Qed.

Lemma memory_of i pc : dl_threads s !! i = Some pc -> inside pc = true -> dl_mutex s = Some i /\ in_memory (dl_next s) (dl_head s) st pc.
Proof. intros Hi Hin. pose proof (di_memory _ _ I) as Hme. apply (di_mutex _ _ I _ _ Hi) in Hin as Hm. rewrite Hm in Hme. auto. Qed.

Lemma lock_inv i pc pc' : dl_threads s !! i = Some pc -> inside pc = false -> inside pc' = true -> brings pc' = brings pc ->
  (dchain (dl_next s) (dl_head s) st -> in_memory (dl_next s) (dl_head s) st pc') -> dlist_inv (lock s i pc') st.
Proof.
  intros Hi Ho Hin Hb Hme. unfold lock. destruct (dl_mutex s) eqn:Em; [done|]. unfold dl_at, dl_set_mutex. cbn. eapply dlist_inv_hold; [exact Hi|by left|done|done|done|].
  apply Hme. pose proof (di_memory _ _ I) as H. by rewrite Em in H.
Qed.

Lemma unlock_inv i op : dl_threads s !! i = Some (DUnlock op) -> exists st', dlist_inv (unlock s i op) st'.
Proof.
  intros Hi. destruct (memory_of i _ Hi eq_refl) as (Hm & st' & Hop & Hc). pose proof I as [Hl Hmu Hh Hme Hnd Hli Ho Hbr Hall]. exists st'.
  assert (forall n, n ∈ st' -> n ∈ st \/ brings (DUnlock op) = Some n) as Hnew.
  { intros n Hn. destruct op as [m|[m|]], st as [|x st0]; cbn in Hop; simplify_eq; try case_decide; simplify_eq; try (by left); set_solver. }
  assert (NoDup st') as Hnd'.
  { destruct op as [m|[m|]]; cbn in Hop; [injection Hop as <-; constructor; [by destruct (Hbr _ _ m Hi eq_refl)|done]|..];
      destruct st as [|x st0]; try done; try case_decide; simplify_eq; [by apply NoDup_cons in Hnd as [_ ?]|done]. }
  constructor; cbn; try done.
  - by rewrite Hl.
  - intros j x Hj. thread_cases; [done|]. rewrite (Hmu _ _ Hj), Hm. split; congruence.
  - intros n Hn. destruct (Hnew n Hn) as [Hs|Hb].
    + destruct (Hli n Hs) as [H1 H2]. split; [|done]. destruct op as [m|[m|]]; try done. rewrite elem_of_union, elem_of_singleton. intros [->|?]; [|done].
      destruct st as [|x st0]; cbn in Hop; [done|]. case_decide; simplify_eq. by apply NoDup_cons in Hnd as [? _].
    + destruct (Hbr _ _ n Hi Hb) as (_ & H1 & H2 & _). split; [|done]. by destruct op as [m|[m|]].
  - intros n Hn. destruct op as [m|[m|]]; [by apply Ho| |by apply Ho]. apply elem_of_union in Hn as [->%elem_of_singleton|]; [|by apply Ho].
    destruct st as [|x st0]; cbn in Hop; [done|]. case_decide; simplify_eq. apply Hli. by left.
  - intros j x n Hj Hx. thread_cases; [done|]. destruct (Hbr _ _ _ Hj Hx) as (H1 & H2 & H3 & H4).
    split; [intros [?|Hb]%Hnew; [done|]; pose proof (H4 _ _ Hi Hb); congruence|]. split; [|split; [done|]].
    + destruct op as [m|[m|]]; try done. rewrite elem_of_union, elem_of_singleton. intros [->|?]; [|done]. apply H1.
      destruct st as [|x' st0]; cbn in Hop; [done|]. case_decide; simplify_eq. by left.
    + intros k y Hk Hy. thread_cases; [done|]. by eapply H4.
  - intros n Hn. destruct (Hall n Hn) as [Hs|[Hs|(j & x & Hj & Hx)]].
    + destruct op as [m|[m|]], st as [|x st0]; cbn in Hop; simplify_eq; try case_decide; simplify_eq; set_solver.
    + right. left. destruct op as [m|[m|]]; set_solver.
    + destruct (decide (j = i)) as [->|Hne]; [|right; right; exists j, x; by rewrite list_lookup_insert_ne].
      rewrite Hi in Hj. injection Hj as <-. destruct op as [m|[m|]]; cbn in Hx; simplify_eq. cbn in Hop. injection Hop as <-. left. by left.
Qed.

Lemma dpc_step_spec i pc : dl_threads s !! i = Some pc -> exists s' st', dpc_step s i pc = Ret s' /\ dlist_inv s' st'.
Proof.
  intros Hi.
  assert (forall (P : Prop), (inside pc = true -> dl_mutex s = Some i -> in_memory (dl_next s) (dl_head s) st pc -> P) -> inside pc = true -> P) as Hold.
  { intros P HP Hin. destruct (memory_of i pc Hi Hin). auto. }
  destruct pc as [|n|n|n| | | |prev|op]; cbn [dpc_step].
  - by exists s, st.
  - eexists _, st. split; [done|]. by eapply lock_inv.
  - apply Hold; [|done]. intros _ Hm Hc. destruct (di_brings _ _ I _ _ n Hi eq_refl) as (Hn & _ & [o Ho] & _). rewrite Ho. cbn [of_option]. rewrite ret_bind. eexists _, st.
    split; [done|]. unfold dl_at, dl_set_next. cbn. rewrite Hm. eapply dlist_inv_hold; [exact Hi|by right|done|done| |].
    + intros m. rewrite lookup_insert. case_decide; subst; [|done]. rewrite Ho. split; by eexists.
    + split; [by apply dchain_insert|]. apply lookup_insert_eq.
  - apply Hold; [|done]. intros _ Hm [Hc Hn]. eexists _, st. split; [done|]. unfold dl_at, dl_set_head. cbn. rewrite Hm. eapply dlist_inv_hold; [exact Hi|by right|done|done|done|].
    exists (n :: st). split; [done|]. split; [done|]. by eexists.
  - eexists _, st. split; [done|]. by eapply lock_inv.
  - apply Hold; [|done]. intros _ Hm Hc. eexists _, st. split; [done|]. unfold dl_at. rewrite Hm. eapply dlist_inv_hold; [exact Hi|by right|by destruct (dl_head s)..|done|].
    cbn in Hc. destruct st as [|x st0]; [cbn in Hc; rewrite Hc; by exists []|]. destruct Hc as (E & Hx). rewrite E. split; [|done]. by rewrite <- E in *.
  - apply Hold; [|done]. intros _ Hm [Hc Hne]. destruct (dchain_cons _ _ _ Hc Hne) as (x & st0 & o & Est & E & _ & _). rewrite E. cbn [of_option]. rewrite ret_bind.
    eexists _, st. split; [done|]. unfold dl_at. rewrite Hm. eapply dlist_inv_hold; [exact Hi|by right|done|done|done|]. split; [done|]. by rewrite Est.
  - apply Hold; [|done]. intros _ Hm [Hc Hp]. destruct (dchain_cons _ _ _ Hc) as (x & st0 & o & Est & E & Ho & Hc'); [by intros E; rewrite E in Hp|].
    rewrite E. cbn [of_option]. rewrite ret_bind, Ho. cbn [of_option]. rewrite ret_bind. eexists _, st. split; [done|].
    unfold dl_at, dl_set_head. cbn. rewrite Hm. eapply dlist_inv_hold; [exact Hi|by right|done|done|done|]. exists st0. split; [|done].
    rewrite Est in Hp |- *. injection Hp as ->. cbn. by rewrite decide_True.
  - destruct (unlock_inv i op Hi) as [st' I']. by exists (unlock s i op), st'.
Qed.
End Steps.

Lemma call_add_inv s st i n : dlist_inv s st -> dl_threads s !! i = Some DIdle -> n ∈ dl_owned s ->
  dlist_inv (dl_set_owned (dl_at s i (DLockAdd n)) (dl_owned s ∖ {[n]})) st.
Proof.
  intros [Hl Hmu Hh Hme Hnd Hli Ho Hbr Hall] Hi Hn. assert (dl_mutex s <> Some i) as Hm by (rewrite <- (Hmu _ _ Hi); done). constructor; cbn; try done.
  - intros j x Hj. thread_cases; [by split|by apply Hmu].
  - intros j Hj. rewrite list_lookup_insert_ne by congruence. by apply Hh.
  - destruct (dl_mutex s) as [j|]; [|done]. intros x Hj. rewrite list_lookup_insert_ne in Hj by congruence. by apply Hme.
  - intros m Hm'. destruct (Hli m Hm'). split; [set_solver|done].
  - intros m Hm'. apply Ho. set_solver.
  - intros j x m Hj Hx. thread_cases.
    + injection Hx as <-. split; [by intros [? _]%Hli|]. split; [set_solver|]. split; [by apply Ho|]. intros k y Hk Hy. thread_cases; [done|].
      by destruct (Hbr _ _ _ Hk Hy) as (_ & ? & _).
    + destruct (Hbr _ _ _ Hj Hx) as (H1 & H2 & H3 & H4). split; [done|]. split; [set_solver|]. split; [done|]. intros k y Hk Hy. thread_cases; [|by eapply H4].
      injection Hy as <-. done.
  - intros m Hm'. destruct (Hall m Hm') as [?|[?|(j & x & Hj & Hx)]]; [auto|..].
    + destruct (decide (m = n)) as [->|]; [|set_solver]. right. right. exists i, (DLockAdd n). by rewrite list_lookup_insert_eq by (by eapply lookup_lt_Some).
    + right. right. exists j, x. rewrite list_lookup_insert_ne; [done|]. intros <-. by rewrite Hi in Hj; injection Hj as <-.
Qed.

Lemma call_get_inv s st i : dlist_inv s st -> dl_threads s !! i = Some DIdle -> dlist_inv (dl_at s i DLockGet) st.
Proof.
  intros [Hl Hmu Hh Hme Hnd Hli Ho Hbr Hall] Hi. assert (dl_mutex s <> Some i) as Hm by (rewrite <- (Hmu _ _ Hi); done). constructor; cbn; try done.
  - intros j x Hj. thread_cases; [by split|by apply Hmu].
  - intros j Hj. rewrite list_lookup_insert_ne by congruence. by apply Hh.
  - destruct (dl_mutex s) as [j|]; [|done]. intros x Hj. rewrite list_lookup_insert_ne in Hj by congruence. by apply Hme.
  - intros j x m Hj Hx. thread_cases; [done|]. destruct (Hbr _ _ _ Hj Hx) as (H1 & H2 & H3 & H4). repeat (split; [done|]). intros k y Hk Hy. thread_cases; [done|by eapply H4].
  - intros m Hm'. destruct (Hall m Hm') as [?|[?|(j & x & Hj & Hx)]]; [auto..|]. right. right. exists j, x. rewrite list_lookup_insert_ne; [done|]. intros <-.
    by rewrite Hi in Hj; injection Hj as <-.
Qed.

Lemma create_inv s st n : dlist_inv s st -> dl_next s !! n = None -> dlist_inv (dl_set_owned (dl_set_next s n None) ({[n]} ∪ dl_owned s)) st.
Proof.
  intros [Hl Hmu Hh Hme Hnd Hli Ho Hbr Hall] Hn.
  assert (n ∉ st) as Hns by (intros [_ [? ?]]%Hli; congruence).
  assert (forall m, is_Some (dl_next s !! m) -> is_Some (<[n := None]> (dl_next s) !! m)) as Hd by (intros m Hm; rewrite lookup_insert; case_decide; [by eexists|done]).
  constructor; cbn; try done.
  - destruct (dl_mutex s) as [j|]; [|by apply dchain_insert]. intros pc Hj. specialize (Hme pc Hj). destruct pc as [|m|m|m| | | |prev|op]; cbn in *; try (by apply dchain_insert).
    + destruct Hme as [H1 H2]. split; [by apply dchain_insert|]. rewrite lookup_insert_ne; [done|congruence].
    + destruct Hme as [H1 H2]. split; [by apply dchain_insert|done].
    + destruct Hme as [H1 H2]. split; [by apply dchain_insert|done].
    + destruct Hme as (st' & H1 & H2). exists st'. split; [done|]. apply dchain_insert; [|done]. intros Hn'. destruct op as [m|[m|]]; cbn in H1.
      * injection H1 as <-. apply elem_of_cons in Hn' as [->|?]; [|done]. destruct (Hbr _ _ m Hj eq_refl) as (_ & _ & [? ?] & _). congruence.
      * destruct st as [|x st0]; [done|]. case_decide; simplify_eq. apply Hns. by right.
      * destruct st as [|x st0]; [|done]. injection H1 as <-. done.
  - intros m Hm. destruct (Hli m Hm). split; [set_solver|auto].
  - intros m [->%elem_of_singleton|Hm]%elem_of_union; [|auto]. rewrite lookup_insert_eq. by eexists.
  - intros i pc m Hi Hx. destruct (Hbr _ _ _ Hi Hx) as (H1 & H2 & H3 & H4). split; [done|]. split; [|auto]. destruct H3 as [? ?]. set_solver.
  - intros m. rewrite lookup_insert. case_decide; subst; [set_solver|]. intros Hm. destruct (Hall m Hm) as [?|[?|?]]; [auto|set_solver|auto].
Qed.

Lemma dlist_step_spec s st ev : dlist_inv s st -> exists s' st', dlist_step s ev = Ret s' /\ dlist_inv s' st'.
Proof.
  intros I. destruct ev as [n|i n|i|i]; cbn [dlist_step].
  - destruct (dl_next s !! n) eqn:Hn; [by exists s, st|]. eexists _, st. split; [done|by apply create_inv].
  - destruct (dl_threads s !! i) as [[]|] eqn:Hi; try (by exists s, st). case_decide; [|by exists s, st]. eexists _, st. split; [done|by apply call_add_inv].
  - destruct (dl_threads s !! i) as [[]|] eqn:Hi; try (by exists s, st). eexists _, st. split; [done|by apply call_get_inv].
  - destruct (dl_threads s !! i) as [pc|] eqn:Hi; [by eapply dpc_step_spec|by exists s, st].
Qed.

Lemma dlist_run_spec evs : forall s st, dlist_inv s st -> exists s' st', dlist_run s evs = Ret s' /\ dlist_inv s' st'.
Proof.
  induction evs as [|ev evs IH]; intros s st I; cbn [dlist_run]; [by exists s, st|].
  destruct (dlist_step_spec s st ev I) as (s1 & st1 & -> & I1). rewrite ret_bind. by eapply IH.
Qed.

Lemma dlist_start_inv threads : dlist_inv (dlist_start threads) [].
Proof.
  constructor; cbn; try done; [|constructor|..].
  - by intros i pc [-> _]%lookup_replicate_1.
  - by intros n ?%elem_of_nil.
  - by intros i pc n [-> _]%lookup_replicate_1.
  - intros n [? ?]. by rewrite lookup_empty in *.
Qed.

(** *** Progress *)

(** The steps until the holder of the mutex has released it. *)
Definition steps_inside pc : nat :=
  match pc with DIdle | DLockAdd _ | DLockGet => 0 | DSetNext _ | DPrev => 3 | DSetHead _ | DAdvance _ => 2 | DUnlock _ => 1 | DTest => 4 end.

Lemma inside_step s st i pc : dlist_inv s st -> dl_threads s !! i = Some pc -> inside pc = true -> exists s' st', dlist_step s (DGo i) = Ret s' /\ dlist_inv s' st' /\
  (length (dl_log s') = S (length (dl_log s)) \/
   (dl_log s' = dl_log s /\ exists pc', dl_threads s' !! i = Some pc' /\ inside pc' = true /\ (steps_inside pc' < steps_inside pc)%nat)).
Proof.
  intros I Hi Hin. destruct (dpc_step_spec s st I i pc Hi) as (s' & st' & E & I'). exists s', st'. cbn [dlist_step]. rewrite Hi. split; [done|]. split; [done|].
  assert (forall pc', <[i := pc']> (dl_threads s) !! i = Some pc') as At by (intros pc'; apply list_lookup_insert_eq; by eapply lookup_lt_Some).
  destruct pc as [|n|n|n| | | |prev|op]; try done; cbn [dpc_step] in E;
    repeat match goal with H : (_ ≫= _) = Ret _ |- _ => apply bind_Ret in H as (? & _ & ?) end; simplify_eq; cbn;
    first [by left | right; split; [done|]; eexists; split; [apply At|]; try done; by destruct (dl_head s); split; cbn; try lia | idtac].
  all: right; split; [done|]; eexists; (split; [apply At|]); cbn; split; [done|lia].
Qed.

Lemma holder_finishes k : forall s st i pc, dlist_inv s st -> dl_threads s !! i = Some pc -> inside pc = true -> (steps_inside pc <= k)%nat ->
  exists m s', (m <= k)%nat /\ dlist_run s (replicate m (DGo i)) = Ret s' /\ length (dl_log s') = S (length (dl_log s)).
Proof.
  induction k as [|k IH]; intros s st i pc I Hi Hin Hk; [by destruct pc; cbn in *; try lia|].
  destruct (inside_step s st i pc I Hi Hin) as (s1 & st1 & E & I1 & [Hl|(El & pc1 & Hi1 & Hin1 & Hlt)]).
  - exists 1%nat, s1. split; [lia|]. split; [|done]. cbn [replicate dlist_run]. by rewrite E, ret_bind.
  - destruct (IH s1 st1 i pc1 I1 Hi1 Hin1) as (m & s' & Hm & Er & Hl); [lia|]. exists (S m), s'. split; [lia|]. split; [|congruence]. cbn [replicate dlist_run].
    by rewrite E, ret_bind.
Qed.

(** Some call is over after at most five steps of one thread. *)
Lemma somebody_finishes s st i pc : dlist_inv s st -> dl_threads s !! i = Some pc -> pc <> DIdle ->
  exists j m s', (m <= 5)%nat /\ dlist_run s (replicate m (DGo j)) = Ret s' /\ length (dl_log s') = S (length (dl_log s)).
Proof.
  intros I Hi Hne. assert (forall pc, (steps_inside pc <= 4)%nat) as Hb by (intros []; cbn; lia). destruct (dl_mutex s) as [j|] eqn:Em.
  - destruct (di_holder _ _ I j Em) as [pc' Hj]. destruct (holder_finishes 4 s st j pc' I Hj) as (m & s' & Hm & H); [by apply (di_mutex _ _ I _ _ Hj)|done|].
    exists j, m, s'. split; [lia|done].
  - assert (exists pc', dpc_step s i pc = Ret (lock s i pc') /\ inside pc' = true /\ brings pc' = brings pc /\ inside pc = false /\
      (dchain (dl_next s) (dl_head s) st -> in_memory (dl_next s) (dl_head s) st pc')) as (pc' & E & H1 & H2 & H3 & H4).
    { assert (inside pc = false) as Ho by (apply not_true_iff_false; rewrite (di_mutex _ _ I _ _ Hi); congruence). destruct pc; try done; by eexists. }
    pose proof (lock_inv s st I i pc pc' Hi H3 H1 H2 H4) as I'. assert (dl_threads (lock s i pc') !! i = Some pc') as Hi'.
    { unfold lock. rewrite Em. apply list_lookup_insert_eq. by eapply lookup_lt_Some. }
    destruct (holder_finishes 4 _ st i pc' I' Hi' H1 (Hb _)) as (m & s' & Hm & Er & Hl). exists i, (S m), s'. split; [lia|]. cbn [replicate dlist_run dlist_step].
    rewrite Hi, E, ret_bind. split; [done|]. rewrite Hl. unfold lock. by rewrite Em.
Qed.

(** C29: Under any interleaving no step follows a bad pointer, and no two threads are between
    [lock] and [unlock].  The calls that are over have answered, in the order in which they
    released the mutex, as a stack does; while the mutex is free the list in memory is that
    stack, in which no node is twice or also with a caller.  When no thread is in a call
    every node is on the stack or with a caller.  As long as some thread is in a call, one
    of the threads, left to run for at most five steps, brings a call to its end. *)
Theorem debug_free_list_is_stack threads evs :
  exists s st, dlist_run (dlist_start threads) evs = Ret s /\ replay (dl_log s) = Some st /\
    (forall i j pc pc', dl_threads s !! i = Some pc -> dl_threads s !! j = Some pc' -> inside pc = true -> inside pc' = true -> i = j) /\
    (dl_mutex s = None -> dchain (dl_next s) (dl_head s) st) /\ NoDup st /\ (forall n, n ∈ st -> n ∉ dl_owned s) /\
    (Forall (fun pc => pc = DIdle) (dl_threads s) -> forall n, is_Some (dl_next s !! n) -> n ∈ st \/ n ∈ dl_owned s) /\
    (forall i pc, dl_threads s !! i = Some pc -> pc <> DIdle ->
      exists j m s', (m <= 5)%nat /\ dlist_run s (replicate m (DGo j)) = Ret s' /\ length (dl_log s') = S (length (dl_log s))).
Proof.
  destruct (dlist_run_spec evs _ _ (dlist_start_inv threads)) as (s & st & E & I). exists s, st. split; [done|]. split; [apply I|]. split; [|split; [|split; [apply I|split; [|split]]]].
  - intros i j pc pc' Hi Hj H1%(di_mutex _ _ I _ _ Hi) H2%(di_mutex _ _ I _ _ Hj). congruence.
  - intros Hm. pose proof (di_memory _ _ I) as H. by rewrite Hm in H.
  - intros n Hn. by destruct (di_listed _ _ I n Hn).
  - intros Hidle n Hn. destruct (di_all _ _ I n Hn) as [?|[?|(i & pc & Hi & Hx)]]; [auto..|]. eapply Forall_lookup in Hidle; [|exact Hi]. by subst pc.
  - intros i pc Hi Hne. by eapply somebody_finishes.
Qed.

(** Thread 1 waits for the mutex while thread 0 adds a node, and then takes it. *)
Example demo_debug_list :
  let evs := [DCreate 7; DCallAdd 0 7; DGo 0; DCallGet 1; DGo 1; DGo 0; DGo 1; DGo 0; DGo 0; DGo 1; DGo 1; DGo 1; DGo 1; DGo 1]%nat in
  match dlist_run (dlist_start 2) evs with
  | Ret s => (dl_log s, dl_head s, dl_threads s, bool_decide (dl_owned s = {[7%nat]})) = ([DGot (Some 7%nat); DAdded 7], None, [DIdle; DIdle], true)
  | Fault _ => False
  end.
Proof. vm_compute. reflexivity. Qed.
