(* ===== verification/ProducerListConc.v ===== *)
(** * The list of producers under contention (concurrentqueue.h)

    Any number of threads ask for producers and give them back; every atomic operation of
    [recycle_or_create_producer] and [add_producer] is a step.  The theorems: no producer
    is given to two callers, the list is a chain that has every producer once and never
    loses one, and a caller gets a producer of the kind it asked for. *)
From S2P Require Import Prelude QueueDetails.

(** ** State *)

(** [isExplicit], [next] and [inactive] *)
Record LProd := mkLProd { lp_explicit : bool; lp_next : option nat; lp_inactive : bool }.

(** Where a thread is: outside, or before the operation named, with the kind it has asked
    for.  In [recycle_or_create_producer]: *)
Inductive PPc :=
  | PIdle
  | PLoad (e : bool)                                  (** [producerListTail.load()] *)
  | PTest (e : bool) (ptr : nat)                      (** [ptr->inactive.load()] and the kind *)
  | PCatch (e : bool) (ptr : nat)                     (** the exchange of [inactive] *)
  | PNext (e : bool) (ptr : nat)                      (** [ptr->next_prod()] *)
  | PCreate (e : bool)                                (** [create<...>(this)] *)
  (** in [add_producer]: *)
  | PCount (e : bool) (n : nat)                       (** [producerCount.fetch_add(1)] *)
  | PTail (e : bool) (n : nat)                        (** [producerListTail.load()] *)
  | PSetNext (e : bool) (n : nat) (prev : option nat) (** [producer->next = prevTail] *)
  | PLink (e : bool) (n : nat) (prev : option nat).   (** the exchange of [producerListTail] *)

(** A producer is known by its position in [pl_prods].  [pl_held] lists what callers have
    been given and have not given back, with the kind they asked for. *)
Record PList := mkPList {
  pl_tail : option nat; pl_prods : list LProd; pl_count : Z; pl_threads : list PPc; pl_held : list (bool * nat) }.

Implicit Types (s : PList) (p : LProd) (pc : PPc) (n i : nat) (e : bool).

(** ** Operations *)

Definition pl_set_pc s i pc : PList := mkPList (pl_tail s) (pl_prods s) (pl_count s) (<[i := pc]> (pl_threads s)) (pl_held s).
Definition pl_set_prod s n p : PList := mkPList (pl_tail s) (<[n := p]> (pl_prods s)) (pl_count s) (pl_threads s) (pl_held s).
Definition pl_set_tail s (o : option nat) : PList := mkPList o (pl_prods s) (pl_count s) (pl_threads s) (pl_held s).
Definition pl_set_count s (c : Z) : PList := mkPList (pl_tail s) (pl_prods s) c (pl_threads s) (pl_held s).
Definition pl_set_held s (h : list (bool * nat)) : PList := mkPList (pl_tail s) (pl_prods s) (pl_count s) (pl_threads s) h.
Definition pl_prod s n : outcome LProd := of_option BadPointer (pl_prods s !! n).

(** [ptr != nullptr], or the end of the loop *)
Definition walk_to (e : bool) (ptr : option nat) : PPc := match ptr with None => PCreate e | Some n => PTest e n end.

(** Thread [i] returns producer [n]. *)
Definition give s i (e : bool) n : PList := pl_set_held (pl_set_pc s i PIdle) ((e, n) :: pl_held s).

(** The next operation of thread [i], which is at [pc].  [ok] says whether [malloc]
    succeeds, and whether [compare_exchange_weak] does not fail without reason. *)
Definition ppc_step s i pc (ok : bool) : outcome PList :=
  match pc with
  | PIdle => Ret s
  | PLoad e => Ret (pl_set_pc s i (walk_to e (pl_tail s)))
  | PTest e ptr => p ← pl_prod s ptr; Ret (pl_set_pc s i (if lp_inactive p && Bool.eqb (lp_explicit p) e then PCatch e ptr else PNext e ptr))
  | PCatch e ptr =>
      p ← pl_prod s ptr;
      if lp_inactive p then Ret (give (pl_set_prod s ptr (mkLProd (lp_explicit p) (lp_next p) false)) i e ptr)
      else Ret (pl_set_pc s i (PNext e ptr))
  | PNext e ptr => p ← pl_prod s ptr; Ret (pl_set_pc s i (walk_to e (lp_next p)))
  | PCreate e =>
      if ok then
        Ret (mkPList (pl_tail s) (pl_prods s ++ [mkLProd e None false]) (pl_count s) (<[i := PCount e (length (pl_prods s))]> (pl_threads s)) (pl_held s))
      else Ret (pl_set_pc s i PIdle)
  | PCount e n => Ret (pl_set_pc (pl_set_count s (pl_count s +u 1)) i (PTail e n))
  | PTail e n => Ret (pl_set_pc s i (PSetNext e n (pl_tail s)))
  | PSetNext e n prev => p ← pl_prod s n; Ret (pl_set_pc (pl_set_prod s n (mkLProd (lp_explicit p) prev (lp_inactive p))) i (PLink e n prev))
  | PLink e n prev =>
      if ok && bool_decide (pl_tail s = prev) then Ret (give (pl_set_tail s (Some n)) i e n)
      else Ret (pl_set_pc s i (PSetNext e n (pl_tail s)))
  end.

(** [inactive.store(true)], by the destructor of a token or when a thread ends *)
Definition release s (e : bool) n : outcome PList :=
  p ← pl_prod s n;
  Ret (pl_set_held (pl_set_prod s n (mkLProd (lp_explicit p) (lp_next p) true)) (filter (fun x => x <> (e, n)) (pl_held s))).

(** Thread [i] asks for a producer; it takes a step; a caller gives its producer back. *)
Inductive PEvent := PCall (i : nat) (e : bool) | PGo (i : nat) (ok : bool) | PRelease (e : bool) (n : nat).

Definition plist_step s (ev : PEvent) : outcome PList :=
  match ev with
  | PCall i e => match pl_threads s !! i with Some PIdle => Ret (pl_set_pc s i (PLoad e)) | _ => Ret s end
  | PGo i ok => match pl_threads s !! i with Some pc => ppc_step s i pc ok | None => Ret s end
  | PRelease e n => if decide ((e, n) ∈ pl_held s) then release s e n else Ret s
  end.

Fixpoint plist_run s (evs : list PEvent) : outcome PList :=
  match evs with [] => Ret s | ev :: evs => s ← plist_step s ev; plist_run s evs end.

(** No producer, and [threads] threads. *)
Definition plist_start (threads : nat) : PList := mkPList None [] 0 (replicate threads PIdle) [].

(** ** The invariant *)

(** The producer a thread has made and not linked yet. *)
Definition linking pc : option nat := match pc with PCount _ n | PTail _ n | PSetNext _ n _ | PLink _ n _ => Some n | _ => None end.

(** A producer that is made and not counted yet. *)
Definition uncounted pc : Z := match pc with PCount _ _ => 1 | _ => 0 end.

Definition kind_is (prods : list LProd) n e : Prop := exists p, prods !! n = Some p /\ lp_explicit p = e.

Fixpoint pchain (prods : list LProd) (o : option nat) (l : list nat) : Prop :=
  match l with [] => o = None | n :: l => o = Some n /\ exists p, prods !! n = Some p /\ pchain prods (lp_next p) l end.

(** A walk is at producers of the list; the link of the producer to add is what the
    exchange expects. *)
Definition ppc_ok (prods : list LProd) (l : list nat) pc : Prop :=
  match pc with
  | PIdle | PLoad _ | PCreate _ => True
  | PTest _ n | PNext _ n => n ∈ l
  | PCatch e n => n ∈ l /\ kind_is prods n e
  | PCount e n | PTail e n | PSetNext e n _ => kind_is prods n e
  | PLink e n prev => exists p, prods !! n = Some p /\ lp_explicit p = e /\ lp_next p = prev
  end.

Record plist_inv s (l : list nat) : Prop := mk_plist_inv {
  pi_chain : pchain (pl_prods s) (pl_tail s) l;
  pi_nodup : NoDup l;
  pi_linking : forall i pc n, pl_threads s !! i = Some pc -> linking pc = Some n ->
    (n ∉ l) /\ (n < length (pl_prods s))%nat /\ forall j pc', pl_threads s !! j = Some pc' -> linking pc' = Some n -> j = i;
  pi_all : forall n, (n < length (pl_prods s))%nat -> n ∈ l \/ exists i pc, pl_threads s !! i = Some pc /\ linking pc = Some n;
  pi_pcs : forall i pc, pl_threads s !! i = Some pc -> ppc_ok (pl_prods s) l pc;
  pi_inactive : forall n p, pl_prods s !! n = Some p -> lp_inactive p = true <-> n ∈ l /\ n ∉ (pl_held s).*2;
  pi_held : NoDup (pl_held s).*2;
  pi_kinds : forall e n, (e, n) ∈ pl_held s -> n ∈ l /\ kind_is (pl_prods s) n e;
  pi_count : pl_count s = u32 (Z.of_nat (length (pl_prods s)) - total uncounted (pl_threads s)) }.

(** *** Chains *)

Lemma pchain_next prods o l n p : pchain prods o l -> n ∈ l -> prods !! n = Some p -> exists l', pchain prods (lp_next p) l' /\ (length l' < length l)%nat /\ l' ⊆ l.
Proof.
  revert o. induction l as [|m l IH]; intros o; [by intros _ ?%elem_of_nil|]. intros (-> & q & Hq & Hl) [->|Hin]%elem_of_cons Hn.
  - exists l. replace q with p in * by congruence. split; [done|]. split; [cbn; lia|]. set_solver.
  - destruct (IH _ Hl Hin Hn) as (l' & H1 & H2 & H3). exists l'. split; [done|]. split; [cbn; lia|set_solver].
Qed.

Lemma pchain_head prods o l n : pchain prods o l -> o = Some n -> n ∈ l.
Proof. destruct l as [|m l]; [by intros -> |]. intros (-> & _) [= ->]. by left. Qed.

Lemma pchain_present prods o l n : pchain prods o l -> n ∈ l -> is_Some (prods !! n).
Proof. revert o. induction l as [|m l IH]; intros o; [by intros _ ?%elem_of_nil|]. intros (-> & q & Hq & Hl) [->|Hin]%elem_of_cons; [by eexists|by eapply IH]. Qed.

(** The links of the list are all that matters. *)
Lemma pchain_same prods prods' o l :
  (forall n p, n ∈ l -> prods !! n = Some p -> exists p', prods' !! n = Some p' /\ lp_next p' = lp_next p) -> pchain prods o l -> pchain prods' o l.
Proof.
  revert o. induction l as [|m l IH]; intros o Hs; [done|]. intros (-> & q & Hq & Hl). split; [done|]. destruct (Hs m q) as (q' & Hq' & E); [by left|done|].
  exists q'. split; [done|]. rewrite E. apply IH; [|done]. intros n p Hn. apply Hs. by right.
Qed.

(** *** Steps *)

(** What threads know stays true when no kind and no link of theirs changes. *)
Lemma ppc_ok_same prods prods' l l' pc :
  l ⊆ l' -> (forall n p, prods !! n = Some p -> exists p', prods' !! n = Some p' /\ lp_explicit p' = lp_explicit p /\ (linking pc = Some n -> lp_next p' = lp_next p)) ->
  ppc_ok prods l pc -> ppc_ok prods' l' pc.
Proof.
  intros Hl Hp. assert (forall n e, kind_is prods n e -> kind_is prods' n e) as Hk.
  { intros n e (p & Hn & <-). destruct (Hp n p Hn) as (p' & Hn' & E & _). by exists p'. }
  destruct pc as [|?|? n|? n|? n|?|? n|? n|? n ?|? n ?]; cbn; try done; try (by apply Hl); try apply Hk.
  - intros [H1 H2]. split; [by apply Hl|by apply Hk].
  - intros (p & Hn & <- & <-). destruct (Hp n p Hn) as (p' & Hn' & E1 & E2). exists p'. split; [done|]. split; [done|]. by apply E2.
Qed.

(** A step of thread [i], which may link the producer it has made or make one. *)
Lemma plist_inv_step s l i pc pc' tail' prods' count' held' l' :
  plist_inv s l -> pl_threads s !! i = Some pc ->
  pchain prods' tail' l' -> NoDup l' -> l ⊆ l' -> (forall n, n ∈ l' -> n ∈ l \/ linking pc = Some n) ->
  (forall n p, pl_prods s !! n = Some p -> exists p', prods' !! n = Some p' /\ lp_explicit p' = lp_explicit p /\ (linking pc <> Some n -> lp_next p' = lp_next p)) ->
  (forall n, (n < length prods')%nat -> n ∈ l' \/ linking pc' = Some n \/ ((n < length (pl_prods s))%nat /\ linking pc <> Some n)) ->
  (forall n, linking pc' = Some n -> (n ∉ l') /\ (n < length prods')%nat /\ (linking pc = Some n \/ (length (pl_prods s) <= n)%nat)) ->
  ppc_ok prods' l' pc' ->
  (forall n p, prods' !! n = Some p -> lp_inactive p = true <-> n ∈ l' /\ n ∉ held'.*2) -> NoDup held'.*2 ->
  (forall e n, (e, n) ∈ held' -> n ∈ l' /\ kind_is prods' n e) ->
  count' = u32 (Z.of_nat (length prods') - (total uncounted (pl_threads s) - uncounted pc + uncounted pc')) ->
  plist_inv (mkPList tail' prods' count' (<[i := pc']> (pl_threads s)) held') l'.
Proof.
  intros [Hc Hnd Hln Hall Hpcs Hin Hh Hk Hcnt] Hi Hc' Hnd' Hsub Hnew Hpr Hall' Hln' Hok Hin' Hh' Hk' Hcnt'.
  assert (length (pl_prods s) <= length prods')%nat as Hlen.
  { destruct (decide (length (pl_prods s) = 0)%nat) as [->|Hne]; [lia|]. destruct (lookup_lt_is_Some_2 (pl_prods s) (length (pl_prods s) - 1)) as [p Hp]; [lia|].
    destruct (Hpr _ _ Hp) as (p' & Hp' & _). apply lookup_lt_Some in Hp'. lia. }
  constructor; cbn; try done.
  - intros j x n [(-> & -> & _)|(Hne & Hj)]%list_lookup_insert_Some Hx.
    + destruct (Hln' n Hx) as (H1 & H2 & H3). split; [done|]. split; [done|]. intros k y [(-> & _)|(Hne & Hk0)]%list_lookup_insert_Some Hy; [done|].
      destruct (Hln _ _ _ Hk0 Hy) as (_ & Hlt & Hu). destruct H3 as [H3|H3]; [|lia]. symmetry. by eapply Hu.
    + destruct (Hln _ _ _ Hj Hx) as (H1 & H2 & H3). split; [|split; [lia|]].
      * intros [H|H]%Hnew; [done|]. apply Hne. by eapply H3.
      * intros k y [(-> & -> & _)|(Hne' & Hk0)]%list_lookup_insert_Some Hy; [|by eapply H3]. destruct (Hln' n Hy) as (_ & _ & [H|H]); [by eapply H3|lia].
  - intros n Hn. destruct (Hall' n Hn) as [?|[?|[Hlt Hno]]]; [by left|right; exists i, pc'; rewrite list_lookup_insert_eq by (by eapply lookup_lt_Some); done|].
    destruct (Hall n Hlt) as [?|(j & x & Hj & Hx)]; [left; by apply Hsub|]. right. exists j, x. rewrite list_lookup_insert_ne; [done|]. intros <-. congruence.
  - intros j x [(-> & -> & _)|(Hne & Hj)]%list_lookup_insert_Some; [done|]. eapply ppc_ok_same; [exact Hsub| |by eapply Hpcs].
    intros n p Hn. destruct (Hpr n p Hn) as (p' & H1 & H2 & H3). exists p'. split; [done|]. split; [done|]. intros Hx. apply H3. intros Hx'.
    destruct (Hln _ _ _ Hj Hx) as (_ & _ & Hu). apply Hne. by eapply Hu.
  - by rewrite (total_insert _ _ _ _ _ Hi).
Qed.

Section Steps.
Variables (s : PList) (l : list nat).
Hypothesis I : plist_inv s l.

(** Nothing is written but where the thread is. *)
Lemma plist_inv_move i pc pc' :
  pl_threads s !! i = Some pc -> linking pc' = linking pc -> uncounted pc' = uncounted pc -> ppc_ok (pl_prods s) l pc' -> plist_inv (pl_set_pc s i pc') l.
Proof.
  intros Hi El Eu Hok. pose proof I as [Hc Hnd Hln Hall Hpcs Hin Hh Hk Hcnt]. eapply (plist_inv_step s l); try done.
  - by left.
  - intros n p Hn. by exists p.
  - intros n Hn. rewrite El. destruct (decide (linking pc = Some n)); [by right; left|]. by right; right.
  - intros n. rewrite El. intros Hn. destruct (Hln _ _ _ Hi Hn) as (H1 & H2 & _). auto.
  - rewrite Hcnt, Eu. apply (f_equal u32). cbn [uncounted]. lia.
Qed.

Lemma walk_to_ok e (o : option nat) : (forall n, o = Some n -> n ∈ l) -> ppc_ok (pl_prods s) l (walk_to e o).
Proof. destruct o as [n|]; [intros H; by apply H|done]. Qed.

Lemma listed n : n ∈ l -> exists p, pl_prods s !! n = Some p.
Proof. apply (pchain_present _ _ _ _ (pi_chain _ _ I)). Qed.

Lemma step_next i e n p : pl_threads s !! i = Some (PNext e n) -> n ∈ l -> pl_prods s !! n = Some p -> plist_inv (pl_set_pc s i (walk_to e (lp_next p))) l.
Proof.
  intros Hi Hn Hp. eapply plist_inv_move; [exact Hi|by destruct (lp_next p)..|]. apply walk_to_ok. intros m Hm.
  destruct (pchain_next _ _ _ _ _ (pi_chain _ _ I) Hn Hp) as (l' & Hl' & _ & Hsub). apply Hsub. by eapply pchain_head.
Qed.

(** A change of [inactive] at a producer of the list. *)
Lemma insert_inactive n p b m q : pl_prods s !! n = Some p -> pl_prods s !! m = Some q ->
  exists q', <[n := mkLProd (lp_explicit p) (lp_next p) b]> (pl_prods s) !! m = Some q' /\ lp_explicit q' = lp_explicit q /\ lp_next q' = lp_next q.
Proof.
  intros Hn Hm. destruct (decide (m = n)) as [->|Hne].
  - eexists. rewrite list_lookup_insert_eq by (by eapply lookup_lt_Some). split; [done|]. replace q with p by congruence. done.
  - exists q. by rewrite list_lookup_insert_ne.
Qed.

Lemma chain_inactive n p b : pl_prods s !! n = Some p -> pchain (<[n := mkLProd (lp_explicit p) (lp_next p) b]> (pl_prods s)) (pl_tail s) l.
Proof. intros Hn. eapply pchain_same; [|apply I]. intros m q _ Hm. destruct (insert_inactive n p b m q Hn Hm) as (q' & H1 & _ & H2). by exists q'. Qed.

Lemma kind_inactive n p b m e : pl_prods s !! n = Some p -> kind_is (pl_prods s) m e -> kind_is (<[n := mkLProd (lp_explicit p) (lp_next p) b]> (pl_prods s)) m e.
Proof. intros Hn (q & Hm & <-). destruct (insert_inactive n p b m q Hn Hm) as (q' & H1 & H2 & _). by exists q'. Qed.

Lemma step_catch i e n p : pl_threads s !! i = Some (PCatch e n) -> n ∈ l -> kind_is (pl_prods s) n e -> pl_prods s !! n = Some p -> lp_inactive p = true ->
  plist_inv (give (pl_set_prod s n (mkLProd (lp_explicit p) (lp_next p) false)) i e n) l.
Proof.
  intros Hi Hn He Hp Hact. pose proof I as [Hc Hnd Hln Hall Hpcs Hin Hh Hk Hcnt]. destruct (proj1 (Hin n p Hp) Hact) as [_ Hfree].
  eapply (plist_inv_step s l); cbn; try done; [by apply chain_inactive|by left|..].
  - intros m q Hm. destruct (insert_inactive n p false m q Hp Hm) as (q' & H1 & H2 & H3). by exists q'.
  - intros m. rewrite length_insert. intros Hm. right. right. done.
  - intros m q [(-> & <- & _)|(Hne & Hm)]%list_lookup_insert_Some; cbn.
    + split; [done|]. intros [_ H]. exfalso. apply H. by left.
    + rewrite (Hin m q Hm), not_elem_of_cons. naive_solver.
  - constructor; done.
  - intros e' m [[= -> ->]|Hm]%elem_of_cons; [split; [done|by apply kind_inactive]|]. destruct (Hk _ _ Hm). split; [done|by apply kind_inactive].
  - rewrite length_insert, Hcnt. apply (f_equal u32). cbn [uncounted]. lia.
Qed.

Lemma step_write_next i e n prev p : pl_threads s !! i = Some (PSetNext e n prev) -> pl_prods s !! n = Some p ->
  plist_inv (pl_set_pc (pl_set_prod s n (mkLProd (lp_explicit p) prev (lp_inactive p))) i (PLink e n prev)) l.
Proof.
  intros Hi Hp. pose proof I as [Hc Hnd Hln Hall Hpcs Hin Hh Hk Hcnt]. destruct (Hln _ _ _ Hi eq_refl) as (Hnl & Hlt & _).
  assert (forall m q, pl_prods s !! m = Some q -> exists q', <[n := mkLProd (lp_explicit p) prev (lp_inactive p)]> (pl_prods s) !! m = Some q' /\
    lp_explicit q' = lp_explicit q /\ (Some n <> Some m -> lp_next q' = lp_next q)) as Hsame.
  { intros m q Hm. destruct (decide (m = n)) as [->|Hne]; [|exists q; by rewrite list_lookup_insert_ne].
    eexists. rewrite list_lookup_insert_eq by done. split; [done|]. replace q with p by congruence. done. }
  eapply (plist_inv_step s l); cbn; try done.
  - eapply pchain_same; [|exact Hc]. intros m q Hm Hq. destruct (Hsame m q Hq) as (q' & H1 & _ & H2). exists q'. split; [done|]. apply H2. congruence.
  - by left.
  - intros m. rewrite length_insert. intros Hm. destruct (decide (m = n)) as [->|]; [by right; left|]. right. right. split; [done|cbn; congruence].
  - intros m [= <-]. rewrite length_insert. auto.
  - destruct (Hpcs _ _ Hi) as (q & Hq & <-). eexists. rewrite list_lookup_insert_eq by done. split; [done|]. cbn. split; congruence.
  - intros m q [(-> & <- & _)|(Hne & Hm)]%list_lookup_insert_Some; cbn; by apply Hin.
  - intros e' m Hm. destruct (Hk _ _ Hm) as (H1 & q & Hq & <-). split; [done|]. destruct (Hsame m q Hq) as (q' & H2 & H3 & _). by exists q'.
  - rewrite length_insert, Hcnt. apply (f_equal u32). cbn [uncounted]. lia.
Qed.

Lemma step_link_producer i e n : pl_threads s !! i = Some (PLink e n (pl_tail s)) -> plist_inv (give (pl_set_tail s (Some n)) i e n) (n :: l).
Proof.
  intros Hi. pose proof I as [Hc Hnd Hln Hall Hpcs Hin Hh Hk Hcnt]. destruct (Hln _ _ _ Hi eq_refl) as (Hnl & Hlt & _). destruct (Hpcs _ _ Hi) as (q & Hq & <- & Ex).
  assert (n ∉ (pl_held s).*2) as Hnh. { intros ([e m] & -> & Hm)%list_elem_of_fmap. by destruct (Hk _ _ Hm). }
  eapply (plist_inv_step s l); cbn; try done.
  - split; [done|]. exists q. by rewrite Ex.
  - by constructor.
  - intros m Hm. by right.
  - intros m [->|Hm]%elem_of_cons; auto.
  - intros m x Hm. by exists x.
  - intros m Hm. destruct (decide (m = n)) as [->|]; [left; by left|]. right. right. split; [done|cbn; congruence].
  - intros m x Hm. rewrite (Hin m x Hm), elem_of_cons, not_elem_of_cons. split; [intros [? ?]; split; [by right|split; congruence]|].
    intros [[->|?] [? ?]]; done.
  - by constructor.
  - intros e' m [[= -> ->]|Hm]%elem_of_cons; [split; [by left|by exists q]|]. destruct (Hk _ _ Hm). split; [by right|done].
  - rewrite Hcnt. apply (f_equal u32). cbn [uncounted]. lia.
Qed.

Lemma step_make_producer i e : pl_threads s !! i = Some (PCreate e) ->
  plist_inv (mkPList (pl_tail s) (pl_prods s ++ [mkLProd e None false]) (pl_count s) (<[i := PCount e (length (pl_prods s))]> (pl_threads s)) (pl_held s)) l.
Proof.
  intros Hi. pose proof I as [Hc Hnd Hln Hall Hpcs Hin Hh Hk Hcnt].
  assert (length (pl_prods s) ∉ l) as Hno. { intros [p Hp%lookup_lt_Some]%listed. lia. }
  assert (forall m q, pl_prods s !! m = Some q -> (pl_prods s ++ [mkLProd e None false]) !! m = Some q) as Happ by (intros m q Hm; by apply lookup_app_l_Some).
  assert ((pl_prods s ++ [mkLProd e None false]) !! length (pl_prods s) = Some (mkLProd e None false)) as Hlast by (by apply list_lookup_middle).
  eapply (plist_inv_step s l); cbn; try done.
  - eapply pchain_same; [|exact Hc]. intros m q _ Hm. exists q. auto.
  - by left.
  - intros m q Hm. exists q. auto.
  - intros m. rewrite length_app. cbn. intros Hm. destruct (decide (m = length (pl_prods s))) as [->|]; [by right; left|]. right. right. split; [lia|done].
  - intros m [= <-]. rewrite length_app. cbn. split; [done|]. split; [lia|]. by right.
  - by eexists.
  - intros m q [Hm|[Hm Hq]]%lookup_app_Some; [by apply Hin|]. apply list_lookup_singleton_Some in Hq as [Hz <-]. cbn. split; [done|]. intros [Hl _].
    replace m with (length (pl_prods s)) in Hl by lia. done.
  - intros e' m Hm. destruct (Hk _ _ Hm) as (H1 & q & Hq & Eq). split; [done|]. exists q. auto.
  - rewrite length_app, Hcnt. cbn. apply (f_equal u32). cbn [uncounted]. lia.
Qed.

Lemma step_count i e n : pl_threads s !! i = Some (PCount e n) -> plist_inv (pl_set_pc (pl_set_count s (pl_count s +u 1)) i (PTail e n)) l.
Proof.
  intros Hi. pose proof I as [Hc Hnd Hln Hall Hpcs Hin Hh Hk Hcnt]. destruct (Hln _ _ _ Hi eq_refl) as (Hnl & Hlt & _). eapply (plist_inv_step s l); cbn; try done.
  - by left.
  - intros m q Hm. by exists q.
  - intros m Hm. destruct (decide (m = n)) as [->|]; [by right; left|]. right. right. split; [done|cbn; congruence].
  - intros m [= <-]. auto.
  - by apply (Hpcs _ _ Hi).
  - rewrite Hcnt. unfold u32. rewrite Zplus_mod_idemp_l. apply (f_equal u32). cbn [uncounted]. lia.
Qed.

Lemma step_give_back e n : (e, n) ∈ pl_held s -> exists s', release s e n = Ret s' /\ plist_inv s' l.
Proof.
  intros Hm. pose proof I as [Hc Hnd Hln Hall Hpcs Hin Hh Hk Hcnt]. destruct (Hk _ _ Hm) as [Hl (p & Hp & Ee)]. unfold release, pl_prod. rewrite Hp. cbn [of_option].
  rewrite ret_bind. eexists. split; [done|].
  assert (forall x, x ∈ (filter (fun x => x <> (e, n)) (pl_held s)).*2 <-> x ∈ (pl_held s).*2 /\ x <> n) as Hf.
  { intros x. rewrite !list_elem_of_fmap. setoid_rewrite list_elem_of_filter. split.
    - intros ([e' m] & -> & Hne & Hx). split; [by exists (e', m)|]. cbn. intros ->. apply Hne. destruct (Hk _ _ Hx) as [_ (q & Hq & <-)]. congruence.
    - intros [([e' m] & -> & Hx) Hne]. exists (e', m). split; [done|]. split; [|done]. intros [= -> ->]. done. }
  constructor; cbn; try done.
  - by apply chain_inactive.
  - intros i pc m Hi Hx. rewrite length_insert. by eapply Hln.
  - intros m. rewrite length_insert. apply Hall.
  - intros i pc Hi. eapply ppc_ok_same; [done| |by eapply Hpcs]. intros m q Hq. destruct (insert_inactive n p true m q Hp Hq) as (q' & H1 & H2 & H3). by exists q'.
  - intros m q [(-> & <- & _)|(Hne & Hq)]%list_lookup_insert_Some; cbn; rewrite Hf; [tauto|]. rewrite (Hin m q Hq). assert (m <> n) by congruence. tauto.
  - eapply sublist_NoDup; [exact Hh|]. apply fmap_sublist, sublist_filter.
  - intros e' m [_ Hx]%list_elem_of_filter. destruct (Hk _ _ Hx). split; [done|by apply kind_inactive].
  - rewrite length_insert. done.
Qed.
End Steps.

Lemma ppc_step_spec s l i pc ok : plist_inv s l -> pl_threads s !! i = Some pc -> exists s' l', ppc_step s i pc ok = Ret s' /\ plist_inv s' l' /\ l `suffix_of` l'.
Proof.
  intros I Hi. pose proof (pi_pcs _ _ I _ _ Hi) as Hok.
  assert (forall s', plist_inv s' l -> exists s'' l', Ret s' = Ret s'' /\ plist_inv s'' l' /\ l `suffix_of` l') as Hsame by (intros s' I'; by exists s', l).
  destruct pc as [|e|e n|e n|e n|e|e n|e n|e n prev|e n prev]; cbn [ppc_step ppc_ok] in *; unfold pl_prod.
  - by apply Hsame.
  - apply Hsame. eapply plist_inv_move; [done|exact Hi|by destruct (pl_tail s)..|]. apply walk_to_ok. intros n Hn. eapply pchain_head; [apply I|done].
  - destruct (listed _ _ I _ Hok) as [p Hp]. rewrite Hp. cbn [of_option]. rewrite ret_bind. apply Hsame.
    destruct (lp_inactive p && Bool.eqb (lp_explicit p) e) eqn:E; (eapply plist_inv_move; [done|exact Hi|done..|]); [|done].
    apply andb_true_iff in E as [_ E%Bool.eqb_prop]. split; [done|by exists p].
  - destruct Hok as [Hl Hk]. destruct (listed _ _ I _ Hl) as [p Hp]. rewrite Hp. cbn [of_option]. rewrite ret_bind.
    destruct (lp_inactive p) eqn:E; apply Hsame; [by apply step_catch|by eapply plist_inv_move].
  - destruct (listed _ _ I _ Hok) as [p Hp]. rewrite Hp. cbn [of_option]. rewrite ret_bind. apply Hsame. by apply step_next with n.
  - destruct ok; apply Hsame; [by apply step_make_producer|by eapply plist_inv_move].
  - apply Hsame. by apply step_count.
  - apply Hsame. by eapply plist_inv_move.
  - destruct Hok as (p & Hp & _). rewrite Hp. cbn [of_option]. rewrite ret_bind. apply Hsame. by apply step_write_next.
  - destruct (ok && bool_decide (pl_tail s = prev)) eqn:E.
    + apply andb_true_iff in E as [_ E%bool_decide_eq_true]. subst prev. eexists _, (n :: l). split; [done|]. split; [by apply step_link_producer|]. by exists [n].
    + apply Hsame. destruct Hok as (p & Hp & He & _). eapply plist_inv_move; [done|exact Hi|done..|]. by exists p.
Qed.

Lemma plist_step_spec s l ev : plist_inv s l -> exists s' l', plist_step s ev = Ret s' /\ plist_inv s' l' /\ l `suffix_of` l'.
Proof.
  intros I. destruct ev as [i e|i ok|e n]; cbn [plist_step].
  - destruct (pl_threads s !! i) as [[]|] eqn:Hi; try (by exists s, l). eexists _, l. split; [done|]. split; [by eapply plist_inv_move|done].
  - destruct (pl_threads s !! i) as [pc|] eqn:Hi; [|by exists s, l]. by apply ppc_step_spec.
  - case_decide as Hm; [|by exists s, l]. destruct (step_give_back s l I e n Hm) as (s' & E & I'). by exists s', l.
Qed.

Lemma plist_run_spec evs : forall s l, plist_inv s l -> exists s' l', plist_run s evs = Ret s' /\ plist_inv s' l' /\ l `suffix_of` l'.
Proof.
  induction evs as [|ev evs IH]; intros s l I; cbn [plist_run]; [by exists s, l|].
  destruct (plist_step_spec s l ev I) as (s1 & l1 & -> & I1 & H1). rewrite ret_bind. destruct (IH s1 l1 I1) as (s2 & l2 & E & I2 & H2). exists s2, l2. split; [done|].
  split; [done|]. by etrans.
Qed.

Lemma plist_start_inv threads : plist_inv (plist_start threads) [].
Proof.
  constructor; cbn; try done; try (by constructor).
  - by intros i pc n [-> _]%lookup_replicate_1.
  - intros n. lia.
  - by intros i pc [-> _]%lookup_replicate_1.
  - by intros e n ?%elem_of_nil.
  - assert (total uncounted (replicate threads PIdle) = 0) as -> by (by induction threads). done.
Qed.

(** C27: Under any interleaving of threads that ask for producers and give them back, with
    [malloc] failing and [compare_exchange_weak] failing at any time, no step follows a bad
    pointer.  Nobody is given a producer that another caller has; the producers of callers
    are on the list, active, and of the kind that was asked for, and a producer on the list
    is inactive, to be had again, exactly when no caller has it.  The list is a chain
    without a producer twice, and the only producers off it are being linked.  When no
    thread is in a call it has all of them, and [producerCount] is their number. *)
Theorem producers_given_once threads evs :
  exists s l, plist_run (plist_start threads) evs = Ret s /\ pchain (pl_prods s) (pl_tail s) l /\ NoDup l /\ NoDup (pl_held s).*2 /\
    (forall e n, (e, n) ∈ pl_held s -> n ∈ l /\ exists p, pl_prods s !! n = Some p /\ lp_explicit p = e /\ lp_inactive p = false) /\
    (forall n p, n ∈ l -> pl_prods s !! n = Some p -> lp_inactive p = true <-> n ∉ (pl_held s).*2) /\
    (forall i j pc pc' n, pl_threads s !! i = Some pc -> linking pc = Some n -> (n ∉ l) /\ (pl_threads s !! j = Some pc' -> linking pc' = Some n -> j = i)) /\
    (Forall (fun pc => pc = PIdle) (pl_threads s) -> l ≡ₚ seq 0 (length (pl_prods s)) /\ pl_count s = u32 (Z.of_nat (length l))).
Proof.
  destruct (plist_run_spec evs _ _ (plist_start_inv threads)) as (s & l & E & I & _). pose proof I as [Hc Hnd Hln Hall Hpcs Hin Hh Hk Hcnt].
  exists s, l. split; [done|]. split; [done|]. split; [done|]. split; [done|]. split; [|split; [|split]].
  - intros e n Hm. destruct (Hk _ _ Hm) as (H1 & p & Hp & H2). split; [done|]. exists p. split; [done|]. split; [done|]. apply not_true_iff_false.
    rewrite (Hin n p Hp). intros [_ H]. apply H. apply list_elem_of_fmap. by exists (e, n).
  - intros n p Hl Hp. rewrite (Hin n p Hp). tauto.
  - intros i j pc pc' n Hi Hx. destruct (Hln _ _ _ Hi Hx) as (H1 & _ & H2). split; [done|]. apply H2.
  - intros Hidle. assert (l ≡ₚ seq 0 (length (pl_prods s))) as Hp.
    { apply NoDup_Permutation; [done|apply NoDup_seq|]. intros n. rewrite elem_of_seq. split.
      - intros Hn. destruct (listed _ _ I _ Hn) as [p Hp%lookup_lt_Some]. lia.
      - intros [_ Hn]. destruct (Hall n) as [?|(i & pc & Hi & Hx)]; [lia|done|]. eapply Forall_lookup in Hidle; [|exact Hi]. by subst pc. }
    split; [done|]. rewrite Hp, length_seq, Hcnt.
    assert (Forall (fun x => 0 <= uncounted x <= 0) (pl_threads s)) as F by (eapply Forall_impl; [exact Hidle|]; by intros pc ->).
    pose proof (total_bounds uncounted 0 0 _ F). apply (f_equal u32). lia.
Qed.

(** Two threads race for the producer that a third caller has given back: one gets it and
    the other makes a new one. *)
Definition demo_pevents : list PEvent :=
  let go i k := replicate k (PGo i true) in
  [PCall 0 true] ++ go 0%nat 6%nat ++ [PRelease true 0; PCall 0 true; PCall 1 true] ++ go 0%nat 2%nat ++ go 1%nat 3%nat ++ go 0%nat 7%nat.

Example demo_race_for_a_producer :
  match plist_run (plist_start 2) demo_pevents with
  | Ret s => (pl_held s, pl_tail s, pl_count s, pl_threads s) = ([(true, 1%nat); (true, 0%nat)], Some 1%nat, 2, [PIdle; PIdle])
  | Fault _ => False
  end.
Proof. vm_compute. reflexivity. Qed.
