(* ===== verification/ProducerListAlone.v ===== *)
(** * Asking for a producer terminates

    The search for an inactive producer is wait free: it ends after a number of steps of
    the thread itself, whatever the other threads do.  The whole call is obstruction free:
    a thread that runs alone gets its producer after a bounded number of steps. *)
From S2P Require Import Prelude QueueDetails ProducerListConc.

Implicit Types (s : PList) (pc : PPc) (n i : nat) (e : bool) (l suf : list nat).

(** ** The search *)

(** The producer the search is at, and the steps until it has passed it. *)
Definition searching pc : option (nat * nat) := match pc with PTest _ n => Some (n, 3) | PCatch _ n => Some (n, 2) | PNext _ n => Some (n, 1) | _ => None end%nat.

Definition searches s i : bool := match pl_threads s !! i with Some pc => bool_decide (is_Some (searching pc)) | None => false end.

(** The steps of thread [i] in a sequence. *)
Fixpoint own_steps i (evs : list PEvent) : nat :=
  match evs with [] => O | PGo j _ :: evs => if decide (j = i) then S (own_steps i evs) else own_steps i evs | _ :: evs => own_steps i evs end.

Lemma pchain_suffix prods o l n : pchain prods o l -> n ∈ l -> exists suf, pchain prods (Some n) (n :: suf) /\ n :: suf ⊆ l /\ (length (n :: suf) <= length l)%nat.
Proof.
  revert o. induction l as [|m l IH]; intros o; [by intros _ ?%elem_of_nil|]. intros (-> & p & Hp & Hl) [->|Hn]%elem_of_cons.
  - exists l. split; [|done]. split; [done|]. by exists p.
  - destruct (IH _ Hl Hn) as (suf & H1 & H2 & H3). exists suf. split; [done|]. split; [set_solver|cbn in *; lia].
Qed.

Lemma pchain_fun prods l : forall o l', pchain prods o l -> pchain prods o l' -> l = l'.
Proof.
  induction l as [|n l IH]; intros o [|n' l']; cbn; [done|by intros -> (? & _)|by intros (-> & _)|].
  intros (-> & p & Hp & Hl) ([= <-] & p' & Hp' & Hl'). replace p' with p in * by congruence. f_equal. by eapply IH.
Qed.

(** A step leaves the links of the list alone. *)
Lemma step_keeps_links s l ev s' n p :
  plist_inv s l -> plist_step s ev = Ret s' -> n ∈ l -> pl_prods s !! n = Some p -> exists p', pl_prods s' !! n = Some p' /\ lp_next p' = lp_next p.
Proof.
  intros I E Hl Hn.
  assert (forall s0 m q q', pl_prods s0 = <[m := q']> (pl_prods s) -> pl_prods s !! m = Some q -> (m = n -> lp_next q' = lp_next q) ->
    exists p', pl_prods s0 !! n = Some p' /\ lp_next p' = lp_next p) as Hins.
  { intros s0 m q q' -> Hm Hx. destruct (decide (m = n)) as [->|]; [|exists p; by rewrite list_lookup_insert_ne].
    exists q'. rewrite list_lookup_insert_eq by (by eapply lookup_lt_Some). split; [done|]. rewrite Hx by done. congruence. }
  destruct ev as [i e|i ok|e m]; cbn [plist_step] in E.
  - destruct (pl_threads s !! i) as [[]|]; injection E as <-; by exists p.
  - destruct (pl_threads s !! i) as [pc|] eqn:Hi; [|injection E as <-; by exists p].
    destruct pc as [|e|e m|e m|e m|e|e m|e m|e m prev|e m prev]; cbn [ppc_step] in E; try (injection E as <-; by exists p).
    + apply bind_Ret in E as (q & _ & E). injection E as <-. by exists p.
    + apply bind_Ret in E as (q & Hq & E). unfold pl_prod in Hq. destruct (pl_prods s !! m) as [q'|] eqn:Hm; [|done]. injection Hq as ->.
      destruct (lp_inactive q); injection E as <-; [|by exists p]. by eapply Hins.
    + apply bind_Ret in E as (q & _ & E). injection E as <-. by exists p.
    + destruct ok; injection E as <-; [|by exists p]. exists p. cbn. split; [by apply lookup_app_l_Some|done].
    + apply bind_Ret in E as (q & Hq & E). unfold pl_prod in Hq. destruct (pl_prods s !! m) as [q'|] eqn:Hm; [|done]. injection Hq as ->. injection E as <-.
      eapply Hins; [done|exact Hm|]. intros ->. by destruct (pi_linking _ _ I _ _ _ Hi eq_refl) as [? _].
    + case_match; injection E as <-; by exists p.
  - case_decide; [|injection E as <-; by exists p]. unfold release in E. apply bind_Ret in E as (q & Hq & E). unfold pl_prod in Hq.
    destruct (pl_prods s !! m) as [q'|] eqn:Hm; [|done]. injection Hq as ->. injection E as <-. by eapply Hins.
Qed.

(** A step of another thread leaves thread [i] where it is. *)
Lemma step_other s ev s' i pc : plist_step s ev = Ret s' -> pl_threads s !! i = Some pc -> searching pc <> None -> (forall ok, ev <> PGo i ok) -> pl_threads s' !! i = Some pc.
Proof.
  intros E Hi Hs Hev.
  assert (forall j pc', j <> i -> <[j := pc']> (pl_threads s) !! i = Some pc) as Hne by (intros j pc' Hj; by rewrite list_lookup_insert_ne).
  destruct ev as [j e|j ok|e m]; cbn [plist_step] in E.
  - destruct (decide (j = i)) as [->|Hj]; [rewrite Hi in E; destruct pc; try done; by injection E as <-|].
    destruct (pl_threads s !! j) as [[]|]; injection E as <-; try done. by apply Hne.
  - assert (j <> i) as Hj by (intros ->; by eapply Hev).
    destruct (pl_threads s !! j) as [pc'|]; [|by injection E as <-]. destruct pc'; cbn [ppc_step] in E;
      repeat match goal with H : (_ ≫= _) = Ret _ |- _ => apply bind_Ret in H as (? & _ & ?) end;
      repeat case_match; simplify_eq; cbn; auto.
  - case_decide; [|by injection E as <-]. unfold release in E. apply bind_Ret in E as (q & _ & E). by injection E as <-.
Qed.

(** One step of the search: it is over, or it has come nearer to the end. *)
Lemma search_step s l i ok s' n c suf pc :
  plist_inv s l -> pl_threads s !! i = Some pc -> searching pc = Some (n, c) -> pchain (pl_prods s) (Some n) (n :: suf) -> plist_step s (PGo i ok) = Ret s' ->
  searches s' i = false \/ exists n' c' suf' pc', pl_threads s' !! i = Some pc' /\ searching pc' = Some (n', c') /\ pchain (pl_prods s') (Some n') (n' :: suf') /\
    (c' + 3 * length suf' < c + 3 * length suf)%nat.
Proof.
  intros I Hi Hs Hc E. destruct Hc as (_ & p & Hp & Hl). cbn [plist_step] in E. rewrite Hi in E.
  assert (forall pc', <[i := pc']> (pl_threads s) !! i = Some pc') as At by (intros pc'; apply list_lookup_insert_eq; by eapply lookup_lt_Some).
  destruct pc; cbn in Hs; simplify_eq; cbn [ppc_step] in E; unfold pl_prod in E; rewrite Hp in E; cbn [of_option] in E; rewrite ret_bind in E.
  - right. destruct (lp_inactive p && _); injection E as <-; eexists n, _, suf, _; (split; [apply At|]; split; [done|]; split; [|lia]; split; [done|]; by exists p).
  - destruct (lp_inactive p); injection E as <-.
    + left. unfold searches. cbn. by rewrite At.
    + right. eexists n, _, suf, _. split; [apply At|]. split; [done|]. split; [|lia]. split; [done|]. by exists p.
  - injection E as <-. destruct (lp_next p) as [m|] eqn:Em; cbn [walk_to].
    + right. destruct suf as [|m' suf]; [done|]. destruct Hl as ([= <-] & q & Hq & Hl). eexists m, 3%nat, suf, _. split; [apply At|]. split; [done|]. split; [|cbn; lia].
      split; [done|]. by exists q.
    + left. unfold searches. cbn. by rewrite At.
Qed.

Lemma search_ends evs : forall s l i pc n c suf,
  plist_inv s l -> pl_threads s !! i = Some pc -> searching pc = Some (n, c) -> pchain (pl_prods s) (Some n) (n :: suf) -> n :: suf ⊆ l ->
  (c + 3 * length suf <= own_steps i evs)%nat ->
  exists evs1 evs2 s1, evs = evs1 ++ evs2 /\ plist_run s evs1 = Ret s1 /\ searches s1 i = false.
Proof.
  induction evs as [|ev evs IH]; intros s l i pc n c suf I Hi Hs Hc Hsub Hlen.
  { destruct pc; cbn in Hs; simplify_eq; cbn in Hlen; lia. }
  destruct (plist_step_spec s l ev I) as (s' & l' & E & I' & Hsuf).
  assert (l ⊆ l') as Hll by (destruct Hsuf as [k ->]; set_solver).
  assert (forall s1 evs1 evs2, plist_run s' evs1 = Ret s1 -> evs = evs1 ++ evs2 -> searches s1 i = false ->
    exists evs1 evs2 s1, ev :: evs = evs1 ++ evs2 /\ plist_run s evs1 = Ret s1 /\ searches s1 i = false) as Hgo.
  { intros s1 evs1 evs2 Er -> Hf. exists (ev :: evs1), evs2, s1. split; [done|]. split; [|done]. cbn [plist_run]. by rewrite E, ret_bind. }
  assert ((exists ok, ev = PGo i ok) \/ forall ok, ev <> PGo i ok) as [[ok ->]|Hother].
  { destruct ev as [|j ok|]; [by right| |by right]. destruct (decide (j = i)) as [->|]; [left; by exists ok|right; congruence]. }
  - destruct (search_step s l i ok s' n c suf pc I Hi Hs Hc E) as [Hf|(n' & c' & suf' & pc' & Hi' & Hs' & Hc' & Hlt)].
    + by apply (Hgo s' [] evs).
    + cbn [own_steps] in Hlen. rewrite decide_True in Hlen by done.
      assert (n' ∈ l') as Hn'. { pose proof (pi_pcs _ _ I' _ _ Hi') as Hok. destruct pc'; cbn in Hs'; simplify_eq; cbn in Hok; tauto. }
      destruct (pchain_suffix _ _ _ _ (pi_chain _ _ I') Hn') as (suf2 & Hc2 & Hs2 & _). pose proof (pchain_fun _ _ _ _ Hc' Hc2) as [= <-].
      destruct (IH s' l' i pc' n' c' suf' I' Hi' Hs' Hc' Hs2) as (e1 & e2 & s1 & -> & Er & Hf); [lia|]. by eapply Hgo.
  - destruct (IH s' l' i pc n c suf I') as (e1 & e2 & s1 & -> & Er & Hf); [|done|..|by eapply Hgo].
    + eapply step_other; [exact E|exact Hi|congruence|done].
    + eapply pchain_same; [|exact Hc]. intros m p Hm Hp. eapply step_keeps_links; [exact I|exact E| |exact Hp]. by apply Hsub.
    + by etrans.
    + destruct ev as [|j ok|]; cbn [own_steps] in Hlen; [done| |done]. rewrite decide_False in Hlen; [done|]. intros ->. by eapply Hother.
Qed.

(** ** Alone *)

(** Thread [i] is out of the call after at most [k] steps. *)
Inductive gets_out (i : nat) : nat -> PList -> Prop :=
  | go_now k s : pl_threads s !! i = Some PIdle -> gets_out i k s
  | go_step k s s' : plist_step s (PGo i true) = Ret s' -> gets_out i k s' -> gets_out i (S k) s.

Lemma gets_out_mono i k k' s : (k <= k')%nat -> gets_out i k s -> gets_out i k' s.
Proof. intros Hle H. revert k' Hle. induction H; intros [|k'] Hle; try lia; [by constructor..|]. econstructor; [done|]. apply IHgets_out. lia. Qed.

Lemma own_step s l i pc k :
  plist_inv s l -> pl_threads s !! i = Some pc -> (forall s' l', ppc_step s i pc true = Ret s' -> plist_inv s' l' -> gets_out i k s') -> gets_out i (S k) s.
Proof.
  intros I Hi Hnext. destruct (ppc_step_spec s l i pc true I Hi) as (s' & l' & E & I' & _). apply (go_step _ _ _ s'); [cbn; by rewrite Hi|]. by eapply Hnext.
Qed.

Lemma now_at s i pc pc' : pl_threads s !! i = Some pc -> <[i := pc']> (pl_threads s) !! i = Some pc'.
Proof. intros Hi. apply list_lookup_insert_eq. by eapply lookup_lt_Some. Qed.

(** Takes a step of thread [i] and reads what it needs. *)
Ltac own I Hi :=
  eapply own_step; [exact I|exact Hi|]; let E := fresh "E" in intros s' l' E I'; cbn [ppc_step] in E;
  repeat match type of E with (_ ≫= _) = _ => let q := fresh "q" in let Hq := fresh "Hq" in apply bind_Ret in E as (q & Hq & E) end.

Lemma out_link s l i e n prev : plist_inv s l -> pl_threads s !! i = Some (PLink e n prev) -> pl_tail s = prev -> gets_out i 1 s.
Proof. intros I Hi <-. own I Hi. rewrite bool_decide_true in E by done. injection E as <-. constructor. by eapply now_at. Qed.

Lemma out_set_next s l i e n prev : plist_inv s l -> pl_threads s !! i = Some (PSetNext e n prev) -> pl_tail s = prev -> gets_out i 2 s.
Proof. intros I Hi <-. own I Hi. injection E as <-. eapply out_link; [exact I'|by eapply now_at|done]. Qed.

Lemma out_any_link s l i e n prev : plist_inv s l -> pl_threads s !! i = Some (PLink e n prev) -> gets_out i 3 s.
Proof.
  intros I Hi. own I Hi. case_match; injection E as <-; [constructor; by eapply now_at|]. eapply out_set_next; [exact I'|by eapply now_at|done].
Qed.

Lemma out_any_set_next s l i e n prev : plist_inv s l -> pl_threads s !! i = Some (PSetNext e n prev) -> gets_out i 4 s.
Proof. intros I Hi. own I Hi. injection E as <-. eapply out_any_link; [exact I'|by eapply now_at]. Qed.

Lemma out_tail s l i e n : plist_inv s l -> pl_threads s !! i = Some (PTail e n) -> gets_out i 3 s.
Proof. intros I Hi. own I Hi. injection E as <-. eapply out_set_next; [exact I'|by eapply now_at|done]. Qed.

Lemma out_count s l i e n : plist_inv s l -> pl_threads s !! i = Some (PCount e n) -> gets_out i 4 s.
Proof. intros I Hi. own I Hi. injection E as <-. eapply out_tail; [exact I'|by eapply now_at]. Qed.

Lemma out_create s l i e : plist_inv s l -> pl_threads s !! i = Some (PCreate e) -> gets_out i 5 s.
Proof. intros I Hi. own I Hi. injection E as <-. eapply out_count; [exact I'|by eapply now_at]. Qed.

(** The search from a producer with the rest of the list behind it. *)
Lemma out_search k : forall s l i pc n c suf, plist_inv s l -> pl_threads s !! i = Some pc -> searching pc = Some (n, c) -> pchain (pl_prods s) (Some n) (n :: suf) ->
  (c + 3 * length suf <= k)%nat -> gets_out i (k + 5) s.
Proof.
  induction k as [k IH] using lt_wf_ind. intros s l i pc n c suf I Hi Hs Hc Hk. assert (1 <= c)%nat as Hc1 by (destruct pc; cbn in Hs; simplify_eq; lia).
  destruct k as [|k]; [lia|]. cbn [Nat.add]. eapply own_step; [exact I|exact Hi|]. intros s' l' E I'.
  destruct (search_step s l i true s' n c suf pc I Hi Hs Hc) as [Hf|(n' & c' & suf' & pc' & Hi' & Hs' & Hc' & Hlt)]; [cbn; by rewrite Hi| |].
  - apply (gets_out_mono i 5); [lia|]. destruct pc; cbn in Hs; simplify_eq; cbn [ppc_step] in E; apply bind_Ret in E as (q & Hq & E); unfold searches in Hf.
    + injection E as <-. cbn in Hf. rewrite (now_at _ _ _ _ Hi) in Hf. by destruct (lp_inactive q && _).
    + destruct (lp_inactive q); injection E as <-; [constructor; by eapply now_at|]. cbn in Hf. by rewrite (now_at _ _ _ _ Hi) in Hf.
    + injection E as <-. cbn in Hf. rewrite (now_at _ _ _ _ Hi) in Hf. destruct (lp_next q); [done|]. eapply out_create; [exact I'|by eapply now_at].
  - apply (IH k ltac:(lia) s' l' i pc' n' c' suf'); try done. lia.
Qed.

Lemma search_bound s l n : plist_inv s l -> n ∈ l -> exists suf, pchain (pl_prods s) (Some n) (n :: suf) /\ n :: suf ⊆ l /\ (S (length suf) <= length (pl_prods s))%nat.
Proof.
  intros I Hn. destruct (pchain_suffix _ _ _ _ (pi_chain _ _ I) Hn) as (suf & H1 & H2 & H3). exists suf. split; [done|]. split; [done|].
  transitivity (length l); [done|]. rewrite <- (length_seq (length (pl_prods s)) 0). apply submseteq_length, NoDup_submseteq; [apply I|].
  intros m Hm. rewrite elem_of_seq. destruct (listed _ _ I _ Hm) as [p Hp%lookup_lt_Some]. lia.
Qed.

Lemma at_search s l i pc n c : plist_inv s l -> pl_threads s !! i = Some pc -> searching pc = Some (n, c) -> n ∈ l /\ (c <= 3)%nat.
Proof. intros I Hi Hs. pose proof (pi_pcs _ _ I _ _ Hi) as Hok. destruct pc; cbn in Hs; simplify_eq; cbn in Hok; split; try lia; tauto. Qed.

Lemma out_any_search s l i pc n c : plist_inv s l -> pl_threads s !! i = Some pc -> searching pc = Some (n, c) -> gets_out i (3 * length (pl_prods s) + 5) s.
Proof.
  intros I Hi Hs. destruct (at_search s l i pc n c I Hi Hs) as [Hn Hc]. destruct (search_bound s l n I Hn) as (suf & H1 & _ & H2).
  eapply out_search; [exact I|exact Hi|exact Hs|exact H1|lia].
Qed.

Lemma out_load s l i e : plist_inv s l -> pl_threads s !! i = Some (PLoad e) -> gets_out i (3 * length (pl_prods s) + 6) s.
Proof.
  intros I Hi. replace (3 * length (pl_prods s) + 6)%nat with (S (3 * length (pl_prods s) + 5)) by lia.
  own I Hi. injection E as <-. destruct (pl_tail s) as [n|] eqn:Et; cbn [walk_to] in *.
  - eapply (out_any_search (pl_set_pc s i (PTest e n))); [exact I'|by eapply now_at|done].
  - apply (gets_out_mono i 5); [lia|]. eapply out_create; [exact I'|by eapply now_at].
Qed.

(** C28: From any state the threads can reach: a thread that searches the list for an inactive
    producer has ended its search, with or without one, by the time it has taken three
    steps per producer, however the steps of the others are mixed in; and a thread in any
    part of [recycle_or_create_producer] that runs alone returns after at most
    [3 * producers + 6] steps, wherever the others have stopped. *)
Theorem producer_call_terminates threads evs s i pc :
  plist_run (plist_start threads) evs = Ret s -> pl_threads s !! i = Some pc ->
  (forall evs', searches s i = true -> (3 * length (pl_prods s) <= own_steps i evs')%nat ->
    exists evs1 evs2 s1, evs' = evs1 ++ evs2 /\ plist_run s evs1 = Ret s1 /\ searches s1 i = false) /\
  gets_out i (3 * length (pl_prods s) + 6) s.
Proof.
  intros Hr Hi. destruct (plist_run_spec evs _ _ (plist_start_inv threads)) as (s0 & l & E & I & _). rewrite Hr in E. injection E as <-. split.
  - intros evs' Hs Hk. unfold searches in Hs. rewrite Hi in Hs. apply bool_decide_eq_true in Hs as [[n c] Hs].
    destruct (at_search s l i pc n c I Hi Hs) as [Hn Hc]. destruct (search_bound s l n I Hn) as (suf & H1 & H2 & H3).
    eapply search_ends; [exact I|exact Hi|exact Hs|exact H1|exact H2|lia].
  - destruct (searching pc) as [[n c]|] eqn:Hs; [eapply gets_out_mono; [|by eapply out_any_search]; lia|].
    destruct pc; try done; [by constructor|by eapply out_load|..].
    + apply (gets_out_mono i 5); [lia|by eapply out_create].
    + apply (gets_out_mono i 4); [lia|by eapply out_count].
    + apply (gets_out_mono i 3); [lia|by eapply out_tail].
    + apply (gets_out_mono i 4); [lia|by eapply out_any_set_next].
    + apply (gets_out_mono i 3); [lia|by eapply out_any_link].
Qed.

(** Thread 1 searches while thread 0 takes the only inactive producer. *)
Lemma producer_call_terminates_witness :
  let evs := [PCall 0 true] ++ replicate 6 (PGo 0 true) ++ [PRelease true 0; PCall 1 true; PGo 1 true; PCall 0 true; PGo 0 true; PGo 0 true; PGo 0 true] in
  exists s, plist_run (plist_start 2) evs = Ret s /\ pl_threads s !! 1%nat = Some (PTest true 0) /\ searches s 1 = true /\ gets_out 1 9 s /\
    exists evs1 evs2 s1, [PGo 1 true; PCall 0 false; PGo 0 true; PGo 1 true; PGo 1 true] = evs1 ++ evs2 /\ plist_run s evs1 = Ret s1 /\ searches s1 1 = false.
Proof.
  intros evs. eexists. split; [vm_compute; reflexivity|]. split; [reflexivity|]. split; [reflexivity|].
  match goal with |- gets_out _ _ ?s /\ _ => destruct (producer_call_terminates 2 evs s 1 (PTest true 0) eq_refl eq_refl) as [H1 H2] end.
  split; [exact H2|]. apply H1; [reflexivity|]. apply Nat.leb_le. vm_compute. reflexivity.
Defined.
