(* ===== verification/Producer.v ===== *)
(** * What both kinds of producers share (concurrentqueue.h, struct ProducerBase)

    [ProducerBase] holds the four indices and the tail block.  [claim_one] and
    [claim_bulk] are the beginnings of [dequeue] and [dequeue_bulk], which the two
    producers repeat word for word: they find out whether there are elements and
    take indices.  They run here without interruption; QueueIndex.v is about their
    interleavings. *)
From S2P Require Import Prelude QueueDetails QueueBlock.

(** ** State *)

Record ProducerBase := mkBase {
  tailIndex : Z; headIndex : Z; dequeueOptimisticCount : Z; dequeueOvercommit : Z;
  tailBlock : option nat }.

Definition base_init : ProducerBase := mkBase 0 0 0 0 None.

Definition set_tailIndex (b : ProducerBase) (t : Z) : ProducerBase :=
  mkBase t (headIndex b) (dequeueOptimisticCount b) (dequeueOvercommit b) (tailBlock b).
Definition set_tailBlock (b : ProducerBase) (o : option nat) : ProducerBase :=
  mkBase (tailIndex b) (headIndex b) (dequeueOptimisticCount b) (dequeueOvercommit b) o.

(** ** Operations *)

Definition size_approx (b : ProducerBase) : Z :=
  if circular_less_than (headIndex b) (tailIndex b) then tailIndex b -w headIndex b else 0.

(** [dequeue] until it has an index, or knows that there is none. *)
Definition claim_one (b : ProducerBase) : option Z * ProducerBase :=
  let tail := tailIndex b in
  let overcommit := dequeueOvercommit b in
  if circular_less_than (dequeueOptimisticCount b -w overcommit) tail then
    let myDequeueCount := dequeueOptimisticCount b in
    let counted := dequeueOptimisticCount b +w 1 in
    if circular_less_than (myDequeueCount -w overcommit) tail
    then (Some (headIndex b), mkBase tail (headIndex b +w 1) counted overcommit (tailBlock b))
    else (None, mkBase tail (headIndex b) counted (overcommit +w 1) (tailBlock b))
  else (None, b).

(** [dequeue_bulk] until it has a first index and a number of elements. *)
Definition claim_bulk (b : ProducerBase) (max : Z) : option (Z * Z) * ProducerBase :=
  let tail := tailIndex b in
  let overcommit := dequeueOvercommit b in
  let desiredCount := tail -w (dequeueOptimisticCount b -w overcommit) in
  if circular_less_than 0 desiredCount then
    let desiredCount := if desiredCount <? max then desiredCount else max in
    let myDequeueCount := dequeueOptimisticCount b in
    let counted := dequeueOptimisticCount b +w desiredCount in
    let actualCount := tail -w (myDequeueCount -w overcommit) in
    if circular_less_than 0 actualCount then
      let actualCount := if desiredCount <? actualCount then desiredCount else actualCount in
      let over := if actualCount <? desiredCount then overcommit +w (desiredCount -w actualCount) else overcommit in
      (Some (headIndex b, actualCount), mkBase tail (headIndex b +w actualCount) counted over (tailBlock b))
    else (None, mkBase tail (headIndex b) counted (overcommit +w desiredCount) (tailBlock b))
  else (None, b).

(** [index & ~static_cast<index_t>(BLOCK_SIZE - 1)] *)
Definition block_start (index : Z) : Z := Z.land index (u64 (Z.lnot (BLOCK_SIZE - 1))).

(** Whether the sub-queue is full, as [enqueue] asks when it needs a new block. *)
Definition subqueue_full (head currentTailIndex : Z) : bool :=
  negb (circular_less_than head (currentTailIndex +w BLOCK_SIZE))
  || (negb (MAX_SUBQUEUE_SIZE =? const_numeric_max)
      && ((MAX_SUBQUEUE_SIZE =? 0) || (MAX_SUBQUEUE_SIZE -w BLOCK_SIZE <? currentTailIndex -w head))).

Section Objects.
Context {T : Type}.

(** Placement new of an object in slot [index] of a block, and its destruction:
    there must be an object to destroy. *)
Definition construct_object (h : Heap T) (x : nat) (index : Z) (v : T) : outcome (Heap T) :=
  b ← get_block h x; Ret (put_block h x (block_set b index (Some v))).

Definition destroy_object (h : Heap T) (x : nat) (index : Z) : outcome (Heap T) :=
  b ← get_block h x;
  _ ← of_option BadPointer (block_get b index);
  Ret (put_block h x (block_set b index None)).

(** The object in slot [index] of a block: there must be one. *)
Definition read_object (h : Heap T) (x : nat) (index : Z) : outcome T :=
  b ← get_block h x; of_option BadPointer (block_get b index).
End Objects.

(** ** Index arithmetic *)

Lemma u64_mod_pow c x : 0 <= c <= 64 -> u64 x mod 2 ^ c = x mod 2 ^ c.
Proof.
  intros Hc. unfold u64, UINT64_MOD. change 18446744073709551616 with (2 ^ 64).
  replace (2 ^ 64) with (2 ^ c * 2 ^ (64 - c)) by (rewrite <- Z.pow_add_r by lia; f_equal; lia).
  rewrite Z.rem_mul_r by (apply Z.pow_nonzero || apply Z.pow_pos_nonneg; lia).
  rewrite Z.mul_comm, Z_mod_plus_full. apply Z.mod_mod. apply Z.pow_nonzero; lia.
Qed.

Lemma u64_mod_32 x : u64 x mod 32 = x mod 32.
Proof. apply (u64_mod_pow 5). lia. Qed.

Lemma land_pow c x : 0 <= c -> Z.land x (2 ^ c - 1) = x mod 2 ^ c.
Proof. intros Hc. rewrite <- Z.land_ones by done. f_equal. by rewrite Z.ones_equiv, Z.sub_1_r. Qed.

Lemma land_31 x : Z.land x (BLOCK_SIZE - 1) = x mod 32.
Proof. apply (land_pow 5). lia. Qed.

Lemma offset_spec i : offset i = Z.to_nat (i mod 32).
Proof. unfold offset. by rewrite land_31. Qed.

Lemma block_start_spec i : is_u64 i -> block_start i = 32 * (i / 32).
Proof.
  intros Hi. unfold block_start. change (u64 (Z.lnot (BLOCK_SIZE - 1))) with (Z.ldiff (Z.ones 64) (Z.ones 5)).
  rewrite Z.ldiff_land, Z.land_assoc, <- Z.ldiff_land, Z.land_ones by lia. rewrite Z.mod_small by exact Hi.
  rewrite Z.ldiff_ones_r, Z.shiftl_mul_pow2, Z.shiftr_div_pow2 by lia. change (2 ^ 5) with 32. lia.
Qed.

Lemma u64_div_32 x : u64 x / 32 = (x / 32) mod 2 ^ 59.
Proof.
  unfold u64, UINT64_MOD. change 18446744073709551616 with (32 * 2 ^ 59).
  rewrite Z.rem_mul_r by lia. rewrite Z.add_comm, Z.mul_comm, Z.div_add_l by lia.
  rewrite (Z.div_small (x mod 32)) by (apply Z.mod_pos_bound; lia). lia.
Qed.

(** The base of the block with number [j], from an index in the block. *)
Lemma block_start_u64 x : block_start (u64 x) = u64 (32 * (x / 32)).
Proof.
  rewrite block_start_spec by apply u64_range. rewrite u64_div_32.
  unfold u64, UINT64_MOD. change 18446744073709551616 with (32 * 2 ^ 59). by rewrite Z.mul_mod_distr_l by lia.
Qed.

Lemma circular_far x y :
  9223372036854775808 <= y - x <= UINT64_MOD -> circular_less_than (u64 x) (u64 y) = false.
Proof.
  unfold UINT64_MOD. intros Hd. unfold circular_less_than. rewrite u64_sub_l, u64_sub_r.
  assert (u64 (x - y) = x - y + 18446744073709551616) as ->.
  { unfold u64, UINT64_MOD. symmetry. apply Z.mod_unique with (-1); lia. }
  zbool; lia.
Qed.

Lemma u64_eqb i n : 0 <= n < 9223372036854775808 -> (u64 i =? u64 (i + n)) = (n =? 0).
Proof.
  intros Hn. destruct (Z.eqb_spec n 0) as [->|Hne]; [rewrite Z.add_0_r; apply Z.eqb_refl|].
  apply Z.eqb_neq. intros E. assert (u64 (i + n - i) = 0) as E0.
  { rewrite <- u64_sub_l, <- E, u64_sub_l, Z.sub_diag. done. }
  replace (i + n - i) with n in E0 by lia. rewrite u64_small in E0; [lia|]. unfold is_u64, UINT64_MOD. lia.
Qed.

(** ** Indices of a sub-queue at rest *)

(** [n] elements from index [hd] on; the 64-bit indices are these numbers modulo
    2^64. *)
Record base_rep (b : ProducerBase) (hd n : Z) : Prop := mk_base_rep {
  br_head : headIndex b = u64 hd;
  br_tail : tailIndex b = u64 (hd + n);
  br_count : u64 (dequeueOptimisticCount b - dequeueOvercommit b) = u64 hd;
  br_len : 0 <= n < 9223372036854775808 }.

Lemma base_init_rep : base_rep base_init 0 0.
Proof. by constructor. Qed.

Lemma circular_gap hd n : 0 <= n < 9223372036854775808 -> circular_less_than (u64 hd) (u64 (hd + n)) = (0 <? n).
Proof. intros Hn. rewrite circular_less_than_spec by lia. zbool; lia. Qed.

Lemma size_approx_spec b hd n : base_rep b hd n -> size_approx b = n.
Proof.
  intros [Eh Et _ Hn]. unfold size_approx. rewrite Eh, Et, circular_gap by done. zbool; [|lia].
  rewrite u64_sub_l, u64_sub_r. replace (hd + n - hd) with n by lia. apply u64_small. unfold is_u64, UINT64_MOD. lia.
Qed.

Lemma claim_one_spec b hd n :
  base_rep b hd n ->
  if n =? 0 then claim_one b = (None, b)
  else exists b', claim_one b = (Some (u64 hd), b') /\ base_rep b' (hd + 1) (n - 1) /\ tailBlock b' = tailBlock b.
Proof.
  intros [Eh Et Ec Hn]. unfold claim_one. rewrite Ec, Et, circular_gap by done.
  destruct (Z.eqb_spec n 0) as [->|Hne]; [done|]. zbool; [|lia]. rewrite Eh. eexists. split; [done|].
  split; [|done]. constructor; cbn.
  - by rewrite u64_add_l.
  - f_equal. lia.
  - rewrite u64_sub_l. replace (_ + 1 - _) with (dequeueOptimisticCount b - dequeueOvercommit b + 1) by lia.
    by rewrite <- u64_add_l, Ec, u64_add_l.
  - lia.
Qed.

Lemma claim_bulk_spec b hd n max :
  base_rep b hd n -> is_u64 max ->
  if n =? 0 then claim_bulk b max = (None, b)
  else exists b', claim_bulk b max = (Some (u64 hd, Z.min n max), b') /\
    base_rep b' (hd + Z.min n max) (n - Z.min n max) /\ tailBlock b' = tailBlock b.
Proof.
  intros [Eh Et Ec Hn] Hm. unfold claim_bulk, is_u64 in *.
  assert (tailIndex b -w u64 (dequeueOptimisticCount b - dequeueOvercommit b) = n) as Ed.
  { rewrite Ec, Et, u64_sub_l, u64_sub_r. replace (hd + n - hd) with n by lia. apply u64_small. unfold is_u64, UINT64_MOD. lia. }
  rewrite !Ed. assert (circular_less_than 0 n = (0 <? n)) as ->.
  { rewrite <- (circular_gap 0 n Hn). f_equal. symmetry. apply u64_small. unfold is_u64, UINT64_MOD. lia. }
  destruct (Z.eqb_spec n 0) as [->|Hne]; [done|]. replace (0 <? n) with true by (zbool; lia).
  assert ((if n <? max then n else max) = Z.min n max) as -> by (zbool; lia).
  assert ((if Z.min n max <? n then Z.min n max else n) = Z.min n max) as -> by (zbool; lia).
  rewrite Z.ltb_irrefl, Eh. eexists. split; [done|]. split; [|done]. constructor; cbn.
  - by rewrite u64_add_l.
  - rewrite Et. f_equal. lia.
  - rewrite u64_sub_l. replace (_ + Z.min n max - _) with (dequeueOptimisticCount b - dequeueOvercommit b + Z.min n max) by lia.
    by rewrite <- u64_add_l, Ec, u64_add_l.
  - lia.
Qed.

(** Publishing [k] elements. *)
Lemma base_rep_push b hd n k o :
  base_rep b hd n -> 0 <= k -> n + k < 9223372036854775808 ->
  base_rep (set_tailIndex (set_tailBlock b o) (u64 (hd + n) +w k)) hd (n + k).
Proof.
  intros [Eh Et Ec Hn] Hk Hm. constructor; cbn; [done| |done|lia]. rewrite u64_add_l. f_equal. lia.
Qed.

Lemma subqueue_full_spec hd n :
  0 <= n < 9223372036854775808 ->
  subqueue_full (u64 hd) (u64 (hd + n)) = negb (n + 32 <? 9223372036854775808).
Proof.
  intros Hn. unfold subqueue_full. change (MAX_SUBQUEUE_SIZE =? const_numeric_max) with true. cbn [negb andb].
  rewrite orb_false_r, u64_add_l. f_equal. unfold BLOCK_SIZE. destruct (Z.ltb_spec (n + 32) 9223372036854775808).
  - rewrite circular_less_than_spec by lia. zbool; lia.
  - apply circular_far. unfold UINT64_MOD. lia.
Qed.
