(* ===== verification/ImplicitProducer.v ===== *)
(** * The producer of a thread without a token (concurrentqueue.h, struct ImplicitProducer)

    The elements lie in blocks of the heap of QueueBlock.v.  A circular index
    finds the block of an element: [BlockIndexHeader] has a power of two of slots,
    [index] maps a slot to an entry, and an entry holds the first index of a block
    and the block.  When the index is full a larger header is made that shares the
    entries of the old one; [blockIndex] lists the headers, the current one first.
    Entries are shared between headers, so they have a store of their own.

    The operations run here one after the other; whether [malloc] succeeds is an
    input of the heap, and whether the copy of an element throws is an input of
    [implicit_enqueue]. *)
From S2P Require Import Prelude QueueDetails QueueBlock Producer.

(** ** State *)

Definition INVALID_BLOCK_BASE : Z := 1.

(** The pointer of an entry is [None] as long as nothing was stored in it. *)
Record BlockIndexEntry := mkIndexEntry { bie_key : Z; bie_value : option (option nat) }.

Record BlockIndexHeader := mkHeader { bih_capacity : Z; bih_tail : Z; bih_index : list nat }.

Record ImplicitProducer := mkImplicit {
  imp_base : ProducerBase;
  nextBlockIndexCapacity : Z;
  blockIndex : list BlockIndexHeader;
  index_entries : list BlockIndexEntry }.

Definition set_base (p : ImplicitProducer) (b : ProducerBase) : ImplicitProducer :=
  mkImplicit b (nextBlockIndexCapacity p) (blockIndex p) (index_entries p).
Definition set_index (p : ImplicitProducer) (l : list BlockIndexHeader) : ImplicitProducer :=
  mkImplicit (imp_base p) (nextBlockIndexCapacity p) l (index_entries p).
Definition set_entries (p : ImplicitProducer) (l : list BlockIndexEntry) : ImplicitProducer :=
  mkImplicit (imp_base p) (nextBlockIndexCapacity p) (blockIndex p) l.

(** [localBlockIndex->tail.store(t)] on the current header. *)
Definition set_tail (p : ImplicitProducer) (hd : BlockIndexHeader) (t : Z) : ImplicitProducer :=
  set_index p (mkHeader (bih_capacity hd) t (bih_index hd) :: tail (blockIndex p)).

(** [entry->key.store(k)] and [entry->value.store(o)] *)
Definition store_key (p : ImplicitProducer) (e : nat) (k : Z) : ImplicitProducer :=
  set_entries p (alter (fun en => mkIndexEntry k (bie_value en)) e (index_entries p)).
Definition store_value (p : ImplicitProducer) (e : nat) (o : option nat) : ImplicitProducer :=
  set_entries p (alter (fun en => mkIndexEntry (bie_key en) (Some o)) e (index_entries p)).

(** ** The block index *)

Definition current_index (p : ImplicitProducer) : outcome BlockIndexHeader :=
  of_option BadPointer (head (blockIndex p)).

Definition slot (hd : BlockIndexHeader) (i : Z) : outcome nat :=
  of_option OutOfBounds (bih_index hd !! Z.to_nat i).

Definition entry_at (p : ImplicitProducer) (e : nat) : outcome BlockIndexEntry :=
  of_option BadPointer (index_entries p !! e).

(** [entry->value.load()], which must have been stored before. *)
Definition entry_value (en : BlockIndexEntry) : outcome (option nat) := of_option BadPointer (bie_value en).

(** The loop that copies the old index, oldest entry first. *)
Fixpoint copy_index (fuel : nat) (prev : BlockIndexHeader) (prevPos : Z) : outcome (list nat) :=
  match fuel with
  | O => Fault Diverges
  | S fuel =>
      let prevPos := Z.land (prevPos +w 1) (bih_capacity prev -w 1) in
      e ← slot prev prevPos;
      if prevPos =? bih_tail prev then Ret [e]
      else rest ← copy_index fuel prev prevPos; Ret (e :: rest)
  end.

Section Implicit.
Context {T : Type}.

Definition implicit_new_block_index (h : Heap T) (p : ImplicitProducer) : outcome (bool * Heap T * ImplicitProducer) :=
  let prev := head (blockIndex p) in
  let prevCapacity := match prev with None => 0 | Some prev => bih_capacity prev end in
  let entryCount := match prev with None => nextBlockIndexCapacity p | Some _ => prevCapacity end in
  let '(ok, h) := malloc h in
  if negb ok then Ret (false, h, p)
  else
    old ← match prev with
          | None => Ret []
          | Some prev =>
              l ← copy_index (Z.to_nat (bih_capacity prev)) prev (bih_tail prev);
              if Z.of_nat (length l) =? prevCapacity then Ret l else Fault AssertFailed
          end;
    let first := length (index_entries p) in
    let header :=
      mkHeader (nextBlockIndexCapacity p)
        (Z.land (prevCapacity -w 1) (nextBlockIndexCapacity p -w 1))
        (old ++ seq first (Z.to_nat entryCount)) in
    Ret (true, h,
         mkImplicit (imp_base p) (u64 (Z.shiftl (nextBlockIndexCapacity p) 1)) (header :: blockIndex p)
           (index_entries p ++ replicate (Z.to_nat entryCount) (mkIndexEntry INVALID_BLOCK_BASE None))).

(** The result is the entry for the block that starts at [blockStartIndex]. *)
Definition insert_block_index_entry (allocMode : AllocationMode) (h : Heap T) (p : ImplicitProducer) (blockStartIndex : Z)
    : outcome (option nat * Heap T * ImplicitProducer) :=
  match head (blockIndex p) with
  | None => Ret (None, h, p)
  | Some hd =>
      let newTail := Z.land (bih_tail hd +w 1) (bih_capacity hd -w 1) in
      idxEntry ← slot hd newTail;
      en ← entry_at p idxEntry;
      room ← (if bie_key en =? INVALID_BLOCK_BASE then Ret true
              else v ← entry_value en; Ret (match v with None => true | Some _ => false end));
      if (room : bool) then Ret (Some idxEntry, h, set_tail (store_key p idxEntry blockStartIndex) hd newTail)
      else
        match allocMode with
        | CannotAlloc => Ret (None, h, p)
        | CanAlloc =>
            '(ok, h, p) ← implicit_new_block_index h p;
            if negb (ok : bool) then Ret (None, h, p)
            else
              hd ← current_index p;
              let newTail := Z.land (bih_tail hd +w 1) (bih_capacity hd -w 1) in
              idxEntry ← slot hd newTail;
              en ← entry_at p idxEntry;
              if bie_key en =? INVALID_BLOCK_BASE
              then Ret (Some idxEntry, h, set_tail (store_key p idxEntry blockStartIndex) hd newTail)
              else Fault AssertFailed
        end
  end.

Definition rewind_block_index_tail (p : ImplicitProducer) : outcome ImplicitProducer :=
  hd ← current_index p;
  Ret (set_tail p hd (Z.land (bih_tail hd -w 1) (bih_capacity hd -w 1))).

(** The division is unsigned, [BLOCK_SIZE] being a [size_t]. *)
Definition get_block_index_index_for_index (p : ImplicitProducer) (index : Z) : outcome (BlockIndexHeader * Z) :=
  let index := block_start index in
  hd ← current_index p;
  let tail := bih_tail hd in
  e ← slot hd tail;
  en ← entry_at p e;
  let tailBase := bie_key en in
  if tailBase =? INVALID_BLOCK_BASE then Fault AssertFailed
  else
    let offset := (index -w tailBase) / BLOCK_SIZE in
    let idx := Z.land (tail +w offset) (bih_capacity hd -w 1) in
    e ← slot hd idx;
    en ← entry_at p e;
    v ← entry_value en;
    if (bie_key en =? index) && match v with Some _ => true | None => false end
    then Ret (hd, idx) else Fault AssertFailed.

Definition get_block_index_entry_for_index (p : ImplicitProducer) (index : Z) : outcome nat :=
  '(hd, idx) ← get_block_index_index_for_index p index; slot hd idx.

(** The block of an entry, which is dereferenced. *)
Definition entry_block (p : ImplicitProducer) (e : nat) : outcome nat :=
  en ← entry_at p e; v ← entry_value en; of_option BadPointer v.

(** ** Construction and destruction *)

Definition implicit_init (h : Heap T) : outcome (Heap T * ImplicitProducer) :=
  '(_, h, p) ← implicit_new_block_index h (mkImplicit base_init IMPLICIT_INITIAL_INDEX_SIZE [] []);
  Ret (h, p).

(** The loop of the destructor; [fuel] is the number of elements. *)
Fixpoint destroy_elements (fuel : nat) (h : Heap T) (p : ImplicitProducer) (index : Z) (block : option nat) : outcome (Heap T) :=
  if index =? tailIndex (imp_base p) then Ret h
  else match fuel with
  | O => Fault Diverges
  | S fuel =>
      let enter := (Z.land index (BLOCK_SIZE - 1) =? 0) || (match block with None => true | Some _ => false end) in
      '(h, block) ←
        (if enter then
           h ← match block with Some x => add_block_to_free_list h x | None => Ret h end;
           e ← get_block_index_entry_for_index p index;
           x ← entry_block p e;
           Ret (h, Some x)
         else Ret (h, block));
      x ← of_option BadPointer block;
      h ← destroy_object h x index;
      destroy_elements fuel h p (index +w 1) block
  end.

(** The destructor; the memory of the block index is not modelled. *)
Definition implicit_destroy (h : Heap T) (p : ImplicitProducer) : outcome (Heap T) :=
  let tail := tailIndex (imp_base p) in
  let index := headIndex (imp_base p) in
  if negb ((index =? tail) || circular_less_than index tail) then Fault AssertFailed
  else
    let forceFreeLastBlock := negb (index =? tail) in
    h ← destroy_elements (Z.to_nat (tail -w index)) h p index None;
    match tailBlock (imp_base p) with
    | Some x =>
        if forceFreeLastBlock || negb (Z.land tail (BLOCK_SIZE - 1) =? 0) then add_block_to_free_list h x else Ret h
    | None => Ret h
    end.

(** ** Enqueue *)

Inductive EnqueueResult := Enqueued | Refused | Threw.

(** The end of [implicit_enqueue]: construct the element in the tail block and publish it.
    [element] is [None] when the constructor throws. *)
Definition enqueue_at_tail (h : Heap T) (p : ImplicitProducer) (element : option T)
    : outcome (EnqueueResult * Heap T * ImplicitProducer) :=
  let currentTailIndex := tailIndex (imp_base p) in
  match element with
  | None => Ret (Threw, h, p)
  | Some v =>
      x ← of_option BadPointer (tailBlock (imp_base p));
      h ← construct_object h x currentTailIndex v;
      Ret (Enqueued, h, set_base p (set_tailIndex (imp_base p) (1 +w currentTailIndex)))
  end.

(** [noexcept] is [MOODYCAMEL_NOEXCEPT_CTOR] of the element's constructor. *)
Definition implicit_enqueue (allocMode : AllocationMode) (noexcept : bool) (garbage : list bool) (h : Heap T) (p : ImplicitProducer)
    (element : option T) : outcome (EnqueueResult * Heap T * ImplicitProducer) :=
  let currentTailIndex := tailIndex (imp_base p) in
  if Z.land currentTailIndex (BLOCK_SIZE - 1) =? 0 then
    let head := headIndex (imp_base p) in
    if circular_less_than currentTailIndex head then Fault AssertFailed
    else if subqueue_full head currentTailIndex then Ret (Refused, h, p)
    else
      '(idxEntry, h, p) ← insert_block_index_entry allocMode h p currentTailIndex;
      match idxEntry with
      | None => Ret (Refused, h, p)
      | Some idxEntry =>
          '(newBlock, h) ← requisition_block allocMode garbage h;
          match newBlock with
          | None =>
              p ← rewind_block_index_tail p;
              Ret (Refused, h, store_value p idxEntry None)
          | Some x =>
              b ← get_block h x;
              let h := put_block h x (reset_empty implicit_context b) in
              if negb noexcept then
                match element with
                | None =>
                    p ← rewind_block_index_tail p;
                    let p := store_value p idxEntry None in
                    h ← add_block_to_free_list h x;
                    Ret (Threw, h, p)
                | Some v =>
                    h ← construct_object h x currentTailIndex v;
                    let p := store_value p idxEntry (Some x) in
                    Ret (Enqueued, h,
                         set_base p (set_tailIndex (set_tailBlock (imp_base p) (Some x)) (1 +w currentTailIndex)))
                end
              else
                let p := store_value p idxEntry (Some x) in
                enqueue_at_tail h (set_base p (set_tailBlock (imp_base p) (Some x))) element
          end
      end
  else enqueue_at_tail h p element.

(** ** Dequeue *)

Inductive DequeueResult := Dequeued (v : T) | Nothing | AssignThrew.

(** After the element is read it is destroyed and its slot marked empty; this
    happens too, in the destructor of [Guard], when the assignment throws. *)
Definition implicit_dequeue (throws : bool) (h : Heap T) (p : ImplicitProducer) : outcome (DequeueResult * Heap T * ImplicitProducer) :=
  match claim_one (imp_base p) with
  | (None, b) => Ret (Nothing, h, set_base p b)
  | (Some index, b) =>
      let p := set_base p b in
      entry ← get_block_index_entry_for_index p index;
      x ← entry_block p entry;
      el ← read_object h x index;
      h ← destroy_object h x index;
      blk ← get_block h x;
      '(empty, blk) ← set_empty implicit_context blk index;
      let h := put_block h x blk in
      '(h, p) ←
        (if (empty : bool) then
           let p := store_value p entry None in
           h ← add_block_to_free_list h x; Ret (h, p)
         else Ret (h, p));
      Ret (if throws then AssignThrew else Dequeued el, h, p)
  end.
End Implicit.

Arguments DequeueResult : clear implicits.
