(* ===== verification/ImplicitIndex.v ===== *)
(** * The block index of an implicit producer

    [index_ok] says what the circular index holds: the last [length bs] slots up to
    the tail hold the blocks [bs], oldest first, and all other slots are free.
    Insertion, its cancellation, the removal of the oldest block, growth and lookup
    are shown on this representation. *)
From S2P Require Import Prelude QueueDetails QueueBlock Producer ImplicitProducer.

(** The entry [d] slots before the tail. *)
Definition slot_at (hd : BlockIndexHeader) (d : Z) : option nat :=
  bih_index hd !! Z.to_nat ((bih_tail hd - d) mod bih_capacity hd).

(** The first index of block number [j]. *)
Definition key_of (j : Z) : Z := u64 (32 * j).

Record index_ok (es : list BlockIndexEntry) (hd : BlockIndexHeader) (first : Z) (bs : list nat) : Prop := mk_index_ok {
  io_cap : exists c, 5 <= c <= 59 /\ bih_capacity hd = 2 ^ c;
  io_tail : 0 <= bih_tail hd < bih_capacity hd;
  io_length : Z.of_nat (length (bih_index hd)) = bih_capacity hd;
  io_nodup : NoDup (bih_index hd);
  io_range : Forall (fun e => (e < length es)%nat) (bih_index hd);
  io_room : Z.of_nat (length bs) <= bih_capacity hd;
  io_live : forall k x, bs !! k = Some x -> exists e,
    slot_at hd (Z.of_nat (length bs) - 1 - Z.of_nat k) = Some e /\
    es !! e = Some (mkIndexEntry (key_of (first + Z.of_nat k)) (Some (Some x)));
  io_dead : forall d, Z.of_nat (length bs) <= d < bih_capacity hd -> exists e en,
    slot_at hd d = Some e /\ es !! e = Some en /\ (bie_key en = INVALID_BLOCK_BASE \/ bie_value en = Some None) }.

Lemma mod_inj_range t d d' n : 0 < n -> -n < d - d' < n -> (t - d) mod n = (t - d') mod n -> d = d'.
Proof.
  intros Hn Hd E. pose proof (Z.div_mod (t - d) n ltac:(lia)) as E1. pose proof (Z.div_mod (t - d') n ltac:(lia)) as E2.
  rewrite E in E1. set (q1 := (t - d) / n) in *. set (q2 := (t - d') / n) in *.
  destruct (Z.lt_trichotomy q1 q2) as [Hq|[Hq|Hq]]; [nia| |nia]. rewrite Hq in E1. lia.
Qed.

Section Slots.
Context (es : list BlockIndexEntry) (hd : BlockIndexHeader) (first : Z) (bs : list nat).
Context (Hok : index_ok es hd first bs).

Lemma cap_pos : 0 < bih_capacity hd.
Proof. destruct (io_cap _ _ _ _ Hok) as (c & Hc & ->). apply Z.pow_pos_nonneg; lia. Qed.

Lemma slot_at_total d : exists e, slot_at hd d = Some e /\ (e < length es)%nat.
Proof.
  pose proof cap_pos. pose proof (Z.mod_pos_bound (bih_tail hd - d) (bih_capacity hd) ltac:(done)) as Hm.
  destruct (lookup_lt_is_Some_2 (bih_index hd) (Z.to_nat ((bih_tail hd - d) mod bih_capacity hd))) as [e He].
  { pose proof (io_length _ _ _ _ Hok). lia. }
  exists e. split; [done|]. eapply (Forall_lookup_1 _ _ _ _ (io_range _ _ _ _ Hok) He).
Qed.

Lemma slot_at_shift d : slot_at hd (d + bih_capacity hd) = slot_at hd d.
Proof.
  pose proof cap_pos. unfold slot_at. do 2 f_equal.
  replace (bih_tail hd - (d + bih_capacity hd)) with (bih_tail hd - d + (-1) * bih_capacity hd) by lia.
  by rewrite Z_mod_plus_full.
Qed.

Lemma slot_at_inj d d' e :
  0 <= d < bih_capacity hd -> 0 <= d' < bih_capacity hd -> slot_at hd d = Some e -> slot_at hd d' = Some e -> d = d'.
Proof.
  intros Hd Hd' E E'. pose proof cap_pos.
  pose proof (Z.mod_pos_bound (bih_tail hd - d) (bih_capacity hd) ltac:(done)).
  pose proof (Z.mod_pos_bound (bih_tail hd - d') (bih_capacity hd) ltac:(done)).
  pose proof (NoDup_lookup _ _ _ _ (io_nodup _ _ _ _ Hok) E E') as Hm.
  assert ((bih_tail hd - d) mod bih_capacity hd = (bih_tail hd - d') mod bih_capacity hd) as Hm' by lia.
  eapply mod_inj_range; [done| |exact Hm']. lia.
Qed.

Lemma slot_tail : slot hd (bih_tail hd) = of_option OutOfBounds (slot_at hd 0).
Proof.
  unfold slot, slot_at. pose proof (io_tail _ _ _ _ Hok). by rewrite Z.sub_0_r, Z.mod_small.
Qed.

(** The masked positions of the code are positions modulo the capacity. *)
Lemma land_cap z : Z.land (u64 z) (bih_capacity hd -w 1) = z mod bih_capacity hd.
Proof.
  destruct (io_cap _ _ _ _ Hok) as (c & Hc & E). rewrite E.
  assert (0 < 2 ^ c) by (apply Z.pow_pos_nonneg; lia).
  assert (2 ^ c <= 2 ^ 59) by (apply Z.pow_le_mono_r; lia).
  rewrite (u64_small (2 ^ c - 1)) by (unfold is_u64, UINT64_MOD; lia).
  rewrite land_pow by lia. apply u64_mod_pow. lia.
Qed.

Lemma slot_land z : slot hd (Z.land (u64 (bih_tail hd - z)) (bih_capacity hd -w 1)) = of_option OutOfBounds (slot_at hd z).
Proof. unfold slot. by rewrite land_cap. Qed.
End Slots.

Lemma key_not_invalid j : (key_of j =? INVALID_BLOCK_BASE) = false.
Proof.
  apply Z.eqb_neq. unfold key_of, INVALID_BLOCK_BASE. intros E.
  pose proof (u64_mod_32 (32 * j)) as Hm. rewrite E, Z.mul_comm, Z_mod_mult in Hm. done.
Qed.

Lemma index_ok_nil es hd first first' : index_ok es hd first [] -> index_ok es hd first' [].
Proof. intros []. constructor; try done. Qed.

(** ** Changing one entry *)

Lemma alter_lookup_ne {A} (f : A -> A) (l : list A) i j : i <> j -> alter f i l !! j = l !! j.
Proof. intros. by apply list_lookup_alter_ne. Qed.

(** The slot after the tail is free: storing a key and no block there changes
    nothing. *)
Lemma index_cancel es hd first bs e f :
  index_ok es hd first bs -> Z.of_nat (length bs) < bih_capacity hd -> slot_at hd (-1) = Some e ->
  (forall en, bie_value (f en) = Some None) ->
  index_ok (alter f e es) hd first bs.
Proof.
  intros Hok Hroom He Hf. pose proof Hok as [? ? ? ? Hrange ? Hlive Hdead].
  assert (slot_at hd (bih_capacity hd - 1) = Some e) as He'.
  { rewrite <- He, <- (slot_at_shift _ _ _ _ Hok (-1)). f_equal. lia. }
  constructor; try done.
  - by rewrite length_alter.
  - intros k x Hk. destruct (Hlive k x Hk) as (e' & Hs & Hes). exists e'. split; [done|].
    rewrite alter_lookup_ne; [done|]. intros ->.
    pose proof (lookup_lt_Some _ _ _ Hk).
    pose proof (slot_at_inj _ _ _ _ Hok (bih_capacity hd - 1) (Z.of_nat (length bs) - 1 - Z.of_nat k) e' ltac:(lia) ltac:(lia) He' Hs). lia.
  - intros d Hd. destruct (Hdead d Hd) as (e' & en & Hs & Hes & Hf'). exists e'.
    destruct (decide (e = e')) as [->|Hne].
    + exists (f en). rewrite list_lookup_alter_eq, Hes. split; [done|]. split; [done|]. right. apply Hf.
    + exists en. by rewrite alter_lookup_ne.
Qed.

(** The header with its tail one slot further. *)
Definition advance (hd : BlockIndexHeader) : BlockIndexHeader :=
  mkHeader (bih_capacity hd) ((bih_tail hd + 1) mod bih_capacity hd) (bih_index hd).

Lemma slot_at_advance es hd first bs d :
  index_ok es hd first bs -> slot_at (advance hd) d = slot_at hd (d - 1).
Proof.
  intros Hok. pose proof (cap_pos _ _ _ _ Hok). unfold slot_at, advance. cbn. do 2 f_equal.
  rewrite Zminus_mod_idemp_l. f_equal. lia.
Qed.

Lemma index_push es hd first bs e f x :
  index_ok es hd first bs -> Z.of_nat (length bs) < bih_capacity hd -> slot_at hd (-1) = Some e ->
  (forall en, f en = mkIndexEntry (key_of (first + Z.of_nat (length bs))) (Some (Some x))) ->
  index_ok (alter f e es) (advance hd) first (bs ++ [x]).
Proof.
  intros Hok Hroom He Hf. pose proof Hok as [Hc Ht Hl Hn Hrange ? Hlive Hdead]. pose proof (cap_pos _ _ _ _ Hok).
  assert (slot_at hd (bih_capacity hd - 1) = Some e) as He'.
  { rewrite <- He, <- (slot_at_shift _ _ _ _ Hok (-1)). f_equal. lia. }
  constructor; cbn [advance bih_capacity bih_tail bih_index]; try done.
  - apply Z.mod_pos_bound. lia.
  - by rewrite length_alter.
  - rewrite length_app. cbn. lia.
  - intros k y Hk. rewrite (slot_at_advance _ _ _ _ _ Hok), length_app. cbn [length].
    apply lookup_app_Some in Hk as [Hk|[Hge Hk]].
    + pose proof (lookup_lt_Some _ _ _ Hk). destruct (Hlive k y Hk) as (e' & Hs & Hes). exists e'.
      replace (Z.of_nat (length bs + 1) - 1 - Z.of_nat k - 1) with (Z.of_nat (length bs) - 1 - Z.of_nat k) by lia.
      split; [done|]. rewrite alter_lookup_ne; [done|]. intros ->.
      pose proof (slot_at_inj _ _ _ _ Hok (bih_capacity hd - 1) (Z.of_nat (length bs) - 1 - Z.of_nat k) e' ltac:(lia) ltac:(lia) He' Hs). lia.
    + apply list_lookup_singleton_Some in Hk as [Hk <-]. assert (k = length bs) as -> by lia.
      exists e. split; [rewrite <- He; f_equal; lia|]. rewrite list_lookup_alter_eq.
      destruct (slot_at_total _ _ _ _ Hok (-1)) as (e' & E' & Hlt). rewrite He in E'. injection E' as <-.
      destruct (lookup_lt_is_Some_2 es e Hlt) as [en ->]. cbn. by rewrite Hf.
  - intros d Hd. rewrite length_app in Hd. cbn in Hd. rewrite (slot_at_advance _ _ _ _ _ Hok).
    destruct (Hdead (d - 1)) as (e' & en & Hs & Hes & Hf'); [lia|]. exists e', en. split; [done|]. split; [|done].
    rewrite alter_lookup_ne; [done|]. intros ->.
    pose proof (slot_at_inj _ _ _ _ Hok (bih_capacity hd - 1) (d - 1) e' ltac:(lia) ltac:(lia) He' Hs). lia.
Qed.

(** The oldest block is removed. *)
Lemma index_pop es hd first x bs e f :
  index_ok es hd first (x :: bs) -> slot_at hd (Z.of_nat (length bs)) = Some e ->
  (forall en, bie_value (f en) = Some None) ->
  index_ok (alter f e es) hd (first + 1) bs.
Proof.
  intros Hok He Hf. pose proof Hok as [Hc Ht Hl Hn Hrange Hroom Hlive Hdead]. cbn [length] in *.
  constructor; try done.
  - by rewrite length_alter.
  - lia.
  - intros k y Hk. pose proof (lookup_lt_Some _ _ _ Hk). destruct (Hlive (S k) y Hk) as (e' & Hs & Hes). exists e'.
    replace (Z.of_nat (S (length bs)) - 1 - Z.of_nat (S k)) with (Z.of_nat (length bs) - 1 - Z.of_nat k) in Hs by lia.
    split; [done|]. rewrite alter_lookup_ne.
    + rewrite Hes. do 3 f_equal. lia.
    + intros ->. pose proof (slot_at_inj _ _ _ _ Hok (Z.of_nat (length bs)) (Z.of_nat (length bs) - 1 - Z.of_nat k) e' ltac:(lia) ltac:(lia) He Hs). lia.
  - intros d Hd. destruct (decide (d = Z.of_nat (length bs))) as [->|Hne].
    + destruct (slot_at_total _ _ _ _ Hok (Z.of_nat (length bs))) as (e' & E' & Hlt). rewrite He in E'. injection E' as <-.
      destruct (lookup_lt_is_Some_2 es e Hlt) as [en Hen]. exists e, (f en). rewrite list_lookup_alter_eq, Hen.
      split; [done|]. split; [done|]. right. apply Hf.
    + destruct (Hdead d) as (e' & en & Hs & Hes & Hf'); [lia|]. exists e', en. split; [done|]. split; [|done].
      rewrite alter_lookup_ne; [done|]. intros ->.
      pose proof (slot_at_inj _ _ _ _ Hok (Z.of_nat (length bs)) d e' ltac:(lia) ltac:(lia) He Hs). lia.
Qed.

(** ** Growth *)

Lemma copy_index_spec es hd first bs fuel (m : nat) :
  index_ok es hd first bs -> (1 <= m <= fuel)%nat -> Z.of_nat m <= bih_capacity hd ->
  exists l, copy_index fuel hd ((bih_tail hd - Z.of_nat m) mod bih_capacity hd) = Ret l /\ length l = m /\
    forall i, (i < m)%nat -> l !! i = slot_at hd (Z.of_nat m - 1 - Z.of_nat i).
Proof.
  intros Hok. revert m. induction fuel as [|fuel IH]; intros m Hm Hc; [lia|]. cbn [copy_index].
  pose proof (cap_pos _ _ _ _ Hok). pose proof (io_tail _ _ _ _ Hok) as Ht.
  rewrite (land_cap _ _ _ _ Hok), Zplus_mod_idemp_l.
  replace (bih_tail hd - Z.of_nat m + 1) with (bih_tail hd - (Z.of_nat m - 1)) by lia. unfold slot at 1.
  change (bih_index hd !! Z.to_nat ((bih_tail hd - (Z.of_nat m - 1)) mod bih_capacity hd)) with (slot_at hd (Z.of_nat m - 1)).
  destruct (slot_at_total _ _ _ _ Hok (Z.of_nat m - 1)) as (e & He & _). rewrite He. cbn [of_option mbind outcome_bind].
  destruct (Z.eqb_spec ((bih_tail hd - (Z.of_nat m - 1)) mod bih_capacity hd) (bih_tail hd)) as [E|E].
  - assert (Z.of_nat m - 1 = 0) as E0.
    { eapply (mod_inj_range (bih_tail hd) _ 0 (bih_capacity hd)); [done|lia|]. rewrite E, Z.sub_0_r. by rewrite Z.mod_small. }
    exists [e]. split; [done|]. split; [cbn; lia|]. intros i Hi. replace i with 0%nat by lia. cbn.
    rewrite <- He. f_equal. lia.
  - assert (m <> 1%nat) as Hm1.
    { intros ->. apply E. change (Z.of_nat 1 - 1) with 0. rewrite Z.sub_0_r. by apply Z.mod_small. }
    destruct (IH (m - 1)%nat ltac:(lia) ltac:(lia)) as (l & El & Hl & Hi).
    replace (Z.of_nat m - 1) with (Z.of_nat (m - 1)) by lia. rewrite El. cbn [mbind outcome_bind].
    exists (e :: l). split; [done|]. split; [cbn; lia|]. intros [|i] Hi'; cbn.
    + rewrite <- He. f_equal. lia.
    + rewrite Hi by lia. f_equal. lia.
Qed.

(** The header [implicit_new_block_index] makes out of [hd]. *)
Definition grown (hd : BlockIndexHeader) (old : list nat) (n : nat) : BlockIndexHeader :=
  mkHeader (2 * bih_capacity hd) (bih_capacity hd - 1) (old ++ seq n (Z.to_nat (bih_capacity hd))).

Section Grow.
Context (es : list BlockIndexEntry) (hd : BlockIndexHeader) (first : Z) (bs : list nat) (old : list nat).
Context (Hok : index_ok es hd first bs) (Hlen : Z.of_nat (length old) = bih_capacity hd).
Context (Hold : forall i, (i < length old)%nat -> old !! i = slot_at hd (bih_capacity hd - 1 - Z.of_nat i)).

Lemma slot_at_grown_old d :
  0 <= d < bih_capacity hd -> slot_at (grown hd old (length es)) d = slot_at hd d.
Proof.
  intros Hd. unfold slot_at at 1. cbn [grown bih_index bih_tail bih_capacity].
  rewrite Z.mod_small by lia. rewrite lookup_app_l by lia. rewrite Hold by lia. f_equal. lia.
Qed.

Lemma slot_at_grown_new d :
  bih_capacity hd <= d < 2 * bih_capacity hd ->
  slot_at (grown hd old (length es)) d = Some (length es + Z.to_nat (2 * bih_capacity hd - 1 - d))%nat.
Proof.
  intros Hd. unfold slot_at. cbn [grown bih_index bih_tail bih_capacity].
  replace ((bih_capacity hd - 1 - d) mod (2 * bih_capacity hd)) with (3 * bih_capacity hd - 1 - d).
  2:{ apply Z.mod_unique with (-1); lia. }
  rewrite lookup_app_r by lia. rewrite lookup_seq. split; lia.
Qed.

Lemma old_range : Forall (fun e => (e < length es)%nat) old.
Proof.
  apply Forall_lookup. intros i e Hi. pose proof (lookup_lt_Some _ _ _ Hi). rewrite Hold in Hi by lia.
  destruct (slot_at_total _ _ _ _ Hok (bih_capacity hd - 1 - Z.of_nat i)) as (e' & E' & ?). congruence.
Qed.

Lemma old_nodup : NoDup old.
Proof.
  apply NoDup_alt. intros i j x Hi Hj. pose proof (lookup_lt_Some _ _ _ Hi). pose proof (lookup_lt_Some _ _ _ Hj).
  rewrite Hold in Hi, Hj by lia.
  assert (bih_capacity hd - 1 - Z.of_nat i = bih_capacity hd - 1 - Z.of_nat j); [|lia].
  eapply (slot_at_inj _ _ _ _ Hok); [| |exact Hi|exact Hj]; lia.
Qed.

Lemma index_grow :
  bih_capacity hd < 2 ^ 59 ->
  index_ok (es ++ replicate (Z.to_nat (bih_capacity hd)) (mkIndexEntry INVALID_BLOCK_BASE None))
    (grown hd old (length es)) first bs.
Proof.
  intros Hsmall. pose proof Hok as [Hc Ht Hl Hn Hrange Hroom Hlive Hdead]. pose proof (cap_pos _ _ _ _ Hok).
  pose proof old_range as Hor.
  constructor; cbn [grown bih_capacity bih_tail bih_index].
  - destruct Hc as (c & Hc & E). exists (c + 1). rewrite Z.pow_add_r by lia. split; [|lia].
    split; [lia|]. rewrite E in Hsmall. apply Z.pow_lt_mono_r_iff in Hsmall; lia.
  - lia.
  - rewrite length_app, length_seq. lia.
  - apply NoDup_app. split; [apply old_nodup|]. split; [|apply NoDup_seq].
    intros x Hx Hs%elem_of_seq. eapply Forall_forall in Hor; [|done]. lia.
  - rewrite Forall_app, length_app, length_replicate. split; [eapply Forall_impl; [exact Hor|]; cbn; lia|].
    apply Forall_forall. intros x Hx%elem_of_seq. lia.
  - lia.
  - intros k x Hk. pose proof (lookup_lt_Some _ _ _ Hk). rewrite slot_at_grown_old by lia.
    destruct (Hlive k x Hk) as (e & Hs & Hes). exists e. split; [done|]. by apply lookup_app_l_Some.
  - intros d Hd. destruct (Z.lt_ge_cases d (bih_capacity hd)) as [Hlt|Hge].
    + rewrite slot_at_grown_old by lia. destruct (Hdead d ltac:(lia)) as (e & en & Hs & Hes & Hf). exists e, en.
      split; [done|]. split; [|done]. by apply lookup_app_l_Some.
    + rewrite slot_at_grown_new by lia. eexists _, _. split; [done|].
      rewrite lookup_app_r, lookup_replicate_2 by lia. split; [done|]. by left.
Qed.
End Grow.

(** ** Lookup *)

Lemma mod_pow_mod a c n : 0 <= c <= n -> (a mod 2 ^ n) mod 2 ^ c = a mod 2 ^ c.
Proof.
  intros Hc. replace (2 ^ n) with (2 ^ c * 2 ^ (n - c)) by (rewrite <- Z.pow_add_r by lia; f_equal; lia).
  rewrite Z.rem_mul_r by (apply Z.pow_nonzero || apply Z.pow_pos_nonneg; lia).
  rewrite Z.mul_comm, Z_mod_plus_full. apply Z.mod_mod. apply Z.pow_nonzero; lia.
Qed.

Lemma entry_at_Ret p e en : index_entries p !! e = Some en -> entry_at p e = Ret en.
Proof. unfold entry_at. by intros ->. Qed.

(** A block is found by its distance from the block at the tail, whatever else the
    index holds. *)
Lemma index_find p hd hds j0 j e0 en0 e x idx :
  blockIndex p = hd :: hds -> (exists c, 5 <= c <= 59 /\ bih_capacity hd = 2 ^ c) -> 0 <= bih_tail hd < bih_capacity hd ->
  slot_at hd 0 = Some e0 -> index_entries p !! e0 = Some en0 -> bie_key en0 = key_of j0 ->
  slot_at hd (j0 - j) = Some e -> index_entries p !! e = Some (mkIndexEntry (key_of j) (Some (Some x))) -> idx / 32 = j ->
  let i := (bih_tail hd - (j0 - j)) mod bih_capacity hd in
  get_block_index_index_for_index p (u64 idx) = Ret (hd, i) /\ slot hd i = Ret e.
Proof.
  intros Ep (c & Hc & Ec) Ht Hs0 He0 Hk0 Hs He Hi i.
  assert (slot hd i = Ret e) as Hsl by (unfold slot; change (bih_index hd !! Z.to_nat i) with (slot_at hd (j0 - j)); by rewrite Hs).
  split; [|done]. unfold get_block_index_index_for_index, current_index. rewrite Ep. cbn [head of_option mbind outcome_bind].
  assert (slot hd (bih_tail hd) = Ret e0) as ->.
  { unfold slot, slot_at in *. rewrite Z.sub_0_r, Z.mod_small in Hs0 by done. by rewrite Hs0. }
  cbn [of_option mbind outcome_bind]. rewrite (entry_at_Ret _ _ _ He0). cbn [mbind outcome_bind]. rewrite Hk0, key_not_invalid, block_start_u64, Hi.
  assert (0 < 2 ^ c) by (apply Z.pow_pos_nonneg; lia). assert (2 ^ c <= 2 ^ 59) by (apply Z.pow_le_mono_r; lia).
  assert (Z.land (bih_tail hd +w (u64 (32 * j) -w key_of j0) / BLOCK_SIZE) (bih_capacity hd -w 1) = i) as ->.
  { rewrite Ec, (u64_small (2 ^ c - 1)) by (unfold is_u64, UINT64_MOD; lia). rewrite land_pow, u64_mod_pow by lia.
    unfold key_of, BLOCK_SIZE. rewrite u64_sub_l, u64_sub_r, u64_div_32.
    replace (32 * j - 32 * j0) with ((j - j0) * 32) by lia. rewrite Z.div_mul by lia. unfold i. rewrite Ec.
    rewrite <- Zplus_mod_idemp_r, mod_pow_mod, Zplus_mod_idemp_r by lia. f_equal. lia. }
  rewrite Hsl. cbn [mbind outcome_bind]. rewrite (entry_at_Ret _ _ _ He). cbn. fold (key_of j). by rewrite Z.eqb_refl.
Qed.

Lemma index_lookup p hd hds first bs k x idx :
  blockIndex p = hd :: hds -> index_ok (index_entries p) hd first bs -> bs !! k = Some x -> idx / 32 = first + Z.of_nat k ->
  exists i e, get_block_index_index_for_index p (u64 idx) = Ret (hd, i) /\
    i = (bih_tail hd - (Z.of_nat (length bs) - 1 - Z.of_nat k)) mod bih_capacity hd /\
    slot hd i = Ret e /\ slot_at hd (Z.of_nat (length bs) - 1 - Z.of_nat k) = Some e /\
    index_entries p !! e = Some (mkIndexEntry (key_of (first + Z.of_nat k)) (Some (Some x))).
Proof.
  intros Ep Hok Hk Hi. pose proof (lookup_lt_Some _ _ _ Hk). pose proof Hok as [Hc Ht Hl Hn Hrange Hroom Hlive Hdead].
  destruct (lookup_lt_is_Some_2 bs (length bs - 1)) as [y Hy]; [lia|].
  destruct (Hlive _ _ Hy) as (e0 & Hs0 & He0). destruct (Hlive _ _ Hk) as (e & Hs & He).
  replace (Z.of_nat (length bs) - 1 - Z.of_nat (length bs - 1)) with 0 in Hs0 by lia.
  assert (Z.of_nat (length bs) - 1 - Z.of_nat k = first + Z.of_nat (length bs - 1) - (first + Z.of_nat k)) as Ed by lia. rewrite Ed in *.
  destruct (index_find p hd hds _ _ _ _ e x idx Ep Hc Ht Hs0 He0 eq_refl Hs He Hi) as [Eg Esl]. by eexists _, e.
Qed.

Corollary entry_lookup p hd hds first bs k x idx :
  blockIndex p = hd :: hds -> index_ok (index_entries p) hd first bs -> bs !! k = Some x -> idx / 32 = first + Z.of_nat k ->
  exists e, get_block_index_entry_for_index p (u64 idx) = Ret e /\ entry_block p e = Ret x /\
    slot_at hd (Z.of_nat (length bs) - 1 - Z.of_nat k) = Some e.
Proof.
  intros Ep Hok Hk Hi. destruct (index_lookup p hd hds first bs k x idx Ep Hok Hk Hi) as (i & e & E & _ & Hs & Hsa & He).
  exists e. unfold get_block_index_entry_for_index, entry_block, entry_at. rewrite E. cbn [mbind outcome_bind].
  rewrite Hs, He. done.
Qed.
