(* ===== verification/ImplicitSpec.v ===== *)
(** * The implicit producer is a first-in first-out queue

    [imp_rep h p q hd bs]: the producer [p] in the heap [h] holds the elements [q],
    the oldest at index [hd], in the blocks [bs].  Every operation is shown against
    the list [q]; the blocks of other owners (the frame [F]) are left alone. *)
From S2P Require Import Prelude QueueDetails QueueBlock Producer ImplicitProducer ImplicitIndex.

(** ** The index of a producer *)

Definition idx_rep (p : ImplicitProducer) (first : Z) (bs : list nat) : Prop :=
  match blockIndex p with
  | [] => bs = []
  | hd :: _ => index_ok (index_entries p) hd first bs /\ nextBlockIndexCapacity p = 2 * bih_capacity hd
  end.

(** A new tail entry, before its block is known: with a block it is part of the
    index, and when it is taken back the index is as before. *)
Definition pending (p : ImplicitProducer) (e : nat) (first : Z) (bs : list nat) : Prop :=
  (forall x, idx_rep (store_value p e (Some x)) first (bs ++ [x])) /\
  exists p', rewind_block_index_tail p = Ret p' /\ imp_base p' = imp_base p /\ idx_rep (store_value p' e None) first bs.

Lemma alter_alter {A} (f g : A -> A) i (l : list A) : alter f i (alter g i l) = alter (f ∘ g) i l.
Proof. revert i. induction l as [|x l IH]; intros [|i]; cbn; try done. f_equal. apply IH. Qed.

Lemma insert_room p hd hds first bs e :
  blockIndex p = hd :: hds -> index_ok (index_entries p) hd first bs -> nextBlockIndexCapacity p = 2 * bih_capacity hd ->
  Z.of_nat (length bs) < bih_capacity hd -> slot_at hd (-1) = Some e ->
  pending (set_tail (store_key p e (key_of (first + Z.of_nat (length bs)))) hd
             (Z.land (bih_tail hd +w 1) (bih_capacity hd -w 1))) e first bs.
Proof.
  intros Ep Hok Hnext Hroom He. rewrite (land_cap _ _ _ _ Hok).
  unfold set_tail, store_key. cbn [set_entries blockIndex]. rewrite Ep. cbn [tail].
  fold (advance hd). split.
  - intros x. unfold idx_rep, store_value. cbn. rewrite alter_alter. split; [|done].
    by apply index_push.
  - eexists. split; [done|]. split; [done|]. unfold idx_rep, store_value. cbn. rewrite alter_alter.
    rewrite (land_cap _ _ _ _ Hok), Zminus_mod_idemp_l.
    replace (bih_tail hd + 1 - 1) with (bih_tail hd) by lia.
    pose proof (io_tail _ _ _ _ Hok). rewrite Z.mod_small by done. destruct hd as [cap t l]. cbn in *.
    split; [|done]. by apply index_cancel.
Qed.

(** [malloc] changes nothing else. *)
Definition mem_only {T} (h h' : Heap T) : Prop :=
  exists m, h' = mkHeap (blocks h) (fresh h) m (initialBlockPoolIndex h) (initialBlockPoolSize h) (freeListHead h) /\
    (mem_ok h -> Forall (fun r => r = true) m).

Section Spec.
Context {T : Type}.
Implicit Types (h : Heap T) (q : list T).

Lemma mem_only_refl h : mem_only h h.
Proof. exists (mem h). by destruct h. Qed.

Lemma mem_only_inv h h' F : mem_only h h' -> heap_inv h F -> heap_inv h' F.
Proof. intros (m & -> & _) []. by constructor. Qed.

Lemma malloc_spec h : let '(ok, h') := malloc h in mem_only h h' /\ (mem_ok h -> ok = true).
Proof.
  unfold malloc. destruct (mem h) as [|r rest] eqn:E.
  - split; [apply mem_only_refl|done].
  - split; [|unfold mem_ok; rewrite E; by inversion 1]. exists rest. split; [done|]. unfold mem_ok. rewrite E. by inversion 1.
Qed.

(** The new slot of an index that has just grown was never used. *)
Lemma grown_slot_fresh es hd old :
  0 < bih_capacity hd -> Z.of_nat (length old) = bih_capacity hd ->
  exists e, slot_at (grown hd old (length es)) (-1) = Some e /\
    (es ++ replicate (Z.to_nat (bih_capacity hd)) (mkIndexEntry INVALID_BLOCK_BASE None)) !! e = Some (mkIndexEntry INVALID_BLOCK_BASE None).
Proof.
  intros Hc Hl. exists (length es). unfold slot_at. cbn [grown bih_index bih_tail bih_capacity].
  rewrite Z.mod_small by lia. replace (Z.to_nat _) with (length old) by lia.
  rewrite lookup_app_r, Nat.sub_diag by lia. rewrite lookup_seq. split; [lia|].
  rewrite lookup_app_r, Nat.sub_diag, lookup_replicate_2 by lia. done.
Qed.

Lemma new_block_index_spec h p hd hds first bs :
  blockIndex p = hd :: hds -> index_ok (index_entries p) hd first bs -> nextBlockIndexCapacity p = 2 * bih_capacity hd ->
  bih_capacity hd < 2 ^ 59 ->
  exists ok h' p', implicit_new_block_index h p = Ret (ok, h', p') /\ mem_only h h' /\ imp_base p' = imp_base p /\
    (mem_ok h -> ok = true) /\
    if (ok : bool) then exists old, blockIndex p' = grown hd old (length (index_entries p)) :: hd :: hds /\
       Z.of_nat (length old) = bih_capacity hd /\
       index_entries p' = index_entries p ++ replicate (Z.to_nat (bih_capacity hd)) (mkIndexEntry INVALID_BLOCK_BASE None) /\
       nextBlockIndexCapacity p' = 2 * (2 * bih_capacity hd) /\
       index_ok (index_entries p') (grown hd old (length (index_entries p))) first bs
    else p' = p.
Proof.
  intros Ep Hok Hnext Hc. unfold implicit_new_block_index. rewrite Ep. cbn [head].
  pose proof (malloc_spec h) as Hm. destruct (malloc h) as [ok h']. destruct Hm as [Hm Hm2]. destruct ok; cbn [negb].
  2:{ by eexists false, _, _. }
  pose proof (cap_pos _ _ _ _ Hok). pose proof (io_tail _ _ _ _ Hok).
  destruct (copy_index_spec _ _ _ _ (Z.to_nat (bih_capacity hd)) (Z.to_nat (bih_capacity hd)) Hok) as (old & E & Hl & Hi); [lia|lia|].
  rewrite Z2Nat.id in E by lia.
  replace ((bih_tail hd - bih_capacity hd) mod bih_capacity hd) with (bih_tail hd) in E.
  2:{ replace (bih_tail hd - bih_capacity hd) with (bih_tail hd + (-1) * bih_capacity hd) by lia.
      rewrite Z_mod_plus_full. symmetry. by apply Z.mod_small. }
  rewrite E. cbn [mbind outcome_bind]. rewrite Hl, Z2Nat.id, Z.eqb_refl by lia.
  eexists true, _, _. split; [done|]. split; [done|]. split; [done|]. split; [done|]. exists old. cbn.
  assert (Z.land (bih_capacity hd -w 1) (nextBlockIndexCapacity p -w 1) = bih_capacity hd - 1) as ->.
  { rewrite Hnext. destruct (io_cap _ _ _ _ Hok) as (c & Hc' & Ec). rewrite Ec in *.
    rewrite !(u64_small (_ - 1)) by (unfold is_u64, UINT64_MOD; lia).
    replace (2 * 2 ^ c) with (2 ^ (c + 1)) by (rewrite Z.pow_add_r by lia; lia).
    rewrite land_pow by lia. apply Z.mod_small. rewrite Z.pow_add_r by lia. lia. }
  rewrite Hnext. unfold grown. split; [done|]. split; [lia|]. split; [done|]. split.
  { rewrite Z.shiftl_mul_pow2 by lia. rewrite u64_small; [lia|]. unfold is_u64, UINT64_MOD. lia. }
  apply (index_grow _ _ _ _ old); [done|lia| |done]. intros i Hi'. rewrite Hi by lia. f_equal. lia.
Qed.

Lemma insert_spec allocMode h p first bs :
  idx_rep p first bs -> Z.of_nat (length bs) < 2 ^ 59 ->
  exists o h' p', insert_block_index_entry allocMode h p (key_of (first + Z.of_nat (length bs))) = Ret (o, h', p') /\
    mem_only h h' /\ imp_base p' = imp_base p /\ (blockIndex p <> [] -> blockIndex p' <> []) /\
    match o with
    | None => idx_rep p' first bs /\ (blockIndex p = [] \/ allocMode = CannotAlloc \/ ~ mem_ok h)
    | Some e => pending p' e first bs
    end.
Proof.
  unfold idx_rep at 1. intros Hr Hlen. unfold insert_block_index_entry. destruct (blockIndex p) as [|hd hds] eqn:Ep; cbn [head].
  { eexists _, _, _. split; [done|]. split; [apply mem_only_refl|]. split; [done|]. split; [done|]. unfold idx_rep. rewrite Ep. auto. }
  destruct Hr as [Hok Hnext].
  replace (bih_tail hd +w 1) with (u64 (bih_tail hd - -1)) by (f_equal; lia).
  rewrite (slot_land _ _ _ _ Hok). destruct (slot_at_total _ _ _ _ Hok (-1)) as (e & He & Hlt). rewrite He.
  destruct (lookup_lt_is_Some_2 _ _ Hlt) as [en Hen]. cbn [of_option mbind outcome_bind]. rewrite (entry_at_Ret _ _ _ Hen).
  cbn [mbind outcome_bind]. replace (bih_tail hd - -1) with (bih_tail hd + 1) by lia.
  assert (slot_at hd (bih_capacity hd - 1) = Some e) as He'.
  { rewrite <- He, <- (slot_at_shift _ _ _ _ Hok (-1)). f_equal. lia. }
  destruct (Z.lt_ge_cases (Z.of_nat (length bs)) (bih_capacity hd)) as [Hroom|Hfull].
  - destruct (io_dead _ _ _ _ Hok (bih_capacity hd - 1)) as (e' & en' & Hs & Hes & Hd); [lia|].
    assert (e' = e) as -> by congruence. assert (en' = en) as -> by congruence.
    assert (exists v, (if bie_key en =? INVALID_BLOCK_BASE then Ret true
              else v ← entry_value en; Ret match v with Some _ => false | None => true end) = Ret v /\ v = true) as (v & -> & ->).
    { unfold entry_value. destruct Hd as [Hd|Hd]; rewrite Hd; [by eexists|]. destruct (_ =? _); by eexists. }
    cbn [mbind outcome_bind]. eexists _, _, _. split; [done|]. split; [apply mem_only_refl|]. split; [done|]. split; [done|]. by eapply insert_room.
  - assert (Z.of_nat (length bs) = bih_capacity hd) as Efull by (pose proof (io_room _ _ _ _ Hok); lia).
    pose proof (cap_pos _ _ _ _ Hok).
    destruct (lookup_lt_is_Some_2 bs 0) as [x Hx]; [lia|]. destruct (io_live _ _ _ _ Hok _ _ Hx) as (e' & Hs & Hes).
    replace (Z.of_nat (length bs) - 1 - Z.of_nat 0) with (bih_capacity hd - 1) in Hs by lia.
    assert (e' = e) as -> by congruence. rewrite Hen in Hes. injection Hes as ->. cbn [bie_key]. rewrite key_not_invalid. cbn.
    destruct allocMode; [|eexists _, _, _; split; [done|]; split; [apply mem_only_refl|]; split; [done|]; split; [by rewrite Ep|]; unfold idx_rep; rewrite Ep; auto].
    destruct (new_block_index_spec h p hd hds first bs Ep Hok Hnext) as (ok & h' & p' & -> & Hm & Eb & Hmk & Hp'); [lia|].
    cbn [mbind outcome_bind]. destruct ok; cbn [negb].
    2:{ subst p'. eexists _, _, _. split; [done|]. split; [done|]. split; [done|]. split; [by rewrite Ep|]. split; [unfold idx_rep; by rewrite Ep|].
        do 2 right. intros Hk. by specialize (Hmk Hk). }
    destruct Hp' as (old & Ep' & Ho & Ees & Hn' & Hok'). unfold current_index. rewrite Ep'. cbn [head of_option mbind outcome_bind].
    set (hd' := grown hd old (length (index_entries p))) in *.
    replace (bih_tail hd' +w 1) with (u64 (bih_tail hd' - -1)) by (f_equal; lia).
    rewrite (slot_land _ _ _ _ Hok'). destruct (grown_slot_fresh (index_entries p) hd old) as (e1 & He1 & Hes1); [lia|lia|].
    fold hd' in He1. rewrite He1, <- Ees in *. cbn [of_option mbind outcome_bind]. rewrite (entry_at_Ret _ _ _ Hes1).
    cbn [mbind outcome_bind bie_key]. change (INVALID_BLOCK_BASE =? INVALID_BLOCK_BASE) with true. cbv iota.
    eexists _, _, _. split; [done|]. split; [done|]. split; [done|]. split; [done|].
    replace (bih_tail hd' - -1) with (bih_tail hd' + 1) by lia. eapply insert_room; try done.
    subst hd'; cbn. lia.
Qed.

(** ** The elements in the blocks *)

(** Element number [z] of the queue, nothing outside of it. *)
Definition zget q (z : Z) : option T := if 0 <=? z then q !! Z.to_nat z else None.

Lemma zget_out q z : z < 0 \/ Z.of_nat (length q) <= z -> zget q z = None.
Proof. unfold zget. intros Hz. zbool; [|done]. apply lookup_ge_None_2. lia. Qed.

Lemma zget_in q z : 0 <= z < Z.of_nat (length q) -> is_Some (zget q z).
Proof. intros Hz. unfold zget. zbool; [|lia]. apply lookup_lt_is_Some_2. lia. Qed.

Lemma zget_app q v z : zget (q ++ [v]) z = if z =? Z.of_nat (length q) then Some v else zget q z.
Proof.
  destruct (Z.eqb_spec z (Z.of_nat (length q))) as [->|Hne].
  - unfold zget. zbool; [|lia]. rewrite Nat2Z.id. by apply list_lookup_middle.
  - destruct (Z.lt_ge_cases z (Z.of_nat (length q))).
    + unfold zget. zbool; [|done]. by rewrite lookup_app_l by lia.
    + rewrite (zget_out q) by lia. apply zget_out. rewrite length_app. cbn. lia.
Qed.

Lemma zget_cons v q z : zget (v :: q) z = if z =? 0 then Some v else zget q (z - 1).
Proof.
  unfold zget. destruct (Z.eqb_spec z 0) as [->|Hne]; [done|].
  destruct (Z.leb_spec 0 z), (Z.leb_spec 0 (z - 1)); try lia; [|done].
  replace (Z.to_nat z) with (S (Z.to_nat (z - 1))) by lia. done.
Qed.

(** The slots of a block that hold what [f] says. *)
Definition slots (f : nat -> option T) : list (option T) := f <$> seq 0 32.
Arguments slots : simpl never.

Lemma slots_length f : length (slots f) = 32%nat.
Proof. unfold slots. by rewrite length_fmap, length_seq. Qed.

Lemma slots_lookup f i : slots f !! i = if decide (i < 32)%nat then Some (f i) else None.
Proof.
  case_decide.
  - unfold slots. by rewrite list_lookup_fmap, lookup_seq_lt by done.
  - apply lookup_ge_None_2. rewrite slots_length. lia.
Qed.

Lemma slots_ext f g : (forall i, (i < 32)%nat -> f i = g i) -> slots f = slots g.
Proof. intros Hfg. apply list_eq. intros i. rewrite !slots_lookup. case_decide; [|done]. f_equal. by apply Hfg. Qed.

Lemma slots_none f : (forall i, (i < 32)%nat -> f i = None) -> slots f = replicate (Z.to_nat BLOCK_SIZE) None.
Proof.
  intros Hf. apply list_eq. intros i. rewrite slots_lookup. case_decide.
  - rewrite Hf, lookup_replicate_2 by done. done.
  - symmetry. apply lookup_ge_None_2. rewrite length_replicate. unfold BLOCK_SIZE. lia.
Qed.

(** Changing one slot. *)
Lemma slots_insert f o j : (j < 32)%nat -> <[j := o]> (slots f) = slots (fun i => if decide (i = j) then o else f i).
Proof.
  intros Hj. apply list_eq. intros i. rewrite list_lookup_insert, !slots_lookup, slots_length.
  repeat case_decide; naive_solver lia.
Qed.

(** Block number [j] of a queue whose oldest element has index [hd]: the counter is
    the number of its elements that are gone, the slots hold the others. *)
Record block_rep (b : Block T) (hd : Z) q (j : Z) : Prop := mk_block_rep {
  bk_count : elementsCompletelyDequeued b = Z.max 0 (hd - 32 * j);
  bk_elements : elements b = slots (fun i => zget q (32 * j + Z.of_nat i - hd)) }.

Lemma bk_length b hd q j : block_rep b hd q j -> length (elements b) = Z.to_nat BLOCK_SIZE.
Proof. intros [_ ->]. by rewrite slots_length. Qed.

Lemma offset_u64 i : offset (u64 i) = Z.to_nat (i mod 32).
Proof. by rewrite offset_spec, u64_mod_32. Qed.

(** A new element at the end. *)
Lemma block_rep_push b hd q v t :
  t = hd + Z.of_nat (length q) -> block_rep b hd q (t / 32) ->
  block_rep (block_set b (u64 t) (Some v)) hd (q ++ [v]) (t / 32).
Proof.
  intros Et [Hc He]. constructor; [exact Hc|]. cbn. rewrite He, offset_u64.
  pose proof (Z.mod_pos_bound t 32 ltac:(lia)). pose proof (Z.div_mod t 32 ltac:(lia)).
  rewrite slots_insert by lia. apply slots_ext. intros i Hi. rewrite zget_app.
  case_decide; zbool; try done; lia.
Qed.

Lemma block_rep_push_other b hd q v j :
  block_rep b hd q j -> j <> (hd + Z.of_nat (length q)) / 32 -> block_rep b hd (q ++ [v]) j.
Proof.
  intros [Hc He] Hj. constructor; [done|]. rewrite He. apply slots_ext. intros i Hi. rewrite zget_app.
  pose proof (Z.div_mod (hd + Z.of_nat (length q)) 32 ltac:(lia)). pose proof (Z.mod_pos_bound (hd + Z.of_nat (length q)) 32 ltac:(lia)).
  zbool; [lia|done].
Qed.

(** A raw block behind the last element. *)
Lemma block_rep_raw b hd q t :
  raw b -> t = hd + Z.of_nat (length q) -> t mod 32 = 0 -> block_rep (reset_empty implicit_context b) hd q (t / 32).
Proof.
  intros Hr Et Hm. pose proof (Z.div_mod t 32 ltac:(lia)). constructor; cbn; [lia|]. rewrite Hr.
  symmetry. apply slots_none. intros i Hi. apply zget_out. lia.
Qed.

(** The oldest element is destroyed. *)
Lemma block_rep_pop b hd q v j :
  j = hd / 32 -> block_rep b hd (v :: q) j ->
  block_get b (u64 hd) = Some v /\
  elementsCompletelyDequeued b = hd mod 32 /\
  block_rep (set_counter (block_set b (u64 hd) None) (hd mod 32 + 1)) (hd + 1) q j.
Proof.
  intros -> [Hc He]. pose proof (Z.mod_pos_bound hd 32 ltac:(lia)). pose proof (Z.div_mod hd 32 ltac:(lia)).
  split; [|split; [lia|]].
  - unfold block_get. rewrite He, offset_u64, slots_lookup, decide_True by lia. cbn.
    rewrite zget_cons. zbool; [done|lia].
  - constructor; cbn; [lia|]. rewrite He, offset_u64, slots_insert by lia. apply slots_ext. intros i Hi.
    rewrite zget_cons. case_decide; [rewrite zget_out by lia; done|]. zbool; [lia|]. f_equal. lia.
Qed.

Lemma block_rep_pop_other b hd q v j :
  block_rep b hd (v :: q) j -> hd / 32 < j -> block_rep b (hd + 1) q j.
Proof.
  intros [Hc He] Hj. pose proof (Z.mod_pos_bound hd 32 ltac:(lia)). pose proof (Z.div_mod hd 32 ltac:(lia)).
  constructor; [rewrite Hc; lia|]. rewrite He. apply slots_ext. intros i Hi. rewrite zget_cons. zbool; [lia|].
  f_equal. lia.
Qed.

(** A block whose elements are all gone is raw. *)
Lemma block_rep_gone b hd q j : block_rep b hd q j -> 32 * j + 31 < hd -> raw b.
Proof.
  intros [_ He] Hj. unfold raw. rewrite He. apply slots_none. intros i Hi. apply zget_out. lia.
Qed.

Definition blocks_rep h (hd : Z) q (bs : list nat) : Prop :=
  forall k x, bs !! k = Some x -> exists b, blocks h !! x = Some b /\ block_rep b hd q (hd / 32 + Z.of_nat k).

Record imp_rep h (p : ImplicitProducer) q (hd : Z) (bs : list nat) : Prop := mk_imp_rep {
  ir_base : base_rep (imp_base p) hd (Z.of_nat (length q));
  ir_count : Z.of_nat (length bs) = (hd + Z.of_nat (length q) + 31) / 32 - hd / 32;
  ir_fits : 32 * ((hd + Z.of_nat (length q) + 31) / 32) - hd < 9223372036854775808;
  ir_nodup : NoDup bs;
  ir_blocks : blocks_rep h hd q bs;
  ir_tail : bs <> [] -> tailBlock (imp_base p) = last bs;
  ir_index : idx_rep p (hd / 32) bs }.

(** What others do with their blocks does not matter. *)
Lemma imp_rep_frame h h' p q hd bs :
  same_blocks (list_to_set bs) h h' -> imp_rep h p q hd bs -> imp_rep h' p q hd bs.
Proof.
  intros Hs [? ? ? ? Hb ? ?]. constructor; try done. intros k x Hk. destruct (Hb k x Hk) as (b & E & Hr).
  exists b. rewrite Hs; [done|]. apply elem_of_list_to_set. by eapply list_elem_of_lookup_2.
Qed.

(** ** Enqueue *)

(** [F] are the blocks of others, [bs] those of the producer. *)
Definition own h (F : gset nat) (bs : list nat) : Prop :=
  heap_inv h (F ∪ list_to_set bs) /\ F ## list_to_set bs.

(** A step that takes the producer's blocks from [bs] to [bs']. *)
Definition stepped (F : gset nat) h h' (bs' : list nat) : Prop :=
  own h' F bs' /\ same_blocks F h h' /\ (mem_ok h -> mem_ok h').

Lemma own_write h F bs x b b0 :
  own h F bs -> x ∈ bs -> freeListRefs b = 0 -> length (elements b) = Z.to_nat BLOCK_SIZE ->
  blocks h !! x = Some b0 -> dynamicallyAllocated b = dynamicallyAllocated b0 ->
  stepped F h (put_block h x b) bs.
Proof.
  intros [Hi Hd] Hx Hr Hl Hb0 Hdyn. apply (elem_of_list_to_set (C := gset nat)) in Hx.
  split; [split; [|done]|split; [|done]].
  - eapply heap_inv_put; [done| |done|done|done|done]. apply elem_of_union. by right.
  - intros y Hy. rewrite put_block_lookup, decide_False; [done|]. intros ->. by apply (Hd y).
Qed.

Lemma own_put h F bs x b b0 k q hd j :
  own h F bs -> bs !! k = Some x -> block_rep b hd q j -> freeListRefs b = 0 ->
  blocks h !! x = Some b0 -> dynamicallyAllocated b = dynamicallyAllocated b0 ->
  stepped F h (put_block h x b) bs.
Proof.
  intros Ho Hk Hb Hr Hb0 Hdyn. eapply own_write; [done|by eapply list_elem_of_lookup_2|done|by eapply bk_length|done|done].
Qed.

Lemma own_refs h F bs k x b : own h F bs -> bs !! k = Some x -> blocks h !! x = Some b -> freeListRefs b = 0.
Proof.
  intros [Hi _] Hk Hb. destruct (hi_owned _ _ Hi x) as (b' & Hb' & Hr & _); [|congruence].
  apply elem_of_union. right. apply elem_of_list_to_set. by eapply list_elem_of_lookup_2.
Qed.

Lemma own_mem_only h h' F bs : own h F bs -> mem_only h h' -> own h' F bs.
Proof. intros [Hi Hd] Hm. split; [|done]. by eapply mem_only_inv. Qed.

Lemma mem_only_blocks h h' : mem_only h h' -> blocks h' = blocks h /\ (mem_ok h -> mem_ok h').
Proof. by intros (m & -> & Hm). Qed.

Lemma own_push h F bs x : heap_inv h ({[x]} ∪ (F ∪ list_to_set bs)) -> F ## list_to_set bs ->
  x ∉ F ∪ list_to_set bs -> own h F (bs ++ [x]).
Proof.
  intros Hi Hd Hx. assert (list_to_set (bs ++ [x]) = {[x]} ∪ list_to_set bs :> gset nat) as E.
  { rewrite list_to_set_app_L. cbn. set_solver. }
  split; rewrite E; [|set_solver]. by replace (F ∪ ({[x]} ∪ list_to_set bs)) with ({[x]} ∪ (F ∪ list_to_set bs)) by set_solver.
Qed.

Lemma enqueue_at_tail_spec h p q hd bs F v :
  let t := hd + Z.of_nat (length q) in
  own h F bs -> base_rep (imp_base p) hd (Z.of_nat (length q)) -> blocks_rep h hd q bs -> NoDup bs ->
  idx_rep p (hd / 32) bs -> tailBlock (imp_base p) = last bs ->
  Z.of_nat (length bs) = t / 32 + 1 - hd / 32 -> 32 * (t / 32 + 1) - hd < 9223372036854775808 ->
  exists h' p', enqueue_at_tail h p (Some v) = Ret (Enqueued, h', p') /\ stepped F h h' bs /\
    imp_rep h' p' (q ++ [v]) hd bs /\ blockIndex p' = blockIndex p.
Proof.
  intros t Hown Hbase Hblocks Hnd Hidx Htail Hlen Hfits. unfold enqueue_at_tail.
  pose proof (Z.div_mod t 32 ltac:(lia)). pose proof (Z.mod_pos_bound t 32 ltac:(lia)).
  assert (hd / 32 <= t / 32) by (apply Z.div_le_mono; lia).
  set (k := (length bs - 1)%nat). destruct (lookup_lt_is_Some_2 bs k) as [x Hx]; [lia|].
  rewrite Htail, last_lookup. replace (pred (length bs)) with k by lia. rewrite Hx. cbn [of_option mbind outcome_bind].
  destruct (Hblocks k x Hx) as (b & Hb & Hrep). replace (hd / 32 + Z.of_nat k) with (t / 32) in Hrep by lia.
  pose proof (own_refs _ _ _ _ _ _ Hown Hx Hb) as Hr.
  unfold construct_object. rewrite (get_block_Ret _ _ _ Hb). cbn [mbind outcome_bind].
  rewrite (br_tail _ _ _ Hbase). fold t. pose proof (block_rep_push b hd q v t eq_refl Hrep) as Hrep'.
  eexists _, _. split; [done|]. split; [by eapply own_put|]. split; [|done].
  assert (Z.of_nat (length (q ++ [v])) = Z.of_nat (length q) + 1) as El by (rewrite length_app; cbn; lia).
  assert ((hd + (Z.of_nat (length q) + 1) + 31) / 32 = t / 32 + 1) as Ed.
  { replace (hd + (Z.of_nat (length q) + 1) + 31) with (t + 1 * 32) by lia. by rewrite Z.div_add by lia. }
  constructor; cbn [set_base imp_base]; rewrite ?El, ?Ed; try done.
  - replace (1 +w u64 t) with (u64 (hd + Z.of_nat (length q)) +w 1) by (subst t; f_equal; lia).
    pose proof (base_rep_push _ _ _ 1 (tailBlock (imp_base p)) Hbase ltac:(lia) ltac:(lia)) as Hp.
    by destruct (imp_base p).
  - intros k' x' Hk'. rewrite put_block_lookup. case_decide as Hxx.
    + subst x'. assert (k' = k) as -> by (by eapply NoDup_lookup). eexists. split; [done|].
      by replace (hd / 32 + Z.of_nat k) with (t / 32) by lia.
    + destruct (Hblocks k' x' Hk') as (b' & Hb' & Hr'). exists b'. split; [done|].
      apply block_rep_push_other; [done|]. fold t. intros E. apply Hxx.
      pose proof (lookup_lt_Some _ _ _ Hk'). assert (k' = k) by lia. congruence.
Qed.

(** The constructor that may throw is called before the block is published; when
    it succeeds the end is the same. *)
Lemma enqueue_fresh_eq h p x v :
  (h' ← construct_object h x (tailIndex (imp_base p)) v;
   Ret (Enqueued, h', set_base p (set_tailIndex (set_tailBlock (imp_base p) (Some x)) (1 +w tailIndex (imp_base p))))) =
  enqueue_at_tail h (set_base p (set_tailBlock (imp_base p) (Some x))) (Some v).
Proof. done. Qed.

(** Why an element is refused. *)
Definition refusal (allocMode : AllocationMode) h (p : ImplicitProducer) q : Prop :=
  blockIndex p = [] \/ allocMode = CannotAlloc \/ ~ mem_ok h \/ 9223372036854775808 <= Z.of_nat (length q) + 32.

Lemma blocks_rep_same h h' hd q bs : same_blocks (list_to_set bs) h h' -> blocks_rep h hd q bs -> blocks_rep h' hd q bs.
Proof.
  intros Hs Hb k x Hk. destruct (Hb k x Hk) as (b & E & Hr). exists b. rewrite Hs; [done|].
  apply elem_of_list_to_set. by eapply list_elem_of_lookup_2.
Qed.

Lemma stepped_trans F h1 h2 h3 bs2 bs3 : stepped F h1 h2 bs2 -> stepped F h2 h3 bs3 -> stepped F h1 h3 bs3.
Proof. intros (? & S1 & M1) (? & S2 & M2). split; [done|]. split; [by eapply same_blocks_trans|auto]. Qed.

Lemma stepped_refl F h bs : own h F bs -> stepped F h h bs.
Proof. intros. split; [done|]. split; [apply same_blocks_refl|done]. Qed.

Lemma stepped_mem_only F h h' bs : own h F bs -> mem_only h h' -> stepped F h h' bs.
Proof.
  intros Ho Hm. destruct (mem_only_blocks _ _ Hm) as [E M]. split; [by eapply own_mem_only|]. split; [|done].
  intros x _. by rewrite E.
Qed.

(** Giving back the block that was just taken. *)
Lemma own_pop_last h F bs x b :
  own h F (bs ++ [x]) -> x ∉ bs -> blocks h !! x = Some b -> raw b ->
  exists h', add_block_to_free_list h x = Ret h' /\ stepped F h h' bs /\ same_blocks (list_to_set bs) h h'.
Proof.
  intros [Hi Hd] Hx Hb Hw. assert (list_to_set (bs ++ [x]) = {[x]} ∪ list_to_set bs :> gset nat) as E.
  { rewrite list_to_set_app_L. cbn. set_solver. }
  rewrite E in *. assert (x ∉ F) as HxF by set_solver.
  destruct (add_block_to_free_list_spec h _ x b Hi) as (h' & Eh & Hi' & Hs & Em); [set_solver|done|done|].
  replace ((F ∪ ({[x]} ∪ list_to_set bs)) ∖ {[x]}) with (F ∪ list_to_set bs : gset nat) in *.
  2:{ apply leibniz_equiv. intros y. rewrite !elem_of_difference, !elem_of_union, elem_of_list_to_set, elem_of_singleton. naive_solver. }
  exists h'. split; [done|]. split.
  - split; [split; [done|set_solver]|]. split; [by eapply same_blocks_mono; [|exact Hs]; set_solver|]. unfold mem_ok. by rewrite Em.
  - eapply same_blocks_mono; [|exact Hs]. set_solver.
Qed.

(** Putting a new block at the end of the chain. *)
Lemma take_block_spec canAlloc garbage h F bs hd q :
  let t := hd + Z.of_nat (length q) in
  own h F bs -> NoDup bs -> blocks_rep h hd q bs -> t mod 32 = 0 -> Z.of_nat (length bs) = t / 32 - hd / 32 ->
  exists o h', requisition_block canAlloc garbage h = Ret (o, h') /\
    (canAlloc = CanAlloc -> mem_ok h -> is_Some o) /\
    match o with
    | None => stepped F h h' bs /\ blocks_rep h' hd q bs
    | Some x => exists b, get_block h' x = Ret b /\ raw b /\ (x ∉ bs) /\
        stepped F h (put_block h' x (reset_empty implicit_context b)) (bs ++ [x]) /\
        blocks_rep (put_block h' x (reset_empty implicit_context b)) hd q (bs ++ [x]) /\ NoDup (bs ++ [x])
    end.
Proof.
  intros t [Hi Hd] Hnd Hb Ht Hlen.
  destruct (requisition_block_spec canAlloc garbage h _ Hi) as (o & h' & E & (Hs & Hm & Ho) & Hc).
  exists o, h'. split; [done|]. split; [done|].
  assert (same_blocks F h h') as HsF by (eapply same_blocks_mono; [|exact Hs]; set_solver).
  assert (same_blocks (list_to_set bs) h h') as Hsb by (eapply same_blocks_mono; [|exact Hs]; set_solver).
  destruct o as [x|].
  2:{ split; [by split; [|split]|]. by eapply blocks_rep_same. }
  destruct Ho as (Hx & Hi' & b & Hb' & Hw). exists b. split; [by apply get_block_Ret|]. split; [done|].
  assert (x ∉ bs) as Hxb by (intros Hin; apply Hx, elem_of_union_r, elem_of_list_to_set, Hin).
  split; [done|]. assert (own h' F (bs ++ [x])) as Hown by (by apply own_push).
  assert ((bs ++ [x]) !! length bs = Some x) as Hk by (by apply list_lookup_middle).
  pose proof (block_rep_raw b hd q t Hw eq_refl Ht) as Hrep.
  split; [|split].
  - eapply stepped_trans; [by split; [exact Hown|split]|]. eapply own_put; [done|done|exact Hrep| |exact Hb'|done].
    cbn. by eapply own_refs.
  - intros k y Hy. rewrite put_block_lookup. case_decide as Hxy.
    + subst y. assert (k = length bs) as ->.
      { apply lookup_app_Some in Hy as [Hy|[Hge Hy]]; [by apply list_elem_of_lookup_2 in Hy|].
        apply list_lookup_singleton_Some in Hy as [? _]. lia. }
      eexists. split; [done|]. by replace (hd / 32 + Z.of_nat (length bs)) with (t / 32) by lia.
    + apply lookup_app_Some in Hy as [Hy|[Hge Hy]].
      * by apply (blocks_rep_same _ _ _ _ _ Hsb Hb).
      * apply list_lookup_singleton_Some in Hy as [? ?]. congruence.
  - apply NoDup_app. split; [done|]. split; [|apply NoDup_singleton]. intros y Hy Hyx%list_elem_of_singleton. congruence.
Qed.

(** What a call of [implicit_enqueue] does to the queue. *)
Definition enqueue_result (allocMode : AllocationMode) h p q (element : option T) (hd : Z)
    (r : EnqueueResult) h' p' (bs' : list nat) : Prop :=
  match r with
  | Enqueued => exists v, element = Some v /\ imp_rep h' p' (q ++ [v]) hd bs'
  | Refused => imp_rep h' p' q hd bs' /\ refusal allocMode h p q
  | Threw => imp_rep h' p' q hd bs' /\ element = None
  end.

(** The part of [implicit_enqueue] that starts a new block. *)
Lemma enqueue_new_block allocMode noexcept garbage h p q hd bs F element :
  let t := hd + Z.of_nat (length q) in
  own h F bs -> imp_rep h p q hd bs -> t mod 32 = 0 -> Z.of_nat (length q) + 32 < 9223372036854775808 ->
  (noexcept = true -> is_Some element) ->
  exists r h' p' bs', implicit_enqueue allocMode noexcept garbage h p element = Ret (r, h', p') /\ stepped F h h' bs' /\
    (blockIndex p <> [] -> blockIndex p' <> []) /\ enqueue_result allocMode h p q element hd r h' p' bs'.
Proof.
  intros t Hown Hrep Ht Hroom Hne. pose proof Hrep as [Hbase Hcount Hfits Hnd Hblocks Htail Hidx].
  pose proof (Z.div_mod t 32 ltac:(lia)) as Hdiv.
  assert (Z.of_nat (length bs) = t / 32 - hd / 32) as Hlen.
  { rewrite Hcount. f_equal. fold t. symmetry. apply (Z.div_unique _ _ _ 31); lia. }
  pose proof (Z.div_mod hd 32 ltac:(lia)). pose proof (Z.mod_pos_bound hd 32 ltac:(lia)).
  unfold implicit_enqueue. rewrite (br_tail _ _ _ Hbase), (br_head _ _ _ Hbase). fold t. rewrite land_31, u64_mod_32, Ht. cbn [Z.eqb].
  rewrite circular_less_than_spec by lia. replace (t <? hd) with false by (zbool; lia).
  unfold t at 1. rewrite subqueue_full_spec by lia. replace (_ + 32 <? _) with true by (zbool; lia). cbn [negb].
  replace (u64 t) with (key_of (hd / 32 + Z.of_nat (length bs))) by (unfold key_of; f_equal; lia).
  destruct (insert_spec allocMode h p (hd / 32) bs Hidx ltac:(lia)) as (o & h1 & p1 & -> & Hm & Eb & Hne1 & Ho).
  cbn [mbind outcome_bind]. pose proof (stepped_mem_only F h h1 bs Hown Hm) as S1.
  pose proof (mem_only_blocks _ _ Hm) as [Ebl _].
  assert (blocks_rep h1 hd q bs) as Hb1 by (intros k x Hk; rewrite Ebl; by apply Hblocks).
  destruct o as [e|].
  2:{ destruct Ho as [Hi1 Hwhy]. eexists Refused, _, _, bs. split; [done|]. split; [done|]. split; [done|].
      split; [|unfold refusal; tauto]. by constructor; rewrite ?Eb. }
  destruct Ho as [Hpush (p2 & E2 & Eb2 & Hi2)].
  destruct (take_block_spec allocMode garbage h1 F bs hd q (proj1 S1) Hnd Hb1 Ht Hlen) as (o & h2 & -> & Hmem & Ho).
  cbn [mbind outcome_bind]. destruct o as [x|].
  2:{ destruct Ho as [S2 Hb2]. rewrite E2. cbn [mbind outcome_bind]. eexists Refused, _, _, bs. split; [done|].
      split; [by eapply stepped_trans|]. split.
      { unfold rewind_block_index_tail in E2. apply bind_Ret in E2 as (? & ? & [= <-]). done. }
      split; [constructor; cbn; rewrite ?Eb2, ?Eb; done|]. unfold refusal.
      destruct allocMode; [|tauto]. do 2 right. left. intros Hk. apply S1 in Hk. destruct (Hmem eq_refl Hk) as [? ?]. done. }
  destruct Ho as (b & -> & Hw & Hxb & S2 & Hb2 & Hnd2). cbn [mbind outcome_bind].
  set (h3 := put_block h2 x (reset_empty implicit_context b)) in *.
  pose proof (stepped_trans _ _ _ _ _ _ S1 S2) as S3.
  destruct (match element with Some v => inl v | None => inr tt end) as [v|[]] eqn:Eel.
  - assert (element = Some v) as -> by (destruct element; congruence).
    set (p3 := set_base (store_value p1 e (Some x)) (set_tailBlock (imp_base (store_value p1 e (Some x))) (Some x))).
    destruct (enqueue_at_tail_spec h3 p3 q hd (bs ++ [x]) F v) as (h4 & p4 & E4 & S4 & Hr4 & Ei4).
    + apply S3.
    + cbn. rewrite Eb. by destruct Hbase; constructor.
    + done.
    + done.
    + apply Hpush.
    + cbn. by rewrite last_snoc.
    + rewrite length_app. cbn [length]. fold t. lia.
    + fold t. lia.
    + exists Enqueued, h4, p4, (bs ++ [x]). split; [|split; [by eapply stepped_trans|split]].
      * rewrite <- E4. subst p3. destruct noexcept; cbn [negb]; [done|].
        replace (key_of (hd / 32 + Z.of_nat (length bs))) with (tailIndex (imp_base (store_value p1 e (Some x)))).
        2:{ cbn. rewrite Eb, (br_tail _ _ _ Hbase). unfold key_of. f_equal. lia. }
        apply enqueue_fresh_eq.
      * intros Hp. rewrite Ei4. cbn. auto.
      * by exists v.
  - assert (element = None) as -> by (destruct element; congruence).
    destruct noexcept; [by destruct (Hne eq_refl)|]. cbn [negb]. rewrite E2. cbn [mbind outcome_bind].
    destruct (own_pop_last h3 F bs x (reset_empty implicit_context b)) as (h4 & E4 & S4 & Hsb).
    { apply S3. } { done. } { subst h3. by rewrite put_block_lookup, decide_True. } { done. }
    rewrite E4. cbn [mbind outcome_bind]. exists Threw, h4, (store_value p2 e None), bs. split; [done|].
    split; [by eapply stepped_trans|]. split.
    { unfold rewind_block_index_tail in E2. apply bind_Ret in E2 as (? & ? & [= <-]). done. }
    split; [|done]. constructor; cbn; rewrite ?Eb2, ?Eb; try done. eapply blocks_rep_same; [exact Hsb|].
    intros k y Hy. by apply Hb2, lookup_app_l_Some.
Qed.

Lemma enqueue_spec allocMode noexcept garbage h p q hd bs F element :
  own h F bs -> imp_rep h p q hd bs -> (noexcept = true -> is_Some element) ->
  exists r h' p' bs', implicit_enqueue allocMode noexcept garbage h p element = Ret (r, h', p') /\ stepped F h h' bs' /\
    (blockIndex p <> [] -> blockIndex p' <> []) /\ enqueue_result allocMode h p q element hd r h' p' bs'.
Proof.
  intros Hown Hrep Hne. set (t := hd + Z.of_nat (length q)). pose proof Hrep as [Hbase Hcount Hfits Hnd Hblocks Htail Hidx].
  pose proof (Z.div_mod t 32 ltac:(lia)). pose proof (Z.mod_pos_bound t 32 ltac:(lia)). fold t in Hcount, Hfits.
  destruct (Z.eq_dec (t mod 32) 0) as [Ht|Ht].
  - destruct (Z.lt_ge_cases (Z.of_nat (length q) + 32) 9223372036854775808) as [Hroom|Hfull]; [by eapply enqueue_new_block|].
    exists Refused, h, p, bs. split; [|split; [by apply stepped_refl|split; [done|split; [done|unfold refusal; tauto]]]].
    unfold implicit_enqueue. rewrite (br_tail _ _ _ Hbase), (br_head _ _ _ Hbase). fold t. rewrite land_31, u64_mod_32, Ht. cbn [Z.eqb].
    pose proof (br_len _ _ _ Hbase). rewrite circular_less_than_spec by lia. replace (t <? hd) with false by (zbool; lia).
    unfold t. rewrite subqueue_full_spec by lia. by replace (_ + 32 <? _) with false by (zbool; lia).
  - assert ((t + 31) / 32 = t / 32 + 1) as Ed by (symmetry; apply (Z.div_unique _ _ _ (t mod 32 - 1)); lia).
    assert (hd / 32 <= t / 32) by (apply Z.div_le_mono; lia).
    unfold implicit_enqueue. rewrite (br_tail _ _ _ Hbase). fold t. rewrite land_31, u64_mod_32.
    destruct (Z.eqb_spec (t mod 32) 0); [lia|]. destruct element as [v|].
    + destruct (enqueue_at_tail_spec h p q hd bs F v) as (h' & p' & -> & S & Hr & Ei); try done.
      * apply Htail. intros ->. cbn in Hcount. lia.
      * fold t. lia.
      * fold t. lia.
      * exists Enqueued, h', p', bs. rewrite Ei. split; [done|]. split; [done|]. split; [done|]. by exists v.
    + exists Threw, h, p, bs. split; [done|]. split; [by apply stepped_refl|]. done.
Qed.

(** ** Dequeue *)

(** Giving back the first block. *)
Lemma own_pop_first h F x bs b :
  own h F (x :: bs) -> x ∉ bs -> blocks h !! x = Some b -> raw b ->
  exists h', add_block_to_free_list h x = Ret h' /\ stepped F h h' bs /\ same_blocks (list_to_set bs) h h'.
Proof.
  intros Ho. apply own_pop_last. destruct Ho as [Hi Hd]. 
  assert (list_to_set (bs ++ [x]) = list_to_set (x :: bs) :> gset nat) as E by (rewrite list_to_set_app_L; cbn; set_solver).
  by split; rewrite E.
Qed.

(** The first block after an element of it was taken. *)
Lemma dequeue_block h p q v hd x bs F :
  own h F (x :: bs) -> imp_rep h p (v :: q) hd (x :: bs) ->
  exists b h1, read_object h x (u64 hd) = Ret v /\ destroy_object h x (u64 hd) = Ret h1 /\ get_block h1 x = Ret (block_set b (u64 hd) None) /\
    set_empty implicit_context (block_set b (u64 hd) None) (u64 hd) =
      Ret (hd mod 32 =? 31, set_counter (block_set b (u64 hd) None) (hd mod 32 + 1)) /\
    let h2 := put_block h1 x (set_counter (block_set b (u64 hd) None) (hd mod 32 + 1)) in
    blocks h2 !! x = Some (set_counter (block_set b (u64 hd) None) (hd mod 32 + 1)) /\
    block_rep (set_counter (block_set b (u64 hd) None) (hd mod 32 + 1)) (hd + 1) q (hd / 32) /\
    stepped F h h2 (x :: bs) /\
    forall k y, bs !! k = Some y -> exists b', blocks h2 !! y = Some b' /\ block_rep b' (hd + 1) q (hd / 32 + 1 + Z.of_nat k).
Proof.
  intros Hown [Hbase Hcount Hfits Hnd Hblocks Htail Hidx]. pose proof (Z.mod_pos_bound hd 32 ltac:(lia)).
  destruct (Hblocks 0%nat x eq_refl) as (b & Hb & Hrep). rewrite Z.add_0_r in Hrep.
  destruct (block_rep_pop b hd q v (hd / 32) eq_refl Hrep) as (Hget & Hc & Hrep').
  pose proof (own_refs _ _ _ 0%nat _ _ Hown eq_refl Hb) as Hr.
  exists b, (put_block h x (block_set b (u64 hd) None)). unfold read_object, destroy_object. rewrite (get_block_Ret _ _ _ Hb). cbn [mbind outcome_bind].
  rewrite Hget. cbn [of_option mbind outcome_bind]. split; [done|]. split; [done|]. split; [apply get_block_Ret; by rewrite put_block_lookup, decide_True|].
  split.
  { cbn. rewrite Hc, (u64_small (hd mod 32 + 1)) by (unfold is_u64, UINT64_MOD; lia). replace (hd mod 32 <? BLOCK_SIZE) with true by (unfold BLOCK_SIZE; zbool; lia). done. }
  split; [by rewrite put_block_lookup, decide_True|]. split; [done|]. split.
  - replace (put_block (put_block _ _ _) _ _) with (put_block h x (set_counter (block_set b (u64 hd) None) (hd mod 32 + 1))).
    + eapply (own_put _ _ _ _ _ _ 0%nat); done.
    + unfold put_block, set_blocks. cbn. by rewrite insert_insert_eq.
  - intros k y Hk. rewrite !put_block_lookup. apply NoDup_cons in Hnd as [Hx Hnd].
    rewrite !decide_False by (intros ->; by apply list_elem_of_lookup_2 in Hk).
    destruct (Hblocks (S k) y Hk) as (b' & Hb' & Hr'). exists b'. split; [done|].
    apply (block_rep_pop_other _ _ _ v); [|lia]. by replace (hd / 32 + 1 + Z.of_nat k) with (hd / 32 + Z.of_nat (S k)) by lia.
Qed.

Lemma dequeue_empty throws h p hd bs : imp_rep h p [] hd bs -> implicit_dequeue throws h p = Ret (Nothing, h, p).
Proof.
  intros Hrep. pose proof (claim_one_spec _ _ _ (ir_base _ _ _ _ _ Hrep)) as E. cbn in E. unfold implicit_dequeue. rewrite E.
  by destruct p.
Qed.

Lemma dequeue_spec throws h p q v hd bs F :
  own h F bs -> imp_rep h p (v :: q) hd bs ->
  exists h' p' bs', implicit_dequeue throws h p = Ret (if throws then AssignThrew else Dequeued v, h', p') /\
    stepped F h h' bs' /\ imp_rep h' p' q (hd + 1) bs' /\ blockIndex p' = blockIndex p.
Proof.
  intros Hown Hrep. pose proof Hrep as [Hbase Hcount Hfits Hnd Hblocks Htail Hidx]. cbn [length] in *.
  pose proof (Z.mod_pos_bound hd 32 ltac:(lia)). pose proof (Z.div_mod hd 32 ltac:(lia)).
  assert (hd / 32 + 1 <= (hd + Z.of_nat (S (length q)) + 31) / 32).
  { replace (hd / 32 + 1) with ((hd + 1 * 32) / 32) by (rewrite Z.div_add by lia; lia). apply Z.div_le_mono; lia. }
  destruct bs as [|x bs]; [cbn in Hcount; lia|].
  unfold implicit_dequeue. pose proof (claim_one_spec _ _ _ Hbase) as Hclaim. cbn [length] in Hclaim.
  destruct (Z.eqb_spec (Z.of_nat (S (length q))) 0); [lia|]. destruct Hclaim as (b1 & -> & Hb1 & Etb).
  unfold idx_rep in Hidx. destruct (blockIndex p) as [|ix ixs] eqn:Ep; [done|]. destruct Hidx as [Hok Hnext].
  destruct (entry_lookup (set_base p b1) ix ixs (hd / 32) (x :: bs) 0 x hd Ep Hok eq_refl ltac:(lia)) as (e & -> & Hblk & Hslot).
  cbn [mbind outcome_bind]. rewrite Hblk. cbn [mbind outcome_bind].
  destruct (dequeue_block h p q v hd x bs F Hown Hrep) as (b & h1 & -> & -> & Hget & Hset & Hx2 & Hbr & S2 & Hrest).
  cbn [mbind outcome_bind]. rewrite Hget. cbn [mbind outcome_bind]. rewrite Hset. cbn [mbind outcome_bind].
  set (h2 := put_block h1 x _) in *. clearbody h2. apply NoDup_cons in Hnd as [Hxb Hnd'].
  assert (hd + 1 + Z.of_nat (length q) = hd + Z.of_nat (S (length q))) as Et by lia.
  destruct (Z.eqb_spec (hd mod 32) 31) as [Hlast|Hnot].
  - assert ((hd + 1) / 32 = hd / 32 + 1) as Ed by (symmetry; apply (Z.div_unique _ _ _ 0); lia).
    destruct (own_pop_first h2 F x bs _ (proj1 S2) Hxb Hx2) as (h3 & -> & S3 & Hsb); [eapply block_rep_gone; [done|]; lia|].
    cbn [mbind outcome_bind]. eexists _, _, bs. split; [done|]. split; [by eapply stepped_trans|]. split; [|done].
    constructor; cbn [store_value set_base set_entries imp_base]; rewrite ?Et, ?Ed; try done.
    + by replace (Z.of_nat (S (length q)) - 1) with (Z.of_nat (length q)) in Hb1 by lia.
    + cbn [length] in Hcount. lia.
    + lia.
    + intros k y Hk. destruct (Hrest k y Hk) as (b' & Hb' & Hr'). exists b'. rewrite Ed. rewrite Hsb; [done|].
      apply elem_of_list_to_set. by eapply list_elem_of_lookup_2.
    + intros Hne. rewrite Etb, Htail by done. by destruct bs.
    + unfold idx_rep. cbn. rewrite Ep. split; [|done]. eapply index_pop; [exact Hok| |done].
      rewrite <- Hslot. f_equal. cbn [length]. lia.
  - assert ((hd + 1) / 32 = hd / 32) as Ed by (symmetry; apply (Z.div_unique _ _ _ (hd mod 32 + 1)); lia).
    cbn [mbind outcome_bind]. eexists _, _, (x :: bs). split; [done|]. split; [done|]. split; [|done].
    constructor; cbn [set_base imp_base]; rewrite ?Et, ?Ed; try done.
    + by replace (Z.of_nat (S (length q)) - 1) with (Z.of_nat (length q)) in Hb1 by lia.
    + lia.
    + by constructor.
    + intros [|k] y Hk; rewrite Ed.
      * injection Hk as <-. rewrite Z.add_0_r. by eexists.
      * replace (hd / 32 + Z.of_nat (S k)) with (hd / 32 + 1 + Z.of_nat k) by lia. by apply Hrest.
    + intros _. rewrite Etb. by apply Htail.
    + unfold idx_rep. cbn. by rewrite Ep.
Qed.

(** ** A new producer *)

Lemma implicit_init_spec h F :
  heap_inv h F ->
  exists h' p, implicit_init h = Ret (h', p) /\ stepped F h h' [] /\ imp_rep h' p [] 0 [] /\ (mem_ok h -> blockIndex p <> []).
Proof.
  intros Hi. unfold implicit_init, implicit_new_block_index. cbn [blockIndex head]. pose proof (malloc_spec h) as Hm.
  destruct (malloc h) as [ok h']. destruct Hm as [Hm Hok]. assert (own h F []) as Hown.
  { split; cbn; [by rewrite union_empty_r_L|set_solver]. }
  destruct ok; cbn; eexists _, _; (split; [done|]); (split; [by apply stepped_mem_only|]); (split; [|naive_solver]);
    (constructor; cbn; [apply base_init_rep|done|done|constructor|done|done|]); [|done].
  unfold idx_rep. cbn [blockIndex]. split; [|done]. constructor; cbn [bih_capacity bih_tail bih_index index_entries app]; try done.
  - by exists 5.
  - apply NoDup_seq.
  - apply Forall_forall. intros x Hx%elem_of_seq. rewrite length_replicate. lia.
  - intros d Hd. pose proof (Z.mod_pos_bound (31 - d) 32 ltac:(lia)).
    change (exists e en, seq 0 32 !! Z.to_nat ((31 - d) mod 32) = Some e /\
      replicate 32 (mkIndexEntry INVALID_BLOCK_BASE None) !! e = Some en /\
      (bie_key en = INVALID_BLOCK_BASE \/ bie_value en = Some None)).
    eexists _, _. rewrite lookup_seq_lt by lia. split; [done|]. rewrite lookup_replicate_2 by lia. split; [done|]. by left.
Qed.
End Spec.
