(* ===== verification/ImplicitBulk.v ===== *)
(** * Many elements at once (concurrentqueue.h, ImplicitProducer::enqueue_bulk, dequeue_bulk)

    [implicit_enqueue_bulk] takes all the blocks it needs before it constructs the
    first element, and gives them back when an allocation fails or a constructor
    throws.  [implicit_dequeue_bulk] claims its elements with one addition and
    empties the blocks one after the other.  The items are a list, with [None] for
    an item whose constructor throws; [throws] is the number of elements that are
    assigned before an assignment throws, if one does.  Where the code tells
    [noexcept] from other types it does the same without the handler, so that an
    element that throws belongs to the other types.  Objects are destroyed one by
    one, also those whose destructor is trivial. *)
From S2P Require Import Prelude QueueDetails QueueBlock Producer ImplicitProducer.

(** The end of the block of [index], or [stop] when that comes first. *)
Definition block_end (index stop : Z) : Z :=
  let endIndex := block_start index +w BLOCK_SIZE in
  if circular_less_than stop endIndex then stop else endIndex.

Definition is_null {A} (o : option A) : bool := match o with None => true | Some _ => false end.

Section Bulk.
Context {T : Type}.
Implicit Types (h : Heap T) (p : ImplicitProducer).

(** The loop [while (index != endIndex) (( *block)[index++])->~T()] *)
Fixpoint destroy_range (fuel : nat) h (block : option nat) (index endIndex : Z) : outcome (Heap T) :=
  if index =? endIndex then Ret h
  else match fuel with
  | O => Fault Diverges
  | S fuel =>
      x ← of_option BadPointer block;
      h ← destroy_object h x index;
      destroy_range fuel h block (index +w 1) endIndex
  end.

(** ** Dequeue *)

(** The loop that assigns the elements of a block and destroys them.  The results are
    the elements, where the loop stopped, how many more assignments succeed, and
    whether an assignment threw. *)
Fixpoint move_out (fuel : nat) h (x : nat) (index endIndex : Z) (throws : option nat)
    : outcome (list T * Z * option nat * bool * Heap T) :=
  if index =? endIndex then Ret ([], index, throws, false, h)
  else match fuel with
  | O => Fault Diverges
  | S fuel =>
      el ← read_object h x index;
      match throws with
      | Some O => Ret ([], index, throws, true, h)
      | _ =>
          h ← destroy_object h x index;
          '(l, index, throws, threw, h) ← move_out fuel h x (index +w 1) endIndex (pred <$> throws);
          Ret (el :: l, index, throws, threw, h)
      end
  end.

(** Marking the elements of a block as gone; an empty block leaves the index. *)
Definition finish_block h p (entry x : nat) (blockStartIndex endIndex : Z) : outcome (Heap T * ImplicitProducer) :=
  blk ← get_block h x;
  '(empty, blk) ← set_many_empty implicit_context blk blockStartIndex (endIndex -w blockStartIndex);
  let h := put_block h x blk in
  if (empty : bool) then
    let p := store_value p entry None in
    h ← add_block_to_free_list h x; Ret (h, p)
  else Ret (h, p).

Definition next_slot (hd : BlockIndexHeader) (indexIndex : Z) : Z := Z.land (indexIndex +w 1) (bih_capacity hd -w 1).

(** The loop of the handler: the elements from [index] on are destroyed. *)
Fixpoint drop_blocks (fuel : nat) h p (hd : BlockIndexHeader) (indexIndex blockStartIndex index endIndex stop : Z)
    : outcome (Heap T * ImplicitProducer) :=
  match fuel with
  | O => Fault Diverges
  | S fuel =>
      entry ← slot hd indexIndex;
      x ← entry_block p entry;
      h ← destroy_range (Z.to_nat BLOCK_SIZE) h (Some x) index endIndex;
      '(h, p) ← finish_block h p entry x blockStartIndex endIndex;
      if endIndex =? stop then Ret (h, p)
      else drop_blocks fuel h p hd (next_slot hd indexIndex) endIndex endIndex (block_end endIndex stop) stop
  end.

(** The loop over the blocks. *)
Fixpoint dequeue_blocks (fuel : nat) h p (hd : BlockIndexHeader) (indexIndex index stop : Z) (throws : option nat)
    : outcome (list T * bool * Heap T * ImplicitProducer) :=
  match fuel with
  | O => Fault Diverges
  | S fuel' =>
      let endIndex := block_end index stop in
      entry ← slot hd indexIndex;
      x ← entry_block p entry;
      '(l, here, throws, threw, h) ← move_out (Z.to_nat BLOCK_SIZE) h x index endIndex throws;
      if (threw : bool) then
        '(h, p) ← drop_blocks fuel h p hd indexIndex index here endIndex stop;
        Ret (l, true, h, p)
      else
        '(h, p) ← finish_block h p entry x index endIndex;
        if endIndex =? stop then Ret (l, false, h, p)
        else
          '(l', threw, h, p) ← dequeue_blocks fuel' h p hd (next_slot hd indexIndex) endIndex stop throws;
          Ret (l ++ l', threw, h, p)
  end.

(** The elements that were assigned, and whether the call ended with an exception.
    Every round but that of an empty request handles an element. *)
Definition implicit_dequeue_bulk (throws : option nat) h p (max : Z) : outcome (list T * bool * Heap T * ImplicitProducer) :=
  match claim_bulk (imp_base p) max with
  | (None, b) => Ret ([], false, h, set_base p b)
  | (Some (firstIndex, actualCount), b) =>
      let p := set_base p b in
      '(hd, indexIndex) ← get_block_index_index_for_index p firstIndex;
      dequeue_blocks (S (Z.to_nat actualCount)) h p hd indexIndex firstIndex (firstIndex +w actualCount) throws
  end.

(** ** Enqueue *)

(** The blocks from [block] on leave the index. *)
Fixpoint unlink_blocks (fuel : nat) h p (currentTailIndex : Z) (block : option nat) : outcome ImplicitProducer :=
  match block, fuel with
  | None, _ => Ret p
  | Some _, O => Fault Diverges
  | Some x, S fuel =>
      let currentTailIndex := currentTailIndex +w BLOCK_SIZE in
      idxEntry ← get_block_index_entry_for_index p currentTailIndex;
      let p := store_value p idxEntry None in
      p ← rewind_block_index_tail p;
      b ← get_block h x;
      unlink_blocks fuel h p currentTailIndex (next b)
  end.

(** Taking everything back; [fuel] is the number of blocks asked for. *)
Definition revert (fuel : nat) h p (startTailIndex : Z) (startBlock firstAllocatedBlock : option nat)
    : outcome (Heap T * ImplicitProducer) :=
  p ← unlink_blocks fuel h p (block_start (startTailIndex -w 1)) firstAllocatedBlock;
  h ← add_blocks_to_free_list fuel h firstAllocatedBlock;
  Ret (h, set_base p (set_tailBlock (imp_base p) startBlock)).

(** [this->tailBlock->next = newBlock] *)
Definition link_block h (tailBlock : option nat) (newBlock : nat) : outcome (Heap T) :=
  y ← of_option AssertFailed tailBlock;
  b ← get_block h y;
  Ret (put_block h y (set_next b (Some newBlock))).

(** The loop that takes the blocks: whether all of them were to be had, the first and
    the last block.  [garbage] is what new blocks have in their flags. *)
Fixpoint preallocate (fuel : nat) (allocMode : AllocationMode) (garbage : nat -> list bool) h p
    (startTailIndex blockBaseDiff currentTailIndex : Z) (firstAllocatedBlock endBlock : option nat)
    : outcome (bool * option nat * option nat * Heap T * ImplicitProducer) :=
  if blockBaseDiff =? 0 then Ret (true, firstAllocatedBlock, endBlock, h, p)
  else match fuel with
  | O => Fault Diverges
  | S fuel =>
      let blockBaseDiff := blockBaseDiff -w BLOCK_SIZE in
      let currentTailIndex := currentTailIndex +w BLOCK_SIZE in
      let head := headIndex (imp_base p) in
      if circular_less_than currentTailIndex head then Fault AssertFailed
      else if subqueue_full head currentTailIndex then Ret (false, firstAllocatedBlock, endBlock, h, p)
      else
        '(idxEntry, h, p) ← insert_block_index_entry allocMode h p currentTailIndex;
        match idxEntry with
        | None => Ret (false, firstAllocatedBlock, endBlock, h, p)
        | Some idxEntry =>
            '(newBlock, h) ← requisition_block allocMode (garbage fuel) h;
            match newBlock with
            | None =>
                p ← rewind_block_index_tail p;
                Ret (false, firstAllocatedBlock, endBlock, h, store_value p idxEntry None)
            | Some x =>
                b ← get_block h x;
                let h := put_block h x (set_next (reset_empty implicit_context b) None) in
                let p := store_value p idxEntry (Some x) in
                h ← (if negb (Z.land startTailIndex (BLOCK_SIZE - 1) =? 0) || negb (is_null firstAllocatedBlock)
                     then link_block h (tailBlock (imp_base p)) x else Ret h);
                let p := set_base p (set_tailBlock (imp_base p) (Some x)) in
                preallocate fuel allocMode garbage h p startTailIndex blockBaseDiff currentTailIndex
                  (if is_null firstAllocatedBlock then Some x else firstAllocatedBlock) (Some x)
            end
        end
  end.

(** The loop that constructs the items of a block: where it stopped, the items that
    are left, and whether a constructor threw. *)
Fixpoint construct_range (fuel : nat) h (block : option nat) (index stopIndex : Z) (items : list (option T))
    : outcome (Z * list (option T) * bool * Heap T) :=
  if index =? stopIndex then Ret (index, items, false, h)
  else match fuel, items with
  | O, _ => Fault Diverges
  | _, [] => Fault OutOfBounds
  | S _, None :: _ => Ret (index, items, true, h)
  | S fuel, Some v :: items =>
      x ← of_option BadPointer block;
      h ← construct_object h x index v;
      construct_range fuel h block (index +w 1) stopIndex items
  end.

(** [block->next] *)
Definition next_of h (block : option nat) : outcome (option nat) :=
  x ← of_option BadPointer block; b ← get_block h x; Ret (next b).

(** The loop over the blocks: where it stopped, the last block, and whether a
    constructor threw. *)
Fixpoint construct_blocks (fuel : nat) h (block endBlock : option nat) (index newTailIndex : Z) (items : list (option T))
    : outcome (Z * option nat * bool * Heap T) :=
  match fuel with
  | O => Fault Diverges
  | S fuel =>
      '(index, items, threw, h) ← construct_range (Z.to_nat BLOCK_SIZE) h block index (block_end index newTailIndex) items;
      if (threw : bool) then Ret (index, block, true, h)
      else if bool_decide (block = endBlock) then
        if index =? newTailIndex then Ret (index, block, false, h) else Fault AssertFailed
      else block ← next_of h block; construct_blocks fuel h block endBlock index newTailIndex items
  end.

(** The handler destroys what was constructed, block by block. *)
Fixpoint destroy_blocks (fuel : nat) h (block lastBlockEnqueued : option nat) (index constructedStopIndex : Z) : outcome (Heap T) :=
  match fuel with
  | O => Fault Diverges
  | S fuel =>
      let stopIndex := block_end index constructedStopIndex in
      h ← destroy_range (Z.to_nat BLOCK_SIZE) h block index stopIndex;
      if bool_decide (block = lastBlockEnqueued) then Ret h
      else block ← next_of h block; destroy_blocks fuel h block lastBlockEnqueued stopIndex constructedStopIndex
  end.

(** The items are constructed from [startTailIndex] on, in the rest of [startBlock] and
    the blocks that were taken; when a constructor throws, those before it are
    destroyed again.  The results are whether one threw and the last block filled.
    The code of the two kinds of producers is the same. *)
Definition fill (fuel : nat) h (startBlock firstAllocatedBlock endBlock : option nat) (startTailIndex : Z) (items : list (option T))
    : outcome (bool * option nat * Heap T) :=
  let count := Z.of_nat (length items) in
  let newTailIndex := startTailIndex +w count in
  let aligned := Z.land startTailIndex (BLOCK_SIZE - 1) =? 0 in
  if aligned && is_null firstAllocatedBlock && negb (count =? 0) then Fault AssertFailed
  else
    let block := if aligned && negb (is_null firstAllocatedBlock) then firstAllocatedBlock else startBlock in
    '(index, block, threw, h) ← construct_blocks fuel h block endBlock startTailIndex newTailIndex items;
    if (threw : bool) then
      h ← destroy_blocks fuel h (if aligned then firstAllocatedBlock else startBlock) block startTailIndex index;
      Ret (true, block, h)
    else Ret (false, block, h).

Definition implicit_enqueue_bulk (allocMode : AllocationMode) (garbage : nat -> list bool) h p (items : list (option T))
    : outcome (EnqueueResult * Heap T * ImplicitProducer) :=
  let count := Z.of_nat (length items) in
  let startTailIndex := tailIndex (imp_base p) in
  let startBlock := tailBlock (imp_base p) in
  let start := block_start (startTailIndex -w 1) in
  let blockBaseDiff := block_start ((startTailIndex +w count) -w 1) -w start in
  let fuel := Z.to_nat (blockBaseDiff / BLOCK_SIZE) in
  '(ok, firstAllocatedBlock, endBlock, h, p) ← preallocate fuel allocMode garbage h p startTailIndex blockBaseDiff start None startBlock;
  if negb (ok : bool) then
    '(h, p) ← revert fuel h p startTailIndex startBlock firstAllocatedBlock; Ret (Refused, h, p)
  else
    '(threw, block, h) ← fill (S fuel) h startBlock firstAllocatedBlock endBlock startTailIndex items;
    if (threw : bool) then
      '(h, p) ← revert fuel h p startTailIndex startBlock firstAllocatedBlock;
      Ret (Threw, h, p)
    else Ret (Enqueued, h, set_base p (set_tailIndex (set_tailBlock (imp_base p) block) (startTailIndex +w count))).
End Bulk.
