(* ===== verification/BlockCells.v ===== *)
(** * The cells of a chain of blocks

    [cells h first bs f]: the blocks [bs], the first of which has number [first],
    hold [f z] in the cell of index [z].  Objects are read, constructed and destroyed
    by index; everything else of the blocks ([same_shape]) stays. *)
From S2P Require Import Prelude QueueDetails QueueBlock Producer ImplicitProducer ImplicitIndex ImplicitSpec ImplicitBulk.
Arguments slots : simpl never.

(** A function of indices with one value changed, or with [n] values removed. *)
Definition upd {A} (f : Z -> option A) (i : Z) (o : option A) : Z -> option A := fun z => if z =? i then o else f z.
Definition clear {A} (f : Z -> option A) (i n : Z) : Z -> option A := fun z => if (i <=? z) && (z <? i + n) then None else f z.

(** The last index that can be reached from [i] in [m] steps without leaving its block. *)
Lemma block_end_spec i m :
  0 <= m < 9223372036854775808 -> block_end (u64 i) (u64 (i + m)) = u64 (i + Z.min m (32 - i mod 32)).
Proof.
  intros Hm. pose proof (Z.div_mod i 32 ltac:(lia)). pose proof (Z.mod_pos_bound i 32 ltac:(lia)).
  unfold block_end. rewrite block_start_u64, u64_add_l. unfold BLOCK_SIZE.
  rewrite circular_less_than_spec by lia. zbool; f_equal; lia.
Qed.

Lemma div_step hd n : 0 <= n -> hd mod 32 + n <= 32 -> (hd + n) / 32 = if hd mod 32 + n =? 32 then hd / 32 + 1 else hd / 32.
Proof.
  intros Hn Hm. pose proof (Z.div_mod hd 32 ltac:(lia)). pose proof (Z.mod_pos_bound hd 32 ltac:(lia)).
  destruct (Z.eqb_spec (hd mod 32 + n) 32); symmetry; [apply (Z.div_unique _ _ _ 0); lia|].
  apply (Z.div_unique _ _ _ (hd mod 32 + n)); lia.
Qed.

Lemma div_within hd m : 0 <= m -> hd mod 32 + m < 32 -> (hd + m) / 32 = hd / 32 /\ (hd + m) mod 32 = hd mod 32 + m.
Proof.
  intros Hm H. pose proof (Z.div_mod hd 32 ltac:(lia)). pose proof (Z.mod_pos_bound hd 32 ltac:(lia)).
  split; symmetry; [apply (Z.div_unique _ _ _ (hd mod 32 + m))|apply (Z.mod_unique _ _ (hd / 32))]; lia.
Qed.

Section Cells.
Context {T : Type}.
Implicit Types (h : Heap T) (f : Z -> option T) (q qq l vs : list T).

(** ** The cells of a queue *)

(** The cells of a queue with its first element at [hd]. *)
Definition queue_cells q (hd : Z) : Z -> option T := fun z => zget q (z - hd).

Lemma zget_app_r l q z : Z.of_nat (length l) <= z -> zget (l ++ q) z = zget q (z - Z.of_nat (length l)).
Proof. intros Hz. unfold zget. zbool; try lia. rewrite lookup_app_r by lia. f_equal. lia. Qed.

Lemma zget_app_l l q z : z < Z.of_nat (length l) -> zget (l ++ q) z = zget l z.
Proof. intros Hz. unfold zget. zbool; [|done]. by rewrite lookup_app_l by lia. Qed.

Lemma queue_cells_clear l q hd z : clear (queue_cells (l ++ q) hd) hd (Z.of_nat (length l)) z = queue_cells q (hd + Z.of_nat (length l)) z.
Proof.
  unfold clear, queue_cells. destruct (Z.lt_ge_cases z hd), (Z.lt_ge_cases z (hd + Z.of_nat (length l)));
    destruct (Z.leb_spec hd z), (Z.ltb_spec z (hd + Z.of_nat (length l))); try lia; cbn [andb].
  - by rewrite !zget_out by lia.
  - by rewrite zget_out by lia.
  - rewrite zget_app_r by lia. f_equal. lia.
Qed.

Lemma queue_cells_head l q hd j v : l !! j = Some v -> queue_cells (l ++ q) hd (hd + Z.of_nat j) = Some v.
Proof.
  intros Hj. pose proof (lookup_lt_Some _ _ _ Hj). unfold queue_cells. rewrite zget_app_l by lia. unfold zget.
  zbool; [|lia]. by replace (Z.to_nat (hd + Z.of_nat j - hd)) with j by lia.
Qed.

Lemma queue_cells_push qq hd v z : upd (queue_cells qq hd) (hd + Z.of_nat (length qq)) (Some v) z = queue_cells (qq ++ [v]) hd z.
Proof. unfold upd, queue_cells. rewrite zget_app. zbool; try done; lia. Qed.

Lemma queue_cells_undo q vs hd z : clear (queue_cells (q ++ vs) hd) (hd + Z.of_nat (length q)) (Z.of_nat (length vs)) z = queue_cells q hd z.
Proof.
  unfold clear, queue_cells. destruct (Z.lt_ge_cases z (hd + Z.of_nat (length q))) as [H1|H1].
  - replace (hd + Z.of_nat (length q) <=? z) with false by (zbool; lia). cbn. by rewrite zget_app_l by lia.
  - rewrite (zget_out q) by lia. zbool; cbn; try done; (rewrite zget_out; [done|]; rewrite length_app; lia).
Qed.

(** ** Reading and writing *)

Definition cells h (first : Z) (bs : list nat) f : Prop :=
  forall k x, bs !! k = Some x -> exists b, blocks h !! x = Some b /\
    elements b = slots (fun i => f (32 * (first + Z.of_nat k) + Z.of_nat i)).

(** Heaps whose blocks differ in their elements only. *)
Definition same_shape h h' : Prop :=
  forall x, (fun b => set_elements b []) <$> blocks h' !! x = (fun b => set_elements b []) <$> blocks h !! x.

Lemma same_shape_refl h : same_shape h h.
Proof. done. Qed.

Lemma same_shape_trans h1 h2 h3 : same_shape h1 h2 -> same_shape h2 h3 -> same_shape h1 h3.
Proof. intros H1 H2 x. by rewrite H2. Qed.

Lemma same_shape_lookup h h' x b : same_shape h h' -> blocks h !! x = Some b ->
  exists b', blocks h' !! x = Some b' /\ set_elements b' [] = set_elements b [].
Proof. intros Hs Hb. specialize (Hs x). rewrite Hb in Hs. cbn in Hs. apply fmap_Some in Hs as (b' & Hb' & E). by exists b'. Qed.

Lemma cells_ext h first bs f g :
  (forall z, 32 * first <= z < 32 * (first + Z.of_nat (length bs)) -> f z = g z) -> cells h first bs f -> cells h first bs g.
Proof.
  intros Hfg Hc k x Hk. destruct (Hc k x Hk) as (b & Hb & He). exists b. split; [done|]. rewrite He.
  pose proof (lookup_lt_Some _ _ _ Hk). apply slots_ext. intros i Hi. apply Hfg. lia.
Qed.

Lemma cells_read h first bs f k x i :
  cells h first bs f -> bs !! k = Some x -> i / 32 = first + Z.of_nat k ->
  exists b, blocks h !! x = Some b /\ block_get b (u64 i) = f i.
Proof.
  intros Hc Hk Hi. destruct (Hc k x Hk) as (b & Hb & He). exists b. split; [done|].
  pose proof (Z.div_mod i 32 ltac:(lia)). pose proof (Z.mod_pos_bound i 32 ltac:(lia)).
  unfold block_get. rewrite He, offset_u64, slots_lookup, decide_True by lia. cbn. f_equal. lia.
Qed.

(** Writing a cell. *)
Lemma cells_write h F first bs f k x i o b :
  own h F bs -> NoDup bs -> cells h first bs f -> bs !! k = Some x -> i / 32 = first + Z.of_nat k -> blocks h !! x = Some b ->
  let h' := put_block h x (block_set b (u64 i) o) in
  stepped F h h' bs /\ cells h' first bs (upd f i o) /\ same_shape h h'.
Proof.
  intros Hown Hnd Hc Hk Hi Hb h'. pose proof (Z.div_mod i 32 ltac:(lia)). pose proof (Z.mod_pos_bound i 32 ltac:(lia)).
  destruct (Hc k x Hk) as (b1 & Hb1 & He). rewrite Hb in Hb1. injection Hb1 as <-. split; [|split].
  - eapply own_write; [done|by eapply list_elem_of_lookup_2|exact (own_refs _ _ _ _ _ _ Hown Hk Hb)| |exact Hb|done].
    cbn. by rewrite length_insert, He, slots_length.
  - intros k' x' Hk'. subst h'. rewrite put_block_lookup. case_decide as Hx.
    + subst x'. assert (k' = k) as -> by (by eapply NoDup_lookup). eexists. split; [done|]. cbn.
      rewrite He, offset_u64, slots_insert by lia. apply slots_ext. intros j Hj. unfold upd. case_decide; zbool; try done; lia.
    + destruct (Hc k' x' Hk') as (b' & Hb' & He'). exists b'. split; [done|]. rewrite He'. apply slots_ext. intros j Hj.
      unfold upd. zbool; [|done]. exfalso. apply Hx. assert (k' = k) as -> by lia. congruence.
  - intros y. subst h'. rewrite put_block_lookup. case_decide; [subst; by rewrite Hb|done].
Qed.

Section Ranges.
Context (F : gset nat) (first : Z) (bs : list nat) (k x : nat).
Context (Hnd : NoDup bs) (Hk : bs !! k = Some x).

(** What is done to the cells from [i] on, in one block. *)
Definition changed h h' f : Prop := stepped F h h' bs /\ cells h' first bs f /\ same_shape h h'.

Lemma changed_refl h f : own h F bs -> cells h first bs f -> changed h h f.
Proof. intros. split; [by apply stepped_refl|]. split; [done|apply same_shape_refl]. Qed.

Lemma changed_trans h1 h2 h3 f g : changed h1 h2 f -> changed h2 h3 g -> changed h1 h3 g.
Proof. intros (S1 & _ & M1) (S2 & C2 & M2). split; [by eapply stepped_trans|]. split; [done|by eapply same_shape_trans]. Qed.

Lemma changed_ext h h' f g : (forall z, f z = g z) -> changed h h' f -> changed h h' g.
Proof. intros Hfg (S & C & M). split; [done|]. split; [|done]. eapply cells_ext; [|done]. auto. Qed.

Lemma construct_object_spec h f i v :
  own h F bs -> cells h first bs f -> i / 32 = first + Z.of_nat k ->
  exists h', construct_object h x (u64 i) v = Ret h' /\ changed h h' (upd f i (Some v)).
Proof.
  intros Hown Hc Hi. destruct (Hc k x Hk) as (b & Hb & _). unfold construct_object. rewrite (get_block_Ret _ _ _ Hb). cbn [mbind outcome_bind].
  eexists. split; [done|]. by eapply cells_write.
Qed.

Lemma destroy_spec h f i :
  own h F bs -> cells h first bs f -> i / 32 = first + Z.of_nat k -> is_Some (f i) ->
  exists h', destroy_object h x (u64 i) = Ret h' /\ changed h h' (upd f i None).
Proof.
  intros Hown Hc Hi [v Hv]. destruct (cells_read _ _ _ _ _ _ _ Hc Hk Hi) as (b & Hb & Hg).
  unfold destroy_object. rewrite (get_block_Ret _ _ _ Hb). cbn [mbind outcome_bind]. rewrite Hg, Hv. cbn [of_option mbind outcome_bind].
  eexists. split; [done|]. by eapply cells_write.
Qed.

Lemma read_spec h f i v :
  cells h first bs f -> i / 32 = first + Z.of_nat k -> f i = Some v -> read_object h x (u64 i) = Ret v.
Proof.
  intros Hc Hi Hv. destruct (cells_read _ _ _ _ _ _ _ Hc Hk Hi) as (b & Hb & Hg).
  unfold read_object. rewrite (get_block_Ret _ _ _ Hb). cbn [mbind outcome_bind]. by rewrite Hg, Hv.
Qed.

Lemma same_block i : i / 32 = first + Z.of_nat k -> i mod 32 < 31 -> (i + 1) / 32 = first + Z.of_nat k.
Proof. intros <- Hi. symmetry. pose proof (Z.mod_pos_bound i 32 ltac:(lia)). apply (Z.div_unique _ _ _ (i mod 32 + 1)); [lia|]. pose proof (Z.div_mod i 32 ltac:(lia)). lia. Qed.

Lemma mod_next i : i mod 32 < 31 -> (i + 1) mod 32 = i mod 32 + 1.
Proof. intros Hi. symmetry. pose proof (Z.mod_pos_bound i 32 ltac:(lia)). apply (Z.mod_unique _ _ (i / 32)); [lia|]. pose proof (Z.div_mod i 32 ltac:(lia)). lia. Qed.

Lemma destroy_range_spec n : forall fuel h f i,
  (n <= fuel)%nat -> own h F bs -> cells h first bs f -> (n <> 0%nat -> i / 32 = first + Z.of_nat k) -> i mod 32 + Z.of_nat n <= 32 ->
  (forall z, i <= z < i + Z.of_nat n -> is_Some (f z)) ->
  exists h', destroy_range fuel h (Some x) (u64 i) (u64 (i + Z.of_nat n)) = Ret h' /\ changed h h' (clear f i (Z.of_nat n)).
Proof.
  induction n as [|n IH]; intros fuel h f i Hf Hown Hc Hi Hm Hs; pose proof (Z.mod_pos_bound i 32 ltac:(lia)).
  - exists h. destruct fuel; cbn [destroy_range]; rewrite u64_eqb by lia; (split; [done|]);
      (eapply changed_ext; [|by apply changed_refl]); intros z; unfold clear; zbool; cbn; try done; lia.
  - destruct fuel as [|fuel]; [lia|]. cbn [destroy_range]. rewrite u64_eqb by lia. destruct (Z.eqb_spec (Z.of_nat (S n)) 0); [lia|].
    destruct (destroy_spec h f i Hown Hc ltac:(auto)) as (h1 & E1 & C1); [apply Hs; lia|]. cbn [of_option mbind outcome_bind]. rewrite E1.
    cbn [mbind outcome_bind]. rewrite u64_add_l. replace (i + Z.of_nat (S n)) with (i + 1 + Z.of_nat n) by lia. specialize (Hi ltac:(done)).
    pose proof (Z.div_mod i 32 ltac:(lia)).
    destruct (Z.eq_dec (Z.of_nat n) 0) as [En|En].
    { assert (n = 0%nat) as -> by lia. exists h1. destruct fuel; cbn [destroy_range]; rewrite u64_eqb by lia; (split; [done|]);
        (eapply changed_ext; [|exact C1]); intros z; unfold clear, upd; zbool; cbn; try done; lia. }
    destruct (IH fuel h1 (upd f i None) (i + 1)) as (h2 & E2 & C2).
    + lia.
    + apply C1.
    + apply C1.
    + intros _. apply same_block; [done|lia].
    + rewrite mod_next; lia.
    + intros z Hz. unfold upd. zbool; [lia|]. apply Hs. lia.
    + exists h2. split; [done|]. eapply changed_ext; [|by eapply changed_trans].
      intros z. unfold clear, upd. zbool; cbn; try done; lia.
Qed.

(** How many of [n] elements are assigned. *)
Definition assigned (throws : option nat) (n : nat) : nat := match throws with None => n | Some t => Nat.min t n end.

Lemma move_out_spec l : forall fuel h f i throws,
  (length l <= fuel)%nat -> own h F bs -> cells h first bs f -> (l <> [] -> i / 32 = first + Z.of_nat k) -> i mod 32 + Z.of_nat (length l) <= 32 ->
  (forall j v, l !! j = Some v -> f (i + Z.of_nat j) = Some v) ->
  let m := assigned throws (length l) in
  exists h', move_out fuel h x (u64 i) (u64 (i + Z.of_nat (length l))) throws =
      Ret (take m l, u64 (i + Z.of_nat m), (fun t => t - m)%nat <$> throws, bool_decide (m < length l)%nat, h') /\
    changed h h' (clear f i (Z.of_nat m)).
Proof.
  induction l as [|v l IH]; intros fuel h f i throws Hf Hown Hc Hi Hm Hs m; pose proof (Z.mod_pos_bound i 32 ltac:(lia)).
  - exists h. cbn [length] in *. assert (m = 0%nat) as -> by (destruct throws; cbn; lia).
    assert ((fun t => t - 0)%nat <$> throws = throws) as -> by (destruct throws; cbn; [f_equal; lia|done]). rewrite Z.add_0_r.
    destruct fuel; cbn [move_out]; rewrite Z.eqb_refl; (split; [done|]);
      (eapply changed_ext; [|by apply changed_refl]); intros z; unfold clear; zbool; cbn; try done; lia.
  - cbn [length] in *. destruct fuel as [|fuel]; [lia|]. cbn [move_out]. rewrite u64_eqb by lia. destruct (Z.eqb_spec (Z.of_nat (S (length l))) 0); [lia|].
    specialize (Hi ltac:(done)). pose proof (Hs 0%nat v eq_refl) as Hv. cbn in Hv. rewrite Z.add_0_r in Hv.
    rewrite (read_spec h f i v Hc Hi Hv). cbn [mbind outcome_bind].
    destruct (decide (throws = Some 0%nat)) as [->|Hne].
    { exists h. subst m. cbn. rewrite Z.add_0_r. split; [done|].
      eapply changed_ext; [|by apply changed_refl]. intros z; unfold clear; zbool; cbn; try done; lia. }
    destruct (destroy_spec h f i Hown Hc Hi) as (h1 & E1 & C1); [by eexists|].
    set (m' := assigned (pred <$> throws) (length l)).
    assert (m = S m') as Em by (subst m m'; destruct throws as [[|t]|]; cbn; try done).
    pose proof (Z.div_mod i 32 ltac:(lia)).
    destruct (IH fuel h1 (upd f i None) (i + 1) (pred <$> throws)) as (h2 & E2 & C2).
    + lia.
    + apply C1.
    + apply C1.
    + intros Hl. apply same_block; [done|]. destruct l; [done|]. cbn [length] in Hm. lia.
    + destruct l; [pose proof (Z.mod_pos_bound (i + 1) 32 ltac:(lia)); cbn; lia|]. cbn [length] in *. rewrite mod_next; lia.
    + intros j w Hj. unfold upd. zbool; [lia|]. rewrite <- (Hs (S j) w Hj). f_equal. lia.
    + replace (i + 1 + Z.of_nat (length l)) with (i + Z.of_nat (S (length l))) in E2 by lia. fold m' in E2, C2. exists h2. split.
      * replace (i + Z.of_nat m) with (i + 1 + Z.of_nat m') by lia.
        replace (bool_decide (m < S (length l))%nat) with (bool_decide (m' < length l)%nat) by (apply bool_decide_ext; lia).
        destruct throws as [[|t]|]; [done|..]; rewrite E1; cbn [mbind outcome_bind fmap option_fmap option_map pred] in *;
          rewrite u64_add_l, E2; cbn [mbind outcome_bind]; by rewrite Em.
      * eapply changed_ext; [|by eapply changed_trans]. intros z. rewrite Em. unfold clear, upd. zbool; cbn; try done; lia.
Qed.
Lemma assigned_le throws n : (assigned throws n <= n)%nat.
Proof. destruct throws; cbn; lia. Qed.

(** The first [n] elements of a queue, all in block [k], are assigned. *)
Lemma cells_move n h hd l q throws :
  own h F bs -> cells h first bs (queue_cells (l ++ q) hd) -> hd / 32 = first + Z.of_nat k -> (n <= length l)%nat -> hd mod 32 + Z.of_nat n <= 32 ->
  let m := assigned throws n in
  exists h1, move_out (Z.to_nat BLOCK_SIZE) h x (u64 hd) (u64 (hd + Z.of_nat n)) throws =
      Ret (take m l, u64 (hd + Z.of_nat m), (fun t => t - m)%nat <$> throws, bool_decide (m < n)%nat, h1) /\
    changed h h1 (queue_cells (drop m l ++ q) (hd + Z.of_nat m)).
Proof.
  intros Hown Hc Hj Hnl Hm m. pose proof (assigned_le throws n : (m <= n)%nat) as Hmn. pose proof (Z.mod_pos_bound hd 32 ltac:(lia)).
  assert (length (take n l) = n) as Hn by (rewrite length_take; lia).
  destruct (move_out_spec (take n l) (Z.to_nat BLOCK_SIZE) h (queue_cells (l ++ q) hd) hd throws) as (h1 & E1 & C1); try done.
  - rewrite Hn. unfold BLOCK_SIZE. lia.
  - lia.
  - intros j v Hv. rewrite <- (take_drop n l), <- app_assoc. by apply queue_cells_head.
  - rewrite Hn in E1, C1. fold m in E1, C1. rewrite take_take, Nat.min_l in E1 by lia. exists h1. split; [done|].
    eapply changed_ext; [|exact C1]. intros z. assert (Z.of_nat m = Z.of_nat (length (take m l))) as Em by (rewrite length_take; lia).
    rewrite Em, <- queue_cells_clear, app_assoc, take_drop. done.
Qed.

(** They are destroyed. *)
Lemma cells_drop n h hd l q :
  own h F bs -> cells h first bs (queue_cells (l ++ q) hd) -> hd / 32 = first + Z.of_nat k -> (n <= length l)%nat -> hd mod 32 + Z.of_nat n <= 32 ->
  exists h1, destroy_range (Z.to_nat BLOCK_SIZE) h (Some x) (u64 hd) (u64 (hd + Z.of_nat n)) = Ret h1 /\
    changed h h1 (queue_cells (drop n l ++ q) (hd + Z.of_nat n)).
Proof.
  intros Hown Hc Hj Hnl Hm. pose proof (Z.mod_pos_bound hd 32 ltac:(lia)).
  destruct (destroy_range_spec n (Z.to_nat BLOCK_SIZE) h (queue_cells (l ++ q) hd) hd) as (h1 & E1 & C1); try done.
  - unfold BLOCK_SIZE. lia.
  - intros z Hz. unfold queue_cells. rewrite zget_app_l by lia. apply zget_in. lia.
  - exists h1. split; [done|]. eapply changed_ext; [|exact C1]. intros z.
    assert (Z.of_nat n = Z.of_nat (length (take n l))) as En by (rewrite length_take; lia).
    rewrite En, <- queue_cells_clear, app_assoc, take_drop. done.
Qed.
End Ranges.
End Cells.
