(* ===== verification/ImplicitBulkSpec.v ===== *)
(** * Bulk operations of the implicit producer against the queue

    [implicit_dequeue_bulk] takes the oldest elements in order, and
    [implicit_enqueue_bulk] appends all its items or none of them. *)
From S2P Require Import Prelude QueueDetails QueueBlock Producer ImplicitProducer ImplicitIndex ImplicitSpec ImplicitBulk BlockCells.
Arguments slots : simpl never.

Section BulkSpec.
Context {T : Type}.
Implicit Types (h : Heap T) (p : ImplicitProducer) (q l : list T).

(** ** Counters *)

(** The counter of block number [j] when [hd] elements are gone. *)
Definition counters h (bs : list nat) (first hd : Z) : Prop :=
  forall k x, bs !! k = Some x -> exists b, blocks h !! x = Some b /\
    elementsCompletelyDequeued b = Z.max 0 (hd - 32 * (first + Z.of_nat k)).

Lemma blocks_rep_cells h hd q bs : blocks_rep h hd q bs <-> cells h (hd / 32) bs (queue_cells q hd) /\ counters h bs (hd / 32) hd.
Proof.
  split.
  - intros Hb. split; intros k x Hk; destruct (Hb k x Hk) as (b & E & [Hc He]); by exists b.
  - intros [Hc Hn] k x Hk. destruct (Hc k x Hk) as (b & E & He). destruct (Hn k x Hk) as (b' & E' & Hc').
    rewrite E in E'. injection E' as <-. exists b. split; [done|]. by constructor.
Qed.

Lemma counters_shape h h' bs first hd : same_shape h h' -> counters h bs first hd -> counters h' bs first hd.
Proof.
  intros Hs Hc k x Hk. destruct (Hc k x Hk) as (b & Hb & E). destruct (same_shape_lookup _ _ _ _ Hs Hb) as (b' & Hb' & E').
  exists b'. split; [done|]. rewrite <- E. by injection E'.
Qed.

Lemma cells_tail h first x bs (f : Z -> option T) : cells h first (x :: bs) f -> cells h (first + 1) bs f.
Proof.
  intros Hc k y Hk. destruct (Hc (S k) y Hk) as (b & Hb & He). exists b. split; [done|]. rewrite He. apply slots_ext. intros. f_equal. lia.
Qed.

(** ** The end of a block *)

(** A part of a queue: elements up to [hd] are counted in their blocks, elements up
    to [hd + m] are gone, [q] are the others. *)
Record part h (F : gset nat) p (hd m : Z) q (bs : list nat) (top : Z) : Prop := mk_part {
  pt_own : own h F bs;
  pt_nodup : NoDup bs;
  pt_cells : cells h (hd / 32) bs (queue_cells q (hd + m));
  pt_counters : counters h bs (hd / 32) hd;
  pt_index : idx_rep p (hd / 32) bs;
  pt_length : Z.of_nat (length bs) = top - hd / 32 }.

(** What the loops do: the blocks that became empty are given back. *)
Definition shrunk (F : gset nat) h p (bs : list nat) h' p' (bs' : list nat) : Prop :=
  stepped F h h' bs' /\ imp_base p' = imp_base p /\ blockIndex p' = blockIndex p /\ bs' `suffix_of` bs.

Lemma shrunk_trans F h1 p1 bs1 h2 p2 bs2 h3 p3 bs3 :
  shrunk F h1 p1 bs1 h2 p2 bs2 -> shrunk F h2 p2 bs2 h3 p3 bs3 -> shrunk F h1 p1 bs1 h3 p3 bs3.
Proof.
  intros (S1 & B1 & I1 & X1) (S2 & B2 & I2 & X2). split; [by eapply stepped_trans|]. split; [congruence|]. split; [congruence|]. by trans bs2.
Qed.

Lemma finish_block_spec h F p hd n q x bs top e :
  part h F p hd n q (x :: bs) top -> 0 <= n -> hd mod 32 + n <= 32 -> blockIndex p <> [] ->
  (exists ix ixs, blockIndex p = ix :: ixs /\ slot_at ix (Z.of_nat (length bs)) = Some e) ->
  exists h' p' bs', finish_block h p e x (u64 hd) (u64 (hd + n)) = Ret (h', p') /\ shrunk F h p (x :: bs) h' p' bs' /\
    part h' F p' (hd + n) 0 q bs' top.
Proof.
  intros [Hown Hnd Hc Hn Hidx Hlen] Hn0 Hm Hne (ix & ixs & Ep & Hslot).
  pose proof (Z.div_mod hd 32 ltac:(lia)). pose proof (Z.mod_pos_bound hd 32 ltac:(lia)).
  destruct (Hn 0%nat x eq_refl) as (b & Hb & Hcount). destruct (Hc 0%nat x eq_refl) as (b0 & Hb0 & He). rewrite Hb in Hb0. injection Hb0 as <-.
  unfold finish_block. rewrite (get_block_Ret _ _ _ Hb). cbn [mbind outcome_bind set_many_empty].
  assert (u64 (hd + n) -w u64 hd = n) as ->.
  { rewrite u64_sub_l, u64_sub_r. replace (hd + n - hd) with n by lia. apply u64_small. unfold is_u64, UINT64_MOD. lia. }
  assert (elementsCompletelyDequeued b +w n = hd mod 32 + n) as ->.
  { rewrite Hcount. rewrite u64_small by (unfold is_u64, UINT64_MOD; lia). lia. }
  replace (hd mod 32 + n <=? BLOCK_SIZE) with true by (unfold BLOCK_SIZE; zbool; lia). cbn [mbind outcome_bind].
  set (h1 := put_block h x (set_counter b (hd mod 32 + n))).
  assert (stepped F h h1 (x :: bs)) as S1.
  { eapply own_write; [done|by left|exact (own_refs _ _ _ 0%nat _ _ Hown eq_refl Hb)| |exact Hb|done]. cbn. by rewrite He, slots_length. }
  pose proof Hnd as [Hxb Hnd']%NoDup_cons. rewrite Z.add_0_r in Hcount, He.
  assert (blocks_rep h1 (hd + n) q (x :: bs) \/ hd mod 32 + n = 32) as Hrep1.
  { destruct (Z.eq_dec (hd mod 32 + n) 32) as [|Hne32]; [by right|left]. intros k y Hk. rewrite div_step by done.
    destruct (Z.eqb_spec (hd mod 32 + n) 32); [done|]. subst h1. rewrite put_block_lookup. case_decide as Hxy.
    - subst y. assert (k = 0%nat) as -> by (by eapply (NoDup_lookup (x :: bs))). eexists. split; [done|].
      rewrite Z.add_0_r. constructor; [cbn; lia|exact He].
    - destruct (Hc k y Hk) as (c & Hcb & Hce). destruct (Hn k y Hk) as (c' & Hcb' & Hcc). rewrite Hcb in Hcb'. injection Hcb' as <-.
      exists c. split; [done|]. destruct k as [|k]; [by injection Hk|]. constructor; [rewrite Hcc; lia|exact Hce]. }
  destruct (Z.eqb_spec (hd mod 32 + n) BLOCK_SIZE) as [E32|E32]; unfold BLOCK_SIZE in E32.
  - destruct (own_pop_first h1 F x bs (set_counter b (hd mod 32 + n)) (proj1 S1) Hxb) as (h2 & -> & S2 & Hsb).
    { subst h1. by rewrite put_block_lookup, decide_True. }
    { unfold raw. cbn. rewrite He. apply slots_none. intros i Hi. apply zget_out. lia. }
    cbn [mbind outcome_bind]. assert ((hd + n) / 32 = hd / 32 + 1) as Ed by (rewrite div_step by done; by rewrite E32).
    eexists _, _, bs. split; [done|]. split; [split; [by eapply stepped_trans|]; split; [done|]; split; [done|by exists [x]]|].
    assert (blocks_rep h2 (hd + n) q bs) as Hrep2.
    { intros k y Hk. rewrite Ed. destruct (Hc (S k) y Hk) as (c & Hcb & Hce). destruct (Hn (S k) y Hk) as (c' & Hcb' & Hcc).
      rewrite Hcb in Hcb'. injection Hcb' as <-. exists c. split.
      - rewrite Hsb by (apply elem_of_list_to_set; by eapply list_elem_of_lookup_2). subst h1.
        rewrite put_block_lookup, decide_False; [done|]. intros ->. by apply list_elem_of_lookup_2 in Hk.
      - replace (hd / 32 + 1 + Z.of_nat k) with (hd / 32 + Z.of_nat (S k)) by lia. constructor; [rewrite Hcc; lia|exact Hce]. }
    apply blocks_rep_cells in Hrep2 as [Hc2 Hn2]. constructor; rewrite ?Z.add_0_r; try done.
    + apply S2.
    + unfold idx_rep in *. cbn. rewrite Ep in *. destruct Hidx as [Hok Hnext]. split; [|done]. rewrite Ed.
      eapply index_pop; [exact Hok|exact Hslot|done].
    + rewrite Ed. cbn [length] in Hlen. lia.
  - destruct Hrep1 as [Hrep1|]; [|lia]. apply blocks_rep_cells in Hrep1 as [Hc1 Hn1].
    assert ((hd + n) / 32 = hd / 32) as Ed by (rewrite div_step by done; by destruct (Z.eqb_spec (hd mod 32 + n) 32)).
    eexists _, _, (x :: bs). split; [done|]. split; [split; [done|]; split; [done|]; split; done|].
    constructor; rewrite ?Z.add_0_r; try done; [apply S1|by rewrite Ed|by rewrite Ed].
Qed.

(** ** The loops of [dequeue_bulk] *)

(** The slot of the first of the blocks [bs]. *)
Definition pos (ix : BlockIndexHeader) (bs : list nat) : Z := (bih_tail ix - (Z.of_nat (length bs) - 1)) mod bih_capacity ix.

Section Loops.
Context (F : gset nat) (ix : BlockIndexHeader) (ixs : list BlockIndexHeader) (top : Z).

Lemma part_entry h p hd m q x bs :
  part h F p hd m q (x :: bs) top -> blockIndex p = ix :: ixs ->
  exists e, slot ix (pos ix (x :: bs)) = Ret e /\ entry_block p e = Ret x /\ slot_at ix (Z.of_nat (length bs)) = Some e /\
    next_slot ix (pos ix (x :: bs)) = pos ix bs.
Proof.
  intros Hp Ep. pose proof (pt_index _ _ _ _ _ _ _ _ Hp) as Hidx. unfold idx_rep in Hidx. rewrite Ep in Hidx. destruct Hidx as [Hok _].
  destruct (index_lookup p ix ixs (hd / 32) (x :: bs) 0 x hd Ep Hok eq_refl ltac:(lia)) as (i & e & _ & Ei & Hs & Hsa & He).
  cbn [length] in *. replace (Z.of_nat (S (length bs)) - 1 - Z.of_nat 0) with (Z.of_nat (length bs)) in * by lia.
  assert (pos ix (x :: bs) = i) as -> by (rewrite Ei; unfold pos; cbn [length]; f_equal; lia).
  exists e. split; [done|]. split; [unfold entry_block; by rewrite (entry_at_Ret _ _ _ He)|]. split; [done|].
  unfold next_slot. rewrite (land_cap _ _ _ _ Hok), Ei, Zplus_mod_idemp_l. unfold pos. f_equal. lia.
Qed.

(** Elements of the first block are gone. *)
Lemma part_change h h1 p hd m m' q q' bs :
  part h F p hd m q bs top -> changed F (hd / 32) bs h h1 (queue_cells q' (hd + m')) -> part h1 F p hd m' q' bs top.
Proof. intros [] (S1 & C1 & M1). constructor; try done; [apply S1|by eapply counters_shape]. Qed.

Lemma part_nonempty h p hd m q bs :
  part h F p hd m q bs top -> hd / 32 < top -> exists x bs', bs = x :: bs'.
Proof. intros Hp Ht. destruct bs; [|eauto]. pose proof (pt_length _ _ _ _ _ _ _ _ Hp) as E. cbn in E. lia. Qed.

(** When the elements go on in the next block, its slot is the next one. *)
Lemma part_next h p hd m q x bs h2 p2 q2 bs2 E :
  part h F p hd m q (x :: bs) top -> part h2 F p2 (hd + E) 0 q2 bs2 top -> E = 32 - hd mod 32 ->
  pos ix bs = pos ix bs2 /\ (hd + E) mod 32 = 0 /\ (hd + E) / 32 = hd / 32 + 1.
Proof.
  intros H1 H2 ->. pose proof (Z.div_mod hd 32 ltac:(lia)).
  assert (hd + (32 - hd mod 32) = (hd / 32 + 1) * 32) as Eq by lia. rewrite Eq in *. rewrite Z_mod_mult, Z.div_mul by lia.
  split; [|done]. pose proof (pt_length _ _ _ _ _ _ _ _ H1) as L1. pose proof (pt_length _ _ _ _ _ _ _ _ H2) as L2.
  rewrite Z.div_mul in L2 by lia. cbn [length] in L1. unfold pos. do 3 f_equal. lia.
Qed.

(** [n] more elements of the first block are destroyed. *)
Lemma drop_block h p hd m l q x bs n :
  part h F p hd m (l ++ q) (x :: bs) top -> 0 <= m -> (n <= length l)%nat -> hd mod 32 + m < 32 -> hd mod 32 + m + Z.of_nat n <= 32 ->
  exists h1, destroy_range (Z.to_nat BLOCK_SIZE) h (Some x) (u64 (hd + m)) (u64 (hd + m + Z.of_nat n)) = Ret h1 /\
    part h1 F p hd (m + Z.of_nat n) (drop n l ++ q) (x :: bs) top /\ stepped F h h1 (x :: bs).
Proof.
  intros Hp Hm0 Hnl Hm Hmn. destruct (div_within hd m Hm0 Hm) as [Ed Em].
  destruct (cells_drop F (hd / 32) (x :: bs) 0 x (pt_nodup _ _ _ _ _ _ _ _ Hp) eq_refl n h (hd + m) l q) as (h1 & E1 & C1);
    [apply Hp|apply Hp|lia|done|lia|]. exists h1. split; [done|]. split; [|apply C1]. eapply part_change; [exact Hp|].
  by replace (hd + (m + Z.of_nat n)) with (hd + m + Z.of_nat n) by lia.
Qed.

Lemma drop_blocks_spec fuel : forall h p hd m l q bs,
  part h F p hd m (l ++ q) bs top -> blockIndex p = ix :: ixs -> 0 <= m -> hd mod 32 + m < 32 ->
  l <> [] -> (length l <= fuel)%nat -> m + Z.of_nat (length l) < 9223372036854775808 -> hd + m + Z.of_nat (length l) <= 32 * top ->
  exists h' p' bs', drop_blocks fuel h p ix (pos ix bs) (u64 hd) (u64 (hd + m))
      (u64 (hd + Z.min (m + Z.of_nat (length l)) (32 - hd mod 32))) (u64 (hd + (m + Z.of_nat (length l)))) = Ret (h', p') /\
    shrunk F h p bs h' p' bs' /\ part h' F p' (hd + (m + Z.of_nat (length l))) 0 q bs' top.
Proof.
  induction fuel as [|fuel IH]; intros h p hd m l q bs Hp Ep Hm0 Hm Hl Hf Hb Ht.
  { destruct l; [done|cbn in Hf; lia]. }
  pose proof (Z.div_mod hd 32 ltac:(lia)). pose proof (Z.mod_pos_bound hd 32 ltac:(lia)).
  assert (0 < Z.of_nat (length l)) by (destruct l; [done|cbn; lia]).
  set (E := Z.min (m + Z.of_nat (length l)) (32 - hd mod 32)). set (n := Z.to_nat (E - m)).
  destruct (part_nonempty h p hd m (l ++ q) bs Hp ltac:(lia)) as (x & bs0 & ->).
  destruct (part_entry h p hd m (l ++ q) x bs0 Hp Ep) as (e & Hs & He & Hsa & Hns).
  cbn [drop_blocks]. rewrite Hs. cbn [mbind outcome_bind]. rewrite He. cbn [mbind outcome_bind].
  destruct (drop_block h p hd m l q x bs0 n Hp ltac:(lia) ltac:(lia) ltac:(lia) ltac:(lia)) as (h1 & E1 & Hp1 & S1).
  replace (hd + m + Z.of_nat n) with (hd + E) in E1 by lia. rewrite E1. replace (m + Z.of_nat n) with E in Hp1 by lia.
  cbn [mbind outcome_bind].
  destruct (finish_block_spec h1 F p hd E (drop n l ++ q) x bs0 top e Hp1) as (h2 & p2 & bs2 & -> & S2 & Hp2);
    [lia|lia|by rewrite Ep|by eexists _, _|]. cbn [mbind outcome_bind].
  assert (shrunk F h p (x :: bs0) h2 p2 bs2) as S12.
  { destruct S2 as (? & ? & ? & ?). split; [by eapply stepped_trans|done]. }
  replace (hd + (m + Z.of_nat (length l))) with (hd + E + (m + Z.of_nat (length l) - E)) by lia.
  rewrite u64_eqb by lia. destruct (Z.eqb_spec (m + Z.of_nat (length l) - E) 0) as [E0|E0].
  - rewrite E0, Z.add_0_r. assert (drop n l = []) as Ed by (apply drop_ge; lia). rewrite Ed in Hp2. by eexists _, _, bs2.
  - destruct (part_next _ _ _ _ _ _ _ _ _ _ _ E Hp1 Hp2 ltac:(lia)) as (Epos & Em & Ed). rewrite Hns, Epos.
    assert (Z.of_nat (length (drop n l)) = m + Z.of_nat (length l) - E) as Hd by (rewrite length_drop; lia).
    destruct (IH h2 p2 (hd + E) 0 (drop n l) q bs2) as (h3 & p3 & bs3 & E3 & S3 & Hp3); try done.
    + destruct S12 as (_ & _ & -> & _). done.
    + lia.
    + intros En. rewrite En in Hd. cbn in Hd. lia.
    + rewrite length_drop. lia.
    + lia.
    + lia.
    + rewrite Hd, Em, Z.add_0_r, !Z.add_0_l in *. rewrite block_end_spec, Em by lia. rewrite E3. eexists _, _, bs3. split; [done|].
      split; [by eapply shrunk_trans|done].
Qed.

(** The first [n] elements lie in the first block. *)
Lemma move_block h p hd l q x bs n throws :
  part h F p hd 0 (l ++ q) (x :: bs) top -> (n <= length l)%nat -> hd mod 32 + Z.of_nat n <= 32 ->
  let m := assigned throws n in
  exists h1, move_out (Z.to_nat BLOCK_SIZE) h x (u64 hd) (u64 (hd + Z.of_nat n)) throws =
      Ret (take m l, u64 (hd + Z.of_nat m), (fun t => t - m)%nat <$> throws, bool_decide (m < n)%nat, h1) /\
    part h1 F p hd (Z.of_nat m) (drop m l ++ q) (x :: bs) top /\ stepped F h h1 (x :: bs).
Proof.
  intros Hp Hnl Hm m. pose proof (pt_cells _ _ _ _ _ _ _ _ Hp) as Hc. rewrite Z.add_0_r in Hc.
  destruct (cells_move F (hd / 32) (x :: bs) 0 x (pt_nodup _ _ _ _ _ _ _ _ Hp) eq_refl n h hd l q throws) as (h1 & E1 & C1);
    [apply Hp|done|lia|done|lia|]. exists h1. split; [done|]. split; [|apply C1]. by eapply part_change.
Qed.

Lemma dequeue_blocks_S fuel h p indexIndex index stop throws :
  dequeue_blocks (S fuel) h p ix indexIndex index stop throws =
    (entry ← slot ix indexIndex;
     x ← entry_block p entry;
     '(l, here, throws, threw, h) ← move_out (Z.to_nat BLOCK_SIZE) h x index (block_end index stop) throws;
     if (threw : bool) then
       '(h, p) ← drop_blocks (S fuel) h p ix indexIndex index here (block_end index stop) stop;
       Ret (l, true, h, p)
     else
       '(h, p) ← finish_block h p entry x index (block_end index stop);
       if block_end index stop =? stop then Ret (l, false, h, p)
       else
         '(l', threw, h, p) ← dequeue_blocks fuel h p ix (next_slot ix indexIndex) (block_end index stop) stop throws;
         Ret (l ++ l', threw, h, p)).
Proof. done. Qed.

Lemma dequeue_blocks_spec fuel : forall h p hd l q bs throws,
  part h F p hd 0 (l ++ q) bs top -> blockIndex p = ix :: ixs -> l ++ q <> [] ->
  (length l < fuel)%nat -> Z.of_nat (length l) < 9223372036854775808 -> hd + Z.of_nat (length (l ++ q)) <= 32 * top ->
  let m := assigned throws (length l) in
  exists h' p' bs', dequeue_blocks fuel h p ix (pos ix bs) (u64 hd) (u64 (hd + Z.of_nat (length l))) throws =
      Ret (take m l, bool_decide (m < length l)%nat, h', p') /\
    shrunk F h p bs h' p' bs' /\ part h' F p' (hd + Z.of_nat (length l)) 0 q bs' top.
Proof.
  induction fuel as [|fuel IH]; intros h p hd l q bs throws Hp Ep Hne Hf Hb Ht m; [lia|].
  pose proof (Z.div_mod hd 32 ltac:(lia)). pose proof (Z.mod_pos_bound hd 32 ltac:(lia)).
  assert (0 < Z.of_nat (length (l ++ q))) by (destruct (l ++ q); [done|cbn; lia]).
  remember (Z.min (Z.of_nat (length l)) (32 - hd mod 32)) as E eqn:HE. remember (Z.to_nat E) as n eqn:HN.
  destruct (part_nonempty h p hd 0 (l ++ q) bs Hp ltac:(lia)) as (x & bs0 & ->).
  destruct (part_entry h p hd 0 (l ++ q) x bs0 Hp Ep) as (e & Hs & He & Hsa & Hns).
  rewrite dequeue_blocks_S, Hs, block_end_spec, <- HE, ret_bind, He, ret_bind by lia.
  set (m1 := assigned throws n). pose proof (assigned_le throws n : (m1 <= n)%nat) as Hm1.
  destruct (move_block h p hd l q x bs0 n throws Hp ltac:(lia) ltac:(lia)) as (h1 & E1 & Hp1 & S1).
  fold m1 in E1, Hp1. replace (hd + Z.of_nat n) with (hd + E) in E1 by lia. rewrite E1.
  rewrite ret_bind. cbv beta iota. case_bool_decide as Hthrew.
  - assert (m = m1) as -> by (subst m m1; destruct throws; cbn in *; lia).
    rewrite bool_decide_true by lia. assert (length (drop m1 l) = length l - m1)%nat as Hd by apply length_drop.
    destruct (drop_blocks_spec (S fuel) h1 p hd (Z.of_nat m1) (drop m1 l) q (x :: bs0) Hp1 Ep) as (h2 & p2 & bs2 & E2 & S2 & Hp2); try lia.
    { intros Ed. rewrite Ed in Hd. cbn in Hd. lia. }
    { rewrite length_app in Ht. lia. }
    replace (Z.of_nat m1 + Z.of_nat (length (drop m1 l))) with (Z.of_nat (length l)) in * by lia.
    rewrite <- HE in E2. rewrite E2, ret_bind. cbv beta iota. eexists _, _, bs2. split; [done|]. split; [|done].
    destruct S2 as (? & ? & ? & ?). split; [by eapply stepped_trans|done].
  - assert (m1 = n) as Em1 by lia. rewrite Em1 in *.
    destruct (finish_block_spec h1 F p hd (Z.of_nat n) (drop n l ++ q) x bs0 top e Hp1) as (h2 & p2 & bs2 & E2 & S2 & Hp2);
      [lia|lia|by rewrite Ep|by eexists _, _|]. replace (Z.of_nat n) with E in * by lia. rewrite E2, ret_bind. cbv beta iota.
    assert (shrunk F h p (x :: bs0) h2 p2 bs2) as S12.
    { destruct S2 as (? & ? & ? & ?). split; [by eapply stepped_trans|done]. }
    replace (hd + Z.of_nat (length l)) with (hd + E + (Z.of_nat (length l) - E)) by lia.
    rewrite u64_eqb by lia. destruct (Z.eqb_spec (Z.of_nat (length l) - E) 0) as [E0|E0].
    + rewrite E0, Z.add_0_r. assert (drop n l = []) as Ed by (apply drop_ge; lia). rewrite Ed in Hp2.
      assert (n = length l) as En by lia. assert (m = length l) as -> by (subst m m1; rewrite En in Em1; done).
      rewrite bool_decide_false, En by lia. by eexists _, _, bs2.
    + destruct (part_next _ _ _ _ _ _ _ _ _ _ _ E Hp1 Hp2 ltac:(lia)) as (Epos & Em & Ed). rewrite Hns, Epos.
      assert (length (drop n l) = length l - n)%nat as Hd by apply length_drop.
      destruct (IH h2 p2 (hd + E) (drop n l) q bs2 ((fun t => t - n)%nat <$> throws)) as (h3 & p3 & bs3 & E3 & S3 & Hp3); try done.
      * destruct S12 as (_ & _ & -> & _). done.
      * intros En%app_nil. rewrite (proj1 En) in Hd. cbn in Hd. lia.
      * lia.
      * lia.
      * rewrite length_app in *. lia.
      * replace (Z.of_nat (length l) - E) with (Z.of_nat (length (drop n l))) by lia. rewrite E3, ret_bind. cbv beta iota.
        set (m3 := assigned _ (length (drop n l))) in *.
        assert (m = n + m3)%nat as -> by (subst m m1 m3; rewrite Hd; destruct throws; cbn in *; lia).
        eexists _, _, bs3. split; [|split; [by eapply shrunk_trans|done]].
        rewrite take_take_drop, (bool_decide_ext (m3 < length (drop n l))%nat (n + m3 < length l)%nat) by lia. done.
Qed.
End Loops.

(** ** [dequeue_bulk] *)

Lemma dequeue_bulk_spec throws h p q hd bs F max :
  own h F bs -> imp_rep h p q hd bs -> is_u64 max ->
  let n := Nat.min (length q) (Z.to_nat max) in
  let m := assigned throws n in
  exists h' p' bs', implicit_dequeue_bulk throws h p max = Ret (take m q, bool_decide (m < n)%nat, h', p') /\
    stepped F h h' bs' /\ imp_rep h' p' (drop n q) (hd + Z.of_nat n) bs' /\ blockIndex p' = blockIndex p.
Proof.
  intros Hown Hrep Hmax n m. pose proof Hrep as [Hbase Hcount Hfits Hnd Hblocks Htail Hidx]. unfold is_u64 in Hmax.
  pose proof (br_len _ _ _ Hbase) as Hlen. unfold implicit_dequeue_bulk.
  pose proof (claim_bulk_spec _ _ _ max Hbase Hmax) as Hclaim. destruct (Z.eqb_spec (Z.of_nat (length q)) 0) as [E0|E0].
  { rewrite Hclaim. assert (q = []) as -> by (apply length_zero_iff_nil; lia). cbn [length Nat.min] in *. subst n.
    assert (m = 0%nat) as -> by (pose proof (assigned_le throws 0 : (m <= 0)%nat); lia).
    exists h, p, bs. split; [by destruct p|]. split; [by apply stepped_refl|]. split; [|done]. by rewrite Z.add_0_r. }
  destruct Hclaim as (b' & -> & Hb' & Etb). replace (Z.min (Z.of_nat (length q)) max) with (Z.of_nat n) in * by lia.
  assert (hd / 32 + 1 <= (hd + Z.of_nat (length q) + 31) / 32) as Htop.
  { replace (hd / 32 + 1) with ((hd + 1 * 32) / 32) by (rewrite Z.div_add by lia; lia). apply Z.div_le_mono; lia. }
  destruct bs as [|x bs]; [cbn in Hcount; lia|].
  pose proof Hidx as Hidx0. unfold idx_rep in Hidx0. destruct (blockIndex p) as [|ix ixs] eqn:Ep; [done|]. destruct Hidx0 as [Hok _].
  destruct (index_lookup (set_base p b') ix ixs (hd / 32) (x :: bs) 0 x hd Ep Hok eq_refl ltac:(lia)) as (i & e & -> & Ei & _).
  cbn [mbind outcome_bind]. assert (i = pos ix (x :: bs)) as -> by (rewrite Ei; unfold pos; f_equal; lia).
  assert (length (take n q) = n) as Hn by (rewrite length_take; lia). rewrite u64_add_l, Nat2Z.id.
  destruct (dequeue_blocks_spec F ix ixs ((hd + Z.of_nat (length q) + 31) / 32) (S n) h (set_base p b') hd (take n q) (drop n q) (x :: bs) throws)
    as (h' & p' & bs' & E & (S & B & I & X) & Hp'); rewrite ?take_drop, ?Hn; try done; try lia.
  - apply blocks_rep_cells in Hblocks as [Hc Hn']. constructor; try done; rewrite Z.add_0_r; done.
  - intros ->. done.
  - pose proof (Z.div_mod (hd + Z.of_nat (length q) + 31) 32 ltac:(lia)). pose proof (Z.mod_pos_bound (hd + Z.of_nat (length q) + 31) 32 ltac:(lia)). lia.
  - rewrite Hn in E, Hp'. fold m in E. rewrite E. exists h', p', bs'. pose proof (assigned_le throws n : (m <= n)%nat).
    rewrite take_take, Nat.min_l by lia. split; [done|]. split; [done|]. split; [|by rewrite I].
    destruct Hp' as [_ Hnd' Hc' Hn' Hidx' Hlen']. rewrite Z.add_0_r in Hc'.
    assert (hd + Z.of_nat n + Z.of_nat (length (drop n q)) = hd + Z.of_nat (length q)) as Et by (rewrite length_drop; lia).
    constructor; rewrite ?B, ?Et; cbn [set_base imp_base]; try done.
    + by replace (Z.of_nat (length (drop n q))) with (Z.of_nat (length q) - Z.of_nat n) by (rewrite length_drop; lia).
    + lia.
    + by apply blocks_rep_cells.
    + intros Hne. rewrite Etb, Htail by done. destruct X as [pre ->].
      rewrite last_app. by destruct (proj2 (last_is_Some bs') Hne) as [y ->].
Qed.
End BulkSpec.
