(* ===== verification/BulkLoops.v ===== *)
(** * The loops of [enqueue_bulk] that construct and destroy elements

    Both kinds of producers fill their last block, if it has room, and the blocks
    they have taken; the blocks are linked.  [fill_spec]: all items are constructed,
    or a constructor throws and what was constructed is destroyed. *)
From S2P Require Import Prelude QueueDetails QueueBlock Producer ImplicitProducer ImplicitIndex ImplicitSpec ImplicitBulk BlockCells.
Arguments slots : simpl never.

Section Loops.
Context {T : Type}.
Implicit Types (h : Heap T) (q qq : list T).

(** ** The chain of blocks *)

Definition next_at h (x : nat) : option (option nat) := next <$> blocks h !! x.

(** Every block of the list points to the one after it. *)
Definition linked h (l : list nat) : Prop := forall k x y, l !! k = Some x -> l !! S k = Some y -> next_at h x = Some (Some y).

Lemma linked_same h h' l : (forall x, x ∈ l -> next_at h' x = next_at h x) -> linked h l -> linked h' l.
Proof. intros Hs Hl k x y Hk Hy. rewrite Hs; [by eapply Hl|by eapply list_elem_of_lookup_2]. Qed.

Lemma linked_tail h x l : linked h (x :: l) -> linked h l.
Proof. intros Hl k y z Hk Hz. by apply (Hl (S k)). Qed.

(** A block is linked behind the last one. *)
Lemma linked_snoc h l x : linked h l -> (forall y, last l = Some y -> next_at h y = Some (Some x)) -> linked h (l ++ [x]).
Proof.
  intros Hl Hx k y z Hk Hz. pose proof (lookup_lt_Some _ _ _ Hz) as Hlt. rewrite length_app in Hlt. cbn in Hlt.
  rewrite lookup_app_l in Hk by lia. destruct (decide (S k = length l)) as [E|E].
  - rewrite lookup_app_r, E, Nat.sub_diag in Hz by lia. injection Hz as <-. apply Hx. rewrite last_lookup. by rewrite <- E.
  - rewrite lookup_app_l in Hz by lia. by eapply Hl.
Qed.

Lemma next_at_shape h h' x : same_shape h h' -> next_at h' x = next_at h x.
Proof.
  intros Hs. specialize (Hs x). unfold next_at. destruct (blocks h !! x), (blocks h' !! x); cbn in *; try done. by injection Hs as [= ->].
Qed.

Lemma next_of_spec h x : is_Some (blocks h !! x) -> forall o, next_at h x = Some o -> next_of h (Some x) = Ret o.
Proof. intros [b Hb] o. unfold next_at, next_of, get_block. cbn. rewrite Hb. cbn. by intros [= ->]. Qed.

(** ** Constructing the items *)

(** The items before the first one whose constructor throws. *)
Fixpoint leading (items : list (option T)) : list T :=
  match items with Some v :: items => v :: leading items | _ => [] end.

Lemma leading_le items : (length (leading items) <= length items)%nat.
Proof. induction items as [|[v|] items IH]; cbn; lia. Qed.

Lemma leading_all items : length (leading items) = length items -> items = Some <$> leading items.
Proof. induction items as [|[v|] items IH]; cbn; intros E; [done| |done]. f_equal. apply IH. lia. Qed.

Lemma leading_none items : (length (leading items) < length items)%nat -> None ∈ items.
Proof. induction items as [|[v|] items IH]; cbn; intros E; [lia| |by left]. right. apply IH. lia. Qed.

Lemma leading_drop c items : (c <= length (leading items))%nat -> leading (drop c items) = drop c (leading items).
Proof.
  revert items. induction c as [|c IH]; intros items Hc; [done|]. destruct items as [|[v|] items]; cbn in *; [done| |lia]. apply IH. lia.
Qed.

Section Construct.
Context (F : gset nat) (first hd : Z) (bs : list nat) (Hnd : NoDup bs).

Lemma construct_range_spec n : forall fuel h qq k x items,
  let i := hd + Z.of_nat (length qq) in
  (n <= fuel)%nat -> own h F bs -> cells h first bs (queue_cells qq hd) -> bs !! k = Some x -> (n <> 0%nat -> i / 32 = first + Z.of_nat k) ->
  i mod 32 + Z.of_nat n <= 32 -> (n <= length items)%nat ->
  let c := Nat.min n (length (leading items)) in
  exists h', construct_range fuel h (Some x) (u64 i) (u64 (i + Z.of_nat n)) items =
      Ret (u64 (i + Z.of_nat c), drop c items, bool_decide (c < n)%nat, h') /\
    changed F first bs h h' (queue_cells (qq ++ take c (leading items)) hd).
Proof.
  induction n as [|n IH]; intros fuel h qq k x items i Hf Hown Hc Hk Hi Hm Hl c; pose proof (Z.mod_pos_bound i 32 ltac:(lia)).
  { subst c. cbn [Nat.min drop take]. rewrite app_nil_r. exists h. rewrite Z.add_0_r.
    destruct fuel; cbn [construct_range]; rewrite Z.eqb_refl; (split; [done|by apply changed_refl]). }
  destruct fuel as [|fuel]; [lia|]. cbn [construct_range]. rewrite u64_eqb by lia. destruct (Z.eqb_spec (Z.of_nat (S n)) 0); [lia|].
  destruct items as [|[v|] items]; [cbn in Hl; lia| |].
  2:{ subst c. cbn. rewrite app_nil_r, Z.add_0_r. exists h. split; [done|by apply changed_refl]. }
  cbn [of_option]. rewrite ret_bind. specialize (Hi ltac:(done)).
  destruct (construct_object_spec F first bs k x Hnd Hk h _ i v Hown Hc Hi) as (h1 & -> & C1). rewrite ret_bind, u64_add_l.
  assert (changed F first bs h h1 (queue_cells (qq ++ [v]) hd)) as C1' by (eapply changed_ext; [|exact C1]; apply queue_cells_push).
  assert (hd + Z.of_nat (length (qq ++ [v])) = i + 1) as Ei by (rewrite length_app; cbn; lia).
  pose proof (Z.div_mod i 32 ltac:(lia)).
  destruct (IH fuel h1 (qq ++ [v]) k x items) as (h2 & E2 & C2); rewrite ?Ei; try done.
  - lia.
  - apply C1.
  - apply C1'.
  - intros Hn. apply same_block; [done|lia].
  - destruct (decide (n = 0%nat)) as [->|]; [pose proof (Z.mod_pos_bound (i + 1) 32 ltac:(lia)); lia|]. rewrite mod_next; lia.
  - cbn in Hl. lia.
  - rewrite Ei in E2. replace (i + Z.of_nat (S n)) with (i + 1 + Z.of_nat n) by lia. rewrite E2. exists h2.
    subst c. cbn [leading length Nat.min drop take]. split.
    + replace (i + Z.of_nat (S (n `min` length (leading items)))) with (i + 1 + Z.of_nat (n `min` length (leading items))) by lia.
      by rewrite (bool_decide_ext (n `min` length (leading items) < n)%nat (S (n `min` length (leading items)) < S n)%nat) by lia.
    + rewrite <- app_assoc in C2. by eapply changed_trans.
Qed.

(** The block of element [i] is the first of [lb]. *)
Definition from_block (i : Z) (lb : list nat) : Prop := forall k x, lb !! k = Some x -> exists k', bs !! k' = Some x /\ first + Z.of_nat k' = i / 32 + Z.of_nat k.

Lemma from_block_next i x lb n : from_block i (x :: lb) -> n = 32 - i mod 32 -> from_block (i + n) lb.
Proof.
  intros Hb -> k y Hk. destruct (Hb (S k) y Hk) as (k' & Hk' & E). exists k'. split; [done|]. rewrite E.
  pose proof (Z.div_mod i 32 ltac:(lia)). replace (i + (32 - i mod 32)) with ((i / 32 + 1) * 32) by lia. rewrite Z.div_mul by lia. lia.
Qed.

Lemma block_count i r : 0 < r -> 32 - i mod 32 < r -> let n := 32 - i mod 32 in
  (i + r - 1) / 32 - i / 32 = (i + n + (r - n) - 1) / 32 - (i + n) / 32 + 1 /\ (i + n) mod 32 = 0.
Proof.
  intros Hr Hn n. subst n. pose proof (Z.div_mod i 32 ltac:(lia)). replace (i + (32 - i mod 32)) with ((i / 32 + 1) * 32) by lia.
  rewrite Z.div_mul, Z_mod_mult by lia. split; [|done]. replace ((i / 32 + 1) * 32 + (r - (32 - i mod 32)) - 1) with (i + r - 1) by lia. lia.
Qed.

Lemma linked_next h x y lb : linked h (x :: y :: lb) -> next_of h (Some x) = Ret (Some y).
Proof.
  intros Hl. specialize (Hl 0%nat x y eq_refl eq_refl). unfold next_at in Hl. apply fmap_Some in Hl as (b & Hb & E).
  unfold next_of. cbn [of_option]. rewrite ret_bind, (get_block_Ret _ _ _ Hb), ret_bind. by rewrite <- E.
Qed.

Lemma construct_blocks_spec lb : forall fuel h qq items,
  let i := hd + Z.of_nat (length qq) in let r := Z.of_nat (length items) in
  (length lb <= fuel)%nat -> own h F bs -> cells h first bs (queue_cells qq hd) -> from_block i lb -> NoDup lb -> linked h lb -> lb <> [] ->
  Z.of_nat (length lb) = (i + r - 1) / 32 - i / 32 + 1 -> r < 9223372036854775808 ->
  let c := length (leading items) in
  exists h' last', construct_blocks fuel h (head lb) (last lb) (u64 i) (u64 (i + r)) items =
      Ret (u64 (i + Z.of_nat c), last', bool_decide (c < length items)%nat, h') /\
    changed F first bs h h' (queue_cells (qq ++ leading items) hd) /\
    last' = if bool_decide (c < length items)%nat then lb !! Z.to_nat ((i + Z.of_nat c) / 32 - i / 32) else last lb.
Proof.
  induction lb as [|x lb IH]; intros fuel h qq items i r Hf Hown Hc Hfrom Hndb Hl Hne Hcount Hr c; [done|].
  destruct fuel as [|fuel]; [cbn in Hf; lia|]. cbn [construct_blocks head]. pose proof (Z.div_mod i 32 ltac:(lia)). pose proof (Z.mod_pos_bound i 32 ltac:(lia)).
  rewrite block_end_spec by lia. remember (Z.min r (32 - i mod 32)) as n0 eqn:En0. remember (Z.to_nat n0) as n eqn:En.
  replace (i + n0) with (i + Z.of_nat n) by lia. destruct (Hfrom 0%nat x eq_refl) as (k & Hk & Ek).
  destruct (construct_range_spec n (Z.to_nat BLOCK_SIZE) h qq k x items) as (h1 & E1 & C1); try done.
  { unfold BLOCK_SIZE. lia. } { intros _. fold i. lia. } { fold i. lia. } { lia. }
  pose proof (leading_le items) as Hle. fold i in E1. fold c in Hle, E1, C1. rewrite E1, ret_bind. cbv beta iota. clear E1.
  case_bool_decide as Hthrew.
  - assert (n `min` c = c)%nat as Emin by lia. rewrite Emin in *. rewrite firstn_all2 in C1 by lia. eexists h1, _. split; [|split; [exact C1|]].
    + rewrite bool_decide_true by lia. done.
    + rewrite bool_decide_true by lia. replace ((i + Z.of_nat c) / 32 - i / 32) with 0; [done|].
      assert ((i + Z.of_nat c) / 32 = i / 32); [|lia]. symmetry. apply (Z.div_unique _ _ _ (i mod 32 + Z.of_nat c)); lia.
  - assert (n `min` c = n)%nat as Emin by lia. rewrite Emin in *. destruct lb as [|y lb].
    + cbn [last]. rewrite bool_decide_true by done. cbn [length] in Hcount.
      assert (n0 = r) as Er. { pose proof (Z.div_mod (i + r - 1) 32 ltac:(lia)). pose proof (Z.mod_pos_bound (i + r - 1) 32 ltac:(lia)). lia. }
      assert (n = length items) as El by lia. assert (c = length items) as Ecl by lia. replace (Z.of_nat n) with r by lia. rewrite Z.eqb_refl.
      rewrite bool_decide_false, Ecl by lia. eexists h1, _. split; [done|]. split; [|done]. rewrite firstn_all2 in C1 by lia. done.
    + assert (32 - i mod 32 < r) as Hmore.
      { cbn [length] in Hcount. pose proof (Z.div_mod (i + r - 1) 32 ltac:(lia)). pose proof (Z.mod_pos_bound (i + r - 1) 32 ltac:(lia)). lia. }
      rewrite bool_decide_false.
      2:{ intros E. apply NoDup_cons in Hndb as [Hx _]. apply Hx. apply last_Some_elem_of. rewrite E. done. }
      assert (linked h1 (x :: y :: lb)) as Hl1 by (eapply linked_same; [|exact Hl]; intros z _; apply next_at_shape, C1).
      rewrite (linked_next _ _ _ _ Hl1), ret_bind.
      destruct (block_count i r ltac:(lia) Hmore) as [Hbc Hal]. assert (length (take n (leading items)) = n) as Htk by (rewrite length_take; fold c; lia).
      assert (hd + Z.of_nat (length (qq ++ take n (leading items))) = i + Z.of_nat n) as Ei by (rewrite length_app, Htk; lia).
      destruct (IH fuel h1 (qq ++ take n (leading items)) (drop n items)) as (h2 & l2 & E2 & C2 & Hl2); rewrite ?Ei, ?length_drop; try done.
      * cbn in Hf |- *. lia.
      * apply C1.
      * apply C1.
      * eapply from_block_next; [exact Hfrom|lia].
      * by apply (NoDup_cons x) in Hndb as [_ ?].
      * by eapply linked_tail.
      * cbn [length] in *. replace (Z.of_nat n) with (32 - i mod 32) by lia. replace (Z.of_nat (length items - n)) with (r - (32 - i mod 32)) by lia. lia.
      * lia.
      * rewrite Ei, length_drop, leading_drop, length_drop in E2, Hl2 by (fold c; lia). rewrite leading_drop in C2 by (fold c; lia). fold c in E2, Hl2.
        replace (i + Z.of_nat n + Z.of_nat (length items - n)) with (i + r) in E2 by lia.
        replace (i + Z.of_nat n + Z.of_nat (c - n)) with (i + Z.of_nat c) in * by lia.
        rewrite (bool_decide_ext (c - n < length items - n)%nat (c < length items)%nat) in * by lia.
        exists h2, l2. split; [exact E2|]. rewrite <- app_assoc, take_drop in C2. split; [by eapply changed_trans|].
        rewrite Hl2. case_bool_decide; [|done].
        assert ((i + Z.of_nat n) / 32 = i / 32 + 1) as Ed.
        { replace (i + Z.of_nat n) with ((i / 32 + 1) * 32) by lia. by rewrite Z.div_mul. }
        assert ((i + Z.of_nat n) / 32 <= (i + Z.of_nat c) / 32) by (apply Z.div_le_mono; lia).
        replace (Z.to_nat ((i + Z.of_nat c) / 32 - i / 32)) with (S (Z.to_nat ((i + Z.of_nat c) / 32 - (i + Z.of_nat n) / 32))) by lia. done.
Qed.

(** The handler: what was constructed from [i] on is destroyed. *)
Lemma destroy_blocks_spec lb : forall fuel h f i c z,
  (length lb <= fuel)%nat -> own h F bs -> cells h first bs f -> from_block i lb -> NoDup lb -> linked h lb ->
  0 <= c < 9223372036854775808 -> lb !! Z.to_nat ((i + c) / 32 - i / 32) = Some z -> (forall y, i <= y < i + c -> is_Some (f y)) ->
  exists h', destroy_blocks fuel h (head lb) (Some z) (u64 i) (u64 (i + c)) = Ret h' /\ changed F first bs h h' (clear f i c).
Proof.
  induction lb as [|x lb IH]; intros fuel h f i c z Hf Hown Hc Hfrom Hndb Hl Hcb Hz Hs; [done|].
  destruct fuel as [|fuel]; [cbn in Hf; lia|]. cbn [destroy_blocks head]. pose proof (Z.div_mod i 32 ltac:(lia)). pose proof (Z.mod_pos_bound i 32 ltac:(lia)).
  rewrite block_end_spec by lia. remember (Z.min c (32 - i mod 32)) as n0 eqn:En0. remember (Z.to_nat n0) as n eqn:En.
  replace (i + n0) with (i + Z.of_nat n) by lia. destruct (Hfrom 0%nat x eq_refl) as (k & Hk & Ek).
  destruct (destroy_range_spec F first bs k x Hnd Hk n (Z.to_nat BLOCK_SIZE) h f i) as (h1 & -> & C1); try done.
  { unfold BLOCK_SIZE. lia. } { intros _. lia. } { lia. } { intros y Hy. apply Hs. lia. }
  rewrite ret_bind. cbv beta. destruct (Z.lt_ge_cases c (32 - i mod 32)) as [Hin|Hout].
  - assert ((i + c) / 32 = i / 32) as Ed by (symmetry; apply (Z.div_unique _ _ _ (i mod 32 + c)); lia).
    rewrite Ed, Z.sub_diag in Hz. injection Hz as <-. rewrite bool_decide_true by done. exists h1. split; [done|]. by replace c with (Z.of_nat n) by lia.
  - assert ((i + Z.of_nat n) / 32 = i / 32 + 1) as Ed.
    { replace (i + Z.of_nat n) with ((i / 32 + 1) * 32) by lia. by rewrite Z.div_mul. }
    assert ((i + Z.of_nat n) / 32 <= (i + c) / 32) by (apply Z.div_le_mono; lia).
    replace (Z.to_nat ((i + c) / 32 - i / 32)) with (S (Z.to_nat ((i + c) / 32 - (i + Z.of_nat n) / 32))) in Hz by lia. cbn in Hz.
    destruct lb as [|y lb]; [done|]. rewrite bool_decide_false.
    2:{ intros [= ->]. apply NoDup_cons in Hndb as [Hx _]. apply Hx. by eapply list_elem_of_lookup_2. }
    assert (linked h1 (x :: y :: lb)) as Hl1 by (eapply linked_same; [|exact Hl]; intros w _; apply next_at_shape, C1).
    rewrite (linked_next _ _ _ _ Hl1), ret_bind.
    destruct (IH fuel h1 (clear f i (Z.of_nat n)) (i + Z.of_nat n) (c - Z.of_nat n) z) as (h2 & E2 & C2); try done.
    + cbn in Hf |- *. lia.
    + apply C1.
    + apply C1.
    + eapply from_block_next; [exact Hfrom|lia].
    + by apply (NoDup_cons x) in Hndb as [_ ?].
    + by eapply linked_tail.
    + lia.
    + by replace (i + Z.of_nat n + (c - Z.of_nat n)) with (i + c) by lia.
    + intros w Hw. unfold clear. zbool; cbn; try lia; apply Hs; lia.
    + replace (i + Z.of_nat n + (c - Z.of_nat n)) with (i + c) in E2 by lia. exists h2. split; [done|].
      eapply changed_ext; [|by eapply changed_trans]. intros w. unfold clear. zbool; cbn; try done; lia.
Qed.
End Construct.

(** ** The chain that is filled *)

(** The last block when it is not full. *)
Definition lead_ok (startBlock : option nat) (t : Z) (bs lead : list nat) : Prop :=
  if t mod 32 =? 0 then lead = [] else exists x, lead = [x] /\ last bs = Some x /\ startBlock = Some x.

Section Chain.
Context (startBlock : option nat) (first hd : Z) (q : list T) (bs lead news : list nat) (r : Z).
Let t := hd + Z.of_nat (length q).
Context (Hlen : first + Z.of_nat (length bs) = (t + 31) / 32).
Context (Hlead : lead_ok startBlock t bs lead).

Lemma lead_elem x : x ∈ lead -> x ∈ bs.
Proof.
  intros Hx. unfold lead_ok in Hlead. destruct (t mod 32 =? 0); [subst; by apply elem_of_nil in Hx|]. destruct Hlead as (y & -> & Hy & _).
  apply list_elem_of_singleton in Hx as ->. by apply last_Some_elem_of.
Qed.

Lemma lead_first : (t + 31) / 32 - Z.of_nat (length lead) = t / 32 /\ (t - 1) / 32 = (t + 31) / 32 - 1.
Proof.
  pose proof (Z.div_mod t 32 ltac:(lia)). pose proof (Z.mod_pos_bound t 32 ltac:(lia)). split.
  - unfold lead_ok in Hlead. destruct (Z.eqb_spec (t mod 32) 0).
    + rewrite Hlead. cbn. rewrite Z.sub_0_r. symmetry. apply (Z.div_unique _ _ _ 31); lia.
    + destruct Hlead as (x & -> & _). cbn. assert (t / 32 + 1 = (t + 31) / 32); [|lia]. apply (Z.div_unique _ _ _ (t mod 32 - 1)); lia.
  - replace (t + 31) with (t - 1 + 1 * 32) by lia. rewrite Z.div_add by lia. lia.
Qed.

Lemma lead_lookup k : (k < length lead)%nat -> lead !! k = bs !! (length bs - length lead + k)%nat.
Proof.
  intros Hk. unfold lead_ok in Hlead. destruct (t mod 32 =? 0); [rewrite Hlead in Hk; cbn in Hk; lia|].
  destruct Hlead as (x & -> & Hx & _). cbn in Hk. assert (k = 0%nat) as -> by lia. cbn. rewrite <- Hx, last_lookup. f_equal. lia.
Qed.

Lemma lead_short : (length lead <= length bs)%nat.
Proof.
  unfold lead_ok in Hlead. destruct (t mod 32 =? 0); [rewrite Hlead; cbn; lia|]. destruct Hlead as (x & -> & Hx & _). destruct bs; [done|cbn; lia].
Qed.

Lemma chain_from : from_block first (bs ++ news) t (lead ++ news).
Proof.
  intros k x Hk. pose proof lead_short. destruct lead_first as [E _]. exists (length bs - length lead + k)%nat. split; [|lia].
  destruct (decide (k < length lead)%nat) as [Hlt|Hge].
  - rewrite lookup_app_l in Hk by done. rewrite lead_lookup in Hk by done. by apply lookup_app_l_Some.
  - rewrite lookup_app_r in Hk by lia. rewrite lookup_app_r by lia. rewrite <- Hk. f_equal. lia.
Qed.

Lemma chain_nodup : NoDup (bs ++ news) -> NoDup (lead ++ news).
Proof.
  intros (H1 & H2 & H3)%NoDup_app. apply NoDup_app. pose proof lead_elem as He. split; [|split; [|done]].
  - unfold lead_ok in Hlead. destruct (t mod 32 =? 0); [rewrite Hlead; constructor|]. destruct Hlead as (x & -> & _). apply NoDup_singleton.
  - intros x Hx. apply H2. by apply He.
Qed.

Lemma chain_count : 0 <= r -> Z.of_nat (length news) = (t + r - 1) / 32 - (t - 1) / 32 -> Z.of_nat (length (lead ++ news)) = (t + r - 1) / 32 - t / 32 + 1.
Proof. intros Hr Hn. destruct lead_first as [E1 E2]. rewrite length_app. lia. Qed.

Lemma lead_le : (length lead <= 1)%nat.
Proof. unfold lead_ok in Hlead. destruct (t mod 32 =? 0); [rewrite Hlead; cbn; lia|]. by destruct Hlead as (x & -> & _). Qed.
End Chain.

Lemma block_start_minus t k : block_start ((u64 t +w k) -w 1) = u64 (32 * ((t + k - 1) / 32)).
Proof. by rewrite u64_add_l, u64_sub_l, block_start_u64. Qed.

Lemma is_null_head {A} (l : list A) : is_null (head l) = true <-> l = [].
Proof. by destruct l. Qed.

(** The number of blocks that [k] more elements need. *)
Lemma bulk_blocks t k : 0 <= k < 9223372036854775808 ->
  exists n : nat, Z.of_nat n = (t + k - 1) / 32 - (t - 1) / 32 /\ Z.of_nat n < 576460752303423488 /\
    block_start ((u64 t +w k) -w 1) -w block_start (u64 t -w 1) = 32 * Z.of_nat n /\ Z.to_nat (32 * Z.of_nat n / BLOCK_SIZE) = n /\
    block_start (u64 t -w 1) = u64 (32 * ((t + 31) / 32 - 1)).
Proof.
  intros Hk. assert ((t - 1) / 32 <= (t + k - 1) / 32) by (apply Z.div_le_mono; lia).
  pose proof (Z.div_mod (t + k - 1) 32 ltac:(lia)). pose proof (Z.mod_pos_bound (t + k - 1) 32 ltac:(lia)).
  pose proof (Z.div_mod (t - 1) 32 ltac:(lia)). pose proof (Z.mod_pos_bound (t - 1) 32 ltac:(lia)).
  assert ((t - 1) / 32 = (t + 31) / 32 - 1) as E by (replace (t + 31) with (t - 1 + 1 * 32) by lia; rewrite Z.div_add by lia; lia).
  exists (Z.to_nat ((t + k - 1) / 32 - (t - 1) / 32)). rewrite Z2Nat.id by lia. split; [done|]. split; [lia|].
  rewrite block_start_minus, (u64_sub_l t), block_start_u64, u64_sub_l, u64_sub_r. split; [rewrite u64_small; [lia|unfold is_u64, UINT64_MOD; lia]|].
  split; [|by rewrite <- E]. unfold BLOCK_SIZE. by rewrite Z.mul_comm, Z.div_mul.
Qed.

(** No items and no block to fill. *)
Lemma fill_nothing fuel h startBlock i :
  (Z.land (u64 i) (BLOCK_SIZE - 1) =? 0) = true -> fill (S fuel) h startBlock None startBlock (u64 i) [] = Ret (false, startBlock, h).
Proof.
  intros Hal. unfold fill. rewrite Hal. cbn [length Z.of_nat Z.eqb negb andb is_null]. rewrite u64_add_l, Z.add_0_r. cbn [construct_blocks].
  assert (block_end (u64 i) (u64 i) = u64 i) as ->.
  { pose proof (block_end_spec i 0 ltac:(lia)) as E. pose proof (Z.mod_pos_bound i 32 ltac:(lia)). rewrite Z.min_l, Z.add_0_r in E by lia. done. }
  rewrite Z.eqb_refl. cbn [negb].
  destruct (Z.to_nat BLOCK_SIZE); cbn [construct_range]; rewrite Z.eqb_refl, ret_bind; cbv beta iota; by rewrite bool_decide_true, Z.eqb_refl by done.
Qed.

Lemma fill_spec F startBlock first hd q bs lead news h endBlock items fuel :
  let t := hd + Z.of_nat (length q) in
  first + Z.of_nat (length bs) = (t + 31) / 32 -> lead_ok startBlock t bs lead ->
  own h F (bs ++ news) -> NoDup (bs ++ news) -> cells h first (bs ++ news) (queue_cells q hd) -> linked h (lead ++ news) ->
  endBlock = match last (lead ++ news) with None => startBlock | o => o end ->
  Z.of_nat (length items) < 9223372036854775808 ->
  Z.of_nat (length news) = (t + Z.of_nat (length items) - 1) / 32 - (t - 1) / 32 -> (length news <= fuel)%nat ->
  exists threw block h', fill (S fuel) h startBlock (head news) endBlock (u64 t) items = Ret (threw, block, h') /\
    if (threw : bool) then None ∈ items /\ changed F first (bs ++ news) h h' (queue_cells q hd)
    else block = endBlock /\ exists vs, items = Some <$> vs /\ changed F first (bs ++ news) h h' (queue_cells (q ++ vs) hd).
Proof.
  intros t Hlen Hlead Hown Hnd Hc Hl Hend Hi Hn Hf.
  destruct (lead_first startBlock hd q bs lead Hlead) as [_ E2]. fold t in E2.
  pose proof (chain_count startBlock hd q bs lead news (Z.of_nat (length items)) Hlead ltac:(lia) Hn) as Hcount. fold t in Hcount.
  assert ((Z.land (u64 t) (BLOCK_SIZE - 1) =? 0) = (t mod 32 =? 0)) as Eal by (by rewrite land_31, u64_mod_32).
  pose proof (Z.div_mod t 32 ltac:(lia)). pose proof (Z.mod_pos_bound t 32 ltac:(lia)).
  destruct (decide (lead ++ news = [])) as [Enil|Hne].
  { apply app_nil in Enil as [-> ->]. cbn [app last] in Hend. subst endBlock.
    assert (t mod 32 = 0) as Hal by (unfold lead_ok in Hlead; destruct (Z.eqb_spec (t mod 32) 0); [done|]; by destruct Hlead as (? & ? & _)).
    assert (items = []) as ->.
    { apply length_zero_iff_nil. cbn in Hcount. pose proof (Z.div_mod (t + Z.of_nat (length items) - 1) 32 ltac:(lia)).
      pose proof (Z.mod_pos_bound (t + Z.of_nat (length items) - 1) 32 ltac:(lia)). lia. }
    exists false, startBlock, h. split; [apply fill_nothing; rewrite Eal, Hal; done|]. split; [done|]. exists []. split; [done|].
    rewrite (app_nil_r q). by apply changed_refl. }
  assert (endBlock = last (lead ++ news)) as -> by (destruct (proj2 (last_is_Some _) Hne) as [y Hy]; by rewrite Hy in *).
  pose proof (lead_le startBlock hd q bs lead Hlead). pose proof (chain_from startBlock first hd q bs lead news Hlen Hlead) as Hfrom. fold t in Hfrom.
  pose proof (chain_nodup startBlock hd q bs lead news Hlead Hnd) as Hndc.
  unfold fill. rewrite Eal.
  assert ((t mod 32 =? 0) && is_null (head news) = false /\
    (if (t mod 32 =? 0) && negb (is_null (head news)) then head news else startBlock) = head (lead ++ news) /\
    (if t mod 32 =? 0 then head news else startBlock) = head (lead ++ news)) as (Efirst & Ebl & Ebl2).
  { unfold lead_ok in Hlead. destruct (t mod 32 =? 0); [|by destruct Hlead as (x & -> & _ & ->)]. rewrite Hlead in *. by destruct news. }
  rewrite Efirst. cbn [andb]. cbv zeta. rewrite Ebl, Ebl2, u64_add_l. pose proof (leading_le items).
  destruct (construct_blocks_spec F first hd (bs ++ news) Hnd (lead ++ news) (S fuel) h q items) as (h' & l' & E & C & El); try done.
  { rewrite length_app. lia. }
  fold t in E, El. rewrite E, ret_bind. cbv beta iota. remember (length (leading items)) as c eqn:Ec. case_bool_decide as Hthrew.
  - destruct (lookup_lt_is_Some_2 (lead ++ news) (Z.to_nat ((t + Z.of_nat c) / 32 - t / 32))) as [z Hz].
    { assert (t / 32 <= (t + Z.of_nat c) / 32 <= (t + Z.of_nat (length items) - 1) / 32) by (split; apply Z.div_le_mono; lia). lia. }
    rewrite El, Hz. destruct (destroy_blocks_spec F first (bs ++ news) Hnd (lead ++ news) (S fuel) h' (queue_cells (q ++ leading items) hd) t
      (Z.of_nat c) z) as (h2 & -> & C2); try done.
    + rewrite length_app. lia.
    + apply C.
    + apply C.
    + eapply linked_same; [|exact Hl]. intros x _. apply next_at_shape, C.
    + lia.
    + intros y Hy. unfold queue_cells. rewrite zget_app_r by lia. apply zget_in. lia.
    + rewrite ret_bind. eexists true, _, h2. split; [done|]. split; [apply leading_none; lia|].
      eapply changed_trans; [exact C|]. eapply changed_ext; [|exact C2]. intros y. rewrite Ec. apply queue_cells_undo.
  - eexists false, l', h'. split; [done|]. split; [done|]. exists (leading items). split; [apply leading_all; lia|done].
Qed.
End Loops.
