(* ===== verification/ImplicitBulkEnqueue.v ===== *)
(** * [enqueue_bulk] of the implicit producer against the queue

    [implicit_enqueue_bulk] appends all its items or none: [grown_rep] describes the
    blocks that were taken ahead and [revert_spec] gives them back. *)
From S2P Require Import Prelude QueueDetails QueueBlock Producer ImplicitProducer ImplicitIndex ImplicitSpec ImplicitBulk BlockCells ImplicitBulkSpec BulkLoops.
Arguments slots : simpl never.

Section BulkEnqueue.
Context {T : Type}.
Implicit Types (h : Heap T) (p : ImplicitProducer) (q qq : list T).

(** ** Taking blocks ahead *)

Lemma blocks_rep_write h hd q bs x b b' :
  blocks_rep h hd q bs -> blocks h !! x = Some b -> elements b' = elements b ->
  elementsCompletelyDequeued b' = elementsCompletelyDequeued b -> blocks_rep (put_block h x b') hd q bs.
Proof.
  intros Hr Hb He Hc k y Hk. rewrite put_block_lookup. destruct (Hr k y Hk) as (c & Hc' & [H1 H2]).
  case_decide; [|by exists c]. subst y. rewrite Hb in Hc'. injection Hc' as <-. exists b'. split; [done|]. constructor; congruence.
Qed.

Lemma take_ahead canAlloc garbage h F l hd q :
  own h F l -> NoDup l -> blocks_rep h hd q l -> hd + Z.of_nat (length q) <= 32 * (hd / 32 + Z.of_nat (length l)) ->
  exists o h', requisition_block canAlloc garbage h = Ret (o, h') /\
    (canAlloc = CanAlloc -> mem_ok h -> is_Some o) /\
    match o with
    | None => stepped F h h' l /\ same_blocks (list_to_set l) h h'
    | Some x => exists b, get_block h' x = Ret b /\ (x ∉ l) /\
        let h1 := put_block h' x (set_next (reset_empty implicit_context b) None) in
        stepped F h h1 (l ++ [x]) /\ blocks_rep h1 hd q (l ++ [x]) /\ same_blocks (list_to_set l) h h1 /\ next_at h1 x = Some None
    end.
Proof.
  intros [Hi Hd] Hnd Hb Hfar.
  destruct (requisition_block_spec canAlloc garbage h _ Hi) as (o & h' & E & (Hs & Hm & Ho) & Hc).
  exists o, h'. split; [done|]. split; [done|].
  assert (same_blocks F h h') as HsF by (eapply same_blocks_mono; [|exact Hs]; set_solver).
  assert (same_blocks (list_to_set l) h h') as Hsb by (eapply same_blocks_mono; [|exact Hs]; set_solver).
  destruct o as [x|]; [|split; [by split; [|split]|done]].
  destruct Ho as (Hx & Hi' & b & Hb' & Hw). exists b. split; [by apply get_block_Ret|].
  assert (x ∉ l) as Hxb by (intros Hin; apply Hx, elem_of_union_r, elem_of_list_to_set, Hin).
  split; [done|]. assert (own h' F (l ++ [x])) as Hown by (by apply own_push).
  assert ((l ++ [x]) !! length l = Some x) as Hk by (by apply list_lookup_middle).
  intros h1. assert (same_blocks (list_to_set l) h h1) as Hsl.
  { intros y Hy. subst h1. rewrite put_block_lookup, decide_False; [by apply Hsb|]. intros ->. by apply elem_of_list_to_set in Hy. }
  split; [|split; [|split; [done|]]].
  - eapply stepped_trans; [by split; [exact Hown|split]|].
    eapply own_write; [done|by eapply list_elem_of_lookup_2|exact (own_refs _ _ _ _ _ _ Hown Hk Hb')|by apply raw_length|exact Hb'|done].
  - intros k y Hy. apply lookup_app_Some in Hy as [Hy|[Hge Hy]].
    + by apply (blocks_rep_same _ _ _ _ _ Hsl Hb).
    + apply list_lookup_singleton_Some in Hy as [Hk0 <-]. assert (k = length l) as -> by lia. subst h1.
      rewrite put_block_lookup, decide_True by done. eexists. split; [done|]. constructor; cbn; [lia|]. rewrite Hw. symmetry.
      apply slots_none. intros i Hi0. apply zget_out. lia.
  - subst h1. unfold next_at. rewrite put_block_lookup, decide_True by done. done.
Qed.

(** The producer has taken the blocks [news] behind its blocks [bs]; [lead] is its
    last block when that is not full. *)
Record grown_rep h (F : gset nat) (b0 : ProducerBase) p (hd : Z) q (bs lead news : list nat) : Prop := mk_grown {
  gr_own : own h F (bs ++ news);
  gr_nodup : NoDup (bs ++ news);
  gr_blocks : blocks_rep h hd q (bs ++ news);
  gr_index : idx_rep p (hd / 32) (bs ++ news);
  gr_base : imp_base p = set_tailBlock b0 (match last news with None => tailBlock b0 | o => o end);
  gr_linked : linked h (lead ++ news);
  gr_end : forall x, last news = Some x -> next_at h x = Some None }.

Lemma set_tailBlock_same b : set_tailBlock b (tailBlock b) = b.
Proof. by destruct b. Qed.

Lemma same_next l h h' x : same_blocks (list_to_set l) h h' -> x ∈ l -> next_at h' x = next_at h x.
Proof. intros Hs Hx. unfold next_at. by rewrite Hs by (by apply elem_of_list_to_set). Qed.

Section Grow.
Context (F : gset nat) (b0 : ProducerBase) (hd : Z) (q : list T) (bs lead : list nat).
Let t := hd + Z.of_nat (length q).
Context (Hbase : base_rep b0 hd (Z.of_nat (length q))).
Context (Hlen : Z.of_nat (length bs) = (t + 31) / 32 - hd / 32).
Context (Hlead : lead_ok (tailBlock b0) t bs lead).

Lemma lead_tail p h news : grown_rep h F b0 p hd q bs lead news -> lead ++ news <> [] -> tailBlock (imp_base p) = last (lead ++ news).
Proof.
  intros Hg Hne. rewrite (gr_base _ _ _ _ _ _ _ _ _ Hg), last_app. cbn. destruct (last news) as [y|] eqn:E; [done|].
  apply last_None in E as ->. rewrite app_nil_r in Hne. unfold lead_ok in Hlead. destruct (t mod 32 =? 0); [done|]. by destruct Hlead as (y & -> & _ & ->).
Qed.

Lemma lead_nonempty news : negb (Z.land (u64 t) (BLOCK_SIZE - 1) =? 0) || negb (is_null (head news)) = false <-> lead ++ news = [].
Proof.
  rewrite land_31, u64_mod_32. unfold lead_ok in Hlead. destruct (t mod 32 =? 0); cbn [negb orb].
  - subst lead. destruct news; cbn; split; done.
  - destruct Hlead as (y & -> & _). split; done.
Qed.

(** The new block [x] is linked behind the last one. *)
Lemma grow_link h h1 p news x o :
  grown_rep h F b0 p hd q bs lead news -> own h1 F ((bs ++ news) ++ [x]) -> blocks_rep h1 hd q ((bs ++ news) ++ [x]) ->
  same_blocks (list_to_set (bs ++ news)) h h1 -> (x ∉ bs ++ news) -> next_at h1 x = Some None -> o = tailBlock (imp_base p) ->
  exists h2, (if negb (Z.land (u64 t) (BLOCK_SIZE - 1) =? 0) || negb (is_null (head news)) then link_block h1 o x else Ret h1) = Ret h2 /\
    stepped F h1 h2 ((bs ++ news) ++ [x]) /\ blocks_rep h2 hd q ((bs ++ news) ++ [x]) /\
    linked h2 (lead ++ (news ++ [x])) /\ next_at h2 x = Some None.
Proof.
  intros Hg Ho Hr Hs Hx Hn ->. pose proof (lead_nonempty news) as Hcond. rewrite app_assoc.
  assert (forall y, y ∈ lead ++ news -> y ∈ bs ++ news) as Hin by (intros y; rewrite !elem_of_app; pose proof (lead_elem (tailBlock b0) hd q bs lead Hlead y); tauto).
  destruct (_ || _) eqn:Ec.
  - assert (lead ++ news <> []) as Hne by (intros E; by apply Hcond in E). rewrite (lead_tail p h news Hg Hne).
    destruct (proj2 (last_is_Some _) Hne) as [y Hy]. rewrite Hy. unfold link_block. cbn [of_option mbind outcome_bind].
    assert (y ∈ bs ++ news) as Hyb by (apply Hin; by apply last_Some_elem_of).
    destruct (list_elem_of_lookup_1 _ _ Hyb) as [k Hk].
    assert (((bs ++ news) ++ [x]) !! k = Some y) as Hk' by (by apply lookup_app_l_Some).
    destruct (Hr k y Hk') as (b & Hb & Hrep). rewrite (get_block_Ret _ _ _ Hb). cbn [mbind outcome_bind]. eexists. split; [done|].
    assert (y <> x) as Hyx by congruence. split; [|split; [|split]].
    + eapply own_write; [done|by eapply list_elem_of_lookup_2|exact (own_refs _ _ _ _ _ _ Ho Hk' Hb)| |exact Hb|done]. cbn. by eapply bk_length.
    + by eapply blocks_rep_write.
    + apply linked_snoc.
      * intros k' a c Ha Hc'. unfold next_at. rewrite put_block_lookup.
        pose proof (gr_linked _ _ _ _ _ _ _ _ _ Hg k' a c Ha Hc') as Hl. case_decide as Hya.
        -- subst a. exfalso. pose proof (chain_nodup (tailBlock b0) hd q bs lead news Hlead (gr_nodup _ _ _ _ _ _ _ _ _ Hg)) as Hnd.
           rewrite last_lookup in Hy. pose proof (NoDup_lookup _ _ _ _ Hnd Ha Hy). apply lookup_lt_Some in Hc'. lia.
        -- unfold next_at in Hl. rewrite <- Hl. f_equal. apply Hs, elem_of_list_to_set, Hin. by eapply list_elem_of_lookup_2.
      * intros z Hz. assert (z = y) as -> by congruence. unfold next_at. by rewrite put_block_lookup, decide_True.
    + unfold next_at in *. by rewrite put_block_lookup, decide_False.
  - exists h1. split; [done|]. split; [by apply stepped_refl|]. split; [done|]. split; [|done].
    rewrite (proj1 Hcond eq_refl). intros k y z Hk Hz. destruct k; done.
Qed.

(** One more block, or the reason why there is none. *)
Lemma grow_step allocMode garbage h p news :
  grown_rep h F b0 p hd q bs lead news ->
  let j := (t + 31) / 32 + Z.of_nat (length news) in
  32 * (j + 1) - hd < 9223372036854775808 ->
  exists o h1 p1, insert_block_index_entry allocMode h p (u64 (32 * j)) = Ret (o, h1, p1) /\ (blockIndex p <> [] -> blockIndex p1 <> []) /\
    match o with
    | None => grown_rep h1 F b0 p1 hd q bs lead news /\ (blockIndex p = [] \/ allocMode = CannotAlloc \/ ~ mem_ok h) /\ stepped F h h1 (bs ++ news)
    | Some e => exists o h2, requisition_block allocMode garbage h1 = Ret (o, h2) /\
        match o with
        | None => exists p2, rewind_block_index_tail p1 = Ret p2 /\ (blockIndex p1 <> [] -> blockIndex p2 <> []) /\
            grown_rep h2 F b0 (store_value p2 e None) hd q bs lead news /\ (allocMode = CannotAlloc \/ ~ mem_ok h) /\ stepped F h h2 (bs ++ news)
        | Some x => exists b h3, get_block h2 x = Ret b /\
            let p2 := store_value p1 e (Some x) in
            (if negb (Z.land (u64 t) (BLOCK_SIZE - 1) =? 0) || negb (is_null (head news))
             then link_block (put_block h2 x (set_next (reset_empty implicit_context b) None)) (tailBlock (imp_base p2)) x
             else Ret (put_block h2 x (set_next (reset_empty implicit_context b) None))) = Ret h3 /\
            grown_rep h3 F b0 (set_base p2 (set_tailBlock (imp_base p2) (Some x))) hd q bs lead (news ++ [x]) /\ stepped F h h3 (bs ++ (news ++ [x]))
        end
    end.
Proof.
  intros Hg j Hfits. pose proof Hg as [Hown Hnd Hb Hidx Hbs Hl He]. pose proof (br_len _ _ _ Hbase) as Hq.
  pose proof (Z.div_mod (t + 31) 32 ltac:(lia)). pose proof (Z.mod_pos_bound (t + 31) 32 ltac:(lia)).
  pose proof (Z.div_mod hd 32 ltac:(lia)). pose proof (Z.mod_pos_bound hd 32 ltac:(lia)).
  assert (hd / 32 + Z.of_nat (length (bs ++ news)) = j) as Ej by (rewrite length_app; subst j; lia).
  change (u64 (32 * j)) with (key_of j). rewrite <- Ej.
  destruct (insert_spec allocMode h p (hd / 32) (bs ++ news) Hidx ltac:(lia)) as (o & h1 & p1 & E1 & Hm & Eb & Hne & Ho).
  exists o, h1, p1. split; [done|]. split; [done|]. pose proof (stepped_mem_only F h h1 _ Hown Hm) as S1.
  pose proof (mem_only_blocks _ _ Hm) as [Ebl _].
  assert (forall x, next_at h1 x = next_at h x) as Hnx by (intros x; unfold next_at; by rewrite Ebl).
  assert (blocks_rep h1 hd q (bs ++ news)) as Hb1 by (intros k x Hk; rewrite Ebl; by apply Hb).
  assert (forall p', imp_base p' = imp_base p1 -> idx_rep p' (hd / 32) (bs ++ news) -> grown_rep h1 F b0 p' hd q bs lead news) as Hg1.
  { intros p' Ep' Hi'. constructor; try done; [apply S1|congruence|eapply linked_same; [|exact Hl]; auto|]. intros x Hx. rewrite Hnx. auto. }
  destruct o as [e|].
  2:{ destruct Ho as [Hi Hwhy]. split; [by apply Hg1|]. split; [tauto|done]. }
  destruct Ho as [Hpush (p2 & E2 & Eb2 & Hi2)].
  destruct (take_ahead allocMode garbage h1 F (bs ++ news) hd q (proj1 S1) Hnd Hb1) as (o & h2 & E3 & Hmem & Ho); [lia|].
  exists o, h2. split; [done|]. destruct o as [x|].
  - destruct Ho as (b & Hget & Hx & S2 & Hb2 & Hs2 & Hn2). exists b.
    assert (grown_rep h1 F b0 (store_value p2 e None) hd q bs lead news) as Hg' by (by apply Hg1).
    destruct (grow_link h1 _ _ news x (tailBlock (imp_base (store_value p1 e (Some x)))) Hg' (proj1 S2) Hb2 Hs2 Hx Hn2) as (h3 & E4 & S3 & Hb3 & Hl3 & Hn3).
    { cbn. by rewrite Eb2. }
    exists h3. split; [done|]. split; [done|]. rewrite <- app_assoc in *. assert (NoDup (bs ++ news ++ [x])) as Hnd'.
    { rewrite app_assoc. apply NoDup_app. split; [done|]. split; [|apply NoDup_singleton]. intros y Hy ->%list_elem_of_singleton. done. }
    split; [|eapply stepped_trans; [exact S1|by eapply stepped_trans]]. constructor; try done.
    + apply S3.
    + rewrite app_assoc. apply Hpush.
    + cbn. rewrite Eb, Hbs, last_snoc. done.
    + intros y. rewrite last_snoc. intros [= <-]. done.
  - destruct Ho as [S2 Hs2]. exists p2. split; [done|]. split.
    { unfold rewind_block_index_tail in E2. apply bind_Ret in E2 as (? & ? & [= <-]). done. }
    split; [|split; [|by eapply stepped_trans]].
    + assert (grown_rep h1 F b0 (store_value p2 e None) hd q bs lead news) as [] by (by apply Hg1). constructor; try done.
      * apply S2.
      * by eapply blocks_rep_same.
      * eapply linked_same; [|done]. intros y Hy. eapply same_next; [exact Hs2|]. rewrite elem_of_app in *. pose proof (lead_elem (tailBlock b0) hd q bs lead Hlead y). tauto.
      * intros y Hy. rewrite (same_next (bs ++ news) h1) by (try done; rewrite elem_of_app; right; by apply last_Some_elem_of). auto.
    + destruct allocMode; [right|by left]. intros Hk. apply S1 in Hk. by destruct (Hmem eq_refl Hk).
Qed.

(** Why the blocks are refused: [j] is the number of the last one, plus one. *)
Definition no_blocks (allocMode : AllocationMode) h p (j : Z) : Prop :=
  blockIndex p = [] \/ allocMode = CannotAlloc \/ ~ mem_ok h \/ 9223372036854775808 <= 32 * j - hd.

Lemma preallocate_spec allocMode garbage n : forall h p news,
  grown_rep h F b0 p hd q bs lead news -> Z.of_nat n < 576460752303423488 ->
  let j := (t + 31) / 32 + Z.of_nat (length news) in
  32 * j - hd < 9223372036854775808 ->
  exists ok h' p' news', preallocate n allocMode garbage h p (u64 t) (32 * Z.of_nat n) (u64 (32 * (j - 1))) (head news) (tailBlock (imp_base p)) =
      Ret (ok, head news', tailBlock (imp_base p'), h', p') /\
    grown_rep h' F b0 p' hd q bs lead news' /\ stepped F h h' (bs ++ news') /\ (blockIndex p <> [] -> blockIndex p' <> []) /\
    (length news' <= length news + n)%nat /\ 32 * ((t + 31) / 32 + Z.of_nat (length news')) - hd < 9223372036854775808 /\
    if (ok : bool) then length news' = (length news + n)%nat else no_blocks allocMode h p (j + Z.of_nat n).
Proof.
  induction n as [|n IH]; intros h p news Hg Hn j Hj.
  { exists true, h, p, news. split; [done|]. split; [done|]. split; [apply stepped_refl, Hg|]. split; [done|]. split; [lia|]. split; [done|lia]. }
  pose proof (br_len _ _ _ Hbase) as Hq. pose proof (Z.div_mod (t + 31) 32 ltac:(lia)). pose proof (Z.mod_pos_bound (t + 31) 32 ltac:(lia)).
  cbn [preallocate]. destruct (Z.eqb_spec (32 * Z.of_nat (S n)) 0); [lia|].
  assert (headIndex (imp_base p) = u64 hd) as Eh by (rewrite (gr_base _ _ _ _ _ _ _ _ _ Hg); apply Hbase).
  rewrite u64_add_l. replace (32 * (j - 1) + BLOCK_SIZE) with (32 * j) by (unfold BLOCK_SIZE; lia). rewrite Eh.
  rewrite circular_less_than_spec by lia. replace (32 * j <? hd) with false by (zbool; lia).
  replace (subqueue_full (u64 hd) (u64 (32 * j))) with (negb (32 * j - hd + 32 <? 9223372036854775808)).
  2:{ rewrite <- (subqueue_full_spec hd) by lia. do 2 f_equal. lia. }
  assert (32 * Z.of_nat (S n) -w BLOCK_SIZE = 32 * Z.of_nat n) as -> by (unfold BLOCK_SIZE; rewrite u64_small by (unfold is_u64, UINT64_MOD; lia); lia).
  destruct (Z.ltb_spec (32 * j - hd + 32) 9223372036854775808) as [Hfit|Hfull]; cbn [negb].
  2:{ exists false, h, p, news. split; [done|]. split; [done|]. split; [apply stepped_refl, Hg|]. split; [done|]. split; [lia|]. split; [done|].
      unfold no_blocks. do 3 right. lia. }
  destruct (grow_step allocMode (garbage n) h p news Hg) as (o & h1 & p1 & E1 & Hi1 & Ho); [fold j; lia|]. fold j in E1. rewrite E1, ret_bind. cbv beta iota.
  destruct o as [e|].
  2:{ destruct Ho as (Hg1 & Hwhy & S1). eexists false, h1, p1, news. rewrite (gr_base _ _ _ _ _ _ _ _ _ Hg), <- (gr_base _ _ _ _ _ _ _ _ _ Hg1).
      split; [done|]. do 3 (split; [done|]). split; [lia|]. split; [done|]. unfold no_blocks. tauto. }
  destruct Ho as (o & h2 & -> & Ho). rewrite ret_bind. cbv beta iota. destruct o as [x|].
  - destruct Ho as (b & h3 & -> & E3 & Hg3 & S3). rewrite ret_bind, E3, ret_bind.
    assert (length (news ++ [x]) = S (length news)) as El by (rewrite length_app; cbn; lia).
    destruct (IH h3 _ (news ++ [x]) Hg3) as (ok & h' & p' & news' & E & Hg' & S' & I' & L' & B' & R'); [lia|rewrite El; lia|].
    rewrite El in *. replace ((t + 31) / 32 + Z.of_nat (S (length news)) - 1) with j in E by lia.
    exists ok, h', p', news'. split; [|split; [done|]; split; [by eapply stepped_trans|]; split; [auto|]; split; [lia|]; split; [done|]].
    + rewrite <- E. replace (head (news ++ [x])) with (if is_null (head news) then Some x else head news) by (by destruct news). done.
    + destruct ok; [lia|]. unfold no_blocks in *. cbn [blockIndex set_base store_value set_entries] in R'. destruct R' as [R|[R|[R|R]]].
      * destruct (decide (blockIndex p = [])); [by left|]. exfalso. by apply Hi1.
      * tauto.
      * right; right; left. intros Hm. apply R. by apply S3.
      * do 3 right. lia.
  - destruct Ho as (p2 & -> & I2 & Hg2 & Hwhy & S2). rewrite ret_bind. eexists false, h2, _, news.
    rewrite (gr_base _ _ _ _ _ _ _ _ _ Hg), <- (gr_base _ _ _ _ _ _ _ _ _ Hg2). split; [done|]. split; [done|]. split; [done|]. split; [auto|]. split; [lia|]. split; [done|]. unfold no_blocks. tauto.
Qed.
End Grow.

(** ** Giving the blocks back *)

Section Unlink.
Context (es0 : list BlockIndexEntry) (ix : BlockIndexHeader) (ixs : list BlockIndexHeader) (first : Z) (bs news : list nat).
Context (Hok : index_ok es0 ix first (bs ++ news)).

(** The header with its tail [i] slots back. *)
Definition rolled (i : nat) : BlockIndexHeader :=
  mkHeader (bih_capacity ix) ((bih_tail ix - Z.of_nat i) mod bih_capacity ix) (bih_index ix).

Lemma slot_at_rolled i d : slot_at (rolled i) d = slot_at ix (d + Z.of_nat i).
Proof.
  pose proof (cap_pos _ _ _ _ Hok). unfold slot_at, rolled. cbn. do 2 f_equal. rewrite Zminus_mod_idemp_l. f_equal. lia.
Qed.

(** The first [i] of the new blocks are out of the index. *)
Record rolling (es : list BlockIndexEntry) (i : nat) : Prop := mk_rolling {
  ro_length : length es = length es0;
  ro_live : forall k x, (bs ++ news) !! k = Some x -> exists e,
    slot_at ix (Z.of_nat (length (bs ++ news)) - 1 - Z.of_nat k) = Some e /\
    es !! e = Some (mkIndexEntry (key_of (first + Z.of_nat k)) (Some (if decide (length bs <= k < length bs + i)%nat then None else Some x)));
  ro_dead : forall d, Z.of_nat (length (bs ++ news)) <= d < bih_capacity ix -> exists e en,
    slot_at ix d = Some e /\ es !! e = Some en /\ (bie_key en = INVALID_BLOCK_BASE \/ bie_value en = Some None) }.

Lemma rolling_start : rolling es0 0.
Proof.
  constructor; [done| |apply Hok]. intros k x Hk. destruct (io_live _ _ _ _ Hok k x Hk) as (e & Hs & He). exists e. split; [done|].
  rewrite decide_False by lia. done.
Qed.

Lemma rolling_step es i e :
  rolling es i -> (i < length news)%nat -> slot_at ix (Z.of_nat (length news) - 1 - Z.of_nat i) = Some e ->
  rolling (alter (fun en => mkIndexEntry (bie_key en) (Some None)) e es) (S i).
Proof.
  intros [Hl Hlive Hdead] Hi He. pose proof (io_room _ _ _ _ Hok) as Hroom. rewrite length_app in *. constructor; rewrite ?length_app.
  - by rewrite length_alter.
  - intros k x Hk. pose proof (lookup_lt_Some _ _ _ Hk) as Hk'. rewrite length_app in Hk'. destruct (Hlive k x Hk) as (e' & Hs & He'). exists e'. split; [done|].
    destruct (decide (k = length bs + i)%nat) as [->|Hne].
    + assert (Some e' = Some e) as [= ->] by (rewrite <- Hs, <- He; f_equal; lia).
      rewrite list_lookup_alter_eq, He'. cbn. by rewrite decide_True by lia.
    + rewrite alter_lookup_ne.
      * rewrite He'. by destruct (decide (length bs <= k < length bs + i)%nat), (decide (length bs <= k < length bs + S i)%nat); try lia.
      * intros ->. pose proof (slot_at_inj _ _ _ _ Hok (Z.of_nat (length news) - 1 - Z.of_nat i) (Z.of_nat (length bs + length news) - 1 - Z.of_nat k) _ ltac:(lia) ltac:(lia) He Hs). lia.
  - intros d Hd. destruct (Hdead d Hd) as (e' & en & Hs & Hes & Hf). exists e', en. split; [done|]. split; [|done].
    rewrite alter_lookup_ne; [done|]. intros ->. pose proof (slot_at_inj _ _ _ _ Hok (Z.of_nat (length news) - 1 - Z.of_nat i) d _ ltac:(lia) ltac:(lia) He Hs). lia.
Qed.

Lemma rolling_end es : rolling es (length news) -> index_ok es (rolled (length news)) first bs.
Proof.
  intros [Hl Hlive Hdead]. pose proof Hok as [Hc Ht Hlen Hnd Hr Hroom _ _]. pose proof (cap_pos _ _ _ _ Hok). rewrite length_app in *.
  constructor; cbn [rolled bih_capacity bih_tail bih_index]; try done.
  - by apply Z.mod_pos_bound.
  - by rewrite Hl.
  - lia.
  - intros k x Hk. pose proof (lookup_lt_Some _ _ _ Hk). destruct (Hlive k x) as (e & Hs & He); [by apply lookup_app_l_Some|].
    exists e. rewrite slot_at_rolled. split; [rewrite <- Hs; f_equal; lia|]. rewrite He. by rewrite decide_False by lia.
  - intros d Hd. rewrite slot_at_rolled. destruct (Z.lt_ge_cases (d + Z.of_nat (length news)) (bih_capacity ix)) as [Hlt|Hge].
    + apply Hdead. lia.
    + destruct (lookup_lt_is_Some_2 (bs ++ news) (length bs + length news - 1 - Z.to_nat (d + Z.of_nat (length news) - bih_capacity ix))) as [x Hx].
      { rewrite length_app. lia. }
      destruct (Hlive _ x Hx) as (e & Hs & He). eexists e, _. split; [|split; [exact He|]].
      * rewrite <- Hs. replace (d + Z.of_nat (length news)) with (d + Z.of_nat (length news) - bih_capacity ix + bih_capacity ix) by lia.
        rewrite (slot_at_shift _ _ _ _ Hok). f_equal. lia.
      * right. cbn. by rewrite decide_True by lia.
Qed.

Lemma unlink_blocks_spec h rest : forall fuel p pre,
  news = pre ++ rest -> (length rest <= fuel)%nat -> blockIndex p = rolled (length pre) :: ixs -> rolling (index_entries p) (length pre) ->
  linked h rest -> (forall x, last rest = Some x -> next_at h x = Some None) -> (forall x, x ∈ rest -> is_Some (blocks h !! x)) ->
  exists p', unlink_blocks fuel h p (u64 (32 * (first + Z.of_nat (length bs + length pre) - 1))) (head rest) = Ret p' /\
    blockIndex p' = rolled (length news) :: ixs /\ rolling (index_entries p') (length news) /\ imp_base p' = imp_base p /\
    nextBlockIndexCapacity p' = nextBlockIndexCapacity p.
Proof.
  induction rest as [|x rest IH]; intros fuel p pre En Hf Ep Hr Hl He Hb.
  { rewrite app_nil_r in En. subst pre. exists p. by destruct fuel. }
  destruct fuel as [|fuel]; [cbn in Hf; lia|]. cbn [unlink_blocks head]. rewrite u64_add_l.
  replace (32 * (first + Z.of_nat (length bs + length pre) - 1) + BLOCK_SIZE) with (32 * (first + Z.of_nat (length bs + length pre))) by (unfold BLOCK_SIZE; lia).
  assert (length news = length pre + S (length rest))%nat as Hn by (rewrite En, length_app; done).
  pose proof (cap_pos _ _ _ _ Hok). pose proof (io_room _ _ _ _ Hok) as Hroom. rewrite length_app in Hroom.
  destruct (lookup_lt_is_Some_2 (bs ++ news) (length bs + length news - 1 - length pre)) as [y Hy]; [rewrite length_app; lia|].
  destruct (ro_live _ _ Hr _ _ Hy) as (e0 & Hs0 & He0).
  set (en0 := mkIndexEntry _ _) in He0.
  assert ((bs ++ news) !! (length bs + length pre)%nat = Some x) as Hx.
  { rewrite lookup_app_r by lia. replace (length bs + length pre - length bs)%nat with (length pre) by lia. rewrite En. by apply list_lookup_middle. }
  destruct (ro_live _ _ Hr _ _ Hx) as (e & Hs & He1). rewrite decide_False in He1 by lia. rewrite length_app in *.
  destruct (index_find p (rolled (length pre)) ixs (first + Z.of_nat (length bs + length news - 1 - length pre)) (first + Z.of_nat (length bs + length pre))
    e0 en0 e x (32 * (first + Z.of_nat (length bs + length pre))) Ep) as [E1 E2].
  - apply Hok.
  - cbn. by apply Z.mod_pos_bound.
  - rewrite slot_at_rolled, <- Hs0. f_equal. lia.
  - exact He0.
  - done.
  - rewrite slot_at_rolled, <- Hs. f_equal. lia.
  - done.
  - rewrite Z.mul_comm. by rewrite Z.div_mul.
  - unfold get_block_index_entry_for_index. rewrite E1, ret_bind. cbv beta iota. rewrite E2, ret_bind.
    unfold rewind_block_index_tail, current_index. cbn [blockIndex store_value set_entries]. rewrite Ep. cbn [head of_option]. rewrite !ret_bind.
    destruct (Hb x) as [b Hxb]; [by left|]. rewrite (get_block_Ret _ _ _ Hxb), ret_bind.
    set (p1 := set_tail _ _ _). assert (next b = head rest) as ->.
    { assert (next_at h x = Some (head rest)) as Hnx by (destruct rest as [|z rest]; [by apply He|by apply (Hl 0%nat)]).
      unfold next_at in Hnx. rewrite Hxb in Hnx. by injection Hnx. }
    destruct (IH fuel p1 (pre ++ [x])) as (p' & E & Hi' & Hr' & Hb' & Hc').
    + by rewrite <- app_assoc.
    + cbn in Hf. lia.
    + subst p1. cbn. rewrite Ep. cbn. f_equal. unfold rolled. cbn. f_equal. rewrite (land_cap _ _ _ _ Hok), Zminus_mod_idemp_l, length_app. cbn. f_equal. lia.
    + rewrite length_app. cbn [length]. rewrite Nat.add_1_r. apply rolling_step; [exact Hr|lia|]. rewrite <- Hs. f_equal. lia.
    + by eapply linked_tail.
    + intros z Hz. apply He. by destruct rest.
    + intros z Hz. apply Hb. by right.
    + exists p'. rewrite length_app in E. cbn [length] in E.
      replace (first + Z.of_nat (length bs + (length pre + 1)) - 1) with (first + Z.of_nat (length bs + length pre)) in E by lia. done.
Qed.
End Unlink.

Lemma own_same_set h F l l' : (forall x, x ∈ l <-> x ∈ l') -> own h F l -> own h F l'.
Proof.
  intros Hp. assert (list_to_set l = list_to_set l' :> gset nat) as E by (apply leibniz_equiv; intros x; rewrite !elem_of_list_to_set; apply Hp).
  unfold own. by rewrite E.
Qed.

Lemma add_blocks_spec F bs news : forall h fuel,
  own h F (bs ++ news) -> NoDup (bs ++ news) -> linked h news -> (forall x, last news = Some x -> next_at h x = Some None) ->
  (forall x, x ∈ news -> exists b, blocks h !! x = Some b /\ raw b) -> (length news <= fuel)%nat ->
  exists h', add_blocks_to_free_list fuel h (head news) = Ret h' /\ stepped F h h' bs /\ same_blocks (list_to_set bs) h h'.
Proof.
  induction news as [|x news IH]; intros h fuel Hown Hnd Hl He Hr Hf.
  { rewrite app_nil_r in Hown. exists h. split; [by destruct fuel|]. split; [by apply stepped_refl|apply same_blocks_refl]. }
  destruct fuel as [|fuel]; [cbn in Hf; lia|]. cbn [add_blocks_to_free_list head].
  destruct (Hr x) as (b & Hb & Hw); [by left|]. rewrite (get_block_Ret _ _ _ Hb), ret_bind.
  assert (next b = head news) as ->.
  { assert (next_at h x = Some (head news)) as Hnx by (destruct news; [by apply He|by apply (Hl 0%nat)]). unfold next_at in Hnx. rewrite Hb in Hnx. by injection Hnx. }
  assert (own h F ((bs ++ news) ++ [x])) as Hown'.
  { eapply own_same_set; [|exact Hown]. intros y. rewrite !elem_of_app, elem_of_cons, list_elem_of_singleton. tauto. }
  assert ((x ∉ bs ++ news) /\ NoDup (bs ++ news)) as [Hx Hnd'].
  { apply NoDup_app in Hnd as (H1 & H2 & [H3 H4]%NoDup_cons). split.
    - rewrite elem_of_app. intros [Hin|Hin]; [|done]. apply (H2 x Hin). by left.
    - apply NoDup_app. split; [done|]. split; [|done]. intros y Hy Hyn. apply (H2 y Hy). by right. }
  destruct (own_pop_last h F (bs ++ news) x b Hown' Hx Hb Hw) as (h1 & -> & S1 & B1). rewrite ret_bind.
  assert (forall y, y ∈ news -> blocks h1 !! y = blocks h !! y) as Hs.
  { intros y Hy. apply B1, elem_of_list_to_set, elem_of_app. by right. }
  destruct (IH h1 fuel) as (h2 & -> & S2 & B2).
  - apply S1.
  - done.
  - eapply linked_same; [|by eapply linked_tail]. intros y Hy. unfold next_at. by rewrite Hs.
  - intros y Hy. unfold next_at. rewrite Hs by (by apply last_Some_elem_of). apply He. by destruct news.
  - intros y Hy. rewrite Hs by done. apply Hr. by right.
  - cbn in Hf. lia.
  - exists h2. split; [done|]. split; [by eapply stepped_trans|]. eapply same_blocks_trans; [|exact B2].
    eapply same_blocks_mono; [|exact B1]. rewrite list_to_set_app_L. set_solver.
Qed.

(** The state before [news] were taken. *)
Lemma revert_spec F b0 hd q bs lead h p news fuel :
  let t := hd + Z.of_nat (length q) in
  Z.of_nat (length bs) = (t + 31) / 32 - hd / 32 ->
  grown_rep h F b0 p hd q bs lead news -> (length news <= fuel)%nat ->
  exists h' p', revert fuel h p (u64 t) (tailBlock b0) (head news) = Ret (h', p') /\ stepped F h h' bs /\ blocks_rep h' hd q bs /\
    idx_rep p' (hd / 32) bs /\ imp_base p' = b0 /\ (blockIndex p <> [] -> blockIndex p' <> []).
Proof.
  intros t Hlen [Hown Hnd Hb Hidx Hbs Hl He] Hf. pose proof (Z.div_mod (t + 31) 32 ltac:(lia)). pose proof (Z.mod_pos_bound (t + 31) 32 ltac:(lia)).
  assert (linked h news) as Hl'.
  { intros k x y Hk Hy. apply (Hl (length lead + k)%nat); rewrite lookup_app_r by lia; rewrite <- ?Nat.add_succ_r, Nat.add_comm, Nat.add_sub; done. }
  assert (forall x, x ∈ news -> exists b, blocks h !! x = Some b /\ raw b) as Hraw.
  { intros x [k Hk]%list_elem_of_lookup_1. destruct (Hb (length bs + k)%nat x) as (b & Hxb & [_ Hel]).
    { rewrite lookup_app_r by lia. by rewrite Nat.add_comm, Nat.add_sub. }
    exists b. split; [done|]. unfold raw. rewrite Hel. apply slots_none. intros i Hi. apply zget_out. lia. }
  assert (exists p', unlink_blocks fuel h p (block_start (u64 t -w 1)) (head news) = Ret p' /\ idx_rep p' (hd / 32) bs /\
    imp_base p' = imp_base p /\ (blockIndex p <> [] -> blockIndex p' <> [])) as (p1 & E1 & Hi1 & Eb1 & Ne1).
  { unfold idx_rep in Hidx. destruct (blockIndex p) as [|ix ixs] eqn:Ep.
    { apply app_nil in Hidx as [-> ->]. exists p. split; [by destruct fuel|]. unfold idx_rep. by rewrite Ep. }
    destruct Hidx as [Hok Hnext]. destruct (unlink_blocks_spec (index_entries p) ix ixs (hd / 32) bs news Hok h news fuel p []) as (p' & E & Hp' & Hr' & Hb' & Hc'); try done.
    - rewrite Ep. f_equal. unfold rolled. cbn [length]. rewrite Z.sub_0_r, Z.mod_small by apply Hok. by destruct ix.
    - by apply rolling_start.
    - intros x Hx. destruct (Hraw x Hx) as (b & -> & _). done.
    - exists p'. cbn [length] in E. split.
      + rewrite <- E. f_equal. rewrite u64_sub_l, block_start_u64. f_equal. f_equal. rewrite Nat.add_0_r, Hlen.
        assert ((t - 1) / 32 = (t + 31) / 32 - 1); [|lia]. replace (t + 31) with (t - 1 + 1 * 32) by lia. rewrite Z.div_add by lia. lia.
      + split; [|by rewrite Hp']. unfold idx_rep. rewrite Hp'. split; [by eapply rolling_end|]. cbn. congruence. }
  unfold revert. rewrite E1, ret_bind.
  destruct (add_blocks_spec F bs news h fuel) as (h' & -> & S' & B'); try done. rewrite ret_bind.
  eexists h', _. split; [done|]. split; [done|]. split; [|split; [done|]; split; [|done]].
  - eapply blocks_rep_same; [exact B'|]. intros k x Hk. by apply Hb, lookup_app_l_Some.
  - cbn. rewrite Eb1, Hbs. by destruct b0.
Qed.

(** Only elements were written. *)
Lemma grown_changed F b0 p hd q q' bs lead news h h' :
  grown_rep h F b0 p hd q' bs lead news -> changed F (hd / 32) (bs ++ news) h h' (queue_cells q hd) ->
  grown_rep h' F b0 p hd q bs lead news.
Proof.
  intros [Hown Hnd Hb Hidx Hbs Hl He] (S & C & M). apply blocks_rep_cells in Hb as [_ Hn]. constructor; try done.
  - apply S.
  - apply blocks_rep_cells. split; [done|by eapply counters_shape].
  - eapply linked_same; [|exact Hl]. intros x _. by apply next_at_shape.
  - intros x Hx. rewrite (next_at_shape h) by done. auto.
Qed.

(** ** [enqueue_bulk] *)

Lemma start_grown h F p q hd bs :
  own h F bs -> imp_rep h p q hd bs ->
  exists lead, lead_ok (tailBlock (imp_base p)) (hd + Z.of_nat (length q)) bs lead /\ grown_rep h F (imp_base p) p hd q bs lead [].
Proof.
  intros Hown [Hbase Hcount Hfits Hnd Hblocks Htail Hidx]. set (t := hd + Z.of_nat (length q)) in *.
  assert (forall lead, (length lead <= 1)%nat -> grown_rep h F (imp_base p) p hd q bs lead []) as Hg.
  { intros lead Hl. constructor; rewrite ?app_nil_r; try done; [by rewrite set_tailBlock_same|].
    intros k x y Hk Hy. apply lookup_lt_Some in Hy. lia. }
  unfold lead_ok. destruct (Z.eqb_spec (t mod 32) 0) as [E|E]; [exists []; split; [done|apply Hg; cbn; lia]|].
  assert (bs <> []) as Hne.
  { intros ->. cbn in Hcount. pose proof (Z.div_mod t 32 ltac:(lia)). pose proof (Z.mod_pos_bound t 32 ltac:(lia)).
    assert ((t + 31) / 32 = t / 32 + 1) by (symmetry; apply (Z.div_unique _ _ _ (t mod 32 - 1)); lia).
    assert (hd / 32 <= t / 32) by (apply Z.div_le_mono; lia). lia. }
  destruct (proj2 (last_is_Some bs) Hne) as [x Hx]. exists [x]. split; [|apply Hg; cbn; lia]. exists x. rewrite Htail by done. done.
Qed.

Section Bulk.
Context (F : gset nat) (b0 : ProducerBase) (hd : Z) (q : list T) (bs lead news : list nat) (r : Z).
Let t := hd + Z.of_nat (length q).
Context (Hbase : base_rep b0 hd (Z.of_nat (length q))).
Context (Hlen : Z.of_nat (length bs) = (t + 31) / 32 - hd / 32).
Context (Hlead : lead_ok (tailBlock b0) t bs lead).

(** The state after the items were constructed. *)
Lemma bulk_done h p h2 vs o :
  grown_rep h F b0 p hd q bs lead news -> changed F (hd / 32) (bs ++ news) h h2 (queue_cells (q ++ vs) hd) -> r = Z.of_nat (length vs) ->
  Z.of_nat (length news) = (t + r - 1) / 32 - (t - 1) / 32 -> 32 * ((t + 31) / 32 + Z.of_nat (length news)) - hd < 9223372036854775808 ->
  (bs ++ news <> [] -> o = last (bs ++ news)) ->
  imp_rep h2 (set_base p (set_tailIndex (set_tailBlock (imp_base p) o) (u64 (t + r)))) (q ++ vs) hd (bs ++ news).
Proof.
  intros Hg C Er Hn Hfit Ho. destruct (lead_first (tailBlock b0) hd q bs lead Hlead) as [_ E2]. fold t in E2. pose proof (grown_changed _ _ _ _ _ _ _ _ _ _ _ Hg C) as Hg2. destruct Hg2 as [Hown Hnd Hb Hidx Hbs Hl He].
  assert (Z.of_nat (length (q ++ vs)) = Z.of_nat (length q) + r) as El by (rewrite length_app; lia).
  assert ((hd + (Z.of_nat (length q) + r) + 31) / 32 = (t + 31) / 32 + Z.of_nat (length news)) as Ed.
  { replace (hd + (Z.of_nat (length q) + r) + 31) with (t + r - 1 + 1 * 32) by lia. rewrite Z.div_add by lia. lia. }
  pose proof (Z.div_mod (hd + (Z.of_nat (length q) + r) + 31) 32 ltac:(lia)). pose proof (Z.mod_pos_bound (hd + (Z.of_nat (length q) + r) + 31) 32 ltac:(lia)).
  constructor; rewrite ?El; cbn [set_base imp_base]; try done.
  - rewrite Hbs. replace (u64 (t + r)) with (u64 (hd + Z.of_nat (length q)) +w r) by (rewrite u64_add_l; f_equal; lia). apply (base_rep_push b0 hd (Z.of_nat (length q)) r o Hbase); lia.
  - rewrite length_app. lia.
  - lia.
Qed.

(** The state after everything was taken back. *)
Lemma bulk_undone h p fuel :
  (bs <> [] -> tailBlock b0 = last bs) -> grown_rep h F b0 p hd q bs lead news -> (length news <= fuel)%nat -> NoDup bs -> 32 * ((t + 31) / 32) - hd < 9223372036854775808 ->
  exists h' p', revert fuel h p (u64 t) (tailBlock b0) (head news) = Ret (h', p') /\ stepped F h h' bs /\ imp_rep h' p' q hd bs /\
    (blockIndex p <> [] -> blockIndex p' <> []).
Proof.
  intros Htail Hg Hf Hnd Hfit. destruct (revert_spec F b0 hd q bs lead h p news fuel Hlen Hg Hf) as (h' & p' & E & S & Hb & Hi & Eb & Hne).
  exists h', p'. split; [done|]. split; [done|]. split; [|done]. by constructor; rewrite ?Eb.
Qed.
End Bulk.

(** What a call of [implicit_enqueue_bulk] does to the queue. *)
Definition bulk_result (allocMode : AllocationMode) h p q (items : list (option T)) (hd : Z)
    (r : EnqueueResult) h' p' (bs' : list nat) : Prop :=
  match r with
  | Enqueued => exists vs, items = Some <$> vs /\ imp_rep h' p' (q ++ vs) hd bs'
  | Refused => imp_rep h' p' q hd bs' /\
      (blockIndex p = [] \/ allocMode = CannotAlloc \/ ~ mem_ok h \/ 9223372036854775808 <= Z.of_nat (length q) + Z.of_nat (length items) + 32)
  | Threw => imp_rep h' p' q hd bs' /\ None ∈ items
  end.

(** When all the blocks are there: the items are constructed, or everything is taken
    back. *)
Lemma bulk_fill F b0 hd q bs lead news h p items n allocMode h0 p0 :
  let t := hd + Z.of_nat (length q) in
  base_rep b0 hd (Z.of_nat (length q)) -> Z.of_nat (length bs) = (t + 31) / 32 - hd / 32 -> lead_ok (tailBlock b0) t bs lead ->
  (bs <> [] -> tailBlock b0 = last bs) -> grown_rep h F b0 p hd q bs lead news -> Z.of_nat (length items) < 9223372036854775808 ->
  Z.of_nat (length news) = (t + Z.of_nat (length items) - 1) / 32 - (t - 1) / 32 -> (length news <= n)%nat ->
  32 * ((t + 31) / 32) - hd < 9223372036854775808 -> 32 * ((t + 31) / 32 + Z.of_nat (length news)) - hd < 9223372036854775808 ->
  exists r h' p' bs',
    ('(threw, block, h) ← fill (S n) h (tailBlock b0) (head news) (tailBlock (imp_base p)) (u64 t) items;
     if (threw : bool) then '(h, p) ← revert n h p (u64 t) (tailBlock b0) (head news); Ret (Threw, h, p)
     else Ret (Enqueued, h, set_base p (set_tailIndex (set_tailBlock (imp_base p) block) (u64 t +w Z.of_nat (length items))))) = Ret (r, h', p') /\
    stepped F h h' bs' /\ (blockIndex p <> [] -> blockIndex p' <> []) /\ bulk_result allocMode h0 p0 q items hd r h' p' bs'.
Proof.
  intros t Hbase Hcount Hlead Htail Hg Hi Hn Hf Hfit Hfit2. pose proof Hg as [Hown Hnd Hb _ Hbs Hl _].
  assert (NoDup bs) as Hndb by (by apply NoDup_app in Hnd as [? _]).
  destruct (fill_spec F (tailBlock b0) (hd / 32) hd q bs lead news h (tailBlock (imp_base p)) items n) as (threw & block & h2 & E & C); try done.
  { fold t. lia. }
  { by apply blocks_rep_cells in Hb as [? _]. }
  { rewrite Hbs. cbn. rewrite last_app. destruct (last news); [done|]. destruct (last lead) as [y|] eqn:El; [|done]. fold t in Hlead. unfold lead_ok in Hlead.
    destruct (t mod 32 =? 0); [by rewrite Hlead in El|]. destruct Hlead as (x & -> & _ & ->). done. }
  fold t in E. rewrite E, ret_bind. cbv beta iota. destruct threw.
  - destruct C as [Hnone C]. pose proof (grown_changed _ _ _ _ _ _ _ _ _ _ _ Hg C) as Hg3.
    destruct (bulk_undone F b0 hd q bs lead news Hbase Hcount h2 p n Htail Hg3 Hf Hndb Hfit) as (h4 & p4 & E4 & S4 & Hr4 & I4).
    fold t in E4. rewrite E4, ret_bind. exists Threw, h4, p4, bs. split; [done|]. split; [eapply stepped_trans; [apply C|done]|]. done.
  - destruct C as (-> & vs & -> & C). rewrite length_fmap in *. eexists Enqueued, h2, _, (bs ++ news). split; [done|]. split; [apply C|]. split; [done|].
    exists vs. split; [done|]. rewrite u64_add_l. eapply bulk_done; try done.
    intros Hne. rewrite Hbs. cbn. rewrite last_app. destruct (last news) eqn:El2; [done|]. apply Htail.
    apply last_None in El2 as ->. by rewrite app_nil_r in Hne.
Qed.

Lemma enqueue_bulk_spec allocMode garbage h p q hd bs F items :
  own h F bs -> imp_rep h p q hd bs -> Z.of_nat (length items) < 9223372036854775808 ->
  exists r h' p' bs', implicit_enqueue_bulk allocMode garbage h p items = Ret (r, h', p') /\ stepped F h h' bs' /\
    (blockIndex p <> [] -> blockIndex p' <> []) /\ bulk_result allocMode h p q items hd r h' p' bs'.
Proof.
  intros Hown Hrep Hi. destruct (start_grown h F p q hd bs Hown Hrep) as (lead & Hlead & Hg).
  pose proof Hrep as [Hbase Hcount Hfits Hnd Hblocks Htail Hidx]. remember (hd + Z.of_nat (length q)) as t eqn:Et.
  destruct (bulk_blocks t (Z.of_nat (length items)) ltac:(lia)) as (n & Hn & Hnb & Ediff & Efuel & Estart).
  unfold implicit_enqueue_bulk. rewrite (br_tail _ _ _ Hbase), <- Et. cbv zeta. rewrite Ediff, Efuel, Estart.
  destruct (preallocate_spec F (imp_base p) hd q bs lead Hbase ltac:(by rewrite <- Et) ltac:(by rewrite <- Et) allocMode garbage n h p [] Hg Hnb)
    as (ok & h1 & p1 & news & E1 & Hg1 & S1 & I1 & L1 & B1 & R1); [cbn; rewrite <- Et; lia|].
  cbn [length head] in *. rewrite <- Et, Z.add_0_r in *. rewrite E1, ret_bind. cbv beta iota. clear E1. destruct ok; cbn [negb].
  - destruct (bulk_fill F (imp_base p) hd q bs lead news h1 p1 items n allocMode h p) as (r & h2 & p2 & bs2 & E & S2 & I2 & R2); rewrite <- ?Et in *; try done; try lia.
    rewrite E. exists r, h2, p2, bs2. split; [done|]. split; [by eapply stepped_trans|]. split; [auto|done].
  - destruct (bulk_undone F (imp_base p) hd q bs lead news Hbase ltac:(by rewrite <- Et) h1 p1 n Htail Hg1 ltac:(lia) Hnd ltac:(rewrite <- Et; lia)) as (h2 & p2 & E & S2 & Hr2 & I2).
    rewrite <- Et in E. rewrite E, ret_bind. exists Refused, h2, p2, bs. split; [done|]. split; [by eapply stepped_trans|]. split; [auto|]. split; [done|].
    unfold no_blocks in R1. destruct R1 as [?|[?|[?|?]]]; [tauto..|]. do 3 right.
    pose proof (Z.div_mod (t + Z.of_nat (length items) - 1) 32 ltac:(lia)). pose proof (Z.mod_pos_bound (t + Z.of_nat (length items) - 1) 32 ltac:(lia)).
    assert ((t - 1) / 32 = (t + 31) / 32 - 1) by (replace (t + 31) with (t - 1 + 1 * 32) by lia; rewrite Z.div_add by lia; lia). lia.
Qed.
End BulkEnqueue.
