(* ===== verification/ImplicitTrace.v ===== *)
(** * Runs of an implicit producer

    The destructor gives every block back, and any sequence of operations, one
    element or many at a time, on a new producer answers as a first-in first-out
    queue. *)
From S2P Require Import Prelude QueueDetails QueueBlock Producer ImplicitProducer ImplicitIndex ImplicitSpec ImplicitBulk BlockCells ImplicitBulkSpec BulkLoops ImplicitBulkEnqueue.
Arguments slots : simpl never.

Section Trace.
Context {T : Type}.
Implicit Types (h : Heap T) (q : list T).

(** ** The destructor *)

(** What the destructor needs of a block: its elements, not its counter. *)
Definition elem_rep (b : Block T) (hd : Z) q (j : Z) : Prop :=
  elements b = slots (fun i => zget q (32 * j + Z.of_nat i - hd)).

Lemma elem_rep_pop b hd q v : elem_rep b hd (v :: q) (hd / 32) -> elem_rep (block_set b (u64 hd) None) (hd + 1) q (hd / 32).
Proof.
  intros He.
  assert (block_rep (set_counter b (hd mod 32)) hd (v :: q) (hd / 32)) as Hb.
  { constructor; [|exact He]. cbn. pose proof (Z.div_mod hd 32 ltac:(lia)). pose proof (Z.mod_pos_bound hd 32 ltac:(lia)). lia. }
  destruct (block_rep_pop _ hd q v (hd / 32) eq_refl Hb) as (_ & _ & Hp). exact (bk_elements _ _ _ _ Hp).
Qed.

Lemma elem_rep_get b hd q v : elem_rep b hd (v :: q) (hd / 32) -> block_get b (u64 hd) = Some v.
Proof.
  intros He. pose proof (Z.div_mod hd 32 ltac:(lia)). pose proof (Z.mod_pos_bound hd 32 ltac:(lia)).
  unfold block_get. rewrite He, offset_u64, slots_lookup, decide_True by lia. cbn. rewrite zget_cons. zbool; [done|lia].
Qed.

Lemma elem_rep_pop_other b hd q v j : elem_rep b hd (v :: q) j -> hd / 32 < j -> elem_rep b (hd + 1) q j.
Proof.
  intros He Hj. unfold elem_rep. rewrite He. apply slots_ext. intros i Hi. rewrite zget_cons.
  pose proof (Z.div_mod hd 32 ltac:(lia)). pose proof (Z.mod_pos_bound hd 32 ltac:(lia)). zbool; [lia|]. f_equal. lia.
Qed.

Lemma elem_rep_raw b hd q j : elem_rep b hd q j -> (forall i, (i < 32)%nat -> zget q (32 * j + Z.of_nat i - hd) = None) -> raw b.
Proof. intros He Hn. unfold raw. rewrite He. by apply slots_none. Qed.

Definition elems_rep h (bs : list nat) (first hd : Z) q : Prop :=
  forall k x, bs !! k = Some x -> exists b, blocks h !! x = Some b /\ elem_rep b hd q (first + Z.of_nat k).

(** One element of the first of the blocks is destroyed. *)
Lemma destroy_first h F x bs q v i :
  own h F (x :: bs) -> NoDup (x :: bs) -> elems_rep h (x :: bs) (i / 32) i (v :: q) ->
  exists h', destroy_object h x (u64 i) = Ret h' /\ own h' F (x :: bs) /\ same_blocks F h h' /\ mem h' = mem h /\
    elems_rep h' (x :: bs) (i / 32) (i + 1) q.
Proof.
  intros Hown Hnd He. destruct (He 0%nat x eq_refl) as (b & Hb & Hr). rewrite Z.add_0_r in Hr.
  unfold destroy_object. rewrite (get_block_Ret _ _ _ Hb). cbn [mbind outcome_bind].
  rewrite (elem_rep_get _ _ _ _ Hr). cbn [of_option mbind outcome_bind]. eexists. split; [done|].
  pose proof (own_refs _ _ _ 0%nat _ _ Hown eq_refl Hb) as Hrefs. apply elem_rep_pop in Hr.
  destruct Hown as [Hi Hd]. assert (x ∉ F) as HxF by set_solver. split; [|split; [|split; [done|]]].
  - split; [|done]. eapply heap_inv_put; [done|set_solver|done| |exact Hb|done]. rewrite Hr. by rewrite slots_length.
  - intros y Hy. rewrite put_block_lookup, decide_False; [done|]. by intros ->.
  - apply NoDup_cons in Hnd as [Hx Hnd]. intros [|k] y Hk.
    + injection Hk as <-. rewrite put_block_lookup, decide_True, Z.add_0_r by done. by eexists.
    + destruct (He (S k) y Hk) as (b' & Hb' & Hr'). exists b'. change (bs !! k = Some y) in Hk.
      rewrite put_block_lookup, decide_False by (intros ->; by apply list_elem_of_lookup_2 in Hk). split; [done|].
      apply (elem_rep_pop_other _ _ _ v); [done|lia].
Qed.

(** The rest of the loop, from inside the first of the blocks. *)
Lemma destroy_elements_spec p ix ixs first all F q : forall h i x bs pre,
  blockIndex p = ix :: ixs -> index_ok (index_entries p) ix first all ->
  all = pre ++ x :: bs -> NoDup all -> first + Z.of_nat (length pre) = (i - 1) / 32 ->
  tailIndex (imp_base p) = u64 (i + Z.of_nat (length q)) -> Z.of_nat (length q) < 9223372036854775808 ->
  Z.of_nat (length bs) = (i + Z.of_nat (length q) + 31) / 32 - 1 - (i - 1) / 32 ->
  own h F (x :: bs) -> elems_rep h (x :: bs) ((i - 1) / 32) i q ->
  exists h' l, destroy_elements (length q) h p (u64 i) (Some x) = Ret h' /\ last (x :: bs) = Some l /\
    own h' F [l] /\ same_blocks F h h' /\ (mem_ok h -> mem_ok h') /\ exists b, blocks h' !! l = Some b /\ raw b.
Proof.
  induction q as [|v q IH]; intros h i x bs pre Ep Hok Eall Hnd Hpre Ht Hlen Hbs Hown He;
    cbn [destroy_elements length]; rewrite Ht, u64_eqb by (cbn in *; lia);
    pose proof (Z.div_mod (i - 1) 32 ltac:(lia)); pose proof (Z.mod_pos_bound (i - 1) 32 ltac:(lia)); cbn [length] in *.
  { cbn [Z.of_nat Z.eqb]. assert (bs = []) as ->.
    { apply length_zero_iff_nil. rewrite Z.add_0_r in Hbs.
      assert ((i + 31) / 32 = (i - 1) / 32 + 1) by (symmetry; apply (Z.div_unique _ _ _ ((i - 1) mod 32)); lia). lia. }
    exists h, x. do 5 (split; [done|]). destruct (He 0%nat x eq_refl) as (b & Hb & Hr). exists b. split; [done|].
    eapply elem_rep_raw; [exact Hr|]. intros. by apply zget_out; cbn; lia. }
  destruct (Z.eqb_spec (Z.of_nat (S (length q))) 0); [lia|]. rewrite land_31, u64_mod_32, orb_false_r.
  destruct (Z.eqb_spec (i mod 32) 0) as [Hm|Hm].
  - assert (i / 32 = (i - 1) / 32 + 1) as Ei.
    { symmetry. apply (Z.div_unique _ _ _ 0); [lia|].
      assert ((i - 1) mod 32 = 31) as E31; [|lia]. pose proof (Z.div_mod i 32 ltac:(lia)).
      symmetry. apply (Z.mod_unique _ _ (i / 32 - 1)); lia. }
    pose proof (Z.div_mod i 32 ltac:(lia)). destruct bs as [|y bs].
    { exfalso. cbn [length] in Hbs. assert ((i - 1) / 32 + 2 <= (i + Z.of_nat (S (length q)) + 31) / 32); [|lia].
      apply Z.div_le_lower_bound; lia. }
    destruct (He 0%nat x eq_refl) as (b & Hb & Hr). pose proof Hnd as Hnd'. rewrite Eall in Hnd'. apply NoDup_app in Hnd' as (_ & _ & Hnd').
    pose proof Hnd' as [Hx _]%NoDup_cons.
    destruct (own_pop_first h F x (y :: bs) b Hown Hx Hb) as (h1 & -> & (O1 & S1 & M1) & Sb).
    { eapply elem_rep_raw; [exact Hr|]. intros. apply zget_out. left. lia. }
    cbn [mbind outcome_bind].
    destruct (entry_lookup p ix ixs first all (S (length pre)) y i Ep Hok) as (e & -> & Hblk & _).
    { rewrite Eall, lookup_app_r by lia. by replace (S (length pre) - length pre)%nat with 1%nat by lia. } { lia. }
    cbn [mbind outcome_bind]. rewrite Hblk. cbn [mbind outcome_bind of_option].
    destruct (destroy_first h1 F y bs q v i O1) as (h2 & -> & O2 & S2 & M2 & E2).
    { by apply NoDup_cons in Hnd' as [_ ?]. }
    { intros k z Hk. destruct (He (S k) z Hk) as (b' & Hb' & Hr'). exists b'. rewrite Sb.
      - split; [done|]. by replace (i / 32 + Z.of_nat k) with ((i - 1) / 32 + Z.of_nat (S k)) by lia.
      - apply elem_of_list_to_set. by eapply list_elem_of_lookup_2. }
    cbn [mbind outcome_bind]. rewrite u64_add_l.
    destruct (IH h2 (i + 1) y bs (pre ++ [x])) as (h' & l & -> & Hl & O & S & M & Hraw); try done.
    + by rewrite <- app_assoc.
    + rewrite length_app. cbn. replace (i + 1 - 1) with i by lia. lia.
    + rewrite Ht. f_equal. lia.
    + lia.
    + cbn [length] in Hbs. replace (i + 1 - 1) with i by lia. replace (i + 1 + Z.of_nat (length q)) with (i + Z.of_nat (S (length q))) by lia. lia.
    + by replace (i + 1 - 1) with i by lia.
    + exists h', l. split; [done|]. split; [done|]. split; [done|]. split; [eauto using same_blocks_trans|]. split; [|done].
      unfold mem_ok in *. rewrite M2 in M. auto.
  - assert (i / 32 = (i - 1) / 32) as Ei.
    { symmetry. apply (Z.div_unique _ _ _ ((i - 1) mod 32 + 1)); [|lia].
      assert ((i - 1) mod 32 <> 31); [|lia]. intros E31. apply Hm. symmetry. apply (Z.mod_unique _ _ ((i - 1) / 32 + 1)); lia. }
    cbn [mbind outcome_bind of_option]. rewrite <- Ei in *.
    assert (NoDup (x :: bs)) as Hnd' by (rewrite Eall in Hnd; by apply NoDup_app in Hnd as (_ & _ & ?)).
    destruct (destroy_first h F x bs q v i Hown Hnd' He) as (h2 & -> & O2 & S2 & M2 & E2).
    cbn [mbind outcome_bind]. rewrite u64_add_l.
    destruct (IH h2 (i + 1) x bs pre) as (h' & l & -> & Hl & O & S & M & Hraw); try done;
      replace (i + 1 - 1) with i by lia; try done.
    + rewrite Ht. f_equal. lia.
    + lia.
    + replace (i + 1 + Z.of_nat (length q)) with (i + Z.of_nat (S (length q))) by lia. lia.
    + exists h', l. split; [done|]. split; [done|]. split; [done|]. split; [eauto using same_blocks_trans|]. split; [|done].
      unfold mem_ok in *. rewrite M2 in M. auto.
Qed.

Lemma own_nil h F : own h F [] -> heap_inv h F.
Proof. intros [Hi _]. cbn in Hi. by rewrite union_empty_r_L in Hi. Qed.

Lemma own_single_free h F x b :
  own h F [x] -> blocks h !! x = Some b -> raw b ->
  exists h', add_block_to_free_list h x = Ret h' /\ heap_inv h' F /\ same_blocks F h h' /\ (mem_ok h -> mem_ok h').
Proof.
  intros Ho Hb Hw. destruct (own_pop_first h F x [] b Ho) as (h' & E & (O & S & M) & _); [by apply not_elem_of_nil|done|done|].
  exists h'. split; [done|]. split; [by apply own_nil|]. done.
Qed.

(** The loop from the start: the first element decides the first block. *)
Lemma destroy_all h p q v hd bs F :
  own h F bs -> imp_rep h p (v :: q) hd bs ->
  exists h' l, destroy_elements (length (v :: q)) h p (u64 hd) None = Ret h' /\ last bs = Some l /\
    own h' F [l] /\ same_blocks F h h' /\ (mem_ok h -> mem_ok h') /\ exists b, blocks h' !! l = Some b /\ raw b.
Proof.
  intros Hown Hrep. pose proof Hrep as [Hbase Hcount Hfits Hnd Hblocks Htail Hidx].
  pose proof (br_len _ _ _ Hbase) as Hlen. cbn [length] in *.
  assert (hd / 32 + 1 <= (hd + Z.of_nat (S (length q)) + 31) / 32).
  { replace (hd / 32 + 1) with ((hd + 1 * 32) / 32) by (rewrite Z.div_add by lia; lia). apply Z.div_le_mono; lia. }
  destruct bs as [|x bs]; [cbn [length] in Hcount; lia|].
  unfold idx_rep in Hidx. destruct (blockIndex p) as [|ix ixs] eqn:Ep; [done|]. destruct Hidx as [Hok _].
  cbn [destroy_elements]. rewrite (br_tail _ _ _ Hbase), u64_eqb by lia. destruct (Z.eqb_spec (Z.of_nat (S (length q))) 0); [lia|].
  rewrite orb_true_r. destruct (entry_lookup p ix ixs (hd / 32) (x :: bs) 0 x hd Ep Hok eq_refl ltac:(lia)) as (e & -> & Hblk & _).
  cbn [mbind outcome_bind]. rewrite Hblk. cbn [mbind outcome_bind of_option].
  destruct (destroy_first h F x bs q v hd Hown Hnd) as (h2 & -> & O2 & S2 & M2 & E2).
  { intros k y Hk. destruct (Hblocks k y Hk) as (b & Hb & Hr). exists b. split; [done|]. apply Hr. }
  cbn [mbind outcome_bind]. rewrite u64_add_l.
  destruct (destroy_elements_spec p ix ixs (hd / 32) (x :: bs) F q h2 (hd + 1) x bs []) as (h' & l & -> & Hl & O & S & M & Hraw); try done;
    replace (hd + 1 - 1) with hd by lia; try done.
  - cbn. lia.
  - rewrite (br_tail _ _ _ Hbase). f_equal. cbn [length]. lia.
  - lia.
  - cbn [length] in Hcount. replace (hd + 1 + Z.of_nat (length q)) with (hd + Z.of_nat (S (length q))) by lia. lia.
  - exists h', l. split; [done|]. split; [done|]. split; [done|]. split; [eauto using same_blocks_trans|]. split; [|done].
    unfold mem_ok in *. rewrite M2 in M. auto.
Qed.

Lemma implicit_destroy_spec h p q hd bs F :
  own h F bs -> imp_rep h p q hd bs ->
  exists h', implicit_destroy h p = Ret h' /\ heap_inv h' F /\ same_blocks F h h' /\ (mem_ok h -> mem_ok h').
Proof.
  intros Hown Hrep. pose proof Hrep as [Hbase Hcount Hfits Hnd Hblocks Htail Hidx]. pose proof (br_len _ _ _ Hbase) as Hlen.
  unfold implicit_destroy. rewrite (br_tail _ _ _ Hbase), (br_head _ _ _ Hbase), u64_eqb, circular_gap by lia.
  replace (negb ((Z.of_nat (length q) =? 0) || (0 <? Z.of_nat (length q)))) with false by (zbool; try done; lia).
  assert (Z.to_nat (u64 (hd + Z.of_nat (length q)) -w u64 hd) = length q) as ->.
  { rewrite u64_sub_l, u64_sub_r. replace (hd + Z.of_nat (length q) - hd) with (Z.of_nat (length q)) by lia.
    rewrite u64_small by (unfold is_u64, UINT64_MOD; lia). lia. }
  rewrite land_31, u64_mod_32. destruct q as [|v q].
  - cbn [length destroy_elements Z.of_nat Z.eqb negb orb] in *. rewrite (br_tail _ _ _ Hbase), u64_eqb by lia. cbn [Z.eqb mbind outcome_bind].
    rewrite Z.add_0_r in *. pose proof (Z.div_mod hd 32 ltac:(lia)). pose proof (Z.mod_pos_bound hd 32 ltac:(lia)).
    destruct bs as [|x bs].
    + assert (hd mod 32 = 0) as ->.
      { cbn [length] in Hcount. pose proof (Z.div_mod (hd + 31) 32 ltac:(lia)). pose proof (Z.mod_pos_bound (hd + 31) 32 ltac:(lia)). lia. }
      exists h. split; [by destruct (tailBlock _)|]. split; [by apply own_nil|]. split; [apply same_blocks_refl|done].
    + assert (hd mod 32 <> 0) as Hm.
      { intros Hm. assert ((hd + 31) / 32 = hd / 32); [symmetry; apply (Z.div_unique _ _ _ 31); lia|]. cbn [length] in Hcount. lia. }
      assert (bs = []) as ->.
      { apply length_zero_iff_nil. cbn [length] in Hcount.
        assert ((hd + 31) / 32 = hd / 32 + 1); [symmetry; apply (Z.div_unique _ _ _ (hd mod 32 - 1)); lia|]. lia. }
      rewrite Htail by done. cbn [last]. destruct (Z.eqb_spec (hd mod 32) 0); [lia|]. cbn [negb].
      destruct (Hblocks 0%nat x eq_refl) as (b & Hb & Hr). apply (own_single_free h F x b); [done|done|].
      eapply elem_rep_raw; [apply Hr|]. intros. apply zget_out. cbn. lia.
  - destruct (destroy_all h p q v hd bs F Hown Hrep) as (h' & l & -> & Hl & O & S & M & b & Hb & Hw).
    cbn [mbind outcome_bind]. rewrite Htail, Hl by (by intros ->).
    destruct (Z.eqb_spec (Z.of_nat (length (v :: q))) 0) as [E|_]; [cbn [length] in E; lia|]. cbn [negb orb].
    destruct (own_single_free h' F l b O Hb Hw) as (h'' & E & Hi & S' & M'). exists h''. split; [done|]. split; [done|].
    split; [eauto using same_blocks_trans|auto].
Qed.

(** ** Sequences of operations *)

Inductive IOp :=
  | OEnqueue (allocMode : AllocationMode) (noexcept : bool) (garbage : list bool) (element : option T)
  | ODequeue (throws : bool)
  | OEnqueueBulk (allocMode : AllocationMode) (noexcept : bool) (garbage : nat -> list bool) (items : list (option T))
  | ODequeueBulk (throws : option nat) (max : Z).

Inductive IAnswer := AEnqueue (r : EnqueueResult) | ADequeue (r : DequeueResult T) | ADequeueBulk (l : list T) (threw : bool).

Definition iop_step (s : Heap T * ImplicitProducer) (op : IOp) : outcome (IAnswer * (Heap T * ImplicitProducer)) :=
  let '(h, p) := s in
  match op with
  | OEnqueue allocMode noexcept garbage element =>
      '(r, h, p) ← implicit_enqueue allocMode noexcept garbage h p element; Ret (AEnqueue r, (h, p))
  | ODequeue throws => '(r, h, p) ← implicit_dequeue throws h p; Ret (ADequeue r, (h, p))
  | OEnqueueBulk allocMode _ garbage items =>
      '(r, h, p) ← implicit_enqueue_bulk allocMode garbage h p items; Ret (AEnqueue r, (h, p))
  | ODequeueBulk throws max => '(l, threw, h, p) ← implicit_dequeue_bulk throws h p max; Ret (ADequeueBulk l threw, (h, p))
  end.

Fixpoint iop_run (s : Heap T * ImplicitProducer) (ops : list IOp) : outcome (list IAnswer * (Heap T * ImplicitProducer)) :=
  match ops with
  | [] => Ret ([], s)
  | op :: ops => '(a, s) ← iop_step s op; '(l, s) ← iop_run s ops; Ret (a :: l, s)
  end.

(** The abstract queue: which answers it gives.  Many elements are enqueued all or
    none; as many as there are, at most [max], are dequeued, and those behind a
    failing assignment are lost. *)
Inductive fifo_step : list T -> IOp -> IAnswer -> list T -> Prop :=
  | fifo_enqueue q m n g v : fifo_step q (OEnqueue m n g (Some v)) (AEnqueue Enqueued) (q ++ [v])
  | fifo_refused q m n g e : fifo_step q (OEnqueue m n g e) (AEnqueue Refused) q
  | fifo_threw q m n g : fifo_step q (OEnqueue m n g None) (AEnqueue Threw) q
  | fifo_dequeue q v : fifo_step (v :: q) (ODequeue false) (ADequeue (Dequeued v)) q
  | fifo_lost q v : fifo_step (v :: q) (ODequeue true) (ADequeue AssignThrew) q
  | fifo_empty t : fifo_step [] (ODequeue t) (ADequeue Nothing) []
  | fifo_enqueue_bulk q m n g vs : fifo_step q (OEnqueueBulk m n g (Some <$> vs)) (AEnqueue Enqueued) (q ++ vs)
  | fifo_refused_bulk q m n g items : fifo_step q (OEnqueueBulk m n g items) (AEnqueue Refused) q
  | fifo_threw_bulk q m n g items : None ∈ items -> fifo_step q (OEnqueueBulk m n g items) (AEnqueue Threw) q
  | fifo_dequeue_bulk q throws max :
      let n := Nat.min (length q) (Z.to_nat max) in
      let m := assigned throws n in
      fifo_step q (ODequeueBulk throws max) (ADequeueBulk (take m q) (bool_decide (m < n)%nat)) (drop n q).

Inductive fifo : list T -> list IOp -> list IAnswer -> list T -> Prop :=
  | fifo_done q : fifo q [] [] q
  | fifo_next q op a q1 ops l q' : fifo_step q op a q1 -> fifo q1 ops l q' -> fifo q (op :: ops) (a :: l) q'.

(** A constructor declared [noexcept] does not throw; numbers of elements fit their
    types. *)
Definition op_ok (op : IOp) : Prop :=
  match op with
  | OEnqueue _ true _ e => is_Some e
  | OEnqueueBulk _ _ _ items => Z.of_nat (length items) < 9223372036854775808
  | ODequeueBulk _ max => is_u64 max
  | _ => True
  end.

Definition may_alloc (op : IOp) : Prop :=
  match op with OEnqueue CannotAlloc _ _ _ | OEnqueueBulk CannotAlloc _ _ _ => False | _ => True end.

(** How many elements an operation adds at most. *)
Definition op_size (op : IOp) : Z :=
  match op with OEnqueue _ _ _ _ => 1 | OEnqueueBulk _ _ _ items => Z.of_nat (length items) | _ => 0 end.

Lemma op_size_nonneg ops : 0 <= total op_size ops.
Proof. apply total_nonneg, Forall_forall. intros [| | |] _; cbn; lia. Qed.

Lemma fifo_length q op a q' : fifo_step q op a q' -> Z.of_nat (length q') <= Z.of_nat (length q) + op_size op.
Proof. destruct 1; cbn [op_size]; rewrite ?length_app, ?length_fmap, ?length_drop; cbn [length]; lia. Qed.

Lemma iop_step_spec op h p q hd bs F :
  own h F bs -> imp_rep h p q hd bs -> op_ok op ->
  exists a h' p' q' hd' bs', iop_step (h, p) op = Ret (a, (h', p')) /\ fifo_step q op a q' /\
    stepped F h h' bs' /\ imp_rep h' p' q' hd' bs' /\ (blockIndex p <> [] -> blockIndex p' <> []) /\
    (mem_ok h -> blockIndex p <> [] -> may_alloc op -> Z.of_nat (length q) + op_size op + 32 < 9223372036854775808 -> a <> AEnqueue Refused).
Proof.
  intros Hown Hrep Hop. destruct op as [m n g e|t|m n g items|throws max]; cbn [iop_step op_size].
  - destruct (enqueue_spec m n g h p q hd bs F e Hown Hrep) as (r & h1 & p1 & bs1 & -> & S1 & I1 & R1).
    { intros ->. exact Hop. }
    rewrite ret_bind. destruct r; cbn [enqueue_result] in R1.
    + destruct R1 as (v & -> & R1). eexists _, h1, p1, (q ++ [v]), hd, bs1. split; [done|]. split; [constructor|]. done.
    + destruct R1 as [R1 Hwhy]. eexists _, h1, p1, q, hd, bs1. split; [done|]. split; [constructor|]. do 3 (split; [done|]).
      intros Hm Hp Ha Hlen. exfalso. unfold refusal in Hwhy. destruct m; naive_solver lia.
    + destruct R1 as [R1 ->]. eexists _, h1, p1, q, hd, bs1. split; [done|]. split; [constructor|]. done.
  - destruct q as [|v q].
    + rewrite (dequeue_empty t h p hd bs Hrep), ret_bind. eexists _, h, p, [], hd, bs.
      split; [done|]. split; [constructor|]. split; [by apply stepped_refl|]. done.
    + destruct (dequeue_spec t h p q v hd bs F Hown Hrep) as (h1 & p1 & bs1 & -> & S1 & R1 & I1). rewrite ret_bind.
      eexists _, h1, p1, q, (hd + 1), bs1. rewrite I1. split; [done|]. split; [destruct t; constructor|].
      split; [done|]. split; [done|]. split; [done|by destruct t].
  - destruct (enqueue_bulk_spec m g h p q hd bs F items Hown Hrep Hop) as (r & h1 & p1 & bs1 & -> & S1 & I1 & R1). rewrite ret_bind.
    destruct r; cbn [bulk_result] in R1.
    + destruct R1 as (vs & -> & R1). eexists _, h1, p1, (q ++ vs), hd, bs1. split; [done|]. split; [constructor|]. done.
    + destruct R1 as [R1 Hwhy]. eexists _, h1, p1, q, hd, bs1. split; [done|]. split; [constructor|]. do 3 (split; [done|]).
      intros Hm Hp Ha Hlen. exfalso. destruct m; naive_solver lia.
    + destruct R1 as [R1 Hn]. eexists _, h1, p1, q, hd, bs1. split; [done|]. split; [by constructor|]. done.
  - destruct (dequeue_bulk_spec throws h p q hd bs F max Hown Hrep Hop) as (h1 & p1 & bs1 & -> & S1 & R1 & I1). rewrite ret_bind.
    eexists _, h1, p1, _, _, bs1. rewrite I1. split; [done|]. split; [constructor|]. done.
Qed.

Lemma iop_run_spec ops : forall h p q hd bs F,
  own h F bs -> imp_rep h p q hd bs -> Forall op_ok ops ->
  exists l h' p' q' hd' bs', iop_run (h, p) ops = Ret (l, (h', p')) /\ fifo q ops l q' /\
    stepped F h h' bs' /\ imp_rep h' p' q' hd' bs' /\
    (mem_ok h -> blockIndex p <> [] -> Forall may_alloc ops ->
     Z.of_nat (length q) + total op_size ops + 32 < 9223372036854775808 -> AEnqueue Refused ∉ l).
Proof.
  induction ops as [|op ops IH]; intros h p q hd bs F Hown Hrep Hops.
  { eexists [], h, p, q, hd, bs. split; [done|]. split; [constructor|]. split; [by apply stepped_refl|]. split; [done|]. intros. apply not_elem_of_nil. }
  apply Forall_cons in Hops as [Hop Hops].
  destruct (iop_step_spec op h p q hd bs F Hown Hrep Hop) as (a & h1 & p1 & q1 & hd1 & bs1 & E1 & F1 & S1 & R1 & I1 & N1).
  destruct (IH h1 p1 q1 hd1 bs1 F (proj1 S1) R1 Hops) as (l & h2 & p2 & q2 & hd2 & bs2 & E2 & F2 & S2 & R2 & N2).
  cbn [iop_run]. rewrite E1, ret_bind, E2, ret_bind. pose proof (fifo_length _ _ _ _ F1).
  eexists (a :: l), h2, p2, q2, hd2, bs2. split; [done|]. split; [by econstructor|]. split; [by eapply stepped_trans|]. split; [done|].
  intros Hm Hp [Ha1 Ha2]%Forall_cons Hlen. cbn [total] in Hlen. pose proof (op_size_nonneg ops). apply not_elem_of_cons. split.
  - intros E. apply N1; [done|done|done|lia|by symmetry].
  - apply N2; [by apply S1|auto|done|lia].
Qed.
End Trace.

Arguments IOp : clear implicits.
Arguments IAnswer : clear implicits.

(** C22: Any sequence of operations of a new implicit producer, one element or many at a
    time, returns without a failed assertion, a bad pointer or a read of raw memory,
    and answers as a first-in first-out queue in which many elements are enqueued all
    or none; without failing allocations no element is refused; and the destructor
    gives every block back, however many elements are left. *)
Theorem implicit_producer_is_fifo {T} (h : Heap T) (F : gset nat) (ops : list (IOp T)) :
  heap_inv h F -> Forall op_ok ops ->
  exists h0 p0 l h1 p1 q h2,
    implicit_init h = Ret (h0, p0) /\ iop_run (h0, p0) ops = Ret (l, (h1, p1)) /\ fifo [] ops l q /\
    implicit_destroy h1 p1 = Ret h2 /\ heap_inv h2 F /\ same_blocks F h h2 /\
    (mem_ok h -> Forall may_alloc ops -> total op_size ops + 32 < 9223372036854775808 -> AEnqueue Refused ∉ l).
Proof.
  intros Hi Hops. destruct (implicit_init_spec h F Hi) as (h0 & p0 & E0 & (O0 & S0 & M0) & R0 & I0).
  destruct (iop_run_spec ops h0 p0 [] 0 [] F O0 R0 Hops) as (l & h1 & p1 & q & hd & bs & E1 & Hf & (O1 & S1 & M1) & R1 & Hn).
  destruct (implicit_destroy_spec h1 p1 q hd bs F O1 R1) as (h2 & E2 & Hi2 & S2 & M2).
  exists h0, p0, l, h1, p1, q, h2. split; [done|]. split; [done|]. split; [done|]. split; [done|]. split; [done|].
  split; [eauto using same_blocks_trans|]. intros Hm Ha Hlen. apply Hn; auto.
Qed.

(** Elements in and out, one or many at a time, some of which throw, with one block in
    the pool. *)
Definition demo_iops : list (IOp Z) :=
  [OEnqueue CanAlloc false [] (Some 7); OEnqueue CanAlloc true [] (Some 8); ODequeue false; OEnqueue CanAlloc false [] None;
   OEnqueueBulk CanAlloc false (fun _ => []) (map (fun n => Some (Z.of_nat n)) (seq 0 70)); ODequeueBulk (Some 50%nat) 60;
   OEnqueueBulk CanAlloc false (fun _ => []) [Some 1; None]; ODequeueBulk None 100].

Lemma implicit_producer_is_fifo_witness :
  exists h0 p0 l h1 p1 q h2,
    implicit_init (populate_initial_block_list (Heap_empty []) 1 []) = Ret (h0, p0) /\ iop_run (h0, p0) demo_iops = Ret (l, (h1, p1)) /\
    fifo [] demo_iops l q /\ implicit_destroy h1 p1 = Ret h2 /\ heap_inv h2 ∅ /\
    same_blocks ∅ (populate_initial_block_list (Heap_empty []) 1 []) h2 /\
    (mem_ok (populate_initial_block_list (Heap_empty []) 1 [] : Heap Z) -> Forall may_alloc demo_iops ->
     total op_size demo_iops + 32 < 9223372036854775808 -> AEnqueue Refused ∉ l).
Proof.
  apply (implicit_producer_is_fifo (populate_initial_block_list (Heap_empty []) 1 []) ∅ demo_iops).
  - apply populate_spec. lia.
  - repeat (constructor; [first [exact I | by eexists | by vm_compute]|]). constructor.
Defined.
