(* ===== verification/ExplicitProducer.v ===== *)
(** * The producer behind a token (concurrentqueue.h, struct ExplicitProducer)

    The blocks form a ring through [next]; [tailBlock] is the block the producer
    fills, the blocks after it are old ones that may be empty again.  A circular
    index of pairs of a first index and a block finds the block of an element.
    [exp_headers] lists the index headers, the current one first: a larger index
    is a copy, the old ones are only kept to be freed.  The producer's own view of
    the current index is in the fields [pr_...]. *)
From S2P Require Import Prelude QueueDetails QueueBlock Producer ImplicitProducer.

(** ** State *)

Record ExplicitEntry := mkExpEntry { ee_base : Z; ee_block : nat }.

(** An entry nothing was stored in is [None]. *)
Record ExplicitHeader := mkExpHeader { eh_size : Z; eh_front : Z; eh_entries : list (option ExplicitEntry) }.

Record ExplicitProducer := mkExplicit {
  exp_base : ProducerBase;
  exp_headers : list ExplicitHeader;
  pr_blockIndexSlotsUsed : Z;
  pr_blockIndexSize : Z;
  pr_blockIndexFront : Z }.

Definition set_exp_base (p : ExplicitProducer) (b : ProducerBase) : ExplicitProducer :=
  mkExplicit b (exp_headers p) (pr_blockIndexSlotsUsed p) (pr_blockIndexSize p) (pr_blockIndexFront p).
Definition set_slots_used (p : ExplicitProducer) (n : Z) : ExplicitProducer :=
  mkExplicit (exp_base p) (exp_headers p) n (pr_blockIndexSize p) (pr_blockIndexFront p).
Definition set_pr_front (p : ExplicitProducer) (n : Z) : ExplicitProducer :=
  mkExplicit (exp_base p) (exp_headers p) (pr_blockIndexSlotsUsed p) (pr_blockIndexSize p) n.
Definition set_exp_headers (p : ExplicitProducer) (l : list ExplicitHeader) : ExplicitProducer :=
  mkExplicit (exp_base p) l (pr_blockIndexSlotsUsed p) (pr_blockIndexSize p) (pr_blockIndexFront p).

Definition current_header (p : ExplicitProducer) : outcome ExplicitHeader :=
  of_option BadPointer (head (exp_headers p)).

(** [entries[i]], an entry that was stored. *)
Definition exp_entry (hd : ExplicitHeader) (i : Z) : outcome ExplicitEntry :=
  o ← of_option OutOfBounds (eh_entries hd !! Z.to_nat i); of_option BadPointer o.

(** [blockIndex->entries[pr_blockIndexFront] = (base, block)], then the front moves
    on; [publish] is whether the front of the header is stored too. *)
Definition add_index_entry (publish : bool) (p : ExplicitProducer) (base : Z) (block : nat) : outcome ExplicitProducer :=
  hd ← current_header p;
  let i := pr_blockIndexFront p in
  if Z.of_nat (length (eh_entries hd)) <=? i then Fault OutOfBounds
  else
    let hd := mkExpHeader (eh_size hd) (if publish then i else eh_front hd)
                (<[Z.to_nat i := Some (mkExpEntry base block)]> (eh_entries hd)) in
    Ret (set_pr_front (set_exp_headers p (hd :: tail (exp_headers p)))
           (Z.land (i +w 1) (pr_blockIndexSize p -w 1))).

(** The copying loop of [new_block_index]: from slot [i] to the front. *)
Fixpoint copy_entries (fuel : nat) (entries : list (option ExplicitEntry)) (i front mask : Z) : outcome (list (option ExplicitEntry)) :=
  match fuel with
  | O => Fault Diverges
  | S fuel =>
      e ← of_option OutOfBounds (entries !! Z.to_nat i);
      let i := Z.land (i +w 1) mask in
      if i =? front then Ret [e] else rest ← copy_entries fuel entries i front mask; Ret (e :: rest)
  end.

Section Explicit.
Context {T : Type}.

Definition explicit_new_block_index (h : Heap T) (p : ExplicitProducer) (numberOfFilledSlotsToExpose : Z)
    : outcome (bool * Heap T * ExplicitProducer) :=
  let prevBlockSizeMask := pr_blockIndexSize p -w 1 in
  let size := u64 (Z.shiftl (pr_blockIndexSize p) 1) in
  let '(ok, h) := malloc h in
  if negb ok then
    Ret (false, h, mkExplicit (exp_base p) (exp_headers p) (pr_blockIndexSlotsUsed p) (Z.shiftr size 1) (pr_blockIndexFront p))
  else
    copied ←
      (if pr_blockIndexSlotsUsed p =? 0 then Ret []
       else
         hd ← current_header p;
         copy_entries (Z.to_nat (pr_blockIndexSize p)) (eh_entries hd)
           (Z.land (pr_blockIndexFront p -w pr_blockIndexSlotsUsed p) prevBlockSizeMask) (pr_blockIndexFront p) prevBlockSizeMask);
    let header := mkExpHeader size (numberOfFilledSlotsToExpose -w 1)
                    (copied ++ replicate (Z.to_nat size - length copied) None) in
    Ret (true, h, mkExplicit (exp_base p) (header :: exp_headers p) (pr_blockIndexSlotsUsed p) size (Z.of_nat (length copied))).

(** The constructor. *)
Definition explicit_init (h : Heap T) : outcome (Heap T * ExplicitProducer) :=
  let size := Z.shiftr EXPLICIT_INITIAL_INDEX_SIZE 1 in
  let poolBasedIndexSize := Z.shiftr (ceil_to_pow_2 (initialBlockPoolSize h)) 1 in
  let size := if size <? poolBasedIndexSize then poolBasedIndexSize else size in
  '(_, h, p) ← explicit_new_block_index h (mkExplicit base_init [] 0 size 0) 0;
  Ret (h, p).

(** [block->next], which must be a block. *)
Definition next_block (h : Heap T) (x : nat) : outcome nat := b ← get_block h x; of_option BadPointer (next b).

Definition reset_block (ctx : InnerQueueContext) (h : Heap T) (x : nat) : outcome (Heap T) :=
  b ← get_block h x; Ret (put_block h x (reset_empty ctx b)).

Definition link (h : Heap T) (x : nat) (o : option nat) : outcome (Heap T) :=
  b ← get_block h x; Ret (put_block h x (set_next b o)).

(** The new block is put in the ring behind the tail block. *)
Definition insert_in_ring (h : Heap T) (tail : option nat) (x : nat) : outcome (Heap T) :=
  match tail with
  | None => link h x (Some x)
  | Some t => n ← next_block h t; h ← link h x (Some n); link h t (Some x)
  end.

(** The first half of [enqueue] at the start of a block: the block to use.  The
    result is [None] when the element is refused. *)
Definition explicit_take_block (allocMode : AllocationMode) (garbage : list bool) (h : Heap T) (p : ExplicitProducer)
    : outcome (option nat * Heap T * ExplicitProducer) :=
  let currentTailIndex := tailIndex (exp_base p) in
  ahead ← match tailBlock (exp_base p) with
          | None => Ret None
          | Some t =>
              x ← next_block h t; b ← get_block h x; e ← is_empty explicit_context b;
              Ret (if (e : bool) then Some x else None)
          end;
  match ahead with
  | Some x =>
      h ← reset_block explicit_context h x;
      Ret (Some x, h, set_exp_base p (set_tailBlock (exp_base p) (Some x)))
  | None =>
      let head := headIndex (exp_base p) in
      if circular_less_than currentTailIndex head then Fault AssertFailed
      else if subqueue_full head currentTailIndex then Ret (None, h, p)
      else
        '(ok, h, p) ←
          (if match exp_headers p with [] => true | _ => pr_blockIndexSlotsUsed p =? pr_blockIndexSize p end then
             match allocMode with
             | CannotAlloc => Ret (false, h, p)
             | CanAlloc => explicit_new_block_index h p (pr_blockIndexSlotsUsed p)
             end
           else Ret (true, h, p));
        if negb (ok : bool) then Ret (None, h, p)
        else
          '(newBlock, h) ← requisition_block allocMode garbage h;
          match newBlock with
          | None => Ret (None, h, p)
          | Some x =>
              h ← reset_block explicit_context h x;
              h ← insert_in_ring h (tailBlock (exp_base p)) x;
              Ret (Some x, h,
                   set_slots_used (set_exp_base p (set_tailBlock (exp_base p) (Some x))) (pr_blockIndexSlotsUsed p +w 1))
          end
  end.

(** The end of [enqueue]: construct the element in the tail block and publish it. *)
Definition explicit_at_tail (h : Heap T) (p : ExplicitProducer) (element : option T)
    : outcome (EnqueueResult * Heap T * ExplicitProducer) :=
  let currentTailIndex := tailIndex (exp_base p) in
  match element with
  | None => Ret (Threw, h, p)
  | Some v =>
      x ← of_option BadPointer (tailBlock (exp_base p));
      h ← construct_object h x currentTailIndex v;
      Ret (Enqueued, h, set_exp_base p (set_tailIndex (exp_base p) (1 +w currentTailIndex)))
  end.

Definition explicit_enqueue (allocMode : AllocationMode) (noexcept : bool) (garbage : list bool) (h : Heap T) (p : ExplicitProducer)
    (element : option T) : outcome (EnqueueResult * Heap T * ExplicitProducer) :=
  let currentTailIndex := tailIndex (exp_base p) in
  if Z.land currentTailIndex (BLOCK_SIZE - 1) =? 0 then
    let startBlock := tailBlock (exp_base p) in
    let originalBlockIndexSlotsUsed := pr_blockIndexSlotsUsed p in
    '(o, h, p) ← explicit_take_block allocMode garbage h p;
    match o with
    | None => Ret (Refused, h, p)
    | Some x =>
        if negb noexcept then
          match element with
          | None =>
              let tb := match startBlock with None => tailBlock (exp_base p) | Some _ => startBlock end in
              Ret (Threw, h, set_exp_base (set_slots_used p originalBlockIndexSlotsUsed) (set_tailBlock (exp_base p) tb))
          | Some v =>
              h ← construct_object h x currentTailIndex v;
              p ← add_index_entry true p currentTailIndex x;
              Ret (Enqueued, h, set_exp_base p (set_tailIndex (exp_base p) (1 +w currentTailIndex)))
          end
        else
          p ← add_index_entry true p currentTailIndex x;
          explicit_at_tail h p element
    end
  else explicit_at_tail h p element.

(** The slot of the block of [index], from the current header. *)
Definition explicit_slot (hd : ExplicitHeader) (index : Z) : outcome Z :=
  e ← exp_entry hd (eh_front hd);
  let offset := (block_start index -w ee_base e) / BLOCK_SIZE in
  Ret (Z.land (eh_front hd +w offset) (eh_size hd -w 1)).

Definition explicit_dequeue (throws : bool) (h : Heap T) (p : ExplicitProducer) : outcome (DequeueResult T * Heap T * ExplicitProducer) :=
  match claim_one (exp_base p) with
  | (None, b) => Ret (Nothing, h, set_exp_base p b)
  | (Some index, b) =>
      let p := set_exp_base p b in
      hd ← current_header p;
      i ← explicit_slot hd index;
      e ← exp_entry hd i;
      let x := ee_block e in
      el ← read_object h x index;
      h ← destroy_object h x index;
      blk ← get_block h x;
      '(_, blk) ← set_empty explicit_context blk index;
      Ret (if throws then AssignThrew else Dequeued el, put_block h x blk, p)
  end.

(** ** Destruction *)

(** [while (circular_less_than(entries[i].base + BLOCK_SIZE, head))]: the slot of the
    block that is partly dequeued. *)
Fixpoint find_half (fuel : nat) (hd : ExplicitHeader) (i head mask : Z) : outcome Z :=
  match fuel with
  | O => Fault Diverges
  | S fuel =>
      e ← exp_entry hd i;
      if circular_less_than (ee_base e +w BLOCK_SIZE) head then find_half fuel hd (Z.land (i +w 1) mask) head mask else Ret i
  end.

(** [while (i != BLOCK_SIZE && (block != tailBlock || i != lastValidIndex))] *)
Fixpoint destroy_from (fuel : nat) (h : Heap T) (x : nat) (i stop : Z) : outcome (Heap T) :=
  if i =? stop then Ret h
  else match fuel with
  | O => Fault Diverges
  | S fuel => h ← destroy_object h x i; destroy_from fuel h x (i + 1) stop
  end.

(** The elements of the ring, from the block after [x] to the tail block. *)
Fixpoint destroy_ring (fuel : nat) (h : Heap T) (p : ExplicitProducer) (half : option nat) (tail x : nat) : outcome (Heap T) :=
  match fuel with
  | O => Fault Diverges
  | S fuel =>
      x ← next_block h x;
      b ← get_block h x;
      e ← is_empty explicit_context b;
      h ← (if (e : bool) then Ret h
           else
             let i := if bool_decide (half = Some x) then Z.land (headIndex (exp_base p)) (BLOCK_SIZE - 1) else 0 in
             let t := Z.land (tailIndex (exp_base p)) (BLOCK_SIZE - 1) in
             let lastValidIndex := if t =? 0 then BLOCK_SIZE else t in
             destroy_from (Z.to_nat BLOCK_SIZE) h x i (if bool_decide (x = tail) then lastValidIndex else BLOCK_SIZE));
      if bool_decide (x = tail) then Ret h else destroy_ring fuel h p half tail x
  end.

(** The blocks of the ring, from [x] on: allocated ones are freed, those of the
    initial pool go to the free list. *)
Fixpoint free_ring (fuel : nat) (h : Heap T) (tail x : nat) : outcome (Heap T) :=
  match fuel with
  | O => Fault Diverges
  | S fuel =>
      nextBlock ← next_block h x;
      b ← get_block h x;
      h ← (if dynamicallyAllocated b then Ret (set_blocks h (delete x (blocks h))) else add_block_to_free_list h x);
      if bool_decide (nextBlock = tail) then Ret h else free_ring fuel h tail nextBlock
  end.

(** [fuel] bounds the number of blocks of the ring and of slots of the index. *)
Definition explicit_destroy (fuel : nat) (h : Heap T) (p : ExplicitProducer) : outcome (Heap T) :=
  match tailBlock (exp_base p) with
  | None => Ret h
  | Some t =>
      let head := headIndex (exp_base p) in
      half ←
        (if Z.land head (BLOCK_SIZE - 1) =? 0 then Ret None
         else
           hd ← current_header p;
           let mask := pr_blockIndexSize p -w 1 in
           i ← find_half fuel hd (Z.land (pr_blockIndexFront p -w pr_blockIndexSlotsUsed p) mask) head mask;
           e ← exp_entry hd i;
           if circular_less_than (ee_base e) head then Ret (Some (ee_block e)) else Fault AssertFailed);
      h ← destroy_ring fuel h p half t t;
      free_ring fuel h t t
  end.
End Explicit.
