(* ===== verification/ExplicitSpec.v ===== *)
(** * What an explicit producer promises (concurrentqueue.h, struct ExplicitProducer)

    [exp_rep] ties a producer to the list of its elements: the ring of blocks, the
    empty flags and the block index.  As long as constructors do not throw,
    [explicit_enqueue] appends to the list and [explicit_dequeue] takes its head. *)
From S2P Require Import Prelude QueueDetails QueueBlock Producer ImplicitProducer ImplicitIndex ImplicitSpec ExplicitProducer.

(** ** Empty flags *)

(** The flags of block number [j] when the elements below [hd] are gone.  They are in
    reverse order. *)
Definition flags_at (hd j : Z) : list bool := (fun f => 32 * j + 31 - Z.of_nat f <? hd) <$> seq 0 32.
Arguments flags_at : simpl never.
Arguments slots : simpl never.

Lemma flags_lookup hd j f : flags_at hd j !! f = if decide (f < 32)%nat then Some (32 * j + 31 - Z.of_nat f <? hd) else None.
Proof.
  unfold flags_at. rewrite list_lookup_fmap. case_decide.
  - by rewrite lookup_seq_lt.
  - by rewrite lookup_seq_ge by lia.
Qed.

Lemma flags_length hd j : length (flags_at hd j) = 32%nat.
Proof. unfold flags_at. by rewrite length_fmap, length_seq. Qed.

Lemma flags_ext hd hd' j j' :
  (forall f, (f < 32)%nat -> (32 * j + 31 - Z.of_nat f <? hd) = (32 * j' + 31 - Z.of_nat f <? hd')) -> flags_at hd j = flags_at hd' j'.
Proof. intros H. apply list_eq. intros f. rewrite !flags_lookup. case_decide; [|done]. f_equal. auto. Qed.

Lemma flags_empty hd j : forallb id (flags_at hd j) = (32 * j + 31 <? hd).
Proof.
  destruct (Z.ltb_spec (32 * j + 31) hd) as [H|H].
  - apply forallb_forall. intros b Hb%list_elem_of_In%list_elem_of_lookup. destruct Hb as [f Hf]. rewrite flags_lookup in Hf.
    case_decide; [|done]. injection Hf as <-. apply Z.ltb_lt. lia.
  - apply not_true_is_false. intros Hall. rewrite forallb_forall in Hall. specialize (Hall (32 * j + 31 - Z.of_nat 0 <? hd)).
    cbn in Hall. rewrite Z.sub_0_r in Hall. zbool; [lia|]. discriminate Hall. apply list_elem_of_In, list_elem_of_lookup. exists 0%nat.
    rewrite flags_lookup. cbn. rewrite Z.sub_0_r. f_equal. by apply Z.ltb_ge.
Qed.

Lemma flags_reset hd j : hd <= 32 * j -> flags_at hd j = replicate (Z.to_nat BLOCK_SIZE) false.
Proof.
  intros H. apply list_eq. intros f. rewrite flags_lookup. case_decide.
  - rewrite lookup_replicate_2 by done. f_equal. apply Z.ltb_ge. lia.
  - symmetry. apply lookup_ge_None_2. rewrite length_replicate. unfold BLOCK_SIZE. lia.
Qed.

Lemma flag_of_u64 i : flag_of (u64 i) = (31 - Z.to_nat (i mod 32))%nat.
Proof.
  unfold flag_of. rewrite offset_u64. unfold BLOCK_SIZE. pose proof (Z.mod_pos_bound i 32 ltac:(lia)). lia.
Qed.

(** The flag of the oldest element. *)
Lemma flags_set hd : flags_at hd (hd / 32) !! flag_of (u64 hd) = Some false /\
  <[flag_of (u64 hd) := true]> (flags_at hd (hd / 32)) = flags_at (hd + 1) (hd / 32).
Proof.
  pose proof (Z.mod_pos_bound hd 32 ltac:(lia)). pose proof (Z.div_mod hd 32 ltac:(lia)). rewrite flag_of_u64. split.
  - rewrite flags_lookup, decide_True by lia. f_equal. apply Z.ltb_ge. lia.
  - apply list_eq. intros f. rewrite list_lookup_insert, !flags_lookup, flags_length.
    repeat case_decide; try done; try lia; f_equal; zbool; try done; lia.
Qed.

Lemma flags_other hd j : j <> hd / 32 -> flags_at (hd + 1) j = flags_at hd j.
Proof.
  intros Hj. apply flags_ext. intros f Hf. pose proof (Z.mod_pos_bound hd 32 ltac:(lia)). pose proof (Z.div_mod hd 32 ltac:(lia)).
  zbool; try done; lia.
Qed.

(** ** Blocks of the ring *)

(** The block after position [i] of the ring. *)
Definition succ_in (ring : list nat) (i : nat) : option nat := if decide (S i < length ring)%nat then ring !! S i else head ring.

Lemma succ_rotate x ring i : (i < length ring)%nat -> succ_in (ring ++ [x]) i = succ_in (x :: ring) (S i).
Proof.
  intros Hi. unfold succ_in. rewrite length_app. cbn [length]. rewrite decide_True by lia. case_decide.
  - cbn. by rewrite lookup_app_l by lia.
  - rewrite lookup_app_r by lia. by replace (S i - length ring)%nat with 0%nat by lia.
Qed.

Lemma succ_rotate_last x ring : succ_in (ring ++ [x]) (length ring) = succ_in (x :: ring) 0.
Proof. unfold succ_in. rewrite length_app. cbn [length]. rewrite decide_False by lia. by destruct ring. Qed.

Lemma succ_push x ring i : (S i < length ring)%nat -> succ_in (ring ++ [x]) i = succ_in ring i.
Proof. intros Hi. unfold succ_in. rewrite length_app. cbn [length]. rewrite !decide_True by lia. by rewrite lookup_app_l. Qed.

Lemma succ_push_last x ring : ring <> [] -> succ_in (ring ++ [x]) (length ring - 1) = Some x.
Proof.
  intros Hne. destruct ring as [|y ring]; [done|]. unfold succ_in. rewrite length_app. cbn [length]. rewrite decide_True by lia.
  replace (S (S (length ring) - 1)) with (length (y :: ring)) by (cbn; lia). by apply list_lookup_middle.
Qed.

(** ** The block index *)

(** The entries of the blocks of the ring are the last ones before the front. *)
Record entries_ok (es : list (option ExplicitEntry)) (size front : Z) (ring : list nat) (first : Z) : Prop := mk_entries_ok {
  en_size : exists c, 0 <= c <= 59 /\ size = 2 ^ c;
  en_length : Z.of_nat (length es) = size;
  en_room : Z.of_nat (length ring) <= size;
  en_front : 0 <= front < size;
  en_at : forall k x, ring !! k = Some x ->
    es !! Z.to_nat ((front - Z.of_nat (length ring) + Z.of_nat k) mod size) = Some (Some (mkExpEntry (u64 (32 * (first + Z.of_nat k))) x)) }.

(** The number of slots used, and the entries behind the current header; without a
    header, its allocation failed so far. *)
Definition slots_rep (p : ExplicitProducer) (ring : list nat) (first : Z) : Prop :=
  pr_blockIndexSlotsUsed p = Z.of_nat (length ring) /\
  match exp_headers p with
  | [] => ring = [] /\ pr_blockIndexFront p = 0 /\ exists c, 0 <= c <= 58 /\ pr_blockIndexSize p = 2 ^ c
  | hdr :: _ => eh_size hdr = pr_blockIndexSize p /\
      entries_ok (eh_entries hdr) (pr_blockIndexSize p) (pr_blockIndexFront p) ring first
  end.

(** Consumers see the last entry. *)
Definition eindex_rep (p : ExplicitProducer) (ring : list nat) (first : Z) : Prop :=
  pr_blockIndexSlotsUsed p = Z.of_nat (length ring) /\
  match exp_headers p with
  | [] => ring = [] /\ pr_blockIndexFront p = 0 /\ exists c, 0 <= c <= 58 /\ pr_blockIndexSize p = 2 ^ c
  | hdr :: _ => eh_size hdr = pr_blockIndexSize p /\
      entries_ok (eh_entries hdr) (pr_blockIndexSize p) (pr_blockIndexFront p) ring first /\
      (ring <> [] -> eh_front hdr = (pr_blockIndexFront p - 1) mod pr_blockIndexSize p)
  end.

Lemma eindex_slots p ring first : eindex_rep p ring first -> slots_rep p ring first.
Proof. intros [Hu Hh]. split; [done|]. destruct (exp_headers p); [done|]. by destruct Hh as (? & ? & _). Qed.

Lemma size_pos es size front ring first : entries_ok es size front ring first -> 0 < size <= 2 ^ 59.
Proof. intros H. destruct (en_size _ _ _ _ _ H) as (c & Hc & ->). split; [apply Z.pow_pos_nonneg; lia|apply Z.pow_le_mono_r; lia]. Qed.

Lemma land_size es size front ring first z : entries_ok es size front ring first -> Z.land (u64 z) (size -w 1) = z mod size.
Proof.
  intros H. pose proof (size_pos _ _ _ _ _ H). rewrite (u64_small (size - 1)) by (unfold is_u64, UINT64_MOD; lia).
  destruct (en_size _ _ _ _ _ H) as (c & Hc & ->). rewrite land_pow by lia. apply u64_mod_pow. lia.
Qed.

(** Two positions less than a round apart are the same slot only if they are equal. *)
Lemma mod_inj a b n : 0 < n -> a mod n = b mod n -> - n < a - b < n -> a = b.
Proof.
  intros Hn He Hd. assert ((a - b) mod n = 0) as E by (rewrite Zminus_mod, He, Z.sub_diag; apply Z.mod_0_l; lia).
  apply Z.mod_divide in E as [k Hk]; [|lia]. assert (k = 0) by nia. nia.
Qed.

(** A new entry at the front, with room made by forgetting the first [d] blocks. *)
Lemma entries_push es size front ring first x d :
  entries_ok es size front ring first -> (d <= length ring)%nat -> Z.of_nat (length ring) + 1 - Z.of_nat d <= size ->
  entries_ok (<[Z.to_nat front := Some (mkExpEntry (u64 (32 * (first + Z.of_nat (length ring)))) x)]> es) size ((front + 1) mod size)
    (drop d (ring ++ [x])) (first + Z.of_nat d).
Proof.
  intros Hok Hd Hroom. pose proof (size_pos _ _ _ _ _ Hok). pose proof Hok as [Hs Hl Hr Hf Ha].
  constructor; rewrite ?length_insert, ?length_drop, ?length_app; cbn [length]; try done; [lia|by apply Z.mod_pos_bound; lia|].
  intros k y Hk. rewrite lookup_drop in Hk. pose proof (lookup_lt_Some _ _ _ Hk) as Hlt. rewrite length_app in Hlt. cbn [length] in Hlt.
  replace (_ mod size) with ((front - Z.of_nat (length ring) + Z.of_nat (d + k)) mod size).
  2:{ rewrite <- Zplus_mod_idemp_l, <- (Zplus_mod_idemp_l (_ - _)), Zminus_mod_idemp_l, Zplus_mod_idemp_l, Zplus_mod_idemp_l. f_equal. lia. }
  pose proof (Z.mod_pos_bound (front - Z.of_nat (length ring) + Z.of_nat (d + k)) size ltac:(lia)).
  apply lookup_app_Some in Hk as [Hk|[Hge Hk]].
  - pose proof (lookup_lt_Some _ _ _ Hk). rewrite list_lookup_insert_ne.
    + rewrite (Ha _ _ Hk). do 4 f_equal. lia.
    + intros E. apply (f_equal Z.of_nat) in E. rewrite !Z2Nat.id in E by lia. rewrite <- (Z.mod_small front size) in E at 1 by lia.
      apply mod_inj in E; lia.
  - apply list_lookup_singleton_Some in Hk as [Ek <-]. replace (front - _ + _) with front by lia. rewrite Z.mod_small by lia.
    rewrite list_lookup_insert_eq by lia. do 4 f_equal. lia.
Qed.

(** The copying loop, from position [k] of the ring. *)
Lemma copy_spec es size front ring first : entries_ok es size front ring first -> forall n fuel k,
  (k + S n = length ring)%nat -> (n < fuel)%nat ->
  exists l, copy_entries fuel es ((front - Z.of_nat (length ring) + Z.of_nat k) mod size) front (size -w 1) = Ret l /\ length l = S n /\
    forall i x, ring !! (k + i)%nat = Some x -> l !! i = Some (Some (mkExpEntry (u64 (32 * (first + Z.of_nat (k + i)))) x)).
Proof.
  intros Hok. pose proof (size_pos _ _ _ _ _ Hok). pose proof Hok as [Hs Hl Hr Hf Ha].
  induction n as [|n IH]; intros [|fuel] k Hk Hfuel; try lia; cbn [copy_entries];
    (destruct (lookup_lt_is_Some_2 ring k) as [x Hx]; [lia|]); rewrite (Ha _ _ Hx); cbn [of_option mbind outcome_bind];
    rewrite (land_size _ _ _ _ _ _ Hok), Zplus_mod_idemp_l;
    replace (front - Z.of_nat (length ring) + Z.of_nat k + 1) with (front - Z.of_nat (length ring) + Z.of_nat (S k)) by lia.
  - replace (front - _ + _) with front by lia. rewrite Z.mod_small, Z.eqb_refl by lia. eexists. split; [done|]. split; [done|].
    intros i y Hi. destruct i as [|i]; [rewrite Nat.add_0_r in *; cbn; congruence|].
    apply lookup_lt_Some in Hi. lia.
  - destruct (Z.eqb_spec ((front - Z.of_nat (length ring) + Z.of_nat (S k)) mod size) front) as [E|E].
    { rewrite <- (Z.mod_small front size) in E at 2 by lia. apply mod_inj in E; lia. }
    destruct (IH fuel (S k)) as (l & -> & Hlen & Hat); [lia|lia|]. cbn [mbind outcome_bind]. eexists. split; [done|]. cbn [length].
    split; [lia|]. intros [|i] y Hi; [rewrite Nat.add_0_r in *; cbn; congruence|]. cbn. rewrite <- Nat.add_succ_comm in *. by apply Hat.
Qed.

Section Spec.
Context {T : Type}.
Implicit Types (h : Heap T) (q : list T).

Record eblock_rep (b : Block T) (hd : Z) q (j : Z) : Prop := mk_eblock_rep {
  eb_flags : emptyFlags b = flags_at hd j;
  eb_elements : elements b = slots (fun i => zget q (32 * j + Z.of_nat i - hd)) }.

Lemma eb_length b hd q j : eblock_rep b hd q j -> length (elements b) = Z.to_nat BLOCK_SIZE.
Proof. intros [_ ->]. by rewrite slots_length. Qed.

Lemma eblock_push b hd q v t :
  t = hd + Z.of_nat (length q) -> eblock_rep b hd q (t / 32) -> eblock_rep (block_set b (u64 t) (Some v)) hd (q ++ [v]) (t / 32).
Proof.
  intros Et [Hf He]. constructor; [exact Hf|]. cbn. rewrite He, offset_u64.
  pose proof (Z.mod_pos_bound t 32 ltac:(lia)). pose proof (Z.div_mod t 32 ltac:(lia)).
  rewrite slots_insert by lia. apply slots_ext. intros i Hi. rewrite zget_app. case_decide; zbool; try done; lia.
Qed.

Lemma eblock_push_other b hd q v j :
  eblock_rep b hd q j -> j <> (hd + Z.of_nat (length q)) / 32 -> eblock_rep b hd (q ++ [v]) j.
Proof.
  intros [Hf He] Hj. constructor; [done|]. rewrite He. apply slots_ext. intros i Hi. rewrite zget_app.
  pose proof (Z.div_mod (hd + Z.of_nat (length q)) 32 ltac:(lia)). pose proof (Z.mod_pos_bound (hd + Z.of_nat (length q)) 32 ltac:(lia)).
  zbool; [lia|done].
Qed.

(** A raw block becomes the one behind the last element. *)
Lemma eblock_reset b hd q t :
  raw b -> t = hd + Z.of_nat (length q) -> t mod 32 = 0 -> eblock_rep (reset_empty explicit_context b) hd q (t / 32).
Proof.
  intros Hr Et Hm. pose proof (Z.div_mod t 32 ltac:(lia)). constructor; cbn [reset_empty emptyFlags elements set_emptyFlags].
  - symmetry. apply flags_reset. lia.
  - rewrite Hr. symmetry. apply slots_none. intros i Hi. apply zget_out. lia.
Qed.

(** The oldest element is destroyed. *)
Lemma eblock_pop b hd q v :
  eblock_rep b hd (v :: q) (hd / 32) ->
  block_get b (u64 hd) = Some v /\
  exists b', set_empty explicit_context (block_set b (u64 hd) None) (u64 hd) = Ret (false, b') /\ eblock_rep b' (hd + 1) q (hd / 32) /\
    next b' = next b /\ freeListRefs b' = freeListRefs b /\ dynamicallyAllocated b' = dynamicallyAllocated b.
Proof.
  intros [Hf He]. pose proof (Z.mod_pos_bound hd 32 ltac:(lia)). pose proof (Z.div_mod hd 32 ltac:(lia)).
  destruct (flags_set hd) as [Hl Hs]. split.
  - unfold block_get. rewrite He, offset_u64, slots_lookup, decide_True by lia. cbn. rewrite zget_cons. zbool; [done|lia].
  - eexists. cbn [set_empty block_set set_elements emptyFlags]. rewrite Hf, Hl, Hs. split; [done|]. split; [|done].
    constructor; [done|]. cbn. rewrite He, offset_u64, slots_insert by lia. apply slots_ext. intros i Hi.
    rewrite zget_cons. case_decide; [rewrite zget_out by lia; done|]. zbool; [lia|]. f_equal. lia.
Qed.

Lemma eblock_pop_other b hd q v j : eblock_rep b hd (v :: q) j -> j <> hd / 32 -> eblock_rep b (hd + 1) q j.
Proof.
  intros [Hf He] Hj. pose proof (Z.mod_pos_bound hd 32 ltac:(lia)). pose proof (Z.div_mod hd 32 ltac:(lia)).
  constructor; [by rewrite Hf, flags_other|]. rewrite He. apply slots_ext. intros i Hi. rewrite zget_cons. zbool; [lia|]. f_equal. lia.
Qed.

Lemma eblock_gone b hd q j : eblock_rep b hd q j -> 32 * j + 31 < hd -> raw b.
Proof. intros [_ He] Hj. unfold raw. rewrite He. apply slots_none. intros i Hi. apply zget_out. lia. Qed.

(** [first] is the number of the first block of the ring. *)
Definition ring_rep h (ring : list nat) (first hd : Z) q : Prop :=
  forall i x, ring !! i = Some x -> exists b, blocks h !! x = Some b /\ next b = succ_in ring i /\ eblock_rep b hd q (first + Z.of_nat i).

Lemma ring_rep_same h h' ring first hd q :
  same_blocks (list_to_set ring) h h' -> ring_rep h ring first hd q -> ring_rep h' ring first hd q.
Proof.
  intros Hs Hr i x Hi. destruct (Hr i x Hi) as (b & Hb & Hn & He). exists b. rewrite Hs; [done|].
  apply elem_of_list_to_set. by eapply list_elem_of_lookup_2.
Qed.

(** Writing the block at position [i] of the ring. *)
Lemma ring_put h F ring i x b b0 :
  own h F ring -> ring !! i = Some x -> blocks h !! x = Some b0 -> freeListRefs b = 0 -> dynamicallyAllocated b = dynamicallyAllocated b0 ->
  length (elements b) = Z.to_nat BLOCK_SIZE -> stepped F h (put_block h x b) ring.
Proof. intros Ho Hi Hb0 Hr Hd Hl. eapply own_write; try done. by eapply list_elem_of_lookup_2. Qed.

(** *** Growing the index *)

Lemma grown_entries ring first size copied :
  (exists c, 0 <= c <= 58 /\ size = 2 ^ c) -> Z.of_nat (length ring) <= size -> length copied = length ring ->
  (forall i x, ring !! i = Some x -> copied !! i = Some (Some (mkExpEntry (u64 (32 * (first + Z.of_nat i))) x))) ->
  entries_ok (copied ++ replicate (Z.to_nat (2 * size) - length copied) None) (2 * size) (Z.of_nat (length ring)) ring first.
Proof.
  intros (c & Hc & ->) Hr Hl Ha. assert (0 < 2 ^ c) by (apply Z.pow_pos_nonneg; lia). constructor; try lia.
  - exists (c + 1). split; [lia|]. rewrite Z.pow_add_r by lia. lia.
  - rewrite length_app, length_replicate. lia.
  - intros k x Hk. pose proof (lookup_lt_Some _ _ _ Hk). rewrite Z.sub_diag, Z.add_0_l, Z.mod_small by lia. rewrite Nat2Z.id.
    rewrite lookup_app_l by lia. by apply Ha.
Qed.

Lemma new_slots_spec h p ring first n :
  slots_rep p ring first -> pr_blockIndexSize p <= 2 ^ 58 ->
  exists ok h' p', explicit_new_block_index h p n = Ret (ok, h', p') /\ mem_only h h' /\ exp_base p' = exp_base p /\
    (mem_ok h -> ok = true) /\ slots_rep p' ring first /\
    (if (ok : bool) then Z.of_nat (length ring) < pr_blockIndexSize p' /\ pr_blockIndexFront p' = Z.of_nat (length ring) /\
       exists hdr hdrs, exp_headers p' = hdr :: hdrs /\ eh_front hdr = n -w 1
     else p' = p).
Proof.
  intros [Hu Hh] Hs58. assert (exists c, 0 <= c <= 58 /\ pr_blockIndexSize p = 2 ^ c) as (c & Hc & Es).
  { destruct (exp_headers p); [by destruct Hh as (_ & _ & ?)|]. destruct Hh as (_ & Hok).
    destruct (en_size _ _ _ _ _ Hok) as (c & Hc & E). exists c. split; [|done]. split; [lia|]. rewrite E in Hs58.
    apply Z.pow_le_mono_r_iff in Hs58; lia. }
  assert (0 < 2 ^ c <= 2 ^ 58) by (split; [apply Z.pow_pos_nonneg; lia|apply Z.pow_le_mono_r; lia]).
  assert (u64 (Z.shiftl (pr_blockIndexSize p) 1) = 2 * pr_blockIndexSize p) as Esh.
  { rewrite Z.shiftl_mul_pow2 by lia. change (2 ^ 1) with 2. rewrite u64_small; [lia|]. unfold is_u64, UINT64_MOD. lia. }
  unfold explicit_new_block_index. rewrite Esh. pose proof (malloc_spec h) as Hm. destruct (malloc h) as [ok h']. destruct Hm as [Hm Hok].
  destruct ok; cbn [negb].
  - assert (exists copied, (if pr_blockIndexSlotsUsed p =? 0 then Ret [] else hd ← current_header p;
        copy_entries (Z.to_nat (pr_blockIndexSize p)) (eh_entries hd)
          (Z.land (pr_blockIndexFront p -w pr_blockIndexSlotsUsed p) (pr_blockIndexSize p -w 1)) (pr_blockIndexFront p) (pr_blockIndexSize p -w 1)) = Ret copied /\
        length copied = length ring /\
        forall i x, ring !! i = Some x -> copied !! i = Some (Some (mkExpEntry (u64 (32 * (first + Z.of_nat i))) x))) as (copied & -> & Hl & Hat).
    { rewrite Hu. destruct ring as [|y ring]; [by exists []|].
      destruct (exp_headers p) as [|hdr hdrs] eqn:Eh; [by destruct Hh|]. destruct Hh as (_ & He). unfold current_header. rewrite Eh.
      destruct (Z.eqb_spec (Z.of_nat (length (y :: ring))) 0) as [E0|_]; [cbn in E0; lia|]. cbn [head of_option mbind outcome_bind].
      rewrite (land_size _ _ _ _ _ _ He). pose proof (en_room _ _ _ _ _ He).
      destruct (copy_spec _ _ _ _ _ He (length ring) (Z.to_nat (pr_blockIndexSize p)) 0) as (l & E & Hlen & Hat); [done|cbn in *; lia|].
      rewrite Z.add_0_r in E. exists l. split; [exact E|]. split; [exact Hlen|]. intros i x Hi. by apply (Hat i x). }
    cbn [mbind outcome_bind]. eexists true, h', _. split; [done|]. split; [done|]. split; [done|]. split; [done|].
    assert (Z.of_nat (length ring) <= pr_blockIndexSize p) as Hroom.
    { destruct (exp_headers p); [destruct Hh as (-> & _); cbn; lia|]. destruct Hh as (_ & He). apply He. }
    cbn [pr_blockIndexSize exp_headers]. split.
    + split; [exact Hu|]. cbn [exp_headers eh_size eh_entries eh_front pr_blockIndexSize pr_blockIndexFront]. split; [done|].
      pose proof (grown_entries ring first (pr_blockIndexSize p) copied ltac:(by exists c) Hroom Hl Hat) as G. by rewrite <- Hl in G at 1.
    + split; [lia|]. split; [cbn; by rewrite Hl|]. by eexists _, _.
  - exists false, h', p.
    assert (Z.shiftr (2 * pr_blockIndexSize p) 1 = pr_blockIndexSize p) as ->.
    { rewrite Z.shiftr_div_pow2 by lia. change (2 ^ 1) with 2. rewrite Z.mul_comm. by apply Z.div_mul. }
    split; [by destruct p|]. done.
Qed.

Lemma explicit_new_block_index_spec h p ring first :
  eindex_rep p ring first -> pr_blockIndexSize p <= 2 ^ 58 ->
  exists ok h' p', explicit_new_block_index h p (pr_blockIndexSlotsUsed p) = Ret (ok, h', p') /\ mem_only h h' /\ exp_base p' = exp_base p /\
    (mem_ok h -> ok = true) /\ eindex_rep p' ring first /\
    (ok = true -> Z.of_nat (length ring) < pr_blockIndexSize p' /\ exp_headers p' <> []).
Proof.
  intros Hi Hs. destruct (new_slots_spec h p ring first (pr_blockIndexSlotsUsed p) (eindex_slots _ _ _ Hi) Hs)
    as (ok & h' & p' & E & Hm & Eb & Hok & Hsl & Ho). exists ok, h', p'. do 4 (split; [done|]). destruct ok; [|by subst p'].
  destruct Ho as (Hlt & Ef & hdr & hdrs & Eh & Efr). split; [|by rewrite Eh]. destruct Hsl as [Hu Hh]. split; [done|]. rewrite Eh in *.
  destruct Hh as [Es He]. split; [done|]. split; [done|]. intros Hne. pose proof (size_pos _ _ _ _ _ He). rewrite Efr, (proj1 Hi), Ef.
  destruct ring; [done|]. cbn [length] in *. rewrite Z.mod_small by lia. apply u64_small. unfold is_u64, UINT64_MOD. lia.
Qed.

(** *** Looking up a block *)

Lemma exp_entry_Ret hdr i e : eh_entries hdr !! Z.to_nat i = Some (Some e) -> exp_entry hdr i = Ret e.
Proof. unfold exp_entry. by intros ->. Qed.

Lemma entry_find hdr front ring first k x i :
  entries_ok (eh_entries hdr) (eh_size hdr) front ring first -> eh_front hdr = (front - 1) mod eh_size hdr ->
  ring !! k = Some x -> i / 32 = first + Z.of_nat k ->
  let s := (front - Z.of_nat (length ring) + Z.of_nat k) mod eh_size hdr in
  exists e, explicit_slot hdr (u64 i) = Ret s /\ exp_entry hdr s = Ret e /\ ee_block e = x.
Proof.
  intros Hok Hfront Hk Hi s. subst s. pose proof (size_pos _ _ _ _ _ Hok). pose proof (lookup_lt_Some _ _ _ Hk) as Hlt.
  destruct (en_size _ _ _ _ _ Hok) as (c & Hc & Es).
  destruct (lookup_lt_is_Some_2 ring (length ring - 1)) as [y Hy]; [lia|]. pose proof (en_at _ _ _ _ _ Hok _ _ Hy) as Hlast.
  replace (front - Z.of_nat (length ring) + Z.of_nat (length ring - 1)) with (front - 1) in Hlast by lia. rewrite <- Hfront in Hlast.
  unfold explicit_slot. rewrite (exp_entry_Ret _ _ _ Hlast). cbn [mbind outcome_bind ee_base].
  exists (mkExpEntry (u64 (32 * (first + Z.of_nat k))) x). split; [|split; [apply exp_entry_Ret, (en_at _ _ _ _ _ Hok k x Hk)|done]].
  f_equal. rewrite (land_size _ _ _ _ _ _ Hok).
  rewrite block_start_u64, u64_sub_l, u64_sub_r. unfold BLOCK_SIZE. rewrite u64_div_32.
  replace (32 * (i / 32) - 32 * (first + Z.of_nat (length ring - 1))) with ((i / 32 - (first + Z.of_nat (length ring - 1))) * 32) by lia.
  rewrite Z.div_mul by lia. rewrite Hfront, Zplus_mod_idemp_l, Es. rewrite <- Zplus_mod_idemp_r.
  replace (2 ^ 59) with (2 ^ c * 2 ^ (59 - c)) by (rewrite <- Z.pow_add_r by lia; f_equal; lia).
  rewrite Z.rem_mul_r by (apply Z.pow_nonzero || apply Z.pow_pos_nonneg; lia).
  rewrite Zplus_mod_idemp_r, Z.add_assoc, (Z.mul_comm (2 ^ c)), Z_mod_plus_full, Zplus_mod_idemp_r. f_equal. lia.
Qed.

(** ** The producer and its elements *)

(** The number of the first block of the ring, when the next index is [t]. *)
Definition first_of (ring : list nat) (t : Z) : Z := (t + 31) / 32 - Z.of_nat (length ring).

Record exp_rep h (p : ExplicitProducer) q (hd : Z) (ring : list nat) : Prop := mk_exp_rep {
  xr_base : base_rep (exp_base p) hd (Z.of_nat (length q));
  xr_first : 32 * first_of ring (hd + Z.of_nat (length q)) <= hd;
  xr_fits : 32 * ((hd + Z.of_nat (length q) + 31) / 32) - hd < 9223372036854775808;
  xr_nodup : NoDup ring;
  xr_length : Z.of_nat (length ring) <= 288230376151711744;
  xr_ring : ring_rep h ring (first_of ring (hd + Z.of_nat (length q))) hd q;
  xr_tail : tailBlock (exp_base p) = last ring;
  xr_index : eindex_rep p ring (first_of ring (hd + Z.of_nat (length q))) }.

Lemma exp_rep_frame h h' p q hd ring : same_blocks (list_to_set ring) h h' -> exp_rep h p q hd ring -> exp_rep h' p q hd ring.
Proof. intros Hs [? ? ? ? ? Hr ? ?]. constructor; try done. by eapply ring_rep_same. Qed.

(** ** Dequeue *)

Lemma exp_dequeue_empty throws h p hd ring : exp_rep h p [] hd ring -> explicit_dequeue throws h p = Ret (Nothing, h, p).
Proof.
  intros R. pose proof (claim_one_spec _ _ _ (xr_base _ _ _ _ _ R)) as E. cbn in E. unfold explicit_dequeue. rewrite E. by destruct p.
Qed.

(** The block of the oldest element, after the element was destroyed. *)
Lemma ring_pop h F ring first hd q v k x :
  own h F ring -> NoDup ring -> ring_rep h ring first hd (v :: q) -> ring !! k = Some x -> hd / 32 = first + Z.of_nat k ->
  exists h1 b b', read_object h x (u64 hd) = Ret v /\ destroy_object h x (u64 hd) = Ret h1 /\ get_block h1 x = Ret b /\
    set_empty explicit_context b (u64 hd) = Ret (false, b') /\ stepped F h (put_block h1 x b') ring /\
    ring_rep (put_block h1 x b') ring first (hd + 1) q.
Proof.
  intros Hown Hnd Hr Hk Hj. destruct (Hr k x Hk) as (b & Hb & Hn & He). rewrite <- Hj in He.
  destruct (eblock_pop b hd q v He) as (Hget & b' & Hset & He' & En & Er & Ed).
  pose proof (own_refs _ _ _ _ _ _ Hown Hk Hb) as Hrefs.
  exists (put_block h x (block_set b (u64 hd) None)), (block_set b (u64 hd) None), b'.
  unfold read_object, destroy_object. rewrite (get_block_Ret _ _ _ Hb). cbn [mbind outcome_bind]. rewrite Hget. cbn [of_option mbind outcome_bind].
  split; [done|]. split; [done|]. split; [apply get_block_Ret; by rewrite put_block_lookup, decide_True|]. split; [done|].
  replace (put_block (put_block _ _ _) _ _) with (put_block h x b') by (unfold put_block, set_blocks; cbn; by rewrite insert_insert_eq).
  split; [eapply ring_put; try done; [congruence|by eapply eb_length]|].
  intros i y Hi. rewrite put_block_lookup. case_decide as E.
  - subst y. rewrite (NoDup_lookup _ _ _ _ Hnd Hi Hk) in *. exists b'. split; [done|]. split; [congruence|]. by rewrite <- Hj.
  - destruct (Hr i y Hi) as (c & Hc & Hnc & Hec). exists c. split; [done|]. split; [done|]. apply (eblock_pop_other _ _ _ v); [done|].
    rewrite Hj. intros Ei. apply E. assert (i = k) as -> by lia. congruence.
Qed.

Lemma exp_dequeue_spec throws h p q v hd ring F :
  own h F ring -> exp_rep h p (v :: q) hd ring ->
  exists h' p', explicit_dequeue throws h p = Ret (if throws then AssignThrew else Dequeued v, h', p') /\
    stepped F h h' ring /\ exp_rep h' p' q (hd + 1) ring.
Proof.
  intros Hown [Hbase Hfirst Hfits Hnd Hlen Hr Htail [Hu Hidx]]. cbn [length] in *. unfold first_of in *.
  assert (hd + Z.of_nat (S (length q)) = hd + 1 + Z.of_nat (length q)) as Et by lia.
  set (t := hd + Z.of_nat (S (length q))) in *. set (first := (t + 31) / 32 - Z.of_nat (length ring)) in *.
  assert (hd / 32 + 1 <= (t + 31) / 32).
  { replace (hd / 32 + 1) with ((hd + 1 * 32) / 32) by (rewrite Z.div_add by lia; lia). apply Z.div_le_mono; lia. }
  assert (first <= hd / 32) by (apply Z.div_le_lower_bound; lia).
  set (k := Z.to_nat (hd / 32 - first)). destruct (lookup_lt_is_Some_2 ring k) as [x Hx]; [lia|].
  unfold explicit_dequeue. pose proof (claim_one_spec _ _ _ Hbase) as Hclaim.
  destruct (Z.eqb_spec (Z.of_nat (S (length q))) 0); [lia|]. destruct Hclaim as (b1 & -> & Hb1 & Etb).
  unfold current_header. cbn [set_exp_base exp_headers]. destruct (exp_headers p) as [|hdr hdrs] eqn:Eh; [destruct Hidx as [-> _]; done|].
  destruct Hidx as (Es & Hok & Hfront). cbn [head of_option mbind outcome_bind]. rewrite <- Es in *.
  destruct (entry_find hdr _ ring first k x hd Hok) as (e & -> & He & Ex); [apply Hfront; by intros ->|done|lia|].
  cbn [mbind outcome_bind]. rewrite He. cbn [mbind outcome_bind]. rewrite Ex.
  destruct (ring_pop h F ring first hd q v k x Hown Hnd Hr Hx ltac:(lia)) as (h1 & b & b' & -> & -> & Hg & Hs & S1 & R1).
  cbn [mbind outcome_bind]. rewrite Hg. cbn [mbind outcome_bind]. rewrite Hs. cbn [mbind outcome_bind].
  eexists _, _. split; [done|]. split; [done|].
  constructor; unfold first_of; cbn [set_exp_base exp_base]; rewrite <- ?Et; fold t; fold first; try done; try lia; [| |].
  - by replace (Z.of_nat (S (length q)) - 1) with (Z.of_nat (length q)) in Hb1 by lia.
  - by rewrite Etb.
  - split; [exact Hu|]. cbn [set_exp_base exp_headers]. rewrite Eh. cbn. by rewrite <- Es.
Qed.

(** ** Enqueue *)

Lemma link_Ret h x b o : blocks h !! x = Some b -> link h x o = Ret (put_block h x (set_next b o)).
Proof. intros Hb. unfold link. by rewrite (get_block_Ret _ _ _ Hb). Qed.

Lemma reset_Ret h x b : blocks h !! x = Some b -> reset_block explicit_context h x = Ret (put_block h x (reset_empty explicit_context b)).
Proof. intros Hb. unfold reset_block. by rewrite (get_block_Ret _ _ _ Hb). Qed.

Lemma last_at {A} (l : list A) x : last l = Some x -> l !! (length l - 1)%nat = Some x.
Proof. intros H. rewrite last_lookup in H. by rewrite <- Nat.sub_1_r in H. Qed.

Lemma set_next_same (b : Block T) o : next b = o -> set_next b o = b.
Proof. intros <-. by destruct b. Qed.

(** [x] is linked behind the last block of the ring; nothing else of the blocks changes. *)
Lemma insert_in_ring_spec h F ring x b :
  own h F (ring ++ [x]) -> x ∉ ring -> NoDup ring ->
  (forall i y, ring !! i = Some y -> exists b, blocks h !! y = Some b /\ next b = succ_in ring i /\ length (elements b) = Z.to_nat BLOCK_SIZE) ->
  blocks h !! x = Some b -> length (elements b) = Z.to_nat BLOCK_SIZE ->
  exists h', insert_in_ring h (last ring) x = Ret h' /\ stepped F h h' (ring ++ [x]) /\
    forall i y, (ring ++ [x]) !! i = Some y -> exists b, blocks h !! y = Some b /\ blocks h' !! y = Some (set_next b (succ_in (ring ++ [x]) i)).
Proof.
  intros Hown Hx Hnd Hr Hb Hl. assert ((ring ++ [x]) !! length ring = Some x) as Hxk by (by apply list_lookup_middle).
  assert (forall k y c o, (ring ++ [x]) !! k = Some y -> blocks h !! y = Some c -> length (elements c) = Z.to_nat BLOCK_SIZE -> forall h1, stepped F h h1 (ring ++ [x]) ->
    blocks h1 !! y = Some c -> stepped F h (put_block h1 y (set_next c o)) (ring ++ [x])) as Hput.
  { intros k y c o Hk Hc Hlc h1 S1 Hc1. eapply stepped_trans; [exact S1|]. eapply ring_put; [apply S1|exact Hk|exact Hc1| |done|done].
    change (freeListRefs c = 0). by eapply own_refs. }
  destruct (last ring) as [tb|] eqn:El; cbn [insert_in_ring].
  - pose proof (last_at _ _ El) as Htb. destruct (Hr _ _ Htb) as (bt & Hbt & Hnt & Hlt). pose proof (lookup_lt_Some _ _ _ Htb).
    assert (next bt = head ring) as Hnt' by (rewrite Hnt; unfold succ_in; by rewrite decide_False by lia).
    destruct (head ring) as [y|] eqn:Ehd; [|by destruct ring]. unfold next_block. rewrite (get_block_Ret _ _ _ Hbt). cbn [mbind outcome_bind].
    rewrite Hnt'. cbn [of_option mbind outcome_bind]. rewrite (link_Ret _ _ _ _ Hb). cbn [mbind outcome_bind]. remember (put_block h x _) as h1 eqn:E1.
    assert (tb <> x) as Hne by (intros ->; apply Hx; by eapply list_elem_of_lookup_2).
    assert (blocks h1 !! tb = Some bt) as Hbt1 by (subst h1; by rewrite put_block_lookup, decide_False).
    rewrite (link_Ret _ _ _ _ Hbt1). eexists. split; [done|]. split.
    { eapply (Hput (length ring - 1)%nat); [by apply lookup_app_l_Some|done|done| |done]. subst h1. eapply Hput; try done. }
    intros i z Hi. rewrite put_block_lookup, E1, put_block_lookup. apply lookup_app_Some in Hi as [Hi|[Hge Hi]].
    + destruct (Hr i z Hi) as (c & Hc & Hnc & _). pose proof (lookup_lt_Some _ _ _ Hi). exists c. split; [done|]. case_decide as E.
      * subst z. assert (i = length ring - 1)%nat as -> by (by eapply NoDup_lookup). rewrite succ_push_last by (by intros ->). congruence.
      * rewrite decide_False by (intros ->; apply Hx; by eapply list_elem_of_lookup_2). rewrite Hc. f_equal. symmetry. apply set_next_same.
        rewrite Hnc. symmetry. apply succ_push. assert (i <> length ring - 1)%nat; [|lia]. intros ->. apply E. congruence.
    + apply list_lookup_singleton_Some in Hi as [Ei <-]. exists b. split; [done|]. rewrite decide_False, decide_True by done. do 2 f_equal.
      unfold succ_in. rewrite length_app. cbn [length]. rewrite decide_False by lia. rewrite <- Ehd. by destruct ring.
  - apply last_None in El as ->. cbn [app] in *. rewrite (link_Ret _ _ _ _ Hb). eexists. split; [done|]. split.
    { eapply Hput; try done. }
    intros i z Hi. apply list_lookup_singleton_Some in Hi as [-> <-]. exists b. split; [done|]. by rewrite put_block_lookup, decide_True.
Qed.

(** A new block behind the tail block. *)
Lemma ring_insert h F ring first hd q x b :
  let t := hd + Z.of_nat (length q) in
  own h F (ring ++ [x]) -> NoDup (ring ++ [x]) -> ring_rep h ring first hd q -> blocks h !! x = Some b -> raw b -> freeListRefs b = 0 ->
  t mod 32 = 0 -> first + Z.of_nat (length ring) = t / 32 ->
  exists h', (h ← reset_block explicit_context h x; insert_in_ring h (last ring) x) = Ret h' /\
    stepped F h h' (ring ++ [x]) /\ ring_rep h' (ring ++ [x]) first hd q.
Proof.
  intros t Hown Hnd Hr Hb Hw Hrefs Ht Hj. pose proof (eblock_reset b hd q t Hw eq_refl Ht) as He. set (b1 := reset_empty explicit_context b) in *.
  apply NoDup_app in Hnd as (Hnd & Hx & _). assert (x ∉ ring) as Hx' by (intros Hin; apply (Hx x Hin); by left).
  rewrite (reset_Ret _ _ _ Hb). cbn [mbind outcome_bind]. fold b1. set (h1 := put_block h x b1).
  assert (stepped F h h1 (ring ++ [x])) as S1 by (eapply ring_put; [done|by apply list_lookup_middle|exact Hb|done|done|by eapply eb_length]).
  assert (forall i y, ring !! i = Some y -> blocks h1 !! y = blocks h !! y) as Hsame.
  { intros i y Hi. subst h1. rewrite put_block_lookup, decide_False; [done|]. intros ->. by apply list_elem_of_lookup_2 in Hi. }
  destruct (insert_in_ring_spec h1 F ring x b1) as (h2 & E & S2 & H2); try done.
  - apply S1.
  - intros i y Hi. destruct (Hr i y Hi) as (c & Hc & Hn & Hec). exists c. rewrite (Hsame i y Hi). split; [done|]. split; [done|by eapply eb_length].
  - subst h1. by rewrite put_block_lookup, decide_True.
  - by eapply eb_length.
  - exists h2. split; [done|]. split; [by eapply stepped_trans|]. intros i y Hi. destruct (H2 i y Hi) as (c & Hc & Hc'). exists (set_next c (succ_in (ring ++ [x]) i)).
    split; [done|]. split; [done|]. assert (eblock_rep c hd q (first + Z.of_nat i)) as [? ?]; [|by constructor].
    apply lookup_app_Some in Hi as [Hi|[Hge Hi]].
    + rewrite (Hsame i y Hi) in Hc. destruct (Hr i y Hi) as (c' & Hc1 & _ & ?). congruence.
    + apply list_lookup_singleton_Some in Hi as [Ei <-]. subst h1. rewrite put_block_lookup, decide_True in Hc by done. injection Hc as <-.
      by replace (first + Z.of_nat i) with (t / 32) by lia.
Qed.
End Spec.
