(* ===== verification/ExplicitEnqueue.v ===== *)
(** * Enqueue with an explicit producer

    [explicit_take_block] finds the block for the next element, [explicit_enqueue]
    publishes the element in it. *)
From S2P Require Import Prelude QueueDetails QueueBlock Producer ImplicitProducer ImplicitIndex ImplicitSpec ExplicitProducer ExplicitSpec.

Section Enqueue.
Context {T : Type}.
Implicit Types (h : Heap T) (q : list T).

(** The tail block [x] is ready for the next element, at the start of a block; it is
    not in the index yet. *)
Record ready h (p : ExplicitProducer) q (hd : Z) (ring : list nat) (x : nat) : Prop := mk_ready {
  rd_base : base_rep (exp_base p) hd (Z.of_nat (length q));
  rd_first : 32 * ((hd + Z.of_nat (length q)) / 32 + 1 - Z.of_nat (length ring)) <= hd;
  rd_nodup : NoDup ring;
  rd_length : Z.of_nat (length ring) <= 288230376151711744;
  rd_ring : ring_rep h ring ((hd + Z.of_nat (length q)) / 32 + 1 - Z.of_nat (length ring)) hd q;
  rd_tail : tailBlock (exp_base p) = Some x;
  rd_last : last ring = Some x;
  rd_slots : pr_blockIndexSlotsUsed p = Z.of_nat (length ring);
  rd_index : exists hdr hdrs old d first, exp_headers p = hdr :: hdrs /\ eh_size hdr = pr_blockIndexSize p /\
    entries_ok (eh_entries hdr) (pr_blockIndexSize p) (pr_blockIndexFront p) old first /\ (d <= length old)%nat /\
    Z.of_nat (length old) + 1 - Z.of_nat d <= pr_blockIndexSize p /\ ring = drop d (old ++ [x]) /\
    first + Z.of_nat (length old) = (hd + Z.of_nat (length q)) / 32 }.

(** The element in its block. *)
Lemma ring_construct h F ring first hd q x v :
  let t := hd + Z.of_nat (length q) in
  own h F ring -> NoDup ring -> ring_rep h ring first hd q -> last ring = Some x -> first + Z.of_nat (length ring) = t / 32 + 1 ->
  exists h', construct_object h x (u64 t) v = Ret h' /\ stepped F h h' ring /\ ring_rep h' ring first hd (q ++ [v]).
Proof.
  intros t Hown Hnd Hr Hl Hj. pose proof (last_at _ _ Hl) as Hk. pose proof (lookup_lt_Some _ _ _ Hk) as Hlt.
  destruct (Hr _ _ Hk) as (b & Hb & Hn & He). replace (first + Z.of_nat (length ring - 1)) with (t / 32) in He by lia.
  unfold construct_object. rewrite (get_block_Ret _ _ _ Hb). cbn [mbind outcome_bind]. eexists. split; [done|].
  apply (eblock_push _ _ _ v t eq_refl) in He. split.
  - eapply ring_put; [done|exact Hk|exact Hb|exact (own_refs _ _ _ _ _ _ Hown Hk Hb)|done|by eapply eb_length].
  - intros i y Hi. rewrite put_block_lookup. case_decide as E.
    + subst y. rewrite (NoDup_lookup _ _ _ _ Hnd Hi Hk) in *. eexists. split; [done|]. split; [exact Hn|].
      by replace (first + Z.of_nat (length ring - 1)) with (t / 32) by lia.
    + destruct (Hr i y Hi) as (c & Hc & Hnc & Hec). exists c. split; [done|]. split; [done|]. apply eblock_push_other; [done|].
      fold t. intros Ei. apply E. assert (i = length ring - 1)%nat as -> by lia. congruence.
Qed.

Lemma base_push (b : ProducerBase) hd n : base_rep b hd n -> n + 1 < 9223372036854775808 ->
  base_rep (set_tailIndex b (1 +w u64 (hd + n))) hd (n + 1).
Proof.
  intros [Eh Et Ec Hn] Hm. constructor; cbn; [done| |done|lia].
  rewrite Z.add_comm, u64_add_l. f_equal. lia.
Qed.

(** The entry in the index. *)
Lemma publish_index h p q hd ring x :
  let t := hd + Z.of_nat (length q) in
  ready h p q hd ring x -> t mod 32 = 0 ->
  exists p', add_index_entry true p (u64 t) x = Ret p' /\ exp_base p' = exp_base p /\
    eindex_rep p' ring (t / 32 + 1 - Z.of_nat (length ring)).
Proof.
  intros t [_ _ _ _ _ _ _ Hs (hdr & hdrs & old & d & first & Eh & Es & Hok & Hd & Hroom & -> & Hj)] Ht.
  pose proof (size_pos _ _ _ _ _ Hok) as Hp. pose proof (en_front _ _ _ _ _ Hok) as Hf. pose proof (en_length _ _ _ _ _ Hok) as Hl.
  unfold add_index_entry, current_header. rewrite Eh. cbn [head of_option mbind outcome_bind].
  destruct (Z.leb_spec (Z.of_nat (length (eh_entries hdr))) (pr_blockIndexFront p)); [lia|]. eexists. split; [done|]. split; [done|].
  pose proof (entries_push _ _ _ _ _ x d Hok Hd Hroom) as Hpush. rewrite Hj in Hpush. fold t in Hj, Hpush.
  replace (32 * (t / 32)) with t in Hpush by (pose proof (Z.div_mod t 32 ltac:(lia)); lia).
  split; [exact Hs|]. cbn [set_pr_front set_exp_headers exp_headers eh_size eh_entries eh_front pr_blockIndexSize pr_blockIndexFront].
  rewrite (land_size _ _ _ _ _ _ Hok). split; [done|]. split.
  - rewrite length_drop, length_app. cbn [length].
    by replace (t / 32 + 1 - Z.of_nat (length old + 1 - d)) with (first + Z.of_nat d) by lia.
  - intros _. rewrite Zminus_mod_idemp_l. replace (pr_blockIndexFront p + 1 - 1) with (pr_blockIndexFront p) by lia. by rewrite Z.mod_small.
Qed.

Lemma publish h F p q hd ring x v :
  let t := hd + Z.of_nat (length q) in
  own h F ring -> ready h p q hd ring x -> t mod 32 = 0 -> Z.of_nat (length q) + 32 < 9223372036854775808 ->
  exists h' p', construct_object h x (u64 t) v = Ret h' /\ add_index_entry true p (u64 t) x = Ret p' /\ exp_base p' = exp_base p /\
    stepped F h h' ring /\ exp_rep h' (set_exp_base p' (set_tailIndex (exp_base p') (1 +w u64 t))) (q ++ [v]) hd ring.
Proof.
  intros t Hown Hrd Ht Hroom. destruct (publish_index h p q hd ring x Hrd Ht) as (p' & E & Eb & Hi). fold t in E, Hi.
  destruct Hrd as [Hbase Hfirst Hnd Hlen Hr Htail Hlast _ _]. fold t in Hfirst, Hr.
  destruct (ring_construct h F ring _ hd q x v Hown Hnd Hr Hlast) as (h' & Ec & S & R'); [fold t; lia|].
  exists h', p'. split; [done|]. split; [done|]. split; [done|]. split; [done|].
  pose proof (Z.div_mod t 32 ltac:(lia)).
  assert ((hd + Z.of_nat (length (q ++ [v])) + 31) / 32 = t / 32 + 1) as E1.
  { rewrite length_app. cbn [length]. symmetry. apply (Z.div_unique _ _ _ 0); lia. }
  constructor; unfold first_of; rewrite ?E1; cbn [set_exp_base exp_base]; rewrite ?Eb; try done.
  - rewrite length_app. cbn [length]. rewrite Nat2Z.inj_add. apply base_push; [done|lia].
  - lia.
  - cbn. by rewrite Htail.
Qed.

(** ** The block for the next element *)

Lemma own_perm h F bs bs' : bs ≡ₚ bs' -> own h F bs -> own h F bs'.
Proof. intros Hp [Hi Hd]. unfold own. by rewrite <- (list_to_set_perm_L (C := gset nat) _ _ Hp). Qed.

(** The block ahead is used again. *)
Lemma reuse_block h F p q hd x ring :
  let t := hd + Z.of_nat (length q) in
  own h F (x :: ring) -> exp_rep h p q hd (x :: ring) -> t mod 32 = 0 -> 32 * first_of (x :: ring) t + 31 < hd ->
  exists h1, reset_block explicit_context h x = Ret h1 /\ stepped F h h1 (ring ++ [x]) /\
    ready h1 (set_exp_base p (set_tailBlock (exp_base p) (Some x))) q hd (ring ++ [x]) x.
Proof.
  intros t Hown [Hbase Hfirst Hfits Hnd Hlen Hr Htail [Hu Hidx]] Ht Hempty. fold t in Hfirst, Hfits, Hr, Hidx.
  pose proof (Z.div_mod t 32 ltac:(lia)). unfold first_of in *.
  assert ((t + 31) / 32 = t / 32) as E31 by (symmetry; apply (Z.div_unique _ _ _ 31); lia). rewrite E31 in *. cbn [length] in *.
  assert (x :: ring ≡ₚ ring ++ [x]) as Hp by (by rewrite Permutation_app_comm).
  destruct (Hr 0%nat x eq_refl) as (b & Hb & Hn & He). pose proof (own_refs _ _ _ 0%nat _ _ Hown eq_refl Hb) as Hrefs.
  rewrite (reset_Ret _ _ _ Hb). eexists. split; [done|].
  assert (eblock_rep (reset_empty explicit_context b) hd q (t / 32)) as He' by (apply eblock_reset; [eapply eblock_gone; [exact He|]; lia|done|done]).
  split.
  - eapply ring_put; [by eapply own_perm|by apply list_lookup_middle|exact Hb|done|done|by eapply eb_length].
  - constructor; rewrite ?length_app; cbn [length set_exp_base exp_base set_tailBlock tailBlock pr_blockIndexSlotsUsed]; fold t; try done.
    + destruct Hbase. by constructor.
    + lia.
    + by rewrite <- Hp.
    + lia.
    + apply NoDup_cons in Hnd as [Hx Hnd]. intros i y Hi. rewrite put_block_lookup. apply lookup_app_Some in Hi as [Hi|[Hge Hi]].
      * pose proof (lookup_lt_Some _ _ _ Hi). rewrite decide_False by (intros ->; by apply list_elem_of_lookup_2 in Hi).
        destruct (Hr (S i) y Hi) as (c & Hc & Hnc & Hec). exists c. split; [done|]. rewrite succ_rotate by lia. split; [done|].
        replace (t / 32 + 1 - Z.of_nat (length ring + 1) + Z.of_nat i) with (t / 32 - Z.of_nat (S (length ring)) + Z.of_nat (S i)) by lia. done.
      * apply list_lookup_singleton_Some in Hi as [Ei <-]. rewrite decide_True by done. eexists. split; [done|].
        assert (i = length ring) as -> by lia. rewrite succ_rotate_last. split; [exact Hn|].
        by replace (t / 32 + 1 - Z.of_nat (length ring + 1) + Z.of_nat (length ring)) with (t / 32) by lia.
    + by rewrite last_snoc.
    + rewrite Hu. lia.
    + destruct (exp_headers p) as [|hdr hdrs] eqn:Eh; [by destruct Hidx|]. destruct Hidx as (Es & Hok & _).
      exists hdr, hdrs, (x :: ring), 1%nat, (t / 32 - Z.of_nat (S (length ring))). cbn [set_exp_base exp_headers pr_blockIndexSize pr_blockIndexFront length].
      pose proof (en_room _ _ _ _ _ Hok) as Hroom. cbn [length] in Hroom. split; [done|]. split; [done|]. split; [done|]. split; [lia|].
      split; [lia|]. split; [done|lia].
Qed.

(** A block from the pool, the free list or the heap. *)
Lemma new_block h F p q hd ring allocMode garbage :
  let t := hd + Z.of_nat (length q) in
  own h F ring -> exp_rep h p q hd ring -> t mod 32 = 0 -> exp_headers p <> [] -> Z.of_nat (length ring) < pr_blockIndexSize p ->
  Z.of_nat (length ring) < 288230376151711744 ->
  exists o h1, requisition_block allocMode garbage h = Ret (o, h1) /\ (allocMode = CanAlloc -> mem_ok h -> is_Some o) /\
    match o with
    | None => stepped F h h1 ring /\ exp_rep h1 p q hd ring
    | Some x => exists h2, (h ← reset_block explicit_context h1 x; insert_in_ring h (tailBlock (exp_base p)) x) = Ret h2 /\
        stepped F h h2 (ring ++ [x]) /\
        ready h2 (set_slots_used (set_exp_base p (set_tailBlock (exp_base p) (Some x))) (pr_blockIndexSlotsUsed p +w 1)) q hd (ring ++ [x]) x
    end.
Proof.
  intros t Hown Hrep Ht Hne Hroom Hlt. pose proof Hrep as [Hbase Hfirst Hfits Hnd Hlen Hr Htail [Hu Hidx]]. fold t in Hfirst, Hfits, Hr, Hidx.
  pose proof Hown as [Hi Hd]. destruct (requisition_block_spec allocMode garbage h _ Hi) as (o & h1 & E & (Hs & Hm & Ho) & Hc).
  exists o, h1. split; [done|]. split; [done|]. assert (same_blocks F h h1) as HsF by (eapply same_blocks_mono; [|exact Hs]; set_solver).
  assert (same_blocks (list_to_set ring) h h1) as Hsr by (eapply same_blocks_mono; [|exact Hs]; set_solver).
  destruct o as [x|]; [|by split; [|eapply exp_rep_frame]].
  destruct Ho as (Hx & Hi' & b & Hb & Hw). assert (x ∉ ring) as Hxr by (intros Hin; apply Hx, elem_of_union_r, elem_of_list_to_set, Hin).
  assert (own h1 F (ring ++ [x])) as Hown1 by (by apply own_push). rewrite Htail.
  pose proof (Z.div_mod t 32 ltac:(lia)).
  assert ((t + 31) / 32 = t / 32) as E31 by (symmetry; apply (Z.div_unique _ _ _ 31); lia). unfold first_of in *. rewrite E31 in *.
  assert (NoDup (ring ++ [x])) as Hnd1 by (apply NoDup_app; split; [done|]; split; [intros y Hy ->%list_elem_of_singleton; done|apply NoDup_singleton]).
  destruct (ring_insert h1 F ring (t / 32 - Z.of_nat (length ring)) hd q x b Hown1 Hnd1) as (h2 & E2 & S2 & R2); try done.
  { by eapply ring_rep_same. }
  { eapply (own_refs _ _ _ (length ring)); [exact Hown1|by apply list_lookup_middle|exact Hb]. }
  { fold t. lia. }
  exists h2. split; [done|]. split; [eapply stepped_trans; [split; [exact Hown1|by split]|exact S2]|].
  destruct (exp_headers p) as [|hdr hdrs] eqn:Eh; [done|]. destruct Hidx as (Es & Hok & _). pose proof (size_pos _ _ _ _ _ Hok).
  constructor; rewrite ?length_app; cbn [length set_slots_used set_exp_base exp_base set_tailBlock tailBlock pr_blockIndexSlotsUsed]; fold t; try done.
  - destruct Hbase. by constructor.
  - lia.
  - lia.
  - by replace (t / 32 + 1 - Z.of_nat (length ring + 1)) with (t / 32 - Z.of_nat (length ring)) by lia.
  - by rewrite last_snoc.
  - rewrite Hu, u64_small; [lia|]. unfold is_u64, UINT64_MOD. lia.
  - exists hdr, hdrs, ring, 0%nat, (t / 32 - Z.of_nat (length ring)). cbn [set_slots_used set_exp_base exp_headers pr_blockIndexSize pr_blockIndexFront].
    split; [done|]. split; [done|]. split; [done|]. split; [lia|]. split; [lia|]. split; [done|lia].
Qed.

(** What [explicit_take_block] gives. *)
Definition took_block (allocMode : AllocationMode) (F : gset nat) h q (hd : Z) (o : option nat) h1 p1 ring : Prop :=
  (allocMode = CanAlloc -> mem_ok h -> is_Some o) /\
  match o with
  | None => stepped F h h1 ring /\ exp_rep h1 p1 q hd ring
  | Some x => exists ring1, stepped F h h1 ring1 /\ ready h1 p1 q hd ring1 x
  end.

(** The part of [explicit_take_block] that is not lucky enough to find an empty
    block ahead. *)
Lemma grow_ring allocMode garbage h F p q hd ring :
  let t := hd + Z.of_nat (length q) in
  own h F ring -> exp_rep h p q hd ring -> t mod 32 = 0 -> Z.of_nat (length q) + 32 < 9223372036854775808 ->
  (ring <> [] -> hd <= 32 * first_of ring t + 31) ->
  exists o h1 p1,
    ('(ok, h, p) ←
       (if match exp_headers p with [] => true | _ => pr_blockIndexSlotsUsed p =? pr_blockIndexSize p end then
          match allocMode with
          | CannotAlloc => Ret (false, h, p)
          | CanAlloc => explicit_new_block_index h p (pr_blockIndexSlotsUsed p)
          end
        else Ret (true, h, p));
     if negb (ok : bool) then Ret (None, h, p)
     else
       '(newBlock, h) ← requisition_block allocMode garbage h;
       match newBlock with
       | None => Ret (None, h, p)
       | Some x =>
           h ← reset_block explicit_context h x;
           h ← insert_in_ring h (tailBlock (exp_base p)) x;
           Ret (Some x, h,
                set_slots_used (set_exp_base p (set_tailBlock (exp_base p) (Some x))) (pr_blockIndexSlotsUsed p +w 1))
       end) = Ret (o, h1, p1) /\ took_block allocMode F h q hd o h1 p1 ring.
Proof.
  intros t Hown Hrep Ht Hroom Hfull. pose proof Hrep as [Hbase Hfirst Hfits Hnd Hlen Hr Htail [Hu Hidx]]. fold t in Hfirst, Hfits, Hr, Hidx.
  pose proof (Z.div_mod t 32 ltac:(lia)).
  assert ((t + 31) / 32 = t / 32) as E31 by (symmetry; apply (Z.div_unique _ _ _ 31); lia).
  assert (Z.of_nat (length ring) < 288230376151711744) as Hlt.
  { destruct (decide (ring = [])) as [->|Hne]; [cbn; lia|]. specialize (Hfull Hne). unfold first_of in Hfull. rewrite E31 in Hfull. lia. }
  assert (exists ok h1 p1, (if match exp_headers p with [] => true | _ => pr_blockIndexSlotsUsed p =? pr_blockIndexSize p end then
          match allocMode with CannotAlloc => Ret (false, h, p) | CanAlloc => explicit_new_block_index h p (pr_blockIndexSlotsUsed p) end
        else Ret (true, h, p)) = Ret (ok, h1, p1) /\ mem_only h h1 /\ exp_rep h1 p1 q hd ring /\
        (allocMode = CanAlloc -> mem_ok h -> ok = true) /\
        (ok = true -> exp_headers p1 <> [] /\ Z.of_nat (length ring) < pr_blockIndexSize p1)) as (ok & h1 & p1 & -> & Hm & Hrep1 & Hok & Hready).
  { destruct (match exp_headers p with [] => true | _ => pr_blockIndexSlotsUsed p =? pr_blockIndexSize p end) eqn:Ec.
    - destruct allocMode.
      + assert (pr_blockIndexSize p <= 2 ^ 58) as Hsize.
        { destruct (exp_headers p) as [|hdr hdrs].
          - destruct Hidx as (_ & _ & c & Hc & ->). apply Z.pow_le_mono_r; lia.
          - destruct Hidx as (_ & He & _). pose proof (size_pos _ _ _ _ _ He). apply Z.eqb_eq in Ec. rewrite Hu in Ec.
            change (2 ^ 58) with 288230376151711744. lia. }
        destruct (explicit_new_block_index_spec h p ring _ (conj Hu Hidx) Hsize) as (ok & h1 & p1 & -> & Hm & Eb & Hok & Hi1 & Hready).
        exists ok, h1, p1. split; [done|]. split; [done|]. split; [|split; [done|intros E; by destruct (Hready E)]].
        constructor; rewrite ?Eb; try done. eapply ring_rep_same; [|exact Hr]. intros y _. by rewrite (proj1 (mem_only_blocks _ _ Hm)).
      + exists false, h, p. split; [done|]. split; [apply mem_only_refl|]. split; [done|]. done.
    - exists true, h, p. split; [done|]. split; [apply mem_only_refl|]. split; [done|]. split; [done|]. intros _.
      destruct (exp_headers p) as [|hdr hdrs] eqn:Eh; [done|]. split; [done|]. destruct Hidx as (_ & He & _). apply Z.eqb_neq in Ec.
      pose proof (en_room _ _ _ _ _ He). lia. }
  cbn [mbind outcome_bind]. destruct (mem_only_blocks _ _ Hm) as [Eb1 Mm].
  assert (stepped F h h1 ring) as S1 by (by apply stepped_mem_only). destruct ok; cbn [negb].
  - destruct (Hready eq_refl) as [Hne Hsize].
    destruct (new_block h1 F p1 q hd ring allocMode garbage (proj1 S1) Hrep1 Ht Hne Hsize Hlt) as (o & h2 & -> & Hsome & Ho). cbn [mbind outcome_bind].
    destruct o as [x|].
    + destruct Ho as (h3 & E3 & S3 & R3). destruct (reset_block explicit_context h2 x) as [h2'|]; [|done]. cbn [mbind outcome_bind] in *. rewrite E3.
      cbn [mbind outcome_bind]. eexists _, _, _. split; [done|]. split; [done|]. exists (ring ++ [x]). split; [by eapply stepped_trans|done].
    + destruct Ho as [S2 R2]. eexists _, _, _. split; [done|]. split; [intros Ea Ho; apply Hsome; [done|auto]|]. split; [by eapply stepped_trans|done].
  - eexists _, _, _. split; [done|]. split; [intros Ea Ho; by discriminate (Hok Ea Ho)|]. done.
Qed.

Lemma explicit_take_block_spec allocMode garbage h F p q hd ring :
  let t := hd + Z.of_nat (length q) in
  own h F ring -> exp_rep h p q hd ring -> t mod 32 = 0 -> Z.of_nat (length q) + 32 < 9223372036854775808 ->
  exists o h1 p1, explicit_take_block allocMode garbage h p = Ret (o, h1, p1) /\ took_block allocMode F h q hd o h1 p1 ring.
Proof.
  intros t Hown Hrep Ht Hroom. pose proof Hrep as [Hbase Hfirst Hfits Hnd Hlen Hr Htail Hidx]. fold t in Hfirst, Hfits, Hr.
  unfold explicit_take_block. rewrite Htail, (br_tail _ _ _ Hbase), (br_head _ _ _ Hbase).
  rewrite circular_less_than_spec by lia. fold t. replace (t <? hd) with false by (zbool; lia).
  assert (subqueue_full (u64 hd) (u64 t) = false) as ->.
  { unfold t. rewrite subqueue_full_spec by lia. by replace (_ + 32 <? _) with true by (zbool; lia). }
  destruct ring as [|x ring].
  - cbn [last mbind outcome_bind]. by apply grow_ring.
  - destruct (last (x :: ring)) as [tb|] eqn:El; [|by apply last_None in El].
    pose proof (last_at _ _ El) as Htb. destruct (Hr _ _ Htb) as (bt & Hbt & Hnt & _). cbn [length] in *.
    assert (next bt = Some x) as Hx by (rewrite Hnt; unfold succ_in; cbn [length]; by rewrite decide_False by lia).
    unfold next_block. rewrite (get_block_Ret _ _ _ Hbt). cbn [mbind outcome_bind]. rewrite Hx. cbn [of_option mbind outcome_bind].
    destruct (Hr 0%nat x eq_refl) as (b & Hb & Hn & He). rewrite (get_block_Ret _ _ _ Hb). cbn [mbind outcome_bind is_empty].
    rewrite (eb_flags _ _ _ _ He), flags_empty, Z.add_0_r. destruct (Z.ltb_spec (32 * first_of (x :: ring) t + 31) hd) as [Hem|Hem].
    + destruct (reuse_block h F p q hd x ring Hown Hrep Ht Hem) as (h1 & -> & S1 & R1). cbn [mbind outcome_bind].
      eexists _, _, _. split; [done|]. split; [done|]. by exists (ring ++ [x]).
    + by apply grow_ring.
Qed.

(** ** The operation *)

(** As long as the constructor does not throw and the sub-queue is not full. *)
Lemma exp_enqueue_spec allocMode noexcept garbage h p q v hd ring F :
  own h F ring -> exp_rep h p q hd ring -> Z.of_nat (length q) + 32 < 9223372036854775808 ->
  exists r h' p' ring', explicit_enqueue allocMode noexcept garbage h p (Some v) = Ret (r, h', p') /\ stepped F h h' ring' /\
    match r with
    | Enqueued => exp_rep h' p' (q ++ [v]) hd ring'
    | Refused => exp_rep h' p' q hd ring' /\ (allocMode = CannotAlloc \/ ~ mem_ok h)
    | Threw => False
    end.
Proof.
  intros Hown Hrep Hroom. set (t := hd + Z.of_nat (length q)). pose proof Hrep as [Hbase Hfirst Hfits Hnd Hlen Hr Htail [Hu Hidx]].
  fold t in Hfirst, Hfits, Hr, Hidx. pose proof (Z.div_mod t 32 ltac:(lia)). pose proof (Z.mod_pos_bound t 32 ltac:(lia)).
  unfold explicit_enqueue. rewrite (br_tail _ _ _ Hbase). fold t. rewrite land_31, u64_mod_32.
  destruct (Z.eqb_spec (t mod 32) 0) as [Ht|Ht].
  - destruct (explicit_take_block_spec allocMode garbage h F p q hd ring Hown Hrep Ht Hroom) as (o & h1 & p1 & -> & Hsome & Ho).
    cbn [mbind outcome_bind]. destruct o as [x|].
    + destruct Ho as (ring1 & S1 & R1).
      destruct (publish h1 F p1 q hd ring1 x v (proj1 S1) R1 Ht Hroom) as (h2 & p2 & Ec & Ea & Eb & S2 & R2). fold t in Ec, Ea, R2.
      destruct noexcept; cbn [negb].
      * rewrite Ea. cbn [mbind outcome_bind]. unfold explicit_at_tail. rewrite Eb, (rd_tail _ _ _ _ _ _ R1), (br_tail _ _ _ (rd_base _ _ _ _ _ _ R1)).
        fold t. cbn [of_option mbind outcome_bind]. rewrite Ec. cbn [mbind outcome_bind]. eexists _, _, _, ring1. split; [done|].
        split; [by eapply stepped_trans|]. by rewrite <- Eb.
      * rewrite Ec. cbn [mbind outcome_bind]. rewrite Ea. cbn [mbind outcome_bind]. eexists _, _, _, ring1. split; [done|].
        split; [by eapply stepped_trans|done].
    + destruct Ho as [S1 R1]. eexists _, _, _, ring. split; [done|]. split; [done|]. split; [done|].
      destruct allocMode; [right|by left]. intros Hm. by destruct (Hsome eq_refl Hm).
  - assert ((t + 31) / 32 = t / 32 + 1) as E31 by (symmetry; apply (Z.div_unique _ _ _ (t mod 32 - 1)); lia). unfold first_of in *. rewrite E31 in *.
    assert (ring <> []) as Hne.
    { intros ->. cbn [length] in Hfirst. assert (hd <= t) by lia. lia. }
    destruct (last ring) as [x|] eqn:El; [|by apply last_None in El].
    unfold explicit_at_tail. rewrite (br_tail _ _ _ Hbase), Htail. fold t. cbn [of_option mbind outcome_bind].
    destruct (ring_construct h F ring _ hd q x v Hown Hnd Hr El) as (h' & Ec & S & R'); [fold t; lia|]. fold t in Ec. rewrite Ec. cbn [mbind outcome_bind].
    eexists _, _, _, ring. split; [done|]. split; [done|].
    assert ((hd + Z.of_nat (length (q ++ [v])) + 31) / 32 = t / 32 + 1) as E1.
    { rewrite length_app. cbn [length]. symmetry. apply (Z.div_unique _ _ _ (t mod 32)); lia. }
    constructor; unfold first_of; rewrite ?E1; cbn [set_exp_base exp_base]; try done.
    + rewrite length_app. cbn [length]. rewrite Nat2Z.inj_add. apply base_push; [done|lia].
    + cbn. by rewrite Htail.
Qed.

(** ** A new producer *)

Lemma initial_index_size n : 0 <= n <= 288230376151711744 ->
  exists c, 0 <= c <= 58 /\
    (if Z.shiftr EXPLICIT_INITIAL_INDEX_SIZE 1 <? Z.shiftr (ceil_to_pow_2 n) 1 then Z.shiftr (ceil_to_pow_2 n) 1
     else Z.shiftr EXPLICIT_INITIAL_INDEX_SIZE 1) = 2 ^ c.
Proof.
  intros Hn. change (Z.shiftr EXPLICIT_INITIAL_INDEX_SIZE 1) with 16. destruct (Z.ltb_spec 16 (Z.shiftr (ceil_to_pow_2 n) 1)) as [H|_].
  - destruct (Z.eq_dec n 0) as [->|Hne]; [discriminate H|]. rewrite ceil_to_pow_2_ok in * by lia. rewrite Z.shiftr_div_pow2 in * by lia.
    assert (Z.log2_up n <= 58) by (apply Z.log2_up_le_pow2; lia). pose proof (Z.log2_up_nonneg n).
    assert (Z.log2_up n <> 0) as Hn0 by (intros E; rewrite E in H; done).
    exists (Z.log2_up n - 1). split; [lia|]. rewrite <- Z.pow_sub_r by lia. done.
  - exists 4. split; [lia|done].
Qed.

Lemma explicit_init_spec h F :
  heap_inv h F ->
  exists h' p, explicit_init h = Ret (h', p) /\ stepped F h h' [] /\ exp_rep h' p [] 0 [].
Proof.
  intros Hi. destruct (hi_index _ _ Hi) as (_ & Hu & _). unfold explicit_init.
  destruct (initial_index_size (initialBlockPoolSize h)) as (c & Hc & ->); [lia|].
  set (p0 := mkExplicit base_init [] 0 (2 ^ c) 0).
  assert (eindex_rep p0 [] 0) as H0 by (split; [done|]; cbn; split; [done|]; split; [done|]; by exists c).
  destruct (explicit_new_block_index_spec h p0 [] 0 H0) as (ok & h' & p & E & Hm & Eb & _ & Hi' & _); [cbn; apply Z.pow_le_mono_r; lia|].
  change (pr_blockIndexSlotsUsed p0) with 0 in E. rewrite E. cbn [mbind outcome_bind]. eexists _, _. split; [done|].
  assert (own h F []) as Hown by (split; cbn; [by rewrite union_empty_r_L|set_solver]).
  split; [by apply stepped_mem_only|]. constructor; rewrite ?Eb; cbn; try done. constructor.
Qed.
End Enqueue.
