(* ===== verification/ExplicitDestroy.v ===== *)
(** * The destructor of an explicit producer

    It destroys the elements that are left and gives up every block of the ring. *)
From S2P Require Import Prelude QueueDetails QueueBlock Producer ImplicitProducer ImplicitIndex ImplicitSpec ImplicitTrace ExplicitProducer ExplicitSpec ExplicitEnqueue.
Arguments slots : simpl never.

Section Destroy.
Context {T : Type}.
Implicit Types (h : Heap T) (q : list T).

(** ** Elements *)

Lemma put_block_id h x b : blocks h !! x = Some b -> put_block h x b = h.
Proof. intros Hb. unfold put_block, set_blocks. rewrite fin_maps.insert_id by done. by destruct h. Qed.

Lemma put_put h x b b' : put_block (put_block h x b) x b' = put_block h x b'.
Proof. unfold put_block, set_blocks. cbn. by rewrite insert_insert_eq. Qed.

(** [destroy_from] empties the slots from [i] to [stop]. *)
Lemma destroy_from_spec x stop f : forall n fuel h i b,
  blocks h !! x = Some b -> elements b = slots f -> 0 <= i -> i + Z.of_nat n = stop -> stop <= 32 -> (n <= fuel)%nat ->
  (forall o, i <= Z.of_nat o < stop -> is_Some (f o)) ->
  exists b', destroy_from fuel h x i stop = Ret (put_block h x b') /\
    elements b' = slots (fun o => if decide (i <= Z.of_nat o < stop) then None else f o) /\
    next b' = next b /\ freeListRefs b' = freeListRefs b /\ dynamicallyAllocated b' = dynamicallyAllocated b /\ emptyFlags b' = emptyFlags b.
Proof.
  intros n. revert f. induction n as [|n IH]; intros f fuel h i b Hb He Hi Hn Hs Hf Ho.
  - replace stop with i by lia. exists b. split.
    + rewrite put_block_id by done. destruct fuel; cbn [destroy_from]; by rewrite Z.eqb_refl.
    + split; [|done]. rewrite He. apply slots_ext. intros o _. by rewrite decide_False by lia.
  - destruct fuel as [|fuel]; [lia|]. cbn [destroy_from]. destruct (Z.eqb_spec i stop); [lia|].
    unfold destroy_object. rewrite (get_block_Ret _ _ _ Hb). cbn [mbind outcome_bind].
    assert (offset i = Z.to_nat i) as Eo by (rewrite offset_spec, Z.mod_small by lia; done).
    destruct (Ho (Z.to_nat i)) as [v Hv]; [lia|].
    assert (block_get b i = Some v) as -> by (unfold block_get; rewrite He, Eo, slots_lookup, decide_True by lia; cbn; by rewrite Hv).
    cbn [of_option mbind outcome_bind].
    destruct (IH (fun o => if decide (o = Z.to_nat i) then None else f o) fuel (put_block h x (block_set b i None)) (i + 1) (block_set b i None))
      as (b' & E & He' & En & Er & Ed & Ef); try lia.
    + by rewrite put_block_lookup, decide_True.
    + cbn [block_set set_elements elements]. rewrite He, Eo. apply slots_insert. lia.
    + intros o Hoo. rewrite decide_False by lia. apply Ho. lia.
    + exists b'. rewrite E, put_put. split; [done|]. split; [|done]. rewrite He'. apply slots_ext. intros o _. repeat case_decide; done || lia.
Qed.

(** ** Half dequeued blocks *)

Lemma find_half_spec hdr size front ring first hd : forall n fuel k,
  entries_ok (eh_entries hdr) size front ring first -> Z.of_nat (length ring) <= 288230376151711744 ->
  32 * first <= hd -> (k + n)%nat = Z.to_nat (hd / 32 - first) -> hd / 32 - first < Z.of_nat (length ring) -> hd mod 32 <> 0 -> (n < fuel)%nat ->
  exists x, ring !! Z.to_nat (hd / 32 - first) = Some x /\
    (i ← find_half fuel hdr ((front - Z.of_nat (length ring) + Z.of_nat k) mod size) (u64 hd) (size -w 1);
     e ← exp_entry hdr i;
     if circular_less_than (ee_base e) (u64 hd) then Ret (Some (ee_block e)) else Fault AssertFailed) = Ret (Some x).
Proof.
  intros n. induction n as [|n IH]; intros [|fuel] k Hok Hlen Hfirst Hk Hlt Hm Hf; try lia;
    pose proof (Z.div_mod hd 32 ltac:(lia)); pose proof (Z.mod_pos_bound hd 32 ltac:(lia)); cbn [find_half];
    (assert (0 <= hd / 32 - first) by (assert (first <= hd / 32) by (apply Z.div_le_lower_bound; lia); lia));
    (destruct (lookup_lt_is_Some_2 ring k) as [x Hx]; [lia|]); pose proof (exp_entry_Ret _ _ _ (en_at _ _ _ _ _ Hok _ _ Hx)) as He;
    rewrite He; cbn [mbind outcome_bind ee_base]; rewrite u64_add_l; unfold BLOCK_SIZE; rewrite circular_less_than_spec by lia.
  - replace (_ <? hd) with false by (zbool; lia). cbn [mbind outcome_bind]. rewrite He. cbn [mbind outcome_bind ee_base ee_block].
    exists x. replace (Z.to_nat (hd / 32 - first)) with k by lia. split; [done|]. rewrite circular_less_than_spec by lia.
    by replace (_ <? hd) with true by (zbool; lia).
  - replace (_ <? hd) with true by (zbool; lia). rewrite (land_size _ _ _ _ _ _ Hok), Zplus_mod_idemp_l.
    replace (front - Z.of_nat (length ring) + Z.of_nat k + 1) with (front - Z.of_nat (length ring) + Z.of_nat (S k)) by lia.
    apply IH; try done; lia.
Qed.

(** ** The ring *)

(** The elements of the first [k] blocks are destroyed. *)
Definition ring_part h (ring : list nat) (k : nat) (first hd : Z) q : Prop :=
  forall i x, ring !! i = Some x -> exists b, blocks h !! x = Some b /\ next b = succ_in ring i /\
    if decide (i < k)%nat then raw b else eblock_rep b hd q (first + Z.of_nat i).

Lemma ring_part_step h ring k x b' first hd q :
  NoDup ring -> ring_part h ring k first hd q -> ring !! k = Some x -> next b' = succ_in ring k -> raw b' ->
  ring_part (put_block h x b') ring (S k) first hd q.
Proof.
  intros Hnd Hr Hk Hn Hw i y Hi. rewrite put_block_lookup. case_decide as E.
  - subst y. rewrite (NoDup_lookup _ _ _ _ Hnd Hi Hk) in *. exists b'. split; [done|]. split; [done|]. by rewrite decide_True by lia.
  - destruct (Hr i y Hi) as (c & Hc & Hnc & Hec). exists c. split; [done|]. split; [done|].
    assert (i <> k) by (intros ->; apply E; congruence). repeat case_decide; done || lia.
Qed.

(** Where destruction of the elements of block number [j] starts and stops. *)
Lemma block_bounds p q hd ring first k x tb half :
  base_rep (exp_base p) hd (Z.of_nat (length q)) -> first = first_of ring (hd + Z.of_nat (length q)) -> 32 * first <= hd -> NoDup ring ->
  last ring = Some tb -> ring !! k = Some x -> hd <= 32 * (first + Z.of_nat k) + 31 ->
  (if hd mod 32 =? 0 then half = None else exists y, ring !! Z.to_nat (hd / 32 - first) = Some y /\ half = Some y) ->
  let i := if bool_decide (half = Some x) then Z.land (headIndex (exp_base p)) (BLOCK_SIZE - 1) else 0 in
  let t := Z.land (tailIndex (exp_base p)) (BLOCK_SIZE - 1) in
  i = Z.max 0 (hd - 32 * (first + Z.of_nat k)) /\
  (if bool_decide (x = tb) then if t =? 0 then BLOCK_SIZE else t else BLOCK_SIZE) =
    Z.min 32 (hd + Z.of_nat (length q) - 32 * (first + Z.of_nat k)).
Proof.
  intros Hbase Ef Hfirst Hnd Hl Hk He Hhalf. cbv zeta. rewrite (br_head _ _ _ Hbase), (br_tail _ _ _ Hbase), !land_31, !u64_mod_32.
  unfold BLOCK_SIZE. unfold first_of in Ef. set (t := hd + Z.of_nat (length q)) in *.
  pose proof (lookup_lt_Some _ _ _ Hk) as Hlt. pose proof (last_at _ _ Hl) as Htb.
  pose proof (Z.div_mod hd 32 ltac:(lia)). pose proof (Z.mod_pos_bound hd 32 ltac:(lia)).
  pose proof (Z.div_mod t 32 ltac:(lia)). pose proof (Z.mod_pos_bound t 32 ltac:(lia)).
  pose proof (Z.div_mod (t + 31) 32 ltac:(lia)). pose proof (Z.mod_pos_bound (t + 31) 32 ltac:(lia)).
  assert (first <= hd / 32) by (apply Z.div_le_lower_bound; lia). split.
  - destruct (Z.eqb_spec (hd mod 32) 0) as [E0|E0].
    + subst half. rewrite bool_decide_false by done. lia.
    + destruct Hhalf as (y & Hy & ->). case_bool_decide as E.
      * injection E as ->. pose proof (NoDup_lookup _ _ _ _ Hnd Hy Hk). lia.
      * assert (Z.to_nat (hd / 32 - first) <> k) by (intros E'; rewrite E' in Hy; congruence). lia.
  - case_bool_decide as E.
    + subst x. pose proof (NoDup_lookup _ _ _ _ Hnd Htb Hk). zbool; lia.
    + assert (k <> length ring - 1)%nat by (intros ->; congruence). lia.
Qed.

(** The elements of one block. *)
Lemma destroy_block h p q hd ring first k x tb half b :
  base_rep (exp_base p) hd (Z.of_nat (length q)) -> first = first_of ring (hd + Z.of_nat (length q)) -> 32 * first <= hd -> NoDup ring ->
  last ring = Some tb -> ring !! k = Some x ->
  (if hd mod 32 =? 0 then half = None else exists y, ring !! Z.to_nat (hd / 32 - first) = Some y /\ half = Some y) ->
  blocks h !! x = Some b -> eblock_rep b hd q (first + Z.of_nat k) ->
  exists b', (if 32 * (first + Z.of_nat k) + 31 <? hd then Ret h
    else
      let i := if bool_decide (half = Some x) then Z.land (headIndex (exp_base p)) (BLOCK_SIZE - 1) else 0 in
      let t := Z.land (tailIndex (exp_base p)) (BLOCK_SIZE - 1) in
      let lastValidIndex := if t =? 0 then BLOCK_SIZE else t in
      destroy_from (Z.to_nat BLOCK_SIZE) h x i (if bool_decide (x = tb) then lastValidIndex else BLOCK_SIZE)) = Ret (put_block h x b') /\
    raw b' /\ next b' = next b /\ freeListRefs b' = freeListRefs b /\ dynamicallyAllocated b' = dynamicallyAllocated b.
Proof.
  intros Hbase Ef Hfirst Hnd Hl Hk Hhalf Hb He. destruct (Z.ltb_spec (32 * (first + Z.of_nat k) + 31) hd) as [Hem|Hem].
  { exists b. rewrite put_block_id by done. split; [done|]. split; [by eapply eblock_gone|done]. }
  destruct (block_bounds p q hd ring first k x tb half Hbase Ef Hfirst Hnd Hl Hk Hem Hhalf) as [Ei Es]. cbv zeta in Ei, Es |- *. rewrite Ei, Es.
  unfold first_of in Ef. set (j := first + Z.of_nat k) in *. set (t := hd + Z.of_nat (length q)) in *.
  pose proof (Z.div_mod (t + 31) 32 ltac:(lia)). pose proof (Z.mod_pos_bound (t + 31) 32 ltac:(lia)). pose proof (lookup_lt_Some _ _ _ Hk).
  edestruct (destroy_from_spec x (Z.min 32 (t - 32 * j)) _ (Z.to_nat (Z.min 32 (t - 32 * j) - Z.max 0 (hd - 32 * j))) (Z.to_nat BLOCK_SIZE) h
      (Z.max 0 (hd - 32 * j)) b Hb (eb_elements _ _ _ _ He)) as (b' & E & He' & En & Er & Ed & _);
    [lia|lia|lia|unfold BLOCK_SIZE; lia|intros o Ho; apply zget_in; lia|].
  exists b'. split; [exact E|]. split; [|done]. unfold raw. rewrite He'. apply slots_none. intros o Ho.
  match goal with |- context [decide ?P] => destruct (decide P) as [|Hout] end; [done|]. apply zget_out. lia.
Qed.

Lemma destroy_ring_spec p q hd ring first tb half F :
  base_rep (exp_base p) hd (Z.of_nat (length q)) -> first = first_of ring (hd + Z.of_nat (length q)) -> 32 * first <= hd -> NoDup ring ->
  last ring = Some tb ->
  (if hd mod 32 =? 0 then half = None else exists y, ring !! Z.to_nat (hd / 32 - first) = Some y /\ half = Some y) -> forall n fuel h k x xk,
  own h F ring -> ring_part h ring k first hd q -> (k + S n)%nat = length ring -> ring !! k = Some xk -> next_block h x = Ret xk -> (n < fuel)%nat ->
  exists h', destroy_ring fuel h p half tb x = Ret h' /\ stepped F h h' ring /\ ring_part h' ring (length ring) first hd q.
Proof.
  intros Hbase Ef Hfirst Hnd Hl Hhalf. pose proof (last_at _ _ Hl) as Htb.
  induction n as [|n IH]; intros [|fuel] h k x xk Hown Hr Hkn Hk Hnext Hf; try lia; cbn [destroy_ring]; rewrite Hnext; cbn [mbind outcome_bind];
    destruct (Hr k xk Hk) as (b & Hb & Hn & He); rewrite decide_False in He by lia;
    rewrite (get_block_Ret _ _ _ Hb); cbn [mbind outcome_bind is_empty]; rewrite (eb_flags _ _ _ _ He), flags_empty;
    destruct (destroy_block h p q hd ring first k xk tb half b Hbase Ef Hfirst Hnd Hl Hk Hhalf Hb He) as (b' & E & Hw & En & Er & Ed);
    cbv zeta in E |- *; rewrite E; cbn [mbind outcome_bind];
    assert (stepped F h (put_block h xk b') ring) as S1
      by (eapply ring_put; [done|exact Hk|exact Hb|rewrite Er; exact (own_refs _ _ _ _ _ _ Hown Hk Hb)|done|by apply raw_length]);
    assert (ring_part (put_block h xk b') ring (S k) first hd q) as R1 by (eapply ring_part_step; try done; congruence).
  - assert (xk = tb) as -> by (replace (length ring - 1)%nat with k in Htb by lia; congruence). rewrite bool_decide_true by done.
    eexists. split; [done|]. split; [done|]. by replace (length ring) with (S k) by lia.
  - rewrite bool_decide_false. 2:{ intros ->. pose proof (NoDup_lookup _ _ _ _ Hnd Hk Htb). lia. }
    destruct (lookup_lt_is_Some_2 ring (S k)) as [y Hy]; [lia|].
    destruct (IH fuel (put_block h xk b') (S k) xk y) as (h' & E2 & S2 & R2); try done; [apply S1|lia| |lia|].
    + unfold next_block. erewrite get_block_Ret by (by rewrite put_block_lookup, decide_True). cbn [mbind outcome_bind]. rewrite En, Hn.
      unfold succ_in. rewrite decide_True by lia. by rewrite Hy.
    + exists h'. split; [done|]. split; [by eapply stepped_trans|done].
Qed.

(** ** The blocks *)

Lemma heap_inv_delete h owned x b :
  heap_inv h owned -> x ∈ owned -> blocks h !! x = Some b -> dynamicallyAllocated b = true ->
  heap_inv (set_blocks h (delete x (blocks h))) (owned ∖ {[x]}).
Proof.
  intros [(l & Hc & Hd & Hl) Hp Ho Hf Hg Hi] Hx Hb Hdyn. rewrite (Hg _ _ Hb) in Hdyn. apply Z.leb_le in Hdyn.
  constructor; cbn [set_blocks blocks freeListHead fresh initialBlockPoolIndex initialBlockPoolSize]; try done.
  - exists l. split; [|split; [done|]].
    + assert (x ∉ l) as Hxl by (intros Hin; by apply Hl in Hin as (_ & ? & _)). clear -Hc Hxl. revert Hc. generalize (freeListHead h).
      induction l as [|z l IH]; intros o; [done|]. apply not_elem_of_cons in Hxl as [Hne Hxl]. intros (-> & d & Hd & Hr & Hw & Hc).
      split; [done|]. exists d. rewrite lookup_delete_ne by done. eauto.
    + intros y. rewrite Hl, lookup_delete_is_Some, elem_of_difference, elem_of_singleton.
      change (in_pool (set_blocks h _) y) with (in_pool h y). destruct (decide (y = x)) as [->|]; naive_solver.
  - intros y Hy. change (in_pool h y) in Hy. destruct (Hp y Hy) as [Hyo Hyb]. split; [rewrite elem_of_difference; tauto|].
    rewrite lookup_delete_ne; [done|]. intros ->. destruct Hy. lia.
  - intros y [Hy Hne%not_elem_of_singleton]%elem_of_difference. rewrite lookup_delete_ne by done. by apply Ho.
  - intros y c [_ Hy]%lookup_delete_Some. by eapply Hf.
  - intros y c [_ Hy]%lookup_delete_Some. by apply Hg.
Qed.

(** One block is freed, or goes to the free list when it is of the initial pool. *)
Lemma own_release h F x bs b :
  own h F (x :: bs) -> x ∉ bs -> blocks h !! x = Some b -> raw b ->
  exists h', (if dynamicallyAllocated b then Ret (set_blocks h (delete x (blocks h))) else add_block_to_free_list h x) = Ret h' /\
    stepped F h h' bs /\ same_blocks (list_to_set bs) h h'.
Proof.
  intros Ho Hx Hb Hw. destruct (dynamicallyAllocated b) eqn:Ed; [|by apply (own_pop_first h F x bs b)].
  eexists. split; [done|]. destruct Ho as [Hi Hd]. cbn [list_to_set] in *. assert (x ∉ F) as HxF by set_solver.
  assert (same_blocks (F ∪ list_to_set bs) h (set_blocks h (delete x (blocks h)))) as Hs.
  { intros y Hy. cbn. rewrite lookup_delete_ne; [done|]. intros ->. apply elem_of_union in Hy as [?|?%elem_of_list_to_set]; done. }
  pose proof (heap_inv_delete h _ x b Hi ltac:(set_solver) Hb Ed) as Hi'.
  replace ((F ∪ ({[x]} ∪ list_to_set bs)) ∖ {[x]}) with (F ∪ list_to_set bs : gset nat) in Hi'.
  2:{ apply leibniz_equiv. intros y. rewrite !elem_of_difference, !elem_of_union, elem_of_list_to_set, elem_of_singleton. naive_solver. }
  split; [|eapply same_blocks_mono; [|exact Hs]; set_solver].
  split; [split; [done|set_solver]|]. split; [|done]. eapply same_blocks_mono; [|exact Hs]. set_solver.
Qed.

Lemma free_ring_spec F tail : forall l fuel h x,
  own h F (x :: l) -> NoDup (x :: l) -> tail ∉ l -> (length l < fuel)%nat ->
  (forall i y, (x :: l) !! i = Some y -> exists b, blocks h !! y = Some b /\ raw b /\ next b = Some (default tail (l !! i))) ->
  exists h', free_ring fuel h tail x = Ret h' /\ heap_inv h' F /\ same_blocks F h h' /\ (mem_ok h -> mem_ok h').
Proof.
  induction l as [|z l IH]; intros [|fuel] h x Hown Hnd Ht Hf Hr; cbn [length] in Hf; try lia; cbn [free_ring].
  all: destruct (Hr 0%nat x eq_refl) as (b & Hb & Hw & Hn); unfold next_block; rewrite (get_block_Ret _ _ _ Hb); cbn [mbind outcome_bind];
    rewrite Hn; cbn [of_option mbind outcome_bind lookup list_lookup default];
    apply NoDup_cons in Hnd as [Hx Hnd]; destruct (own_release h F x _ b Hown Hx Hb Hw) as (h1 & -> & S1 & Sl); cbn [mbind outcome_bind].
  - rewrite bool_decide_true by done. exists h1. split; [done|]. destruct S1 as (O & S & M). split; [by apply own_nil|done].
  - apply not_elem_of_cons in Ht as [Hne Ht]. cbn [lookup list_lookup]. rewrite bool_decide_false by (cbn; congruence).
    destruct (IH fuel h1 z) as (h2 & E & Hi & S2 & M2); try done; [apply S1|lia| |].
    + intros i y Hi. destruct (Hr (S i) y Hi) as (c & Hc & Hwc & Hnc). exists c. rewrite Sl; [done|].
      apply elem_of_list_to_set. by eapply list_elem_of_lookup_2.
    + exists h2. split; [exact E|]. split; [done|]. split; [eapply same_blocks_trans; [apply S1|done]|]. intros Hm. by apply M2, S1.
Qed.

Lemma explicit_destroy_spec h p q hd ring F fuel :
  own h F ring -> exp_rep h p q hd ring -> (length ring < fuel)%nat ->
  exists h', explicit_destroy fuel h p = Ret h' /\ heap_inv h' F /\ same_blocks F h h' /\ (mem_ok h -> mem_ok h').
Proof.
  intros Hown [Hbase Hfirst Hfits Hnd Hlen Hr Htail [Hu Hidx]] Hfuel. unfold explicit_destroy. rewrite Htail.
  destruct (last ring) as [tb|] eqn:El.
  2:{ apply last_None in El as ->. exists h. split; [done|]. split; [by apply own_nil|]. split; [apply same_blocks_refl|done]. }
  set (t := hd + Z.of_nat (length q)) in *. set (first := first_of ring t) in *. pose proof (last_at _ _ El) as Htb.
  assert (ring <> []) as Hne by (by intros ->). rewrite (br_head _ _ _ Hbase), land_31, u64_mod_32.
  pose proof (Z.div_mod hd 32 ltac:(lia)). pose proof (Z.mod_pos_bound hd 32 ltac:(lia)).
  assert (exists half, (if hd mod 32 =? 0 then Ret None else
      hd0 ← current_header p;
      i ← find_half fuel hd0 (Z.land (pr_blockIndexFront p -w pr_blockIndexSlotsUsed p) (pr_blockIndexSize p -w 1)) (u64 hd) (pr_blockIndexSize p -w 1);
      e ← exp_entry hd0 i;
      if circular_less_than (ee_base e) (u64 hd) then Ret (Some (ee_block e)) else Fault AssertFailed) = Ret half /\
      (if hd mod 32 =? 0 then half = None else exists y, ring !! Z.to_nat (hd / 32 - first) = Some y /\ half = Some y)) as (half & Eh & Hhalf).
  { destruct (Z.eqb_spec (hd mod 32) 0) as [E0|E0]; [by exists None|].
    destruct (exp_headers p) as [|hdr hdrs] eqn:Eh; [by destruct Hidx|]. destruct Hidx as (Es & Hok & _).
    unfold current_header. rewrite Eh. cbn [head of_option mbind outcome_bind]. rewrite (land_size _ _ _ _ _ _ Hok), Hu.
    assert (hd / 32 < (t + 31) / 32).
    { enough (hd / 32 + 1 <= (t + 31) / 32) by lia. apply Z.div_le_lower_bound; lia. }
    destruct (find_half_spec hdr (pr_blockIndexSize p) (pr_blockIndexFront p) ring first hd (Z.to_nat (hd / 32 - first)) fuel 0) as (y & Hy & E); try done.
    { unfold first, first_of in *. lia. } { unfold first, first_of in *. lia. }
    rewrite Z.add_0_r in E. exists (Some y). split; [exact E|]. by exists y. }
  rewrite Eh. cbn [mbind outcome_bind]. destruct (Hr _ _ Htb) as (bt & Hbt & Hnt & _). pose proof (lookup_lt_Some _ _ _ Htb).
  assert (succ_in ring (length ring - 1) = head ring) as Esucc by (unfold succ_in; by rewrite decide_False by lia).
  destruct (lookup_lt_is_Some_2 ring 0) as [x0 Hx0]; [lia|].
  destruct (destroy_ring_spec p q hd ring first tb half F Hbase eq_refl Hfirst Hnd El Hhalf (length ring - 1) fuel h 0 tb x0) as (h1 & -> & S1 & R1); try done; try lia.
  { unfold next_block. rewrite (get_block_Ret _ _ _ Hbt). cbn [mbind outcome_bind]. rewrite Hnt, Esucc. by destruct ring; [|injection Hx0 as ->]. }
  cbn [mbind outcome_bind]. destruct (exists_last Hne) as (l & z & ->). rewrite last_snoc in El. injection El as ->.
  apply NoDup_app in Hnd as (Hnd & Hd & _). assert (tb ∉ l) as Htl by (intros Hin; apply (Hd _ Hin); by left).
  assert (l ++ [tb] ≡ₚ tb :: l) as Hp by (by rewrite Permutation_app_comm). rewrite length_app in Hfuel, R1. cbn [length] in Hfuel, R1.
  destruct (free_ring_spec F tb l fuel h1 tb) as (h2 & E & Hi & S2 & M2).
  - eapply own_perm; [exact Hp|apply S1].
  - by constructor.
  - done.
  - lia.
  - intros [|i] y Hy.
    + injection Hy as <-. destruct (R1 (length l) tb) as (b & Hb & Hn & Hw); [by apply list_lookup_middle|]. rewrite decide_True in Hw by lia.
      exists b. split; [done|]. split; [done|]. rewrite Hn. unfold succ_in. rewrite length_app. cbn [length]. rewrite decide_False by lia. by destruct l.
    + change (l !! i = Some y) in Hy. pose proof (lookup_lt_Some _ _ _ Hy). destruct (R1 i y) as (b & Hb & Hn & Hw); [by apply lookup_app_l_Some|].
      rewrite decide_True in Hw by lia. exists b. split; [done|]. split; [done|]. rewrite Hn. unfold succ_in. rewrite length_app. cbn [length].
      rewrite decide_True by lia. destruct (l !! S i) as [w|] eqn:Ew; [by apply lookup_app_l_Some|].
      apply lookup_ge_None in Ew. rewrite lookup_app_r by lia. by replace (S i - length l)%nat with 0%nat by lia.
  - exists h2. split; [done|]. split; [done|]. split; [eapply same_blocks_trans; [apply S1|done]|]. intros Hm. by apply M2, S1.
Qed.
End Destroy.
