(* ===== verification/ExplicitBulk.v ===== *)
(** * Many elements at once, with a token (concurrentqueue.h, ExplicitProducer::enqueue_bulk, dequeue_bulk)

    [explicit_enqueue_bulk] first takes the empty blocks ahead in its ring, then blocks
    of the queue; when one cannot be had it goes back to where it was but keeps the
    blocks in the ring.  The loops over the elements of a block are those of the
    implicit producer; items and exceptions are as there.  [noexcept] is whether the
    constructor is known not to throw; the front of the index is then published
    before the items are constructed. *)
From S2P Require Import Prelude QueueDetails QueueBlock Producer ImplicitProducer ImplicitBulk ExplicitProducer.

Section Bulk.
Context {T : Type}.
Implicit Types (h : Heap T) (p : ExplicitProducer).

(** ** Enqueue *)

(** The next empty block of the ring, unless the tail block is the last before the
    first one taken. *)
Definition block_ahead h p (firstAllocatedBlock : option nat) : outcome (option nat) :=
  match tailBlock (exp_base p) with
  | None => Ret None
  | Some t =>
      b ← get_block h t;
      if bool_decide (next b = firstAllocatedBlock) then Ret None
      else
        x ← of_option BadPointer (next b);
        b ← get_block h x;
        e ← is_empty explicit_context b;
        Ret (if (e : bool) then Some x else None)
  end.

(** [x] becomes the tail block and the entry at the front of the index. *)
Definition use_block p (currentTailIndex : Z) (x : nat) : outcome ExplicitProducer :=
  add_index_entry false (set_exp_base p (set_tailBlock (exp_base p) (Some x))) currentTailIndex x.

(** The loop over the blocks ahead: how much is left to allocate, where, and the first
    block. *)
Fixpoint take_blocks_ahead (fuel : nat) h p (blockBaseDiff currentTailIndex : Z) (firstAllocatedBlock : option nat)
    : outcome (Z * Z * option nat * ExplicitProducer) :=
  if blockBaseDiff =? 0 then Ret (blockBaseDiff, currentTailIndex, firstAllocatedBlock, p)
  else match fuel with
  | O => Fault Diverges
  | S fuel =>
      o ← block_ahead h p firstAllocatedBlock;
      match o with
      | None => Ret (blockBaseDiff, currentTailIndex, firstAllocatedBlock, p)
      | Some x =>
          let currentTailIndex := currentTailIndex +w BLOCK_SIZE in
          p ← use_block p currentTailIndex x;
          take_blocks_ahead fuel h p (blockBaseDiff -w BLOCK_SIZE) currentTailIndex
            (if is_null firstAllocatedBlock then Some x else firstAllocatedBlock)
      end
  end.

(** Room in the index for a block at [currentTailIndex].  The index that is made is
    kept, so the front to go back to changes with it. *)
Definition room_in_index (allocMode : AllocationMode) h p (currentTailIndex originalBlockIndexFront originalBlockIndexSlotsUsed : Z)
    : outcome (bool * Z * Heap T * ExplicitProducer) :=
  let full := subqueue_full (headIndex (exp_base p)) currentTailIndex in
  if match exp_headers p with [] => true | _ => pr_blockIndexSlotsUsed p =? pr_blockIndexSize p end || full then
    match allocMode with
    | CannotAlloc => Ret (false, originalBlockIndexFront, h, p)
    | CanAlloc =>
        if full then Ret (false, originalBlockIndexFront, h, p)
        else
          '(ok, h, p) ← explicit_new_block_index h p originalBlockIndexSlotsUsed;
          Ret (ok, if (ok : bool) then originalBlockIndexSlotsUsed else originalBlockIndexFront, h, p)
    end
  else Ret (true, originalBlockIndexFront, h, p).

(** The loop that takes blocks of the queue: whether all of them were to be had, the
    first block, and the front to go back to. *)
Fixpoint take_new_blocks (fuel : nat) (allocMode : AllocationMode) (garbage : nat -> list bool) h p
    (blockBaseDiff currentTailIndex : Z) (firstAllocatedBlock : option nat) (originalBlockIndexFront originalBlockIndexSlotsUsed : Z)
    : outcome (bool * option nat * Z * Heap T * ExplicitProducer) :=
  if blockBaseDiff =? 0 then Ret (true, firstAllocatedBlock, originalBlockIndexFront, h, p)
  else match fuel with
  | O => Fault Diverges
  | S fuel =>
      let currentTailIndex := currentTailIndex +w BLOCK_SIZE in
      if circular_less_than currentTailIndex (headIndex (exp_base p)) then Fault AssertFailed
      else
        '(ok, originalBlockIndexFront, h, p) ← room_in_index allocMode h p currentTailIndex originalBlockIndexFront originalBlockIndexSlotsUsed;
        if negb (ok : bool) then Ret (false, firstAllocatedBlock, originalBlockIndexFront, h, p)
        else
          '(newBlock, h) ← requisition_block allocMode (garbage fuel) h;
          match newBlock with
          | None => Ret (false, firstAllocatedBlock, originalBlockIndexFront, h, p)
          | Some x =>
              b ← get_block h x;
              let h := put_block h x (set_all_empty explicit_context b) in
              h ← insert_in_ring h (tailBlock (exp_base p)) x;
              p ← use_block (set_slots_used p (pr_blockIndexSlotsUsed p +w 1)) currentTailIndex x;
              take_new_blocks fuel allocMode garbage h p (blockBaseDiff -w BLOCK_SIZE) currentTailIndex
                (if is_null firstAllocatedBlock then Some x else firstAllocatedBlock)
                originalBlockIndexFront originalBlockIndexSlotsUsed
          end
  end.

(** Going back; the blocks stay in the ring. *)
Definition undo p (originalBlockIndexFront originalBlockIndexSlotsUsed : Z) (startBlock firstAllocatedBlock : option nat) : ExplicitProducer :=
  let p := set_slots_used (set_pr_front p originalBlockIndexFront) originalBlockIndexSlotsUsed in
  set_exp_base p (set_tailBlock (exp_base p) (if is_null startBlock then firstAllocatedBlock else startBlock)).

(** The loop that resets the flags of the blocks from [block] to [last]. *)
Fixpoint reset_blocks (fuel : nat) h (block last : option nat) : outcome (Heap T) :=
  match fuel with
  | O => Fault Diverges
  | S fuel =>
      x ← of_option BadPointer block;
      h ← reset_block explicit_context h x;
      if bool_decide (block = last) then Ret h
      else block ← next_of h block; reset_blocks fuel h block last
  end.

(** [blockIndex->front.store((pr_blockIndexFront - 1) & (pr_blockIndexSize - 1))] *)
Definition publish_front p : outcome ExplicitProducer :=
  hd ← current_header p;
  Ret (set_exp_headers p
    (mkExpHeader (eh_size hd) (Z.land (pr_blockIndexFront p -w 1) (pr_blockIndexSize p -w 1)) (eh_entries hd) :: tail (exp_headers p))).

Definition explicit_enqueue_bulk (allocMode : AllocationMode) (noexcept : bool) (garbage : nat -> list bool) h p (items : list (option T))
    : outcome (EnqueueResult * Heap T * ExplicitProducer) :=
  let count := Z.of_nat (length items) in
  let startTailIndex := tailIndex (exp_base p) in
  let startBlock := tailBlock (exp_base p) in
  let originalBlockIndexFront := pr_blockIndexFront p in
  let originalBlockIndexSlotsUsed := pr_blockIndexSlotsUsed p in
  let start := block_start (startTailIndex -w 1) in
  let blockBaseDiff := block_start ((startTailIndex +w count) -w 1) -w start in
  let fuel := Z.to_nat (blockBaseDiff / BLOCK_SIZE) in
  '(diff, currentTailIndex, firstAllocatedBlock, p) ← take_blocks_ahead fuel h p blockBaseDiff start None;
  '(ok, firstAllocatedBlock, originalBlockIndexFront, h, p) ←
    take_new_blocks fuel allocMode garbage h p diff currentTailIndex firstAllocatedBlock originalBlockIndexFront originalBlockIndexSlotsUsed;
  if negb (ok : bool) then Ret (Refused, h, undo p originalBlockIndexFront originalBlockIndexSlotsUsed startBlock firstAllocatedBlock)
  else
    '(h, p) ←
      (if blockBaseDiff =? 0 then Ret (h, p)
       else
         h ← reset_blocks fuel h firstAllocatedBlock (tailBlock (exp_base p));
         p ← (if noexcept then publish_front p else Ret p);
         Ret (h, p));
    '(threw, block, h) ← fill (S fuel) h startBlock firstAllocatedBlock (tailBlock (exp_base p)) startTailIndex items;
    if (threw : bool) then Ret (Threw, h, undo p originalBlockIndexFront originalBlockIndexSlotsUsed startBlock firstAllocatedBlock)
    else
      p ← (if negb noexcept && negb (is_null firstAllocatedBlock) then publish_front p else Ret p);
      Ret (Enqueued, h, set_exp_base p (set_tailIndex (set_tailBlock (exp_base p) block) (startTailIndex +w count))).

(** ** Dequeue *)

Definition mark_gone h (x : nat) (firstIndexInBlock endIndex : Z) : outcome (Heap T) :=
  blk ← get_block h x;
  '(_, blk) ← set_many_empty explicit_context blk firstIndexInBlock (endIndex -w firstIndexInBlock);
  Ret (put_block h x blk).

Definition next_entry (hd : ExplicitHeader) (indexIndex : Z) : Z := Z.land (indexIndex +w 1) (eh_size hd -w 1).

(** The loop of the handler: the elements from [index] on are destroyed. *)
Fixpoint explicit_drop_blocks (fuel : nat) h (hd : ExplicitHeader) (indexIndex firstIndexInBlock index endIndex stop : Z) : outcome (Heap T) :=
  match fuel with
  | O => Fault Diverges
  | S fuel =>
      e ← exp_entry hd indexIndex;
      h ← destroy_range (Z.to_nat BLOCK_SIZE) h (Some (ee_block e)) index endIndex;
      h ← mark_gone h (ee_block e) firstIndexInBlock endIndex;
      if endIndex =? stop then Ret h
      else explicit_drop_blocks fuel h hd (next_entry hd indexIndex) endIndex endIndex (block_end endIndex stop) stop
  end.

(** The loop over the blocks. *)
Fixpoint explicit_dequeue_blocks (fuel : nat) h (hd : ExplicitHeader) (indexIndex index stop : Z) (throws : option nat)
    : outcome (list T * bool * Heap T) :=
  match fuel with
  | O => Fault Diverges
  | S fuel' =>
      let endIndex := block_end index stop in
      e ← exp_entry hd indexIndex;
      '(l, here, throws, threw, h) ← move_out (Z.to_nat BLOCK_SIZE) h (ee_block e) index endIndex throws;
      if (threw : bool) then
        h ← explicit_drop_blocks fuel h hd indexIndex index here endIndex stop;
        Ret (l, true, h)
      else
        h ← mark_gone h (ee_block e) index endIndex;
        if endIndex =? stop then Ret (l, false, h)
        else
          '(l', threw, h) ← explicit_dequeue_blocks fuel' h hd (next_entry hd indexIndex) endIndex stop throws;
          Ret (l ++ l', threw, h)
  end.

(** The elements that were assigned, and whether the call ended with an exception. *)
Definition explicit_dequeue_bulk (throws : option nat) h p (max : Z) : outcome (list T * bool * Heap T * ExplicitProducer) :=
  match claim_bulk (exp_base p) max with
  | (None, b) => Ret ([], false, h, set_exp_base p b)
  | (Some (firstIndex, actualCount), b) =>
      let p := set_exp_base p b in
      hd ← current_header p;
      indexIndex ← explicit_slot hd firstIndex;
      '(l, threw, h) ← explicit_dequeue_blocks (S (Z.to_nat actualCount)) h hd indexIndex firstIndex (firstIndex +w actualCount) throws;
      Ret (l, threw, h, p)
  end.
End Bulk.
