(* ===== verification/ExplicitBulkSpec.v ===== *)
(** * Bulk operations of the explicit producer against the queue

    [explicit_dequeue_bulk] takes the oldest elements in order.  [explicit_enqueue_bulk]
    appends its items when no constructor throws and every block is to be had. *)
From S2P Require Import Prelude QueueDetails QueueBlock Producer ImplicitProducer ImplicitIndex ImplicitSpec ImplicitBulk BlockCells ExplicitProducer ExplicitSpec ExplicitBulk.
Arguments slots : simpl never.
Arguments flags_at : simpl never.

(** ** Empty flags *)

Lemma set_flags_spec n : forall flags i,
  (i + n <= length flags)%nat -> (forall f, (i <= f < i + n)%nat -> flags !! f = Some false) ->
  exists flags', set_flags_from flags i n = Ret flags' /\
    forall f, flags' !! f = if decide (i <= f < i + n)%nat then Some true else flags !! f.
Proof.
  induction n as [|n IH]; intros flags i Hl Hf; cbn [set_flags_from].
  { exists flags. split; [done|]. intros f. by rewrite decide_False by lia. }
  rewrite (Hf i) by lia. destruct (IH (<[i := true]> flags) (S i)) as (flags' & E & Hf').
  - rewrite length_insert. lia.
  - intros f Hif. rewrite list_lookup_insert_ne by lia. apply Hf. lia.
  - exists flags'. split; [done|]. intros f. rewrite Hf', list_lookup_insert. repeat case_decide; try done; try lia.
Qed.

(** [n] elements from [hd] on, all in one block, are marked. *)
Lemma flags_set_many hd n :
  0 <= n -> hd mod 32 + n <= 32 ->
  set_flags_from (flags_at hd (hd / 32)) (Z.to_nat (BLOCK_SIZE - 1 - Z.of_nat (offset (u64 hd)) - n + 1)) (Z.to_nat n) = Ret (flags_at (hd + n) (hd / 32)).
Proof.
  intros Hn Hm. pose proof (Z.mod_pos_bound hd 32 ltac:(lia)). pose proof (Z.div_mod hd 32 ltac:(lia)).
  rewrite offset_u64. unfold BLOCK_SIZE. rewrite Z2Nat.id by lia.
  destruct (set_flags_spec (Z.to_nat n) (flags_at hd (hd / 32)) (Z.to_nat (32 - 1 - hd mod 32 - n + 1))) as (flags' & E & Hf).
  - rewrite flags_length. lia.
  - intros f Hif. rewrite flags_lookup, decide_True by lia. f_equal. apply Z.ltb_ge. lia.
  - rewrite E. f_equal. apply list_eq. intros f. rewrite Hf, !flags_lookup. repeat case_decide; try done; try lia; f_equal; zbool; try done; lia.
Qed.

Lemma flags_other_many hd n j : 0 <= n -> hd mod 32 + n <= 32 -> j <> hd / 32 -> flags_at (hd + n) j = flags_at hd j.
Proof.
  intros Hn Hm Hj. apply flags_ext. intros f Hf. pose proof (Z.mod_pos_bound hd 32 ltac:(lia)). pose proof (Z.div_mod hd 32 ltac:(lia)).
  zbool; try done; lia.
Qed.

Section BulkSpec.
Context {T : Type}.
Implicit Types (h : Heap T) (p : ExplicitProducer) (q l : list T).

(** ** The ring as cells *)

(** Links and flags of the ring when elements up to [hd] are gone. *)
Definition marks h (ring : list nat) (first hd : Z) : Prop :=
  forall i x, ring !! i = Some x -> exists b, blocks h !! x = Some b /\ next b = succ_in ring i /\ emptyFlags b = flags_at hd (first + Z.of_nat i).

Lemma ring_rep_cells h ring first hd q : ring_rep h ring first hd q <-> cells h first ring (queue_cells q hd) /\ marks h ring first hd.
Proof.
  split.
  - intros Hr. split; intros i x Hi; destruct (Hr i x Hi) as (b & Hb & Hn & [Hf He]); by exists b.
  - intros [Hc Hm] i x Hi. destruct (Hc i x Hi) as (b & Hb & He). destruct (Hm i x Hi) as (b' & Hb' & Hn & Hf). rewrite Hb in Hb'. injection Hb' as <-.
    exists b. split; [done|]. split; [done|]. by constructor.
Qed.

Lemma marks_shape h h' ring first hd : same_shape h h' -> marks h ring first hd -> marks h' ring first hd.
Proof.
  intros Hs Hm i x Hi. destruct (Hm i x Hi) as (b & Hb & Hn & Hf). destruct (same_shape_lookup _ _ _ _ Hs Hb) as (b' & Hb' & E).
  exists b'. split; [done|]. injection E as -> _ -> _ _ _. done.
Qed.

(** Elements up to [hd] are marked, elements up to [hd + m] are gone, [q] are the others. *)
Record epart h (F : gset nat) (hd m : Z) q (ring : list nat) (first : Z) : Prop := mk_epart {
  ep_own : own h F ring;
  ep_nodup : NoDup ring;
  ep_cells : cells h first ring (queue_cells q (hd + m));
  ep_marks : marks h ring first hd }.

Section Loops.
Context (F : gset nat) (ring : list nat) (first : Z).

Lemma epart_change h h1 hd m m' q q' :
  epart h F hd m q ring first -> changed F first ring h h1 (queue_cells q' (hd + m')) -> epart h1 F hd m' q' ring first.
Proof. intros [] (S1 & C1 & M1). constructor; try done; [apply S1|by eapply marks_shape]. Qed.

(** The elements of a block are marked. *)
Lemma mark_gone_spec h hd n q k x :
  epart h F hd n q ring first -> 0 <= n -> hd mod 32 + n <= 32 -> ring !! k = Some x -> hd / 32 = first + Z.of_nat k ->
  exists h', mark_gone h x (u64 hd) (u64 (hd + n)) = Ret h' /\ stepped F h h' ring /\ epart h' F (hd + n) 0 q ring first.
Proof.
  intros [Hown Hnd Hc Hm] Hn Hr Hk Hj. pose proof (Z.mod_pos_bound hd 32 ltac:(lia)).
  destruct (Hm k x Hk) as (b & Hb & Hnx & Hf). destruct (Hc k x Hk) as (b0 & Hb0 & He). rewrite Hb in Hb0. injection Hb0 as <-.
  unfold mark_gone. rewrite (get_block_Ret _ _ _ Hb), ret_bind. cbn [set_many_empty].
  assert (u64 (hd + n) -w u64 hd = n) as ->.
  { rewrite u64_sub_l, u64_sub_r. replace (hd + n - hd) with n by lia. apply u64_small. unfold is_u64, UINT64_MOD. lia. }
  rewrite Hf, <- Hj, flags_set_many, !ret_bind by lia. eexists. split; [done|].
  assert (stepped F h (put_block h x (set_emptyFlags b (flags_at (hd + n) (hd / 32)))) ring) as S1.
  { eapply own_write; [done|by eapply list_elem_of_lookup_2|exact (own_refs _ _ _ _ _ _ Hown Hk Hb)| |exact Hb|done]. cbn. by rewrite He, slots_length. }
  split; [done|]. constructor; [apply S1|done| |].
  - rewrite Z.add_0_r. intros i y Hi. rewrite put_block_lookup. case_decide; [subst y|by apply Hc].
    rewrite (NoDup_lookup _ _ _ _ Hnd Hi Hk). eexists. split; [done|]. exact He.
  - intros i y Hi. rewrite put_block_lookup. destruct (Hm i y Hi) as (c & Hcb & Hcn & Hcf). case_decide as E.
    + subst y. rewrite (NoDup_lookup _ _ _ _ Hnd Hi Hk) in *. eexists. split; [done|]. cbn. by rewrite <- Hj.
    + exists c. split; [done|]. split; [done|]. rewrite Hcf. symmetry. apply flags_other_many; [done|done|].
      intros Ei. apply E. assert (i = k) as -> by lia. congruence.
Qed.

(** ** The loops of [dequeue_bulk] *)

Context (hdr : ExplicitHeader) (front : Z).
Context (Hok : entries_ok (eh_entries hdr) (eh_size hdr) front ring first).

(** The slot of block number [j]. *)
Definition epos (j : Z) : Z := (front - Z.of_nat (length ring) + (j - first)) mod eh_size hdr.

Lemma epos_entry j k x : ring !! k = Some x -> j = first + Z.of_nat k -> exists e, exp_entry hdr (epos j) = Ret e /\ ee_block e = x.
Proof.
  intros Hk ->. eexists. split; [|exact (eq_refl (ee_block (mkExpEntry (u64 (32 * (first + Z.of_nat k))) x)))].
  apply exp_entry_Ret. rewrite <- (en_at _ _ _ _ _ Hok k x Hk). unfold epos. do 4 f_equal. lia.
Qed.

Lemma epos_next j : next_entry hdr (epos j) = epos (j + 1).
Proof. unfold next_entry. rewrite (land_size _ _ _ _ _ _ Hok). unfold epos. rewrite Zplus_mod_idemp_l. f_equal. lia. Qed.

(** Elements of a queue that ends at [stop] lie in the ring. *)
Lemma ring_at i stop : first <= i / 32 -> i < stop -> stop <= 32 * (first + Z.of_nat (length ring)) ->
  exists k x, ring !! k = Some x /\ i / 32 = first + Z.of_nat k.
Proof.
  intros H1 H2 H3. pose proof (Z.div_mod i 32 ltac:(lia)). pose proof (Z.mod_pos_bound i 32 ltac:(lia)).
  destruct (lookup_lt_is_Some_2 ring (Z.to_nat (i / 32 - first))) as [x Hx]; [lia|]. exists (Z.to_nat (i / 32 - first)), x. split; [done|lia].
Qed.

Lemma next_block_start hd E : E = 32 - hd mod 32 -> (hd + E) mod 32 = 0 /\ (hd + E) / 32 = hd / 32 + 1.
Proof. intros ->. pose proof (Z.div_mod hd 32 ltac:(lia)). replace (hd + (32 - hd mod 32)) with ((hd / 32 + 1) * 32) by lia. by rewrite Z_mod_mult, Z.div_mul by lia. Qed.

Lemma explicit_drop_spec fuel : forall h hd m l q,
  epart h F hd m (l ++ q) ring first -> 0 <= m -> hd mod 32 + m < 32 -> l <> [] -> (length l <= fuel)%nat -> first <= hd / 32 ->
  m + Z.of_nat (length l) < 9223372036854775808 -> hd + m + Z.of_nat (length l) <= 32 * (first + Z.of_nat (length ring)) ->
  exists h', explicit_drop_blocks fuel h hdr (epos (hd / 32)) (u64 hd) (u64 (hd + m))
      (u64 (hd + Z.min (m + Z.of_nat (length l)) (32 - hd mod 32))) (u64 (hd + (m + Z.of_nat (length l)))) = Ret h' /\
    stepped F h h' ring /\ epart h' F (hd + (m + Z.of_nat (length l))) 0 q ring first.
Proof.
  induction fuel as [|fuel IH]; intros h hd m l q Hp Hm0 Hm Hl Hf Hfirst Hb Ht.
  { destruct l; [done|cbn in Hf; lia]. }
  pose proof (Z.div_mod hd 32 ltac:(lia)). pose proof (Z.mod_pos_bound hd 32 ltac:(lia)).
  assert (0 < Z.of_nat (length l)) by (destruct l; [done|cbn; lia]). destruct (div_within hd m Hm0 Hm) as [Ed Em].
  remember (Z.min (m + Z.of_nat (length l)) (32 - hd mod 32)) as E eqn:HE. remember (Z.to_nat (E - m)) as n eqn:HN.
  destruct (ring_at hd (hd + m + Z.of_nat (length l)) Hfirst ltac:(lia) Ht) as (k & x & Hk & Hj).
  destruct (epos_entry (hd / 32) k x Hk Hj) as (e & He & Ex). cbn [explicit_drop_blocks]. rewrite He, ret_bind, Ex.
  destruct (cells_drop F first ring k x (ep_nodup _ _ _ _ _ _ _ Hp) Hk n h (hd + m) l q) as (h1 & E1 & C1);
    [apply Hp|apply Hp|by rewrite Ed|lia|lia|]. replace (hd + m + Z.of_nat n) with (hd + E) in * by lia. rewrite E1, ret_bind.
  pose proof (epart_change _ _ _ _ _ _ _ Hp C1) as Hp1.
  destruct (mark_gone_spec h1 hd E (drop n l ++ q) k x Hp1 ltac:(lia) ltac:(lia) Hk Hj) as (h2 & -> & S2 & Hp2). rewrite ret_bind.
  assert (stepped F h h2 ring) as S12 by (eapply stepped_trans; [apply C1|done]).
  replace (hd + (m + Z.of_nat (length l))) with (hd + E + (m + Z.of_nat (length l) - E)) by lia.
  rewrite u64_eqb by lia. destruct (Z.eqb_spec (m + Z.of_nat (length l) - E) 0) as [E0|E0].
  - rewrite E0, Z.add_0_r. assert (drop n l = []) as Edr by (apply drop_ge; lia). rewrite Edr in Hp2. by exists h2.
  - destruct (next_block_start hd E ltac:(lia)) as [Em2 Ed2]. rewrite epos_next, <- Ed2.
    assert (Z.of_nat (length (drop n l)) = m + Z.of_nat (length l) - E) as Hd by (rewrite length_drop; lia).
    destruct (IH h2 (hd + E) 0 (drop n l) q) as (h3 & E3 & S3 & Hp3); try done; try lia.
    + intros En. rewrite En in Hd. cbn in Hd. lia.
    + rewrite Hd, Em2, Z.add_0_r, !Z.add_0_l in *. rewrite block_end_spec, Em2 by lia. rewrite E3. exists h3. split; [done|].
      split; [by eapply stepped_trans|done].
Qed.

Lemma explicit_blocks_spec fuel : forall h hd l q throws,
  epart h F hd 0 (l ++ q) ring first -> l ++ q <> [] -> (length l < fuel)%nat -> first <= hd / 32 ->
  Z.of_nat (length l) < 9223372036854775808 -> hd + Z.of_nat (length (l ++ q)) <= 32 * (first + Z.of_nat (length ring)) ->
  let m := assigned throws (length l) in
  exists h', explicit_dequeue_blocks fuel h hdr (epos (hd / 32)) (u64 hd) (u64 (hd + Z.of_nat (length l))) throws =
      Ret (take m l, bool_decide (m < length l)%nat, h') /\
    stepped F h h' ring /\ epart h' F (hd + Z.of_nat (length l)) 0 q ring first.
Proof.
  induction fuel as [|fuel IH]; intros h hd l q throws Hp Hne Hf Hfirst Hb Ht m; [lia|].
  pose proof (Z.div_mod hd 32 ltac:(lia)). pose proof (Z.mod_pos_bound hd 32 ltac:(lia)).
  assert (0 < Z.of_nat (length (l ++ q))) by (destruct (l ++ q); [done|cbn; lia]).
  remember (Z.min (Z.of_nat (length l)) (32 - hd mod 32)) as E eqn:HE. remember (Z.to_nat E) as n eqn:HN.
  destruct (ring_at hd (hd + Z.of_nat (length (l ++ q))) Hfirst ltac:(lia) Ht) as (k & x & Hk & Hj).
  destruct (epos_entry (hd / 32) k x Hk Hj) as (e & He & Ex). cbn [explicit_dequeue_blocks]. rewrite He, ret_bind, Ex, block_end_spec, <- HE by lia.
  pose proof (ep_cells _ _ _ _ _ _ _ Hp) as Hc. rewrite Z.add_0_r in Hc.
  destruct (cells_move F first ring k x (ep_nodup _ _ _ _ _ _ _ Hp) Hk n h hd l q throws) as (h1 & E1 & C1);
    [apply Hp|done|done|lia|lia|]. remember (assigned throws n) as m1 eqn:Hm1e. pose proof (assigned_le throws n) as Hm1. rewrite <- Hm1e in Hm1.
  replace (hd + Z.of_nat n) with (hd + E) in E1 by lia. rewrite E1, ret_bind. cbv beta iota.
  pose proof (epart_change _ _ _ _ _ _ _ Hp C1) as Hp1. case_bool_decide as Hthrew.
  - assert (m = m1) as -> by (subst m m1; destruct throws; cbn in *; lia).
    rewrite bool_decide_true by lia. assert (length (drop m1 l) = length l - m1)%nat as Hd by apply length_drop.
    destruct (explicit_drop_spec (S fuel) h1 hd (Z.of_nat m1) (drop m1 l) q Hp1) as (h2 & E2 & S2 & Hp2); try lia.
    { intros Ed. rewrite Ed in Hd. cbn in Hd. lia. }
    { rewrite length_app in Ht. lia. }
    replace (Z.of_nat m1 + Z.of_nat (length (drop m1 l))) with (Z.of_nat (length l)) in * by lia.
    rewrite <- HE in E2. rewrite E2, ret_bind. exists h2. split; [done|]. split; [|done]. eapply stepped_trans; [apply C1|done].
  - assert (m1 = n) as Em1 by lia. rewrite Em1 in *.
    destruct (mark_gone_spec h1 hd (Z.of_nat n) (drop n l ++ q) k x Hp1 ltac:(lia) ltac:(lia) Hk Hj) as (h2 & E2 & S2 & Hp2).
    replace (Z.of_nat n) with E in * by lia. rewrite E2, ret_bind. cbv beta iota.
    assert (stepped F h h2 ring) as S12 by (eapply stepped_trans; [apply C1|done]).
    replace (hd + Z.of_nat (length l)) with (hd + E + (Z.of_nat (length l) - E)) by lia.
    rewrite u64_eqb by lia. destruct (Z.eqb_spec (Z.of_nat (length l) - E) 0) as [E0|E0].
    + rewrite E0, Z.add_0_r. assert (drop n l = []) as Ed by (apply drop_ge; lia). rewrite Ed in Hp2.
      assert (n = length l) as En by lia. assert (m = length l) as -> by (subst m; rewrite <- En; lia).
      rewrite bool_decide_false, En by lia. by exists h2.
    + destruct (next_block_start hd E ltac:(lia)) as [Em2 Ed2]. rewrite epos_next, <- Ed2.
      assert (length (drop n l) = length l - n)%nat as Hd by apply length_drop.
      destruct (IH h2 (hd + E) (drop n l) q ((fun t => t - n)%nat <$> throws)) as (h3 & E3 & S3 & Hp3); try done; try lia.
      * intros En%app_nil. rewrite (proj1 En) in Hd. cbn in Hd. lia.
      * rewrite length_app in *. lia.
      * replace (Z.of_nat (length l) - E) with (Z.of_nat (length (drop n l))) by lia. rewrite E3, ret_bind. cbv beta iota.
        set (m3 := assigned _ (length (drop n l))) in *.
        assert (m = n + m3)%nat as -> by (subst m m1 m3; rewrite Hd; destruct throws; cbn in *; lia).
        exists h3. split; [|split; [by eapply stepped_trans|done]].
        rewrite take_take_drop, (bool_decide_ext (m3 < length (drop n l))%nat (n + m3 < length l)%nat) by lia. done.
Qed.
End Loops.

Lemma exp_dequeue_bulk_spec throws h p q hd ring F max :
  own h F ring -> exp_rep h p q hd ring -> is_u64 max ->
  let n := Nat.min (length q) (Z.to_nat max) in
  let m := assigned throws n in
  exists h' p', explicit_dequeue_bulk throws h p max = Ret (take m q, bool_decide (m < n)%nat, h', p') /\
    stepped F h h' ring /\ exp_rep h' p' (drop n q) (hd + Z.of_nat n) ring.
Proof.
  intros Hown Hrep Hmax n m. pose proof Hrep as [Hbase Hfirst Hfits Hnd Hlen Hr Htail [Hu Hidx]]. unfold is_u64 in Hmax.
  pose proof (br_len _ _ _ Hbase) as Hq. unfold explicit_dequeue_bulk.
  pose proof (claim_bulk_spec _ _ _ max Hbase Hmax) as Hclaim. destruct (Z.eqb_spec (Z.of_nat (length q)) 0) as [E0|E0].
  { rewrite Hclaim. assert (q = []) as -> by (apply length_zero_iff_nil; lia). cbn [length Nat.min] in *. subst n.
    assert (m = 0%nat) as -> by (pose proof (assigned_le throws 0 : (m <= 0)%nat); lia).
    exists h, p. split; [by destruct p|]. split; [by apply stepped_refl|]. by rewrite Z.add_0_r. }
  destruct Hclaim as (b' & -> & Hb' & Etb). replace (Z.min (Z.of_nat (length q)) max) with (Z.of_nat n) in * by lia.
  set (t := hd + Z.of_nat (length q)) in *. unfold first_of in *. set (first := (t + 31) / 32 - Z.of_nat (length ring)) in *.
  pose proof (Z.div_mod (t + 31) 32 ltac:(lia)). pose proof (Z.mod_pos_bound (t + 31) 32 ltac:(lia)).
  assert (first <= hd / 32) as Hf1 by (apply Z.div_le_lower_bound; lia).
  unfold current_header. cbn [set_exp_base exp_headers]. destruct (ring_at ring first hd t Hf1 ltac:(lia) ltac:(lia)) as (k & x & Hk & Hj).
  destruct (exp_headers p) as [|hdr hdrs] eqn:Eh; [by destruct Hidx as [-> _]|]. destruct Hidx as (Es & Hok & Hfront).
  cbn [head of_option]. rewrite ret_bind, <- Es in *.
  destruct (entry_find hdr _ ring first k x hd Hok) as (e & -> & _ & _); [apply Hfront; by intros ->|done|done|]. rewrite ret_bind, u64_add_l, Nat2Z.id.
  assert ((pr_blockIndexFront p - Z.of_nat (length ring) + Z.of_nat k) mod eh_size hdr = epos ring first hdr (pr_blockIndexFront p) (hd / 32)) as ->.
  { unfold epos. f_equal. lia. }
  assert (length (take n q) = n) as Hn by (rewrite length_take; lia). apply ring_rep_cells in Hr as [Hc Hm].
  destruct (explicit_blocks_spec F ring first hdr _ Hok (S n) h hd (take n q) (drop n q) throws) as (h' & E & S & Hp'); rewrite ?take_drop, ?Hn; try done; try lia.
  - by constructor; rewrite ?Z.add_0_r.
  - intros ->. done.
  - rewrite Hn in E, Hp'. fold m in E. rewrite E, ret_bind. cbv beta iota. pose proof (assigned_le throws n : (m <= n)%nat).
    rewrite take_take, Nat.min_l by lia. eexists h', _. split; [done|]. split; [done|]. destruct Hp' as [_ _ Hc' Hm']. rewrite Z.add_0_r in Hc'.
    assert (hd + Z.of_nat n + Z.of_nat (length (drop n q)) = t) as Et by (rewrite length_drop; lia).
    constructor; unfold first_of; rewrite ?Et; fold first; cbn [set_exp_base exp_base]; try done.
    + by replace (Z.of_nat (length (drop n q))) with (Z.of_nat (length q) - Z.of_nat n) by (rewrite length_drop; lia).
    + lia.
    + lia.
    + by apply ring_rep_cells.
    + by rewrite Etb.
    + split; [done|]. cbn [set_exp_base exp_headers pr_blockIndexSize pr_blockIndexFront]. rewrite Eh. by rewrite <- Es.
Qed.
End BulkSpec.
