(* ===== verification/ExplicitBulkEnqueue.v ===== *)
(** * [enqueue_bulk] of the explicit producer against the queue

    The blocks of the ring are the old ones, the oldest first, and behind them those
    that were taken for the items: empty blocks from the front of the ring, then new
    ones ([taken]).  When all of them are to be had and no constructor throws, the
    items are appended. *)
From S2P Require Import Prelude QueueDetails QueueBlock Producer ImplicitProducer ImplicitIndex ImplicitSpec ImplicitBulk BlockCells BulkLoops ExplicitProducer ExplicitSpec ExplicitEnqueue ExplicitBulk ExplicitBulkSpec.
Arguments slots : simpl never.
Arguments flags_at : simpl never.

Section BulkEnqueue.
Context {T : Type}.
Implicit Types (h : Heap T) (p : ExplicitProducer) (q : list T).

(** ** Taking blocks *)

Definition all_empty : list bool := replicate (Z.to_nat BLOCK_SIZE) true.

Lemma flags_all_empty hd j : 32 * j + 31 < hd -> flags_at hd j = all_empty.
Proof.
  intros H. apply list_eq. intros f. rewrite flags_lookup. unfold all_empty. case_decide.
  - rewrite lookup_replicate_2 by done. f_equal. apply Z.ltb_lt. lia.
  - symmetry. apply lookup_ge_None_2. rewrite length_replicate. unfold BLOCK_SIZE. lia.
Qed.

(** The first [n] blocks of the ring have the flags of their numbers, the others are
    marked as empty. *)
Definition marked h (ring : list nat) (first hd : Z) (n : nat) : Prop :=
  forall i x, ring !! i = Some x -> exists b, blocks h !! x = Some b /\ next b = succ_in ring i /\
    emptyFlags b = if decide (i < n)%nat then flags_at hd (first + Z.of_nat i) else all_empty.

Lemma marked_all h ring first hd : marked h ring first hd (length ring) <-> marks h ring first hd.
Proof.
  split; intros Hm i x Hi; destruct (Hm i x Hi) as (b & Hb & Hn & Hf); exists b; apply lookup_lt_Some in Hi; [rewrite decide_True in Hf by lia|rewrite decide_True by lia]; done.
Qed.

Record taken h (F : gset nat) (b0 : ProducerBase) p (hd : Z) q (olds news : list nat) : Prop := mk_taken {
  tk_own : own h F (olds ++ news);
  tk_nodup : NoDup (olds ++ news);
  tk_length : Z.of_nat (length (olds ++ news)) <= 288230376151711744;
  tk_first : 32 * first_of olds (hd + Z.of_nat (length q)) <= hd;
  tk_cells : cells h (first_of olds (hd + Z.of_nat (length q))) (olds ++ news) (queue_cells q hd);
  tk_marked : marked h (olds ++ news) (first_of olds (hd + Z.of_nat (length q))) hd (length olds);
  tk_slots : slots_rep p (olds ++ news) (first_of olds (hd + Z.of_nat (length q)));
  tk_base : exp_base p = set_tailBlock b0 (last (olds ++ news));
  tk_start : (hd + Z.of_nat (length q)) mod 32 <> 0 -> last olds = tailBlock b0 }.

Lemma start_taken h F p q hd ring : own h F ring -> exp_rep h p q hd ring -> taken h F (exp_base p) p hd q ring [].
Proof.
  intros Hown [Hbase Hfirst Hfits Hnd Hlen Hr Htail Hidx]. apply ring_rep_cells in Hr as [Hc Hm].
  constructor; rewrite ?app_nil_r; try done; [by apply marked_all|by apply eindex_slots|]. rewrite <- Htail. by destruct (exp_base p).
Qed.

(** A new entry at the front of the index, with room made by forgetting the first
    [d] blocks. *)
Lemma add_slot p hdr hdrs ring first x d :
  exp_headers p = hdr :: hdrs -> eh_size hdr = pr_blockIndexSize p ->
  entries_ok (eh_entries hdr) (pr_blockIndexSize p) (pr_blockIndexFront p) ring first ->
  (d <= length ring)%nat -> Z.of_nat (length ring) + 1 - Z.of_nat d <= pr_blockIndexSize p ->
  pr_blockIndexSlotsUsed p = Z.of_nat (length ring) + 1 - Z.of_nat d ->
  exists p', add_index_entry false p (u64 (32 * (first + Z.of_nat (length ring)))) x = Ret p' /\ exp_base p' = exp_base p /\
    slots_rep p' (drop d (ring ++ [x])) (first + Z.of_nat d).
Proof.
  intros Eh Es Hok Hd Hroom Hu. pose proof (en_front _ _ _ _ _ Hok). pose proof (en_length _ _ _ _ _ Hok).
  unfold add_index_entry, current_header. rewrite Eh. cbn [head of_option]. rewrite ret_bind.
  destruct (Z.leb_spec (Z.of_nat (length (eh_entries hdr))) (pr_blockIndexFront p)); [lia|]. eexists. split; [done|]. split; [done|].
  split; [cbn; rewrite length_drop, length_app; cbn; lia|]. cbn [set_pr_front set_exp_headers exp_headers eh_size eh_entries pr_blockIndexSize pr_blockIndexFront].
  split; [done|]. rewrite (land_size _ _ _ _ _ _ Hok). by apply entries_push.
Qed.

Section Take.
Context (F : gset nat) (b0 : ProducerBase) (hd : Z) (q : list T).
Let t := hd + Z.of_nat (length q).
Let J := (t + 31) / 32.
Context (Hbase : base_rep b0 hd (Z.of_nat (length q))).

(** *** From the ring *)

Definition is_gone (olds : list nat) : bool := 32 * first_of olds t + 31 <? hd.

Lemma block_ahead_spec h p olds news :
  taken h F b0 p hd q olds news ->
  block_ahead h p (head news) = Ret (match olds with x :: _ => if is_gone olds then Some x else None | [] => None end).
Proof.
  intros [Hown Hnd Hlen Hfirst Hc Hm Hs Hb _]. fold t in Hfirst, Hc, Hm, Hs. unfold block_ahead. rewrite Hb. cbn [set_tailBlock tailBlock].
  destruct (last (olds ++ news)) as [y|] eqn:El; [|apply last_None, app_nil in El as [-> _]; done].
  pose proof (last_at _ _ El) as Hy. pose proof (lookup_lt_Some _ _ _ Hy). destruct (Hm _ _ Hy) as (b & Hby & Hn & _).
  rewrite (get_block_Ret _ _ _ Hby), ret_bind, Hn. unfold succ_in. rewrite decide_False by lia.
  destruct olds as [|x olds]; [cbn [app]; by rewrite bool_decide_true|]. cbn [app head]. rewrite bool_decide_false.
  2:{ destruct news as [|z news]; [done|]. cbn. intros [= ->]. apply NoDup_cons in Hnd as [Hx _]. apply Hx, elem_of_app. right. by left. }
  cbn [of_option]. destruct (Hm 0%nat x eq_refl) as (bx & Hbx & _ & Hf).
  rewrite ret_bind, (get_block_Ret _ _ _ Hbx), ret_bind. cbn [is_empty]. rewrite ret_bind.
  cbn [length] in Hf. rewrite decide_True in Hf by lia. rewrite Hf, flags_empty, Z.add_0_r. done.
Qed.

Lemma step_ahead h p x olds news :
  taken h F b0 p hd q (x :: olds) news -> is_gone (x :: olds) = true ->
  exists p', use_block p (u64 (32 * (J + Z.of_nat (length news)))) x = Ret p' /\ taken h F b0 p' hd q olds (news ++ [x]).
Proof.
  intros [Hown Hnd Hlen Hfirst Hc Hm [Hu Hs] Hb Hst] Hgone. apply Z.ltb_lt in Hgone. fold t in Hfirst, Hc, Hm, Hs, Hst.
  assert (first_of olds t = first_of (x :: olds) t + 1) as Ef by (unfold first_of; cbn [length]; lia).
  pose proof (br_len _ _ _ Hbase). pose proof (Z.div_mod (t + 31) 32 ltac:(lia)) as HJ. pose proof (Z.mod_pos_bound (t + 31) 32 ltac:(lia)). fold J in HJ.
  assert (first_of (x :: olds) t + Z.of_nat (length ((x :: olds) ++ news)) = J + Z.of_nat (length news)) as Ej.
  { unfold first_of. fold J. rewrite length_app. lia. }
  set (ring := olds ++ news) in *. change ((x :: olds) ++ news) with (x :: ring) in *. cbn [length] in *.
  destruct (exp_headers p) as [|hdr hdrs] eqn:Eh; [by destruct Hs|]. destruct Hs as [Es Hok]. pose proof (en_room _ _ _ _ _ Hok) as Hroom. cbn [length] in Hroom.
  destruct (add_slot (set_exp_base p (set_tailBlock (exp_base p) (Some x))) hdr hdrs (x :: ring) _ x 1 Eh Es Hok) as (p' & E & Eb & Hsl); [cbn; lia..|].
  cbn [length] in E. rewrite Ej in E. exists p'. split; [exact E|]. apply NoDup_cons in Hnd as [Hx Hnd].
  assert (olds ++ news ++ [x] = ring ++ [x]) as Er by (unfold ring; by rewrite app_assoc).
  constructor; rewrite ?Er; fold t; rewrite ?Ef.
  - eapply own_perm; [|exact Hown]. by rewrite Permutation_app_comm.
  - apply NoDup_app. split; [done|]. split; [|apply NoDup_singleton]. intros y Hy ->%list_elem_of_singleton. done.
  - rewrite length_app. cbn [length]. lia.
  - lia.
  - intros k y Hk. apply lookup_app_Some in Hk as [Hk|[Hge Hk]].
    + destruct (Hc (S k) y Hk) as (b & Hby & He). exists b. split; [done|]. rewrite He. apply slots_ext. intros i _. f_equal. lia.
    + apply list_lookup_singleton_Some in Hk as [Ek <-]. destruct (Hc 0%nat x eq_refl) as (b & Hbx & He). exists b. split; [done|]. rewrite He.
      apply slots_ext. intros i Hi. unfold queue_cells. rewrite !zget_out; [done| |]; lia.
  - intros k y Hk. apply lookup_app_Some in Hk as [Hk|[Hge Hk]].
    + pose proof (lookup_lt_Some _ _ _ Hk). destruct (Hm (S k) y Hk) as (b & Hby & Hn & Hf). exists b. split; [done|]. rewrite succ_rotate by lia. split; [done|].
      rewrite Hf. repeat case_decide; try lia; [f_equal; lia|done].
    + apply list_lookup_singleton_Some in Hk as [Ek <-]. destruct (Hm 0%nat x eq_refl) as (b & Hbx & Hn & Hf). exists b. split; [done|].
      assert (k = length ring) as -> by lia. rewrite succ_rotate_last. split; [done|]. rewrite Hf, decide_True by lia.
      rewrite decide_False by (unfold ring; rewrite length_app; lia). apply flags_all_empty. lia.
  - exact Hsl.
  - rewrite Eb, last_snoc. cbn. by rewrite Hb.
  - intros Ht. rewrite <- Hst by done. destruct olds as [|y olds]; [|done]. unfold first_of in Hgone. cbn [length] in Hgone. fold J in Hgone.
    pose proof (Z.div_mod t 32 ltac:(lia)). pose proof (Z.mod_pos_bound t 32 ltac:(lia)).
    assert (J = t / 32 + 1) by (symmetry; apply (Z.div_unique _ _ _ (t mod 32 - 1)); lia). lia.
Qed.

(** No empty block is left ahead. *)
Definition stopped (olds : list nat) : Prop := olds = [] \/ is_gone olds = false.

Lemma take_blocks_ahead_spec h n : forall p olds news,
  taken h F b0 p hd q olds news -> Z.of_nat n < 576460752303423488 ->
  exists k p' olds' news', take_blocks_ahead n h p (32 * Z.of_nat n) (u64 (32 * (J + Z.of_nat (length news) - 1))) (head news) =
      Ret (32 * Z.of_nat (n - k), u64 (32 * (J + Z.of_nat (length news') - 1)), head news', p') /\
    taken h F b0 p' hd q olds' news' /\ (k <= n)%nat /\ length news' = (length news + k)%nat /\ (k = n \/ stopped olds').
Proof.
  induction n as [|n IH]; intros p olds news Hg Hn.
  { exists 0%nat, p, olds, news. split; [done|]. split; [done|]. split; [lia|]. split; [lia|]. by left. }
  cbn [take_blocks_ahead]. destruct (Z.eqb_spec (32 * Z.of_nat (S n)) 0); [lia|]. rewrite (block_ahead_spec _ _ _ _ Hg), ret_bind.
  assert (stopped olds -> exists k p' olds' news', Ret (32 * Z.of_nat (S n), u64 (32 * (J + Z.of_nat (length news) - 1)), head news, p) =
      Ret (32 * Z.of_nat (S n - k), u64 (32 * (J + Z.of_nat (length news') - 1)), head news', p') /\
    taken h F b0 p' hd q olds' news' /\ (k <= S n)%nat /\ length news' = (length news + k)%nat /\ (k = S n \/ stopped olds')) as Hstop.
  { intros Hst. exists 0%nat, p, olds, news. rewrite Nat.sub_0_r. split; [done|]. split; [done|]. split; [lia|]. split; [lia|]. by right. }
  destruct olds as [|x olds]; [apply Hstop; by left|]. destruct (is_gone (x :: olds)) eqn:Eg; [|apply Hstop; by right].
  destruct (step_ahead h p x olds news Hg Eg) as (p1 & E1 & Hg1). rewrite u64_add_l.
  replace (32 * (J + Z.of_nat (length news) - 1) + BLOCK_SIZE) with (32 * (J + Z.of_nat (length news))) by (unfold BLOCK_SIZE; lia).
  rewrite E1, ret_bind.
  assert (32 * Z.of_nat (S n) -w BLOCK_SIZE = 32 * Z.of_nat n) as -> by (unfold BLOCK_SIZE; rewrite u64_small by (unfold is_u64, UINT64_MOD; lia); lia).
  destruct (IH p1 olds (news ++ [x]) Hg1 ltac:(lia)) as (k & p' & olds' & news' & E & Hg' & Hk & Hl & Hst). rewrite length_app in E, Hl. cbn [length] in E, Hl.
  replace (J + Z.of_nat (length news + 1) - 1) with (J + Z.of_nat (length news)) in E by lia.
  exists (S k), p', olds', news'. split; [|split; [done|]; split; [lia|]; split; [lia|]; destruct Hst; [left; lia|by right]].
  change (S n - S k)%nat with (n - k)%nat. rewrite <- E. f_equal. by destruct news.
Qed.
(** *** From the queue *)

Lemma taken_mem h h1 p p1 olds news :
  taken h F b0 p hd q olds news -> mem_only h h1 -> exp_base p1 = exp_base p -> slots_rep p1 (olds ++ news) (first_of olds t) ->
  taken h1 F b0 p1 hd q olds news.
Proof.
  intros [Hown Hnd Hlen Hfirst Hc Hm _ Hb Hst] Hmem Eb Hs. destruct (mem_only_blocks _ _ Hmem) as [E _].
  constructor; try done; [by eapply own_mem_only|intros k x Hk; rewrite E; by apply Hc|intros k x Hk; rewrite E; by apply Hm|congruence].
Qed.

Lemma stopped_short h p olds news :
  taken h F b0 p hd q olds news -> stopped olds -> 32 * (J + Z.of_nat (length news)) + 32 - hd < 9223372036854775808 ->
  Z.of_nat (length (olds ++ news)) < 288230376151711744.
Proof.
  intros Hg Hst Hfit. pose proof (br_len _ _ _ Hbase). pose proof (Z.div_mod (t + 31) 32 ltac:(lia)) as HJ. pose proof (Z.mod_pos_bound (t + 31) 32 ltac:(lia)).
  fold J in HJ. rewrite length_app. destruct Hst as [->|Hst]; [cbn; lia|]. apply Z.ltb_ge in Hst. unfold first_of in Hst. fold J in Hst. lia.
Qed.

Lemma room_in_index_spec allocMode h p olds news oldFront used :
  taken h F b0 p hd q olds news -> stopped olds -> 32 * (J + Z.of_nat (length news)) + 32 - hd < 9223372036854775808 ->
  exists ok oldFront' h1 p1, room_in_index allocMode h p (u64 (32 * (J + Z.of_nat (length news)))) oldFront used = Ret (ok, oldFront', h1, p1) /\
    mem_only h h1 /\ taken h1 F b0 p1 hd q olds news /\
    if (ok : bool) then Z.of_nat (length (olds ++ news)) < pr_blockIndexSize p1 /\ exp_headers p1 <> [] else allocMode = CannotAlloc \/ ~ mem_ok h.
Proof.
  intros Hg Hst Hfit. pose proof (stopped_short h p olds news Hg Hst Hfit) as Hshort. pose proof (br_len _ _ _ Hbase).
  pose proof (Z.div_mod (t + 31) 32 ltac:(lia)) as HJ. pose proof (Z.mod_pos_bound (t + 31) 32 ltac:(lia)). fold J in HJ.
  pose proof (tk_slots _ _ _ _ _ _ _ _ Hg) as Hsl. pose proof Hsl as [Hu Hs]. fold t in Hsl, Hs. unfold room_in_index. rewrite (tk_base _ _ _ _ _ _ _ _ Hg). cbn [set_tailBlock headIndex].
  rewrite (br_head _ _ _ Hbase).
  assert (subqueue_full (u64 hd) (u64 (32 * (J + Z.of_nat (length news)))) = false) as ->.
  { replace (32 * (J + Z.of_nat (length news))) with (hd + (32 * (J + Z.of_nat (length news)) - hd)) by lia. rewrite subqueue_full_spec by lia. zbool; [done|lia]. }
  rewrite orb_false_r. destruct (match exp_headers p with [] => true | _ => pr_blockIndexSlotsUsed p =? pr_blockIndexSize p end) eqn:Ec.
  - destruct allocMode.
    2:{ eexists false, _, h, p. split; [done|]. split; [apply mem_only_refl|]. split; [done|by left]. }
    assert (pr_blockIndexSize p <= 2 ^ 58) as Hsize.
    { destruct (exp_headers p) as [|hdr hdrs]; [destruct Hs as (_ & _ & c & Hc & ->); apply Z.pow_le_mono_r; lia|].
      apply Z.eqb_eq in Ec. change (2 ^ 58) with 288230376151711744. lia. }
    destruct (new_slots_spec h p (olds ++ news) _ used Hsl Hsize) as (ok & h1 & p1 & -> & Hm & Eb & Hok & Hsl1 & Ho). rewrite ret_bind. cbv beta iota.
    eexists ok, _, h1, p1. split; [done|]. split; [done|]. split; [by eapply taken_mem|]. destruct ok.
    + destruct Ho as (? & _ & hdr & hdrs & -> & _). done.
    + right. intros Hm0. by discriminate (Hok Hm0).
  - eexists true, _, h, p. split; [done|]. split; [apply mem_only_refl|]. split; [done|]. destruct (exp_headers p) as [|hdr hdrs]; [done|]. split; [|done].
    destruct Hs as [_ Hok]. pose proof (en_room _ _ _ _ _ Hok). apply Z.eqb_neq in Ec. lia.
Qed.

(** The new block [x] with its flags set, linked behind the others. *)
Lemma ring_extend h olds news x b :
  NoDup (olds ++ news) -> cells h (first_of olds t) (olds ++ news) (queue_cells q hd) -> marked h (olds ++ news) (first_of olds t) hd (length olds) ->
  own h F ((olds ++ news) ++ [x]) -> x ∉ olds ++ news -> blocks h !! x = Some b -> raw b ->
  exists h', insert_in_ring (put_block h x (set_all_empty explicit_context b)) (last (olds ++ news)) x = Ret h' /\
    stepped F h h' ((olds ++ news) ++ [x]) /\
    cells h' (first_of olds t) ((olds ++ news) ++ [x]) (queue_cells q hd) /\ marked h' ((olds ++ news) ++ [x]) (first_of olds t) hd (length olds).
Proof.
  intros Hnd Hc Hm Hown Hx Hb Hw. pose proof (br_len _ _ _ Hbase).
  pose proof (Z.div_mod (t + 31) 32 ltac:(lia)) as HJ. pose proof (Z.mod_pos_bound (t + 31) 32 ltac:(lia)). fold J in HJ.
  assert (first_of olds t + Z.of_nat (length (olds ++ news)) = J + Z.of_nat (length news)) as Ej by (unfold first_of; fold J; rewrite length_app; lia).
  assert (length olds <= length (olds ++ news))%nat as Hle by (rewrite length_app; lia).
  remember (olds ++ news) as ring eqn:Er. assert ((ring ++ [x]) !! length ring = Some x) as Hk by (by apply list_lookup_middle).
  set (b1 := set_all_empty explicit_context b). assert (length (elements b1) = Z.to_nat BLOCK_SIZE) as Hl1 by (by apply raw_length).
  assert (stepped F h (put_block h x b1) (ring ++ [x])) as S1 by (eapply ring_put; [done|exact Hk|exact Hb|exact (own_refs _ _ _ _ _ _ Hown Hk Hb)|done|done]).
  assert (forall i y, ring !! i = Some y -> blocks (put_block h x b1) !! y = blocks h !! y) as Hsame.
  { intros i y Hi. rewrite put_block_lookup, decide_False; [done|]. intros ->. apply Hx. by eapply list_elem_of_lookup_2. }
  assert (blocks (put_block h x b1) !! x = Some b1) as Hb1 by (by rewrite put_block_lookup, decide_True).
  destruct (insert_in_ring_spec (put_block h x b1) F ring x b1) as (h2 & E & S2 & H2); try done.
  { apply S1. }
  { intros i y Hi. destruct (Hm i y Hi) as (c & Hcb & Hn & _). destruct (Hc i y Hi) as (c' & Hcb' & He). rewrite (Hsame i y Hi). exists c. split; [done|]. split; [done|].
    rewrite Hcb in Hcb'. injection Hcb' as <-. by rewrite He, slots_length. }
  exists h2. split; [done|]. split; [by eapply stepped_trans|].
  split; intros i y Hi; destruct (H2 i y Hi) as (c & Hcb & Hcb'); apply lookup_app_Some in Hi as [Hi|[Hge Hi]].
  - rewrite (Hsame i y Hi) in Hcb. destruct (Hc i y Hi) as (c' & Hc' & He). rewrite Hcb in Hc'. injection Hc' as <-. eexists. split; [done|]. exact He.
  - apply list_lookup_singleton_Some in Hi as [Ei <-]. rewrite Hb1 in Hcb. injection Hcb as <-. eexists. split; [done|]. change (elements b = slots (fun o => queue_cells q hd (32 * (first_of olds t + Z.of_nat i) + Z.of_nat o))).
    rewrite Hw. symmetry. apply slots_none. intros o Ho. apply zget_out. lia.
  - rewrite (Hsame i y Hi) in Hcb. destruct (Hm i y Hi) as (c' & Hc' & _ & Hf). rewrite Hcb in Hc'. injection Hc' as <-. eexists. split; [done|]. done.
  - apply list_lookup_singleton_Some in Hi as [Ei <-]. rewrite Hb1 in Hcb. injection Hcb as <-. eexists. split; [done|]. split; [done|]. by rewrite decide_False by lia.
Qed.

Lemma new_block_step allocMode garbage h p olds news :
  taken h F b0 p hd q olds news -> Z.of_nat (length (olds ++ news)) < pr_blockIndexSize p -> exp_headers p <> [] ->
  Z.of_nat (length (olds ++ news)) < 288230376151711744 ->
  exists o h1, requisition_block allocMode garbage h = Ret (o, h1) /\ (allocMode = CanAlloc -> mem_ok h -> is_Some o) /\
    match o with
    | None => stepped F h h1 (olds ++ news)
    | Some x => exists b h2 p2, get_block h1 x = Ret b /\
        insert_in_ring (put_block h1 x (set_all_empty explicit_context b)) (tailBlock (exp_base p)) x = Ret h2 /\
        use_block (set_slots_used p (pr_blockIndexSlotsUsed p +w 1)) (u64 (32 * (J + Z.of_nat (length news)))) x = Ret p2 /\
        taken h2 F b0 p2 hd q olds (news ++ [x]) /\ stepped F h h2 (olds ++ news ++ [x])
    end.
Proof.
  intros Hg Hroom Hne Hshort. pose proof Hg as [Hown Hnd Hlen Hfirst Hc Hm [Hu Hs] Hb Hst]. fold t in Hfirst, Hc, Hm, Hs, Hst. pose proof Hown as [Hi Hd].
  destruct (requisition_block_spec allocMode garbage h _ Hi) as (o & h1 & E & (Hsb & Hmem & Ho) & Hcan). exists o, h1. split; [done|]. split; [done|].
  assert (same_blocks F h h1) as HsF by (eapply same_blocks_mono; [|exact Hsb]; set_solver).
  assert (same_blocks (list_to_set (olds ++ news)) h h1) as Hsr by (eapply same_blocks_mono; [|exact Hsb]; set_solver).
  destruct o as [x|]; [|by split]. destruct Ho as (Hx & Hi' & b & Hbx & Hw).
  assert (x ∉ olds ++ news) as Hxr by (intros Hin; apply Hx, elem_of_union_r, elem_of_list_to_set, Hin).
  assert (own h1 F ((olds ++ news) ++ [x])) as Hown1 by (by apply own_push).
  assert (forall k y, (olds ++ news) !! k = Some y -> blocks h1 !! y = blocks h !! y) as Hsame.
  { intros k y Hk. apply Hsr, elem_of_list_to_set. by eapply list_elem_of_lookup_2. }
  destruct (exp_headers p) as [|hdr hdrs] eqn:Eh; [done|]. destruct Hs as [Es Hok]. pose proof (size_pos _ _ _ _ _ Hok).
  destruct (add_slot (set_exp_base (set_slots_used p (pr_blockIndexSlotsUsed p +w 1)) (set_tailBlock (exp_base p) (Some x))) hdr hdrs (olds ++ news) _ x 0 Eh Es Hok)
    as (p2 & E2 & Eb2 & Hsl2); [lia|cbn; lia|cbn; rewrite Hu, u64_small; [lia|unfold is_u64, UINT64_MOD; lia]|].
  assert (first_of olds t + Z.of_nat (length (olds ++ news)) = J + Z.of_nat (length news)) as Ej by (unfold first_of; fold J; rewrite length_app; lia).
  rewrite Ej in E2. rewrite Z.add_0_r in Hsl2. cbn [drop] in Hsl2.
  assert (cells h1 (first_of olds t) (olds ++ news) (queue_cells q hd)) as Hc1 by (intros k y Hk; rewrite (Hsame k y Hk); by apply Hc).
  assert (marked h1 (olds ++ news) (first_of olds t) hd (length olds)) as Hm1 by (intros k y Hk; rewrite (Hsame k y Hk); by apply Hm).
  destruct (ring_extend h1 olds news x b Hnd Hc1 Hm1 Hown1 Hxr Hbx Hw) as (h2 & E3 & S2 & Hc2 & Hm2).
  exists b, h2, p2. split; [by apply get_block_Ret|]. split; [rewrite Hb; exact E3|]. split; [exact E2|].
  rewrite <- app_assoc in *. split; [|eapply stepped_trans; [split; [exact Hown1|by split]|exact S2]].
  constructor; fold t; try done.
  - apply S2.
  - rewrite app_assoc. apply NoDup_app. split; [done|]. split; [|apply NoDup_singleton]. intros y Hy ->%list_elem_of_singleton. done.
  - rewrite app_assoc, length_app. cbn [length]. lia.
  - rewrite Eb2. cbn. by rewrite Hb, app_assoc, last_snoc.
Qed.
Lemma take_new_blocks_spec allocMode garbage used n : forall fuel h p olds news oldFront,
  taken h F b0 p hd q olds news -> (n = 0%nat \/ stopped olds) -> (n <= fuel)%nat ->
  32 * (J + Z.of_nat (length news) + Z.of_nat n) - hd < 9223372036854775808 ->
  exists ok oldFront' h' p' news',
    take_new_blocks fuel allocMode garbage h p (32 * Z.of_nat n) (u64 (32 * (J + Z.of_nat (length news) - 1))) (head news) oldFront used =
      Ret (ok, head news', oldFront', h', p') /\ stepped F h h' (olds ++ news') /\
    if (ok : bool) then taken h' F b0 p' hd q olds news' /\ length news' = (length news + n)%nat else allocMode = CannotAlloc \/ ~ mem_ok h.
Proof.
  induction n as [|n IH]; intros fuel h p olds news oldFront Hg Hst Hf Hfit.
  { eexists true, _, h, p, news. split; [by destruct fuel|]. split; [apply stepped_refl, Hg|]. split; [done|lia]. }
  destruct fuel as [|fuel]; [lia|]. destruct Hst as [?|Hst]; [done|]. pose proof (br_len _ _ _ Hbase).
  pose proof (Z.div_mod (t + 31) 32 ltac:(lia)) as HJ. pose proof (Z.mod_pos_bound (t + 31) 32 ltac:(lia)). fold J in HJ.
  cbn [take_new_blocks]. destruct (Z.eqb_spec (32 * Z.of_nat (S n)) 0); [lia|]. rewrite u64_add_l.
  replace (32 * (J + Z.of_nat (length news) - 1) + BLOCK_SIZE) with (32 * (J + Z.of_nat (length news))) by (unfold BLOCK_SIZE; lia).
  rewrite (tk_base _ _ _ _ _ _ _ _ Hg). cbn [set_tailBlock headIndex]. rewrite (br_head _ _ _ Hbase), circular_less_than_spec by lia.
  destruct (Z.ltb_spec (32 * (J + Z.of_nat (length news))) hd); [lia|].
  assert (32 * Z.of_nat (S n) -w BLOCK_SIZE = 32 * Z.of_nat n) as -> by (unfold BLOCK_SIZE; rewrite u64_small by (unfold is_u64, UINT64_MOD; lia); lia).
  destruct (room_in_index_spec allocMode h p olds news oldFront used Hg Hst ltac:(lia)) as (ok & of1 & h1 & p1 & E1 & Hm1 & Hg1 & Ho).
  rewrite E1, ret_bind. cbv beta iota. clear E1. pose proof (stepped_mem_only F h h1 _ (tk_own _ _ _ _ _ _ _ _ Hg) Hm1) as S1. destruct ok; cbn [negb].
  2:{ eexists false, _, h1, p1, news. split; [done|]. by split. }
  destruct Ho as [Hroom Hne]. pose proof (stopped_short h1 p1 olds news Hg1 Hst ltac:(lia)) as Hshort.
  destruct (new_block_step allocMode (garbage fuel) h1 p1 olds news Hg1 Hroom Hne Hshort) as (o & h2 & -> & Hsome & Ho). rewrite ret_bind. cbv beta iota.
  destruct o as [x|].
  - destruct Ho as (b & h3 & p3 & -> & E3 & E4 & Hg3 & S3). rewrite ret_bind. cbv zeta. rewrite E3, ret_bind, E4, ret_bind.
    destruct (IH fuel h3 p3 olds (news ++ [x]) of1 Hg3) as (ok & of2 & h' & p' & news' & E & S' & R); [by right|lia|rewrite length_app; cbn [length]; lia|].
    rewrite length_app in E, R. cbn [length] in E, R. replace (J + Z.of_nat (length news + 1) - 1) with (J + Z.of_nat (length news)) in E by lia.
    exists ok, of2, h', p', news'. split; [rewrite <- E; f_equal; by destruct news|]. split; [eapply stepped_trans; [exact S1|by eapply stepped_trans]|].
    destruct ok; [split; [apply R|lia]|]. destruct R as [?|Hno]; [by left|right]. intros Hm. apply Hno, S3, S1, Hm.
  - eexists false, _, h2, p1, news. split; [done|]. split; [by eapply stepped_trans|].
    destruct allocMode; [right|by left]. intros Hm. destruct (Hsome eq_refl) as [? ?]; [by apply S1|done].
Qed.
End Take.

(** ** The blocks are ready to be filled *)

Lemma reset_blocks_spec F ring first hd f m : forall fuel h k x,
  own h F ring -> NoDup ring -> cells h first ring f -> marked h ring first hd k -> hd <= 32 * (first + Z.of_nat k) ->
  (k + S m)%nat = length ring -> ring !! k = Some x -> (m < fuel)%nat ->
  exists h', reset_blocks fuel h (Some x) (last ring) = Ret h' /\ stepped F h h' ring /\ cells h' first ring f /\ marks h' ring first hd.
Proof.
  induction m as [|m IH]; intros [|fuel] h k x Hown Hnd Hc Hm Hhd Hk Hx Hf; try lia; cbn [reset_blocks of_option]; rewrite ret_bind;
    destruct (Hm k x Hx) as (b & Hb & Hn & _); destruct (Hc k x Hx) as (b' & Hb' & He); rewrite Hb in Hb'; injection Hb' as <-;
    rewrite (reset_Ret _ _ _ Hb), ret_bind;
    assert (stepped F h (put_block h x (reset_empty explicit_context b)) ring) as S1
      by (eapply ring_put; [done|exact Hx|exact Hb|exact (own_refs _ _ _ _ _ _ Hown Hx Hb)|done|cbn; by rewrite He, slots_length]);
    assert (cells (put_block h x (reset_empty explicit_context b)) first ring f) as Hc1
      by (intros i y Hi; rewrite put_block_lookup; case_decide; [subst y; rewrite (NoDup_lookup _ _ _ _ Hnd Hi Hx); by eexists|by apply Hc]);
    assert (marked (put_block h x (reset_empty explicit_context b)) ring first hd (S k)) as Hm1.
  1,3: intros i y Hi; rewrite put_block_lookup; case_decide as E; destruct (Hm i y Hi) as (c & Hcb & Hcn & Hcf);
    [subst y; rewrite (NoDup_lookup _ _ _ _ Hnd Hi Hx) in *; eexists; split; [done|]; split; [done|]; rewrite decide_True by lia; symmetry; by apply flags_reset|
     exists c; split; [done|]; split; [done|]; rewrite Hcf; assert (i <> k) by congruence; repeat case_decide; (done || lia)].
  - rewrite bool_decide_true. 2:{ rewrite last_lookup. by replace (pred (length ring)) with k by lia. }
    eexists. split; [done|]. split; [done|]. split; [done|]. apply marked_all. by replace (length ring) with (S k) by lia.
  - rewrite bool_decide_false.
    2:{ rewrite last_lookup. intros E. symmetry in E. pose proof (NoDup_lookup _ _ _ _ Hnd E Hx). lia. }
    destruct (lookup_lt_is_Some_2 ring (S k)) as [y Hy]; [lia|].
    assert (next_of (put_block h x (reset_empty explicit_context b)) (Some x) = Ret (Some y)) as ->.
    { unfold next_of. cbn [of_option]. rewrite ret_bind. erewrite get_block_Ret by (by rewrite put_block_lookup, decide_True). rewrite ret_bind. cbn.
      rewrite Hn. unfold succ_in. rewrite decide_True by lia. by rewrite Hy. }
    rewrite ret_bind. destruct (IH fuel _ (S k) y (proj1 S1) Hnd Hc1 Hm1) as (h' & E & S2 & R); try done; try lia.
    exists h'. split; [done|]. split; [by eapply stepped_trans|done].
Qed.

Lemma publish_front_spec p ring first :
  slots_rep p ring first -> ring <> [] -> exists p', publish_front p = Ret p' /\ exp_base p' = exp_base p /\ eindex_rep p' ring first.
Proof.
  intros [Hu Hs] Hne. unfold publish_front, current_header. destruct (exp_headers p) as [|hdr hdrs]; [by destruct Hs|]. destruct Hs as [Es Hok].
  cbn [head of_option]. rewrite ret_bind. eexists. split; [done|]. split; [done|]. split; [done|].
  cbn [set_exp_headers exp_headers eh_size eh_entries eh_front pr_blockIndexSize pr_blockIndexFront]. split; [done|]. split; [done|]. intros _.
  by apply (land_size _ _ _ _ _ _ Hok).
Qed.

(** ** The operation *)

Lemma marks_linked h ring first hd : marks h ring first hd -> linked h ring.
Proof.
  intros Hm k x y Hk Hy. destruct (Hm k x Hk) as (b & Hb & Hn & _). unfold next_at. rewrite Hb. cbn. rewrite Hn. unfold succ_in.
  rewrite decide_True; [by rewrite Hy|]. by apply lookup_lt_Some in Hy.
Qed.

Lemma linked_app h l l' : linked h (l ++ l') -> linked h l'.
Proof. intros Hl k x y Hk Hy. apply (Hl (length l + k)%nat); rewrite lookup_app_r by lia; [rewrite <- Hk|rewrite <- Hy]; f_equal; lia. Qed.

(** The block that is being filled is the last of the old ones. *)
Lemma taken_lead h F b0 p hd q olds news :
  base_rep b0 hd (Z.of_nat (length q)) -> taken h F b0 p hd q olds news ->
  exists lead, lead_ok (tailBlock b0) (hd + Z.of_nat (length q)) olds lead /\ exists olds', olds = olds' ++ lead.
Proof.
  intros Hbase Hg. pose proof (tk_first _ _ _ _ _ _ _ _ Hg) as Hf. pose proof (tk_start _ _ _ _ _ _ _ _ Hg) as Hst. pose proof (br_len _ _ _ Hbase).
  remember (hd + Z.of_nat (length q)) as t eqn:Et. unfold lead_ok, first_of in *. destruct (Z.eqb_spec (t mod 32) 0) as [E|E].
  { exists []. split; [done|]. exists olds. by rewrite app_nil_r. }
  assert (olds <> []) as Hne.
  { intros ->. cbn [length] in Hf. pose proof (Z.div_mod t 32 ltac:(lia)). pose proof (Z.mod_pos_bound t 32 ltac:(lia)).
    assert (t / 32 + 1 = (t + 31) / 32) by (apply (Z.div_unique _ _ _ (t mod 32 - 1)); lia). lia. }
  destruct (exists_last Hne) as (olds' & x & ->). exists [x]. rewrite last_snoc in *. split; [exists x; by rewrite <- Hst|by exists olds'].
Qed.

(** The state after the items were constructed. *)
Lemma exp_filled h p b0 q vs hd olds news :
  let t := hd + Z.of_nat (length q) in
  base_rep b0 hd (Z.of_nat (length q)) -> exp_base p = set_tailBlock b0 (last (olds ++ news)) -> NoDup (olds ++ news) ->
  Z.of_nat (length (olds ++ news)) <= 288230376151711744 -> 32 * first_of olds t <= hd ->
  cells h (first_of olds t) (olds ++ news) (queue_cells (q ++ vs) hd) -> marks h (olds ++ news) (first_of olds t) hd ->
  eindex_rep p (olds ++ news) (first_of olds t) ->
  Z.of_nat (length news) = (t + Z.of_nat (length vs) - 1) / 32 - (t - 1) / 32 -> Z.of_nat (length q) + Z.of_nat (length vs) + 32 < 9223372036854775808 ->
  exp_rep h (set_exp_base p (set_tailIndex (set_tailBlock (exp_base p) (last (olds ++ news))) (u64 t +w Z.of_nat (length vs)))) (q ++ vs) hd (olds ++ news).
Proof.
  intros t Hbase Eb Hnd Hlen Hfirst Hc Hm Hidx Hn Hfit. pose proof (br_len _ _ _ Hbase).
  assert (hd + Z.of_nat (length (q ++ vs)) = t + Z.of_nat (length vs)) as Et by (rewrite length_app; lia).
  pose proof (Z.div_mod (t + Z.of_nat (length vs) - 1) 32 ltac:(lia)). pose proof (Z.mod_pos_bound (t + Z.of_nat (length vs) - 1) 32 ltac:(lia)).
  assert ((t + Z.of_nat (length vs) + 31) / 32 = (t + Z.of_nat (length vs) - 1) / 32 + 1) as E1.
  { replace (t + Z.of_nat (length vs) + 31) with (t + Z.of_nat (length vs) - 1 + 1 * 32) by lia. rewrite Z.div_add by lia. lia. }
  assert ((t + 31) / 32 = (t - 1) / 32 + 1) as E2 by (replace (t + 31) with (t - 1 + 1 * 32) by lia; rewrite Z.div_add by lia; lia).
  assert (first_of (olds ++ news) (t + Z.of_nat (length vs)) = first_of olds t) as Ef by (unfold first_of; rewrite length_app; lia).
  constructor; rewrite ?Et, ?Ef; cbn [set_exp_base exp_base]; try done.
  - rewrite Eb. replace (Z.of_nat (length (q ++ vs))) with (Z.of_nat (length q) + Z.of_nat (length vs)) by (rewrite length_app; lia).
    apply (base_rep_push b0 hd (Z.of_nat (length q)) (Z.of_nat (length vs)) (last (olds ++ news)) Hbase); lia.
  - lia.
  - by apply ring_rep_cells.
Qed.

(** Blocks for all the items are there, and at least one was taken. *)
Lemma exp_fill F b0 hd q olds news h p vs noexcept fuel :
  let t := hd + Z.of_nat (length q) in
  base_rep b0 hd (Z.of_nat (length q)) -> taken h F b0 p hd q olds news -> news <> [] -> length news = fuel ->
  Z.of_nat (length news) = (t + Z.of_nat (length vs) - 1) / 32 - (t - 1) / 32 -> Z.of_nat (length q) + Z.of_nat (length vs) + 32 < 9223372036854775808 ->
  exists h1 p1 block h2 p2, reset_blocks fuel h (head news) (tailBlock (exp_base p)) = Ret h1 /\
    (if (noexcept : bool) then publish_front p else Ret p) = Ret p1 /\ exp_base p1 = exp_base p /\
    fill (S fuel) h1 (tailBlock b0) (head news) (tailBlock (exp_base p)) (u64 t) (Some <$> vs) = Ret (false, block, h2) /\
    (if negb noexcept && negb (is_null (head news)) then publish_front p1 else Ret p1) = Ret p2 /\ stepped F h h2 (olds ++ news) /\
    exp_rep h2 (set_exp_base p2 (set_tailIndex (set_tailBlock (exp_base p2) block) (u64 t +w Z.of_nat (length vs)))) (q ++ vs) hd (olds ++ news).
Proof.
  intros t Hbase Hg Hne Hf Hn Hfit. pose proof Hg as [Hown Hnd Hlen Hfirst Hc Hm Hs Hb _]. fold t in Hfirst, Hc, Hm, Hs. pose proof (br_len _ _ _ Hbase).
  assert (tailBlock (exp_base p) = last (olds ++ news)) as Etail by (by rewrite Hb). rewrite Etail.
  destruct news as [|x news]; [done|]. assert ((olds ++ x :: news) !! length olds = Some x) as Hx by (by apply list_lookup_middle).
  pose proof (Z.div_mod (t + 31) 32 ltac:(lia)). pose proof (Z.mod_pos_bound (t + 31) 32 ltac:(lia)).
  destruct (reset_blocks_spec F (olds ++ x :: news) (first_of olds t) hd (queue_cells q hd) (length news) fuel h (length olds) x) as (h1 & E1 & S1 & Hc1 & Hm1); try done.
  { unfold first_of. lia. } { rewrite length_app. done. } { cbn in Hf. lia. }
  destruct (publish_front_spec p (olds ++ x :: news) _ Hs) as (p1 & Ep & Eb & Hi); [by intros [_ ?]%app_nil|].
  destruct (taken_lead h F b0 p hd q olds (x :: news) Hbase Hg) as (lead & Hlead & olds' & Eolds). fold t in Hlead.
  destruct (fill_spec F (tailBlock b0) (first_of olds t) hd q olds lead (x :: news) h1 (last (olds ++ x :: news)) (Some <$> vs) fuel) as (threw & block & h2 & E2 & C); try done.
  { unfold first_of. fold t. lia. } { apply S1. } { eapply linked_app. rewrite app_assoc, <- Eolds. by eapply marks_linked. }
  { rewrite !last_app. by destruct (last (x :: news)) eqn:El; [|apply last_None in El]. } { rewrite length_fmap. lia. } { by rewrite length_fmap. } { cbn in Hf |- *. lia. }
  fold t in E2. destruct threw; [destruct C as [(v & Hv & _)%list_elem_of_fmap _]; done|].
  destruct C as (-> & vs' & Evs & C). apply (inj (fmap Some)) in Evs as <-.
  eexists h1, (if noexcept then p1 else p), _, h2, p1. split; [done|]. split; [by destruct noexcept|]. split; [by destruct noexcept|]. split; [exact E2|].
  split; [by destruct noexcept|]. split; [eapply stepped_trans; [exact S1|apply C]|].
  eapply exp_filled; try done; [congruence|apply C|eapply marks_shape; [apply C|done]].
Qed.

(** As long as no constructor throws and the sub-queue is not full. *)
Lemma exp_enqueue_bulk_spec allocMode noexcept garbage h p q vs hd ring F :
  own h F ring -> exp_rep h p q hd ring -> Z.of_nat (length q) + Z.of_nat (length vs) + 32 < 9223372036854775808 ->
  exists r h' p' ring', explicit_enqueue_bulk allocMode noexcept garbage h p (Some <$> vs) = Ret (r, h', p') /\ stepped F h h' ring' /\
    match r with
    | Enqueued => exp_rep h' p' (q ++ vs) hd ring'
    | Refused => allocMode = CannotAlloc \/ ~ mem_ok h
    | Threw => False
    end.
Proof.
  intros Hown Hrep Hfit. pose proof Hrep as [Hbase Hfirst Hfits Hnd Hlen Hr Htail Hidx]. pose proof (start_taken h F p q hd ring Hown Hrep) as Hg.
  remember (hd + Z.of_nat (length q)) as t eqn:Et. pose proof (br_len _ _ _ Hbase).
  destruct (bulk_blocks t (Z.of_nat (length vs)) ltac:(lia)) as (n & Hn & Hnb & Ediff & Efuel & Estart).
  pose proof (Z.div_mod (t + Z.of_nat (length vs) - 1) 32 ltac:(lia)). pose proof (Z.mod_pos_bound (t + Z.of_nat (length vs) - 1) 32 ltac:(lia)).
  assert ((t + 31) / 32 = (t - 1) / 32 + 1) as EJ by (replace (t + 31) with (t - 1 + 1 * 32) by lia; rewrite Z.div_add by lia; lia).
  unfold explicit_enqueue_bulk. rewrite length_fmap, (br_tail _ _ _ Hbase), <- Et. cbv zeta. rewrite Ediff, Efuel, Estart.
  destruct n as [|n].
  - change (32 * Z.of_nat 0) with 0. cbn [take_blocks_ahead]. rewrite Z.eqb_refl, ret_bind. cbv beta iota.
    cbn [take_new_blocks]. rewrite Z.eqb_refl, ret_bind. cbv beta iota. cbn [negb]. rewrite ret_bind. cbv beta iota. cbn [is_null negb].
    destruct (taken_lead h F (exp_base p) p hd q ring [] Hbase Hg) as (lead & Hlead & ring' & Er). rewrite <- Et in Hlead.
    apply ring_rep_cells in Hr as [Hc Hm].
    destruct (fill_spec F (tailBlock (exp_base p)) (first_of ring t) hd q ring lead [] h (tailBlock (exp_base p)) (Some <$> vs) 0) as (threw & block & h2 & E2 & C); rewrite <- ?Et, ?app_nil_r; try done.
    { unfold first_of. lia. } { eapply (linked_app h ring'). rewrite <- Er. by eapply marks_linked. }
    { destruct (last lead) as [y|] eqn:El; [|done]. unfold lead_ok in Hlead. destruct (t mod 32 =? 0); [by rewrite Hlead in El|]. by destruct Hlead as (z & -> & _ & ->). }
    { rewrite length_fmap. lia. } { by rewrite length_fmap. }
    rewrite <- Et in E2. cbn [head] in E2. rewrite E2, ret_bind. cbv beta iota. rewrite app_nil_r in C.
    destruct threw; [destruct C as [(v & Hv & _)%list_elem_of_fmap _]; done|]. destruct C as (-> & vs' & Evs & C). apply (inj (fmap Some)) in Evs as <-.
    rewrite andb_false_r, ret_bind. eexists Enqueued, h2, _, ring. split; [done|]. split; [apply C|].
    pose proof (exp_filled h2 p (exp_base p) q vs hd ring []) as Hfin. rewrite app_nil_r, <- Et in Hfin. rewrite Htail. apply Hfin; try done.
    + rewrite <- Htail. by destruct (exp_base p).
    + apply C.
    + eapply marks_shape; [apply C|done].
  - remember (S n) as m eqn:Em. destruct (take_blocks_ahead_spec F (exp_base p) hd q Hbase h m p ring [] Hg Hnb) as (k & p1 & olds & news1 & E1 & Hg1 & Hk & Hl1 & Hst).
    cbn [length head] in *. rewrite <- Et, Z.add_0_r in E1. rewrite E1, ret_bind. cbv beta iota. clear E1.
    destruct (take_new_blocks_spec F (exp_base p) hd q Hbase allocMode garbage (pr_blockIndexSlotsUsed p) (m - k) m h p1 olds news1 (pr_blockIndexFront p) Hg1)
      as (ok & of2 & h2 & p2 & news & E2 & S2 & R2); [destruct Hst as [->|Hst]; [left; lia|by right]|lia|rewrite <- Et; lia|].
    rewrite <- Et in E2. rewrite E2, ret_bind. cbv beta iota. clear E2. destruct ok; cbn [negb].
    2:{ eexists Refused, h2, _, _. split; [done|]. by split. }
    destruct R2 as [Hg2 Hl2]. assert (length news = m) as Hlm by lia. destruct (Z.eqb_spec (32 * Z.of_nat m) 0); [lia|].
    destruct (exp_fill F (exp_base p) hd q olds news h2 p2 vs noexcept m Hbase Hg2) as (h3 & p3 & block & h4 & p4 & Er & Ep & Eb & Ef & Ep4 & S4 & R4); try done.
    { intros ->. cbn in Hlm. lia. } { rewrite <- Et. lia. }
    rewrite <- Et in *. rewrite Er, ret_bind, Ep, !ret_bind. cbv beta iota. rewrite Eb, Ef, ret_bind. cbv beta iota. rewrite Ep4, ret_bind.
    eexists Enqueued, h4, _, _. split; [done|]. split; [by eapply stepped_trans|done].
Qed.
End BulkEnqueue.
