(* ===== verification/ExplicitTrace.v ===== *)
(** * Runs of an explicit producer

    Any sequence of operations on a new producer answers as a first-in first-out queue,
    and the destructor gives up every block, as long as copy constructors do not
    throw and no [enqueue_bulk] is refused; what goes wrong otherwise. *)
From S2P Require Import Prelude QueueDetails QueueBlock Producer ImplicitProducer ImplicitIndex ImplicitSpec ImplicitBulk BlockCells BulkLoops ImplicitTrace ExplicitProducer ExplicitSpec ExplicitEnqueue ExplicitDestroy ExplicitBulk ExplicitBulkSpec ExplicitBulkEnqueue.

Section Trace.
Context {T : Type}.

Definition eop_step (s : Heap T * ExplicitProducer) (op : IOp T) : outcome (IAnswer T * (Heap T * ExplicitProducer)) :=
  let '(h, p) := s in
  match op with
  | OEnqueue allocMode noexcept garbage element =>
      '(r, h, p) ← explicit_enqueue allocMode noexcept garbage h p element; Ret (AEnqueue r, (h, p))
  | ODequeue throws => '(r, h, p) ← explicit_dequeue throws h p; Ret (ADequeue r, (h, p))
  | OEnqueueBulk allocMode noexcept garbage items =>
      '(r, h, p) ← explicit_enqueue_bulk allocMode noexcept garbage h p items; Ret (AEnqueue r, (h, p))
  | ODequeueBulk throws max => '(l, threw, h, p) ← explicit_dequeue_bulk throws h p max; Ret (ADequeueBulk l threw, (h, p))
  end.

Fixpoint eop_run (s : Heap T * ExplicitProducer) (ops : list (IOp T)) : outcome (list (IAnswer T) * (Heap T * ExplicitProducer)) :=
  match ops with
  | [] => Ret ([], s)
  | op :: ops => '(a, s) ← eop_step s op; '(l, s) ← eop_run s ops; Ret (a :: l, s)
  end.

(** A new producer, a run and the destructor. *)
Definition explicit_life (h : Heap T) (ops : list (IOp T)) : outcome (list (IAnswer T) * Heap T) :=
  '(h, p) ← explicit_init h;
  '(l, (h, p)) ← eop_run (h, p) ops;
  h ← explicit_destroy (S (size (blocks h)) + Z.to_nat (pr_blockIndexSize p)) h p;
  Ret (l, h).

(** No constructor throws, and many elements are enqueued at once only when blocks can
    be had. *)
Definition eop_ok (mem : Prop) (op : IOp T) : Prop :=
  match op with
  | OEnqueue _ _ _ e => is_Some e
  | ODequeue _ => True
  | OEnqueueBulk allocMode _ _ items => Forall is_Some items /\ allocMode = CanAlloc /\ mem
  | ODequeueBulk _ max => is_u64 max
  end.

Lemma all_some (items : list (option T)) : Forall is_Some items -> exists vs, items = Some <$> vs.
Proof. induction 1 as [|o items [v ->] _ (vs & ->)]; [by exists []|by exists (v :: vs)]. Qed.

Lemma eop_step_spec op h p q hd ring F :
  own h F ring -> exp_rep h p q hd ring -> eop_ok (mem_ok h) op -> Z.of_nat (length q) + op_size op + 32 <= 9223372036854775807 ->
  exists a h' p' q' hd' ring', eop_step (h, p) op = Ret (a, (h', p')) /\ fifo_step q op a q' /\
    stepped F h h' ring' /\ exp_rep h' p' q' hd' ring' /\
    (mem_ok h -> may_alloc op -> a <> AEnqueue Refused).
Proof.
  intros Hown Hrep Hop Hroom. destruct op as [m n g e|t|m n g items|throws max]; cbn [eop_step op_size] in *.
  - destruct Hop as [v ->]. destruct (exp_enqueue_spec m n g h p q v hd ring F Hown Hrep ltac:(lia)) as (r & h1 & p1 & ring1 & -> & S1 & R1).
    rewrite ret_bind. destruct r; [| |done].
    + eexists _, h1, p1, (q ++ [v]), hd, ring1. split; [done|]. split; [constructor|]. done.
    + destruct R1 as [R1 Hwhy]. eexists _, h1, p1, q, hd, ring1. split; [done|]. split; [constructor|]. do 2 (split; [done|]).
      intros Hm Ha. exfalso. destruct Hwhy as [->|]; done.
  - destruct q as [|v q].
    + rewrite (exp_dequeue_empty t h p hd ring Hrep), ret_bind. eexists _, h, p, [], hd, ring.
      split; [done|]. split; [constructor|]. split; [by apply stepped_refl|]. done.
    + destruct (exp_dequeue_spec t h p q v hd ring F Hown Hrep) as (h1 & p1 & -> & S1 & R1). rewrite ret_bind.
      eexists _, h1, p1, q, (hd + 1), ring. split; [done|]. split; [destruct t; constructor|]. split; [done|]. split; [done|by destruct t].
  - destruct Hop as (Hs & -> & Hmem). destruct (all_some items Hs) as [vs ->]. rewrite length_fmap in Hroom.
    destruct (exp_enqueue_bulk_spec CanAlloc n g h p q vs hd ring F Hown Hrep ltac:(lia)) as (r & h1 & p1 & ring1 & -> & S1 & R1). rewrite ret_bind.
    destruct r; [|by destruct R1|done]. eexists _, h1, p1, (q ++ vs), hd, ring1. split; [done|]. split; [constructor|]. done.
  - destruct (exp_dequeue_bulk_spec throws h p q hd ring F max Hown Hrep Hop) as (h1 & p1 & -> & S1 & R1). rewrite ret_bind.
    eexists _, h1, p1, _, _, ring. split; [done|]. split; [constructor|]. done.
Qed.

Lemma eop_ok_mono (A B : Prop) op : (A -> B) -> eop_ok A op -> eop_ok B op.
Proof. destruct op; cbn; tauto. Qed.

Lemma eop_run_spec ops : forall h p q hd ring F,
  own h F ring -> exp_rep h p q hd ring -> Forall (eop_ok (mem_ok h)) ops -> Z.of_nat (length q) + total op_size ops + 32 <= 9223372036854775807 ->
  exists l h' p' q' hd' ring', eop_run (h, p) ops = Ret (l, (h', p')) /\ fifo q ops l q' /\
    stepped F h h' ring' /\ exp_rep h' p' q' hd' ring' /\ (mem_ok h -> Forall may_alloc ops -> AEnqueue Refused ∉ l).
Proof.
  induction ops as [|op ops IH]; intros h p q hd ring F Hown Hrep Hops Hlen.
  { eexists [], h, p, q, hd, ring. split; [done|]. split; [constructor|]. split; [by apply stepped_refl|]. split; [done|]. intros. apply not_elem_of_nil. }
  apply Forall_cons in Hops as [Hop Hops]. cbn [total] in Hlen. pose proof (op_size_nonneg ops).
  destruct (eop_step_spec op h p q hd ring F Hown Hrep Hop ltac:(lia)) as (a & h1 & p1 & q1 & hd1 & ring1 & E1 & F1 & S1 & R1 & N1).
  pose proof (fifo_length _ _ _ _ F1).
  assert (Forall (eop_ok (mem_ok h1)) ops) as Hops1 by (eapply Forall_impl; [exact Hops|]; intros o; apply eop_ok_mono, S1).
  destruct (IH h1 p1 q1 hd1 ring1 F (proj1 S1) R1 Hops1 ltac:(lia)) as (l & h2 & p2 & q2 & hd2 & ring2 & E2 & F2 & S2 & R2 & N2).
  cbn [eop_run]. rewrite E1, ret_bind, E2, ret_bind.
  eexists (a :: l), h2, p2, q2, hd2, ring2. split; [done|]. split; [by econstructor|]. split; [by eapply stepped_trans|]. split; [done|].
  intros Hm [Ha1 Ha2]%Forall_cons. apply not_elem_of_cons. split; [intros E; by apply N1|]. apply N2; [by apply S1|done].
Qed.

(** The blocks of a ring are blocks of the heap. *)
Lemma ring_size (h : Heap T) p q hd ring : exp_rep h p q hd ring -> (length ring <= size (blocks h))%nat.
Proof.
  intros [_ _ _ Hnd _ Hr _ _]. rewrite <- (size_list_to_set (C := gset nat) ring Hnd), <- size_dom. apply subseteq_size.
  intros x [i Hi]%elem_of_list_to_set%list_elem_of_lookup. destruct (Hr i x Hi) as (b & Hb & _). apply elem_of_dom. by exists b.
Qed.
End Trace.

(** C23: Any sequence of operations of a new explicit producer, one element or many at a
    time, with constructors that do not throw and many elements enqueued at once only
    when allocations succeed, returns and answers as a first-in first-out queue; without
    failing allocations no element is refused; and the destructor then destroys the
    elements that are left and gives up every block of the producer. *)
Theorem explicit_producer_is_fifo {T} (h : Heap T) (F : gset nat) (ops : list (IOp T)) :
  heap_inv h F -> Forall (eop_ok (mem_ok h)) ops ->
  total op_size ops + 32 < 9223372036854775808 ->
  exists l q h2, explicit_life h ops = Ret (l, h2) /\ fifo [] ops l q /\ heap_inv h2 F /\ same_blocks F h h2 /\
    (mem_ok h -> Forall may_alloc ops -> AEnqueue Refused ∉ l).
Proof.
  intros Hi Hops Hlen. destruct (explicit_init_spec h F Hi) as (h0 & p0 & E0 & (O0 & S0 & M0) & R0).
  assert (Forall (eop_ok (mem_ok h0)) ops) as Hops0 by (eapply Forall_impl; [exact Hops|]; intros o; by apply eop_ok_mono).
  destruct (eop_run_spec ops h0 p0 [] 0 [] F O0 R0 Hops0 ltac:(cbn [length]; lia)) as (l & h1 & p1 & q & hd & ring & E1 & Hf & (O1 & S1 & M1) & R1 & Hn).
  pose proof (ring_size _ _ _ _ _ R1).
  destruct (explicit_destroy_spec h1 p1 q hd ring F (S (size (blocks h1)) + Z.to_nat (pr_blockIndexSize p1)) O1 R1 ltac:(lia)) as (h2 & E2 & Hi2 & S2 & M2).
  exists l, q, h2. unfold explicit_life. rewrite E0, ret_bind, E1, ret_bind, E2, ret_bind.
  split; [done|]. split; [done|]. split; [done|]. split; [eauto using same_blocks_trans|]. intros Hm Ha. apply Hn; auto.
Qed.

(** Elements in and out, one or many at a time, with one block in the pool. *)
Definition demo_eops : list (IOp Z) :=
  map (fun n => OEnqueue CanAlloc false [] (Some (Z.of_nat n))) (seq 0 40) ++ replicate 33 (ODequeue false) ++
  [OEnqueueBulk CanAlloc true (fun _ => []) (map (fun n => Some (Z.of_nat n)) (seq 0 90)); ODequeueBulk (Some 50%nat) 60; ODequeueBulk None 20].

Lemma explicit_producer_is_fifo_witness :
  exists l q h2, explicit_life (populate_initial_block_list (Heap_empty []) 1 []) demo_eops = Ret (l, h2) /\ fifo [] demo_eops l q /\ heap_inv h2 ∅ /\
    same_blocks ∅ (populate_initial_block_list (Heap_empty []) 1 []) h2 /\
    (mem_ok (populate_initial_block_list (Heap_empty []) 1 [] : Heap Z) -> Forall may_alloc demo_eops -> AEnqueue Refused ∉ l).
Proof.
  apply (explicit_producer_is_fifo (populate_initial_block_list (Heap_empty []) 1 []) ∅ demo_eops).
  - apply populate_spec. lia.
  - apply Forall_app. split; [repeat constructor; by eexists|]. apply Forall_app. split; [repeat constructor|].
    constructor; [|repeat (constructor; [by vm_compute|]); constructor]. split; [repeat constructor; by eexists|]. split; [done|]. vm_compute. constructor.
  - vm_compute. reflexivity.
Defined.

(** The answers of a run on a new producer. *)
Definition explicit_answers {T} (h : Heap T) (ops : list (IOp T)) : outcome (list (IAnswer T)) :=
  '(h, p) ← explicit_init h;
  '(l, _) ← eop_run (h, p) ops;
  Ret l.

