(* ===== verification/ProducerHash.v ===== *)
(** * The hash tables of implicit producers (concurrentqueue.h, get_or_add_implicit_producer)

    A table maps thread identifiers to producers by linear probing; the key
    [invalid_thread_id] marks a free slot.  When a table is half full a larger one
    is put in front of it; an identifier found in an older table is copied to the
    first one.  [hashes] lists the tables, the current one first.  The theorems say
    that the tables together are a finite map. *)
From S2P Require Import Prelude QueueDetails Producer.

(** ** State *)

Record ImplicitProducerKVP := mkKVP { kvp_key : Z; kvp_value : option nat }.

Record ImplicitProducerHash := mkHash { hash_capacity : Z; hash_entries : list ImplicitProducerKVP }.

(** A table whose slots are all free. *)
Definition hash_new (capacity : Z) : ImplicitProducerHash :=
  mkHash capacity (replicate (Z.to_nat capacity) (mkKVP invalid_thread_id None)).

Definition populate_initial_implicit_producer_hash : list ImplicitProducerHash :=
  [hash_new INITIAL_IMPLICIT_PRODUCER_HASH_SIZE].

(** ** Operations *)

(** The probing loop: the slot of [id], or [None] at a free slot. *)
Fixpoint probe (fuel : nat) (hash : ImplicitProducerHash) (id index : Z) : outcome (option Z) :=
  match fuel with
  | O => Fault Diverges
  | S fuel =>
      let index := Z.land index (hash_capacity hash -w 1) in
      e ← of_option OutOfBounds (hash_entries hash !! Z.to_nat index);
      if kvp_key e =? id then Ret (Some index)
      else if kvp_key e =? invalid_thread_id then Ret None
      else probe fuel hash id (index +w 1)
  end.

(** The insertion loop: the first free slot is taken. *)
Fixpoint insert_id (fuel : nat) (hash : ImplicitProducerHash) (id index : Z) (value : option nat) : outcome ImplicitProducerHash :=
  match fuel with
  | O => Fault Diverges
  | S fuel =>
      let index := Z.land index (hash_capacity hash -w 1) in
      e ← of_option OutOfBounds (hash_entries hash !! Z.to_nat index);
      if kvp_key e =? invalid_thread_id
      then Ret (mkHash (hash_capacity hash) (<[Z.to_nat index := mkKVP id value]> (hash_entries hash)))
      else insert_id fuel hash id (index +w 1) value
  end.

Definition insert_in (hash : ImplicitProducerHash) (id : Z) (value : option nat) : outcome ImplicitProducerHash :=
  insert_id (Z.to_nat (hash_capacity hash)) hash id (hash_thread_id id) value.

(** The value of [id] in the first table that has it, and whether that is the first
    table of all. *)
Fixpoint find_hashes (first : bool) (hashes : list ImplicitProducerHash) (id : Z) : outcome (option (bool * option nat)) :=
  match hashes with
  | [] => Ret None
  | hash :: hashes =>
      o ← probe (Z.to_nat (hash_capacity hash)) hash id (hash_thread_id id);
      match o with
      | Some index =>
          e ← of_option OutOfBounds (hash_entries hash !! Z.to_nat index);
          Ret (Some (first, kvp_value e))
      | None => find_hashes false hashes id
      end
  end.

(** The first half of [get_or_add_implicit_producer]. *)
Definition find_producer (hashes : list ImplicitProducerHash) (id : Z) : outcome (option (option nat) * list ImplicitProducerHash) :=
  o ← find_hashes true hashes id;
  match o, hashes with
  | Some (false, value), mainHash :: rest =>
      mainHash ← insert_in mainHash id value; Ret (Some value, mainHash :: rest)
  | Some (_, value), _ => Ret (Some value, hashes)
  | None, _ => Ret (None, hashes)
  end.

(** [while (newCount >= (newCapacity >> 1)) newCapacity <<= 1] *)
Fixpoint grow_capacity (fuel : nat) (newCount newCapacity : Z) : outcome Z :=
  match fuel with
  | O => Fault Diverges
  | S fuel =>
      if Z.shiftr newCapacity 1 <=? newCount then grow_capacity fuel newCount (u64 (Z.shiftl newCapacity 1)) else Ret newCapacity
  end.

(** ** One table is a map *)

Definition occupied (e : ImplicitProducerKVP) : bool := negb (kvp_key e =? invalid_thread_id).

(** The entry [d] slots after the first slot of [id]. *)
Definition probe_slot (hash : ImplicitProducerHash) (id d : Z) : option ImplicitProducerKVP :=
  hash_entries hash !! Z.to_nat ((hash_thread_id id + d) mod hash_capacity hash).

Record hash_ok (hash : ImplicitProducerHash) (m : gmap Z nat) : Prop := mk_hash_ok {
  ho_cap : exists c, 0 <= c <= 63 /\ hash_capacity hash = 2 ^ c;
  ho_length : Z.of_nat (length (hash_entries hash)) = hash_capacity hash;
  ho_keys : forall s e, hash_entries hash !! s = Some e -> occupied e = true ->
    exists v, kvp_value e = Some v /\ m !! kvp_key e = Some v;
  ho_found : forall id v, m !! id = Some v -> exists d, 0 <= d < hash_capacity hash /\
    probe_slot hash id d = Some (mkKVP id (Some v)) /\
    forall d', 0 <= d' < d -> exists e, probe_slot hash id d' = Some e /\ occupied e = true;
  ho_count : length (List.filter occupied (hash_entries hash)) = size m;
  ho_room : Z.of_nat (size m) < hash_capacity hash;
  ho_ids : forall id, is_Some (m !! id) -> id <> invalid_thread_id }.

Lemma hash_cap_pos hash m : hash_ok hash m -> 0 < hash_capacity hash.
Proof. intros Hok. destruct (ho_cap _ _ Hok) as (c & Hc & ->). apply Z.pow_pos_nonneg; lia. Qed.

Lemma hash_land hash m z : hash_ok hash m -> Z.land (u64 z) (hash_capacity hash -w 1) = z mod hash_capacity hash.
Proof.
  intros Hok. destruct (ho_cap _ _ Hok) as (c & Hc & ->).
  assert (0 < 2 ^ c) by (apply Z.pow_pos_nonneg; lia). assert (2 ^ c <= 2 ^ 63) by (apply Z.pow_le_mono_r; lia).
  rewrite (u64_small (2 ^ c - 1)) by (unfold is_u64, UINT64_MOD; lia). rewrite land_pow by lia. apply u64_mod_pow. lia.
Qed.

Lemma probe_slot_total hash m id d : hash_ok hash m -> exists e, probe_slot hash id d = Some e.
Proof.
  intros Hok. apply lookup_lt_is_Some_2. pose proof (hash_cap_pos _ _ Hok). pose proof (ho_length _ _ Hok).
  pose proof (Z.mod_pos_bound (hash_thread_id id + d) (hash_capacity hash) ltac:(done)). lia.
Qed.

(** A list with fewer marked elements than elements has an unmarked one. *)
Lemma filter_short {A} (f : A -> bool) (l : list A) :
  (length (List.filter f l) < length l)%nat -> exists s e, l !! s = Some e /\ f e = false.
Proof.
  induction l as [|x l IH]; cbn; [lia|]. destruct (f x) eqn:E; cbn; intros Hl.
  - destruct IH as (s & e & Hs & He); [lia|]. by exists (S s), e.
  - by exists 0%nat, x.
Qed.

(** The least number with a property. *)
Lemma least (P : nat -> Prop) (dec : forall n, P n \/ ~ P n) n :
  P n -> exists d, (d <= n)%nat /\ P d /\ forall d', (d' < d)%nat -> ~ P d'.
Proof.
  intros Hn. assert (forall k, (exists d, (d < k)%nat /\ P d /\ forall d', (d' < d)%nat -> ~ P d') \/ forall d, (d < k)%nat -> ~ P d) as Hk.
  { induction k as [|k [(d & Hd & IH)|IH]]; [right; lia|left; exists d; split; [lia|done]|].
    destruct (dec k) as [Hk|Hk]; [left; exists k; split; [lia|done]|right]. intros d Hd. destruct (decide (d = k)) as [->|]; [done|]. apply IH. lia. }
  destruct (Hk (S n)) as [(d & Hd & IH)|Hno]; [exists d; split; [lia|done]|]. exfalso. apply (Hno n); [lia|done].
Qed.

(** The first free slot of a probe sequence. *)
Lemma first_free hash m id :
  hash_ok hash m -> exists d e, 0 <= d < hash_capacity hash /\ probe_slot hash id d = Some e /\ occupied e = false /\
    forall d', 0 <= d' < d -> exists e', probe_slot hash id d' = Some e' /\ occupied e' = true.
Proof.
  intros Hok. pose proof (hash_cap_pos _ _ Hok) as Hpos. pose proof (ho_length _ _ Hok) as Hlen.
  destruct (filter_short occupied (hash_entries hash)) as (s & e & Hs & He).
  { rewrite (ho_count _ _ Hok). pose proof (ho_room _ _ Hok). lia. }
  set (P := fun d : nat => exists e, probe_slot hash id (Z.of_nat d) = Some e /\ occupied e = false).
  assert (exists d, P d /\ (d < Z.to_nat (hash_capacity hash))%nat) as (d0 & HP & Hd0).
  { pose proof (lookup_lt_Some _ _ _ Hs). pose proof (Z.mod_pos_bound (Z.of_nat s - hash_thread_id id) (hash_capacity hash) Hpos).
    exists (Z.to_nat ((Z.of_nat s - hash_thread_id id) mod hash_capacity hash)). split; [|lia].
    exists e. split; [|done]. unfold probe_slot. rewrite Z2Nat.id, Zplus_mod_idemp_r by lia.
    replace (hash_thread_id id + (Z.of_nat s - hash_thread_id id)) with (Z.of_nat s) by lia.
    rewrite Z.mod_small by lia. by rewrite Nat2Z.id. }
  assert (forall n, P n \/ ~ P n) as Hdec.
  { intros n. destruct (probe_slot_total hash m id (Z.of_nat n) Hok) as (e' & He').
    destruct (occupied e') eqn:E; [right|left; by exists e']. intros (e'' & H1 & H2). congruence. }
  destruct (least P Hdec d0 HP) as (d & Hle & (e1 & H1 & H2) & Hmin).
  exists (Z.of_nat d), e1. split; [lia|]. split; [done|]. split; [done|]. intros d' Hd'.
  destruct (probe_slot_total hash m id d' Hok) as (e' & He'). exists e'. split; [done|].
  destruct (occupied e') eqn:E; [done|]. exfalso. apply (Hmin (Z.to_nat d')); [lia|]. exists e'. by rewrite Z2Nat.id by lia.
Qed.

(** The position after a masked one. *)
Lemma next_position hash m id d :
  hash_ok hash m ->
  Z.land (u64 ((hash_thread_id id + d) mod hash_capacity hash + 1)) (hash_capacity hash -w 1) =
    (hash_thread_id id + (d + 1)) mod hash_capacity hash.
Proof. intros Hok. rewrite (hash_land _ _ _ Hok), Zplus_mod_idemp_l. f_equal. lia. Qed.

Lemma first_position hash m id :
  hash_ok hash m -> Z.land (hash_thread_id id) (hash_capacity hash -w 1) = (hash_thread_id id + 0) mod hash_capacity hash.
Proof.
  intros Hok. rewrite Z.add_0_r. destruct (ho_cap _ _ Hok) as (c & Hc & ->).
  assert (0 < 2 ^ c) by (apply Z.pow_pos_nonneg; lia). assert (2 ^ c <= 2 ^ 63) by (apply Z.pow_le_mono_r; lia).
  rewrite (u64_small (2 ^ c - 1)) by (unfold is_u64, UINT64_MOD; lia). apply land_pow; lia.
Qed.

(** Walking over occupied slots of other keys, until slot [stop] decides. *)
Lemma probe_walk hash m id v stop es : forall fuel d index,
  hash_ok hash m -> Z.land index (hash_capacity hash -w 1) = (hash_thread_id id + d) mod hash_capacity hash ->
  0 <= d <= stop -> stop - d < Z.of_nat fuel -> id <> invalid_thread_id ->
  probe_slot hash id stop = Some es -> (kvp_key es = id \/ occupied es = false) ->
  (forall d', 0 <= d' < stop -> exists e, probe_slot hash id d' = Some e /\ occupied e = true) ->
  m !! id = v -> (v = None -> occupied es = false) -> (is_Some v -> kvp_key es = id) ->
  exists o, probe fuel hash id index = Ret o /\
    match v with
    | None => o = None
    | Some v => exists s, o = Some s /\ hash_entries hash !! Z.to_nat s = Some (mkKVP id (Some v))
    end.
Proof.
  induction fuel as [|fuel IH]; intros d index Hok Hpos Hd Hfuel Hid Hstop Hes Hbefore Hm Hnone Hsome; [lia|].
  cbn [probe]. rewrite Hpos. destruct (probe_slot_total hash m id d Hok) as (e & He).
  pose proof He as He'. unfold probe_slot in He'. rewrite He'. cbn [of_option mbind outcome_bind].
  destruct (Z.eqb_spec (kvp_key e) id) as [Ek|Ek].
  - assert (occupied e = true) as Ho by (unfold occupied; rewrite Ek; by apply negb_true_iff, Z.eqb_neq).
    destruct (ho_keys _ _ Hok _ _ He' Ho) as (w & Ew & Hw). rewrite Ek, Hm in Hw. rewrite Hw. eexists. split; [done|]. cbn.
    eexists. split; [done|]. rewrite He'. destruct e. cbn in *. congruence.
  - destruct (decide (d = stop)) as [->|Hne].
    + rewrite Hstop in He. injection He as ->. destruct Hes as [?|Hfree]; [done|]. unfold occupied in Hfree.
      apply negb_false_iff in Hfree. rewrite Hfree. eexists. split; [done|]. destruct v; [|done]. by destruct Hsome.
    + destruct (Hbefore d ltac:(lia)) as (e0 & He0 & Ho). rewrite He in He0. injection He0 as <-. unfold occupied in Ho.
      apply negb_true_iff in Ho. rewrite Ho. apply (IH (d + 1)); try done; [|lia|lia]. by apply (next_position _ m).
Qed.

Lemma probe_spec hash m id :
  hash_ok hash m -> id <> invalid_thread_id ->
  exists o, probe (Z.to_nat (hash_capacity hash)) hash id (hash_thread_id id) = Ret o /\
    match m !! id with
    | None => o = None
    | Some v => exists s, o = Some s /\ hash_entries hash !! Z.to_nat s = Some (mkKVP id (Some v))
    end.
Proof.
  intros Hok Hid. pose proof (hash_cap_pos _ _ Hok). destruct (m !! id) as [v|] eqn:Em.
  - destruct (ho_found _ _ Hok id v Em) as (d & Hd & Hslot & Hb).
    eapply (probe_walk hash m id (Some v) d _ _ 0); try done; try lia; try (by left); by apply (first_position _ m).
  - destruct (first_free hash m id Hok) as (d & e & Hd & Hslot & Hfree & Hb).
    eapply (probe_walk hash m id None d _ _ 0); try done; try lia; try (by right); try (by intros [? ?]); by apply (first_position _ m).
Qed.

(** *** Insertion *)

Lemma filter_insert_one {A} (f : A -> bool) (l : list A) s x y :
  l !! s = Some x -> f x = false -> f y = true -> length (List.filter f (<[s := y]> l)) = S (length (List.filter f l)).
Proof.
  revert s. induction l as [|z l IH]; intros [|s]; cbn; try done.
  - intros [= ->] -> ->. done.
  - intros Hs Hx Hy. destruct (f z); [apply (f_equal S)|]; exact (IH s Hs Hx Hy).
Qed.

Lemma insert_walk hash m id v stop es : forall fuel d index,
  hash_ok hash m -> Z.land index (hash_capacity hash -w 1) = (hash_thread_id id + d) mod hash_capacity hash ->
  0 <= d <= stop -> stop - d < Z.of_nat fuel ->
  probe_slot hash id stop = Some es -> occupied es = false ->
  (forall d', 0 <= d' < stop -> exists e, probe_slot hash id d' = Some e /\ occupied e = true) ->
  insert_id fuel hash id index v =
    Ret (mkHash (hash_capacity hash)
           (<[Z.to_nat ((hash_thread_id id + stop) mod hash_capacity hash) := mkKVP id v]> (hash_entries hash))).
Proof.
  induction fuel as [|fuel IH]; intros d index Hok Hpos Hd Hfuel Hstop Hes Hbefore; [lia|].
  cbn [insert_id]. rewrite Hpos. destruct (probe_slot_total hash m id d Hok) as (e & He).
  pose proof He as He'. unfold probe_slot in He'. rewrite He'. cbn [of_option mbind outcome_bind].
  destruct (decide (d = stop)) as [->|Hne].
  - rewrite Hstop in He. injection He as ->. unfold occupied in Hes. apply negb_false_iff in Hes. by rewrite Hes.
  - destruct (Hbefore d ltac:(lia)) as (e0 & He0 & Ho). rewrite He in He0. injection He0 as <-. unfold occupied in Ho.
    apply negb_true_iff in Ho. rewrite Ho. apply (IH (d + 1)); try done; [|lia|lia]. by apply (next_position _ m).
Qed.

Lemma insert_in_spec hash m id v :
  hash_ok hash m -> id <> invalid_thread_id -> m !! id = None -> Z.of_nat (size m) + 1 < hash_capacity hash ->
  exists hash', insert_in hash id (Some v) = Ret hash' /\ hash_ok hash' (<[id := v]> m) /\ hash_capacity hash' = hash_capacity hash.
Proof.
  intros Hok Hid Hm Hroom. pose proof (hash_cap_pos _ _ Hok). destruct (first_free hash m id Hok) as (d & e & Hd & Hslot & Hfree & Hb).
  eexists. split; [eapply (insert_walk hash m id (Some v) d e _ 0); try done; try lia; by apply (first_position _ m)|].
  split; [|done]. set (s := Z.to_nat ((hash_thread_id id + d) mod hash_capacity hash)) in *.
  assert (hash_entries hash !! s = Some e) as Hs by exact Hslot.
  assert (occupied (mkKVP id (Some v)) = true) as Hocc by (unfold occupied; cbn; by apply negb_true_iff, Z.eqb_neq).
  assert (forall i d', exists e', probe_slot (mkHash (hash_capacity hash) (<[s := mkKVP id (Some v)]> (hash_entries hash))) i d' = Some e' /\
            (forall e0, probe_slot hash i d' = Some e0 -> occupied e0 = true -> e' = e0) /\
            (Z.to_nat ((hash_thread_id i + d') mod hash_capacity hash) = s -> e' = mkKVP id (Some v))) as Hnew.
  { intros i d'. unfold probe_slot. cbn. destruct (probe_slot_total hash m i d' Hok) as (e1 & He1). unfold probe_slot in He1.
    destruct (decide (s = Z.to_nat ((hash_thread_id i + d') mod hash_capacity hash))) as [E|E].
    - rewrite <- E, list_lookup_insert_eq by (by eapply lookup_lt_Some). eexists. split; [done|]. split; [|done].
      intros e0 He0 Ho. rewrite Hs in He0. congruence.
    - rewrite list_lookup_insert_ne, He1 by done. eexists. split; [done|]. split; [congruence|]. congruence. }
  destruct Hok as [Hcap Hlen Hkeys Hfound Hcount Hr Hids]. constructor; cbn [hash_capacity hash_entries].
  - done.
  - by rewrite length_insert.
  - intros s' e' Hs' Ho'. apply list_lookup_insert_Some in Hs' as [(-> & <- & _)|(Hne & Hs')].
    + exists v. cbn. by rewrite lookup_insert_eq.
    + destruct (Hkeys s' e' Hs' Ho') as (w & Ew & Hw). exists w. rewrite lookup_insert_ne; [done|]. intros E. rewrite <- E in Hw. congruence.
  - intros id' w Hw. rewrite lookup_insert in Hw. case_decide as E.
    + injection Hw as ->. subst id'. exists d. split; [done|]. destruct (Hnew id d) as (e' & He' & _ & Hsame). rewrite He', (Hsame eq_refl).
      split; [done|]. intros d' Hd'. destruct (Hb d' Hd') as (e0 & He0 & Ho0). destruct (Hnew id d') as (e1 & He1 & Hk & _).
      exists e1. rewrite (Hk e0 He0 Ho0) in *. done.
    + destruct (Hfound id' w Hw) as (d1 & Hd1 & Hs1 & Hb1). exists d1. split; [done|].
      assert (occupied (mkKVP id' (Some w)) = true) as Ho1.
      { unfold occupied. cbn. apply negb_true_iff, Z.eqb_neq. apply Hids. by eexists. }
      destruct (Hnew id' d1) as (e' & He' & Hk & _). rewrite He', (Hk _ Hs1 Ho1). split; [done|]. intros d' Hd'.
      destruct (Hb1 d' Hd') as (e0 & He0 & Ho0). destruct (Hnew id' d') as (e1 & He1 & Hk1 & _). exists e1. rewrite (Hk1 e0 He0 Ho0) in *. done.
  - rewrite (filter_insert_one _ _ _ _ _ Hs Hfree Hocc), Hcount, map_size_insert_None by done. done.
  - rewrite map_size_insert_None by done. lia.
  - intros id' Hsome. rewrite lookup_insert in Hsome. case_decide; [congruence|by apply Hids].
Qed.

Lemma hash_new_ok c : 0 <= c <= 63 -> hash_ok (hash_new (2 ^ c)) ∅.
Proof.
  intros Hc. assert (0 < 2 ^ c) by (apply Z.pow_pos_nonneg; lia). constructor; cbn.
  - by exists c.
  - rewrite length_replicate. lia.
  - intros s e Hs Ho. apply lookup_replicate in Hs as [-> _]. done.
  - intros id v Hv. by rewrite lookup_empty in Hv.
  - induction (Z.to_nat (2 ^ c)); done.
  - rewrite map_size_empty. lia.
  - intros id Hs. rewrite lookup_empty in Hs. by destruct Hs.
Qed.

(** ** The tables together are a map *)

Record hashes_ok (hashes : list ImplicitProducerHash) (M : gmap Z nat) : Prop := mk_hashes_ok {
  hs_tables : exists ms, Forall2 hash_ok hashes ms /\ (forall m, m ∈ ms -> m ⊆ M) /\
    forall id v, M !! id = Some v -> exists m, m ∈ ms /\ m !! id = Some v;
  hs_main : exists hash rest, hashes = hash :: rest /\ 2 * Z.of_nat (size M) < hash_capacity hash;
  hs_initial : exists hash, last hashes = Some hash /\ hash_capacity hash = INITIAL_IMPLICIT_PRODUCER_HASH_SIZE }.

(** The oldest table, when the current one is written or another put in front. *)
Lemma initial_write hash hash' rest :
  hash_capacity hash' = hash_capacity hash -> (exists h, last (hash :: rest) = Some h /\ hash_capacity h = INITIAL_IMPLICIT_PRODUCER_HASH_SIZE) ->
  exists h, last (hash' :: rest) = Some h /\ hash_capacity h = INITIAL_IMPLICIT_PRODUCER_HASH_SIZE.
Proof. rewrite !last_cons. destruct (last rest); intros E (h & [= <-] & Eh); eexists; (split; [done|]); congruence. Qed.

Lemma find_hashes_spec first hashes ms M id :
  Forall2 hash_ok hashes ms -> (forall m, m ∈ ms -> m ⊆ M) -> id <> invalid_thread_id ->
  exists o, find_hashes first hashes id = Ret o /\
    match o with
    | None => forall m, m ∈ ms -> m !! id = None
    | Some (b, value) => exists v, value = Some v /\ M !! id = Some v /\
        (b = true -> first = true /\ exists m, head ms = Some m /\ m !! id = Some v) /\
        (b = false -> first = true -> exists m, head ms = Some m /\ m !! id = None)
    end.
Proof.
  intros H2 Hsub Hid. revert first. induction H2 as [|hash m hashes ms Hok H2 IH]; intros first; cbn [find_hashes].
  { eexists. split; [done|]. intros m Hm. by apply elem_of_nil in Hm. }
  destruct (probe_spec hash m id Hok Hid) as (o & -> & Ho). cbn [mbind outcome_bind]. destruct (m !! id) as [v|] eqn:Em.
  - destruct Ho as (s & -> & Hs). rewrite Hs. cbn [of_option mbind outcome_bind kvp_value]. eexists. split; [done|].
    exists v. split; [done|]. split; [eapply lookup_weaken; [exact Em|apply Hsub; by left]|]. destruct first; split; try done.
    intros _. split; [done|]. by exists m.
  - subst o. destruct (IH ltac:(intros m' Hm'; apply Hsub; by right) false) as (o & -> & Ho). eexists. split; [done|].
    destruct o as [[b value]|].
    + destruct Ho as (v & -> & Hv & Hb & _). exists v. split; [done|]. split; [done|].
      split; [intros ->; by destruct (Hb eq_refl)|]. intros _ _. by exists m.
    + intros m' [->|Hm']%elem_of_cons; [done|by apply Ho].
Qed.

Lemma subseteq_size_lt (m M : gmap Z nat) id v : m ⊆ M -> m !! id = None -> M !! id = Some v -> (size m < size M)%nat.
Proof.
  intros Hs Hm HM. pose proof (map_subseteq_size m M Hs). destruct (decide (size M <= size m)%nat) as [Hle|]; [|lia].
  rewrite (map_subseteq_size_eq m M Hs Hle) in Hm. congruence.
Qed.

(** Looking up changes nothing but where an identifier is found. *)
Lemma find_producer_spec hashes M id :
  hashes_ok hashes M -> id <> invalid_thread_id ->
  exists hashes', find_producer hashes id = Ret (Some <$> M !! id, hashes') /\ hashes_ok hashes' M /\
    (M !! id = None -> hashes' = hashes).
Proof.
  intros [(ms & H2 & Hsub & Hall) (hash & rest & -> & Hcap) Hini] Hid. unfold find_producer.
  destruct (find_hashes_spec true _ ms M id H2 Hsub Hid) as (o & -> & Ho). cbn [mbind outcome_bind].
  inversion H2 as [|? m ? ms' Hok H2' Ea Eb]; subst. destruct o as [[b value]|].
  - destruct Ho as (v & -> & Hv & Htrue & Hfalse). rewrite Hv. destruct b.
    + eexists. split; [done|]. split; [|done]. constructor; eauto.
    + destruct (Hfalse eq_refl eq_refl) as (m' & [= <-] & Hm). assert (m ⊆ M) as HmM by (apply Hsub; by left).
      pose proof (subseteq_size_lt m M id v HmM Hm Hv).
      destruct (insert_in_spec hash m id v Hok Hid Hm) as (hash' & -> & Hok' & Ec); [lia|]. cbn [mbind outcome_bind].
      eexists. split; [done|]. split; [|done]. constructor; [|exists hash', rest; by rewrite Ec|by eapply initial_write].
      exists (<[id := v]> m :: ms'). split; [by constructor|]. split.
      * intros m' [->|Hm']%elem_of_cons; [by apply insert_subseteq_l|]. apply Hsub. by right.
      * intros id' w Hw. destruct (Hall id' w Hw) as (m' & [->|Hm']%elem_of_cons & Hl); [|exists m'; split; [by right|done]].
        exists (<[id := v]> m). split; [by left|]. rewrite lookup_insert. case_decide; congruence.
  - assert (M !! id = None) as E.
    { destruct (M !! id) as [v|] eqn:E; [|done]. destruct (Hall id v E) as (m' & Hm' & Hl). by rewrite (Ho m' Hm') in Hl. }
    rewrite E. eexists. split; [done|]. split; [|done]. constructor; eauto.
Qed.

(** A larger table in front. *)
Lemma add_table hashes M c :
  hashes_ok hashes M -> 0 <= c <= 63 -> 2 * Z.of_nat (size M) < 2 ^ c -> hashes_ok (hash_new (2 ^ c) :: hashes) M.
Proof.
  intros [(ms & H2 & Hsub & Hall) _ (h & Hh & Hini)] Hc Hs. constructor; [|by eexists _, _|exists h; by rewrite last_cons, Hh].
  exists (∅ :: ms). split; [constructor; [by apply hash_new_ok|done]|]. split.
  - intros m [->|Hm]%elem_of_cons; [apply map_empty_subseteq|by apply Hsub].
  - intros id v Hv. destruct (Hall id v Hv) as (m & Hm & Hl). exists m. split; [by right|done].
Qed.

(** A new identifier. *)
Lemma register hash rest M id v :
  hashes_ok (hash :: rest) M -> id <> invalid_thread_id -> M !! id = None -> 2 * (Z.of_nat (size M) + 1) < hash_capacity hash ->
  exists hash', insert_in hash id (Some v) = Ret hash' /\ hashes_ok (hash' :: rest) (<[id := v]> M) /\
    hash_capacity hash' = hash_capacity hash.
Proof.
  intros [(ms & H2 & Hsub & Hall) _ Hini] Hid HM Hcap. inversion H2 as [|? m ? ms' Hok H2' Ea Eb]; subst.
  assert (m ⊆ M) as HmM by (apply Hsub; by left). pose proof (map_subseteq_size m M HmM).
  assert (m !! id = None) as Hm by (by eapply lookup_weaken_None).
  destruct (insert_in_spec hash m id v Hok Hid Hm) as (hash' & -> & Hok' & Ec); [lia|]. exists hash'. split; [done|]. split; [|done].
  constructor; [|exists hash', rest; rewrite Ec, map_size_insert_None by done; split; [done|lia]|by eapply initial_write].
  exists (<[id := v]> m :: ms'). split; [by constructor|]. split.
  - intros m' [->|Hm']%elem_of_cons; [by apply insert_mono|]. etrans; [apply Hsub; by right|by apply insert_subseteq].
  - intros id' w Hw. rewrite lookup_insert in Hw. case_decide as E.
    + injection Hw as ->. subst. exists (<[id' := w]> m). split; [by left|]. by rewrite lookup_insert_eq.
    + destruct (Hall id' w Hw) as (m' & [->|Hm']%elem_of_cons & Hl); [|exists m'; split; [by right|done]].
      exists (<[id := v]> m). split; [by left|]. by rewrite lookup_insert_ne.
Qed.

Lemma grow_capacity_spec fuel newCount c :
  0 <= c <= 62 -> newCount < 2 ^ 61 -> 63 - c < Z.of_nat fuel ->
  exists c', grow_capacity fuel newCount (2 ^ c) = Ret (2 ^ c') /\ c <= c' <= 62 /\ newCount < Z.shiftr (2 ^ c') 1.
Proof.
  revert c. induction fuel as [|fuel IH]; intros c Hc Hn Hf; [lia|]. cbn [grow_capacity].
  rewrite Z.shiftr_div_pow2 by lia. change (2 ^ 1) with 2. destruct (Z.leb_spec (2 ^ c / 2) newCount) as [Hle|Hgt].
  - assert (c <= 61).
    { destruct (decide (c = 62)) as [->|]; [|lia]. change (2 ^ 62 / 2) with (2 ^ 61) in Hle. lia. }
    assert (u64 (Z.shiftl (2 ^ c) 1) = 2 ^ (c + 1)) as ->.
    { rewrite Z.shiftl_mul_pow2, <- Z.pow_add_r by lia. apply u64_small. unfold is_u64, UINT64_MOD.
      assert (2 ^ (c + 1) <= 2 ^ 62) by (apply Z.pow_le_mono_r; lia). assert (0 < 2 ^ (c + 1)) by (apply Z.pow_pos_nonneg; lia). lia. }
    destruct (IH (c + 1)) as (c' & E & Hc' & Hn'); [lia|done|lia|]. exists c'. split; [done|]. split; [lia|done].
  - exists c. split; [done|]. split; [lia|]. rewrite Z.shiftr_div_pow2 by lia. done.
Qed.

Lemma initial_hashes_ok : hashes_ok populate_initial_implicit_producer_hash ∅.
Proof.
  constructor; [|by eexists _, _|by eexists]. exists [∅]. split; [constructor; [|constructor]; by apply (hash_new_ok 5)|]. split.
  - intros m [->|Hm]%elem_of_cons; [done|by apply elem_of_nil in Hm].
  - intros id v Hv. by rewrite lookup_empty in Hv.
Qed.
