(* ===== verification/Queue.v ===== *)
(** * The queue (concurrentqueue.h, class ConcurrentQueue)

    The queue owns a heap of blocks, a list of producers and the hash tables that
    map threads to their implicit producers.  Producers are numbered; [node_next]
    and [producerListTail] are the links of the list.  Operations run one after the
    other; the thread that calls is an argument, and so is whether a copy or an
    assignment of an element throws. *)
From S2P Require Import Prelude QueueDetails QueueBlock Producer ImplicitProducer ExplicitProducer ProducerHash.

Section Queue.
Context {T : Type}.

(** ** State *)

Inductive AnyProducer := AImplicit (p : ImplicitProducer) | AExplicit (p : ExplicitProducer).

Definition is_explicit (p : AnyProducer) : bool := match p with AImplicit _ => false | AExplicit _ => true end.

Definition any_base (p : AnyProducer) : ProducerBase :=
  match p with AImplicit p => imp_base p | AExplicit p => exp_base p end.

(** [ProducerBase::dequeue] *)
Definition any_dequeue (throws : bool) (h : Heap T) (p : AnyProducer) : outcome (DequeueResult T * Heap T * AnyProducer) :=
  match p with
  | AImplicit p => '(r, h, p) ← implicit_dequeue throws h p; Ret (r, h, AImplicit p)
  | AExplicit p => '(r, h, p) ← explicit_dequeue throws h p; Ret (r, h, AExplicit p)
  end.

(** [node_token] is the token that holds the producer; tokens are numbered. *)
Record ProducerNode := mkNode { node_producer : AnyProducer; node_next : option nat; node_inactive : bool; node_token : option nat }.

Record ConcurrentQueue := mkQueue {
  cq_heap : Heap T;
  cq_producers : list ProducerNode;
  producerListTail : option nat;
  producerCount : Z;
  implicitProducerHash : list ImplicitProducerHash;
  implicitProducerHashCount : Z;
  nextExplicitConsumerId : Z;
  globalExplicitConsumerOffset : Z }.

Definition set_heap (q : ConcurrentQueue) (h : Heap T) : ConcurrentQueue :=
  mkQueue h (cq_producers q) (producerListTail q) (producerCount q) (implicitProducerHash q)
    (implicitProducerHashCount q) (nextExplicitConsumerId q) (globalExplicitConsumerOffset q).
Definition set_producers (q : ConcurrentQueue) (l : list ProducerNode) : ConcurrentQueue :=
  mkQueue (cq_heap q) l (producerListTail q) (producerCount q) (implicitProducerHash q)
    (implicitProducerHashCount q) (nextExplicitConsumerId q) (globalExplicitConsumerOffset q).
Definition set_hashes (q : ConcurrentQueue) (l : list ImplicitProducerHash) (n : Z) : ConcurrentQueue :=
  mkQueue (cq_heap q) (cq_producers q) (producerListTail q) (producerCount q) l n
    (nextExplicitConsumerId q) (globalExplicitConsumerOffset q).
Definition set_consumer_ids (q : ConcurrentQueue) (n g : Z) : ConcurrentQueue :=
  mkQueue (cq_heap q) (cq_producers q) (producerListTail q) (producerCount q) (implicitProducerHash q)
    (implicitProducerHashCount q) n g.

(** Writing a producer back. *)
Definition set_node (q : ConcurrentQueue) (i : nat) (n : ProducerNode) : ConcurrentQueue :=
  set_producers q (<[i := n]> (cq_producers q)).
Definition with_producer (n : ProducerNode) (p : AnyProducer) : ProducerNode :=
  mkNode p (node_next n) (node_inactive n) (node_token n).

Definition node_at (q : ConcurrentQueue) (i : nat) : outcome ProducerNode := of_option BadPointer (cq_producers q !! i).

(** The constructor with a capacity. *)
Definition ConcurrentQueue_new (results : list bool) (garbage : list bool) (capacity : Z) : ConcurrentQueue :=
  let blockCount := capacity / BLOCK_SIZE +w (if Z.land capacity (BLOCK_SIZE - 1) =? 0 then 0 else 1) in
  mkQueue (populate_initial_block_list (Heap_empty results) blockCount garbage) [] None 0
    populate_initial_implicit_producer_hash 0 0 0.

(** The constructor with a number of producers of each kind. *)
Definition ConcurrentQueue_new_for (results : list bool) (garbage : list bool) (minCapacity maxExplicitProducers maxImplicitProducers : Z) : ConcurrentQueue :=
  let blocks := ((((minCapacity +w BLOCK_SIZE) -w 1) / BLOCK_SIZE -w 1) *w (maxExplicitProducers +w 1)) +w (2 *w (maxExplicitProducers +w maxImplicitProducers)) in
  mkQueue (populate_initial_block_list (Heap_empty results) blocks garbage) [] None 0
    populate_initial_implicit_producer_hash 0 0 0.

(** ** The list of producers *)

Definition add_producer (q : ConcurrentQueue) (p : AnyProducer) : nat * ConcurrentQueue :=
  let i := length (cq_producers q) in
  (i, mkQueue (cq_heap q) (cq_producers q ++ [mkNode p (producerListTail q) false None]) (Some i)
        (producerCount q +u 1) (implicitProducerHash q) (implicitProducerHashCount q)
        (nextExplicitConsumerId q) (globalExplicitConsumerOffset q)).

(** The loop of [recycle_or_create_producer]: the first inactive producer of the kind. *)
Fixpoint find_inactive (fuel : nat) (q : ConcurrentQueue) (isExplicit : bool) (ptr : option nat) : outcome (option nat) :=
  match ptr, fuel with
  | None, _ => Ret None
  | Some _, O => Fault Diverges
  | Some i, S fuel =>
      n ← node_at q i;
      if node_inactive n && Bool.eqb (is_explicit (node_producer n)) isExplicit then Ret (Some i)
      else find_inactive fuel q isExplicit (node_next n)
  end.

(** [create<ExplicitProducer>(this)] or [create<ImplicitProducer>(this)] *)
Definition create_producer (isExplicit : bool) (h : Heap T) : outcome (option AnyProducer * Heap T) :=
  let '(ok, h) := malloc h in
  if negb ok then Ret (None, h)
  else if isExplicit then '(h, p) ← explicit_init h; Ret (Some (AExplicit p), h)
  else '(h, p) ← implicit_init h; Ret (Some (AImplicit p), h).

(** The result is the producer and whether it was recycled. *)
Definition recycle_or_create_producer (isExplicit : bool) (q : ConcurrentQueue) : outcome (option nat * bool * ConcurrentQueue) :=
  o ← find_inactive (S (length (cq_producers q))) q isExplicit (producerListTail q);
  match o with
  | Some i => n ← node_at q i; Ret (Some i, true, set_node q i (mkNode (node_producer n) (node_next n) false (node_token n)))
  | None =>
      '(o, h) ← create_producer isExplicit (cq_heap q);
      let q := set_heap q h in
      match o with
      | None => Ret (None, false, q)
      | Some p => let '(i, q) := add_producer q p in Ret (Some i, false, q)
      end
  end.

(** A larger table in front, when the current one is half full.  If it cannot be
    allocated the count goes back down. *)
Definition grow_hash (q : ConcurrentQueue) (newCount : Z) : outcome (bool * ConcurrentQueue) :=
  let hashes := implicitProducerHash q in
  mainHash ← of_option AssertFailed (head hashes);
  if Z.shiftr (hash_capacity mainHash) 1 <=? newCount then
    newCapacity ← grow_capacity 64 newCount (u64 (Z.shiftl (hash_capacity mainHash) 1));
    let '(ok, h) := malloc (cq_heap q) in
    let q := set_heap q h in
    Ret (if ok then (true, set_hashes q (hash_new newCapacity :: hashes) (implicitProducerHashCount q))
         else (false, set_hashes q hashes (implicitProducerHashCount q -w 1)))
  else Ret (true, q).

(** A producer for a new identifier, entered in the current table. *)
Definition add_implicit_producer (q : ConcurrentQueue) (id : Z) : outcome (option nat * ConcurrentQueue) :=
  mainHash ← of_option AssertFailed (head (implicitProducerHash q));
  '(producer, recycled, q) ← recycle_or_create_producer false q;
  match producer with
  | None => Ret (None, set_hashes q (implicitProducerHash q) (implicitProducerHashCount q -w 1))
  | Some i =>
      let count := if (recycled : bool) then implicitProducerHashCount q -w 1 else implicitProducerHashCount q in
      mainHash ← insert_in mainHash id (Some i);
      Ret (Some i, set_hashes q (mainHash :: tail (implicitProducerHash q)) count)
  end.

(** [get_or_add_implicit_producer]: the producer of thread [id].  The loop around
    the insertion is left after one round: nobody else holds the resize lock, and a
    table that was just made is less than half full. *)
Definition get_or_add_implicit_producer (q : ConcurrentQueue) (id : Z) : outcome (option nat * ConcurrentQueue) :=
  '(found, hashes) ← find_producer (implicitProducerHash q) id;
  let q := set_hashes q hashes (implicitProducerHashCount q) in
  match found with
  | Some value => Ret (value, q)
  | None =>
      let newCount := 1 +w implicitProducerHashCount q in
      let q := set_hashes q hashes (implicitProducerHashCount q +w 1) in
      '(ok, q) ← grow_hash q newCount;
      if negb (ok : bool) then Ret (None, q)
      else
        mainHash ← of_option AssertFailed (head (implicitProducerHash q));
        if newCount <? Z.shiftr (hash_capacity mainHash) 1 +w Z.shiftr (hash_capacity mainHash) 2
        then add_implicit_producer q id
        else Fault Diverges
  end.

(** ** Enqueue *)

(** [inner_enqueue] of thread [id] without a token. *)
Definition inner_enqueue (allocMode : AllocationMode) (noexcept : bool) (garbage : list bool) (q : ConcurrentQueue) (id : Z)
    (element : option T) : outcome (EnqueueResult * ConcurrentQueue) :=
  '(producer, q) ← get_or_add_implicit_producer q id;
  match producer with
  | None => Ret (Refused, q)
  | Some i =>
      n ← node_at q i;
      match node_producer n with
      | AExplicit _ => Fault BadPointer
      | AImplicit p =>
          '(r, h, p) ← implicit_enqueue allocMode noexcept garbage (cq_heap q) p element;
          Ret (r, set_node (set_heap q h) i (with_producer n (AImplicit p)))
      end
  end.

(** [inner_enqueue] with the producer of a token. *)
Definition inner_enqueue_token (allocMode : AllocationMode) (noexcept : bool) (garbage : list bool) (q : ConcurrentQueue) (i : nat)
    (element : option T) : outcome (EnqueueResult * ConcurrentQueue) :=
  n ← node_at q i;
  match node_producer n with
  | AImplicit _ => Fault BadPointer
  | AExplicit p =>
      '(r, h, p) ← explicit_enqueue allocMode noexcept garbage (cq_heap q) p element;
      Ret (r, set_node (set_heap q h) i (with_producer n (AExplicit p)))
  end.

(** [enqueue] and [try_enqueue] *)
Definition queue_enqueue : bool -> list bool -> ConcurrentQueue -> Z -> option T -> outcome (EnqueueResult * ConcurrentQueue) :=
  inner_enqueue CanAlloc.
Definition queue_try_enqueue : bool -> list bool -> ConcurrentQueue -> Z -> option T -> outcome (EnqueueResult * ConcurrentQueue) :=
  inner_enqueue CannotAlloc.

(** ** Dequeue *)

Definition dequeue_from (throws : bool) (q : ConcurrentQueue) (i : nat) : outcome (DequeueResult T * ConcurrentQueue) :=
  n ← node_at q i;
  '(r, h, p) ← any_dequeue throws (cq_heap q) (node_producer n);
  Ret (r, set_node (set_heap q h) i (with_producer n p)).

(** The scoring loop of [try_dequeue]: at most three non-empty producers are looked
    at, the largest wins. *)
Fixpoint score (fuel : nat) (q : ConcurrentQueue) (ptr : option nat) (nonEmptyCount bestSize : Z) (best : option nat)
    : outcome (Z * option nat) :=
  if negb (nonEmptyCount <? 3) then Ret (nonEmptyCount, best)
  else match ptr, fuel with
  | None, _ => Ret (nonEmptyCount, best)
  | Some _, O => Fault Diverges
  | Some i, S fuel =>
      n ← node_at q i;
      let size := size_approx (any_base (node_producer n)) in
      if 0 <? size then
        if bestSize <? size then score fuel q (node_next n) (nonEmptyCount +w 1) size (Some i)
        else score fuel q (node_next n) (nonEmptyCount +w 1) bestSize best
      else score fuel q (node_next n) nonEmptyCount bestSize best
  end.

(** The loop over all producers but one. *)
Fixpoint dequeue_any (fuel : nat) (throws : bool) (q : ConcurrentQueue) (skip : option nat) (ptr : option nat)
    : outcome (DequeueResult T * ConcurrentQueue) :=
  match ptr, fuel with
  | None, _ => Ret (Nothing, q)
  | Some _, O => Fault Diverges
  | Some i, S fuel =>
      n ← node_at q i;
      if bool_decide (skip = Some i) then dequeue_any fuel throws q skip (node_next n)
      else
        '(r, q) ← dequeue_from throws q i;
        match r with
        | Nothing => dequeue_any fuel throws q skip (node_next n)
        | _ => Ret (r, q)
        end
  end.

(** [try_dequeue] without a token *)
Definition queue_try_dequeue (throws : bool) (q : ConcurrentQueue) : outcome (DequeueResult T * ConcurrentQueue) :=
  let fuel := S (length (cq_producers q)) in
  '(nonEmptyCount, best) ← score fuel q (producerListTail q) 0 0 None;
  if 0 <? nonEmptyCount then
    i ← of_option BadPointer best;
    '(r, q) ← dequeue_from throws q i;
    match r with
    | Nothing => dequeue_any fuel throws q best (producerListTail q)
    | _ => Ret (r, q)
    end
  else Ret (Nothing, q).

(** [try_dequeue_from_producer] *)
Definition try_dequeue_from_producer (throws : bool) (q : ConcurrentQueue) (i : nat) : outcome (DequeueResult T * ConcurrentQueue) :=
  n ← node_at q i;
  match node_producer n with
  | AImplicit _ => Fault BadPointer
  | AExplicit p =>
      '(r, h, p) ← explicit_dequeue throws (cq_heap q) p;
      Ret (r, set_node (set_heap q h) i (with_producer n (AExplicit p)))
  end.

Definition try_dequeue_non_interleaved (throws : bool) (q : ConcurrentQueue) : outcome (DequeueResult T * ConcurrentQueue) :=
  dequeue_any (S (length (cq_producers q))) throws q None (producerListTail q).

(** [ConcurrentQueue::size_approx] *)
Fixpoint sum_sizes (fuel : nat) (q : ConcurrentQueue) (ptr : option nat) (size : Z) : outcome Z :=
  match ptr, fuel with
  | None, _ => Ret size
  | Some _, O => Fault Diverges
  | Some i, S fuel => n ← node_at q i; sum_sizes fuel q (node_next n) (size +w size_approx (any_base (node_producer n)))
  end.

Definition queue_size_approx (q : ConcurrentQueue) : outcome Z :=
  sum_sizes (S (length (cq_producers q))) q (producerListTail q) 0.

(** ** Tokens *)

(** [if (producer != nullptr) producer->token = token;] *)
Definition set_token (q : ConcurrentQueue) (producer token : option nat) : outcome ConcurrentQueue :=
  match producer with
  | None => Ret q
  | Some i => n ← node_at q i; Ret (set_node q i (mkNode (node_producer n) (node_next n) (node_inactive n) token))
  end.

(** A producer token holds its producer, if one could be made, and the producer knows
    its token.  [this] is the number of the token. *)
Definition ProducerToken_new (q : ConcurrentQueue) (this : nat) : outcome (option nat * ConcurrentQueue) :=
  '(producer, _, q) ← recycle_or_create_producer true q;
  q ← set_token q producer (Some this); Ret (producer, q).

(** The move constructor, from a token that holds [other]: the results are the
    producers of the new token and of the other one. *)
Definition ProducerToken_move (q : ConcurrentQueue) (other : option nat) (this : nat) : outcome (option nat * option nat * ConcurrentQueue) :=
  q ← set_token q other (Some this); Ret (other, None, q).

(** [swap], and the assignment, of token [this], which holds [producer], with token
    [that], which holds [other]. *)
Definition ProducerToken_swap (q : ConcurrentQueue) (producer other : option nat) (this that : nat)
    : outcome (option nat * option nat * ConcurrentQueue) :=
  q ← set_token q other (Some this);
  q ← set_token q producer (Some that);
  Ret (other, producer, q).

(** The destructor makes the producer available again. *)
Definition ProducerToken_destroy (q : ConcurrentQueue) (token : option nat) : outcome ConcurrentQueue :=
  match token with
  | None => Ret q
  | Some i => n ← node_at q i; Ret (set_node q i (mkNode (node_producer n) (node_next n) true None))
  end.

Record ConsumerToken := mkConsumerToken {
  initialOffset : Z; lastKnownGlobalOffset : Z; itemsConsumedFromCurrent : Z;
  currentProducer : option nat; desiredProducer : option nat }.

Definition ConsumerToken_new (q : ConcurrentQueue) : ConsumerToken * ConcurrentQueue :=
  (mkConsumerToken (nextExplicitConsumerId q) (u32 (-1)) 0 None None,
   set_consumer_ids q (nextExplicitConsumerId q +u 1) (globalExplicitConsumerOffset q)).

(** The move constructor copies; [swap] and the assignment exchange. *)
Definition ConsumerToken_move (other : ConsumerToken) : ConsumerToken :=
  mkConsumerToken (initialOffset other) (lastKnownGlobalOffset other) (itemsConsumedFromCurrent other) (currentProducer other) (desiredProducer other).

Definition ConsumerToken_swap (this other : ConsumerToken) : ConsumerToken * ConsumerToken :=
  (mkConsumerToken (initialOffset other) (lastKnownGlobalOffset other) (itemsConsumedFromCurrent other) (currentProducer other) (desiredProducer other),
   mkConsumerToken (initialOffset this) (lastKnownGlobalOffset this) (itemsConsumedFromCurrent this) (currentProducer this) (desiredProducer this)).

(** [n] times to the next producer, from the end to the front again. *)
Fixpoint advance_producer (n : nat) (q : ConcurrentQueue) (i : nat) : outcome nat :=
  match n with
  | O => Ret i
  | S n =>
      node ← node_at q i;
      j ← of_option BadPointer (match node_next node with None => producerListTail q | o => o end);
      advance_producer n q j
  end.

(** The rest of [update_current_producer_after_rotation]: from the desired producer
    [d], or for a new token from the one its number says, as many producers on as
    the global offset has moved. *)
Definition rotate (q : ConcurrentQueue) (token : ConsumerToken) (d tail : option nat) : outcome (bool * ConsumerToken) :=
  let prodCount := producerCount q in
  let globalOffset := globalExplicitConsumerOffset q in
  if prodCount =? 0 then Fault DivisionByZero
  else
    desired ←
      match d with
      | Some i => Ret i
      | None =>
          let offset := prodCount -u 1 -u (initialOffset token mod prodCount) in
          t ← of_option BadPointer tail; advance_producer (Z.to_nat offset) q t
      end;
    let delta := globalOffset -u lastKnownGlobalOffset token in
    let delta := if prodCount <=? delta then delta mod prodCount else delta in
    desired ← advance_producer (Z.to_nat delta) q desired;
    Ret (true, mkConsumerToken (initialOffset token) globalOffset 0 (Some desired) (Some desired)).

Definition update_current_producer_after_rotation (q : ConcurrentQueue) (token : ConsumerToken) : outcome (bool * ConsumerToken) :=
  match desiredProducer token, producerListTail q with
  | None, None => Ret (false, token)
  | d, tail => rotate q token d tail
  end.

(** The loop over the other producers, from [i] on, until the current one. *)
Fixpoint dequeue_round (fuel : nat) (throws : bool) (q : ConcurrentQueue) (token : ConsumerToken) (i : nat)
    : outcome (DequeueResult T * ConcurrentQueue * ConsumerToken) :=
  if bool_decide (currentProducer token = Some i) then Ret (Nothing, q, token)
  else match fuel with
  | O => Fault Diverges
  | S fuel =>
      '(r, q) ← dequeue_from throws q i;
      match r with
      | Nothing => j ← advance_producer 1 q i; dequeue_round fuel throws q token j
      | AssignThrew => Ret (r, q, token)
      | Dequeued _ =>
          Ret (r, q, mkConsumerToken (initialOffset token) (lastKnownGlobalOffset token) 1 (Some i) (desiredProducer token))
      end
  end.

(** The start of both dequeues with a consumer token: the producer to look at first is
    chosen again when consumers have rotated; the result says whether there is one. *)
Definition choose_producer (q : ConcurrentQueue) (token : ConsumerToken) : outcome (bool * ConsumerToken) :=
  if match desiredProducer token with None => true | Some _ => negb (lastKnownGlobalOffset token =? globalExplicitConsumerOffset q) end
  then update_current_producer_after_rotation q token else Ret (true, token).

(** [try_dequeue] with a consumer token *)
Definition try_dequeue_token (throws : bool) (q : ConcurrentQueue) (token : ConsumerToken)
    : outcome (DequeueResult T * ConcurrentQueue * ConsumerToken) :=
  '(go, token) ← choose_producer q token;
  if negb (go : bool) then Ret (Nothing, q, token)
  else
    i ← of_option BadPointer (currentProducer token);
    '(r, q) ← dequeue_from throws q i;
    match r with
    | AssignThrew => Ret (r, q, token)
    | Dequeued _ =>
        let n := itemsConsumedFromCurrent token +u 1 in
        let q := if n =? EXPLICIT_CONSUMER_CONSUMPTION_QUOTA_BEFORE_ROTATE
                 then set_consumer_ids q (nextExplicitConsumerId q) (globalExplicitConsumerOffset q +u 1) else q in
        Ret (r, q, mkConsumerToken (initialOffset token) (lastKnownGlobalOffset token) n (currentProducer token) (desiredProducer token))
    | Nothing =>
        j ← advance_producer 1 q i;
        dequeue_round (S (length (cq_producers q))) throws q token j
    end.

(** ** Destruction *)

(** The producers, and the tokens that hold one and are told that it is gone. *)
Fixpoint destroy_producers (fuel : nat) (q : ConcurrentQueue) (ptr : option nat) : outcome (list nat * ConcurrentQueue) :=
  match ptr, fuel with
  | None, _ => Ret ([], q)
  | Some _, O => Fault Diverges
  | Some i, S fuel =>
      n ← node_at q i;
      h ← match node_producer n with
          | AImplicit p => implicit_destroy (cq_heap q) p
          | AExplicit p => explicit_destroy (S (size (blocks (cq_heap q)))) (cq_heap q) p
          end;
      '(tokens, q) ← destroy_producers fuel (set_heap q h) (node_next n);
      Ret (match node_token n with Some t => t :: tokens | None => tokens end, q)
  end.

(** The blocks of the free list: allocated ones are freed. *)
Fixpoint destroy_free_list (fuel : nat) (h : Heap T) (ptr : option nat) : outcome (Heap T) :=
  match ptr, fuel with
  | None, _ => Ret h
  | Some _, O => Fault Diverges
  | Some x, S fuel =>
      b ← get_block h x;
      let h := if dynamicallyAllocated b then set_blocks h (delete x (blocks h)) else h in
      destroy_free_list fuel h (freeListNext b)
  end.

(** The destructor: producers, free list, then the initial pool.  The tokens in the
    result have lost their producers; what remains on the heap are the blocks nobody
    freed. *)
Definition ConcurrentQueue_destroy (q : ConcurrentQueue) : outcome (list nat * Heap T) :=
  '(tokens, q) ← destroy_producers (S (length (cq_producers q))) q (producerListTail q);
  h ← destroy_free_list (S (size (blocks (cq_heap q)))) (cq_heap q) (freeListHead (cq_heap q));
  Ret (tokens, set_blocks h (filter (fun '(x, _) => initialBlockPoolSize h <= Z.of_nat x) (blocks h))).
End Queue.

Arguments AnyProducer : clear implicits.
Arguments ConcurrentQueue : clear implicits.
