(* ===== verification/ThreadExit.v ===== *)
(** * Threads that end (concurrentqueue.h, with MOODYCAMEL_CPP11_THREAD_LOCAL_SUPPORTED)

    With the option on, every thread has a list of listeners, the implicit producers it has
    been given, and when it ends each of them takes the thread out of the hash tables of its
    queue and becomes inactive, to be given to another thread.  [Exiting] is the notifier of
    one thread with the queues; a listener is a member of its producer, so its address is the
    queue and the producer.  The option is off in the build that the rest of the development
    describes; the functions it changes have the suffix [_tls]. *)
From S2P Require Import Prelude QueueDetails QueueBlock Producer ImplicitProducer ExplicitProducer ProducerHash Queue.

Section ThreadExit.
Context {T : Type}.

(** ** State *)

Definition Listener : Type := nat * nat.

(** [notifier_tail] is [ThreadExitNotifier::tail], [listener_next] the members [next]. *)
Record Exiting := mkExiting {
  notifier_tail : option Listener; listener_next : gmap Listener (option Listener); exit_queues : list (ConcurrentQueue T) }.

Definition set_notifier (w : Exiting) (o : option Listener) : Exiting := mkExiting o (listener_next w) (exit_queues w).
Definition set_listener (w : Exiting) (a : Listener) (o : option Listener) : Exiting :=
  mkExiting (notifier_tail w) (<[a := o]> (listener_next w)) (exit_queues w).
Definition set_queue (w : Exiting) (k : nat) (q : ConcurrentQueue T) : Exiting :=
  mkExiting (notifier_tail w) (listener_next w) (<[k := q]> (exit_queues w)).

(** ** The notifier *)

Definition subscribe (w : Exiting) (listener : Listener) : Exiting :=
  set_notifier (set_listener w listener (notifier_tail w)) (Some listener).

(** [*prev = next], where [prev] points to [tail] or to the [next] of a listener *)
Definition write_prev (w : Exiting) (prev next : option Listener) : Exiting :=
  match prev with None => set_notifier w next | Some a => set_listener w a next end.

Fixpoint unsubscribe_loop (fuel : nat) (w : Exiting) (listener : Listener) (prev ptr : option Listener) : outcome Exiting :=
  match ptr, fuel with
  | None, _ => Ret w
  | Some _, O => Fault Diverges
  | Some p, S fuel =>
      next ← of_option BadPointer (listener_next w !! p);
      if decide (p = listener) then Ret (write_prev w prev next) else unsubscribe_loop fuel w listener (Some p) next
  end.

Definition unsubscribe (w : Exiting) (listener : Listener) : outcome Exiting :=
  unsubscribe_loop (size (listener_next w)) w listener None (notifier_tail w).

(** ** A producer whose thread ends *)

(** The loop over the slots of one table. *)
Fixpoint leave_table (fuel : nat) (hash : ImplicitProducerHash) (id index : Z) : outcome ImplicitProducerHash :=
  match fuel with
  | O => Fault Diverges
  | S fuel =>
      let index := Z.land index (hash_capacity hash -w 1) in
      e ← of_option OutOfBounds (hash_entries hash !! Z.to_nat index);
      if kvp_key e =? id
      then Ret (mkHash (hash_capacity hash) (<[Z.to_nat index := mkKVP invalid_thread_id2 (kvp_value e)]> (hash_entries hash)))
      else if negb (kvp_key e =? invalid_thread_id) then leave_table fuel hash id (index +w 1) else Ret hash
  end.

(** The loop over the tables. *)
Fixpoint leave_hashes (hashes : list ImplicitProducerHash) (id : Z) : outcome (list ImplicitProducerHash) :=
  match hashes with
  | [] => Ret []
  | hash :: hashes =>
      hash ← leave_table (Z.to_nat (hash_capacity hash)) hash id (hash_thread_id id);
      hashes ← leave_hashes hashes id;
      Ret (hash :: hashes)
  end.

(** [implicit_producer_thread_exited_callback], called with the producer at [a] when thread
    [id] ends. *)
Definition implicit_producer_thread_exited (w : Exiting) (id : Z) (a : Listener) : outcome Exiting :=
  w ← unsubscribe w a;
  q ← of_option BadPointer (exit_queues w !! a.1);
  _ ← of_option AssertFailed (head (implicitProducerHash q));
  hashes ← leave_hashes (implicitProducerHash q) id;
  let q := set_hashes q hashes (implicitProducerHashCount q) in
  n ← node_at q a.2;
  Ret (set_queue w a.1 (set_node q a.2 (mkNode (node_producer n) (node_next n) true (node_token n)))).

(** The destructor of the notifier: a callback unsubscribes its own listener, and [next] of
    the listener is read after the callback. *)
Fixpoint exit_loop (fuel : nat) (w : Exiting) (id : Z) (ptr : option Listener) : outcome Exiting :=
  match ptr, fuel with
  | None, _ => Ret w
  | Some _, O => Fault Diverges
  | Some p, S fuel =>
      w ← implicit_producer_thread_exited w id p;
      next ← of_option BadPointer (listener_next w !! p);
      exit_loop fuel w id next
  end.

Definition thread_exit (w : Exiting) (id : Z) : outcome Exiting := exit_loop (size (listener_next w)) w id (notifier_tail w).

(** ** The producer of a thread *)

(** The insertion loop takes a slot whose thread has ended, too. *)
Fixpoint insert_reusing (fuel : nat) (hash : ImplicitProducerHash) (id index : Z) (value : option nat) : outcome ImplicitProducerHash :=
  match fuel with
  | O => Fault Diverges
  | S fuel =>
      let index := Z.land index (hash_capacity hash -w 1) in
      e ← of_option OutOfBounds (hash_entries hash !! Z.to_nat index);
      if (kvp_key e =? invalid_thread_id) || (kvp_key e =? invalid_thread_id2)
      then Ret (mkHash (hash_capacity hash) (<[Z.to_nat index := mkKVP id value]> (hash_entries hash)))
      else insert_reusing fuel hash id (index +w 1) value
  end.

Definition insert_in_tls (hash : ImplicitProducerHash) (id : Z) (value : option nat) : outcome ImplicitProducerHash :=
  insert_reusing (Z.to_nat (hash_capacity hash)) hash id (hash_thread_id id) value.

Definition find_producer_tls (hashes : list ImplicitProducerHash) (id : Z) : outcome (option (option nat) * list ImplicitProducerHash) :=
  o ← find_hashes true hashes id;
  match o, hashes with
  | Some (false, value), mainHash :: rest =>
      mainHash ← insert_in_tls mainHash id value; Ret (Some value, mainHash :: rest)
  | Some (_, value), _ => Ret (Some value, hashes)
  | None, _ => Ret (None, hashes)
  end.

(** A producer for a new identifier: its listener is subscribed before the identifier is
    entered in the table. *)
Definition add_implicit_producer_tls (w : Exiting) (k : nat) (q : ConcurrentQueue T) (id : Z) : outcome (option nat * Exiting) :=
  mainHash ← of_option AssertFailed (head (implicitProducerHash q));
  '(producer, recycled, q) ← recycle_or_create_producer false q;
  match producer with
  | None => Ret (None, set_queue w k (set_hashes q (implicitProducerHash q) (implicitProducerHashCount q -w 1)))
  | Some i =>
      let count := if (recycled : bool) then implicitProducerHashCount q -w 1 else implicitProducerHashCount q in
      let w := subscribe w (k, i) in
      mainHash ← insert_in_tls mainHash id (Some i);
      Ret (Some i, set_queue w k (set_hashes q (mainHash :: tail (implicitProducerHash q)) count))
  end.

(** [get_or_add_implicit_producer] of queue [k] by thread [id]. *)
Definition get_or_add_implicit_producer_tls (w : Exiting) (k : nat) (id : Z) : outcome (option nat * Exiting) :=
  q ← of_option BadPointer (exit_queues w !! k);
  '(found, hashes) ← find_producer_tls (implicitProducerHash q) id;
  let q := set_hashes q hashes (implicitProducerHashCount q) in
  match found with
  | Some value => Ret (value, set_queue w k q)
  | None =>
      let newCount := 1 +w implicitProducerHashCount q in
      let q := set_hashes q hashes (implicitProducerHashCount q +w 1) in
      '(ok, q) ← grow_hash q newCount;
      if negb (ok : bool) then Ret (None, set_queue w k q)
      else
        mainHash ← of_option AssertFailed (head (implicitProducerHash q));
        if newCount <? Z.shiftr (hash_capacity mainHash) 1 +w Z.shiftr (hash_capacity mainHash) 2
        then add_implicit_producer_tls w k q id
        else Fault Diverges
  end.

(** Threads that come one after the other: each asks for its producer and ends. *)
Fixpoint visits (w : Exiting) (ids : list Z) : outcome Exiting :=
  match ids with
  | [] => Ret w
  | id :: ids => '(_, w) ← get_or_add_implicit_producer_tls (set_notifier w None) 0 id; w ← thread_exit w id; visits w ids
  end.

(** ** The list of listeners *)

Fixpoint lchain (next : gmap Listener (option Listener)) (o : option Listener) (l : list Listener) : Prop :=
  match l with [] => o = None | a :: l => o = Some a /\ exists o', next !! a = Some o' /\ lchain next o' l end.

Lemma lchain_insert next a o' o l : a ∉ l -> lchain next o l -> lchain (<[a := o']> next) o l.
Proof.
  revert o. induction l as [|b l IH]; intros o Ha; [done|]. rewrite not_elem_of_cons in Ha. intros (-> & p & Hp & Hl). split; [done|]. exists p.
  rewrite lookup_insert_ne by naive_solver. split; [done|]. apply IH; tauto.
Qed.

Lemma lchain_length next o l : lchain next o l -> NoDup l -> (length l <= size next)%nat.
Proof.
  intros Hl Hnd. rewrite <- size_dom, <- (size_list_to_set (C := gset Listener) l) by done. apply subseteq_size. intros a Ha%elem_of_list_to_set.
  revert o Hl Ha. clear Hnd. induction l as [|b l IH]; intros o; [by intros _ ?%elem_of_nil|]. intros (-> & p & Hp & Hl) [->|Ha]%elem_of_cons.
  - apply elem_of_dom. by eexists.
  - by eapply IH.
Qed.

Lemma subscribe_spec w l a : lchain (listener_next w) (notifier_tail w) l -> a ∉ l -> lchain (listener_next (subscribe w a)) (notifier_tail (subscribe w a)) (a :: l).
Proof. intros Hl Ha. cbn. split; [done|]. eexists. rewrite lookup_insert_eq. split; [done|]. by apply lchain_insert. Qed.

Lemma filter_without (a : Listener) (l : list Listener) : a ∉ l -> filter (fun b => b <> a) l = l.
Proof.
  induction l as [|b l IH]; [done|]. rewrite not_elem_of_cons. intros [Hb Hl]. rewrite filter_cons_True by congruence. by rewrite IH.
Qed.

(** The pointer to a listener, in the notifier or in the one before it, is set to the one
    after it. *)
Lemma lchain_cut next t l1 a o l2 : lchain next t (l1 ++ a :: l2) -> next !! a = Some o -> NoDup (l1 ++ a :: l2) ->
  (last l1 = None -> lchain next o (l1 ++ l2)) /\ forall b, last l1 = Some b -> lchain (<[b := o]> next) t (l1 ++ l2).
Proof.
  intros Hl Ha Hnd. revert t Hl. induction l1 as [|b l1 IH]; intros t.
  - intros (-> & p & Hp & Hl). replace o with p by congruence. done.
  - intros (-> & p & Hp & Hl). apply NoDup_cons in Hnd as [Hb Hnd]. split; [by destruct l1 using rev_ind; rewrite ?app_comm_cons, ?last_snoc|].
    intros c Hc. split; [done|]. destruct (IH Hnd _ Hl) as [_ IH2]. destruct l1 as [|d l1].
    + injection Hc as <-. exists o. rewrite lookup_insert_eq. split; [done|]. cbn in *. destruct Hl as (-> & p' & Hp' & Hl). replace o with p' by congruence.
      apply lchain_insert; [|done]. rewrite not_elem_of_cons in Hb. tauto.
    + assert (c ∈ d :: l1) as Hin. { rewrite last_cons_cons in Hc. apply last_Some in Hc as [l' ->]. apply elem_of_app. right. by left. }
      change (b ∉ (d :: l1) ++ a :: l2) in Hb. exists p. rewrite lookup_insert_ne; [split; [done|]; by apply IH2|]. intros ->. apply Hb, elem_of_app. by left.
Qed.

(** The loop removes the listener from what is left of the list. *)
Lemma unsubscribe_loop_spec w a l2 : forall l1 fuel prev ptr,
  lchain (listener_next w) (notifier_tail w) (l1 ++ l2) -> lchain (listener_next w) ptr l2 -> NoDup (l1 ++ l2) -> prev = last l1 -> (length l2 <= fuel)%nat -> a ∉ l1 ->
  exists w', unsubscribe_loop fuel w a prev ptr = Ret w' /\ exit_queues w' = exit_queues w /\
    lchain (listener_next w') (notifier_tail w') (filter (fun b => b <> a) (l1 ++ l2)) /\ listener_next w' !! a = listener_next w !! a.
Proof.
  induction l2 as [|p l2 IH]; intros l1 fuel prev ptr Hl Hp Hnd -> Hf Ha.
  - cbn in Hp. subst ptr. exists w. split; [by destruct fuel|]. split; [done|]. split; [|done]. rewrite app_nil_r in *.
    by rewrite filter_without.
  - destruct Hp as (-> & o & Hp & Hl2). destruct fuel as [|fuel]; [cbn in Hf; lia|]. cbn [unsubscribe_loop]. rewrite Hp. cbn [of_option]. rewrite ret_bind.
    case_decide as Hpa.
    + subst p. destruct (lchain_cut _ _ _ _ _ _ Hl Hp Hnd) as [Hnil Hcut]. rewrite filter_app, filter_cons_False, (filter_without a l1) by (done || (intros []; done)).
      apply NoDup_app in Hnd as (_ & _ & [Ha2 _]%NoDup_cons). rewrite filter_without by done.
      destruct (last l1) as [b|] eqn:Eb; cbn [write_prev]; eexists; (split; [done|]; split; [done|]; split; [(by apply Hnil) || (by apply Hcut)|]); [|done].
      cbn. apply lookup_insert_ne. intros ->. apply Ha, list_elem_of_lookup. by rewrite last_lookup in Eb; eexists.
    + destruct (IH (l1 ++ [p]) fuel (Some p) o) as (w' & E & H); [..|exists w'; split; [exact E|]]; rewrite <- ?app_assoc; try done.
      * by rewrite last_snoc.
      * cbn in Hf. lia.
      * rewrite not_elem_of_app, list_elem_of_singleton. naive_solver.
      * by rewrite <- app_assoc in H.
Qed.

Lemma unsubscribe_spec w a l : lchain (listener_next w) (notifier_tail w) l -> NoDup l ->
  exists w', unsubscribe w a = Ret w' /\ exit_queues w' = exit_queues w /\
    lchain (listener_next w') (notifier_tail w') (filter (fun b => b <> a) l) /\ listener_next w' !! a = listener_next w !! a.
Proof. intros Hl Hnd. apply (unsubscribe_loop_spec w a l []); try done; [by eapply lchain_length|by intros ?%elem_of_nil]. Qed.

Lemma lchain_start next o l : lchain next o l -> o = head l.
Proof. destruct l as [|a l]; [done|]. by intros (-> & _). Qed.
End ThreadExit.

(** ** Leaving the tables *)

(** The table without thread [id]. *)
Definition forget (id : Z) (hash : ImplicitProducerHash) : ImplicitProducerHash :=
  mkHash (hash_capacity hash) (map (fun e => if kvp_key e =? id then mkKVP invalid_thread_id2 (kvp_value e) else e) (hash_entries hash)).

(** The search for [id] ends, and only at the slot it finds is the key [id]. *)
Definition table_ok (id : Z) (hash : ImplicitProducerHash) : bool :=
  match probe (Z.to_nat (hash_capacity hash)) hash id (hash_thread_id id) with
  | Fault _ => false
  | Ret o => forallb (fun s => match hash_entries hash !! s with
                               | Some e => implb (kvp_key e =? id) (bool_decide (o = Some (Z.of_nat s)))
                               | None => true
                               end) (seq 0 (length (hash_entries hash)))
  end.

Lemma table_ok_spec id hash : table_ok id hash = true <->
  exists o, probe (Z.to_nat (hash_capacity hash)) hash id (hash_thread_id id) = Ret o /\
    forall s e, hash_entries hash !! s = Some e -> kvp_key e = id -> o = Some (Z.of_nat s).
Proof.
  unfold table_ok. destruct (probe _ _ _ _) as [o|]; [|split; [done|by intros (? & ? & _)]]. rewrite forallb_forall. split.
  - intros H. exists o. split; [done|]. intros s e Hs He. specialize (H s). rewrite Hs, He, Z.eqb_refl in H. cbn in H. eapply bool_decide_eq_true, H.
    apply in_seq. apply lookup_lt_Some in Hs. lia.
  - intros (o' & [= <-] & H) s _. destruct (hash_entries hash !! s) as [e|] eqn:Hs; [|done]. destruct (Z.eqb_spec (kvp_key e) id); [|done].
    cbn. by apply bool_decide_eq_true, (H s e).
Qed.

Lemma leave_table_probe hash id : forall fuel index o, probe fuel hash id index = Ret o ->
  match o with
  | None => leave_table fuel hash id index = Ret hash
  | Some s => exists e, hash_entries hash !! Z.to_nat s = Some e /\ kvp_key e = id /\
      leave_table fuel hash id index = Ret (mkHash (hash_capacity hash) (<[Z.to_nat s := mkKVP invalid_thread_id2 (kvp_value e)]> (hash_entries hash)))
  end.
Proof.
  induction fuel as [|fuel IH]; intros index o; [done|]. cbn [probe leave_table]. destruct (hash_entries hash !! _) as [e|] eqn:He; cbn [of_option]; [|done].
  rewrite !ret_bind. destruct (Z.eqb_spec (kvp_key e) id) as [Ek|]; [intros [= <-]; by exists e|]. destruct (kvp_key e =? invalid_thread_id); [by intros [= <-]|]. apply IH.
Qed.

Lemma leave_table_spec id hash : table_ok id hash = true -> leave_table (Z.to_nat (hash_capacity hash)) hash id (hash_thread_id id) = Ret (forget id hash).
Proof.
  intros (o & Hp & Hu)%table_ok_spec. pose proof (leave_table_probe _ _ _ _ _ Hp) as H. unfold forget. destruct o as [s|].
  - destruct H as (e & Hs & He & ->). do 2 f_equal. apply list_eq. intros j. rewrite list_lookup_fmap. destruct (decide (j = Z.to_nat s)) as [->|Hne].
    + rewrite list_lookup_insert_eq, Hs by (by eapply lookup_lt_Some). cbn. by rewrite He, Z.eqb_refl.
    + rewrite list_lookup_insert_ne by done. destruct (hash_entries hash !! j) as [x|] eqn:Hj; [|done]. cbn. destruct (Z.eqb_spec (kvp_key x) id) as [Ex|]; [|done].
      specialize (Hu j x Hj Ex). injection Hu as ->. lia.
  - rewrite H. f_equal. destruct hash as [c es]. cbn in *. f_equal. apply list_eq. intros j. rewrite list_lookup_fmap. destruct (es !! j) as [x|] eqn:Hj; [|done].
    cbn. destruct (Z.eqb_spec (kvp_key x) id) as [Ex|]; [|done]. by specialize (Hu j x Hj Ex).
Qed.

Lemma leave_hashes_spec id hashes : forallb (table_ok id) hashes = true -> leave_hashes hashes id = Ret (map (forget id) hashes).
Proof.
  induction hashes as [|hash hashes IH]; [done|]. intros [H1 H2]%andb_true_iff. cbn [leave_hashes]. rewrite leave_table_spec, ret_bind by done.
  by rewrite IH, ret_bind.
Qed.

Lemma forget_lookup id hash s : hash_entries (forget id hash) !! s =
  (fun e => if kvp_key e =? id then mkKVP invalid_thread_id2 (kvp_value e) else e) <$> hash_entries hash !! s.
Proof. apply list_lookup_fmap. Qed.

(** The other threads find what they found. *)
Lemma probe_forget id id' hash : id <> invalid_thread_id -> id' <> id -> id' <> invalid_thread_id2 ->
  forall fuel index, probe fuel (forget id hash) id' index = probe fuel hash id' index.
Proof.
  intros H0 H1 H2. induction fuel as [|fuel IH]; intros index; [done|]. cbn [probe]. rewrite forget_lookup. cbn [hash_capacity forget].
  destruct (hash_entries hash !! _) as [e|]; cbn; [|done]. destruct (Z.eqb_spec (kvp_key e) id) as [->|]; cbn [kvp_key].
  - destruct (Z.eqb_spec invalid_thread_id2 id'); [congruence|]. destruct (Z.eqb_spec id id'); [congruence|]. destruct (Z.eqb_spec id invalid_thread_id); [congruence|]. apply IH.
  - destruct (kvp_key e =? id'); [done|]. destruct (kvp_key e =? invalid_thread_id); [done|]. apply IH.
Qed.

Lemma find_hashes_forget id id' hashes : id <> invalid_thread_id -> id' <> id -> id' <> invalid_thread_id2 ->
  forall first, find_hashes first (map (forget id) hashes) id' = find_hashes first hashes id'.
Proof.
  intros H0 H1 H2. induction hashes as [|hash hashes IH]; intros first; [done|]. cbn [map find_hashes]. rewrite probe_forget by done. cbn [hash_capacity forget].
  destruct (probe _ _ _ _) as [[s|]|]; [|apply IH|done]. rewrite !ret_bind. cbv beta iota. rewrite forget_lookup. destruct (hash_entries hash !! _) as [e|]; [|done]. cbn.
  by destruct (kvp_key e =? id).
Qed.

(** The thread itself is not found. *)
Lemma find_hashes_gone id hashes first x : id <> invalid_thread_id2 -> find_hashes first (map (forget id) hashes) id <> Ret (Some x).
Proof.
  intros H2. revert first. induction hashes as [|hash hashes IH]; intros first; [done|]. cbn [map find_hashes].
  assert (forall fuel index s, probe fuel (forget id hash) id index <> Ret (Some s)) as Hno.
  { induction fuel as [|fuel IHf]; intros index s; [done|]. cbn [probe]. rewrite forget_lookup. destruct (hash_entries hash !! _) as [e|]; cbn; [|done].
    destruct (Z.eqb_spec (kvp_key e) id) as [He|He]; cbn [kvp_key]; [destruct (Z.eqb_spec invalid_thread_id2 id); [congruence|apply IHf]|].
    destruct (Z.eqb_spec (kvp_key e) id); [done|]. destruct (kvp_key e =? invalid_thread_id); [done|apply IHf]. }
  specialize (Hno (Z.to_nat (hash_capacity (forget id hash))) (hash_thread_id id)).
  destruct (probe _ _ _ _) as [[s|]|]; [by destruct (Hno s)|apply IH|done].
Qed.

(** The keys of a table that the queue has built are distinct. *)
Lemma hash_keys_once hash m s1 s2 e1 e2 : hash_ok hash m -> hash_entries hash !! s1 = Some e1 -> hash_entries hash !! s2 = Some e2 ->
  occupied e1 = true -> occupied e2 = true -> kvp_key e1 = kvp_key e2 -> s1 = s2.
Proof.
  intros Hok H1 H2 O1 O2 Ek. set (K := map kvp_key (List.filter occupied (hash_entries hash))).
  assert (List.NoDup K) as Hnd.
  { eapply (List.NoDup_incl_NoDup (l := (map_to_list m).*1)).
    - apply NoDup_ListNoDup, NoDup_fst_map_to_list.
    - unfold K. rewrite length_map, (ho_count _ _ Hok), length_fmap, length_map_to_list. done.
    - intros id ([id' v] & -> & Hv%elem_of_map_to_list)%list_elem_of_In%list_elem_of_fmap. cbn [fst] in *. rename id' into id. destruct (ho_found _ _ Hok id v Hv) as (d & _ & Hs & _).
      apply in_map_iff. eexists. split; [|apply filter_In; split; [by eapply list_elem_of_In, list_elem_of_lookup_2|]]; [done|]. unfold occupied. cbn.
      apply negb_true_iff, Z.eqb_neq, (ho_ids _ _ Hok). by eexists. }
  unfold K in Hnd. clear -Hnd H1 H2 O1 O2 Ek. revert s1 s2 H1 H2. induction (hash_entries hash) as [|x es IH]; intros [|s1] [|s2] H1 H2; cbn in *; try done.
  - injection H1 as ->. rewrite O1 in Hnd. apply List.NoDup_cons_iff in Hnd as [Hnd _]. exfalso. apply Hnd. rewrite Ek. apply in_map, filter_In. split; [|done].
    by eapply list_elem_of_In, list_elem_of_lookup_2.
  - injection H2 as ->. rewrite O2 in Hnd. apply List.NoDup_cons_iff in Hnd as [Hnd _]. exfalso. apply Hnd. rewrite <- Ek. apply in_map, filter_In. split; [|done].
    by eapply list_elem_of_In, list_elem_of_lookup_2.
  - f_equal. apply IH; [|done..]. destruct (occupied x); [by apply List.NoDup_cons_iff in Hnd as [_ ?]|done].
Qed.

Lemma probe_range hash id : forall fuel index s, 0 <= hash_capacity hash -w 1 -> probe fuel hash id index = Ret (Some s) -> 0 <= s.
Proof.
  induction fuel as [|fuel IH]; intros index s Hc; [done|]. cbn [probe]. intros E. apply bind_Ret in E as (e & _ & E). destruct (kvp_key e =? id).
  - injection E as <-. apply Z.land_nonneg. by right.
  - destruct (kvp_key e =? invalid_thread_id); [done|]. by eapply IH.
Qed.

Lemma hash_ok_table_ok hash m id : hash_ok hash m -> id <> invalid_thread_id -> table_ok id hash = true.
Proof.
  intros Hok Hid. apply table_ok_spec. destruct (probe_spec hash m id Hok Hid) as (o & Hp & Ho). exists o. split; [done|]. intros s e Hs He.
  assert (occupied e = true) as Hoc by (unfold occupied; rewrite He; by apply negb_true_iff, Z.eqb_neq). destruct (ho_keys _ _ Hok _ _ Hs Hoc) as (v & _ & Hv).
  rewrite He in Hv. rewrite Hv in Ho. destruct Ho as (z & -> & Hz). rewrite <- (hash_keys_once _ _ _ _ _ _ Hok Hz Hs); cbn; try done.
  - f_equal. rewrite Z2Nat.id; [done|]. eapply probe_range; [apply (proj1 (u64_range _))|exact Hp].
  - unfold occupied. cbn. by apply negb_true_iff, Z.eqb_neq.
Qed.

(** ** The end of a thread *)

Lemma alter_is_insert {A} (f : A -> A) (l : list A) i x : l !! i = Some x -> alter f i l = <[i := f x]> l.
Proof.
  intros Hx. apply list_eq. intros j. rewrite list_lookup_alter. case_decide; subst.
  - by rewrite Hx, list_lookup_insert_eq by (by eapply lookup_lt_Some).
  - by rewrite list_lookup_insert_ne.
Qed.

Section Exit.
Context {T : Type}.
Implicit Types (w : Exiting (T := T)) (q : ConcurrentQueue T) (l : list Listener).

(** Queue [q] when the thread with producer [i] is gone. *)
Definition after_exit (id : Z) (i : nat) q : ConcurrentQueue T :=
  set_producers (set_hashes q (map (forget id) (implicitProducerHash q)) (implicitProducerHashCount q))
    (alter (fun n => mkNode (node_producer n) (node_next n) true (node_token n)) i (cq_producers q)).

(** A queue that the callback can work on. *)
Definition exit_ready (id : Z) (qs : list (ConcurrentQueue T)) (a : Listener) : Prop :=
  exists q, qs !! a.1 = Some q /\ (a.2 < length (cq_producers q))%nat /\ implicitProducerHash q <> [] /\ forallb (table_ok id) (implicitProducerHash q) = true.

Lemma thread_exited_spec w id a l : lchain (listener_next w) (notifier_tail w) l -> NoDup l -> exit_ready id (exit_queues w) a ->
  exists w', implicit_producer_thread_exited w id a = Ret w' /\ exit_queues w' = alter (after_exit id a.2) a.1 (exit_queues w) /\
    lchain (listener_next w') (notifier_tail w') (filter (fun b => b <> a) l) /\ listener_next w' !! a = listener_next w !! a.
Proof.
  intros Hl Hnd (q & Hq & Hi & Hh & Ht). destruct (unsubscribe_spec w a l Hl Hnd) as (w1 & E & Eq & Hl1 & Ha). unfold implicit_producer_thread_exited.
  rewrite E, ret_bind, Eq, Hq. cbn [of_option]. rewrite ret_bind. destruct (implicitProducerHash q) as [|hash hashes] eqn:Eh; [done|]. cbn [head of_option]. rewrite ret_bind.
  rewrite (leave_hashes_spec _ _ Ht), ret_bind. destruct (lookup_lt_is_Some_2 _ _ Hi) as [n Hn]. unfold node_at. cbn [cq_producers set_hashes]. rewrite Hn. cbn [of_option].
  rewrite ret_bind. eexists. split; [done|]. split; [|done]. cbn. rewrite Eq, (alter_is_insert _ _ _ _ Hq). f_equal. unfold after_exit, set_node. rewrite Eh. f_equal.
  cbn. by rewrite (alter_is_insert _ _ _ _ Hn).
Qed.

Lemma exit_loop_spec id l : forall w fuel, lchain (listener_next w) (notifier_tail w) l -> NoDup l.*1 -> (length l <= fuel)%nat -> Forall (exit_ready id (exit_queues w)) l ->
  exists w', exit_loop fuel w id (notifier_tail w) = Ret w' /\ notifier_tail w' = None /\
    exit_queues w' = foldl (fun qs a => alter (after_exit id a.2) a.1 qs) (exit_queues w) l.
Proof.
  induction l as [|a l IH]; intros w fuel Hl Hnd Hf Hr.
  { cbn in Hl. exists w. rewrite Hl. by destruct fuel. }
  destruct fuel as [|fuel]; [cbn in Hf; lia|]. destruct Hl as (Et & o & Ho & Hl). rewrite Et. cbn [exit_loop].
  apply Forall_cons in Hr as [Ha Hr]. pose proof (NoDup_fmap_1 _ _ Hnd) as Hnd'. apply NoDup_cons in Hnd as [Hna Hnd].
  destruct (thread_exited_spec w id a (a :: l)) as (w1 & E & Eq & Hl1 & Hx); [split; [done|by exists o]|done|done|]. apply NoDup_cons in Hnd' as [Hna' _].
  rewrite E, ret_bind, Hx, Ho. cbn [of_option]. rewrite ret_bind. rewrite filter_cons_False, filter_without in Hl1 by (done || (intros []; done)).
  rewrite (lchain_start _ _ _ Hl), <- (lchain_start _ _ _ Hl1). destruct (IH w1 fuel Hl1 Hnd) as (w' & E' & Hn & Eq'); [cbn in Hf; lia| |].
  - rewrite Eq. eapply Forall_impl; [apply Forall_and; split; [exact Hr|apply Forall_forall; intros b Hb; exact Hb]|].
    intros b [(q & Hq & H) Hb]. exists q. split; [|done]. rewrite list_lookup_alter_ne; [done|]. intros Eab. apply Hna. rewrite Eab. apply list_elem_of_fmap. by exists b.
  - exists w'. split; [done|]. split; [done|]. cbn. by rewrite Eq', Eq.
Qed.

Lemma foldl_exit id l : NoDup l.*1 -> forall (qs : list (ConcurrentQueue T)) k,
  (k ∉ l.*1 -> foldl (fun qs a => alter (after_exit id a.2) a.1 qs) qs l !! k = qs !! k) /\
  forall i, (k, i) ∈ l -> foldl (fun qs a => alter (after_exit id a.2) a.1 qs) qs l !! k = after_exit id i <$> qs !! k.
Proof.
  induction l as [|a l IH]; intros Hnd qs k; [split; [done|by intros i ?%elem_of_nil]|]. apply NoDup_cons in Hnd as [Ha Hnd]. cbn [foldl].
  destruct (IH Hnd (alter (after_exit id a.2) a.1 qs) k) as [H1 H2]. split.
  - cbn. rewrite not_elem_of_cons. intros [Hk Hl]. rewrite H1 by done. by apply list_lookup_alter_ne.
  - intros i [<-|Hi]%elem_of_cons.
    + cbn in *. rewrite H1 by done. apply list_lookup_alter_eq.
    + rewrite (H2 i Hi). f_equal. apply list_lookup_alter_ne. intros E. apply Ha. rewrite E. apply list_elem_of_fmap. by exists (k, i).
Qed.

End Exit.

(** Two queues, used by thread 8 and then by thread 16. *)
Definition demo_exiting : outcome (Exiting (T := Z)) :=
  let q := ConcurrentQueue_new (T := Z) [] (replicate 32 false) 32 in
  '(_, w) ← get_or_add_implicit_producer_tls (mkExiting None ∅ [q; q]) 0 8;
  '(_, w) ← get_or_add_implicit_producer_tls (set_notifier w None) 0 16;
  '(_, w) ← get_or_add_implicit_producer_tls w 1 16;
  Ret w.


(** ** A table that is worn out *)

(** In a table whose slots have all been left no search ends. *)
Lemma probe_worn_out hash id : hash_capacity hash = 32 -> length (hash_entries hash) = 32%nat -> Forall (fun e => kvp_key e = invalid_thread_id2) (hash_entries hash) ->
  id <> invalid_thread_id2 -> forall fuel index, probe fuel hash id index = Fault Diverges.
Proof.
  intros Hc Hl Hk Hid. induction fuel as [|fuel IH]; intros index; [done|]. cbn [probe]. rewrite Hc. change (32 -w 1) with (Z.ones 5). rewrite Z.land_ones by lia.
  destruct (lookup_lt_is_Some_2 (hash_entries hash) (Z.to_nat (index mod 2 ^ 5))) as [e He].
  { pose proof (Z.mod_pos_bound index (2 ^ 5) ltac:(lia)). lia. }
  rewrite He. cbn [of_option]. rewrite ret_bind. rewrite Forall_lookup in Hk. rewrite (Hk _ _ He). destruct (Z.eqb_spec invalid_thread_id2 id) as [|_]; [congruence|].
  apply IH.
Qed.

(** The identifiers of 32 threads, addresses in stacks of 8 MiB and a guard page, whose
    first slots in a table of 32 are different. *)
Definition demo_visitors : list Z :=
  map (fun k => 140737353627392 + 8392704 * k)
    [0; 1; 2; 3; 4; 6; 7; 8; 9; 10; 11; 12; 17; 19; 20; 21; 23; 24; 26; 29; 31; 32; 37; 39; 42; 47; 50; 60; 72; 79; 107; 126].

(** "Not an infinite loop because at least one slot is free" does not hold with the option:
    a slot that has been used is never free again.  After 32 threads, one at a time, have
    used a new queue and ended, there are one producer and one table, counted as holding
    one thread, and no slot of the table is free: the search of [get_or_add_implicit_producer]
    does not end for any thread that comes then. *)
Theorem thread_exits_wear_out_table :
  exists w q hash, visits (mkExiting None ∅ [ConcurrentQueue_new (T := Z) [] (replicate 32 false) 32]) demo_visitors = Ret w /\
    exit_queues w = [q] /\ implicitProducerHash q = [hash] /\ implicitProducerHashCount q = 1 /\ length (cq_producers q) = 1%nat /\
    forall id fuel, id <> invalid_thread_id2 -> probe fuel hash id (hash_thread_id id) = Fault Diverges.
Proof.
  destruct (visits _ demo_visitors) as [w|] eqn:E; [|vm_compute in E; discriminate E]. vm_compute in E. injection E as <-. eexists _, _, _.
  split; [reflexivity|]. split; [reflexivity|]. split; [reflexivity|]. split; [reflexivity|]. split; [reflexivity|]. intros id fuel Hid.
  apply probe_worn_out; [reflexivity|reflexivity|repeat constructor|exact Hid].
Qed.
