(* ===== verification/QueueBulk.v ===== *)
(** * Bulk operations of the queue (concurrentqueue.h, class ConcurrentQueue)

    [enqueue_bulk], [try_enqueue_bulk] and [try_dequeue_bulk], without a token, with a
    token and from the producer of a token.  An item that is [None] is one whose
    constructor throws; [throws] is the number of the assignment to an output that
    throws.  What a dequeue returns are the elements assigned to the output, the count
    of the code being their number, and whether an assignment threw. *)
From S2P Require Import Prelude QueueDetails QueueBlock Producer ImplicitProducer ImplicitBulk ExplicitProducer ExplicitBulk ProducerHash Queue.

Section Bulk.
Context {T : Type}.
Implicit Types (h : Heap T) (q : ConcurrentQueue T).

(** ** Enqueue *)

(** [inner_enqueue_bulk] of thread [id] without a token. *)
Definition inner_enqueue_bulk (allocMode : AllocationMode) (garbage : nat -> list bool) q (id : Z) (items : list (option T))
    : outcome (EnqueueResult * ConcurrentQueue T) :=
  '(producer, q) ← get_or_add_implicit_producer q id;
  match producer with
  | None => Ret (Refused, q)
  | Some i =>
      n ← node_at q i;
      match node_producer n with
      | AExplicit _ => Fault BadPointer
      | AImplicit p =>
          '(r, h, p) ← implicit_enqueue_bulk allocMode garbage (cq_heap q) p items;
          Ret (r, set_node (set_heap q h) i (with_producer n (AImplicit p)))
      end
  end.

(** [inner_enqueue_bulk] with the producer of a token. *)
Definition inner_enqueue_bulk_token (allocMode : AllocationMode) (noexcept : bool) (garbage : nat -> list bool) q (i : nat)
    (items : list (option T)) : outcome (EnqueueResult * ConcurrentQueue T) :=
  n ← node_at q i;
  match node_producer n with
  | AImplicit _ => Fault BadPointer
  | AExplicit p =>
      '(r, h, p) ← explicit_enqueue_bulk allocMode noexcept garbage (cq_heap q) p items;
      Ret (r, set_node (set_heap q h) i (with_producer n (AExplicit p)))
  end.

(** ** Dequeue *)

(** [ProducerBase::dequeue_bulk] *)
Definition any_dequeue_bulk (throws : option nat) h (p : AnyProducer) (max : Z) : outcome (list T * bool * Heap T * AnyProducer) :=
  match p with
  | AImplicit p => '(l, threw, h, p) ← implicit_dequeue_bulk throws h p max; Ret (l, threw, h, AImplicit p)
  | AExplicit p => '(l, threw, h, p) ← explicit_dequeue_bulk throws h p max; Ret (l, threw, h, AExplicit p)
  end.

Definition dequeue_bulk_from (throws : option nat) q (i : nat) (max : Z) : outcome (list T * bool * ConcurrentQueue T) :=
  n ← node_at q i;
  '(l, threw, h, p) ← any_dequeue_bulk throws (cq_heap q) (node_producer n) max;
  Ret (l, threw, set_node (set_heap q h) i (with_producer n p)).

(** The number of the failing assignment, after [l] has been assigned. *)
Definition throws_after (throws : option nat) (l : list T) : option nat := (fun t => t - length l)%nat <$> throws.

(** The loop of [try_dequeue_bulk] over all producers; [items] have been assigned. *)
Fixpoint bulk_any (fuel : nat) (throws : option nat) q (ptr : option nat) (items : list T) (count max : Z)
    : outcome (list T * bool * ConcurrentQueue T) :=
  match ptr, fuel with
  | None, _ => Ret (items, false, q)
  | Some _, O => Fault Diverges
  | Some i, S fuel =>
      n ← node_at q i;
      '(l, threw, q) ← dequeue_bulk_from throws q i (max -w count);
      if (threw : bool) then Ret (items ++ l, true, q)
      else
        let count := count +w Z.of_nat (length l) in
        if count =? max then Ret (items ++ l, false, q)
        else bulk_any fuel (throws_after throws l) q (node_next n) (items ++ l) count max
  end.

(** [try_dequeue_bulk] without a token *)
Definition queue_try_dequeue_bulk (throws : option nat) q (max : Z) : outcome (list T * bool * ConcurrentQueue T) :=
  bulk_any (S (length (cq_producers q))) throws q (producerListTail q) [] 0 max.

(** [try_dequeue_bulk_from_producer] *)
Definition try_dequeue_bulk_from_producer (throws : option nat) q (i : nat) (max : Z) : outcome (list T * bool * ConcurrentQueue T) :=
  n ← node_at q i;
  match node_producer n with
  | AImplicit _ => Fault BadPointer
  | AExplicit p =>
      '(l, threw, h, p) ← explicit_dequeue_bulk throws (cq_heap q) p max;
      Ret (l, threw, set_node (set_heap q h) i (with_producer n (AExplicit p)))
  end.

Definition consumed (token : ConsumerToken) (n : Z) : ConsumerToken :=
  mkConsumerToken (initialOffset token) (lastKnownGlobalOffset token) n (currentProducer token) (desiredProducer token).

Definition moved_to (token : ConsumerToken) (i : nat) (n : Z) : ConsumerToken :=
  mkConsumerToken (initialOffset token) (lastKnownGlobalOffset token) n (Some i) (desiredProducer token).

(** The loop over the producers after the current one.  A producer that had elements
    becomes the current one, and the loop then ends when it is back there. *)
Fixpoint bulk_round (fuel : nat) (throws : option nat) q (token : ConsumerToken) (i : nat) (items : list T) (max : Z)
    : outcome (list T * bool * ConcurrentQueue T * ConsumerToken) :=
  if bool_decide (currentProducer token = Some i) then Ret (items, false, q, token)
  else match fuel with
  | O => Fault Diverges
  | S fuel =>
      '(l, threw, q) ← dequeue_bulk_from throws q i max;
      if (threw : bool) then Ret (items ++ l, true, q, token)
      else
        let dequeued := Z.of_nat (length l) in
        let token := if dequeued =? 0 then token else moved_to token i (u32 dequeued) in
        if dequeued =? max then Ret (items ++ l, false, q, token)
        else
          j ← advance_producer 1 q i;
          bulk_round fuel (throws_after throws l) q token j (items ++ l) (max -w dequeued)
  end.

(** [try_dequeue_bulk] with a consumer token *)
Definition try_dequeue_bulk_token (throws : option nat) q (token : ConsumerToken) (max : Z)
    : outcome (list T * bool * ConcurrentQueue T * ConsumerToken) :=
  '(go, token) ← choose_producer q token;
  if negb (go : bool) then Ret ([], false, q, token)
  else
    i ← of_option BadPointer (currentProducer token);
    '(l, threw, q) ← dequeue_bulk_from throws q i max;
    if (threw : bool) then Ret (l, true, q, token)
    else
      let count := Z.of_nat (length l) in
      if count =? max then
        let n := itemsConsumedFromCurrent token +u u32 max in
        let q := if EXPLICIT_CONSUMER_CONSUMPTION_QUOTA_BEFORE_ROTATE <=? n
                 then set_consumer_ids q (nextExplicitConsumerId q) (globalExplicitConsumerOffset q +u 1) else q in
        Ret (l, false, q, consumed token n)
      else
        let token := consumed token (itemsConsumedFromCurrent token +u u32 count) in
        j ← advance_producer 1 q i;
        bulk_round (S (length (cq_producers q)) * S (length (cq_producers q))) (throws_after throws l) q token j l (max -w count).
End Bulk.
