(* ===== verification/QueueSpec.v ===== *)
(** * What the queue promises (concurrentqueue.h, class ConcurrentQueue)

    [ProducerSpec] is what the queue needs of its producers; implicit and explicit
    producers meet it.  Proved against it: the walks over the list of producers ([score],
    [dequeue_any], [dequeue_round], [sum_sizes]) and the three ways to dequeue. *)
From S2P Require Import Prelude QueueDetails QueueBlock Producer ImplicitProducer ImplicitIndex ImplicitSpec ImplicitBulk BlockCells ImplicitBulkSpec ImplicitTrace ExplicitProducer ExplicitSpec ExplicitEnqueue ExplicitDestroy ExplicitBulk ExplicitBulkSpec ExplicitTrace ProducerHash Queue QueueBulk.

(** ** The interface of producers *)

(** [rep h p l bs]: producer [p] holds the elements [l] in the blocks [bs] of [h];
    [usable p]: nothing it needs could not be allocated. *)
Class ProducerSpec {T P : Type} (base : P -> ProducerBase)
    (dequeue : bool -> Heap T -> P -> outcome (DequeueResult T * Heap T * P))
    (dequeue_bulk : option nat -> Heap T -> P -> Z -> outcome (list T * bool * Heap T * P))
    (rep : Heap T -> P -> list T -> list nat -> Prop) (usable : P -> Prop) := {
  ps_size h p l bs : rep h p l bs -> size_approx (base p) = Z.of_nat (length l) /\ Z.of_nat (length l) < 9223372036854775808;
  ps_nodup h p l bs : rep h p l bs -> NoDup bs;
  ps_frame h h' p l bs : same_blocks (list_to_set bs) h h' -> rep h p l bs -> rep h' p l bs;
  ps_empty throws h p bs : rep h p [] bs -> dequeue throws h p = Ret (Nothing, h, p);
  ps_dequeue throws h p v l bs F : own h F bs -> rep h p (v :: l) bs ->
    exists h' p' bs', dequeue throws h p = Ret (if throws then AssignThrew else Dequeued v, h', p') /\
      stepped F h h' bs' /\ rep h' p' l bs' /\ (usable p -> usable p');
  ps_dequeue_bulk throws h p l bs F max : own h F bs -> rep h p l bs -> is_u64 max ->
    let n := Nat.min (length l) (Z.to_nat max) in
    let m := assigned throws n in
    exists h' p' bs', dequeue_bulk throws h p max = Ret (take m l, bool_decide (m < n)%nat, h', p') /\
      stepped F h h' bs' /\ rep h' p' (drop n l) bs' /\ (usable p -> usable p') }.

Section Spec.
Context {T : Type}.
Implicit Types (h : Heap T) (q : ConcurrentQueue T) (l : list T) (qs : list (list T)) (bs : list nat) (bss : list (list nat)).

Definition implicit_rep h (p : ImplicitProducer) l bs : Prop := exists hd, imp_rep h p l hd bs.

Definition implicit_usable (p : ImplicitProducer) : Prop := blockIndex p <> [].

#[export] Instance implicit_spec : ProducerSpec imp_base implicit_dequeue implicit_dequeue_bulk implicit_rep implicit_usable.
Proof.
  constructor.
  - intros h p l bs [hd R]. pose proof (ir_base _ _ _ _ _ R) as B. split; [by apply (size_approx_spec _ _ _ B)|apply (br_len _ _ _ B)].
  - intros h p l bs [hd R]. apply R.
  - intros h h' p l bs Hs [hd R]. exists hd. by eapply imp_rep_frame.
  - intros throws h p bs [hd R]. by eapply dequeue_empty.
  - intros throws h p v l bs F Ho [hd R]. destruct (dequeue_spec throws h p l v hd bs F Ho R) as (h' & p' & bs' & E & S & R' & I).
    exists h', p', bs'. split; [done|]. split; [done|]. split; [by exists (hd + 1)|]. unfold implicit_usable. by rewrite I.
  - intros throws h p l bs F max Ho [hd R] Hm n m. destruct (dequeue_bulk_spec throws h p l hd bs F max Ho R Hm) as (h' & p' & bs' & E & S & R' & I).
    exists h', p', bs'. split; [done|]. split; [done|]. split; [by eexists|]. unfold implicit_usable. by rewrite I.
Qed.

Definition explicit_rep h (p : ExplicitProducer) l bs : Prop := exists hd, exp_rep h p l hd bs.

(** An explicit producer tries again to allocate its index. *)
Definition explicit_usable (p : ExplicitProducer) : Prop := True.

#[export] Instance explicit_spec : ProducerSpec exp_base explicit_dequeue explicit_dequeue_bulk explicit_rep explicit_usable.
Proof.
  constructor.
  - intros h p l bs [hd R]. pose proof (xr_base _ _ _ _ _ R) as B. split; [by apply (size_approx_spec _ _ _ B)|apply (br_len _ _ _ B)].
  - intros h p l bs [hd R]. apply R.
  - intros h h' p l bs Hs [hd R]. exists hd. by eapply exp_rep_frame.
  - intros throws h p bs [hd R]. by eapply exp_dequeue_empty.
  - intros throws h p v l bs F Ho [hd R]. destruct (exp_dequeue_spec throws h p l v hd bs F Ho R) as (h' & p' & E & S & R').
    exists h', p', bs. split; [done|]. split; [done|]. split; [by exists (hd + 1)|done].
  - intros throws h p l bs F max Ho [hd R] Hm n m. destruct (exp_dequeue_bulk_spec throws h p l hd bs F max Ho R Hm) as (h' & p' & E & S & R').
    exists h', p', bs. split; [done|]. split; [done|]. split; [by eexists|done].
Qed.

Definition any_rep h (p : AnyProducer) l bs : Prop :=
  match p with AImplicit p => implicit_rep h p l bs | AExplicit p => explicit_rep h p l bs end.

Definition any_usable (p : AnyProducer) : Prop :=
  match p with AImplicit p => implicit_usable p | AExplicit p => explicit_usable p end.

#[export] Instance any_spec : ProducerSpec any_base any_dequeue any_dequeue_bulk any_rep any_usable.
Proof.
  constructor.
  - intros h [p|p] l bs R; exact (ps_size h p l bs R).
  - intros h [p|p] l bs R; exact (ps_nodup h p l bs R).
  - intros h h' [p|p] l bs Hs R; exact (ps_frame h h' p l bs Hs R).
  - intros throws h [p|p] bs R; cbn [any_dequeue]; by rewrite (ps_empty throws h p bs R).
  - intros throws h [p|p] v l bs F Ho R; cbn [any_dequeue];
      destruct (ps_dequeue throws h p v l bs F Ho R) as (h' & p' & bs' & -> & S & R');
      [by eexists h', (AImplicit p'), bs'|by eexists h', (AExplicit p'), bs'].
  - intros throws h [p|p] l bs F max Ho R Hm n m; cbn [any_dequeue_bulk];
      destruct (ps_dequeue_bulk throws h p l bs F max Ho R Hm) as (h' & p' & bs' & -> & S & R');
      [by eexists h', (AImplicit p'), bs'|by eexists h', (AExplicit p'), bs'].
Qed.

Lemma any_dequeue_kind throws h p r h' p' : any_dequeue throws h p = Ret (r, h', p') -> is_explicit p' = is_explicit p.
Proof.
  destruct p as [p|p]; cbn [any_dequeue]; intros E; apply bind_Ret in E as ([[? ?] ?] & _ & E); by injection E as _ _ <-.
Qed.

(** ** The list of producers *)

(** Producers are pushed at the front: the next of number [k] is number [k - 1]. *)
Definition link_of (k : nat) : option nat := match k with O => None | S k => Some k end.

(** Implicit producers are never inactive: threads are not told to have ended. *)
Definition node_rep h (k : nat) (n : ProducerNode) l bs : Prop :=
  node_next n = link_of k /\ (is_explicit (node_producer n) = false -> node_inactive n = false) /\ any_rep h (node_producer n) l bs.

(** The sub-queues [qs] of the producers, in blocks nobody shares. *)
Record list_rep q qs bss : Prop := mk_list_rep {
  lr_nodes : forall k l, qs !! k = Some l -> exists n bs, cq_producers q !! k = Some n /\ bss !! k = Some bs /\ node_rep (cq_heap q) k n l bs;
  lr_length : length (cq_producers q) = length qs;
  lr_blocks : length bss = length qs;
  lr_nodup : NoDup (concat bss);
  lr_heap : heap_inv (cq_heap q) (list_to_set (concat bss));
  lr_tail : producerListTail q = link_of (length qs) }.

(** The blocks of the others. *)
Definition others bss (k : nat) : gset nat := list_to_set (concat (take k bss ++ drop (S k) bss)).

Lemma concat_split bss k bs : bss !! k = Some bs -> concat bss ≡ₚ bs ++ concat (take k bss ++ drop (S k) bss).
Proof.
  intros Hk. rewrite <- (take_drop_middle bss k bs Hk) at 1. rewrite !concat_app. cbn. rewrite Permutation_app_swap_app. done.
Qed.

Lemma concat_insert bss k bs bs' : bss !! k = Some bs -> concat (<[k := bs']> bss) ≡ₚ bs' ++ concat (take k bss ++ drop (S k) bss).
Proof.
  intros Hk. rewrite insert_take_drop by (by eapply lookup_lt_Some). rewrite !concat_app. cbn. rewrite Permutation_app_swap_app. done.
Qed.

Lemma own_at h bss k bs :
  heap_inv h (list_to_set (concat bss)) -> NoDup (concat bss) -> bss !! k = Some bs -> own h (others bss k) bs.
Proof.
  intros Hi Hnd Hk. rewrite (concat_split _ _ _ Hk) in Hnd. rewrite (list_to_set_perm_L _ _ (concat_split _ _ _ Hk)), list_to_set_app_L in Hi.
  apply NoDup_app in Hnd as (_ & Hd & _). split; [by rewrite union_comm_L|].
  intros x Hx%elem_of_list_to_set Hb%elem_of_list_to_set. by apply (Hd x).
Qed.

Lemma own_back h bss k bs bs' :
  own h (others bss k) bs' -> NoDup (concat bss) -> bss !! k = Some bs -> NoDup bs' ->
  heap_inv h (list_to_set (concat (<[k := bs']> bss))) /\ NoDup (concat (<[k := bs']> bss)).
Proof.
  intros [Hi Hd] Hnd Hk Hbs. rewrite (concat_split _ _ _ Hk) in Hnd. apply NoDup_app in Hnd as (_ & _ & Hnd).
  rewrite (list_to_set_perm_L _ _ (concat_insert _ _ _ bs' Hk)), list_to_set_app_L, union_comm_L. split; [done|].
  rewrite (concat_insert _ _ _ bs' Hk). apply NoDup_app. split; [done|]. split; [|done].
  intros x Hx Ho. apply (Hd x); by apply elem_of_list_to_set.
Qed.

Lemma others_contains bss k j bs : j <> k -> bss !! j = Some bs -> (list_to_set bs : gset nat) ⊆ others bss k.
Proof.
  intros Hne Hj x Hx%elem_of_list_to_set. apply elem_of_list_to_set, list_elem_of_In, List.in_concat.
  exists bs. split; [|by apply list_elem_of_In]. apply list_elem_of_In, elem_of_app.
  destruct (decide (j < k)%nat).
  - left. apply list_elem_of_lookup. exists j. by rewrite lookup_take, decide_True.
  - right. apply list_elem_of_lookup. exists (j - S k)%nat. rewrite lookup_drop. by replace (S k + (j - S k))%nat with j by lia.
Qed.

(** Writing back producer [k] after a step of it. *)
Lemma list_rep_step q qs bss k n l bs h' p' l' bs' :
  list_rep q qs bss -> cq_producers q !! k = Some n -> qs !! k = Some l -> bss !! k = Some bs ->
  node_rep (cq_heap q) k n l bs -> stepped (others bss k) (cq_heap q) h' bs' -> any_rep h' p' l' bs' ->
  is_explicit p' = is_explicit (node_producer n) ->
  list_rep (set_node (set_heap q h') k (with_producer n p')) (<[k := l']> qs) (<[k := bs']> bss).
Proof.
  intros [Hn Hl Hb Hnd Hh Ht] Hk Hq Hbs (N1 & N2 & _) (O & S & _) R Ek.
  destruct (own_back _ _ _ _ _ O Hnd Hbs (ps_nodup _ _ _ _ R)) as [Hi' Hnd'].
  constructor; cbn [set_node set_producers set_heap cq_producers cq_heap producerListTail]; rewrite ?length_insert; try done.
  intros j lj Hj. apply list_lookup_insert_Some in Hj as [(<- & <- & Hlt)|(Hne & Hj)].
  - eexists _, _. rewrite !list_lookup_insert_eq by lia. split; [done|]. split; [done|].
    split; [done|]. split; [cbn; by rewrite Ek|done].
  - destruct (Hn j lj Hj) as (nj & bsj & Hnj & Hbj & Nj1 & Nj2 & Rj). exists nj, bsj. rewrite !list_lookup_insert_ne by done.
    do 4 (split; [done|]). eapply ps_frame; [|exact Rj]. eapply same_blocks_mono; [|exact S]. by eapply others_contains.
Qed.

(** The kind of every producer, whether it is inactive, and the token that holds it. *)
Definition statuses q : list (bool * bool * option nat) :=
  (fun n => (is_explicit (node_producer n), node_inactive n, node_token n)) <$> cq_producers q.

Lemma statuses_lookup q k n : cq_producers q !! k = Some n -> statuses q !! k = Some (is_explicit (node_producer n), node_inactive n, node_token n).
Proof. unfold statuses. rewrite list_lookup_fmap. by intros ->. Qed.

Lemma statuses_step q h' k n p' :
  cq_producers q !! k = Some n -> is_explicit p' = is_explicit (node_producer n) ->
  statuses (set_node (set_heap q h') k (with_producer n p')) = statuses q.
Proof.
  intros Hn Ek. unfold statuses. cbn. rewrite list_fmap_insert. cbn. rewrite Ek. apply list_insert_id. by apply statuses_lookup.
Qed.

(** What dequeueing does not touch. *)
Definition same_rest q q' : Prop :=
  statuses q' = statuses q /\ producerCount q' = producerCount q /\ implicitProducerHash q' = implicitProducerHash q /\
  implicitProducerHashCount q' = implicitProducerHashCount q.

(** No allocation failed so far and none will. *)
Definition healthy q : Prop :=
  mem_ok (cq_heap q) /\ forall k n, cq_producers q !! k = Some n -> any_usable (node_producer n).

Lemma node_at_Ret q k n : cq_producers q !! k = Some n -> node_at q k = Ret n.
Proof. unfold node_at. by intros ->. Qed.

(** ** One producer *)

Lemma dequeue_from_empty throws q qs bss k :
  list_rep q qs bss -> qs !! k = Some [] -> dequeue_from throws q k = Ret (Nothing, q).
Proof.
  intros R Hk. destruct (lr_nodes _ _ _ R k [] Hk) as (n & bs & Hn & _ & _ & _ & Rn). unfold dequeue_from.
  rewrite (node_at_Ret _ _ _ Hn). cbn [mbind outcome_bind]. rewrite (ps_empty _ _ _ _ Rn). cbn [mbind outcome_bind].
  unfold set_node, set_producers, set_heap, with_producer. cbn. rewrite list_insert_id; [by destruct q|]. rewrite Hn. by destruct n.
Qed.

(** The head of sub-queue [k] is taken. *)
Definition took_at (throws : bool) q qs (k : nat) (r : DequeueResult T) q' qs' : Prop :=
  exists v l bss', qs !! k = Some (v :: l) /\ r = (if throws then AssignThrew else Dequeued v) /\ qs' = <[k := l]> qs /\
    list_rep q' qs' bss' /\ same_rest q q' /\ (healthy q -> healthy q').

Definition took (throws : bool) q qs (r : DequeueResult T) q' qs' : Prop := exists k, took_at throws q qs k r q' qs'.

Lemma dequeue_from_spec throws q qs bss k v l :
  list_rep q qs bss -> qs !! k = Some (v :: l) ->
  exists r q' qs', dequeue_from throws q k = Ret (r, q') /\ took_at throws q qs k r q' qs'.
Proof.
  intros R Hk. destruct (lr_nodes _ _ _ R k _ Hk) as (n & bs & Hn & Hbs & Rn). unfold dequeue_from.
  rewrite (node_at_Ret _ _ _ Hn). cbn [mbind outcome_bind].
  destruct (ps_dequeue throws _ _ _ _ _ _ (own_at _ _ _ _ (lr_heap _ _ _ R) (lr_nodup _ _ _ R) Hbs) (proj2 (proj2 Rn)))
    as (h' & p' & bs' & E & S & R' & U).
  pose proof (any_dequeue_kind _ _ _ _ _ _ E) as Ek. rewrite E.
  cbn [mbind outcome_bind]. eexists _, _, _. split; [done|]. exists v, l, (<[k := bs']> bss). split; [done|]. split; [done|]. split; [done|].
  split; [by eapply list_rep_step|]. split; [split; [by apply statuses_step|done]|]. intros [Hm Hu]. split; [by apply S|].
  intros j nj Hj. cbn in Hj. apply list_lookup_insert_Some in Hj as [(<- & <- & _)|(_ & Hj)]; [cbn; eauto|eauto].
Qed.

Lemma took_at_took throws q qs k r q' qs' : took_at throws q qs k r q' qs' -> took throws q qs r q' qs'.
Proof. by exists k. Qed.

Lemma took_not_nothing throws q qs r q' qs' : took throws q qs r q' qs' -> r <> Nothing.
Proof. intros (k & v & l & bss' & _ & -> & _). by destruct throws. Qed.

(** ** Walks over the list *)

Lemma dequeue_any_spec throws q qs bss : list_rep q qs bss -> forall k fuel,
  (k <= length qs)%nat -> (k < fuel)%nat ->
  (exists r q' qs', dequeue_any fuel throws q None (link_of k) = Ret (r, q') /\ took throws q qs r q' qs') \/
  dequeue_any fuel throws q None (link_of k) = Ret (Nothing, q) /\ Forall (fun l => l = []) (take k qs).
Proof.
  intros R. induction k as [|k IH]; intros [|fuel] Hk Hf; try lia; [right; by split|].
  destruct (lookup_lt_is_Some_2 qs k) as [l Hl]; [lia|]. destruct (lr_nodes _ _ _ R k l Hl) as (n & bs & Hn & Hbs & Nn & _ & Rn).
  cbn [link_of dequeue_any]. rewrite (node_at_Ret _ _ _ Hn). cbn [mbind outcome_bind]. rewrite bool_decide_false by done.
  destruct l as [|v l].
  - rewrite (dequeue_from_empty _ _ _ _ _ R Hl). cbn [mbind outcome_bind]. rewrite Nn.
    destruct (IH fuel) as [Hd|[E Hall]]; [lia|lia|by left|]. right. split; [done|].
    rewrite (take_S_r _ _ _ Hl). apply Forall_app. split; [done|]. by constructor.
  - destruct (dequeue_from_spec throws _ _ _ _ _ _ R Hl) as (r & q' & qs' & E & Ht%took_at_took). left. exists r, q', qs'. rewrite E.
    cbn [mbind outcome_bind]. split; [|done]. pose proof (took_not_nothing _ _ _ _ _ _ Ht). by destruct r.
Qed.

(** What [score] has found: nothing, or a producer that is not empty. *)
Definition best_ok qs (count bestSize : Z) (best : option nat) : Prop :=
  (count = 0 /\ bestSize = 0) \/ (0 < count <= 3 /\ exists k v l, best = Some k /\ qs !! k = Some (v :: l)).

Lemma score_spec q qs bss : list_rep q qs bss -> forall k fuel count bestSize best,
  (k <= length qs)%nat -> (k < fuel)%nat -> best_ok qs count bestSize best ->
  exists count' bestSize' best', score fuel q (link_of k) count bestSize best = Ret (count', best') /\ best_ok qs count' bestSize' best' /\
    count <= count' /\ (count' = 0 -> Forall (fun l => l = []) (take k qs)).
Proof.
  intros R. induction k as [|k IH]; intros [|fuel] count bestSize best Hk Hf Hb; try lia; cbn [score link_of].
  { exists count, bestSize, best. split; [by destruct (negb _)|]. split; [done|]. split; [lia|]. intros _. constructor. }
  destruct (Z.ltb_spec count 3) as [Hc|Hc]; cbn [negb].
  2:{ exists count, bestSize, best. split; [done|]. split; [done|]. lia. }
  destruct (lookup_lt_is_Some_2 qs k) as [l Hl]; [lia|]. destruct (lr_nodes _ _ _ R k l Hl) as (n & bs & Hn & Hbs & Nn & _ & Rn).
  rewrite (node_at_Ret _ _ _ Hn). cbn [mbind outcome_bind]. rewrite Nn. destruct (ps_size _ _ _ _ Rn) as [-> _].
  assert (0 <= count <= 3) as Hr by (destruct Hb; lia).
  assert (count +w 1 = count + 1) as Eu by (apply u64_small; unfold is_u64, UINT64_MOD; lia).
  destruct l as [|v l].
  - cbn [length Z.of_nat Z.ltb]. destruct (IH fuel count bestSize best) as (c' & s' & b' & E & Hb' & Hle & Hall); [lia|lia|done|].
    exists c', s', b'. split; [done|]. split; [done|]. split; [done|]. intros E0. rewrite (take_S_r _ _ _ Hl). apply Forall_app. split; [auto|by constructor].
  - replace (0 <? Z.of_nat (length (v :: l))) with true by (cbn [length]; zbool; lia). rewrite Eu.
    assert (exists b s, (if bestSize <? Z.of_nat (length (v :: l)) then score fuel q (link_of k) (count + 1) (Z.of_nat (length (v :: l))) (Some k)
              else score fuel q (link_of k) (count + 1) bestSize best) = score fuel q (link_of k) (count + 1) s b /\
              best_ok qs (count + 1) s b) as (b & s & -> & Hb2).
    { destruct (Z.ltb_spec bestSize (Z.of_nat (length (v :: l)))).
      - eexists _, _. split; [done|]. right. split; [lia|]. by exists k, v, l.
      - eexists _, _. split; [done|]. right. split; [lia|]. destruct Hb as [[_ ->]|[_ Hb]]; [cbn [length] in *; lia|done]. }
    destruct (IH fuel (count + 1) s b) as (c' & s' & b' & E & Hb' & Hle & _); [lia|lia|done|]. exists c', s', b'. split; [done|]. split; [done|]. lia.
Qed.

Lemma sum_sizes_spec q qs bss : list_rep q qs bss -> forall k fuel size,
  (k <= length qs)%nat -> (k < fuel)%nat ->
  sum_sizes fuel q (link_of k) (u64 size) = Ret (u64 (size + Z.of_nat (length (concat (take k qs))))).
Proof.
  intros R. induction k as [|k IH]; intros [|fuel] size Hk Hf; try lia; cbn [sum_sizes link_of].
  { cbn. by rewrite Z.add_0_r. }
  destruct (lookup_lt_is_Some_2 qs k) as [l Hl]; [lia|]. destruct (lr_nodes _ _ _ R k l Hl) as (n & bs & Hn & Hbs & Nn & _ & Rn).
  rewrite (node_at_Ret _ _ _ Hn). cbn [mbind outcome_bind]. rewrite Nn. destruct (ps_size _ _ _ _ Rn) as [-> _].
  rewrite u64_add_l, IH by lia. rewrite (take_S_r _ _ _ Hl), concat_app, length_app. cbn. rewrite app_nil_r. do 2 f_equal. lia.
Qed.

(** ** Dequeueing *)

(** Either all sub-queues are empty, or the head of one is taken. *)
Definition dequeues (throws : bool) q qs (o : outcome (DequeueResult T * ConcurrentQueue T)) : Prop :=
  (exists r q' qs', o = Ret (r, q') /\ took throws q qs r q' qs') \/ (o = Ret (Nothing, q) /\ Forall (fun l => l = []) qs).

Lemma try_dequeue_non_interleaved_spec throws q qs bss :
  list_rep q qs bss -> dequeues throws q qs (try_dequeue_non_interleaved throws q).
Proof.
  intros R. unfold try_dequeue_non_interleaved. rewrite (lr_tail _ _ _ R), (lr_length _ _ _ R).
  destruct (dequeue_any_spec throws q qs bss R (length qs) (S (length qs))) as [H|H]; [lia|lia|by left|right].
  by rewrite firstn_all in H.
Qed.

Lemma queue_try_dequeue_spec throws q qs bss : list_rep q qs bss -> dequeues throws q qs (queue_try_dequeue throws q).
Proof.
  intros R. unfold queue_try_dequeue. rewrite (lr_tail _ _ _ R), (lr_length _ _ _ R).
  destruct (score_spec q qs bss R (length qs) (S (length qs)) 0 0 None) as (c & s & b & -> & Hb & _ & Hall); [lia|lia|by left|].
  cbn [mbind outcome_bind]. rewrite firstn_all in Hall. destruct Hb as [[-> _]|(Hc & k & v & l & -> & Hk)].
  - right. cbn. auto.
  - replace (0 <? c) with true by (zbool; lia). cbn [of_option mbind outcome_bind].
    destruct (dequeue_from_spec throws _ _ _ _ _ _ R Hk) as (r & q' & qs' & E & Ht%took_at_took). left. exists r, q', qs'. rewrite E.
    cbn [mbind outcome_bind]. split; [|done]. pose proof (took_not_nothing _ _ _ _ _ _ Ht). by destruct r.
Qed.

Lemma queue_size_approx_spec q qs bss : list_rep q qs bss -> queue_size_approx q = Ret (u64 (Z.of_nat (length (concat qs)))).
Proof.
  intros R. unfold queue_size_approx. rewrite (lr_tail _ _ _ R), (lr_length _ _ _ R).
  pose proof (sum_sizes_spec q qs bss R (length qs) (S (length qs)) 0 ltac:(lia) ltac:(lia)) as E.
  rewrite firstn_all in E. exact E.
Qed.

(** ** Dequeueing with a consumer token *)

(** A token that has been used points at producers of the queue. *)
Definition token_ok (len : nat) (token : ConsumerToken) : Prop :=
  desiredProducer token = None \/
  exists d c, desiredProducer token = Some d /\ currentProducer token = Some c /\ (d < len)%nat /\ (c < len)%nat.

(** The producer after [i], from the end to the front again. *)
Definition after (len i : nat) : nat := match i with O => pred len | S i => i end.

Lemma advance_one q qs bss i n :
  list_rep q qs bss -> (i < length qs)%nat -> advance_producer (S n) q i = advance_producer n q (after (length qs) i).
Proof.
  intros R Hi. destruct (lookup_lt_is_Some_2 qs i Hi) as [l Hl]. destruct (lr_nodes _ _ _ R i l Hl) as (nd & bs & Hn & _ & Nn & _).
  cbn [advance_producer]. rewrite (node_at_Ret _ _ _ Hn). cbn [mbind outcome_bind]. rewrite Nn.
  destruct i as [|i]; [|done]. rewrite (lr_tail _ _ _ R). by destruct (length qs); [lia|].
Qed.

Lemma after_lt len i : (i < len)%nat -> (after len i < len)%nat.
Proof. destruct i; cbn; lia. Qed.

Lemma advance_total q qs bss n : list_rep q qs bss -> forall i, (i < length qs)%nat ->
  exists j, advance_producer n q i = Ret j /\ (j < length qs)%nat.
Proof.
  intros R. induction n as [|n IH]; intros i Hi; [by exists i|]. rewrite (advance_one q qs bss i n R Hi). apply IH. by apply after_lt.
Qed.

Lemma rotate_spec q qs bss token d0 tail :
  list_rep q qs bss -> producerCount q = Z.of_nat (length qs) -> (0 < length qs)%nat ->
  (d0 = None -> tail = Some (pred (length qs))) -> (forall d, d0 = Some d -> (d < length qs)%nat) ->
  exists d off, rotate q token d0 tail = Ret (true, mkConsumerToken (initialOffset token) off 0 (Some d) (Some d)) /\ (d < length qs)%nat.
Proof.
  intros R Hc Hpos Htail Hd0. unfold rotate. rewrite Hc. destruct (Z.eqb_spec (Z.of_nat (length qs)) 0); [lia|].
  assert (exists d1, match d0 with Some i => Ret i | None => t ← of_option BadPointer tail;
        advance_producer (Z.to_nat (Z.of_nat (length qs) -u 1 -u initialOffset token mod Z.of_nat (length qs))) q t end = Ret d1 /\
        (d1 < length qs)%nat) as (d1 & -> & Hd1).
  { destruct d0 as [d|]; [exists d; eauto|]. rewrite Htail by done. cbn [of_option mbind outcome_bind].
    apply (advance_total q qs bss); [done|lia]. }
  cbn [mbind outcome_bind].
  match goal with |- context [advance_producer ?n q d1] => destruct (advance_total q qs bss n R d1 Hd1) as (d2 & -> & Hd2) end.
  cbn [mbind outcome_bind]. eauto.
Qed.

Lemma update_current_spec q qs bss token :
  list_rep q qs bss -> producerCount q = Z.of_nat (length qs) -> token_ok (length qs) token ->
  (exists d off, update_current_producer_after_rotation q token =
     Ret (true, mkConsumerToken (initialOffset token) off 0 (Some d) (Some d)) /\ (d < length qs)%nat) \/
  (update_current_producer_after_rotation q token = Ret (false, token) /\ qs = []).
Proof.
  intros R Hc Ht. unfold update_current_producer_after_rotation. rewrite (lr_tail _ _ _ R).
  destruct Ht as [Hd|(d & c & Hd & _ & Hdl & _)]; rewrite Hd.
  - destruct (length qs) as [|len] eqn:El; [right; split; [done|by apply length_zero_iff_nil]|]. left. cbn [link_of].
    rewrite <- El. apply (rotate_spec q qs bss); rewrite ?El; try done; lia.
  - left. apply (rotate_spec q qs bss); try done; try lia. by intros ? [= <-].
Qed.

(** Steps from [i] to [k]. *)
Definition distance (len i k : nat) : nat := if decide (k <= i)%nat then (i - k)%nat else (i + len - k)%nat.

Lemma dequeue_round_spec throws q qs bss i : list_rep q qs bss -> (i < length qs)%nat -> forall fuel token j,
  currentProducer token = Some i -> desiredProducer token <> None -> token_ok (length qs) token ->
  (j < length qs)%nat -> (j = i \/ length qs - distance (length qs) i j <= fuel)%nat ->
  (forall k l, qs !! k = Some l -> j = i \/ (distance (length qs) i k < distance (length qs) i j)%nat -> l = []) ->
  (exists r q' qs' token', dequeue_round fuel throws q token j = Ret (r, q', token') /\ took throws q qs r q' qs' /\ token_ok (length qs) token') \/
  (dequeue_round fuel throws q token j = Ret (Nothing, q, token) /\ Forall (fun l => l = []) qs).
Proof.
  intros R Hi. induction fuel as [|fuel IH]; intros token j Hcur Hdes Htok Hj Hfuel Hemp; cbn [dequeue_round]; rewrite Hcur.
  all: destruct (decide (j = i)) as [->|Hne];
    [rewrite bool_decide_true by done; right; split; [done|]; apply Forall_lookup; intros k l Hk; eapply Hemp; eauto|].
  { unfold distance in Hfuel. destruct Hfuel as [?|Hfuel]; [done|]. case_decide; lia. }
  rewrite bool_decide_false by congruence. destruct (lookup_lt_is_Some_2 qs j Hj) as [l Hl]. destruct l as [|v l].
  - rewrite (dequeue_from_empty _ _ _ _ _ R Hl). cbn [mbind outcome_bind].
    rewrite (advance_one q qs bss j 0 R Hj). cbn [advance_producer mbind outcome_bind]. apply IH; try done.
    + by apply after_lt.
    + destruct Hfuel as [?|Hfuel]; [done|]. unfold distance in *. destruct j as [|j]; cbn [after] in *; repeat case_decide; lia.
    + intros k lk Hk Hd. pose proof (lookup_lt_Some _ _ _ Hk). destruct (decide (k = j)) as [->|Hkj]; [congruence|].
      apply (Hemp k lk Hk). right. unfold distance in *. destruct j as [|j]; cbn [after] in *; repeat case_decide; lia.
  - destruct (dequeue_from_spec throws _ _ _ _ _ _ R Hl) as (r & q' & qs' & E & Ht%took_at_took). left. rewrite E. cbn [mbind outcome_bind].
    pose proof (took_not_nothing _ _ _ _ _ _ Ht). destruct r; [|done|by eexists _, _, _, _].
    eexists _, _, _, _. split; [done|]. split; [done|]. right. destruct Htok as [?|(d & c & Hd & _ & Hdl & _)]; [done|].
    by exists d, j.
Qed.

Lemma took_consumer_ids throws q qs r q' qs' n g : took throws q qs r q' qs' -> took throws q qs r (set_consumer_ids q' n g) qs'.
Proof.
  intros (k & v & l & bss' & Hk & Hr & Hq & [L1 L2 L3 L4 L5 L6] & Hs & Hh). exists k, v, l, bss'.
  split; [done|]. split; [done|]. split; [done|]. split; [by constructor|]. done.
Qed.

(** Either the token then points at producers of the queue, or there are none. *)
Lemma choose_producer_spec q qs bss token :
  list_rep q qs bss -> producerCount q = Z.of_nat (length qs) -> token_ok (length qs) token ->
  (exists tk d i, choose_producer q token = Ret (true, tk) /\ desiredProducer tk = Some d /\ currentProducer tk = Some i /\
     (d < length qs)%nat /\ (i < length qs)%nat) \/
  (choose_producer q token = Ret (false, token) /\ qs = []).
Proof.
  intros R Hc Ht. unfold choose_producer. match goal with |- context [if ?b then _ else _] => destruct b eqn:Eb end.
  - destruct (update_current_spec q qs bss token R Hc Ht) as [(d & off & E & Hd)|E]; [left|by right]. by eexists _, d, d.
  - left. destruct Ht as [Hd|(d & c & Hd & Hcur & Hdl & Hcl)]; [by rewrite Hd in Eb|]. by exists token, d, c.
Qed.

Lemma try_dequeue_token_spec throws q qs bss token :
  list_rep q qs bss -> producerCount q = Z.of_nat (length qs) -> token_ok (length qs) token ->
  exists r q' token', try_dequeue_token throws q token = Ret (r, q', token') /\ token_ok (length qs) token' /\
    ((exists qs', took throws q qs r q' qs') \/ (r = Nothing /\ q' = q /\ Forall (fun l => l = []) qs)).
Proof.
  intros R Hc Ht. unfold try_dequeue_token.
  destruct (choose_producer_spec q qs bss token R Hc Ht) as [(tk & d & i & -> & Hd & Hcur & Hdl & Hil)|[-> ->]]; cbn [mbind outcome_bind negb].
  2:{ exists Nothing, q, token. split; [done|]. split; [done|]. right. by repeat split. }
  rewrite Hcur. cbn [of_option mbind outcome_bind]. destruct (lookup_lt_is_Some_2 qs i Hil) as [l Hl]. destruct l as [|v l].
  - rewrite (dequeue_from_empty _ _ _ _ _ R Hl). cbn [mbind outcome_bind]. rewrite (advance_one q qs bss i 0 R Hil).
    cbn [advance_producer mbind outcome_bind]. rewrite (lr_length _ _ _ R).
    edestruct (dequeue_round_spec throws q qs bss i R Hil (S (length qs)) tk (after (length qs) i)) as [(r & q' & qs' & t' & E & Hk & Ht')|[E Hall]];
      try done.
    + by rewrite Hd.
    + right. by exists d, i.
    + by apply after_lt.
    + right. lia.
    + intros k lk Hk Hdist. destruct (decide (k = i)) as [->|Hne]; [congruence|]. exfalso. pose proof (lookup_lt_Some _ _ _ Hk).
      unfold distance in Hdist. destruct i as [|i]; cbn [after] in *; repeat case_decide; lia.
    + exists r, q', t'. split; [done|]. split; [done|]. left. by exists qs'.
    + exists Nothing, q, tk. split; [done|]. split; [right; by exists d, i|]. by right.
  - destruct (dequeue_from_spec throws _ _ _ _ _ _ R Hl) as (r & q' & qs' & E & Hk%took_at_took). rewrite E. cbn [mbind outcome_bind].
    pose proof (took_not_nothing _ _ _ _ _ _ Hk). destruct r; [| done |].
    + eexists _, _, _. split; [done|]. split; [right; by exists d, i|]. left. exists qs'. case_match; [by apply took_consumer_ids|done].
    + eexists _, _, _. split; [done|]. split; [right; by exists d, i|]. left. by exists qs'.
Qed.
End Spec.
