(* ===== verification/QueueBulkSpec.v ===== *)
(** * Bulk dequeues of the queue

    [try_dequeue_bulk], without and with a consumer token, takes elements from the front
    of the sub-queues until it has as many as it was asked for or there are no more;
    when an assignment throws, the elements of that sub-queue that were claimed with it
    are lost, and no other. *)
From S2P Require Import Prelude QueueDetails QueueBlock Producer ImplicitProducer ImplicitSpec BlockCells ExplicitProducer ProducerHash Queue QueueBulk QueueSpec.

(** ** What is written to the output *)

Section Written.
Context {T : Type}.
Implicit Types (vs : list T) (throws : option nat).

(** Of the elements [vs] that are taken those before the failing assignment. *)
Definition written throws vs : list T := take (assigned throws (length vs)) vs.
Definition threw_in throws vs : bool := bool_decide (assigned throws (length vs) < length vs)%nat.

Lemma written_all throws vs : threw_in throws vs = false -> written throws vs = vs.
Proof. unfold threw_in, written. intros H%bool_decide_eq_false. apply firstn_all2. lia. Qed.

Lemma written_nil throws : written throws [] = [] /\ threw_in throws [] = false.
Proof. unfold written, threw_in. rewrite take_nil. split; [done|]. apply bool_decide_false. cbn. lia. Qed.

Lemma written_app throws v1 v2 :
  threw_in throws v1 = false ->
  written throws (v1 ++ v2) = v1 ++ written (throws_after throws v1) v2 /\ threw_in throws (v1 ++ v2) = threw_in (throws_after throws v1) v2.
Proof.
  unfold threw_in, written. intros H%bool_decide_eq_false. rewrite length_app.
  assert (assigned throws (length v1 + length v2) = length v1 + assigned (throws_after throws v1) (length v2))%nat as ->
    by (destruct throws; cbn in *; lia).
  split; [by rewrite firstn_app_2|]. apply bool_decide_ext. lia.
Qed.
End Written.

Section Spec.
Context {T : Type}.
Implicit Types (h : Heap T) (q : ConcurrentQueue T) (l vs items : list T) (qs : list (list T)) (bss : list (list nat)) (throws : option nat).

(** ** Elements leave the sub-queues from the front *)

Inductive drains : list (list T) -> list T -> list (list T) -> Prop :=
  | drains_nil qs : drains qs [] qs
  | drains_front qs k l1 l2 vs qs' : qs !! k = Some (l1 ++ l2) -> drains (<[k := l2]> qs) vs qs' -> drains qs (l1 ++ vs) qs'.

Lemma drains_length qs vs qs' : drains qs vs qs' -> length qs' = length qs.
Proof. induction 1 as [|qs k l1 l2 vs qs' _ _ IH]; [done|]. by rewrite IH, length_insert. Qed.

Lemma drains_trans qs1 v1 qs2 v2 qs3 : drains qs1 v1 qs2 -> drains qs2 v2 qs3 -> drains qs1 (v1 ++ v2) qs3.
Proof. induction 1; intros H2; [done|]. rewrite <- app_assoc. econstructor; eauto. Qed.

Lemma drains_empty qs vs qs' k : drains qs vs qs' -> qs !! k = Some [] -> qs' !! k = Some [].
Proof.
  induction 1 as [|qs j l1 l2 vs qs' Hj _ IH]; [done|]. intros Hk. apply IH. destruct (decide (j = k)) as [->|Hne].
  - rewrite Hk in Hj. injection Hj as Hj. symmetry in Hj. apply app_eq_nil in Hj as [-> ->]. apply list_lookup_insert_eq. by eapply lookup_lt_Some.
  - by rewrite list_lookup_insert_ne.
Qed.

(** The queue after the elements [vs] have left. *)
Definition drained q qs vs q' qs' : Prop :=
  drains qs vs qs' /\ (exists bss', list_rep q' qs' bss') /\ same_rest q q' /\ (healthy q -> healthy q').

Lemma drained_refl q qs bss : list_rep q qs bss -> drained q qs [] q qs.
Proof. intros R. split; [constructor|]. split; [by eexists|]. done. Qed.

Lemma drained_trans q1 qs1 v1 q2 qs2 v2 q3 qs3 : drained q1 qs1 v1 q2 qs2 -> drained q2 qs2 v2 q3 qs3 -> drained q1 qs1 (v1 ++ v2) q3 qs3.
Proof.
  intros (D1 & _ & (A1 & B1 & C1 & E1) & H1) (D2 & R2 & (A2 & B2 & C2 & E2) & H2). split; [by eapply drains_trans|]. split; [done|].
  split; [repeat split; congruence|auto].
Qed.

Lemma drained_consumer_ids q qs vs q' qs' n g : drained q qs vs q' qs' -> drained q qs vs (set_consumer_ids q' n g) qs'.
Proof. intros (D & (bss' & [L1 L2 L3 L4 L5 L6]) & Hs & Hh). split; [done|]. split; [exists bss'; by constructor|]. done. Qed.

(** ** One producer *)

Lemma any_dequeue_bulk_kind throws h p max l t h' p' : any_dequeue_bulk throws h p max = Ret (l, t, h', p') -> is_explicit p' = is_explicit p.
Proof.
  destruct p as [p|p]; cbn [any_dequeue_bulk]; intros E; apply bind_Ret in E as ([[[? ?] ?] ?] & _ & E); by injection E as _ _ _ <-.
Qed.

Lemma dequeue_bulk_from_spec throws q qs bss k l max :
  list_rep q qs bss -> qs !! k = Some l -> is_u64 max ->
  exists n q', n = Nat.min (length l) (Z.to_nat max) /\
    dequeue_bulk_from throws q k max = Ret (written throws (take n l), threw_in throws (take n l), q') /\
    drained q qs (take n l) q' (<[k := drop n l]> qs).
Proof.
  intros R Hk Hm. destruct (lr_nodes _ _ _ R k _ Hk) as (nd & bs & Hn & Hbs & Rn). unfold dequeue_bulk_from.
  rewrite (node_at_Ret _ _ _ Hn), ret_bind.
  destruct (ps_dequeue_bulk throws _ _ _ _ _ max (own_at _ _ _ _ (lr_heap _ _ _ R) (lr_nodup _ _ _ R) Hbs) (proj2 (proj2 Rn)) Hm)
    as (h' & p' & bs' & E & S & R' & U).
  pose proof (any_dequeue_bulk_kind _ _ _ _ _ _ _ _ E) as Ek. rewrite E, ret_bind.
  eexists _, _. split; [done|]. remember (Nat.min (length l) (Z.to_nat max)) as n eqn:En.
  unfold written, threw_in. rewrite length_take, (Nat.min_l n) by lia. rewrite take_take, (Nat.min_l (assigned throws n)) by (destruct throws; cbn; lia).
  split; [done|]. split; [|split; [|split]].
  - rewrite <- (app_nil_r (take n l)). eapply drains_front; [by rewrite take_drop|constructor].
  - eexists. by eapply list_rep_step.
  - split; [by apply statuses_step|done].
  - intros [Hmem Hu]. split; [by apply S|]. intros j nj Hj. cbn in Hj.
    apply list_lookup_insert_Some in Hj as [(<- & <- & _)|(_ & Hj)]; [cbn; eauto|eauto].
Qed.

(** ** All producers *)

(** What a bulk dequeue of at most [max] more elements gives: [items] had been written
    before; the sub-queues [P] of [qs'] are empty if it could have taken more. *)
Definition bulk_gives throws q qs items (max : Z) (P : list (list T) -> Prop) (written_items : list T) (threw : bool) q' : Prop :=
  exists vs qs', written_items = items ++ written throws vs /\ threw = threw_in throws vs /\ drained q qs vs q' qs' /\
    Z.of_nat (length vs) <= max /\ (threw = false -> Z.of_nat (length vs) < max -> P qs').

Definition all_empty qs : Prop := Forall (fun l => l = []) qs.

(** A producer that is done with, and what the rest gives. *)
Lemma bulk_gives_app throws q qs items max P v1 q1 qs1 l threw q' :
  drained q qs v1 q1 qs1 -> threw_in throws v1 = false -> Z.of_nat (length v1) <= max ->
  bulk_gives (throws_after throws v1) q1 qs1 (items ++ v1) (max - Z.of_nat (length v1)) P l threw q' ->
  bulk_gives throws q qs items max P l threw q'.
Proof.
  intros D1 Ht Hle (v2 & qs' & -> & -> & D2 & Hl & Hall). destruct (written_app throws v1 v2 Ht) as [E1 E2]. exists (v1 ++ v2), qs'.
  rewrite E1, E2, app_assoc, length_app, Nat2Z.inj_add. split; [done|]. split; [done|]. split; [by eapply drained_trans|]. split; [lia|].
  intros H1 H2. apply Hall; [done|lia].
Qed.

Lemma bulk_gives_nothing throws q qs bss items max (P : list (list T) -> Prop) :
  list_rep q qs bss -> 0 <= max -> P qs -> bulk_gives throws q qs items max P items false q.
Proof.
  intros R Hm HP. exists [], qs. destruct (written_nil (T := T) throws) as [-> ->]. rewrite app_nil_r. do 2 (split; [done|]).
  split; [by eapply drained_refl|]. split; [cbn; lia|done].
Qed.

(** The last producer the operation looks at. *)
Lemma bulk_gives_last throws q qs items max P vs q' qs' :
  drained q qs vs q' qs' -> threw_in throws vs = true \/ Z.of_nat (length vs) = max -> Z.of_nat (length vs) <= max ->
  bulk_gives throws q qs items max P (items ++ written throws vs) (threw_in throws vs) q'.
Proof. intros D Ht Hle. exists vs, qs'. split; [done|]. split; [done|]. split; [done|]. split; [done|]. intros H1 H2. destruct Ht; [congruence|lia]. Qed.

Lemma bulk_gives_mono throws q qs items max (P Q : list (list T) -> Prop) l threw q' :
  (forall vs qs', drains qs vs qs' -> P qs' -> Q qs') -> bulk_gives throws q qs items max P l threw q' -> bulk_gives throws q qs items max Q l threw q'.
Proof. intros HPQ (vs & qs' & E1 & E2 & D & Hl & Hall). exists vs, qs'. do 4 (split; [done|]). intros H1 H2. eapply HPQ; [apply D|auto]. Qed.

Lemma bulk_any_spec max : is_u64 max -> forall k fuel throws q qs bss items,
  list_rep q qs bss -> (k <= length qs)%nat -> (k < fuel)%nat -> Z.of_nat (length items) <= max ->
  exists l threw q', bulk_any fuel throws q (link_of k) items (Z.of_nat (length items)) max = Ret (l, threw, q') /\
    bulk_gives throws q qs items (max - Z.of_nat (length items)) (fun qs' => all_empty (take k qs')) l threw q'.
Proof.
  unfold is_u64. intros Hmax. induction k as [|k IH]; intros [|fuel] throws q qs bss items R Hk Hf Hle; try lia; cbn [bulk_any link_of].
  { eexists _, _, _. split; [done|]. eapply bulk_gives_nothing; [done|lia|]. constructor. }
  destruct (lookup_lt_is_Some_2 qs k) as [l Hl]; [lia|]. destruct (lr_nodes _ _ _ R k l Hl) as (nd & bs & Hn & Hbs & Nn & _ & Rn).
  rewrite (node_at_Ret _ _ _ Hn), ret_bind. rewrite (u64_small (max - Z.of_nat (length items))) by (unfold is_u64; lia).
  destruct (dequeue_bulk_from_spec throws q qs bss k l (max - Z.of_nat (length items)) R Hl) as (n & q1 & En & E & D); [unfold is_u64; lia|].
  rewrite E, ret_bind. cbv beta iota. assert (length (take n l) = n) as Eln by (rewrite length_take; lia).
  destruct (threw_in throws (take n l)) eqn:Et.
  { eexists _, _, _. split; [done|]. rewrite <- Et. eapply bulk_gives_last; [exact D|by left|lia]. }
  rewrite (written_all _ _ Et), Eln, u64_small by (unfold is_u64; lia). destruct (Z.eqb_spec (Z.of_nat (length items) + Z.of_nat n) max) as [Em|Em].
  { eexists _, _, _. split; [done|]. rewrite <- Et. rewrite <- (written_all _ _ Et) at 1. eapply bulk_gives_last; [exact D|right; lia|lia]. }
  pose proof D as (Dq & (bss1 & R1) & _). rewrite Nn.
  destruct (IH fuel (throws_after throws (take n l)) q1 _ bss1 (items ++ take n l) R1) as (l' & threw & q' & E2 & G); rewrite ?length_insert, ?length_app; try lia.
  rewrite length_app, Eln, Nat2Z.inj_add in *. rewrite E2. eexists _, _, _. split; [done|].
  eapply bulk_gives_app; [exact D|done|lia|]. rewrite Eln. replace (max - Z.of_nat (length items) - Z.of_nat n) with (max - (Z.of_nat (length items) + Z.of_nat n)) by lia.
  eapply bulk_gives_mono; [|exact G]. intros vs qs' Dr Hall. unfold all_empty. rewrite (take_S_r qs' k []); [apply Forall_app; split; [done|by constructor]|].
  eapply drains_empty; [exact Dr|]. rewrite drop_ge by lia. apply list_lookup_insert_eq. lia.
Qed.

(** [try_dequeue_bulk] without a token *)
Lemma queue_try_dequeue_bulk_spec throws q qs bss max :
  list_rep q qs bss -> is_u64 max ->
  exists l threw q', queue_try_dequeue_bulk throws q max = Ret (l, threw, q') /\ bulk_gives throws q qs [] max all_empty l threw q'.
Proof.
  intros R Hm. unfold queue_try_dequeue_bulk. rewrite (lr_tail _ _ _ R), (lr_length _ _ _ R).
  destruct (bulk_any_spec max Hm (length qs) (S (length qs)) throws q qs bss [] R) as (l & threw & q' & E & G); [lia|lia|unfold is_u64 in Hm; cbn; lia|].
  exists l, threw, q'. split; [exact E|]. cbn [length Z.of_nat] in G. rewrite Z.sub_0_r in G. eapply bulk_gives_mono; [|exact G].
  intros vs qs' D. by rewrite <- (drains_length _ _ _ D), firstn_all.
Qed.

(** ** With a consumer token *)

(** The sub-queues that are not empty. *)
Definition busy qs : Z := total (fun l => match l with [] => 0 | _ => 1 end) qs.

Lemma busy_bounds qs : 0 <= busy qs <= Z.of_nat (length qs).
Proof.
  pose proof (total_bounds (fun l : list T => match l with [] => 0 | _ => 1 end) 0 1 qs) as H. unfold busy.
  assert (Forall (fun l : list T => 0 <= match l with [] => 0 | _ => 1 end <= 1) qs) as Hf by (apply Forall_true; intros []; lia).
  specialize (H Hf). lia.
Qed.

(** What the loop over the other producers relies on: those from the current one [i] up
    to [j] are empty, and there is enough fuel to empty all of them one by one. *)
Record round_ok (fuel : nat) qs (token : ConsumerToken) (i j : nat) : Prop := mk_round_ok {
  ro_current : currentProducer token = Some i;
  ro_desired : desiredProducer token <> None;
  ro_token : token_ok (length qs) token;
  ro_i : (i < length qs)%nat;
  ro_j : (j < length qs)%nat;
  ro_fuel : j = i \/ busy qs * Z.of_nat (length qs) + Z.of_nat (length qs) - Z.of_nat (distance (length qs) i j) <= Z.of_nat fuel;
  ro_empty : forall k l, qs !! k = Some l -> j = i \/ (distance (length qs) i k < distance (length qs) i j)%nat -> l = [] }.

Lemma distance_after len i j : (i < len)%nat -> (j < len)%nat -> j <> i ->
  after len j = i \/ distance len i (after len j) = S (distance len i j).
Proof. intros Hi Hj Hne. unfold distance. destruct j as [|j]; cbn [after]; repeat case_decide; lia. Qed.

Lemma distance_lt len i j : (i < len)%nat -> (j < len)%nat -> (distance len i j < len)%nat.
Proof. intros Hi Hj. unfold distance. case_decide; lia. Qed.

Lemma distance_inj len i j k : (i < len)%nat -> (j < len)%nat -> (k < len)%nat -> distance len i j = distance len i k -> j = k.
Proof. intros Hi Hj Hk. unfold distance. repeat case_decide; lia. Qed.

(** On from an empty producer. *)
Lemma round_empty fuel qs token i j :
  round_ok (S fuel) qs token i j -> j <> i -> qs !! j = Some [] -> round_ok fuel qs token i (after (length qs) j).
Proof.
  intros [H1 H2 H3 Hi Hj Hf He] Hne Hl. constructor; try done; [by apply after_lt|..].
  - destruct Hf as [?|Hf]; [done|]. destruct (distance_after (length qs) i j Hi Hj Hne) as [?|E]; [by left|right]. rewrite E. lia.
  - intros k l Hk Hd. destruct (decide (k = j)) as [->|Hkj]; [congruence|]. apply (He k l Hk). right. pose proof (lookup_lt_Some _ _ _ Hk) as Hlt.
    pose proof (distance_inj (length qs) i k j Hi Hlt Hj). destruct (decide (after (length qs) j = i)) as [E|E];
      [|destruct (distance_after (length qs) i j Hi Hj Hne); [done|lia]].
    pose proof (distance_lt (length qs) i k Hi Hlt).
    assert (distance (length qs) i j = pred (length qs)); [|lia]. unfold distance. destruct j as [|j]; cbn [after] in E; repeat case_decide; lia.
Qed.

(** On from a producer that has been emptied, now the current one. *)
Lemma round_moved fuel qs token i j l n :
  round_ok (S fuel) qs token i j -> j <> i -> qs !! j = Some l -> l <> [] ->
  round_ok fuel (<[j := []]> qs) (moved_to token j n) j (after (length qs) j).
Proof.
  intros [H1 H2 H3 Hi Hj Hf He] Hne Hl Hnl.
  assert (distance (length qs) j (after (length qs) j) = 1%nat) as E1 by (unfold distance; destruct j; cbn [after]; repeat case_decide; lia).
  constructor; rewrite ?length_insert; try done.
  - destruct H3 as [?|(d & c & Hd & _ & Hdl & _)]; [done|]. right. by exists d, j.
  - by apply after_lt.
  - right. rewrite E1. unfold busy. rewrite (total_insert _ _ _ _ _ Hl). destruct l; [done|]. fold (busy qs).
    pose proof (distance_lt (length qs) i j Hi Hj). destruct Hf as [?|Hf]; [done|]. lia.
  - intros k lk Hk [E|Hd]; [destruct j; cbn [after] in E; lia|]. pose proof (lookup_lt_Some _ _ _ Hk) as Hlt. rewrite length_insert in Hlt.
    assert (k = j) as ->; [apply (distance_inj (length qs) j); try done; unfold distance in *; repeat case_decide; lia|].
    rewrite list_lookup_insert_eq in Hk by done. congruence.
Qed.

Lemma bulk_round_spec fuel : forall throws q qs bss token i j items max,
  list_rep q qs bss -> round_ok fuel qs token i j -> is_u64 max ->
  exists l threw q' token', bulk_round fuel throws q token j items max = Ret (l, threw, q', token') /\
    bulk_gives throws q qs items max all_empty l threw q' /\ token_ok (length qs) token'.
Proof.
  induction fuel as [|fuel IH]; intros throws q qs bss token i j items max R Ro Hmax; pose proof Ro as [Hcur Hdes Htok Hi Hj Hfuel Hemp];
    cbn [bulk_round]; rewrite Hcur; unfold is_u64 in Hmax; (destruct (decide (j = i)) as [->|Hne];
    [rewrite bool_decide_true by done; eexists _, _, _, _; split; [done|]; split; [|done];
     eapply bulk_gives_nothing; [done|lia|]; apply Forall_lookup; intros k l Hk; eapply Hemp; eauto|]).
  { pose proof (distance_lt (length qs) i j Hi Hj). pose proof (busy_bounds qs). destruct Hfuel as [?|Hfuel]; [done|]. nia. }
  rewrite bool_decide_false by congruence. destruct (lookup_lt_is_Some_2 qs j Hj) as [l Hl].
  destruct (dequeue_bulk_from_spec throws q qs bss j l max R Hl Hmax) as (n & q1 & En & E & D). rewrite E, ret_bind. cbv beta iota.
  assert (length (take n l) = n) as Eln by (rewrite length_take; lia). destruct (threw_in throws (take n l)) eqn:Et.
  { eexists _, _, _, _. split; [done|]. split; [|done]. rewrite <- Et. eapply bulk_gives_last; [exact D|by left|lia]. }
  rewrite (written_all _ _ Et), Eln.
  assert (token_ok (length qs) (if Z.of_nat n =? 0 then token else moved_to token j (u32 (Z.of_nat n)))) as Htok'.
  { destruct (Z.of_nat n =? 0); [done|]. destruct Htok as [?|(d & c & Hd & _ & Hdl & _)]; [done|]. right. by exists d, j. }
  destruct (Z.eqb_spec (Z.of_nat n) max) as [Em|Em].
  { eexists _, _, _, _. split; [done|]. split; [|done]. rewrite <- Et. rewrite <- (written_all _ _ Et) at 1. eapply bulk_gives_last; [exact D|right; lia|lia]. }
  assert (n = length l) as Enl by lia. pose proof D as (Dq & (bss1 & R1) & _). rewrite (drop_ge l n) in * by lia.
  pose proof (drains_length _ _ _ Dq) as El1. rewrite (advance_one q1 _ bss1 j 0 R1), El1 by lia. cbn [advance_producer]. rewrite ret_bind, u64_small by (unfold is_u64; lia).
  assert (exists i', round_ok fuel (<[j := []]> qs) (if Z.of_nat n =? 0 then token else moved_to token j (u32 (Z.of_nat n))) i' (after (length qs) j)) as (i' & Ro').
  { destruct l as [|v l]; [subst n|]; cbn [length Z.of_nat Z.eqb].
    - rewrite (list_insert_id qs j [] Hl). exists i. by apply round_empty.
    - destruct (Z.eqb_spec (Z.of_nat n) 0); [cbn in Enl; lia|]. exists j. by eapply round_moved. }
  destruct (IH (throws_after throws (take n l)) q1 _ bss1 _ i' _ (items ++ take n l) (max - Z.of_nat n) R1 Ro') as (l' & threw & q' & token' & E2 & G & Ht); [unfold is_u64; lia|].
  rewrite E2. eexists _, _, _, _. split; [done|]. rewrite length_insert in Ht. split; [|done]. eapply bulk_gives_app; [exact D|done|lia|]. by rewrite Eln.
Qed.

(** [try_dequeue_bulk] with a consumer token *)
Lemma try_dequeue_bulk_token_spec throws q qs bss token max :
  list_rep q qs bss -> producerCount q = Z.of_nat (length qs) -> token_ok (length qs) token -> is_u64 max ->
  exists l threw q' token', try_dequeue_bulk_token throws q token max = Ret (l, threw, q', token') /\
    bulk_gives throws q qs [] max all_empty l threw q' /\ token_ok (length qs) token'.
Proof.
  intros R Hc Ht Hmax. unfold try_dequeue_bulk_token.
  destruct (choose_producer_spec q qs bss token R Hc Ht) as [(tk & d & i & -> & Hd & Hcur & Hdl & Hil)|[-> ->]]; rewrite ret_bind; cbv beta iota; cbn [negb].
  2:{ eexists _, _, _, _. split; [done|]. split; [|done]. eapply bulk_gives_nothing; [done|unfold is_u64 in Hmax; lia|constructor]. }
  unfold is_u64 in Hmax. rewrite Hcur. cbn [of_option]. rewrite ret_bind. destruct (lookup_lt_is_Some_2 qs i Hil) as [l Hl].
  destruct (dequeue_bulk_from_spec throws q qs bss i l max R Hl Hmax) as (n & q1 & En & E & D). rewrite E, ret_bind. cbv beta iota.
  assert (length (take n l) = n) as Eln by (rewrite length_take; lia). destruct (threw_in throws (take n l)) eqn:Et.
  { eexists _, _, _, _. split; [done|]. split; [|right; by exists d, i]. rewrite <- Et. eapply (bulk_gives_last _ _ _ []); [exact D|by left|lia]. }
  rewrite (written_all _ _ Et), Eln. destruct (Z.eqb_spec (Z.of_nat n) max) as [Em|Em].
  { eexists _, _, _, _. split; [done|]. split; [|right; by exists d, i]. rewrite <- Et. rewrite <- (written_all _ _ Et) at 1.
    eapply (bulk_gives_last _ _ _ []); [|right; lia|lia]. case_match; [by apply drained_consumer_ids|done]. }
  pose proof D as (Dq & (bss1 & R1) & _). rewrite (drop_ge l n) in * by lia.
  pose proof (drains_length _ _ _ Dq) as El1. rewrite (advance_one q1 _ bss1 i 0 R1), El1 by lia. cbn [advance_producer]. rewrite ret_bind, u64_small by (unfold is_u64; lia).
  rewrite (lr_length _ _ _ R1), El1.
  destruct (bulk_round_spec (S (length qs) * S (length qs)) (throws_after throws (take n l)) q1 _ bss1
    (consumed tk (itemsConsumedFromCurrent tk +u u32 (Z.of_nat n))) i (after (length qs) i) (take n l) (max - Z.of_nat n) R1)
    as (l' & threw & q' & token' & E2 & G & Htk); [|unfold is_u64; lia|].
  { constructor; rewrite ?length_insert; [done|cbn; by rewrite Hd|right; by exists d, i|done|by apply after_lt| |].
    - right. pose proof (busy_bounds (<[i := []]> qs)) as Hb. rewrite length_insert in Hb. nia.
    - intros k lk Hk Hdist. pose proof (lookup_lt_Some _ _ _ Hk) as Hlt. rewrite length_insert in Hlt.
      destruct (decide (k = i)) as [->|Hne]; [rewrite list_lookup_insert_eq in Hk by done; congruence|]. exfalso.
      unfold distance in Hdist. destruct i as [|i]; cbn [after] in *; repeat case_decide; lia. }
  rewrite E2. eexists _, _, _, _. split; [done|]. rewrite length_insert in Htk. split; [|done].
  eapply bulk_gives_app; [exact D|done|lia|]. by rewrite Eln.
Qed.
End Spec.
