(* ===== verification/QueueThreads.v ===== *)
(** * The producers of threads and of producer tokens (concurrentqueue.h)

    [get_or_add_implicit_producer] gives every thread a producer of its own, and
    [inner_enqueue] and [inner_enqueue_bulk] append to the sub-queue of the calling
    thread or of the token. *)
From S2P Require Import Prelude QueueDetails QueueBlock Producer ImplicitProducer ImplicitIndex ImplicitSpec ImplicitBulk ImplicitBulkEnqueue ImplicitTrace ExplicitProducer ExplicitSpec ExplicitEnqueue ExplicitBulk ExplicitBulkEnqueue ProducerHash Queue QueueBulk QueueSpec.

(** Who owns a sub-queue: a thread, by its identifier, or the explicit producer
    with a number. *)
Inductive Owner := Thread (id : Z) | Explicit (k : nat).

#[export] Instance Owner_eq_dec : EqDecision Owner.
Proof. solve_decision. Defined.

#[export] Instance Owner_countable : Countable Owner.
Proof.
  refine (inj_countable' (fun o => match o with Thread id => inl id | Explicit k => inr k end)
            (fun s => match s with inl id => Thread id | inr k => Explicit k end) _). by intros [].
Defined.

Section Threads.
Context {T : Type}.
Implicit Types (h : Heap T) (q : ConcurrentQueue T) (l : list T) (qs : list (list T)) (bs : list nat) (bss : list (list nat)) (M : gmap Z nat) (O : gmap Owner nat).

(** [list_rep] reads the heap and the list of producers only. *)
Lemma list_rep_ext q q' qs bss :
  cq_heap q' = cq_heap q -> cq_producers q' = cq_producers q -> producerListTail q' = producerListTail q ->
  list_rep q qs bss -> list_rep q' qs bss.
Proof. intros Eh Ep Et []. by constructor; rewrite ?Eh, ?Ep, ?Et. Qed.

Lemma list_rep_heap q qs bss h' :
  list_rep q qs bss -> heap_inv h' (list_to_set (concat bss)) -> same_blocks (list_to_set (concat bss)) (cq_heap q) h' ->
  list_rep (set_heap q h') qs bss.
Proof.
  intros [Hn Hl Hb Hnd Hh Ht] Hi Hs. constructor; try done. intros k l Hk. destruct (Hn k l Hk) as (n & bs & Hnk & Hbk & N1 & N2 & R).
  exists n, bs. do 4 (split; [done|]). eapply ps_frame; [|exact R]. eapply same_blocks_mono; [|exact Hs].
  intros x Hx%elem_of_list_to_set. apply elem_of_list_to_set, list_elem_of_In, List.in_concat.
  exists bs. split; apply list_elem_of_In; [by eapply list_elem_of_lookup_2|done].
Qed.

Lemma list_rep_mem q qs bss h' : list_rep q qs bss -> mem_only (cq_heap q) h' -> list_rep (set_heap q h') qs bss.
Proof.
  intros R Hm. apply list_rep_heap; [done|eapply mem_only_inv; [exact Hm|apply R]|].
  destruct (mem_only_blocks _ _ Hm) as [E _]. intros x _. by rewrite E.
Qed.

(** ** A recycled producer *)

Lemma find_inactive_spec q qs bss e : list_rep q qs bss -> forall k fuel,
  (k <= length qs)%nat -> (k < fuel)%nat ->
  exists o, find_inactive fuel q e (link_of k) = Ret o /\
    forall i, o = Some i -> (i < length qs)%nat /\ exists n, cq_producers q !! i = Some n /\ node_inactive n = true /\ is_explicit (node_producer n) = e.
Proof.
  intros R. induction k as [|k IH]; intros [|fuel] Hk Hf; try lia; [by exists None|].
  destruct (lookup_lt_is_Some_2 qs k) as [l Hl]; [lia|]. destruct (lr_nodes _ _ _ R k l Hl) as (n & bs & Hn & Hbs & Nn & _).
  cbn [link_of find_inactive]. rewrite (node_at_Ret _ _ _ Hn). cbn [mbind outcome_bind]. destruct (_ && _) eqn:Eb.
  - apply andb_prop in Eb as [Ei Ee%eqb_prop]. eexists. split; [done|]. intros ? [= <-]. split; [lia|]. by exists n.
  - rewrite Nn. apply IH; lia.
Qed.

(** No implicit producer is ever recycled. *)
Lemma find_inactive_implicit q qs bss :
  list_rep q qs bss -> find_inactive (S (length qs)) q false (link_of (length qs)) = Ret None.
Proof.
  intros R. destruct (find_inactive_spec q qs bss false R (length qs) (S (length qs))) as ([i|] & -> & Hi); [lia|lia| |done].
  destruct (Hi i eq_refl) as (Hlt & n & Hn & Ia & Ie). destruct (lookup_lt_is_Some_2 qs i Hlt) as [l Hl].
  destruct (lr_nodes _ _ _ R i l Hl) as (n' & bs & Hn' & _ & _ & Ni & _). rewrite Hn in Hn'. injection Hn' as <-. by rewrite Ni in Ia.
Qed.

(** Turning an explicit producer on or off, for a token. *)
Lemma list_rep_activity q qs bss k n a t :
  list_rep q qs bss -> cq_producers q !! k = Some n -> is_explicit (node_producer n) = true ->
  list_rep (set_node q k (mkNode (node_producer n) (node_next n) a t)) qs bss.
Proof.
  intros [Hn Hl Hb Hnd Hh Ht] Hk Hx. constructor; cbn [set_node set_producers cq_producers cq_heap producerListTail]; rewrite ?length_insert; try done.
  intros j l Hj. destruct (Hn j l Hj) as (nj & bsj & Hnj & Hbj & N1 & N2 & Rj). destruct (decide (j = k)) as [->|Hne].
  - rewrite Hk in Hnj. injection Hnj as <-. eexists _, bsj. rewrite list_lookup_insert_eq by (by eapply lookup_lt_Some).
    split; [done|]. split; [done|]. split; [done|]. split; [cbn; congruence|done].
  - exists nj, bsj. rewrite list_lookup_insert_ne by done. done.
Qed.

(** ** A new producer *)

Lemma list_rep_add q qs bss p h' :
  list_rep q qs bss -> stepped (list_to_set (concat bss)) (cq_heap q) h' [] -> any_rep h' p [] [] ->
  list_rep (add_producer (set_heap q h') p).2 (qs ++ [[]]) (bss ++ [[]]).
Proof.
  intros R ((Hi & _) & S & _) Rp. cbn [list_to_set] in Hi. rewrite union_empty_r_L in Hi.
  destruct (list_rep_heap q qs bss h' R Hi S) as [Hn Hl Hb Hnd Hh Ht].
  constructor; cbn [add_producer snd cq_producers cq_heap producerListTail set_heap]; rewrite ?length_app; cbn [length].
  - intros k l Hk. apply lookup_app_Some in Hk as [Hk|[Hlen Hk]].
    + destruct (Hn k l Hk) as (n & bs & Hnk & Hbk & Rk). exists n, bs. do 2 (split; [by apply lookup_app_l_Some|]). done.
    + apply list_lookup_singleton_Some in Hk as [Ek <-]. assert (k = length qs) as -> by lia.
      eexists _, _. rewrite !lookup_app_r by (cbn in Hl; lia). cbn in Hl. rewrite Hl, Hb, Nat.sub_diag. cbn. split; [done|]. split; [done|].
      split; [exact Ht|]. done.
  - cbn in Hl. lia.
  - lia.
  - by rewrite concat_app, app_nil_r.
  - rewrite concat_app. cbn. by rewrite app_nil_r.
  - cbn in Hl. rewrite Hl. by rewrite Nat.add_1_r.
Qed.

(** Making a producer of either kind. *)
Lemma create_producer_spec e h (F : gset nat) :
  heap_inv h F ->
  exists o h', create_producer e h = Ret (o, h') /\ stepped F h h' [] /\ (mem_ok h -> is_Some o) /\
    forall p, o = Some p -> is_explicit p = e /\ any_rep h' p [] [] /\ (mem_ok h -> any_usable p).
Proof.
  intros Hi. unfold create_producer. pose proof (malloc_spec h) as Hm. destruct (malloc h) as [ok h1]. destruct Hm as [Hm Hok].
  destruct (mem_only_blocks _ _ Hm) as [Eb Mm]. assert (heap_inv h1 F) as Hi1 by (by eapply mem_only_inv).
  assert (own h F []) as Hown by (split; cbn; [by rewrite union_empty_r_L|set_solver]).
  assert (forall h2, stepped F h1 h2 [] -> stepped F h h2 []) as Htr by (intros h2 S2; eapply stepped_trans; [by apply stepped_mem_only|done]).
  destruct ok; cbn [negb]; [destruct e|].
  - destruct (explicit_init_spec h1 F Hi1) as (h2 & p & -> & S & Rp). cbn [mbind outcome_bind]. eexists _, _.
    split; [done|]. split; [by apply Htr|]. split; [done|]. intros ? [= <-]. split; [done|]. split; [by exists 0|exact (fun _ => I)].
  - destruct (implicit_init_spec h1 F Hi1) as (h2 & p & -> & S & Rp & Hu). cbn [mbind outcome_bind]. eexists _, _.
    split; [done|]. split; [by apply Htr|]. split; [done|]. intros ? [= <-]. split; [done|]. split; [by exists 0|intros H; by apply Hu, Mm].
  - eexists _, _. split; [done|]. split; [by apply stepped_mem_only|]. split; [|done]. intros H. by discriminate (Hok H).
Qed.

(** A new producer, or an inactive one of the kind, or none for lack of memory. *)
Definition got_producer (e : bool) q qs bss (o : option nat) (recycled : bool) q' : Prop :=
  match o with
  | None => recycled = false /\ list_rep q' qs bss /\ producerCount q' = producerCount q /\ statuses q' = statuses q
  | Some i =>
      if recycled then exists t, statuses q !! i = Some (e, true, t) /\ list_rep q' qs bss /\ producerCount q' = producerCount q /\
        statuses q' = <[i := (e, false, t)]> (statuses q)
      else i = length qs /\ list_rep q' (qs ++ [[]]) (bss ++ [[]]) /\ producerCount q' = producerCount q +u 1 /\
        statuses q' = statuses q ++ [(e, false, None)]
  end.

Lemma recycle_or_create_spec e q qs bss :
  list_rep q qs bss ->
  exists o recycled q', recycle_or_create_producer e q = Ret (o, recycled, q') /\
    implicitProducerHash q' = implicitProducerHash q /\ implicitProducerHashCount q' = implicitProducerHashCount q /\
    (healthy q -> healthy q' /\ is_Some o) /\ (e = false -> recycled = false) /\ got_producer e q qs bss o recycled q'.
Proof.
  intros R. unfold recycle_or_create_producer. rewrite (lr_tail _ _ _ R), (lr_length _ _ _ R).
  destruct (find_inactive_spec q qs bss e R (length qs) (S (length qs))) as (o & Eo & Ho); [lia|lia|]. rewrite Eo. cbn [mbind outcome_bind].
  destruct o as [i|].
  { destruct (Ho i eq_refl) as (Hlt & n & Hn & Ia & Ie). rewrite (node_at_Ret _ _ _ Hn). cbn [mbind outcome_bind].
    assert (e = true) as ->. { destruct e; [done|]. by rewrite (find_inactive_implicit q qs bss R) in Eo. }
    eexists _, _, _. split; [done|]. split; [done|]. split; [done|]. split; [|split; [done|]].
    - intros [Hm Hu]. split; [|done]. split; [done|]. intros k nk Hk. cbn in Hk.
      apply list_lookup_insert_Some in Hk as [(<- & <- & _)|(_ & Hk)]; [cbn; by eapply Hu|eauto].
    - exists (node_token n). split; [by rewrite (statuses_lookup _ _ _ Hn), Ie, Ia|]. split; [by apply list_rep_activity|]. split; [done|].
      unfold statuses. cbn. rewrite list_fmap_insert. cbn. by rewrite Ie. }
  destruct (create_producer_spec e (cq_heap q) _ (lr_heap _ _ _ R)) as (o & h' & -> & S & Hok & Hp). cbn [mbind outcome_bind]. destruct o as [p|].
  - destruct (Hp p eq_refl) as (Ek & Rp & Hu). cbn [add_producer]. eexists _, _, _. split; [done|]. split; [done|]. split; [done|].
    split; [|split; [done|]].
    + intros [Hm Hus]. split; [|done]. split; [cbn; by apply S|]. intros k n Hk. cbn in Hk. apply lookup_app_Some in Hk as [Hk|[_ Hk]]; [eauto|].
      apply list_lookup_singleton_Some in Hk as [_ <-]. cbn. auto.
    + split; [apply R|]. split; [by apply (list_rep_add q qs bss p h' R S)|]. split; [done|]. unfold statuses. cbn. rewrite fmap_app. cbn. by rewrite Ek.
  - eexists _, _, _. split; [done|]. split; [done|]. split; [done|]. split; [|split; [done|]].
    + intros [Hm _]. by destruct (Hok Hm).
    + split; [done|]. split; [|done]. destruct S as ((Hi & _) & S & _). cbn [list_to_set] in Hi. rewrite union_empty_r_L in Hi. by apply list_rep_heap.
Qed.

(** ** The owners of the producers *)

(** The producers are numbered by who owns them; each owner has one of its own. *)
Record numbering O (len : nat) : Prop := mk_numbering {
  nu_size : size O = len;
  nu_range : forall id k, O !! id = Some k -> (k < len)%nat;
  nu_onto : forall k, (k < len)%nat -> exists id, O !! id = Some k;
  nu_inj : forall id id' k, O !! id = Some k -> O !! id' = Some k -> id = id' }.

(** The hash tables know the threads. *)
Definition threads_of O M : Prop := (forall id, M !! id = O !! Thread id) /\ (size M <= size O)%nat.

(** Implicit producers are owned by threads, explicit ones by themselves. *)
Definition kinds_ok q O : Prop :=
  forall k e a t, statuses q !! k = Some (e, a, t) -> if (e : bool) then O !! Explicit k = Some k else exists id, O !! Thread id = Some k.

Record queue_rep q qs bss O : Prop := mk_queue_rep {
  qr_list : list_rep q qs bss;
  qr_numbering : numbering O (length qs);
  qr_hashes : exists M, threads_of O M /\ hashes_ok (implicitProducerHash q) M /\ implicitProducerHashCount q = Z.of_nat (size M);
  qr_kinds : kinds_ok q O;
  qr_count : producerCount q = Z.of_nat (length qs) }.

Lemma numbering_add O len id : numbering O len -> O !! id = None -> numbering (<[id := len]> O) (S len).
Proof.
  intros [Hs Hr Ho Hi] HM. constructor.
  - rewrite map_size_insert_None by done. lia.
  - intros id' k. rewrite lookup_insert. case_decide; [intros [= <-]; lia|]. intros Hk. specialize (Hr _ _ Hk). lia.
  - intros k Hk. destruct (decide (k = len)) as [->|Hne]; [exists id; by rewrite lookup_insert_eq|].
    destruct (Ho k ltac:(lia)) as (id' & Hid'). exists id'. rewrite lookup_insert_ne; [done|]. intros ->. congruence.
  - intros id1 id2 k. rewrite !lookup_insert. repeat case_decide; subst; try done; [| |by apply Hi].
    + intros [= <-] Hk. specialize (Hr _ _ Hk). lia.
    + intros Hk [= <-]. specialize (Hr _ _ Hk). lia.
Qed.

Lemma threads_add O M id k : threads_of O M -> O !! Thread id = None -> threads_of (<[Thread id := k]> O) (<[id := k]> M).
Proof.
  intros [HM Hs] Hid. split.
  - intros id'. destruct (decide (id' = id)) as [->|Hne]; [by rewrite !lookup_insert_eq|]. rewrite !lookup_insert_ne by congruence. apply HM.
  - rewrite !map_size_insert_None; [lia|done|by rewrite HM].
Qed.

Lemma threads_add_explicit O M k j : threads_of O M -> O !! Explicit k = None -> threads_of (<[Explicit k := j]> O) M.
Proof.
  intros [HM Hs] Hid. split; [intros id; by rewrite lookup_insert_ne|]. rewrite map_size_insert_None by done. lia.
Qed.

(** What the owner says about the producer. *)
Lemma owner_explicit q qs bss O j k : queue_rep q qs bss O -> O !! Explicit j = Some k -> j = k.
Proof.
  intros [R Hnu _ Hk _] HO. pose proof (nu_range _ _ Hnu _ _ HO) as Hlt. rewrite <- (lr_length _ _ _ R) in Hlt.
  destruct (lookup_lt_is_Some_2 _ _ Hlt) as [n Hn]. specialize (Hk k _ _ _ (statuses_lookup _ _ _ Hn)).
  destruct (is_explicit (node_producer n)); [by injection (nu_inj _ _ Hnu _ _ _ HO Hk)|].
  destruct Hk as [id Hid]. discriminate (nu_inj _ _ Hnu _ _ _ HO Hid).
Qed.

Lemma owner_kind q qs bss O o k :
  queue_rep q qs bss O -> O !! o = Some k ->
  exists n, cq_producers q !! k = Some n /\ is_explicit (node_producer n) = match o with Thread _ => false | Explicit _ => true end.
Proof.
  intros [R Hnu _ Hk _] HO. pose proof (nu_range _ _ Hnu _ _ HO) as Hlt. rewrite <- (lr_length _ _ _ R) in Hlt.
  destruct (lookup_lt_is_Some_2 _ _ Hlt) as [n Hn]. exists n. split; [done|]. specialize (Hk k _ _ _ (statuses_lookup _ _ _ Hn)).
  destruct (is_explicit (node_producer n)); [by rewrite (nu_inj _ _ Hnu _ _ _ HO Hk)|].
  destruct Hk as [id Hid]. by rewrite (nu_inj _ _ Hnu _ _ _ HO Hid).
Qed.

(** A producer's number is free as long as there are fewer producers. *)
Lemma explicit_fresh q qs bss O : queue_rep q qs bss O -> O !! Explicit (length qs) = None.
Proof.
  intros Q. destruct (O !! Explicit (length qs)) as [k|] eqn:E; [|done]. pose proof (owner_explicit _ _ _ _ _ _ Q E) as <-.
  pose proof (nu_range _ _ (qr_numbering _ _ _ _ Q) _ _ E). lia.
Qed.

Lemma kinds_add q q' O o e len :
  kinds_ok q O -> statuses q' = statuses q ++ [(e, false, None)] -> length (statuses q) = len -> O !! o = None ->
  o = (if e then Explicit len else o) -> (e = false -> exists id, o = Thread id) -> kinds_ok q' (<[o := len]> O).
Proof.
  intros Hk Es Hl Hf Ho Ht k e' a t. rewrite Es. intros Hs. apply lookup_app_Some in Hs as [Hs|[Hle Hs]].
  - specialize (Hk _ _ _ _ Hs). destruct e'; [rewrite lookup_insert_ne; [done|congruence]|].
    destruct Hk as [id Hid]. exists id. rewrite lookup_insert_ne; [done|congruence].
  - apply list_lookup_singleton_Some in Hs as [E0 Hs]. injection Hs as <- <- <-. assert (k = len) as -> by lia. destruct e.
    + by rewrite <- Ho, lookup_insert_eq.
    + destruct (Ht eq_refl) as [id ->]. exists id. by rewrite lookup_insert_eq.
Qed.

Lemma set_hashes_id q : set_hashes (set_heap q (cq_heap q)) (implicitProducerHash q) (implicitProducerHashCount q) = q.
Proof. by destruct q. Qed.

Lemma grow_hash_spec q M n :
  hashes_ok (implicitProducerHash q) M -> n = Z.of_nat (size M) + 1 -> n < 2 ^ 60 ->
  exists ok q', grow_hash q n = Ret (ok, q') /\ (mem_ok (cq_heap q) -> ok = true) /\
    exists h', mem_only (cq_heap q) h' /\
    if (ok : bool) then exists hashes, q' = set_hashes (set_heap q h') hashes (implicitProducerHashCount q) /\ hashes_ok hashes M /\
      exists hash rest, hashes = hash :: rest /\ n < hash_capacity hash / 2 /\ hash_capacity hash <= 2 ^ 63
    else q' = set_hashes (set_heap q h') (implicitProducerHash q) (implicitProducerHashCount q -w 1).
Proof.
  intros Hok Hn Hlt. destruct (hs_tables _ _ Hok) as (ms & H2 & _). destruct (hs_main _ _ Hok) as (hash & rest & Eh & Hcap).
  unfold grow_hash. rewrite Eh in *. cbn [head of_option mbind outcome_bind].
  inversion H2 as [|? m ? ms' Hh H2' Ea Eb]; subst. destruct (ho_cap _ _ Hh) as (c & Hc & Ec). rewrite Ec in *.
  assert (2 ^ c <= 2 ^ 63) by (apply Z.pow_le_mono_r; lia). rewrite Z.shiftr_div_pow2 by lia. change (2 ^ 1) with 2.
  destruct (Z.leb_spec (2 ^ c / 2) (Z.of_nat (size M) + 1)) as [Hle|Hgt].
  - assert (c <= 61) as Hc61.
    { destruct (decide (c <= 61)) as [|Hc61]; [done|]. assert (2 ^ 62 <= 2 ^ c) by (apply Z.pow_le_mono_r; lia).
      assert (2 ^ 61 <= 2 ^ c / 2) by (apply Z.div_le_lower_bound; lia). lia. }
    assert (u64 (Z.shiftl (2 ^ c) 1) = 2 ^ (c + 1)) as ->.
    { rewrite Z.shiftl_mul_pow2, <- Z.pow_add_r by lia. apply u64_small. unfold is_u64, UINT64_MOD.
      assert (2 ^ (c + 1) <= 2 ^ 62) by (apply Z.pow_le_mono_r; lia). assert (0 < 2 ^ (c + 1)) by (apply Z.pow_pos_nonneg; lia). lia. }
    destruct (grow_capacity_spec 64 (Z.of_nat (size M) + 1) (c + 1)) as (c' & -> & Hc' & Hn'); [lia|lia|lia|].
    rewrite Z.shiftr_div_pow2 in Hn' by lia. change (2 ^ 1) with 2 in Hn'. cbn [mbind outcome_bind].
    assert (2 * (Z.of_nat (size M) + 1) < 2 ^ c') as Hroom.
    { pose proof (Z.div_mod (2 ^ c') 2 ltac:(lia)). pose proof (Z.mod_pos_bound (2 ^ c') 2 ltac:(lia)). lia. }
    assert (2 ^ c' <= 2 ^ 63) by (apply Z.pow_le_mono_r; lia).
    pose proof (malloc_spec (cq_heap q)) as Hm. destruct (malloc (cq_heap q)) as [ok h']. destruct Hm as [Hm Hm2].
    destruct ok; eexists _, _; (split; [done|]); (split; [done|]); exists h'; (split; [done|]); [|done].
    eexists. split; [done|]. split; [apply add_table; [done|lia|lia]|]. eexists _, _. split; [done|]. cbn [hash_new hash_capacity]. lia.
  - eexists _, _. split; [done|]. split; [done|]. exists (cq_heap q). split; [apply mem_only_refl|].
    exists (hash :: rest). split; [by rewrite <- Eh, set_hashes_id|]. split; [done|]. exists hash, rest. split; [done|]. rewrite Ec.
    pose proof (Z.div_mod (2 ^ c) 2 ltac:(lia)). pose proof (Z.mod_pos_bound (2 ^ c) 2 ltac:(lia)). lia.
Qed.

(** Registering a new thread, when the current table has room for it. *)
Lemma add_implicit_producer_spec q qs bss O M id hash rest :
  list_rep q qs bss -> producerCount q = Z.of_nat (length qs) -> implicitProducerHash q = hash :: rest ->
  implicitProducerHashCount q = Z.of_nat (size M) + 1 -> numbering O (length qs) -> threads_of O M -> kinds_ok q O -> hashes_ok (hash :: rest) M ->
  id <> invalid_thread_id -> O !! Thread id = None -> 2 * (Z.of_nat (size M) + 1) < hash_capacity hash -> Z.of_nat (length qs) + 1 < UINT_MOD ->
  exists o q', add_implicit_producer q id = Ret (o, q') /\ (healthy q -> healthy q' /\ is_Some o) /\
    match o with
    | None => queue_rep q' qs bss O /\ statuses q' = statuses q
    | Some i => i = length qs /\ queue_rep q' (qs ++ [[]]) (bss ++ [[]]) (<[Thread id := length qs]> O) /\ statuses q' = statuses q ++ [(false, false, None)]
    end.
Proof.
  intros R Hpc Eh Ec Hnu HOM Hks Hok Hid HO Hcap Hlt. pose proof (nu_size _ _ Hnu) as Hs. pose proof HOM as [HM Hsz].
  unfold add_implicit_producer. rewrite Eh. cbn [head of_option mbind outcome_bind].
  destruct (recycle_or_create_spec false q qs bss R) as (o & rc & q1 & -> & Eh1 & Ec1 & Hhealth & Hrc & Ho). rewrite (Hrc eq_refl) in *.
  cbn [mbind outcome_bind]. destruct o as [i|].
  - destruct Ho as (-> & R1 & Hpc1 & Es).
    destruct (register hash rest M id (length qs) Hok Hid ltac:(by rewrite HM) ltac:(lia)) as (hash' & -> & Hok' & _). cbn [mbind outcome_bind].
    rewrite Eh1, Eh. cbn [tail]. eexists _, _. split; [done|]. split; [intros Hh; split; [by apply Hhealth|done]|]. split; [done|]. split; [|exact Es].
    constructor; rewrite ?length_app, ?Nat.add_1_r; cbn [length set_hashes implicitProducerHash implicitProducerHashCount producerCount].
    + by eapply list_rep_ext; [..|exact R1].
    + by apply numbering_add.
    + eexists. split; [by apply threads_add|]. split; [done|]. rewrite Ec1, Ec, map_size_insert_None by (by rewrite HM). lia.
    + apply (kinds_add q _ O (Thread id) false); try done; [|by eexists].
      unfold statuses. by rewrite length_fmap, (lr_length _ _ _ R).
    + rewrite Hpc1, Hpc, u32_small by (unfold is_u32; lia). lia.
  - destruct Ho as (_ & R1 & Hpc1 & Es). eexists _, _. split; [done|]. split; [intros Hh; destruct (Hhealth Hh) as [_ [? ?]]; done|]. split; [|exact Es].
    constructor; cbn [set_hashes implicitProducerHash implicitProducerHashCount producerCount]; try congruence.
    + by eapply list_rep_ext; [..|exact R1].
    + exists M. rewrite Eh1, Eh. do 2 (split; [done|]). rewrite Ec1, Ec. replace (Z.of_nat (size M) + 1 - 1) with (Z.of_nat (size M)) by lia.
      apply u64_small. unfold is_u64, UINT64_MOD, UINT_MOD in *. lia.
    + intros k e a t. change (statuses (set_hashes _ _ _)) with (statuses q1). rewrite Es. apply Hks.
Qed.

(** The producer of a thread: its own, or a new one, or none for lack of memory. *)
Lemma get_or_add_spec q qs bss O id :
  queue_rep q qs bss O -> id <> invalid_thread_id -> Z.of_nat (length qs) + 1 < UINT_MOD ->
  exists o q', get_or_add_implicit_producer q id = Ret (o, q') /\ (healthy q -> healthy q' /\ is_Some o) /\
    match o with
    | None => O !! Thread id = None /\ queue_rep q' qs bss O /\ statuses q' = statuses q
    | Some i => (O !! Thread id = Some i /\ queue_rep q' qs bss O /\ statuses q' = statuses q) \/
        (O !! Thread id = None /\ i = length qs /\ queue_rep q' (qs ++ [[]]) (bss ++ [[]]) (<[Thread id := length qs]> O) /\
         statuses q' = statuses q ++ [(false, false, None)])
    end.
Proof.
  intros [R Hnu (M & HOM & Hh & Hc) Hks Hpc] Hid Hlt. unfold get_or_add_implicit_producer. pose proof (nu_size _ _ Hnu) as Hs.
  pose proof HOM as [HM Hsz].
  destruct (find_producer_spec _ M id Hh Hid) as (hashes' & -> & Hok' & Hsame). cbn [mbind outcome_bind].
  rewrite <- (HM id). destruct (M !! id) as [i|] eqn:EM; cbn [fmap option_fmap option_map].
  { eexists _, _. split; [done|]. split; [by intros Hh'|]. left. split; [done|]. split; [|done].
    constructor; try done; [by eapply list_rep_ext; [..|exact R]|by exists M]. }
  rewrite (Hsame eq_refl) in *. clear hashes' Hsame.
  assert (1 +w Z.of_nat (size M) = Z.of_nat (size M) + 1) as E1 by (rewrite u64_small; unfold is_u64, UINT64_MOD, UINT_MOD in *; lia).
  assert (Z.of_nat (size M) +w 1 = Z.of_nat (size M) + 1) as E2 by (rewrite u64_small; unfold is_u64, UINT64_MOD, UINT_MOD in *; lia).
  cbn [set_hashes implicitProducerHashCount cq_heap cq_producers producerListTail producerCount implicitProducerHash nextExplicitConsumerId globalExplicitConsumerOffset].
  rewrite Hc, E1, E2.
  match goal with |- context [grow_hash ?q1 _] => set (q1' := q1) end.
  destruct (grow_hash_spec q1' M (Z.of_nat (size M) + 1) Hok') as (ok & q2 & -> & Hmem & h' & Hm & Hq2); [lia|unfold UINT_MOD in *; lia|].
  cbn [mbind outcome_bind]. assert (list_rep q1' qs bss) as R1 by (by eapply list_rep_ext; [..|exact R]).
  assert (healthy q -> mem_ok h') as Hm' by (intros [Hh' _]; by apply (mem_only_blocks _ _ Hm)).
  destruct ok; cbn [negb].
  - destruct Hq2 as (hashes & -> & Hok2 & hash & rest & -> & Hcap). cbn [set_hashes implicitProducerHash head of_option mbind outcome_bind].
    rewrite !Z.shiftr_div_pow2 by lia. change (2 ^ 1) with 2. change (2 ^ 2) with 4.
    pose proof (Z.div_mod (hash_capacity hash) 2 ltac:(lia)). pose proof (Z.mod_pos_bound (hash_capacity hash) 2 ltac:(lia)).
    pose proof (Z.div_mod (hash_capacity hash) 4 ltac:(lia)). pose proof (Z.mod_pos_bound (hash_capacity hash) 4 ltac:(lia)).
    rewrite u64_small by (unfold is_u64, UINT64_MOD; lia). replace (_ <? _) with true by (zbool; lia).
    match goal with |- context [add_implicit_producer ?q3 _] => set (q3' := q3) end.
    destruct (add_implicit_producer_spec q3' qs bss O M id hash rest) as (o & q4 & E & Hhealth & Ho); try done; try lia.
    { eapply list_rep_ext; [..|exact (list_rep_mem _ _ _ _ R1 Hm)]; done. } { by rewrite <- (HM id). }
    exists o, q4. split; [done|]. split; [intros Hh'; apply Hhealth; split; [by apply Hm'|by apply Hh']|].
    destruct o as [i|]; [right; destruct Ho as [-> Ho]; done|done].
  - eexists _, _. split; [done|]. split; [intros [Hh' _]; by discriminate (Hmem Hh')|]. split; [done|]. rewrite Hq2. split; [|done].
    constructor; cbn [set_hashes implicitProducerHash implicitProducerHashCount producerCount]; try done.
    + eapply list_rep_ext; [..|exact (list_rep_mem _ _ _ _ R1 Hm)]; done.
    + exists M. do 2 (split; [done|]). cbn. replace (Z.of_nat (size M) + 1 - 1) with (Z.of_nat (size M)) by lia.
      apply u64_small. unfold is_u64, UINT64_MOD, UINT_MOD in *. lia.
Qed.

(** ** Sub-queues by owner *)

Definition view O qs : gmap Owner (list T) := (fun k => default [] (qs !! k)) <$> O.

(** The elements of an owner that are in the queue. *)
Definition fifo_of (s : gmap Owner (list T)) (o : Owner) : list T := default [] (s !! o).

Lemma view_lookup O qs o : view O qs !! o = (fun k => default [] (qs !! k)) <$> O !! o.
Proof. apply lookup_fmap. Qed.

Lemma view_insert O qs o k l :
  numbering O (length qs) -> O !! o = Some k -> view O (<[k := l]> qs) = <[o := l]> (view O qs).
Proof.
  intros Hnu Hk. apply map_eq. intros o'. rewrite lookup_insert, !view_lookup. case_decide as E.
  - subst o'. rewrite Hk. cbn. rewrite list_lookup_insert_eq; [done|]. by eapply nu_range.
  - destruct (O !! o') as [k'|] eqn:Ek; [|done]. cbn. rewrite list_lookup_insert_ne; [done|].
    intros ->. apply E. by eapply nu_inj.
Qed.

Lemma view_add O qs o :
  numbering O (length qs) -> O !! o = None -> view (<[o := length qs]> O) (qs ++ [[]]) = <[o := []]> (view O qs).
Proof.
  intros Hnu HM. unfold view. rewrite fmap_insert, lookup_app_r, Nat.sub_diag by lia. cbn. f_equal.
  apply map_fmap_ext. intros o' k Hk. rewrite lookup_app_l; [done|]. by eapply nu_range.
Qed.

Lemma view_same O qs o k l :
  O !! o = Some k -> qs !! k = Some l -> fifo_of (view O qs) o = l /\ <[o := l]> (view O qs) = view O qs.
Proof.
  intros Hk Hl. assert (view O qs !! o = Some l) as E by (rewrite view_lookup, Hk; cbn; by rewrite Hl).
  split; [unfold fifo_of; by rewrite E|]. by apply fin_maps.insert_id.
Qed.

(** ** Enqueueing *)

(** What an enqueue of [items] by an owner does to the sub-queues: all or none. *)
Definition enqueues (s : gmap Owner (list T)) (o : Owner) (items : list (option T)) (r : EnqueueResult) (s' : gmap Owner (list T)) : Prop :=
  match r with
  | Enqueued => exists vs, items = Some <$> vs /\ s' = <[o := fifo_of s o ++ vs]> s
  | Refused => (s' = s /\ s !! o = None) \/ s' = <[o := fifo_of s o]> s
  | Threw => None ∈ items /\ s' = <[o := fifo_of s o]> s
  end.

(** Writing back the producer of an owner after a step of it. *)
Lemma queue_rep_step q qs bss O o k n l bs h' p' l' bs' :
  queue_rep q qs bss O -> O !! o = Some k -> cq_producers q !! k = Some n -> qs !! k = Some l -> bss !! k = Some bs ->
  node_rep (cq_heap q) k n l bs -> stepped (others bss k) (cq_heap q) h' bs' -> any_rep h' p' l' bs' ->
  is_explicit p' = is_explicit (node_producer n) -> (any_usable (node_producer n) -> any_usable p') ->
  let q' := set_node (set_heap q h') k (with_producer n p') in
  queue_rep q' (<[k := l']> qs) (<[k := bs']> bss) O /\ view O (<[k := l']> qs) = <[o := l']> (view O qs) /\
  statuses q' = statuses q /\ (healthy q -> healthy q').
Proof.
  intros [R Hnu Hh Hk Hpc] HO Hn Hl Hbs Rn S R' Ek U. cbv zeta. pose proof (statuses_step q h' k n p' Hn Ek) as Es.
  split; [|split; [by apply view_insert|split; [done|]]].
  - constructor; rewrite ?length_insert; try done; [by eapply list_rep_step|]. intros j e a t. rewrite Es. apply Hk.
  - intros [Hm Hu]. split; [by apply S|]. intros j nj Hj. cbn in Hj.
    apply list_lookup_insert_Some in Hj as [(<- & <- & _)|(_ & Hj)]; [cbn; eauto|eauto].
Qed.

(** Sub-queues with room for [n] elements more. *)
Definition roomy (n : nat) qs : Prop := Forall (fun l => Z.of_nat (length l) + Z.of_nat n + 32 < 9223372036854775808) qs.

(** What an enqueue to the producer of owner [o] leaves. *)
Definition enqueued_to (allocMode : AllocationMode) q qs O (o : Owner) (items : list (option T)) (r : EnqueueResult) q' : Prop :=
  exists qs' bss', queue_rep q' qs' bss' O /\ (r = Refused -> view O qs' = view O qs) /\ enqueues (view O qs) o items r (view O qs') /\
    length qs' = length qs /\ statuses q' = statuses q /\
    (healthy q -> healthy q' /\ (allocMode = CanAlloc -> roomy (length items) qs -> r <> Refused)).

(** What a producer that holds [l] does with [items]: [rep] says what it holds then. *)
Definition appended (rep : list T -> Prop) l (items : list (option T)) (why : Prop) (r : EnqueueResult) : Prop :=
  match r with
  | Enqueued => exists vs, items = Some <$> vs /\ rep (l ++ vs)
  | Refused => rep l /\ why
  | Threw => rep l /\ None ∈ items
  end.

Lemma appended_mono (rep rep' : list T -> Prop) l items why r :
  (forall l, rep l -> rep' l) -> appended rep l items why r -> appended rep' l items why r.
Proof. intros H. destruct r; cbn; [intros (vs & E & R); eauto|intros [R W]; eauto..]. Qed.

(** The producer of an owner. *)
Lemma owner_node q qs bss O o k :
  queue_rep q qs bss O -> O !! o = Some k ->
  exists n l bs, cq_producers q !! k = Some n /\ is_explicit (node_producer n) = match o with Thread _ => false | Explicit _ => true end /\
    qs !! k = Some l /\ bss !! k = Some bs /\ node_rep (cq_heap q) k n l bs /\ own (cq_heap q) (others bss k) bs.
Proof.
  intros Q HO. destruct (owner_kind _ _ _ _ _ _ Q HO) as (n & Hn & Kn). pose proof Q as [R Hnu _ _ _].
  destruct (lookup_lt_is_Some_2 qs k (nu_range _ _ Hnu _ _ HO)) as [l Hl].
  destruct (lr_nodes _ _ _ R k l Hl) as (n' & bs & Hn' & Hbs & Rn). rewrite Hn in Hn'. injection Hn' as <-.
  exists n, l, bs. do 5 (split; [done|]). by apply own_at; try apply R.
Qed.

(** Writing it back after an enqueue. *)
Lemma enqueued_back allocMode q qs bss O o k n l bs h' p' bs' items r (why : Prop) :
  queue_rep q qs bss O -> O !! o = Some k -> cq_producers q !! k = Some n -> qs !! k = Some l -> bss !! k = Some bs ->
  node_rep (cq_heap q) k n l bs -> stepped (others bss k) (cq_heap q) h' bs' ->
  is_explicit p' = is_explicit (node_producer n) -> (any_usable (node_producer n) -> any_usable p') ->
  appended (fun l' => any_rep h' p' l' bs') l items why r ->
  (healthy q -> allocMode = CanAlloc -> roomy (length items) qs -> ~ why) ->
  enqueued_to allocMode q qs O o items r (set_node (set_heap q h') k (with_producer n p')).
Proof.
  intros Q HO Hn Hl Hbs Rn S Ek U Ha Hwhy. destruct (view_same O qs o k l HO Hl) as [Ef Es].
  assert (exists l', any_rep h' p' l' bs' /\ enqueues (view O qs) o items r (<[o := l']> (view O qs)) /\ (r = Refused -> l' = l /\ why)) as (l' & R' & He & Hr).
  { unfold enqueues. rewrite Ef. destruct r; cbn in Ha.
    - destruct Ha as (vs & -> & R'). exists (l ++ vs). split; [done|]. split; [by exists vs|done].
    - destruct Ha as [R' Hw]. exists l. split; [done|]. split; [by right|done].
    - destruct Ha as [R' Hno]. exists l. by split. }
  destruct (queue_rep_step q qs bss O o k n l bs h' p' l' bs') as (Q' & Ev & Ess & Hh); try done.
  eexists _, _. split; [exact Q'|]. rewrite Ev. split; [intros Er; by destruct (Hr Er) as [-> _]|]. split; [done|].
  split; [apply length_insert|]. split; [done|]. intros H. split; [auto|]. intros Ea Hall Er. destruct (Hr Er) as [_ Hw]. by eapply Hwhy.
Qed.

(** *** With the producer of a thread *)

(** An operation of an implicit producer that enqueues [items]. *)
Definition implicit_appends (allocMode : AllocationMode) (items : list (option T))
    (f : Heap T -> ImplicitProducer -> outcome (EnqueueResult * Heap T * ImplicitProducer)) : Prop :=
  forall h p l hd bs F, own h F bs -> imp_rep h p l hd bs ->
  exists r h' p' bs', f h p = Ret (r, h', p') /\ stepped F h h' bs' /\ (blockIndex p <> [] -> blockIndex p' <> []) /\
    appended (fun l' => imp_rep h' p' l' hd bs') l items
      (blockIndex p = [] \/ allocMode = CannotAlloc \/ ~ mem_ok h \/ 9223372036854775808 <= Z.of_nat (length l) + Z.of_nat (length items) + 32) r.

Lemma implicit_enqueue_appends allocMode noexcept garbage element :
  (noexcept = true -> is_Some element) -> implicit_appends allocMode [element] (fun h p => implicit_enqueue allocMode noexcept garbage h p element).
Proof.
  intros Hne h p l hd bs F Ho R. destruct (enqueue_spec allocMode noexcept garbage h p l hd bs F element Ho R Hne) as (r & h' & p' & bs' & E & S & U & Res).
  exists r, h', p', bs'. do 3 (split; [done|]). destruct r; cbn in Res |- *.
  - destruct Res as (v & -> & R'). by exists [v].
  - destruct Res as [R' Hw]. split; [done|]. unfold refusal in Hw. destruct Hw as [?|[?|[?|?]]]; [tauto..|do 3 right; lia].
  - destruct Res as [R' ->]. split; [done|]. by left.
Qed.

Lemma implicit_enqueue_bulk_appends allocMode garbage items :
  Z.of_nat (length items) < 9223372036854775808 -> implicit_appends allocMode items (fun h p => implicit_enqueue_bulk allocMode garbage h p items).
Proof.
  intros Hi h p l hd bs F Ho R. destruct (enqueue_bulk_spec allocMode garbage h p l hd bs F items Ho R Hi) as (r & h' & p' & bs' & E & S & U & Res).
  exists r, h', p', bs'. do 3 (split; [done|]). destruct r; exact Res.
Qed.

(** The functions without a token: the producer of the thread, then [f]. *)
Definition thread_step (f : Heap T -> ImplicitProducer -> outcome (EnqueueResult * Heap T * ImplicitProducer)) q (id : Z)
    : outcome (EnqueueResult * ConcurrentQueue T) :=
  '(producer, q) ← get_or_add_implicit_producer q id;
  match producer with
  | None => Ret (Refused, q)
  | Some i =>
      n ← node_at q i;
      match node_producer n with
      | AExplicit _ => Fault BadPointer
      | AImplicit p => '(r, h, p) ← f (cq_heap q) p; Ret (r, set_node (set_heap q h) i (with_producer n (AImplicit p)))
      end
  end.

Lemma thread_step_spec allocMode items f q qs bss O id :
  implicit_appends allocMode items f -> queue_rep q qs bss O -> id <> invalid_thread_id -> Z.of_nat (length qs) + 1 < UINT_MOD ->
  Z.of_nat (length items) + 32 < 9223372036854775808 ->
  exists r q' qs' bss' O', thread_step f q id = Ret (r, q') /\ queue_rep q' qs' bss' O' /\
    enqueues (view O qs) (Thread id) items r (view O' qs') /\ (length qs <= length qs' <= S (length qs))%nat /\
    (exists new, statuses q' = statuses q ++ new /\ Forall (fun x => x.2 = None) new) /\
    (healthy q -> healthy q' /\ (allocMode = CanAlloc -> roomy (length items) qs -> r <> Refused)).
Proof.
  intros Hf Q Hid Hlt Hi. unfold thread_step.
  destruct (get_or_add_spec q qs bss O id Q Hid Hlt) as (o & q1 & -> & Hh & Ho). rewrite ret_bind. destruct o as [k|].
  - assert (exists qs1 bss1 O1, queue_rep q1 qs1 bss1 O1 /\ O1 !! Thread id = Some k /\ view O1 qs1 = <[Thread id := fifo_of (view O qs) (Thread id)]> (view O qs) /\
      (length qs <= length qs1 <= S (length qs))%nat /\ (qs1 = qs \/ qs1 = qs ++ [[]]) /\ (exists new, statuses q1 = statuses q ++ new /\ Forall (fun x => x.2 = None) new))
      as (qs1 & bss1 & O1 & Q1 & Hk & Ev & Hl1 & Eq & new & Es & Hnew).
    { destruct Ho as [(Hk & Q1 & Es)|(HM & -> & Q1 & Es)].
      - exists qs, bss, O. split; [done|]. split; [done|]. split; [|split; [lia|split; [by left|exists []; by rewrite app_nil_r]]].
        destruct (lookup_lt_is_Some_2 qs k) as [l Hl]; [eapply nu_range; [apply Q|done]|].
        destruct (view_same O qs (Thread id) k l Hk Hl) as [-> E]. by symmetry.
      - eexists _, _, _. split; [exact Q1|]. rewrite lookup_insert_eq. split; [done|]. rewrite view_add by (apply Q || done).
        split; [|rewrite length_app; cbn; split; [lia|split; [by right|eexists; split; [exact Es|by constructor]]]]. f_equal. unfold fifo_of. by rewrite view_lookup, HM. }
    destruct (owner_node q1 qs1 bss1 O1 (Thread id) k Q1 Hk) as (n & l & bs & Hn & Kn & Hl & Hbs & Rn & Hown).
    rewrite (node_at_Ret _ _ _ Hn), ret_bind. pose proof Rn as (_ & _ & Rp). destruct (node_producer n) as [p|p] eqn:Ep; [|done]. destruct Rp as [hd Rp].
    destruct (Hf _ _ _ _ _ _ Hown Rp) as (r & h' & p' & bs' & -> & S & U & Ha). rewrite ret_bind.
    destruct (enqueued_back allocMode q1 qs1 bss1 O1 (Thread id) k n l bs h' (AImplicit p') bs' items r
      (blockIndex p = [] \/ allocMode = CannotAlloc \/ ~ mem_ok (cq_heap q1) \/ 9223372036854775808 <= Z.of_nat (length l) + Z.of_nat (length items) + 32))
      as (qs' & bss' & Q' & Hr & He & Hl' & Es' & Hh'); try done; rewrite ?Ep; try done.
    { eapply appended_mono; [|exact Ha]. intros l0 R0. by exists hd. }
    { intros [Hm Hu] -> Hall Hw. specialize (Hu k n Hn). rewrite Ep in Hu. eapply Forall_lookup in Hall; [|exact Hl]. cbn in Hall.
      destruct Hw as [?|[?|[?|?]]]; [done..|lia]. }
    eexists r, _, qs', bss', O1. split; [done|]. split; [done|]. split.
    + assert (fifo_of (view O1 qs1) (Thread id) = fifo_of (view O qs) (Thread id)) as Ef by (rewrite Ev; unfold fifo_of; by rewrite lookup_insert_eq).
      destruct r; cbn in He |- *.
      * destruct He as (vs & -> & ->). exists vs. split; [done|]. by rewrite Ef, Ev, insert_insert_eq.
      * right. by rewrite Hr, Ev.
      * destruct He as [? ->]. split; [done|]. by rewrite Ef, Ev, insert_insert_eq.
    + split; [lia|]. split; [exists new; split; [congruence|done]|]. intros H. destruct (Hh H) as [H1 _]. destruct (Hh' H1) as [H2 Hn']. split; [done|].
      intros Ea Hall. apply Hn'; [done|]. unfold roomy in *. destruct Eq as [->| ->]; [done|]. apply Forall_app. split; [done|]. constructor; [cbn; lia|done].
  - destruct Ho as (HM & Q1 & Es). exists Refused, q1, qs, bss, O. split; [done|]. split; [done|]. split; [|split; [lia|split]].
    + left. split; [done|]. by rewrite view_lookup, HM.
    + exists []. by rewrite app_nil_r.
    + intros H. destruct (Hh H) as [_ [? ?]]. done.
Qed.

(** *** With the producer of a token *)

(** An operation of an explicit producer that enqueues [items], on the heap [h]. *)
Definition explicit_appends (allocMode : AllocationMode) (items : list (option T)) (h : Heap T)
    (f : Heap T -> ExplicitProducer -> outcome (EnqueueResult * Heap T * ExplicitProducer)) : Prop :=
  forall p l hd bs F, own h F bs -> exp_rep h p l hd bs -> Z.of_nat (length l) + Z.of_nat (length items) + 32 < 9223372036854775808 ->
  exists r h' p' bs', f h p = Ret (r, h', p') /\ stepped F h h' bs' /\
    appended (fun l' => exp_rep h' p' l' hd bs') l items (allocMode = CannotAlloc \/ ~ mem_ok h) r.

(** The constructor does not throw. *)
Lemma explicit_enqueue_appends allocMode noexcept garbage h v :
  explicit_appends allocMode [Some v] h (fun h p => explicit_enqueue allocMode noexcept garbage h p (Some v)).
Proof.
  intros p l hd bs F Ho R Hroom. destruct (exp_enqueue_spec allocMode noexcept garbage h p l v hd bs F Ho R) as (r & h' & p' & bs' & E & S & Res); [lia|].
  exists r, h', p', bs'. do 2 (split; [done|]). destruct r; [by exists [v]|done|done].
Qed.

(** No constructor throws and blocks can be allocated. *)
Lemma explicit_enqueue_bulk_appends noexcept garbage h vs :
  mem_ok h -> explicit_appends CanAlloc (Some <$> vs) h (fun h p => explicit_enqueue_bulk CanAlloc noexcept garbage h p (Some <$> vs)).
Proof.
  intros Hm p l hd bs F Ho R Hroom. rewrite length_fmap in Hroom.
  destruct (exp_enqueue_bulk_spec CanAlloc noexcept garbage h p l vs hd bs F Ho R Hroom) as (r & h' & p' & bs' & E & S & Res).
  exists r, h', p', bs'. do 2 (split; [done|]). destruct r; [by exists vs|by destruct Res|done].
Qed.

(** The functions with a token. *)
Definition token_step (f : Heap T -> ExplicitProducer -> outcome (EnqueueResult * Heap T * ExplicitProducer)) q (i : nat)
    : outcome (EnqueueResult * ConcurrentQueue T) :=
  n ← node_at q i;
  match node_producer n with
  | AImplicit _ => Fault BadPointer
  | AExplicit p => '(r, h, p) ← f (cq_heap q) p; Ret (r, set_node (set_heap q h) i (with_producer n (AExplicit p)))
  end.

Lemma token_step_spec allocMode items f q qs bss O k :
  explicit_appends allocMode items (cq_heap q) f -> queue_rep q qs bss O -> O !! Explicit k = Some k -> roomy (length items) qs ->
  exists r q', token_step f q k = Ret (r, q') /\ enqueued_to allocMode q qs O (Explicit k) items r q'.
Proof.
  intros Hf Q Hk Hroom. destruct (owner_node q qs bss O (Explicit k) k Q Hk) as (n & l & bs & Hn & Kn & Hl & Hbs & Rn & Hown).
  unfold token_step. rewrite (node_at_Ret _ _ _ Hn), ret_bind. pose proof Rn as (_ & _ & Rp).
  destruct (node_producer n) as [p|p] eqn:Ep; [done|]. destruct Rp as [hd Rp].
  destruct (Hf p l hd bs _ Hown Rp) as (r & h' & p' & bs' & -> & S & Ha); [by eapply Forall_lookup in Hroom|]. rewrite ret_bind.
  eexists r, _. split; [done|].
  eapply (enqueued_back _ _ _ _ _ _ _ _ _ _ _ _ _ _ _ (allocMode = CannotAlloc \/ ~ mem_ok (cq_heap q))); try done; rewrite ?Ep; try done.
  - eapply appended_mono; [|exact Ha]. intros l0 R0. by exists hd.
  - intros [Hm _] -> _ [?|?]; done.
Qed.
End Threads.
