(* ===== verification/QueueTokens.v ===== *)
(** * Producer tokens (concurrentqueue.h, struct ProducerToken)

    [recycle_or_create_producer] gives a new token a producer no other token holds; the
    producer knows its token, also after the token has been moved or swapped. *)
From S2P Require Import Prelude QueueDetails QueueBlock Producer ImplicitProducer ImplicitIndex ImplicitSpec ImplicitBulk ImplicitBulkEnqueue ImplicitTrace ExplicitProducer ExplicitSpec ExplicitEnqueue ExplicitBulk ExplicitBulkEnqueue ProducerHash Queue QueueBulk QueueSpec QueueThreads.

Section Tokens.
Context {T : Type}.
Implicit Types (q : ConcurrentQueue T) (qs : list (list T)) (bss : list (list nat)) (O : gmap Owner nat).

(** Turning an explicit producer on or off keeps the queue. *)
Lemma queue_rep_activity q qs bss O k n a t :
  queue_rep q qs bss O -> cq_producers q !! k = Some n -> is_explicit (node_producer n) = true ->
  let q' := set_node q k (mkNode (node_producer n) (node_next n) a t) in
  queue_rep q' qs bss O /\ (healthy q -> healthy q') /\ statuses q' = <[k := (true, a, t)]> (statuses q).
Proof.
  intros [R Hnu Hh Hks Hpc] Hn Kn. cbv zeta.
  assert (statuses (set_node q k (mkNode (node_producer n) (node_next n) a t)) = <[k := (true, a, t)]> (statuses q)) as Es
    by (unfold statuses; cbn; rewrite list_fmap_insert; cbn; by rewrite Kn).
  split; [|split; [|done]].
  - constructor; try done; [by apply list_rep_activity|]. intros j e a' t'. rewrite Es.
    intros [(<- & [= <- <- <-] & _)|(_ & Hj)]%list_lookup_insert_Some; [|by apply (Hks _ _ _ _ Hj)].
    pose proof (Hks _ _ _ _ (statuses_lookup _ _ _ Hn)) as HO. by rewrite Kn in HO.
  - intros [Hm Hu]. split; [done|]. intros j nj Hj. cbn in Hj.
    apply list_lookup_insert_Some in Hj as [(<- & <- & _)|(_ & Hj)]; [cbn; by eapply Hu|eauto].
Qed.

(** The producer of a token, and how it is found. *)
Lemma explicit_node q qs bss O k : queue_rep q qs bss O -> O !! Explicit k = Some k ->
  exists n, node_at q k = Ret n /\ cq_producers q !! k = Some n /\ is_explicit (node_producer n) = true /\
    statuses q !! k = Some (true, node_inactive n, node_token n).
Proof.
  intros Q HO. destruct (owner_kind _ _ _ _ _ _ Q HO) as (n & Hn & Kn). exists n. split; [by apply node_at_Ret|]. split; [done|]. split; [done|].
  by rewrite (statuses_lookup _ _ _ Hn), Kn.
Qed.

(** A producer gets a new token. *)
Lemma set_token_spec q qs bss O k t :
  queue_rep q qs bss O -> O !! Explicit k = Some k ->
  exists q' a t0, set_token q (Some k) t = Ret q' /\ queue_rep q' qs bss O /\ (healthy q -> healthy q') /\
    statuses q !! k = Some (true, a, t0) /\ statuses q' = <[k := (true, a, t)]> (statuses q).
Proof.
  intros Q HO. destruct (explicit_node _ _ _ _ _ Q HO) as (n & E & Hn & Kn & Hs). cbn [set_token]. rewrite E, ret_bind.
  destruct (queue_rep_activity q qs bss O k n (node_inactive n) t Q Hn Kn) as (Q' & Hh & Es). eauto 10.
Qed.

(** The same for the producer of a token, if it has one. *)
Definition known_by (producer : option nat) (t : nat) (l : list (bool * bool * option nat)) : list (bool * bool * option nat) :=
  match producer with Some k => <[k := (true, false, Some t)]> l | None => l end.

Lemma set_tokens_spec q qs bss O producer t :
  queue_rep q qs bss O -> (forall k, producer = Some k -> O !! Explicit k = Some k /\ exists t0, statuses q !! k = Some (true, false, t0)) ->
  exists q', set_token q producer (Some t) = Ret q' /\ queue_rep q' qs bss O /\ (healthy q -> healthy q') /\ statuses q' = known_by producer t (statuses q).
Proof.
  intros Q Hp. destruct producer as [k|]; [|by exists q]. destruct (Hp k eq_refl) as (HO & t0 & Hk).
  destruct (set_token_spec q qs bss O k (Some t) Q HO) as (q' & a & t1 & E & Q' & Hh & Hk' & Es). rewrite Hk in Hk'. injection Hk' as <- <-. eauto.
Qed.

(** A destroyed token leaves its producer, with its elements, in the queue. *)
Lemma ProducerToken_destroy_spec q qs bss O k :
  queue_rep q qs bss O -> O !! Explicit k = Some k ->
  exists q', ProducerToken_destroy q (Some k) = Ret q' /\ queue_rep q' qs bss O /\ (healthy q -> healthy q') /\
    statuses q' = <[k := (true, true, None)]> (statuses q).
Proof.
  intros Q HO. destruct (explicit_node _ _ _ _ _ Q HO) as (n & E & Hn & Kn & Hs). cbn [ProducerToken_destroy]. rewrite E, ret_bind.
  destruct (queue_rep_activity q qs bss O k n true None Q Hn Kn) as (Q' & Hh & Es). eauto.
Qed.

(** A producer for a token: one that was inactive or is new, or none for lack of memory. *)
Lemma token_producer_spec q qs bss O :
  queue_rep q qs bss O -> Z.of_nat (length qs) + 1 < UINT_MOD ->
  exists o rc q', recycle_or_create_producer true q = Ret (o, rc, q') /\ (healthy q -> healthy q' /\ is_Some o) /\
    match o with
    | None => queue_rep q' qs bss O /\ statuses q' = statuses q
    | Some k => exists qs' bss' O', queue_rep q' qs' bss' O' /\ O' !! Explicit k = Some k /\
        view O' qs' = <[Explicit k := fifo_of (view O qs) (Explicit k)]> (view O qs) /\ (length qs <= length qs' <= S (length qs))%nat /\
        (forall t, statuses q !! k <> Some (true, false, t)) /\ (exists t, statuses q' !! k = Some (true, false, t)) /\
        forall j, j <> k -> statuses q' !! j = statuses q !! j
    end.
Proof.
  intros Q Hlt. pose proof Q as [R Hnu (M & HOM & Hh & Hc) Hks Hpc].
  destruct (recycle_or_create_spec true q qs bss R) as (o & rc & q1 & -> & Eh1 & Ec1 & Hhealth & _ & Ho).
  eexists _, _, _. split; [done|]. split; [done|].
  assert (length (statuses q) = length qs) as Hls by (unfold statuses; by rewrite length_fmap, (lr_length _ _ _ R)). destruct o as [k|].
  - destruct rc; cbn in Ho.
    + destruct Ho as (t & Hs & R1 & Hpc1 & Es). pose proof (Hks _ _ _ _ Hs) as HO. cbn in HO. pose proof (lookup_lt_Some _ _ _ Hs) as Hks'. exists qs, bss, O.
      split; [|split; [done|split; [|split; [lia|split; [by rewrite Hs|rewrite Es; split]]]]].
      * constructor; try done; [by exists M; rewrite Eh1, Ec1| |congruence]. intros j e a t'. rewrite Es.
        intros [(<- & [= <- <- <-] & _)|(_ & Hj)]%list_lookup_insert_Some; [done|by apply (Hks _ _ _ _ Hj)].
      * destruct (lookup_lt_is_Some_2 qs k) as [l Hl]; [lia|]. destruct (view_same O qs _ k l HO Hl) as [-> E]. by symmetry.
      * exists t. by rewrite list_lookup_insert_eq.
      * intros j Hne. by rewrite list_lookup_insert_ne.
    + destruct Ho as (-> & R1 & Hpc1 & Es). pose proof (explicit_fresh _ _ _ _ Q) as HO. eexists _, _, (<[Explicit (length qs) := length qs]> O).
      rewrite lookup_insert_eq, view_add, Es, length_app by done. cbn [length].
      split; [|split; [done|split; [unfold fifo_of; by rewrite view_lookup, HO|split; [lia|split; [|split]]]]].
      * constructor; rewrite ?length_app, ?Nat.add_1_r; [done|by apply numbering_add| |by apply (kinds_add q _ O (Explicit (length qs)) true)|].
        -- exists M. rewrite Eh1, Ec1. split; [by apply threads_add_explicit|done].
        -- rewrite Hpc1, Hpc, u32_small by (unfold is_u32; lia). lia.
      * intros t. rewrite lookup_ge_None_2 by lia. done.
      * exists None. rewrite lookup_app_r, Hls, Nat.sub_diag by lia. done.
      * intros j Hne. destruct (decide (j < length qs)%nat); [by rewrite lookup_app_l by lia|]. rewrite !lookup_ge_None_2; [done|lia|rewrite length_app; cbn; lia].
  - destruct Ho as (_ & R1 & Hpc1 & Es). split; [|done]. constructor; try done; [by exists M; rewrite Eh1, Ec1| |congruence].
    intros j e a t. rewrite Es. apply Hks.
Qed.

(** A new token. *)
Lemma ProducerToken_new_spec q qs bss O t :
  queue_rep q qs bss O -> Z.of_nat (length qs) + 1 < UINT_MOD ->
  exists o q', ProducerToken_new q t = Ret (o, q') /\ (healthy q -> healthy q' /\ is_Some o) /\
    match o with
    | None => queue_rep q' qs bss O /\ statuses q' = statuses q
    | Some k => exists qs' bss' O', queue_rep q' qs' bss' O' /\ O' !! Explicit k = Some k /\
        view O' qs' = <[Explicit k := fifo_of (view O qs) (Explicit k)]> (view O qs) /\ (length qs <= length qs' <= S (length qs))%nat /\
        (forall t, statuses q !! k <> Some (true, false, t)) /\ statuses q' !! k = Some (true, false, Some t) /\
        forall j, j <> k -> statuses q' !! j = statuses q !! j
    end.
Proof.
  intros Q Hlt. unfold ProducerToken_new. destruct (token_producer_spec q qs bss O Q Hlt) as (o & rc & q1 & -> & Hh & Ho). rewrite ret_bind. destruct o as [k|].
  - destruct Ho as (qs' & bss' & O' & Q1 & HO & Ev & Hlen & Hfree & (t1 & Hk) & Hkeep).
    destruct (set_token_spec q1 qs' bss' O' k (Some t) Q1 HO) as (q2 & a & t0 & -> & Q2 & Hh2 & Hk2 & Es). rewrite Hk in Hk2. injection Hk2 as <- <-.
    rewrite ret_bind. eexists _, _. split; [done|]. split; [intros H; by destruct (Hh H); split; [apply Hh2|]|].
    exists qs', bss', O'. do 5 (split; [done|]). rewrite Es. split; [apply list_lookup_insert_eq; by eapply lookup_lt_Some|].
    intros j Hne. rewrite list_lookup_insert_ne by done. by apply Hkeep.
  - cbn [set_token]. rewrite ret_bind. eexists _, _. done.
Qed.

(** [try_dequeue_from_producer] looks at the producer of the token only. *)
Lemma from_producer_dequeue throws q qs bss O k :
  queue_rep q qs bss O -> O !! Explicit k = Some k -> try_dequeue_from_producer throws q k = dequeue_from throws q k.
Proof.
  intros Q HO. destruct (owner_kind _ _ _ _ _ _ Q HO) as (n & Hn & Kn). unfold try_dequeue_from_producer, dequeue_from.
  rewrite (node_at_Ret _ _ _ Hn). cbn [mbind outcome_bind]. destruct (node_producer n) as [p|p]; [done|]. cbn [any_dequeue].
  by destruct (explicit_dequeue throws (cq_heap q) p) as [[[? ?] ?]|].
Qed.
End Tokens.
