(* ===== verification/QueueRuns.v ===== *)
(** * Operations of the queue, one after the other

    Any sequence of enqueues by threads and with producer tokens, of dequeues in each
    of the four ways, one element or many at a time, and of making, moving, swapping and
    destroying tokens behaves as one first-in first-out list per thread and per token. *)
From S2P Require Import Prelude QueueDetails QueueBlock Producer ImplicitProducer ImplicitIndex ImplicitSpec ImplicitBulk BlockCells ImplicitTrace ExplicitProducer ExplicitSpec ExplicitDestroy ExplicitBulk ExplicitTrace ProducerHash Queue QueueBulk QueueSpec QueueBulkSpec QueueThreads QueueTokens.

Section Runs.
Context {T : Type}.
Implicit Types (q : ConcurrentQueue T) (l : list T) (qs : list (list T)) (bss : list (list nat)) (O : gmap Owner nat) (s : gmap Owner (list T)).

(** ** Operations and answers *)

Inductive DequeueWay := Scored | InOrder | WithToken (k : nat).

Inductive QOp :=
  | QEnqueue (allocMode : AllocationMode) (noexcept : bool) (garbage : list bool) (id : Z) (element : option T)
  | QDequeue (way : DequeueWay) (throws : bool)
  | QSize
  | QNewToken
  | QEnqueueWith (t : nat) (allocMode : AllocationMode) (noexcept : bool) (garbage : list bool) (element : option T)
  | QDequeueFrom (t : nat) (throws : bool)
  | QDestroyToken (t : nat)
  | QEnqueueBulk (allocMode : AllocationMode) (garbage : nat -> list bool) (id : Z) (items : list (option T))
  | QDequeueBulk (consumer : option nat) (throws : option nat) (max : Z)
  | QEnqueueBulkWith (t : nat) (allocMode : AllocationMode) (noexcept : bool) (garbage : nat -> list bool) (items : list (option T))
  | QDequeueBulkFrom (t : nat) (throws : option nat) (max : Z)
  | QMoveToken (t : nat)
  | QSwapTokens (t t' : nat)
  | QMoveConsumer (k k' : nat)
  | QSwapConsumers (k k' : nat).

Inductive QAnswer :=
  | QEnqueued (r : EnqueueResult) | QDequeued (r : DequeueResult T) | QSized (n : Z)
  | QToken (valid : bool) | QDone | QNoToken | QDequeuedBulk (l : list T) (threw : bool).

(** The producer tokens made so far: valid, without a producer, destroyed. *)
Inductive TokenSlot := Held (k : nat) | Invalid | Gone.

(** The producer of a token that is there, and back. *)
Definition token_producer (x : TokenSlot) : option (option nat) :=
  match x with Held k => Some (Some k) | Invalid => Some None | Gone => None end.

Definition slot_of (producer : option nat) : TokenSlot := match producer with Some k => Held k | None => Invalid end.

Record QState := mkQState { st_queue : ConcurrentQueue T; st_consumers : list ConsumerToken; st_slots : list TokenSlot }.

(** Callers look at [valid()] before they use a token; a token that is not there
    cannot be used. *)
Definition qop_step (st : QState) (op : QOp) : outcome (QAnswer * QState) :=
  let '(mkQState q tokens slots) := st in
  match op with
  | QEnqueue allocMode noexcept garbage id element =>
      '(r, q) ← inner_enqueue allocMode noexcept garbage q id element; Ret (QEnqueued r, mkQState q tokens slots)
  | QDequeue Scored throws => '(r, q) ← queue_try_dequeue throws q; Ret (QDequeued r, mkQState q tokens slots)
  | QDequeue InOrder throws => '(r, q) ← try_dequeue_non_interleaved throws q; Ret (QDequeued r, mkQState q tokens slots)
  | QDequeue (WithToken k) throws =>
      token ← of_option OutOfBounds (tokens !! k);
      '(r, q, token) ← try_dequeue_token throws q token; Ret (QDequeued r, mkQState q (<[k := token]> tokens) slots)
  | QSize => n ← queue_size_approx q; Ret (QSized n, st)
  | QNewToken =>
      '(o, q) ← ProducerToken_new q (length slots);
      Ret (match o with
           | Some k => (QToken true, mkQState q tokens (slots ++ [Held k]))
           | None => (QToken false, mkQState q tokens (slots ++ [Invalid]))
           end)
  | QEnqueueWith t allocMode noexcept garbage element =>
      match slots !! t with
      | Some (Held k) => '(r, q) ← inner_enqueue_token allocMode noexcept garbage q k element; Ret (QEnqueued r, mkQState q tokens slots)
      | _ => Ret (QNoToken, st)
      end
  | QDequeueFrom t throws =>
      match slots !! t with
      | Some (Held k) => '(r, q) ← try_dequeue_from_producer throws q k; Ret (QDequeued r, mkQState q tokens slots)
      | _ => Ret (QNoToken, st)
      end
  | QDestroyToken t =>
      match slots !! t with
      | Some (Held k) => q ← ProducerToken_destroy q (Some k); Ret (QDone, mkQState q tokens (<[t := Gone]> slots))
      | Some Invalid => q ← ProducerToken_destroy q None; Ret (QDone, mkQState q tokens (<[t := Gone]> slots))
      | _ => Ret (QNoToken, st)
      end
  | QEnqueueBulk allocMode garbage id items =>
      '(r, q) ← inner_enqueue_bulk allocMode garbage q id items; Ret (QEnqueued r, mkQState q tokens slots)
  | QDequeueBulk None throws max => '(l, threw, q) ← queue_try_dequeue_bulk throws q max; Ret (QDequeuedBulk l threw, mkQState q tokens slots)
  | QDequeueBulk (Some k) throws max =>
      token ← of_option OutOfBounds (tokens !! k);
      '(l, threw, q, token) ← try_dequeue_bulk_token throws q token max; Ret (QDequeuedBulk l threw, mkQState q (<[k := token]> tokens) slots)
  | QEnqueueBulkWith t allocMode noexcept garbage items =>
      match slots !! t with
      | Some (Held k) => '(r, q) ← inner_enqueue_bulk_token allocMode noexcept garbage q k items; Ret (QEnqueued r, mkQState q tokens slots)
      | _ => Ret (QNoToken, st)
      end
  | QDequeueBulkFrom t throws max =>
      match slots !! t with
      | Some (Held k) => '(l, threw, q) ← try_dequeue_bulk_from_producer throws q k max; Ret (QDequeuedBulk l threw, mkQState q tokens slots)
      | _ => Ret (QNoToken, st)
      end
  | QMoveToken t =>
      match slots !! t ≫= token_producer with
      | Some p => '(this, other, q) ← ProducerToken_move q p (length slots); Ret (QDone, mkQState q tokens (<[t := slot_of other]> slots ++ [slot_of this]))
      | None => Ret (QNoToken, st)
      end
  | QSwapTokens t t' =>
      match slots !! t ≫= token_producer, slots !! t' ≫= token_producer with
      | Some p, Some p' => '(this, other, q) ← ProducerToken_swap q p p' t t'; Ret (QDone, mkQState q tokens (<[t' := slot_of other]> (<[t := slot_of this]> slots)))
      | _, _ => Ret (QNoToken, st)
      end
  | QMoveConsumer k k' => token ← of_option OutOfBounds (tokens !! k); Ret (QDone, mkQState q (<[k' := ConsumerToken_move token]> tokens) slots)
  | QSwapConsumers k k' =>
      this ← of_option OutOfBounds (tokens !! k); other ← of_option OutOfBounds (tokens !! k');
      let '(this, other) := ConsumerToken_swap this other in Ret (QDone, mkQState q (<[k' := other]> (<[k := this]> tokens)) slots)
  end.

Fixpoint qop_run (st : QState) (ops : list QOp) : outcome (list QAnswer * QState) :=
  match ops with
  | [] => Ret ([], st)
  | op :: ops => '(a, st) ← qop_step st op; '(l, st) ← qop_run st ops; Ret (a :: l, st)
  end.

(** A queue with [n] consumer tokens. *)
Fixpoint add_consumers (n : nat) (q : ConcurrentQueue T) : ConcurrentQueue T * list ConsumerToken :=
  match n with
  | O => (q, [])
  | S n => let '(token, q) := ConsumerToken_new q in let '(q, tokens) := add_consumers n q in (q, token :: tokens)
  end.

Definition start (n : nat) (q : ConcurrentQueue T) : QState := let '(q, tokens) := add_consumers n q in mkQState q tokens [].

(** ** The abstract queue: a list per owner, and who holds which token *)

(** A dequeue that may look at the owners [P] takes the oldest element of one, and
    finds nothing only when they have none. *)
Inductive dequeued_in (P : Owner -> Prop) s : bool -> DequeueResult T -> gmap Owner (list T) -> Prop :=
  | dq_took o v l : P o -> s !! o = Some (v :: l) -> dequeued_in P s false (Dequeued v) (<[o := l]> s)
  | dq_lost o v l : P o -> s !! o = Some (v :: l) -> dequeued_in P s true AssignThrew (<[o := l]> s)
  | dq_nothing throws : (forall o l, P o -> s !! o = Some l -> l = []) -> dequeued_in P s throws Nothing s.

Definition anyone (o : Owner) : Prop := True.

(** Elements taken one after the other, each the oldest of its owner. *)
Inductive takes (P : Owner -> Prop) : gmap Owner (list T) -> list T -> gmap Owner (list T) -> Prop :=
  | takes_nil s : takes P s [] s
  | takes_oldest s o v l vs s' : P o -> s !! o = Some (v :: l) -> takes P (<[o := l]> s) vs s' -> takes P s (v :: vs) s'.

(** A bulk dequeue takes at most [max] elements, and fewer only when an assignment
    threw or there are no more; it gives those before the failing assignment. *)
Definition bulk_dequeued (P : Owner -> Prop) s (throws : option nat) (max : Z) l (threw : bool) s' : Prop :=
  exists vs, takes P s vs s' /\ l = written throws vs /\ threw = threw_in throws vs /\ Z.of_nat (length vs) <= max /\
    (threw = false -> Z.of_nat (length vs) < max -> forall o l, P o -> s' !! o = Some l -> l = []).

(** The producer tokens an operation uses, and those it uses for their producer. *)
Definition tokens_of (op : QOp) : list nat :=
  match op with
  | QEnqueueWith t _ _ _ _ | QDequeueFrom t _ | QDestroyToken t | QEnqueueBulkWith t _ _ _ _ | QDequeueBulkFrom t _ _ | QMoveToken t => [t]
  | QSwapTokens t t' => [t; t']
  | _ => []
  end.

Definition producer_of (op : QOp) : option nat :=
  match op with QEnqueueWith t _ _ _ _ | QDequeueFrom t _ | QEnqueueBulkWith t _ _ _ _ | QDequeueBulkFrom t _ _ => Some t | _ => None end.

Definition no_token (slots : list TokenSlot) (op : QOp) (t : nat) : Prop :=
  t ∈ tokens_of op /\ (slots !! t = None \/ slots !! t = Some Gone \/ (slots !! t = Some Invalid /\ producer_of op = Some t)).

Inductive qstep : gmap Owner (list T) * list TokenSlot -> QOp -> QAnswer -> gmap Owner (list T) * list TokenSlot -> Prop :=
  | qs_enqueue s slots m n g id e r s' : enqueues s (Thread id) [e] r s' -> qstep (s, slots) (QEnqueue m n g id e) (QEnqueued r) (s', slots)
  | qs_dequeue s slots way throws r s' : dequeued_in anyone s throws r s' -> qstep (s, slots) (QDequeue way throws) (QDequeued r) (s', slots)
  | qs_size s slots : qstep (s, slots) QSize (QSized (u64 (Z.of_nat (length (concat (map_to_list s).*2))))) (s, slots)
  | qs_token s slots k : Held k ∉ slots ->
      qstep (s, slots) QNewToken (QToken true) (<[Explicit k := fifo_of s (Explicit k)]> s, slots ++ [Held k])
  | qs_invalid s slots : qstep (s, slots) QNewToken (QToken false) (s, slots ++ [Invalid])
  | qs_enqueue_with s slots t k m n g e r s' : slots !! t = Some (Held k) -> enqueues s (Explicit k) [e] r s' ->
      qstep (s, slots) (QEnqueueWith t m n g e) (QEnqueued r) (s', slots)
  | qs_dequeue_from s slots t k throws r s' : slots !! t = Some (Held k) -> dequeued_in (eq (Explicit k)) s throws r s' ->
      qstep (s, slots) (QDequeueFrom t throws) (QDequeued r) (s', slots)
  | qs_destroy s slots t x : slots !! t = Some x -> x <> Gone -> qstep (s, slots) (QDestroyToken t) QDone (s, <[t := Gone]> slots)
  | qs_enqueue_bulk s slots m g id items r s' : enqueues s (Thread id) items r s' -> qstep (s, slots) (QEnqueueBulk m g id items) (QEnqueued r) (s', slots)
  | qs_dequeue_bulk s slots consumer throws max l threw s' : bulk_dequeued anyone s throws max l threw s' ->
      qstep (s, slots) (QDequeueBulk consumer throws max) (QDequeuedBulk l threw) (s', slots)
  | qs_enqueue_bulk_with s slots t k m n g items r s' : slots !! t = Some (Held k) -> enqueues s (Explicit k) items r s' ->
      qstep (s, slots) (QEnqueueBulkWith t m n g items) (QEnqueued r) (s', slots)
  | qs_dequeue_bulk_from s slots t k throws max l threw s' : slots !! t = Some (Held k) -> bulk_dequeued (eq (Explicit k)) s throws max l threw s' ->
      qstep (s, slots) (QDequeueBulkFrom t throws max) (QDequeuedBulk l threw) (s', slots)
  | qs_move s slots t x : slots !! t = Some x -> x <> Gone -> qstep (s, slots) (QMoveToken t) QDone (s, <[t := Invalid]> slots ++ [x])
  | qs_swap s slots t t' x x' : slots !! t = Some x -> x <> Gone -> slots !! t' = Some x' -> x' <> Gone ->
      qstep (s, slots) (QSwapTokens t t') QDone (s, <[t' := x]> (<[t := x']> slots))
  | qs_move_consumer s slots k k' : qstep (s, slots) (QMoveConsumer k k') QDone (s, slots)
  | qs_swap_consumers s slots k k' : qstep (s, slots) (QSwapConsumers k k') QDone (s, slots)
  | qs_no_token s slots op t : no_token slots op t -> qstep (s, slots) op QNoToken (s, slots).

Inductive qrun : gmap Owner (list T) * list TokenSlot -> list QOp -> list QAnswer -> gmap Owner (list T) * list TokenSlot -> Prop :=
  | qr_done c : qrun c [] [] c
  | qr_next c op a c1 ops answers c' : qstep c op a c1 -> qrun c1 ops answers c' -> qrun c (op :: ops) (a :: answers) c'.

(** Threads have an identifier, a constructor declared [noexcept] does not throw, and
    no constructor throws in an enqueue with a token; many elements are enqueued with a
    token only when memory can be had; consumer tokens exist; numbers of elements fit
    their type. *)
Definition qop_ok (mem : Prop) (n : nat) (op : QOp) : Prop :=
  match op with
  | QEnqueue _ noexcept _ id e => id <> invalid_thread_id /\ (noexcept = true -> is_Some e)
  | QEnqueueWith _ _ _ _ e => is_Some e
  | QDequeue (WithToken k) _ => (k < n)%nat
  | QEnqueueBulk _ _ id _ => id <> invalid_thread_id
  | QEnqueueBulkWith _ allocMode _ _ items => Forall is_Some items /\ allocMode = CanAlloc /\ mem
  | QDequeueBulk (Some k) _ max => (k < n)%nat /\ is_u64 max
  | QDequeueBulk None _ max | QDequeueBulkFrom _ _ max => is_u64 max
  | QMoveConsumer k k' | QSwapConsumers k k' => (k < n)%nat /\ (k' < n)%nat
  | _ => True
  end.

Lemma qop_ok_mono (A B : Prop) n op : (A -> B) -> qop_ok A n op -> qop_ok B n op.
Proof. destruct op; cbn; tauto. Qed.

Definition may_allocate (op : QOp) : Prop :=
  match op with
  | QEnqueue CannotAlloc _ _ _ _ | QEnqueueWith _ CannotAlloc _ _ _ | QEnqueueBulk CannotAlloc _ _ _ | QEnqueueBulkWith _ CannotAlloc _ _ _ => False
  | _ => True
  end.

(** How many elements an operation adds at most. *)
Definition qop_size (op : QOp) : nat :=
  match op with
  | QEnqueue _ _ _ _ _ | QEnqueueWith _ _ _ _ _ => 1
  | QEnqueueBulk _ _ _ items | QEnqueueBulkWith _ _ _ _ items => length items
  | _ => 0
  end.

(** The answers for lack of memory. *)
Definition refused (a : QAnswer) : Prop := a = QEnqueued Refused \/ a = QToken false.

(** ** Dequeueing by owner *)

(** The sub-queues in the order of the list, and by owner. *)
Lemma view_values O qs : numbering O (length qs) -> (map_to_list (view O qs)).*2 ≡ₚ qs.
Proof.
  intros Hnu. unfold view. rewrite map_to_list_fmap, <- list_fmap_compose.
  assert ((map_to_list O).*2 ≡ₚ seq 0 (length qs)) as Hp.
  { apply NoDup_Permutation; [|apply NoDup_seq|].
    - apply NoDup_fmap_2_strong; [|apply NoDup_map_to_list]. intros [i k] [j k'] Hi Hj Ek. cbn in Ek. subst k'.
      apply elem_of_map_to_list in Hi, Hj. by rewrite (nu_inj _ _ Hnu i j k Hi Hj).
    - intros k. rewrite elem_of_seq, list_elem_of_fmap. split.
      + intros ((id & k') & -> & Hk%elem_of_map_to_list). pose proof (nu_range _ _ Hnu _ _ Hk). cbn. lia.
      + intros Hk. destruct (nu_onto _ _ Hnu k ltac:(lia)) as (id & Hid). exists (id, k). split; [done|]. by apply elem_of_map_to_list. }
  transitivity ((fun k => default [] (qs !! k)) <$> (map_to_list O).*2).
  { rewrite <- list_fmap_compose. apply (eq_subrelation _), list_fmap_ext. by intros ? []. }
  rewrite Hp. apply (eq_subrelation _), list_eq. intros i. rewrite list_lookup_fmap. destruct (decide (i < length qs)%nat) as [Hi|Hi].
  - rewrite lookup_seq_lt by done. destruct (lookup_lt_is_Some_2 qs i Hi) as [l Hl]. cbn. by rewrite Hl.
  - rewrite lookup_seq_ge by lia. symmetry. apply lookup_ge_None_2. lia.
Qed.

(** A dequeue leaves the owners as they are. *)
Lemma queue_rep_dequeued q qs bss O q' qs' bss' :
  queue_rep q qs bss O -> list_rep q' qs' bss' -> same_rest q q' -> length qs' = length qs -> queue_rep q' qs' bss' O.
Proof.
  intros [R Hnu (M & HOM & Hh & Hc) Hks Hpc] R' (Es & Ep & Eh & Ec) El. constructor; rewrite ?El; try congruence; [by exists M; rewrite Eh, Ec|].
  intros j e a. rewrite Es. apply Hks.
Qed.

Lemma took_at_view throws q qs bss O k o r q' qs' :
  queue_rep q qs bss O -> O !! o = Some k -> took_at throws q qs k r q' qs' ->
  exists v l bss', view O qs !! o = Some (v :: l) /\ view O qs' = <[o := l]> (view O qs) /\
    r = (if throws then AssignThrew else Dequeued v) /\ queue_rep q' qs' bss' O /\ length qs' = length qs /\
    statuses q' = statuses q /\ (healthy q -> healthy q').
Proof.
  intros Q HO (v & l & bss' & Hk & -> & -> & R' & Hs & Hhealth). exists v, l, bss'.
  split; [rewrite view_lookup, HO; cbn; by rewrite Hk|]. split; [by apply view_insert; try apply Q|]. split; [done|].
  split; [eapply queue_rep_dequeued; try done; apply length_insert|]. split; [apply length_insert|]. split; [apply Hs|done].
Qed.

Lemma took_view throws q qs bss O r q' qs' :
  queue_rep q qs bss O -> took throws q qs r q' qs' ->
  exists o v l bss', view O qs !! o = Some (v :: l) /\ view O qs' = <[o := l]> (view O qs) /\
    r = (if throws then AssignThrew else Dequeued v) /\ queue_rep q' qs' bss' O /\ length qs' = length qs /\
    statuses q' = statuses q /\ (healthy q -> healthy q').
Proof.
  intros Q (k & Hk). pose proof Hk as (v & l & _ & Hl & _). destruct (nu_onto _ _ (qr_numbering _ _ _ _ Q) k) as (o & Ho); [by eapply lookup_lt_Some|].
  exists o. by eapply took_at_view.
Qed.

Lemma all_empty_view O qs : Forall (fun l => l = []) qs -> forall o l, view O qs !! o = Some l -> l = [].
Proof.
  intros Hall o l. rewrite view_lookup. destruct (O !! o) as [k|]; [|done]. cbn. intros [= <-].
  destruct (qs !! k) as [l|] eqn:Hk; [|done]. by eapply Forall_lookup in Hall.
Qed.

Lemma dequeued_took (P : Owner -> Prop) throws s o v l :
  P o -> s !! o = Some (v :: l) -> dequeued_in P s throws (if throws then AssignThrew else Dequeued v) (<[o := l]> s).
Proof. destruct throws; eauto using dequeued_in. Qed.

(** Elements leave the lists of their owners. *)
Lemma takes_app P s vs s1 vs' s2 : takes P s vs s1 -> takes P s1 vs' s2 -> takes P s (vs ++ vs') s2.
Proof. induction 1; intros; [done|]. cbn. econstructor; eauto. Qed.

Lemma takes_front (P : Owner -> Prop) o l1 : P o -> forall s l2, s !! o = Some (l1 ++ l2) -> takes P s l1 (<[o := l2]> s).
Proof.
  intros HP. induction l1 as [|v l1 IH]; intros s l2 Ho; cbn in Ho; [rewrite fin_maps.insert_id by done; constructor|].
  econstructor; [done|exact Ho|]. rewrite <- (insert_insert_eq s o l2 (l1 ++ l2)). apply IH, lookup_insert_eq.
Qed.

Lemma takes_drains O qs vs qs' : numbering O (length qs) -> drains qs vs qs' -> takes anyone (view O qs) vs (view O qs').
Proof.
  intros Hnu D. induction D as [|qs k l1 l2 vs qs' Hk _ IH]; [constructor|]. rewrite length_insert in IH.
  destruct (nu_onto _ _ Hnu k) as (o & Ho); [by eapply lookup_lt_Some|]. eapply takes_app; [|by apply IH].
  rewrite (view_insert O qs o k l2) by done. apply (takes_front anyone); [done|]. rewrite view_lookup, Ho. cbn. by rewrite Hk.
Qed.

Lemma takes_bound P s vs s' c :
  takes P s vs s' -> (forall o l, s !! o = Some l -> (length l <= c)%nat) -> forall o l, s' !! o = Some l -> (length l <= c)%nat.
Proof.
  induction 1 as [|s o v l vs s' _ Ho _ IH]; [done|]. intros Hc. apply IH. intros o' l'. rewrite lookup_insert. case_decide; [|apply Hc].
  intros [= <-]. specialize (Hc _ _ Ho). cbn in Hc. lia.
Qed.

Lemma drained_view q qs bss O vs q' qs' :
  queue_rep q qs bss O -> drained q qs vs q' qs' ->
  takes anyone (view O qs) vs (view O qs') /\ (exists bss', queue_rep q' qs' bss' O) /\ length qs' = length qs /\
  statuses q' = statuses q /\ (healthy q -> healthy q').
Proof.
  intros Q (D & (bss' & R') & Hs & Hh). pose proof (drains_length _ _ _ D) as El. split; [by apply takes_drains; try apply Q|].
  split; [exists bss'; by eapply queue_rep_dequeued|]. split; [done|]. split; [apply Hs|done].
Qed.

(** ** The invariant of runs *)

Lemma slots_snoc slots (x : TokenSlot) t k : (slots ++ [x]) !! t = Some (Held k) -> slots !! t = Some (Held k) \/ (t = length slots /\ x = Held k).
Proof.
  intros [Ht|[Hle Ht]]%lookup_app_Some; [by left|]. apply list_lookup_singleton_Some in Ht as [? <-]. right. split; [lia|done].
Qed.

(** [b] bounds the producers and [c] the sub-queues; tokens hold active producers that
    know them, and a producer knows no other token. *)
Record run_inv (n b c : nat) (st : QState) qs bss O : Prop := mk_run_inv {
  ri_queue : queue_rep (st_queue st) qs bss O;
  ri_count : length (st_consumers st) = n;
  ri_tokens : Forall (token_ok (length qs)) (st_consumers st);
  ri_active : forall t k, st_slots st !! t = Some (Held k) -> statuses (st_queue st) !! k = Some (true, false, Some t);
  ri_known : forall t k e a, statuses (st_queue st) !! k = Some (e, a, Some t) -> st_slots st !! t = Some (Held k);
  ri_producers : (length qs <= b)%nat;
  ri_lengths : forall o l, view O qs !! o = Some l -> (length l <= c)%nat }.

Lemma ri_owner n b c st qs bss O t k : run_inv n b c st qs bss O -> st_slots st !! t = Some (Held k) -> O !! Explicit k = Some k.
Proof. intros I Ht. apply (qr_kinds _ _ _ _ (ri_queue _ _ _ _ _ _ _ I) _ _ _ _ (ri_active _ _ _ _ _ _ _ I _ _ Ht)). Qed.

Lemma token_ok_mono len len' tokens : (len <= len')%nat -> Forall (token_ok len) tokens -> Forall (token_ok len') tokens.
Proof.
  intros Hle Hf. eapply Forall_impl; [exact Hf|]. intros t [Hd|(d & c & Hd & Hc & Hdl & Hcl)]; [by left|]. right. exists d, c. do 2 (split; [done|]). lia.
Qed.

(** At most one sub-queue grows. *)
Lemma insert_length s (o : Owner) l0 c d :
  (forall i l, s !! i = Some l -> (length l <= c)%nat) -> (length l0 <= c + d)%nat -> forall i l, <[o := l0]> s !! i = Some l -> (length l <= c + d)%nat.
Proof.
  intros Hc Hl0 i l. rewrite lookup_insert. case_decide; [by intros [= <-]|]. intros Hl. specialize (Hc _ _ Hl). lia.
Qed.

Lemma fifo_of_length s (o : Owner) c : (forall i l, s !! i = Some l -> (length l <= c)%nat) -> (length (fifo_of s o) <= c)%nat.
Proof. intros Hc. unfold fifo_of. destruct (s !! o) eqn:E; cbn; [by eapply Hc|lia]. Qed.

Lemma enqueues_length s o items r s' c :
  enqueues s o items r s' -> (forall i l, s !! i = Some l -> (length l <= c)%nat) -> forall i l, s' !! i = Some l -> (length l <= c + length items)%nat.
Proof.
  intros He Hc. pose proof (fifo_of_length s o c Hc) as Hf. destruct r; cbn in He.
  - destruct He as (vs & -> & ->). apply insert_length; [done|]. rewrite length_app, length_fmap. lia.
  - destruct He as [[-> _]| ->]; [intros i l Hl; specialize (Hc _ _ Hl); lia|apply insert_length; [done|lia]].
  - destruct He as [_ ->]. apply insert_length; [done|lia].
Qed.

Lemma view_lengths O qs c : numbering O (length qs) -> (forall o l, view O qs !! o = Some l -> (length l <= c)%nat) ->
  Forall (fun l => (length l <= c)%nat) qs.
Proof.
  intros Hnu Hc. apply Forall_lookup. intros k l Hk. destruct (nu_onto _ _ Hnu k) as (o & Ho); [by eapply lookup_lt_Some|].
  apply (Hc o). rewrite view_lookup, Ho. cbn. by rewrite Hk.
Qed.

Lemma run_inv_roomy n b c st qs bss O d :
  run_inv n b c st qs bss O -> Z.of_nat c + Z.of_nat d + 32 < 9223372036854775808 -> roomy d qs.
Proof.
  intros I Hb. eapply Forall_impl; [apply (view_lengths _ _ _ (qr_numbering _ _ _ _ (ri_queue _ _ _ _ _ _ _ I)) (ri_lengths _ _ _ _ _ _ _ I))|].
  cbn. lia.
Qed.

(** A step that keeps the status of the producers tokens hold. *)
Lemma run_inv_keep n b c q tokens slots qs bss O q' tokens' qs' bss' O' c' :
  run_inv n b c (mkQState q tokens slots) qs bss O -> queue_rep q' qs' bss' O' -> length tokens' = n -> Forall (token_ok (length qs')) tokens' ->
  (exists new, statuses q' = statuses q ++ new /\ Forall (fun x => x.2 = None) new) -> (length qs' <= S b)%nat ->
  (forall o l, view O' qs' !! o = Some l -> (length l <= c')%nat) -> run_inv n (S b) c' (mkQState q' tokens' slots) qs' bss' O'.
Proof.
  intros [Q Hn Ht Ha Hx Hp Hl] Q' Hn' Ht' (new & Es & Hnew) Hp' Hl'. constructor; cbn in *; try done.
  - intros t k Hk. rewrite Es. by apply lookup_app_l_Some, Ha.
  - intros t k e a. rewrite Es. intros [Hk|[_ Hk]]%lookup_app_Some; [by eapply Hx|]. eapply Forall_lookup in Hnew; [|exact Hk]. done.
Qed.

Lemma same_statuses q q' : statuses q' = statuses q -> exists new, statuses q' = statuses q ++ new /\ Forall (fun x => x.2 = None) new.
Proof. intros ->. exists []. by rewrite app_nil_r. Qed.


Lemma run_inv_S n b c d st qs bss O : run_inv n b c st qs bss O -> run_inv n (S b) (c + d) st qs bss O.
Proof. intros [Q Hn Ht Ha Hx Hp Hl]. constructor; try done; [lia|]. intros o l Ho. specialize (Hl _ _ Ho). lia. Qed.

(** ** Dequeues *)

(** What a dequeue leaves that behaves as [D] says of the lists before and after. *)
Definition run_dequeued (D : gmap Owner (list T) -> gmap Owner (list T) -> Prop) (n b c : nat) q slots qs O q' tokens' : Prop :=
  exists qs' bss', D (view O qs) (view O qs') /\ run_inv n (S b) c (mkQState q' tokens' slots) qs' bss' O /\ (healthy q -> healthy q').

(** Taking elements keeps the invariant. *)
Lemma run_takes P (D : gmap Owner (list T) -> gmap Owner (list T) -> Prop) n b c q tokens tokens' slots qs bss O vs qs' bss' q' :
  run_inv n b c (mkQState q tokens slots) qs bss O -> length tokens' = n -> Forall (token_ok (length qs)) tokens' ->
  takes P (view O qs) vs (view O qs') -> queue_rep q' qs' bss' O -> length qs' = length qs -> statuses q' = statuses q -> (healthy q -> healthy q') ->
  D (view O qs) (view O qs') -> run_dequeued D n b c q slots qs O q' tokens'.
Proof.
  intros I Hn' Ht' Hv Q' El Es Hh HD. exists qs', bss'. split; [done|]. split; [|done].
  pose proof I as [Q Hn Ht Ha Hx Hp Hl]. cbn in *. eapply run_inv_keep; [exact I|done|done|by rewrite El|by apply same_statuses|lia|].
  by eapply takes_bound.
Qed.

Lemma run_nothing P n b c q tokens tokens' slots qs bss O throws :
  run_inv n b c (mkQState q tokens slots) qs bss O -> length tokens' = n -> Forall (token_ok (length qs)) tokens' ->
  (forall o l, P o -> view O qs !! o = Some l -> l = []) ->
  run_dequeued (fun s s' => dequeued_in P s throws Nothing s') n b c q slots qs O q tokens'.
Proof.
  intros I Hn' Ht' Hall. eapply (run_takes anyone _ _ _ _ _ _ _ _ _ _ _ [] qs bss); [exact I|done|done|constructor|apply I|done|done|done|by constructor].
Qed.

Lemma run_took (P : Owner -> Prop) n b c q tokens tokens' slots qs bss O throws o v l qs' bss' q' :
  run_inv n b c (mkQState q tokens slots) qs bss O -> length tokens' = n -> Forall (token_ok (length qs)) tokens' -> P o ->
  view O qs !! o = Some (v :: l) -> view O qs' = <[o := l]> (view O qs) -> queue_rep q' qs' bss' O -> length qs' = length qs ->
  statuses q' = statuses q -> (healthy q -> healthy q') ->
  run_dequeued (fun s s' => dequeued_in P s throws (if throws then AssignThrew else Dequeued v) s') n b c q slots qs O q' tokens'.
Proof.
  intros I Hn' Ht' HP Hv Ev Q' El Es Hh. eapply (run_takes P _ _ _ _ _ _ _ _ _ _ _ [v]); try done.
  - econstructor; [done|exact Hv|]. rewrite Ev. constructor.
  - rewrite Ev. by apply dequeued_took.
Qed.

(** A dequeue from any producer. *)
Lemma run_dequeue n b c q tokens tokens' slots qs bss O throws r q' :
  run_inv n b c (mkQState q tokens slots) qs bss O -> length tokens' = n -> Forall (token_ok (length qs)) tokens' ->
  ((exists qs', took throws q qs r q' qs') \/ (r = Nothing /\ q' = q /\ Forall (fun l => l = []) qs)) ->
  run_dequeued (fun s s' => dequeued_in anyone s throws r s') n b c q slots qs O q' tokens'.
Proof.
  intros I Hn' Ht' [(qs' & Hk)|(-> & -> & Hall)].
  - destruct (took_view _ _ _ _ _ _ _ _ (ri_queue _ _ _ _ _ _ _ I) Hk) as (o & v & l & bss' & Hv & Ev & -> & Q' & El & Es & Hh). by eapply run_took.
  - eapply run_nothing; try done. intros o l _. by apply all_empty_view.
Qed.

Lemma dequeues_cases throws q qs o : dequeues throws q qs o ->
  exists r q', o = Ret (r, q') /\ ((exists qs', took throws q qs r q' qs') \/ (r = Nothing /\ q' = q /\ Forall (fun l => l = []) qs)).
Proof. intros [(r & q' & qs' & -> & Ht)|[-> Hall]]; eexists _, _; (split; [done|]); [left; by eexists|by right]. Qed.

(** A dequeue from the producer of a token. *)
Lemma run_dequeue_from n b c q tokens slots qs bss O throws t k :
  run_inv n b c (mkQState q tokens slots) qs bss O -> slots !! t = Some (Held k) ->
  exists r q', try_dequeue_from_producer throws q k = Ret (r, q') /\
    run_dequeued (fun s s' => dequeued_in (eq (Explicit k)) s throws r s') n b c q slots qs O q' tokens.
Proof.
  intros I Ht. pose proof (ri_owner _ _ _ _ _ _ _ _ _ I Ht) as HO. pose proof I as [Q Hn Htk _ _ _ _]. cbn in *.
  rewrite (from_producer_dequeue throws q qs bss O k Q HO).
  pose proof (nu_range _ _ (qr_numbering _ _ _ _ Q) _ _ HO) as Hlt. destruct (lookup_lt_is_Some_2 qs k Hlt) as [[|v l] Hl].
  - rewrite (dequeue_from_empty _ _ _ _ _ (qr_list _ _ _ _ Q) Hl). eexists _, _. split; [done|]. eapply run_nothing; try done.
    intros o l <-. rewrite view_lookup, HO. cbn. rewrite Hl. by intros [= <-].
  - destruct (dequeue_from_spec throws q qs bss k v l (qr_list _ _ _ _ Q) Hl) as (r & q' & qs' & -> & Hk). eexists _, _. split; [done|].
    destruct (took_at_view _ _ _ _ _ _ _ _ _ _ Q HO Hk) as (v' & l' & bss' & Hv & Ev & -> & Q' & El & Es & Hh). by eapply run_took.
Qed.

(** A bulk dequeue from any producer. *)
Lemma run_bulk n b c q tokens tokens' slots qs bss O throws max l threw q' :
  run_inv n b c (mkQState q tokens slots) qs bss O -> length tokens' = n -> Forall (token_ok (length qs)) tokens' ->
  bulk_gives throws q qs [] max all_empty l threw q' ->
  run_dequeued (fun s s' => bulk_dequeued anyone s throws max l threw s') n b c q slots qs O q' tokens'.
Proof.
  intros I Hn' Ht' (vs & qs' & -> & -> & D & Hle & Hall).
  destruct (drained_view _ _ _ _ _ _ _ (ri_queue _ _ _ _ _ _ _ I) D) as (Hv & (bss' & Q') & El & Es & Hh).
  eapply (run_takes anyone); try done. exists vs. split; [done|]. split; [done|]. split; [done|]. split; [done|].
  intros H1 H2 o l0 _. apply all_empty_view. by apply Hall.
Qed.

(** A bulk dequeue from the producer of a token. *)
Lemma run_bulk_from n b c q tokens slots qs bss O throws max t k :
  run_inv n b c (mkQState q tokens slots) qs bss O -> slots !! t = Some (Held k) -> is_u64 max ->
  exists l threw q', try_dequeue_bulk_from_producer throws q k max = Ret (l, threw, q') /\
    run_dequeued (fun s s' => bulk_dequeued (eq (Explicit k)) s throws max l threw s') n b c q slots qs O q' tokens.
Proof.
  intros I Ht Hm. pose proof (ri_owner _ _ _ _ _ _ _ _ _ I Ht) as HO. pose proof I as [Q Hn Htk _ _ _ _]. cbn in *.
  assert (try_dequeue_bulk_from_producer throws q k max = dequeue_bulk_from throws q k max) as ->.
  { destruct (owner_kind _ _ _ _ _ _ Q HO) as (nd & Hnd & Kn). unfold try_dequeue_bulk_from_producer, dequeue_bulk_from.
    rewrite (node_at_Ret _ _ _ Hnd), !ret_bind. destruct (node_producer nd) as [p|p]; [done|]. cbn [any_dequeue_bulk].
    by destruct (explicit_dequeue_bulk throws (cq_heap q) p max) as [[[[? ?] ?] ?]|]. }
  destruct (lookup_lt_is_Some_2 qs k (nu_range _ _ (qr_numbering _ _ _ _ Q) _ _ HO)) as [l Hl].
  destruct (dequeue_bulk_from_spec throws q qs bss k l max (qr_list _ _ _ _ Q) Hl Hm) as (m & q' & Em & -> & D). unfold is_u64 in Hm.
  destruct (drained_view _ _ _ _ _ _ _ Q D) as (_ & (bss' & Q') & El & Es & Hh). eexists _, _, _. split; [done|].
  assert (takes (eq (Explicit k)) (view O qs) (take m l) (view O (<[k := drop m l]> qs))) as Hv.
  { rewrite (view_insert O qs (Explicit k) k (drop m l)) by (apply Q || done). apply takes_front; [done|].
    rewrite view_lookup, HO. cbn. by rewrite Hl, take_drop. }
  eapply run_takes; try done. exists (take m l). split; [done|]. split; [done|]. split; [done|]. rewrite length_take. split; [lia|].
  intros _ Hlt o l' <-. rewrite (view_insert O qs (Explicit k) k (drop m l)), lookup_insert_eq by (apply Q || done). intros [= <-]. apply drop_ge. lia.
Qed.

Lemma concat_perm (qs qs' : list (list T)) : qs ≡ₚ qs' -> concat qs ≡ₚ concat qs'.
Proof.
  induction 1 as [|l qs qs' _ IH|l l' qs|? ? ? _ IH1 _ IH2]; cbn; [done|by rewrite IH| |by etrans].
  rewrite !app_assoc. apply Permutation_app_tail, Permutation_app_comm.
Qed.

(** ** Every operation *)

(** What a step must show. *)
Definition step_ok (n b c : nat) (st : QState) qs O (op : QOp) : Prop :=
  exists a st' qs' bss' O', qop_step st op = Ret (a, st') /\ qstep (view O qs, st_slots st) op a (view O' qs', st_slots st') /\
    run_inv n (S b) (c + qop_size op) st' qs' bss' O' /\ (healthy (st_queue st) -> healthy (st_queue st') /\ (may_allocate op -> ~ refused a)).

(** There is room for what the operation adds. *)
Definition fits_in (b c : nat) (op : QOp) : Prop :=
  Z.of_nat b + 1 < UINT_MOD /\ Z.of_nat c + Z.of_nat (qop_size op) + 32 < 9223372036854775808.

(** An enqueue without a token. *)
Lemma step_thread n b c q tokens slots qs bss O op m items f id :
  run_inv n b c (mkQState q tokens slots) qs bss O -> implicit_appends m items f -> id <> invalid_thread_id -> fits_in b c op -> length items = qop_size op ->
  qop_step (mkQState q tokens slots) op = ('(r, q) ← thread_step f q id; Ret (QEnqueued r, mkQState q tokens slots)) ->
  (forall r s', enqueues (view O qs) (Thread id) items r s' -> qstep (view O qs, slots) op (QEnqueued r) (s', slots)) ->
  (may_allocate op -> m = CanAlloc) -> step_ok n b c (mkQState q tokens slots) qs O op.
Proof.
  intros I Hf Hid [Hb Hc] Ei E Hq Hm. pose proof I as [Q Hn Ht _ _ Hp Hl]. cbn in Q, Hn, Ht. rewrite <- Ei in Hc.
  destruct (thread_step_spec m items f q qs bss O id Hf Q Hid) as (r & q' & qs' & bss' & O' & E' & Q' & He & Hlen & Es & Hh); [lia|lia|].
  eexists _, _, qs', bss', O'. rewrite E, E', ret_bind. split; [done|]. split; [by apply Hq|]. split.
  - eapply run_inv_keep; [exact I|done|done| |done|lia|rewrite <- Ei; by eapply enqueues_length].
    eapply token_ok_mono; [|exact Ht]. lia.
  - intros H. destruct (Hh H) as [H1 H2]. split; [done|]. intros Ha [E1|E1]; [|done]. injection E1 as ->.
    apply H2; [by apply Hm|by eapply run_inv_roomy|done].
Qed.

(** An enqueue with a token. *)
Lemma step_token n b c q tokens slots qs bss O op m items f k :
  run_inv n b c (mkQState q tokens slots) qs bss O -> explicit_appends m items (cq_heap q) f -> O !! Explicit k = Some k -> fits_in b c op -> length items = qop_size op ->
  qop_step (mkQState q tokens slots) op = ('(r, q) ← token_step f q k; Ret (QEnqueued r, mkQState q tokens slots)) ->
  (forall r s', enqueues (view O qs) (Explicit k) items r s' -> qstep (view O qs, slots) op (QEnqueued r) (s', slots)) ->
  (may_allocate op -> m = CanAlloc) -> step_ok n b c (mkQState q tokens slots) qs O op.
Proof.
  intros I Hf Hk [Hb Hc] Ei E Hq Hm. pose proof I as [Q Hn Ht _ _ Hp Hl]. cbn in Q, Hn, Ht. rewrite <- Ei in Hc.
  destruct (token_step_spec m items f q qs bss O k Hf Q Hk (run_inv_roomy _ _ _ _ _ _ _ _ I Hc)) as (r & q' & E' & qs' & bss' & Q' & _ & He & Hlen & Es & Hh).
  eexists _, _, qs', bss', O. rewrite E, E', ret_bind. split; [done|]. split; [by apply Hq|]. split.
  - eapply run_inv_keep; [exact I|done|done|by rewrite Hlen|by apply same_statuses|lia|rewrite <- Ei; by eapply enqueues_length].
  - intros H. destruct (Hh H) as [H1 H2]. split; [done|]. intros Ha [E1|E1]; [|done]. injection E1 as ->.
    apply H2; [by apply Hm|by eapply run_inv_roomy|done].
Qed.

(** A dequeue, of one element or many. *)
Lemma step_dequeued D n b c q tokens slots qs O op a q' tokens' :
  run_dequeued D n b c q slots qs O q' tokens' -> qop_step (mkQState q tokens slots) op = Ret (a, mkQState q' tokens' slots) ->
  (forall s', D (view O qs) s' -> qstep (view O qs, slots) op a (s', slots)) -> qop_size op = 0%nat -> ~ refused a ->
  step_ok n b c (mkQState q tokens slots) qs O op.
Proof.
  intros (qs' & bss' & Hd & I & Hh) E Hq E0 Ha. eexists _, _, qs', bss', O. split; [exact E|]. split; [by apply Hq|].
  rewrite E0, Nat.add_0_r. split; [done|]. intros H. split; [by apply Hh|done].
Qed.

Lemma not_refused_dequeued r : ~ refused (QDequeued r).
Proof. by intros [?|?]. Qed.

Lemma not_refused_bulk l threw : ~ refused (QDequeuedBulk l threw).
Proof. by intros [?|?]. Qed.

Lemma step_dequeue n b c q tokens slots qs bss O way throws :
  run_inv n b c (mkQState q tokens slots) qs bss O -> match way with WithToken k => (k < n)%nat | _ => True end ->
  step_ok n b c (mkQState q tokens slots) qs O (QDequeue way throws).
Proof.
  intros I Hop. pose proof I as [Q Hn Ht _ _ _ _]. cbn in Q, Hn, Ht.
  assert (exists r q' tokens', qop_step (mkQState q tokens slots) (QDequeue way throws) = Ret (QDequeued r, mkQState q' tokens' slots) /\ length tokens' = n /\
    Forall (token_ok (length qs)) tokens' /\
    ((exists qs', took throws q qs r q' qs') \/ (r = Nothing /\ q' = q /\ Forall (fun l => l = []) qs))) as (r & q' & tokens' & E & Hn' & Ht' & Hr).
  { cbn [qop_step]. destruct way as [| |k].
    - destruct (dequeues_cases _ _ _ _ (queue_try_dequeue_spec throws q qs bss (qr_list _ _ _ _ Q))) as (r & q' & -> & Hr). by eexists r, q', tokens.
    - destruct (dequeues_cases _ _ _ _ (try_dequeue_non_interleaved_spec throws q qs bss (qr_list _ _ _ _ Q))) as (r & q' & -> & Hr). by eexists r, q', tokens.
    - destruct (lookup_lt_is_Some_2 tokens k) as [tk Hk]; [lia|]. rewrite Hk. cbn [of_option]. rewrite ret_bind.
      destruct (try_dequeue_token_spec throws q qs bss tk (qr_list _ _ _ _ Q) (qr_count _ _ _ _ Q)) as (r & q' & tk' & -> & Htk & Hr).
      { by eapply Forall_lookup in Ht. }
      rewrite ret_bind. eexists r, q', _. split; [done|]. rewrite length_insert. split; [done|]. split; [by apply Forall_insert|done]. }
  eapply step_dequeued; [by eapply run_dequeue|exact E|by constructor|done|apply not_refused_dequeued].
Qed.

Lemma step_dequeue_bulk n b c q tokens slots qs bss O consumer throws max :
  run_inv n b c (mkQState q tokens slots) qs bss O -> (forall k, consumer = Some k -> (k < n)%nat) -> is_u64 max ->
  step_ok n b c (mkQState q tokens slots) qs O (QDequeueBulk consumer throws max).
Proof.
  intros I Hop Hm. pose proof I as [Q Hn Ht _ _ _ _]. cbn in Q, Hn, Ht.
  assert (exists l threw q' tokens', qop_step (mkQState q tokens slots) (QDequeueBulk consumer throws max) = Ret (QDequeuedBulk l threw, mkQState q' tokens' slots) /\
    length tokens' = n /\ Forall (token_ok (length qs)) tokens' /\ bulk_gives throws q qs [] max all_empty l threw q') as (l & threw & q' & tokens' & E & Hn' & Ht' & G).
  { cbn [qop_step]. destruct consumer as [k|].
    - destruct (lookup_lt_is_Some_2 tokens k) as [tk Hk]; [specialize (Hop k eq_refl); lia|]. rewrite Hk. cbn [of_option]. rewrite ret_bind.
      destruct (try_dequeue_bulk_token_spec throws q qs bss tk max (qr_list _ _ _ _ Q) (qr_count _ _ _ _ Q)) as (l & threw & q' & tk' & -> & G & Htk); [|done|].
      { by eapply Forall_lookup in Ht. }
      rewrite ret_bind. eexists l, threw, q', _. split; [done|]. rewrite length_insert. split; [done|]. split; [by apply Forall_insert|done].
    - destruct (queue_try_dequeue_bulk_spec throws q qs bss max (qr_list _ _ _ _ Q) Hm) as (l & threw & q' & -> & G). by eexists l, threw, q', tokens. }
  eapply step_dequeued; [by eapply run_bulk|exact E|by constructor|done|apply not_refused_bulk].
Qed.

Lemma step_new_token n b c q tokens slots qs bss O :
  run_inv n b c (mkQState q tokens slots) qs bss O -> Z.of_nat b + 1 < UINT_MOD -> step_ok n b c (mkQState q tokens slots) qs O QNewToken.
Proof.
  intros I Hb. pose proof I as [Q Hn Ht Ha Hx Hp Hl]. cbn in Q, Hn, Ht, Ha, Hx.
  destruct (ProducerToken_new_spec q qs bss O (length slots) Q ltac:(lia)) as (o & q' & E & Hh & Ho). unfold step_ok. cbn [qop_step qop_size]. rewrite E, ret_bind.
  destruct o as [k|].
  - destruct Ho as (qs' & bss' & O' & Q' & HO' & Ev & Hlen & Hfree & Hk & Hkeep).
    assert (forall t, slots !! t <> Some (Held k)) as Hno by (intros t Htk; by apply (Hfree (Some t)), (Ha t)).
    eexists _, _, qs', bss', O'. split; [done|]. cbn [st_slots st_queue]. rewrite Ev. split; [constructor; intros [t Htk]%list_elem_of_lookup; by apply (Hno t)|]. split.
    + constructor; cbn; [done|done|eapply token_ok_mono; [|exact Ht]; lia|..]; [| |lia|].
      * intros t k' [Htk|[-> [= <-]]]%slots_snoc; [|done]. rewrite Hkeep; [by apply Ha|intros ->; by apply (Hno t)].
      * intros t k' e a Hs. destruct (decide (k' = k)) as [->|Hne].
        -- rewrite Hk in Hs. injection Hs as _ _ <-. by rewrite lookup_app_r, Nat.sub_diag by lia.
        -- rewrite Hkeep in Hs by done. by apply lookup_app_l_Some, (Hx _ _ _ _ Hs).
      * rewrite Ev. apply insert_length; [done|]. pose proof (fifo_of_length _ (Explicit k) c Hl). lia.
    + intros H. split; [by apply Hh|]. intros _ [?|?]; done.
  - destruct Ho as [Q' Es]. eexists _, _, qs, bss, O. split; [done|]. cbn [st_slots st_queue]. split; [constructor|]. split.
    + apply run_inv_S. constructor; cbn; try done.
      * intros t k' [Htk|[_ ?]]%slots_snoc; [|done]. rewrite Es. by eapply Ha.
      * intros t k' e a. rewrite Es. intros Hs. by apply lookup_app_l_Some, (Hx _ _ _ _ Hs).
    + intros H. destruct (Hh H) as [_ [? ?]]. done.
Qed.

(** An operation on tokens that keeps the sub-queues. *)
Lemma step_tokens n b c q tokens slots qs bss O op q' slots' :
  run_inv n b c (mkQState q tokens slots) qs bss O -> qop_step (mkQState q tokens slots) op = Ret (QDone, mkQState q' tokens slots') ->
  qstep (view O qs, slots) op QDone (view O qs, slots') -> qop_size op = 0%nat -> queue_rep q' qs bss O -> (healthy q -> healthy q') ->
  (forall t k, slots' !! t = Some (Held k) -> statuses q' !! k = Some (true, false, Some t)) ->
  (forall t k e a, statuses q' !! k = Some (e, a, Some t) -> slots' !! t = Some (Held k)) ->
  step_ok n b c (mkQState q tokens slots) qs O op.
Proof.
  intros I E Hq E0 Q' Hh Ha Hx. eexists _, _, qs, bss, O. split; [exact E|]. split; [done|]. rewrite E0. split.
  - apply run_inv_S. destruct I as [Q Hn Ht _ _ Hp Hl]. by constructor.
  - intros H. split; [by apply Hh|]. intros _ [?|?]; done.
Qed.

(** What the producer of a token is known to be. *)
Lemma held_known n b c q tokens slots qs bss O t x :
  run_inv n b c (mkQState q tokens slots) qs bss O -> slots !! t = Some x ->
  forall p k, token_producer x = Some p -> p = Some k -> O !! Explicit k = Some k /\ exists t0, statuses q !! k = Some (true, false, t0).
Proof.
  intros I Hs p k Hx ->. destruct x; try done. injection Hx as <-. split; [by eapply (ri_owner _ _ _ _ _ _ _ t)|]. exists (Some t). by apply (ri_active _ _ _ _ _ _ _ I).
Qed.

Lemma step_destroy_token n b c q tokens slots qs bss O t x :
  run_inv n b c (mkQState q tokens slots) qs bss O -> slots !! t = Some x -> x <> Gone -> step_ok n b c (mkQState q tokens slots) qs O (QDestroyToken t).
Proof.
  intros I Hs Hx. pose proof I as [Q _ _ Ha Hk _ _]. cbn in Q, Ha, Hk. pose proof (lookup_lt_Some _ _ _ Hs) as Hlt.
  destruct x as [k| |]; [| |done].
  - destruct (ProducerToken_destroy_spec q qs bss O k Q (ri_owner _ _ _ _ _ _ _ _ _ I Hs)) as (q' & E & Q' & Hh & Es). pose proof (Ha t k Hs) as Hst.
    eapply (step_tokens _ _ _ _ _ _ _ _ _ _ q' (<[t := Gone]> slots)); try done; [cbn [qop_step]; by rewrite Hs, E|by econstructor|..]; rewrite Es.
    + intros t' k' [(_ & ? & _)|(Hne & Hk')]%list_lookup_insert_Some; [done|]. pose proof (Ha _ _ Hk') as Hst'. rewrite list_lookup_insert_ne; [done|congruence].
    + intros t' k' e a [(_ & ? & _)|(Hne & Hk')]%list_lookup_insert_Some; [done|]. pose proof (Hk _ _ _ _ Hk') as Ht'. rewrite list_lookup_insert_ne; [done|congruence].
  - eapply (step_tokens _ _ _ _ _ _ _ _ _ _ q (<[t := Gone]> slots)); try done; [cbn [qop_step]; by rewrite Hs|by econstructor|..].
    + intros t' k' [(_ & ? & _)|(Hne & Hk')]%list_lookup_insert_Some; [done|auto].
    + intros t' k' e a Hk'. pose proof (Hk _ _ _ _ Hk') as Ht'. rewrite list_lookup_insert_ne; [done|congruence].
Qed.

Lemma step_move_token n b c q tokens slots qs bss O t x :
  run_inv n b c (mkQState q tokens slots) qs bss O -> slots !! t = Some x -> x <> Gone -> step_ok n b c (mkQState q tokens slots) qs O (QMoveToken t).
Proof.
  intros I Hs Hx. pose proof I as [Q _ _ Ha Hk _ _]. cbn in Q, Ha, Hk. pose proof (lookup_lt_Some _ _ _ Hs) as Hlt.
  assert (exists p, token_producer x = Some p /\ slot_of p = x) as (p & Ep & Ex) by (destruct x; [by eexists..|done]).
  destruct (set_tokens_spec q qs bss O p (length slots) Q) as (q' & E & Q' & Hh & Es); [intros k; by eapply held_known|].
  eapply (step_tokens _ _ _ _ _ _ _ _ _ _ q' (<[t := Invalid]> slots ++ [x])); try done.
  - cbn [qop_step]. rewrite Hs. cbn [mbind option_bind]. rewrite Ep. unfold ProducerToken_move. rewrite E, !ret_bind. cbn [slot_of]. by rewrite Ex.
  - by constructor.
  - intros t' k' [Hin|[-> ->]]%slots_snoc; rewrite Es.
    + apply list_lookup_insert_Some in Hin as [(_ & ? & _)|(Hne & Hin)]; [done|]. pose proof (Ha _ _ Hin) as Hst. destruct p as [k|]; [|done].
      cbn [known_by slot_of] in *. subst x. pose proof (Ha _ _ Hs). rewrite list_lookup_insert_ne; [done|congruence].
    + destruct p as [k|]; [|done]. cbn [known_by slot_of] in *. injection Ex as ->. rewrite length_insert. apply list_lookup_insert_eq. eapply lookup_lt_Some, Ha, Hs.
  - intros t' k' e a Hst. rewrite Es in Hst. assert (slots !! t' = Some (Held k') /\ t' <> t \/ t' = length slots /\ p = Some k') as [[Hin Hne]|[-> ->]].
    { destruct p as [k|]; cbn [known_by slot_of] in *.
      - apply list_lookup_insert_Some in Hst as [(-> & Eq & _)|(Hne & Hst)]; [injection Eq as _ _ ->; by right|]. left. pose proof (Hk _ _ _ _ Hst). split; [done|congruence].
      - left. pose proof (Hk _ _ _ _ Hst). split; [done|congruence]. }
    + apply lookup_app_l_Some. by rewrite list_lookup_insert_ne.
    + rewrite lookup_app_r, length_insert, Nat.sub_diag by (rewrite length_insert; lia). cbn. by rewrite <- Ex.
Qed.

(** Swapping, the tokens being [slot_of p] and [slot_of p']. *)
Lemma step_swap_tokens n b c q tokens slots qs bss O t t' p p' :
  run_inv n b c (mkQState q tokens slots) qs bss O -> slots !! t = Some (slot_of p) -> slots !! t' = Some (slot_of p') ->
  step_ok n b c (mkQState q tokens slots) qs O (QSwapTokens t t').
Proof.
  intros I Hs Hs'. pose proof I as [Q _ _ Ha Hk _ _]. cbn in Q, Ha, Hk. pose proof (lookup_lt_Some _ _ _ Hs) as Hlt. pose proof (lookup_lt_Some _ _ _ Hs') as Hlt'.
  assert (forall o, token_producer (slot_of o) = Some o) as Etp by (by intros []).
  assert (forall k, p = Some k -> statuses q !! k = Some (true, false, Some t)) as Hp by (intros k ->; by apply Ha).
  assert (forall k, p' = Some k -> statuses q !! k = Some (true, false, Some t')) as Hp' by (intros k ->; by apply Ha).
  destruct (set_tokens_spec q qs bss O p' t Q) as (q1 & E1 & Q1 & Hh1 & Es1); [intros k; eapply held_known; [exact I|exact Hs'|by rewrite Etp]|].
  destruct (set_tokens_spec q1 qs bss O p t' Q1) as (q2 & E2 & Q2 & Hh2 & Es2).
  { intros k Ek. split; [eapply held_known; [exact I|exact Hs|by rewrite Etp|exact Ek]|]. rewrite Es1. specialize (Hp k Ek). destruct p' as [k'|]; cbn; [|eauto].
    rewrite list_lookup_insert. case_decide; eauto. }
  rewrite Es1 in Es2.
  assert (forall k y, statuses q2 !! k = Some y <-> (p = Some k /\ y = (true, false, Some t')) \/ (p <> Some k /\ p' = Some k /\ y = (true, false, Some t)) \/
    (p <> Some k /\ p' <> Some k /\ statuses q !! k = Some y)) as Hst.
  { intros k y. rewrite Es2. destruct p as [j|], p' as [j'|]; cbn [known_by]; rewrite ?list_lookup_insert_Some, ?length_insert;
      try pose proof (lookup_lt_Some _ _ _ (Hp _ eq_refl)); try pose proof (lookup_lt_Some _ _ _ (Hp' _ eq_refl)); naive_solver. }
  assert (forall j x, <[t' := slot_of p]> (<[t := slot_of p']> slots) !! j = Some x <-> (j = t' /\ x = slot_of p) \/ (j <> t' /\ j = t /\ x = slot_of p') \/
    (j <> t' /\ j <> t /\ slots !! j = Some x)) as Hsl.
  { intros j x. rewrite !list_lookup_insert_Some, length_insert. naive_solver. }
  assert (forall o k, slot_of o = Held k <-> o = Some k) as Ho by (intros [] k; cbn; naive_solver).
  eapply (step_tokens _ _ _ _ _ _ _ _ _ _ q2 (<[t' := slot_of p]> (<[t := slot_of p']> slots))); [exact I| | |done|done|auto|..].
  - cbn [qop_step]. rewrite Hs, Hs'. cbn [mbind option_bind]. rewrite !Etp. unfold ProducerToken_swap. by rewrite E1, ret_bind, E2, !ret_bind.
  - constructor; [done|by destruct p|done|by destruct p'].
  - intros j k. rewrite Hsl, Hst. intros [(-> & Ex)|[(Hne & -> & Ex)|(Hne & Hne' & Hin)]].
    + left. split; [by apply Ho|done].
    + symmetry in Ex. apply Ho in Ex. right. left. split; [|done]. intros Ep. specialize (Hp k Ep). specialize (Hp' k Ex). congruence.
    + right. right. pose proof (Ha _ _ Hin). split; [intros Ep; specialize (Hp k Ep); congruence|]. split; [intros Ep; specialize (Hp' k Ep); congruence|done].
  - intros j k e a. rewrite Hsl, Hst. intros [(Ep & [= _ _ ->])|[(Hne & Ep & [= _ _ ->])|(Hne & Hne' & Hin)]].
    + left. split; [done|]. symmetry. by apply Ho.
    + right. left. split; [|split; [done|symmetry; by apply Ho]]. intros ->. rewrite Hs in Hs'. injection Hs' as Hs'. apply Hne, Ho. rewrite Hs'. by apply Ho.
    + right. right. pose proof (Hk _ _ _ _ Hin) as Hj. split; [intros ->; rewrite Hs' in Hj; injection Hj as Hj; by apply Hne', Ho|].
      split; [intros ->; rewrite Hs in Hj; injection Hj as Hj; by apply Hne, Ho|done].
Qed.

(** Consumer tokens may be moved and swapped. *)
Lemma step_consumers n b c q tokens slots qs bss O op tokens' :
  run_inv n b c (mkQState q tokens slots) qs bss O -> qop_step (mkQState q tokens slots) op = Ret (QDone, mkQState q tokens' slots) ->
  qstep (view O qs, slots) op QDone (view O qs, slots) -> qop_size op = 0%nat -> length tokens' = n -> Forall (token_ok (length qs)) tokens' ->
  step_ok n b c (mkQState q tokens slots) qs O op.
Proof.
  intros I E Hq E0 Hn' Ht'. eexists _, _, qs, bss, O. split; [exact E|]. split; [done|]. rewrite E0. split.
  - apply run_inv_S. destruct I as [Q Hn Ht Ha Hx Hp Hl]. by constructor.
  - intros H. split; [done|]. intros _ [?|?]; done.
Qed.

(** A token that is not there. *)
Lemma step_no_token n b c q tokens slots qs bss O op t :
  run_inv n b c (mkQState q tokens slots) qs bss O -> no_token slots op t -> step_ok n b c (mkQState q tokens slots) qs O op.
Proof.
  intros I Hno. exists QNoToken, (mkQState q tokens slots), qs, bss, O. split; [|split; [by eapply qs_no_token|split]].
  - destruct Hno as [Eop Ht]. destruct op as [| | | | | | | | | | | |t1 t2| |]; cbn [tokens_of producer_of] in Eop, Ht; try (by apply elem_of_nil in Eop);
      try (apply list_elem_of_singleton in Eop as ->; cbn [qop_step]; destruct Ht as [-> |[-> |[-> ?]]]; done).
    assert (slots !! t ≫= token_producer = None) as Et by (destruct Ht as [-> |[-> |[_ ?]]]; done).
    apply elem_of_cons in Eop as [->|Eop%list_elem_of_singleton]; cbn [qop_step]; [by rewrite Et|]. subst t2. rewrite Et. by destruct (slots !! t1 ≫= token_producer).
  - by apply run_inv_S.
  - intros H. split; [done|]. intros _ [?|?]; done.
Qed.

(** Operations with the producer of a token need it. *)
Lemma step_with_token n b c q tokens slots qs bss O op t :
  run_inv n b c (mkQState q tokens slots) qs bss O -> producer_of op = Some t ->
  (forall k, slots !! t = Some (Held k) -> O !! Explicit k = Some k -> step_ok n b c (mkQState q tokens slots) qs O op) ->
  step_ok n b c (mkQState q tokens slots) qs O op.
Proof.
  intros I Et Hheld. assert (t ∈ tokens_of op) as Hin by (destruct op; try done; injection Et as ->; by left).
  destruct (slots !! t) as [[k| |]|] eqn:Hs; [apply (Hheld k eq_refl); by eapply ri_owner; cbn| |..];
    (eapply step_no_token; [exact I|]; split; [exact Hin|]; rewrite Hs; tauto).
Qed.

(** A token that is there or not. *)
Lemma slot_cases (slots : list TokenSlot) t : (exists x, slots !! t = Some x /\ x <> Gone) \/ slots !! t = None \/ slots !! t = Some Gone.
Proof. destruct (slots !! t) as [[k| |]|]; [left; by eexists..|by auto|by auto]. Qed.

Lemma qop_step_spec n b c op st qs bss O :
  run_inv n b c st qs bss O -> qop_ok (healthy (st_queue st)) n op -> fits_in b c op -> step_ok n b c st qs O op.
Proof.
  intros I Hop Hb. destruct st as [q tokens slots]. destruct op as [m x g id e|way throws| | |t m x g e|t throws|t|m g id items|cons throws max|t m x g items|t throws max|t|t t'|k k'|k k']; cbn [st_queue] in Hop.
  - destruct Hop as [Hid Hne]. eapply step_thread; [exact I|by apply (implicit_enqueue_appends m x g e)|done|done|done|done|by constructor|by destruct m].
  - eapply step_dequeue; [exact I|]. by destruct way.
  - pose proof (ri_queue _ _ _ _ _ _ _ I) as Q. cbn in Q. exists (QSized (u64 (Z.of_nat (length (concat qs))))), (mkQState q tokens slots), qs, bss, O.
    split; [cbn [qop_step]; by rewrite (queue_size_approx_spec q qs bss (qr_list _ _ _ _ Q))|].
    split; [|split; [by apply run_inv_S|intros H; split; [done|intros _ [?|?]; done]]].
    rewrite <- (Permutation_length (concat_perm _ _ (view_values O qs (qr_numbering _ _ _ _ Q)))). constructor.
  - eapply step_new_token; [exact I|apply Hb].
  - destruct Hop as [v ->]. eapply (step_with_token _ _ _ _ _ _ _ _ _ _ t); [exact I|done|]. intros k Hs HO.
    eapply step_token; [exact I|apply (explicit_enqueue_appends m x g)|done|done|done|cbn [qop_step]; by rewrite Hs|by econstructor|by destruct m].
  - eapply (step_with_token _ _ _ _ _ _ _ _ _ _ t); [exact I|done|]. intros k Hs HO.
    destruct (run_dequeue_from n b c q tokens slots qs bss O throws t k I Hs) as (r & q' & E & Hd).
    eapply step_dequeued; [exact Hd|cbn [qop_step]; by rewrite Hs, E|intros s' Hs'; by eapply qs_dequeue_from|done|apply not_refused_dequeued].
  - destruct (slot_cases slots t) as [(y & Hy & Hg)|Hno]; [by eapply step_destroy_token|]. eapply (step_no_token _ _ _ _ _ _ _ _ _ _ t); [exact I|]. split; [by left|tauto].
  - eapply step_thread; [exact I|apply (implicit_enqueue_bulk_appends m g items)|done|done|done|done|by constructor|by destruct m].
    destruct Hb as [_ Hb]. cbn in Hb. lia.
  - destruct cons as [k|]; [destruct Hop as [Hk Hop]|]; (eapply step_dequeue_bulk; [exact I| |exact Hop]); [by intros ? [= <-]|done].
  - destruct Hop as (Hs & -> & [Hm _]). destruct (all_some items Hs) as [vs ->]. eapply (step_with_token _ _ _ _ _ _ _ _ _ _ t); [exact I|done|]. intros k Ht HO.
    eapply step_token; [exact I|apply (explicit_enqueue_bulk_appends x g _ vs Hm)|done|done|done|cbn [qop_step]; by rewrite Ht|by econstructor|done].
  - eapply (step_with_token _ _ _ _ _ _ _ _ _ _ t); [exact I|done|]. intros k Hs HO.
    destruct (run_bulk_from n b c q tokens slots qs bss O throws max t k I Hs Hop) as (l & threw & q' & E & Hd).
    eapply step_dequeued; [exact Hd|cbn [qop_step]; by rewrite Hs, E|intros s' Hs'; by eapply qs_dequeue_bulk_from|done|apply not_refused_bulk].
  - destruct (slot_cases slots t) as [(y & Hy & Hg)|Hno]; [by eapply step_move_token|]. eapply (step_no_token _ _ _ _ _ _ _ _ _ _ t); [exact I|]. split; [by left|tauto].
  - destruct (slot_cases slots t) as [(y & Hy & Hg)|Hno]; [|eapply (step_no_token _ _ _ _ _ _ _ _ _ _ t); [exact I|]; split; [by left|tauto]].
    destruct (slot_cases slots t') as [(y' & Hy' & Hg')|Hno]; [|eapply (step_no_token _ _ _ _ _ _ _ _ _ _ t'); [exact I|]; split; [by right; left|tauto]].
    assert (exists p p', y = slot_of p /\ y' = slot_of p') as (p & p' & -> & ->); [|by eapply step_swap_tokens].
    destruct y as [k| |], y' as [k'| |]; try done; [exists (Some k), (Some k')|exists (Some k), None|exists None, (Some k')|exists None, None]; done.
  - destruct Hop as [H1 H2]. pose proof I as [_ Hn Ht _ _ _ _]. cbn in Hn, Ht. destruct (lookup_lt_is_Some_2 tokens k) as [tk Hk]; [lia|].
    eapply step_consumers; [exact I|cbn [qop_step]; rewrite Hk; cbn [of_option]; by rewrite ret_bind|constructor|done|by rewrite length_insert|].
    apply Forall_insert; [done|]. by eapply Forall_lookup in Ht; destruct tk.
  - destruct Hop as [H1 H2]. pose proof I as [_ Hn Ht _ _ _ _]. cbn in Hn, Ht. destruct (lookup_lt_is_Some_2 tokens k) as [tk Hk]; [lia|].
    destruct (lookup_lt_is_Some_2 tokens k') as [tk' Hk']; [lia|].
    eapply step_consumers; [exact I|cbn [qop_step]; rewrite Hk, Hk'; cbn [of_option]; by rewrite !ret_bind|constructor|done|by rewrite !length_insert|].
    apply Forall_insert; [apply Forall_insert; [done|]|]; [eapply Forall_lookup in Hk'; [|exact Ht]|eapply Forall_lookup in Hk; [|exact Ht]]; done.
Qed.

Lemma qop_run_spec n ops : forall b c st qs bss O,
  run_inv n b c st qs bss O -> Forall (qop_ok (healthy (st_queue st)) n) ops -> Z.of_nat b + Z.of_nat (length ops) < UINT_MOD ->
  Z.of_nat c + Z.of_nat (sum_list_with qop_size ops) + 32 < 9223372036854775808 ->
  exists answers st' qs' bss' O', qop_run st ops = Ret (answers, st') /\
    qrun (view O qs, st_slots st) ops answers (view O' qs', st_slots st') /\ (exists b' c', run_inv n b' c' st' qs' bss' O') /\
    (healthy (st_queue st) -> healthy (st_queue st') /\ (Forall may_allocate ops -> Forall (fun a => ~ refused a) answers)).
Proof.
  induction ops as [|op ops IH]; intros b c st qs bss O I Hops Hb Hc; cbn [qop_run length sum_list_with] in *.
  { eexists [], st, qs, bss, O. split; [done|]. split; [constructor|]. split; [by eexists b, c|]. intros H. split; [done|constructor]. }
  apply Forall_cons in Hops as [Hop Hops].
  destruct (qop_step_spec n b c op st qs bss O I Hop) as (a & st1 & qs1 & bss1 & O1 & -> & S1 & I1 & H1); [split; lia|]. rewrite ret_bind.
  assert (Forall (qop_ok (healthy (st_queue st1)) n) ops) as Hops1 by (eapply Forall_impl; [exact Hops|]; intros o; apply qop_ok_mono, H1).
  destruct (IH (S b) (c + qop_size op)%nat st1 qs1 bss1 O1 I1 Hops1 ltac:(lia) ltac:(lia)) as (l & st2 & qs2 & bss2 & O2 & -> & S2 & Q2 & H2).
  rewrite ret_bind. eexists (a :: l), st2, qs2, bss2, O2. split; [done|]. split; [by econstructor|]. split; [done|].
  intros H. destruct (H1 H) as [H1' N1]. destruct (H2 H1') as [H2' N2]. split; [done|].
  intros [Ha Has]%Forall_cons. constructor; auto.
Qed.
End Runs.

Arguments QOp : clear implicits.
Arguments QAnswer : clear implicits.
Arguments QState : clear implicits.
