(* ===== verification/QueueTrace.v ===== *)
(** * Runs of the queue

    A new queue, any sequence of operations, and the destructor, which frees every
    block. *)
From S2P Require Import Prelude QueueDetails QueueBlock Producer ImplicitProducer ImplicitIndex ImplicitSpec ImplicitBulk BlockCells ImplicitTrace ExplicitProducer ExplicitSpec ExplicitDestroy ExplicitBulk ExplicitTrace ProducerHash Queue QueueBulk QueueSpec QueueBulkSpec QueueThreads QueueTokens QueueRuns.

Section Trace.
Context {T : Type}.
Implicit Types (q : ConcurrentQueue T) (l : list T) (qs : list (list T)) (bss : list (list nat)).

(** ** The destructor *)

(** The tokens the first [k] producers know, from the newest producer. *)
Definition known q (k : nat) : list nat := omap snd (reverse (take k (statuses q))).

Lemma known_S q k n : cq_producers q !! k = Some n -> known q (S k) = match node_token n with Some t => t :: known q k | None => known q k end.
Proof. intros Hn. unfold known. rewrite (take_S_r _ _ _ (statuses_lookup _ _ _ Hn)), reverse_app. cbn. by destruct (node_token n). Qed.

Lemma known_elem q qs bss t : list_rep q qs bss -> t ∈ known q (length qs) <-> exists k e a, statuses q !! k = Some (e, a, Some t).
Proof.
  intros R. unfold known. rewrite <- (lr_length _ _ _ R), firstn_all2 by (unfold statuses; by rewrite length_fmap). rewrite list_elem_of_omap. split.
  - intros ([[e a] o] & Hin & Et). cbn in Et. subst o. rewrite elem_of_reverse in Hin. apply list_elem_of_lookup in Hin as [k Hk]. exists k, e, a. exact Hk.
  - intros (k & e & a & Hk%list_elem_of_lookup_2). exists (e, a, Some t). split; [rewrite elem_of_reverse; exact Hk|done].
Qed.

Lemma destroy_producers_spec q qs bss : list_rep q qs bss -> forall k fuel h,
  (k <= length qs)%nat -> (k < fuel)%nat ->
  heap_inv h (list_to_set (concat (take k bss))) -> same_blocks (list_to_set (concat (take k bss))) (cq_heap q) h ->
  exists h', destroy_producers fuel (set_heap q h) (link_of k) = Ret (known q k, set_heap q h') /\ heap_inv h' ∅.
Proof.
  intros R. induction k as [|k IH]; intros [|fuel] h Hk Hf Hi Hs; try lia; [by exists h|].
  destruct (lookup_lt_is_Some_2 qs k) as [l Hl]; [lia|]. destruct (lr_nodes _ _ _ R k l Hl) as (n & bs & Hn & Hbs & Nn & _ & Rn).
  rewrite (take_S_r _ _ _ Hbs), concat_app, list_to_set_app_L in Hi, Hs. cbn [concat] in Hi, Hs. rewrite app_nil_r in Hi, Hs.
  cbn [link_of destroy_producers]. change (node_at (set_heap q h) k) with (node_at q k). change (cq_heap (set_heap q h)) with h. rewrite (node_at_Ret _ _ _ Hn). cbn [mbind outcome_bind].
  assert (NoDup (concat (take k bss) ++ bs)) as Hnd.
  { pose proof (lr_nodup _ _ _ R) as Hnd. rewrite <- (take_drop (S k) bss), (take_S_r _ _ _ Hbs), !concat_app in Hnd. cbn in Hnd.
    rewrite app_nil_r in Hnd. by apply NoDup_app in Hnd as [? _]. }
  apply NoDup_app in Hnd as (_ & Hd & _).
  assert (own h (list_to_set (concat (take k bss))) bs) as Hown.
  { split; [done|]. intros x Hx%elem_of_list_to_set Hb%elem_of_list_to_set. by apply (Hd x). }
  apply (ps_frame _ h) in Rn; [|eapply same_blocks_mono; [|exact Hs]; set_solver].
  assert (exists h', match node_producer n with AImplicit p => implicit_destroy h p | AExplicit p => explicit_destroy (S (size (blocks h))) h p end = Ret h' /\
    heap_inv h' (list_to_set (concat (take k bss))) /\ same_blocks (list_to_set (concat (take k bss))) h h') as (h' & -> & Hi' & Hs').
  { destruct (node_producer n) as [p|p]; destruct Rn as [hd Rn].
    - destruct (implicit_destroy_spec h p l hd bs _ Hown Rn) as (h' & E & Hi' & Hs' & _). by exists h'.
    - pose proof (ring_size _ _ _ _ _ Rn). destruct (explicit_destroy_spec h p l hd bs _ (S (size (blocks h))) Hown Rn) as (h' & E & Hi' & Hs' & _); [lia|]. by exists h'. }
  cbn [mbind outcome_bind]. rewrite Nn. destruct (IH fuel h') as (h2 & E & Hi2); [lia|lia|done| |exists h2; split; [|done]; change (set_heap (set_heap q h) h') with (set_heap q h'); rewrite E, ret_bind; cbv beta iota; by rewrite (known_S _ _ _ Hn)].
  eapply same_blocks_trans; [|exact Hs']. eapply same_blocks_mono; [|exact Hs]. set_solver.
Qed.

Lemma destroy_free_list_spec (l : list nat) : forall fuel (h : Heap T) o,
  free_chain (blocks h) o l -> NoDup l -> (length l < fuel)%nat ->
  exists h', destroy_free_list fuel h o = Ret h' /\ initialBlockPoolSize h' = initialBlockPoolSize h /\
    forall x b, blocks h' !! x = Some b -> blocks h !! x = Some b /\ (x ∈ l -> dynamicallyAllocated b = false).
Proof.
  induction l as [|y l IH]; intros [|fuel] h o Hc Hnd Hf; cbn [length] in Hf; try lia.
  { cbn in Hc. subst o. exists h. split; [done|]. split; [done|]. intros x b Hb. split; [done|]. by intros ?%elem_of_nil. }
  destruct Hc as (-> & c & Hy & Hr & Hw & Hc). apply NoDup_cons in Hnd as [Hyl Hnd].
  cbn [destroy_free_list]. rewrite (get_block_Ret _ _ _ Hy). cbn [mbind outcome_bind].
  set (h1 := if dynamicallyAllocated c then _ else _).
  assert (free_chain (blocks h1) (freeListNext c) l) as Hc1.
  { unfold h1. destruct (dynamicallyAllocated c); [|done]. cbn. clear -Hc Hyl. revert Hc. generalize (freeListNext c).
    induction l as [|z l IH]; intros o; [done|]. apply not_elem_of_cons in Hyl as [Hne Hyl]. intros (-> & d & Hd & Hr & Hw & Hc).
    split; [done|]. exists d. rewrite lookup_delete_ne by done. eauto. }
  destruct (IH fuel h1 _ Hc1 Hnd ltac:(lia)) as (h' & E & Ep & Hb). exists h'. split; [done|].
  split; [rewrite Ep; unfold h1; by destruct (dynamicallyAllocated c)|]. intros x b Hx. apply Hb in Hx as [Hx Hdyn]. unfold h1 in Hx.
  destruct (dynamicallyAllocated c) eqn:Ed.
  - cbn in Hx. apply lookup_delete_Some in Hx as [Hne Hx]. split; [done|]. intros [->|?]%elem_of_cons; [done|auto].
  - split; [done|]. intros [->|?]%elem_of_cons; [congruence|auto].
Qed.

Lemma ConcurrentQueue_destroy_spec q qs bss :
  list_rep q qs bss -> exists h, ConcurrentQueue_destroy q = Ret (known q (length qs), h) /\ blocks h = ∅.
Proof.
  intros R. unfold ConcurrentQueue_destroy. rewrite (lr_tail _ _ _ R), (lr_length _ _ _ R).
  destruct (destroy_producers_spec q qs bss R (length qs) (S (length qs)) (cq_heap q)) as (h1 & E1 & Hi); try lia.
  { rewrite <- (lr_blocks _ _ _ R), firstn_all. apply R. } { apply same_blocks_refl. }
  assert (set_heap q (cq_heap q) = q) as Eq by (by destruct q). rewrite Eq in E1. rewrite E1. cbn [mbind outcome_bind set_heap cq_heap].
  destruct Hi as [(l & Hc & Hnd & Hl) _ _ _ Hg _].
  assert (length l <= size (blocks h1))%nat as Hlen.
  { rewrite <- (size_list_to_set (C := gset nat) l Hnd), <- size_dom. apply subseteq_size. intros x Hx%elem_of_list_to_set.
    apply elem_of_dom. by apply Hl in Hx as [? _]. }
  destruct (destroy_free_list_spec l (S (size (blocks h1))) h1 _ Hc Hnd ltac:(lia)) as (h2 & -> & Ep & Hb).
  cbn [mbind outcome_bind]. eexists. split; [done|]. cbn [set_blocks blocks]. apply map_empty_filter. intros x b Hx Hge.
  destruct (Hb x b Hx) as [Hx1 Hdyn]. pose proof (Hg x b Hx1) as Ho. rewrite Ep in Hge.
  assert (x ∈ l) as Hin.
  { apply Hl. split; [by eexists|]. split; [by apply not_elem_of_empty|]. unfold in_pool. lia. }
  rewrite (Hdyn Hin) in Ho. symmetry in Ho. apply Z.leb_gt in Ho. lia.
Qed.

(** ** A new queue *)

Lemma add_consumers_spec n : forall q, exists q' tokens, add_consumers n q = (q', tokens) /\ length tokens = n /\
  Forall (token_ok 0) tokens /\ exists i g, q' = set_consumer_ids q i g.
Proof.
  induction n as [|n IH]; intros q; cbn [add_consumers].
  { exists q, []. split; [done|]. split; [done|]. split; [constructor|]. by exists (nextExplicitConsumerId q), (globalExplicitConsumerOffset q); destruct q. }
  unfold ConsumerToken_new. destruct (IH (set_consumer_ids q (nextExplicitConsumerId q +u 1) (globalExplicitConsumerOffset q)))
    as (q' & tokens & -> & Hlen & Hok & i & g & ->).
  eexists _, _. split; [done|]. cbn. split; [lia|]. split; [constructor; [by left|done]|]. by exists i, g.
Qed.

(** Capacities the pool can be allocated for: blocks are counted in 58 bits. *)
Definition capacity_ok (capacity : Z) : Prop := 0 <= capacity <= 9223372036854775776.

Lemma blocks_of_capacity capacity :
  capacity_ok capacity -> 0 <= capacity / BLOCK_SIZE +w (if Z.land capacity (BLOCK_SIZE - 1) =? 0 then 0 else 1) <= 288230376151711744.
Proof.
  unfold capacity_ok, BLOCK_SIZE. intros Hc. change (32 - 1) with (Z.ones 5). rewrite Z.land_ones by lia. change (2 ^ 5) with 32.
  pose proof (Z.div_mod capacity 32 ltac:(lia)). pose proof (Z.mod_pos_bound capacity 32 ltac:(lia)).
  destruct (Z.eqb_spec (capacity mod 32) 0); rewrite u64_small by (unfold is_u64, UINT64_MOD; lia); lia.
Qed.

Lemma new_queue_rep results garbage capacity :
  capacity_ok capacity ->
  queue_rep (ConcurrentQueue_new (T := T) results garbage capacity) [] [] ∅ /\
  (Forall (fun r => r = true) results -> healthy (ConcurrentQueue_new (T := T) results garbage capacity)).
Proof.
  intros Hcap. set (blockCount := capacity / BLOCK_SIZE +w (if Z.land capacity (BLOCK_SIZE - 1) =? 0 then 0 else 1)).
  pose proof (populate_spec (T := T) results blockCount garbage (blocks_of_capacity _ Hcap)) as Hi. split.
  - constructor; cbn [length]; [constructor; try done; constructor| | |done|done].
    + constructor; [apply map_size_empty|..]; [intros ? ?; by rewrite lookup_empty|lia|intros ? ? ?; by rewrite lookup_empty].
    + exists ∅. split; [split; [intros ?; by rewrite !lookup_empty|by rewrite !map_size_empty]|]. split; [apply initial_hashes_ok|done].
  - intros Hr. split; [|by intros k nd; cbn; rewrite lookup_nil]. change (mem_ok (populate_initial_block_list (T := T) (Heap_empty results) blockCount garbage)).
    unfold populate_initial_block_list, mem_ok. destruct (blockCount =? 0); [done|]. unfold malloc. cbn [Heap_empty mem]. destruct results as [|[] rest]; cbn; by inversion Hr.
Qed.

(** The tokens the producers know are those that hold one. *)
Lemma run_inv_known n b c (st : QState T) qs bss (O : gmap Owner nat) t :
  run_inv n b c st qs bss O -> t ∈ known (st_queue st) (length qs) <-> exists k, st_slots st !! t = Some (Held k).
Proof.
  intros I. rewrite (known_elem _ _ _ _ (qr_list _ _ _ _ (ri_queue _ _ _ _ _ _ _ I))). split; [intros (k & e & a & Hk)|intros (k & Hk)].
  - exists k. by apply (ri_known _ _ _ _ _ _ _ I _ _ _ _ Hk).
  - exists k, true, false. by apply (ri_active _ _ _ _ _ _ _ I).
Qed.

Lemma start_run_inv q n :
  queue_rep q [] [] ∅ ->
  run_inv n 0 0 (start n q) [] [] ∅ /\ st_slots (start n q) = [] /\ (healthy q -> healthy (st_queue (start n q))).
Proof.
  intros [R Hnu Hh Hk Hc]. unfold start. destruct (add_consumers_spec n q) as (q' & tokens' & -> & Hlen & Hok & i & g & ->). split; [|split; [done|]].
  - constructor; cbn [st_queue st_consumers st_slots]; [|done|done|done| |done|intros id l; by rewrite view_lookup, lookup_empty].
    + constructor; try done. by eapply list_rep_ext; [..|exact R].
    + intros t k e a. change (statuses _) with (statuses q). unfold statuses. by rewrite (nil_length_inv _ (lr_length _ _ _ R)).
  - intros [Hm Hu]. by split.
Qed.
End Trace.


(** Two threads, a consumer with a token and one without, a producer token that is
    destroyed and made again, many elements in and out over several producers, and tokens
    moved and swapped. *)
Definition demo_qops : list (QOp Z) :=
  [QEnqueue CanAlloc false [] 4711 (Some 1); QEnqueue CanAlloc true [] 4712 (Some 2); QEnqueue CanAlloc false [] 4711 None; QSize;
   QNewToken; QEnqueueWith 0 CanAlloc false [] (Some 3); QDestroyToken 0; QNewToken; QDequeueFrom 1 false; QEnqueueWith 0 CanAlloc false [] (Some 4);
   QDequeue (WithToken 0) false; QDequeue Scored true; QDequeue InOrder false;
   QEnqueueBulk CanAlloc (fun _ => []) 4711 (map (fun i => Some (Z.of_nat i)) (seq 0 50)); QEnqueueBulkWith 1 CanAlloc false (fun _ => []) [Some 5; Some 6; Some 7];
   QDequeueBulkFrom 1 None 2; QDequeueBulk None None 10; QDequeueBulk (Some 0%nat) (Some 3%nat) 5; QDequeueBulk (Some 0%nat) None 100;
   QNewToken; QMoveToken 1; QSwapTokens 1 2; QSwapTokens 3 0; QEnqueueWith 3 CanAlloc false [] (Some 8); QDequeueFrom 3 false; QMoveConsumer 0 1; QSwapConsumers 0 1].

