(* ===== verification/QueueGrowth.v ===== *)
(** * No operation of the queue loses a hash table or a producer

    Tables are only put in front of others and producers only added to the list.
    [keeps f q m]: the queue in what [m] returns, found by [f], has everything [q] has. *)
From S2P Require Import Prelude QueueDetails QueueBlock Producer ImplicitProducer ImplicitBulk ExplicitProducer ExplicitBulk ProducerHash Queue QueueBulk QueueRuns.

Section Growth.
Context {T : Type}.
Implicit Types (q : ConcurrentQueue T).

Definition grows q q' : Prop :=
  (length (implicitProducerHash q) <= length (implicitProducerHash q'))%nat /\ (length (cq_producers q) <= length (cq_producers q'))%nat.

#[local] Instance grows_order : PreOrder grows.
Proof. split; [by intros q|intros q1 q2 q3 [? ?] [? ?]; split; lia]. Qed.

Definition keeps {A} (f : A -> ConcurrentQueue T) q (m : outcome A) : Prop := forall a, m = Ret a -> grows q (f a).

Lemma keeps_Ret {A} (f : A -> ConcurrentQueue T) q a : grows q (f a) -> keeps f q (Ret a).
Proof. by intros G ? [= <-]. Qed.

Lemma keeps_Fault {A} (f : A -> ConcurrentQueue T) q e : keeps f q (Fault e).
Proof. by intros ? ?. Qed.

(** After a call that keeps everything, what is left must keep what it returned. *)
Lemma keeps_bind {A B} (f : A -> ConcurrentQueue T) (g : B -> ConcurrentQueue T) q m k :
  keeps f q m -> (forall a, keeps g (f a) (k a)) -> keeps g q (m ≫= k).
Proof. intros Hm Hk b (a & Ea & Eb)%bind_Ret. etrans; [by apply Hm|by apply Hk]. Qed.

(** A call that does not return a queue. *)
Lemma keeps_skip {A B} (g : B -> ConcurrentQueue T) q (m : outcome A) k : (forall a, keeps g q (k a)) -> keeps g q (m ≫= k).
Proof. intros Hk b (a & Ea & Eb)%bind_Ret. by eapply Hk. Qed.

Lemma grows_set_node q i n : grows q (set_node q i n).
Proof. split; [done|]. cbn. by rewrite length_insert. Qed.

Lemma grows_node q h i n : grows q (set_node (set_heap q h) i n).
Proof. apply (grows_set_node (set_heap q h)). Qed.
End Growth.

(** Goes through a function whose calls return no queue. *)
Ltac keeping :=
  repeat match goal with
  | |- forall _, _ => intros ?
  | |- keeps _ _ (Ret _) => apply keeps_Ret; cbn [fst snd id st_queue]
  | |- keeps _ _ (Fault _) => apply keeps_Fault
  | |- keeps _ _ (match ?x with _ => _ end) => destruct x
  | |- keeps _ _ (?m ≫= _) => lazymatch type of m with context [ConcurrentQueue] => fail | _ => apply keeps_skip end
  | |- grows _ (set_node (set_heap _ _) _ _) => apply grows_node
  | |- grows _ (set_node _ _ _) => apply grows_set_node
  | |- grows ?q ?q => reflexivity
  end.

Section Operations.
Context {T : Type}.
Implicit Types (q : ConcurrentQueue T).
#[local] Existing Instance grows_order.

(** ** Dequeues *)

Lemma dequeue_from_keeps throws q i : keeps snd q (dequeue_from throws q i).
Proof. unfold dequeue_from. keeping. Qed.

Lemma dequeue_any_keeps throws skip fuel : forall q ptr, keeps snd q (dequeue_any fuel throws q skip ptr).
Proof.
  induction fuel as [|fuel IH]; intros q [i|]; cbn [dequeue_any]; keeping; [apply IH|].
  eapply keeps_bind; [apply dequeue_from_keeps|]. intros [r q']. destruct r; keeping. apply IH.
Qed.

Lemma queue_try_dequeue_keeps throws q : keeps snd q (queue_try_dequeue throws q).
Proof.
  unfold queue_try_dequeue. keeping. eapply keeps_bind; [apply dequeue_from_keeps|]. intros [r q']. destruct r; keeping. apply dequeue_any_keeps.
Qed.

Lemma dequeue_round_keeps throws fuel : forall q token i, keeps (fun x => x.1.2) q (dequeue_round fuel throws q token i).
Proof.
  induction fuel as [|fuel IH]; intros q token i; cbn [dequeue_round]; keeping.
  eapply keeps_bind; [apply dequeue_from_keeps|]. intros [r q']. destruct r; keeping. apply IH.
Qed.

Lemma try_dequeue_token_keeps throws q token : keeps (fun x => x.1.2) q (try_dequeue_token throws q token).
Proof.
  unfold try_dequeue_token. keeping. eapply keeps_bind; [apply dequeue_from_keeps|]. intros [r q']. destruct r; keeping.
  - by case_match.
  - apply dequeue_round_keeps.
Qed.

Lemma dequeue_bulk_from_keeps throws q i max : keeps snd q (dequeue_bulk_from throws q i max).
Proof. unfold dequeue_bulk_from. keeping. Qed.

Lemma bulk_any_keeps fuel : forall throws q ptr items count max, keeps snd q (bulk_any fuel throws q ptr items count max).
Proof.
  induction fuel as [|fuel IH]; intros throws q [i|] items count max; cbn [bulk_any]; keeping.
  eapply keeps_bind; [apply dequeue_bulk_from_keeps|]. intros [[l threw] q']. keeping. apply IH.
Qed.

Lemma bulk_round_keeps fuel : forall throws q token i items max, keeps (fun x => x.1.2) q (bulk_round fuel throws q token i items max).
Proof.
  induction fuel as [|fuel IH]; intros throws q token i items max; cbn [bulk_round]; keeping.
  eapply keeps_bind; [apply dequeue_bulk_from_keeps|]. intros [[l threw] q']. keeping. apply IH.
Qed.

Lemma try_dequeue_bulk_token_keeps throws q token max : keeps (fun x => x.1.2) q (try_dequeue_bulk_token throws q token max).
Proof.
  unfold try_dequeue_bulk_token. keeping. eapply keeps_bind; [apply dequeue_bulk_from_keeps|]. intros [[l threw] q']. keeping.
  - by case_match.
  - apply bulk_round_keeps.
Qed.

(** ** Producers *)

Lemma recycle_or_create_keeps e q : keeps snd q (recycle_or_create_producer e q).
Proof.
  unfold recycle_or_create_producer, add_producer. keeping; split; cbn; rewrite ?length_app; lia.
Qed.

Lemma find_producer_length hashes id o hashes' : find_producer hashes id = Ret (o, hashes') -> length hashes' = length hashes.
Proof.
  unfold find_producer. intros (x & _ & E)%bind_Ret. destruct x as [[[] v]|], hashes as [|hash rest]; try (by injection E as _ <-).
  apply bind_Ret in E as (h & _ & E). by injection E as _ <-.
Qed.

Lemma grow_hash_keeps q n : keeps snd q (grow_hash q n).
Proof. unfold grow_hash. keeping; case_match; split; cbn; lia. Qed.

Lemma add_implicit_producer_keeps q id : keeps snd q (add_implicit_producer q id).
Proof.
  unfold add_implicit_producer. keeping. eapply keeps_bind; [apply recycle_or_create_keeps|]. intros [[producer recycled] q']. keeping; split; cbn; try lia.
  destruct (implicitProducerHash q'); cbn; lia.
Qed.

Lemma get_or_add_keeps q id : keeps snd q (get_or_add_implicit_producer q id).
Proof.
  unfold get_or_add_implicit_producer. intros r ([o hashes] & E & Er)%bind_Ret. apply find_producer_length in E.
  set (q1 := set_hashes q hashes (implicitProducerHashCount q)) in *. transitivity q1; [split; cbn; lia|].
  match type of Er with ?m = _ => assert (keeps snd q1 m) as Hk; [|by apply Hk] end. keeping.
  eapply (keeps_bind snd); [intros x Ex; exact (grow_hash_keeps _ _ _ Ex)|]. intros [ok q']. keeping. apply add_implicit_producer_keeps.
Qed.

(** ** Every operation *)

Lemma inner_enqueue_keeps m x g q id e : keeps snd q (inner_enqueue m x g q id e).
Proof. unfold inner_enqueue. eapply keeps_bind; [apply get_or_add_keeps|]. intros [producer q']. keeping. Qed.

Lemma inner_enqueue_bulk_keeps m g q id items : keeps snd q (inner_enqueue_bulk m g q id items).
Proof. unfold inner_enqueue_bulk. eapply keeps_bind; [apply get_or_add_keeps|]. intros [producer q']. keeping. Qed.

Lemma set_token_keeps q p t : keeps id q (set_token q p t).
Proof. unfold set_token. keeping. Qed.

Lemma ProducerToken_new_keeps q t : keeps snd q (ProducerToken_new q t).
Proof.
  unfold ProducerToken_new. eapply keeps_bind; [apply recycle_or_create_keeps|]. intros [[producer recycled] q'].
  eapply (keeps_bind id); [apply set_token_keeps|]. keeping.
Qed.

Lemma ProducerToken_swap_keeps q p p' t t' : keeps snd q (ProducerToken_swap q p p' t t').
Proof. unfold ProducerToken_swap. do 2 (eapply (keeps_bind id); [apply set_token_keeps|]; intros ?). keeping. Qed.

Lemma ProducerToken_move_keeps q p t : keeps snd q (ProducerToken_move q p t).
Proof. unfold ProducerToken_move. eapply (keeps_bind id); [apply set_token_keeps|]. keeping. Qed.

Lemma qop_step_keeps (st : QState T) op : keeps (fun x => st_queue x.2) (st_queue st) (qop_step st op).
Proof.
  destruct st as [q tokens slots]. destruct op; cbn [qop_step st_queue].
  - eapply keeps_bind; [apply inner_enqueue_keeps|]. intros [r q']. keeping.
  - destruct way as [| |k].
    + eapply keeps_bind; [apply queue_try_dequeue_keeps|]. intros [r q']. keeping.
    + eapply keeps_bind; [apply dequeue_any_keeps|]. intros [r q']. keeping.
    + keeping. eapply (keeps_bind (fun x => x.1.2)); [apply try_dequeue_token_keeps|]. intros [[r q'] token]. keeping.
  - keeping.
  - eapply keeps_bind; [apply ProducerToken_new_keeps|]. intros [[k|] q']; keeping.
  - keeping. eapply (keeps_bind snd); [unfold inner_enqueue_token; keeping|]. intros [r q']. keeping.
  - keeping. eapply (keeps_bind snd); [unfold try_dequeue_from_producer; keeping|]. intros [r q']. keeping.
  - keeping; eapply (keeps_bind id); try (unfold ProducerToken_destroy; keeping); intros ?; keeping.
  - eapply keeps_bind; [apply inner_enqueue_bulk_keeps|]. intros [r q']. keeping.
  - destruct consumer as [k|].
    + keeping. eapply (keeps_bind (fun x => x.1.2)); [apply try_dequeue_bulk_token_keeps|]. intros [[[l threw] q'] token]. keeping.
    + eapply keeps_bind; [apply bulk_any_keeps|]. intros [[l threw] q']. keeping.
  - keeping. eapply (keeps_bind snd); [unfold inner_enqueue_bulk_token; keeping|]. intros [r q']. keeping.
  - keeping. eapply (keeps_bind snd); [unfold try_dequeue_bulk_from_producer; keeping|]. intros [[l threw] q']. keeping.
  - keeping. eapply keeps_bind; [apply ProducerToken_move_keeps|]. intros [[this other] q']. keeping.
  - keeping. eapply keeps_bind; [apply ProducerToken_swap_keeps|]. intros [[this other] q']. keeping.
  - keeping.
  - keeping.
Qed.
End Operations.
