(* ===== verification/QueueMove.v ===== *)
(** * Moving and swapping queues (concurrentqueue.h)

    Queues are objects with addresses here.  Two kinds of pointers lead back to a
    queue: producers know their parent, and the chain of hash tables ends in a table
    inside the object.  When a queue is moved or swapped both must follow.  What
    only a queue's own pointers reach, its blocks and producers, is kept with them: a
    pointer that is exchanged takes along what it reaches. *)
From S2P Require Import Prelude QueueDetails QueueBlock Producer ImplicitProducer ExplicitProducer ProducerHash Queue.

Section Move.
Context {T : Type}.

(** ** State *)

(** A pointer to a hash table: the one inside a queue, or an allocated one. *)
Inductive HashPtr := InitialOf (queue : nat) | Allocated (table : nat).

#[global] Instance HashPtr_eq_dec : EqDecision HashPtr.
Proof. solve_decision. Defined.

(** A table, with the link to the one before it. *)
Record HashTable := mkTable { table_hash : ImplicitProducerHash; table_prev : option HashPtr }.

(** [ob_initial_capacity], [ob_initial_entries] and [ob_initial_prev] are the members of
    [initialImplicitProducerHash]; its [entries] points to the array of the queue with
    that address.  [ob_parents] has the [parent] of each producer. *)
Record QueueObject := mkObject {
  ob_heap : Heap T;
  ob_producers : list ProducerNode;
  ob_parents : list nat;
  ob_producerListTail : option nat;
  ob_producerCount : Z;
  ob_nextExplicitConsumerId : Z;
  ob_globalExplicitConsumerOffset : Z;
  ob_implicitProducerHash : HashPtr;
  ob_implicitProducerHashCount : Z;
  ob_initial_capacity : Z;
  ob_initial_entries : nat;
  ob_initial_prev : option HashPtr;
  ob_entries : list ImplicitProducerKVP }.

Record Queues := mkQueues { objects : gmap nat QueueObject; tables : gmap nat HashTable }.

Implicit Types (w : Queues) (o : QueueObject) (this other : nat).

Definition object w this : outcome QueueObject := of_option BadPointer (objects w !! this).
Definition set_object w this o : Queues := mkQueues (<[this := o]> (objects w)) (tables w).
Definition set_tables w (m : gmap nat HashTable) : Queues := mkQueues (objects w) m.

(** The object with other hash members, and with other producers. *)
Definition with_hash o (hash : HashPtr) (count : Z) (entries : nat) (array : list ImplicitProducerKVP) : QueueObject :=
  mkObject (ob_heap o) (ob_producers o) (ob_parents o) (ob_producerListTail o) (ob_producerCount o) (ob_nextExplicitConsumerId o)
    (ob_globalExplicitConsumerOffset o) hash count (ob_initial_capacity o) entries (ob_initial_prev o) array.
Definition with_parents o (parents : list nat) : QueueObject :=
  mkObject (ob_heap o) (ob_producers o) parents (ob_producerListTail o) (ob_producerCount o) (ob_nextExplicitConsumerId o)
    (ob_globalExplicitConsumerOffset o) (ob_implicitProducerHash o) (ob_implicitProducerHashCount o) (ob_initial_capacity o)
    (ob_initial_entries o) (ob_initial_prev o) (ob_entries o).

Definition hash_at w (ptr : HashPtr) : outcome HashTable :=
  match ptr with
  | InitialOf i => o ← object w i; e ← object w (ob_initial_entries o); Ret (mkTable (mkHash (ob_initial_capacity o) (ob_entries e)) (ob_initial_prev o))
  | Allocated t => of_option BadPointer (tables w !! t)
  end.

(** [hash->prev = prev] *)
Definition set_prev w (ptr : HashPtr) (prev : option HashPtr) : outcome Queues :=
  match ptr with
  | InitialOf i =>
      o ← object w i;
      Ret (set_object w i (mkObject (ob_heap o) (ob_producers o) (ob_parents o) (ob_producerListTail o) (ob_producerCount o) (ob_nextExplicitConsumerId o)
        (ob_globalExplicitConsumerOffset o) (ob_implicitProducerHash o) (ob_implicitProducerHashCount o) (ob_initial_capacity o) (ob_initial_entries o) prev (ob_entries o)))
  | Allocated t => tb ← of_option BadPointer (tables w !! t); Ret (set_tables w (<[t := mkTable (table_hash tb) prev]> (tables w)))
  end.

(** ** Operations *)

(** [populate_initial_implicit_producer_hash] of the queue at [this]. *)
Definition populate_hash this o : QueueObject :=
  mkObject (ob_heap o) (ob_producers o) (ob_parents o) (ob_producerListTail o) (ob_producerCount o) (ob_nextExplicitConsumerId o)
    (ob_globalExplicitConsumerOffset o) (InitialOf this) 0 INITIAL_IMPLICIT_PRODUCER_HASH_SIZE this None
    (hash_entries (hash_new INITIAL_IMPLICIT_PRODUCER_HASH_SIZE)).

(** The constructor with a capacity, at address [this]. *)
Definition QueueObject_new this (results garbage : list bool) (capacity : Z) : QueueObject :=
  let blockCount := capacity / BLOCK_SIZE +w (if Z.land capacity (BLOCK_SIZE - 1) =? 0 then 0 else 1) in
  populate_hash this (mkObject (populate_initial_block_list (Heap_empty results) blockCount garbage) [] [] None 0 0 0 (InitialOf this) 0 0 this None []).

(** [reown_producers]: the new parents. *)
Fixpoint reown (fuel : nat) this (nodes : list ProducerNode) (parents : list nat) (ptr : option nat) : outcome (list nat) :=
  match ptr, fuel with
  | None, _ => Ret parents
  | Some _, O => Fault Diverges
  | Some i, S fuel => n ← of_option BadPointer (nodes !! i); reown fuel this nodes (<[i := this]> parents) (node_next n)
  end.

Definition reown_producers w this : outcome Queues :=
  o ← object w this;
  parents ← reown (S (length (ob_producers o))) this (ob_producers o) (ob_parents o) (ob_producerListTail o);
  Ret (set_object w this (with_parents o parents)).

(** [for (hash = ptr; hash->prev != &other.initialImplicitProducerHash; hash = hash->prev);
    hash->prev = &this.initialImplicitProducerHash] *)
Fixpoint relink (fuel : nat) w this other (ptr : HashPtr) : outcome Queues :=
  match fuel with
  | O => Fault Diverges
  | S fuel =>
      tb ← hash_at w ptr;
      if decide (table_prev tb = Some (InitialOf other)) then set_prev w ptr (Some (InitialOf this))
      else match table_prev tb with None => Fault BadPointer | Some prev => relink fuel w this other prev end
  end.

(** The tables [this] got from [other] end in its own initial table. *)
Definition fix_chain w this other : outcome Queues :=
  o ← object w this;
  if decide (ob_implicitProducerHash o = InitialOf other)
  then Ret (set_object w this (with_hash o (InitialOf this) (ob_implicitProducerHashCount o) (ob_initial_entries o) (ob_entries o)))
  else relink (S (size (tables w))) w this other (ob_implicitProducerHash o).

Definition swap_implicit_producer_hashes w this other : outcome Queues :=
  a ← object w this; b ← object w other;
  let w := set_object w this (with_hash a (ob_implicitProducerHash b) (ob_implicitProducerHashCount b) this (ob_entries b)) in
  let w := set_object w other (with_hash b (ob_implicitProducerHash a) (ob_implicitProducerHashCount a) other (ob_entries a)) in
  w ← fix_chain w this other;
  fix_chain w other this.

(** The members of [from] that are exchanged one by one, in place of those of [o]. *)
Definition take_members o from : QueueObject :=
  mkObject (mkHeap (blocks (ob_heap from)) (fresh (ob_heap from)) (mem (ob_heap from)) (initialBlockPoolIndex (ob_heap from))
      (initialBlockPoolSize (ob_heap from)) (freeListHead (ob_heap from)))
    (ob_producers from) (ob_parents from) (ob_producerListTail from) (ob_producerCount from) (ob_nextExplicitConsumerId from)
    (ob_globalExplicitConsumerOffset from) (ob_implicitProducerHash o) (ob_implicitProducerHashCount o) (ob_initial_capacity o)
    (ob_initial_entries o) (ob_initial_prev o) (ob_entries o).

(** [swap_internal], which [swap] and the move assignment call. *)
Definition swap_internal w this other : outcome Queues :=
  if decide (this = other) then Ret w
  else
    a ← object w this; b ← object w other;
    let w := set_object (set_object w this (take_members a b)) other (take_members b a) in
    w ← swap_implicit_producer_hashes w this other;
    w ← reown_producers w this;
    reown_producers w other.

(** The move constructor of the queue at [this]; [results] are the answers of [malloc]
    to the queue that is left behind. *)
Definition move_construct w this other (results : list bool) : outcome Queues :=
  b ← object w other;
  let w := set_object w this (populate_hash this (take_members b b)) in
  w ← swap_implicit_producer_hashes w this other;
  b ← object w other;
  let w := set_object w other (mkObject (Heap_empty results) [] [] None 0 0 0 (ob_implicitProducerHash b) (ob_implicitProducerHashCount b)
    (ob_initial_capacity b) (ob_initial_entries b) (ob_initial_prev b) (ob_entries b)) in
  reown_producers w this.

(** The destructor's loop over the hash tables: the last one is part of the object. *)
Fixpoint destroy_tables (fuel : nat) w (ptr : option HashPtr) : outcome Queues :=
  match ptr, fuel with
  | None, _ => Ret w
  | Some _, O => Fault Diverges
  | Some hash, S fuel =>
      tb ← hash_at w hash;
      w ← match table_prev tb, hash with
          | None, _ => Ret w
          | Some _, Allocated t => Ret (set_tables w (delete t (tables w)))
          | Some _, InitialOf _ => Fault BadPointer
          end;
      destroy_tables fuel w (table_prev tb)
  end.

(** ** The queue of an object *)

(** The tables reached from [ptr], the current one first. *)
Fixpoint read_hashes (fuel : nat) w (ptr : HashPtr) : outcome (list (HashPtr * ImplicitProducerHash)) :=
  match fuel with
  | O => Fault Diverges
  | S fuel =>
      tb ← hash_at w ptr;
      match table_prev tb with
      | None => Ret [(ptr, table_hash tb)]
      | Some prev => l ← read_hashes fuel w prev; Ret ((ptr, table_hash tb) :: l)
      end
  end.

Definition read_queue w this : outcome (ConcurrentQueue T) :=
  o ← object w this;
  hashes ← read_hashes (S (size (tables w))) w (ob_implicitProducerHash o);
  Ret (mkQueue (ob_heap o) (ob_producers o) (ob_producerListTail o) (ob_producerCount o) hashes.*2 (ob_implicitProducerHashCount o)
    (ob_nextExplicitConsumerId o) (ob_globalExplicitConsumerOffset o)).

(** Writing the tables back, the oldest first; [prev] is the one written last.  Tables
    beyond those that were there are new and are put in front. *)
Fixpoint write_hashes w (prev : option HashPtr) (ptrs : list HashPtr) (hashes : list ImplicitProducerHash) : outcome (option HashPtr * Queues) :=
  match hashes, ptrs with
  | [], [] => Ret (prev, w)
  | [], _ :: _ => Fault BadPointer
  | hash :: hashes, InitialOf i :: ptrs =>
      o ← object w i;
      let o := mkObject (ob_heap o) (ob_producers o) (ob_parents o) (ob_producerListTail o) (ob_producerCount o) (ob_nextExplicitConsumerId o)
        (ob_globalExplicitConsumerOffset o) (ob_implicitProducerHash o) (ob_implicitProducerHashCount o) (hash_capacity hash) (ob_initial_entries o)
        (ob_initial_prev o) (hash_entries hash) in
      write_hashes (set_object w i o) (Some (InitialOf i)) ptrs hashes
  | hash :: hashes, Allocated t :: ptrs =>
      tb ← of_option BadPointer (tables w !! t);
      write_hashes (set_tables w (<[t := mkTable hash (table_prev tb)]> (tables w))) (Some (Allocated t)) ptrs hashes
  | hash :: hashes, [] =>
      let t := base.fresh (dom (tables w) : gset nat) in
      write_hashes (set_tables w (<[t := mkTable hash prev]> (tables w))) (Some (Allocated t)) [] hashes
  end.

(** The state [q] an operation leaves is that of the object; new producers have it for
    parent. *)
Definition write_queue w this (q : ConcurrentQueue T) : outcome Queues :=
  o ← object w this;
  old ← read_hashes (S (size (tables w))) w (ob_implicitProducerHash o);
  '(hash, w) ← write_hashes w None (reverse old.*1) (reverse (implicitProducerHash q));
  hash ← of_option BadPointer hash;
  o ← object w this;
  Ret (set_object w this (mkObject (cq_heap q) (cq_producers q) (ob_parents o ++ replicate (length (cq_producers q) - length (ob_producers o)) this)
    (producerListTail q) (producerCount q) (nextExplicitConsumerId q) (globalExplicitConsumerOffset q) hash (implicitProducerHashCount q)
    (ob_initial_capacity o) (ob_initial_entries o) (ob_initial_prev o) (ob_entries o))).

(** The destructor of the queue at [this]: the result has the tokens it invalidated and
    the heap of its blocks. *)
Definition destroy_queue w this : outcome (list nat * Heap T * Queues) :=
  q ← read_queue w this;
  '(dead, h) ← ConcurrentQueue_destroy q;
  w ← destroy_tables (S (S (size (tables w)))) w (ob_implicitProducerHash <$> objects w !! this);
  Ret (dead, h, mkQueues (delete this (objects w)) (tables w)).
End Move.

Arguments QueueObject : clear implicits.
Arguments Queues : clear implicits.
