(* ===== verification/QueueMoveSpec.v ===== *)
(** * What moving and swapping queues does

    The queue an object holds is the one its members and its chain of hash tables
    describe.  Swapping exchanges the queues two objects hold; moving leaves a new,
    empty queue behind.  Afterwards every producer has the right parent and every chain
    ends in the table of its own object. *)
From S2P Require Import Prelude QueueDetails QueueBlock Producer ImplicitProducer ExplicitProducer ProducerHash Queue QueueSpec QueueMove.

Section Spec.
Context {T : Type}.
Implicit Types (w : Queues T) (o : QueueObject T) (q : ConcurrentQueue T) (ts : list nat) (m : gmap nat HashTable) (C : gmap nat (list nat)).

(** ** Chains *)

(** From [ptr] the allocated tables [ts] lead to the initial table of queue [i]. *)
Fixpoint linked m (ptr : HashPtr) ts (i : nat) : Prop :=
  match ts with
  | [] => ptr = InitialOf i
  | t :: ts => ptr = Allocated t /\ exists tb next, m !! t = Some tb /\ table_prev tb = Some next /\ linked m next ts i
  end.

Definition hashes_of m ts : list ImplicitProducerHash := omap (fun t => table_hash <$> m !! t) ts.

(** The same tables, but for their links. *)
Definition same_hashes m m' : Prop := forall t, table_hash <$> m' !! t = table_hash <$> m !! t.

Lemma same_hashes_refl m : same_hashes m m.
Proof. done. Qed.

Lemma same_hashes_trans m1 m2 m3 : same_hashes m1 m2 -> same_hashes m2 m3 -> same_hashes m1 m3.
Proof. intros H1 H2 t. by rewrite H2. Qed.

Lemma hashes_of_same m m' ts : same_hashes m m' -> hashes_of m' ts = hashes_of m ts.
Proof. intros H. unfold hashes_of. induction ts as [|t ts IH]; [done|]. cbn. by rewrite H, IH. Qed.

Lemma same_hashes_dom m m' t : same_hashes m m' -> is_Some (m' !! t) <-> is_Some (m !! t).
Proof. intros H. specialize (H t). by rewrite <- !(fmap_is_Some table_hash), H. Qed.

Lemma linked_frame m m' ptr ts i : (forall t, t ∈ ts -> m' !! t = m !! t) -> linked m ptr ts i -> linked m' ptr ts i.
Proof.
  revert ptr. induction ts as [|t ts IH]; intros ptr Hm; [done|]. intros (-> & tb & next & Ht & Hn & Hl). split; [done|].
  exists tb, next. rewrite Hm by left. split; [done|]. split; [done|]. apply IH; [|done]. intros x Hx. apply Hm. by right.
Qed.

Lemma linked_present m ptr ts i t : linked m ptr ts i -> t ∈ ts -> is_Some (m !! t).
Proof.
  revert ptr. induction ts as [|x ts IH]; intros ptr Hl Ht; [by apply elem_of_nil in Ht|]. destruct Hl as (-> & tb & next & Hx & _ & Hl).
  apply elem_of_cons in Ht as [->|Ht]; [by eexists|]. by eapply IH.
Qed.

Lemma chain_length m ptr ts i : linked m ptr ts i -> NoDup ts -> (length ts <= size m)%nat.
Proof.
  intros Hl Hnd. rewrite <- (size_list_to_set (C := gset nat) ts Hnd), <- size_dom. apply subseteq_size. intros t Ht%elem_of_list_to_set.
  apply elem_of_dom. by eapply linked_present.
Qed.

(** The loop that looks for the end of the chain finds it and changes that link only. *)
Lemma relink_spec this other : forall ts fuel w t ptr,
  linked (tables w) ptr (t :: ts) other -> NoDup (t :: ts) -> (length ts < fuel)%nat ->
  exists m', relink fuel w this other ptr = Ret (set_tables w m') /\ linked m' ptr (t :: ts) this /\ same_hashes (tables w) m' /\
    forall x, x ∉ t :: ts -> m' !! x = tables w !! x.
Proof.
  induction ts as [|t' ts IH]; intros [|fuel] w t ptr Hl Hnd Hf; cbn [length] in Hf; try lia.
  - destruct Hl as (-> & tb & next & Ht & Hp & ->). cbn [relink hash_at]. rewrite Ht. cbn [of_option]. rewrite ret_bind, Hp, decide_True by done.
    cbn [set_prev]. rewrite Ht. cbn [of_option]. rewrite ret_bind. eexists. split; [done|]. split; [|split].
    + split; [done|]. eexists _, _. by rewrite lookup_insert_eq.
    + intros x. rewrite lookup_insert. case_decide; subst; [by rewrite Ht|done].
    + intros x Hx. apply not_elem_of_cons in Hx as [Hx _]. by rewrite lookup_insert_ne.
  - destruct Hl as (-> & tb & next & Ht & Hp & Hl). cbn [relink hash_at]. rewrite Ht. cbn [of_option]. rewrite ret_bind, Hp.
    apply NoDup_cons in Hnd as [Htn Hnd]. pose proof Hl as (-> & _). rewrite decide_False by done.
    destruct (IH fuel w t' _ Hl Hnd ltac:(lia)) as (m' & -> & Hl' & Hs & Hx). exists m'. split; [done|]. split; [|split; [done|]].
    + split; [done|]. exists tb, (Allocated t'). rewrite Hx by done. done.
    + intros x Hn. apply not_elem_of_cons in Hn as [_ Hn]. by apply Hx.
Qed.

(** ** What an object holds *)

Definition queue_of m o ts : ConcurrentQueue T :=
  mkQueue (ob_heap o) (ob_producers o) (ob_producerListTail o) (ob_producerCount o)
    (hashes_of m ts ++ [mkHash (ob_initial_capacity o) (ob_entries o)]) (ob_implicitProducerHashCount o)
    (ob_nextExplicitConsumerId o) (ob_globalExplicitConsumerOffset o).

(** The members that do not change while the object lives. *)
Record fixed_ok (i : nat) o : Prop := mk_fixed_ok {
  fo_capacity : ob_initial_capacity o = INITIAL_IMPLICIT_PRODUCER_HASH_SIZE;
  fo_entries : ob_initial_entries o = i;
  fo_prev : ob_initial_prev o = None }.

(** The list of producers, [i] being their parent. *)
Record owned (i : nat) o : Prop := mk_owned {
  ow_tail : ob_producerListTail o = link_of (length (ob_producers o));
  ow_next : forall k n, ob_producers o !! k = Some n -> node_next n = link_of k;
  ow_parents : ob_parents o = replicate (length (ob_producers o)) i }.

Record object_ok m (i : nat) o ts : Prop := mk_object_ok {
  oo_fixed : fixed_ok i o;
  oo_owned : owned i o;
  oo_chain : linked m (ob_implicitProducerHash o) ts i;
  oo_nodup : NoDup ts }.

(** The objects, with the allocated tables [C] of each: nobody shares a table, and
    every table is somebody's. *)
Record queues_ok w C : Prop := mk_queues_ok {
  qo_objects : forall i o, objects w !! i = Some o -> exists ts, C !! i = Some ts /\ object_ok (tables w) i o ts;
  qo_dom : forall i, is_Some (C !! i) -> is_Some (objects w !! i);
  qo_disjoint : forall i j ts ts' t, C !! i = Some ts -> C !! j = Some ts' -> t ∈ ts -> t ∈ ts' -> i = j;
  qo_used : forall t, is_Some (tables w !! t) -> exists i ts, C !! i = Some ts /\ t ∈ ts }.

(** Object [i] holds queue [q]. *)
Definition holds w C (i : nat) q : Prop := exists o ts, objects w !! i = Some o /\ C !! i = Some ts /\ q = queue_of (tables w) o ts.

Lemma hash_at_initial w i o : objects w !! i = Some o -> fixed_ok i o -> hash_at w (InitialOf i) = Ret (mkTable (mkHash (ob_initial_capacity o) (ob_entries o)) None).
Proof. intros Ho [_ Ee Ep]. cbn. unfold object. rewrite Ho. cbn. by rewrite Ee, Ho, Ep. Qed.

Lemma read_hashes_spec w i o : objects w !! i = Some o -> fixed_ok i o -> forall ts fuel ptr,
  linked (tables w) ptr ts i -> (length ts < fuel)%nat ->
  exists l, read_hashes fuel w ptr = Ret l /\ l.*1 = map Allocated ts ++ [InitialOf i] /\
    l.*2 = hashes_of (tables w) ts ++ [mkHash (ob_initial_capacity o) (ob_entries o)].
Proof.
  intros Ho Hf. induction ts as [|t ts IH]; intros [|fuel] ptr Hl Hlt; cbn [length] in Hlt; try lia; cbn [read_hashes].
  - cbn in Hl. subst ptr. rewrite (hash_at_initial w i o Ho Hf), ret_bind. by eexists.
  - destruct Hl as (-> & tb & next & Ht & Hp & Hl). cbn [hash_at]. rewrite Ht. cbn [of_option]. rewrite ret_bind, Hp.
    destruct (IH fuel next Hl ltac:(lia)) as (l & -> & E1 & E2). rewrite ret_bind. eexists. split; [done|]. cbn. rewrite E1, E2, Ht. done.
Qed.

Lemma read_queue_spec w C i q : queues_ok w C -> holds w C i q -> read_queue w i = Ret q.
Proof.
  intros K (o & ts & Ho & Hts & ->). destruct (qo_objects _ _ K i o Ho) as (ts' & Hts' & [Hf _ Hl Hnd]). replace ts' with ts in * by congruence.
  unfold read_queue, object. rewrite Ho. cbn [of_option]. rewrite ret_bind. pose proof (chain_length _ _ _ _ Hl Hnd).
  destruct (read_hashes_spec w i o Ho Hf ts (S (size (tables w))) _ Hl ltac:(lia)) as (l & -> & _ & E2). rewrite ret_bind. by rewrite E2.
Qed.

(** ** Swapping *)

Lemma fix_chain_spec w this other o ts :
  objects w !! this = Some o -> linked (tables w) (ob_implicitProducerHash o) ts other -> NoDup ts ->
  exists hash m', fix_chain w this other =
      Ret (mkQueues (<[this := with_hash o hash (ob_implicitProducerHashCount o) (ob_initial_entries o) (ob_entries o)]> (objects w)) m') /\
    linked m' hash ts this /\ same_hashes (tables w) m' /\ forall x, x ∉ ts -> m' !! x = tables w !! x.
Proof.
  intros Ho Hl Hnd. unfold fix_chain, object. rewrite Ho. cbn [of_option]. rewrite ret_bind. destruct ts as [|t ts].
  - cbn in Hl. rewrite Hl, decide_True by done. by eexists _, _.
  - pose proof Hl as (Eh & _). rewrite Eh, decide_False by done. rewrite Eh in Hl. pose proof (chain_length _ _ _ _ Hl Hnd) as Hlen. cbn [length] in Hlen.
    destruct (relink_spec this other ts (S (size (tables w))) w t _ Hl Hnd ltac:(lia)) as (m' & -> & Hl' & Hs & Hx).
    exists (Allocated t), m'. split; [|done]. unfold set_tables. do 2 f_equal. symmetry. apply fin_maps.insert_id. rewrite Ho. f_equal. destruct o. cbn in *. by subst.
Qed.

Lemma swap_hashes_spec w this other a b ta tb :
  this <> other -> objects w !! this = Some a -> objects w !! other = Some b ->
  linked (tables w) (ob_implicitProducerHash a) ta this -> linked (tables w) (ob_implicitProducerHash b) tb other ->
  NoDup ta -> NoDup tb -> (forall t, t ∈ ta -> t ∉ tb) ->
  exists ha hb m', swap_implicit_producer_hashes w this other =
      Ret (mkQueues (<[other := with_hash b hb (ob_implicitProducerHashCount a) other (ob_entries a)]>
        (<[this := with_hash a ha (ob_implicitProducerHashCount b) this (ob_entries b)]> (objects w))) m') /\
    linked m' ha tb this /\ linked m' hb ta other /\ same_hashes (tables w) m' /\ forall x, x ∉ ta -> x ∉ tb -> m' !! x = tables w !! x.
Proof.
  intros Hne Ha Hb La Lb Na Nb Hd. unfold swap_implicit_producer_hashes, object. rewrite Ha, Hb. cbn [of_option]. rewrite !ret_bind.
  set (x := with_hash a _ _ _ _). set (y := with_hash b _ _ _ _). set (w1 := set_object _ other y).
  assert (objects w1 !! this = Some x) as Hx by (cbn; by rewrite lookup_insert_ne, lookup_insert_eq).
  destruct (fix_chain_spec w1 this other x tb Hx Lb Nb) as (ha & m1 & -> & L1 & S1 & F1). rewrite ret_bind.
  assert (linked m1 (ob_implicitProducerHash y) ta this) as L2.
  { apply (linked_frame (tables w)); [|done]. intros t Ht. apply F1. by apply Hd. }
  set (w2 := mkQueues _ m1). assert (objects w2 !! other = Some y) as Hy by (cbn; by rewrite lookup_insert_ne, lookup_insert_eq).
  destruct (fix_chain_spec w2 other this y ta Hy L2 Na) as (hb & m2 & -> & L3 & S2 & F2).
  exists ha, hb, m2. split; [|split; [|split; [done|split; [by eapply same_hashes_trans|]]]].
  - do 2 f_equal. cbn. apply map_eq. intros i. rewrite !lookup_insert. repeat case_decide; done.
  - apply (linked_frame m1); [|done]. intros t Ht. apply F2. intros Ht'. by apply (Hd t).
  - intros t Ht Ht'. cbn in F2. rewrite F2, F1 by done. done.
Qed.

Lemma reown_spec this (nodes : list ProducerNode) : (forall k n, nodes !! k = Some n -> node_next n = link_of k) ->
  forall k fuel parents, (k <= length nodes)%nat -> (k < fuel)%nat -> length parents = length nodes ->
  reown fuel this nodes parents (link_of k) = Ret (replicate k this ++ drop k parents).
Proof.
  intros Hn. induction k as [|k IH]; intros [|fuel] parents Hk Hf Hlen; try lia; [done|]. cbn [link_of reown].
  destruct (lookup_lt_is_Some_2 nodes k) as [n Hk']; [lia|]. rewrite Hk'. cbn [of_option]. rewrite ret_bind, (Hn _ _ Hk').
  rewrite IH by (rewrite ?length_insert; lia). f_equal. rewrite replicate_S_end, <- app_assoc. f_equal.
  rewrite (drop_S _ this) by (apply list_lookup_insert_eq; lia). by rewrite drop_insert_lt by lia.
Qed.

Lemma reown_producers_spec w this other o : objects w !! this = Some o -> owned other o ->
  reown_producers w this = Ret (set_object w this (with_parents o (replicate (length (ob_producers o)) this))).
Proof.
  intros Ho [Et En Ep]. unfold reown_producers, object. rewrite Ho. cbn [of_option]. rewrite ret_bind, Et, (reown_spec this _ En), ret_bind; try lia.
  - by rewrite drop_ge, app_nil_r by (rewrite Ep, length_replicate; lia).
  - by rewrite Ep, length_replicate.
Qed.

Lemma owned_parents i j o : owned i o -> owned j (with_parents o (replicate (length (ob_producers o)) j)).
Proof. intros [Et En Ep]. by constructor. Qed.

Lemma object_ok_frame m m' i o ts : (forall t, t ∈ ts -> m' !! t = m !! t) -> object_ok m i o ts -> object_ok m' i o ts.
Proof. intros H [Hf Ho Hl Hnd]. constructor; try done. by eapply linked_frame. Qed.

(** Two objects of a sound collection that are given new members and each other's
    tables. *)
Lemma queues_ok_two w C m' i j x y ti tj :
  queues_ok w C -> C !! i = Some ti -> i <> j -> default [] (C !! j) = tj ->
  object_ok m' i x tj -> object_ok m' j y ti -> same_hashes (tables w) m' -> (forall t, t ∉ ti -> t ∉ tj -> m' !! t = tables w !! t) ->
  queues_ok (mkQueues (<[j := y]> (<[i := x]> (objects w))) m') (<[j := ti]> (<[i := tj]> C)).
Proof.
  intros [Ho Hdom Hd Hu] Hi Hne Hj Hx Hy Hs Hf.
  assert (forall k ts t, k <> i -> k <> j -> C !! k = Some ts -> t ∈ ts -> (t ∉ ti) /\ (t ∉ tj)) as Hother.
  { intros k ts t Hki Hkj Hk Ht. split; [intros Ht'; apply Hki; by eapply Hd|]. subst tj. destruct (C !! j) as [ts'|] eqn:Ej; cbn; [|apply not_elem_of_nil].
    intros Ht'. apply Hkj. by eapply Hd. }
  assert (forall t, t ∈ ti -> t ∈ tj -> False) as Hij.
  { intros t H1 H2. subst tj. destruct (C !! j) as [ts'|] eqn:Ej; cbn in H2; [|by apply elem_of_nil in H2]. apply Hne. by eapply Hd. }
  constructor; cbn [objects tables].
  - intros k o. rewrite !lookup_insert. repeat case_decide; subst; [intros [= <-]; eauto..|]. intros Hk. destruct (Ho k o Hk) as (ts & Hts & Hok).
    exists ts. split; [done|]. eapply object_ok_frame; [|exact Hok]. intros t Ht. destruct (Hother k ts t) as [H1 H2]; try done. by apply Hf.
  - intros k. rewrite !lookup_insert. repeat case_decide; subst; try (intros _; by eexists). apply Hdom.
  - assert (forall k ts t, <[j := ti]> (<[i := tj]> C) !! k = Some ts -> t ∈ ts ->
      (k = i /\ t ∈ tj) \/ (k = j /\ t ∈ ti) \/ (k <> i /\ k <> j /\ C !! k = Some ts /\ (t ∉ ti) /\ (t ∉ tj))) as Hcases.
    { intros k ts t. rewrite !lookup_insert. repeat case_decide; subst; [intros [= <-]; tauto..|]. intros Hk Ht.
      destruct (Hother k ts t) as [H1 H2]; try done. right. right. done. }
    intros k k' ts ts' t Hk Hk' Ht Ht'. apply (Hcases _ _ _ Hk) in Ht as Hc. apply (Hcases _ _ _ Hk') in Ht' as Hc'.
    destruct Hc as [[-> ?]|[[-> ?]|(? & ? & ? & ? & ?)]], Hc' as [[-> ?]|[[-> ?]|(? & ? & ? & ? & ?)]]; try done; first [by destruct (Hij t)|by eapply Hd].
  - intros t Ht%(same_hashes_dom _ _ _ Hs). destruct (Hu t Ht) as (k & ts & Hk & Hin). destruct (decide (k = i)) as [->|Hki].
    + exists j, ti. rewrite lookup_insert_eq. split; [done|]. congruence.
    + destruct (decide (k = j)) as [->|Hkj].
      * exists i, tj. rewrite lookup_insert_ne, lookup_insert_eq by done. split; [done|]. subst tj. by rewrite Hk.
      * exists k, ts. by rewrite !lookup_insert_ne.
Qed.

Lemma heap_members (h : Heap T) : mkHeap (blocks h) (fresh h) (mem h) (initialBlockPoolIndex h) (initialBlockPoolSize h) (freeListHead h) = h.
Proof. by destruct h. Qed.

(** The tables of [i] in two collections. *)
Lemma holds_other w C w' C' i q :
  objects w' !! i = objects w !! i -> C' !! i = C !! i -> same_hashes (tables w) (tables w') -> holds w C i q -> holds w' C' i q.
Proof. intros Eo Ec Hs (o & ts & Ho & Hts & ->). exists o, ts. rewrite Eo, Ec. unfold queue_of. by rewrite (hashes_of_same _ _ ts Hs). Qed.

Lemma swap_internal_spec w C this other qa qb :
  queues_ok w C -> holds w C this qa -> holds w C other qb -> this <> other ->
  exists w' C', swap_internal w this other = Ret w' /\ queues_ok w' C' /\ holds w' C' this qb /\ holds w' C' other qa /\
    (forall i q, i <> this -> i <> other -> holds w C i q -> holds w' C' i q) /\ dom (objects w') = dom (objects w).
Proof.
  intros K (a & ta & Ha & Ca & ->) (b & tb & Hb & Cb & ->) Hne. pose proof (qo_objects _ _ K this a Ha) as (ta' & Ca' & [Fa Wa La Na]).
  pose proof (qo_objects _ _ K other b Hb) as (tb' & Cb' & [Fb Wb Lb Nb]). replace ta' with ta in * by congruence. replace tb' with tb in * by congruence.
  unfold swap_internal, object. rewrite decide_False, Ha, Hb by done. cbn [of_option]. rewrite !ret_bind.
  set (x := take_members a b). set (y := take_members b a). set (w1 := set_object _ other y).
  assert (objects w1 !! this = Some x) as Hx by (cbn; by rewrite lookup_insert_ne, lookup_insert_eq).
  assert (objects w1 !! other = Some y) as Hy by (cbn; by rewrite lookup_insert_eq).
  destruct (swap_hashes_spec w1 this other x y ta tb Hne Hx Hy La Lb Na Nb) as (ha & hb & m' & -> & L1 & L2 & Hs & Hf).
  { intros t H1 H2. apply Hne. by eapply (qo_disjoint _ _ K). }
  rewrite ret_bind. set (x' := with_hash x _ _ _ _). set (y' := with_hash y _ _ _ _).
  rewrite (reown_producers_spec _ this other x'), ret_bind; [|cbn; by rewrite lookup_insert_ne, lookup_insert_eq|by destruct Wb; constructor].
  rewrite (reown_producers_spec _ other this y'); [|cbn; by rewrite lookup_insert_ne, lookup_insert_eq|by destruct Wa; constructor].
  set (x2 := with_parents x' _). set (y2 := with_parents y' _).
  assert (queues_ok (mkQueues (<[other := y2]> (<[this := x2]> (objects w))) m') (<[other := ta]> (<[this := tb]> C))) as K'.
  { apply (queues_ok_two w C m' this other x2 y2 ta tb); try done; [by rewrite Cb|..].
    - constructor; [by destruct Fa; constructor|apply (owned_parents other this x'); by destruct Wb; constructor|done|done].
    - constructor; [by destruct Fb; constructor|apply (owned_parents this other y'); by destruct Wa; constructor|done|done]. }
  eexists _, _. split; [done|]. match goal with |- queues_ok ?u _ /\ _ => replace u with (mkQueues (<[other := y2]> (<[this := x2]> (objects w))) m') end.
  2: { unfold set_object. cbn. f_equal. apply map_eq. intros i. rewrite !lookup_insert. repeat case_decide; done. }
  split; [exact K'|]. split; [|split; [|split]].
  - exists x2, tb. cbn [objects tables]. split; [by rewrite lookup_insert_ne, lookup_insert_eq|]. split; [by rewrite lookup_insert_ne, lookup_insert_eq|].
    unfold queue_of. cbn. by rewrite (hashes_of_same _ _ _ Hs), heap_members, (fo_capacity _ _ Fa), (fo_capacity _ _ Fb).
  - exists y2, ta. cbn [objects tables]. split; [by rewrite lookup_insert_eq|]. split; [by rewrite lookup_insert_eq|].
    unfold queue_of. cbn. by rewrite (hashes_of_same _ _ _ Hs), heap_members, (fo_capacity _ _ Fa), (fo_capacity _ _ Fb).
  - intros i q Hi Hj. apply holds_other; cbn; [by rewrite !lookup_insert_ne..|done].
  - cbn. rewrite !dom_insert_L. apply elem_of_dom_2 in Ha, Hb. set_solver.
Qed.

(** ** Moving *)

(** What the move constructor leaves is what the constructor makes. *)
Lemma move_construct_spec w C this other results qb :
  queues_ok w C -> objects w !! this = None -> holds w C other qb ->
  exists w' C', move_construct w this other results = Ret w' /\ queues_ok w' C' /\ holds w' C' this qb /\
    holds w' C' other (ConcurrentQueue_new results [] 0) /\
    (forall i q, i <> this -> i <> other -> holds w C i q -> holds w' C' i q) /\ dom (objects w') = {[this]} ∪ dom (objects w).
Proof.
  intros K Hthis (b & tb & Hb & Cb & ->). pose proof (qo_objects _ _ K other b Hb) as (tb' & Cb' & [Fb Wb Lb Nb]). replace tb' with tb in * by congruence.
  assert (this <> other) as Hne by congruence.
  assert (C !! this = None) as Cthis. { destruct (C !! this) as [ts|] eqn:E; [|done]. destruct (qo_dom _ _ K this) as [? ?]; [by eexists|congruence]. }
  unfold move_construct, object. rewrite Hb. cbn [of_option]. rewrite ret_bind.
  set (x := populate_hash this _). set (w1 := set_object w this x).
  assert (objects w1 !! this = Some x) as Hx by (cbn; by rewrite lookup_insert_eq).
  assert (objects w1 !! other = Some b) as Hy by (cbn; by rewrite lookup_insert_ne).
  destruct (swap_hashes_spec w1 this other x b [] tb Hne Hx Hy eq_refl Lb ltac:(constructor) Nb) as (ha & hb & m' & -> & L1 & L2 & Hs & Hf).
  { by intros t ?%elem_of_nil. }
  rewrite ret_bind. cbn [objects]. rewrite lookup_insert_eq. cbn [of_option]. rewrite ret_bind. cbn in L2. subst hb.
  set (x' := with_hash x _ _ _ _). set (y' := mkObject (Heap_empty results) _ _ _ _ _ _ _ _ _ _ _ _).
  rewrite (reown_producers_spec _ this other x'); [|cbn; by rewrite 2!lookup_insert_ne, lookup_insert_eq by done|by destruct Wb; constructor].
  set (x2 := with_parents x' _).
  assert (queues_ok (mkQueues (<[this := x2]> (<[other := y']> (objects w))) m') (<[this := tb]> (<[other := []]> C))) as K'.
  { apply (queues_ok_two w C m' other this y' x2 tb []); try done; [by rewrite Cthis|..].
    - constructor; [by destruct Fb; constructor|by constructor|done|constructor].
    - constructor; [by constructor|apply (owned_parents other this x'); by destruct Wb; constructor|done|done].
    - intros t H1 _. apply Hf; [apply not_elem_of_nil|done]. }
  eexists _, _. split; [done|]. match goal with |- queues_ok ?u _ /\ _ => replace u with (mkQueues (<[this := x2]> (<[other := y']> (objects w))) m') end.
  2: { unfold set_object. cbn. f_equal. apply map_eq. intros i. rewrite !lookup_insert. repeat case_decide; done. }
  split; [exact K'|]. split; [|split; [|split]].
  - exists x2, tb. cbn [objects tables]. split; [by rewrite lookup_insert_eq|]. split; [by rewrite lookup_insert_eq|].
    unfold queue_of. cbn. by rewrite (hashes_of_same _ _ _ Hs), heap_members, (fo_capacity _ _ Fb).
  - exists y', []. cbn [objects tables]. split; [by rewrite lookup_insert_ne, lookup_insert_eq|]. split; [by rewrite lookup_insert_ne, lookup_insert_eq|].
    unfold queue_of. cbn. by rewrite (fo_capacity _ _ Fb).
  - intros i q Hi Hj. apply holds_other; cbn; [by rewrite !lookup_insert_ne..|done].
  - cbn. rewrite !dom_insert_L. apply elem_of_dom_2 in Hb. set_solver.
Qed.
End Spec.
