(* ===== verification/QueueMoveWrite.v ===== *)
(** * Constructing, using and destroying queue objects

    An operation on the queue of an object reads it, computes and writes it back; new
    hash tables are put in front of the chain and no table is lost. *)
From S2P Require Import Prelude QueueDetails QueueBlock Producer ImplicitProducer ExplicitProducer ProducerHash Queue QueueSpec QueueMove QueueMoveSpec.

Section Write.
Context {T : Type}.
Implicit Types (w : Queues T) (o : QueueObject T) (q : ConcurrentQueue T) (ts us : list nat) (m : gmap nat HashTable) (C : gmap nat (list nat)).

(** ** Writing the tables *)

Lemma hashes_of_app m ts ts' : hashes_of m (ts ++ ts') = hashes_of m ts ++ hashes_of m ts'.
Proof. apply omap_app. Qed.

Lemma hashes_of_reverse m ts : hashes_of m (reverse ts) = reverse (hashes_of m ts).
Proof.
  induction ts as [|t ts IH]; [done|]. rewrite reverse_cons, hashes_of_app, IH. change (t :: ts) with ([t] ++ ts). rewrite hashes_of_app, reverse_app.
  f_equal. unfold hashes_of. cbn. by destruct (m !! t).
Qed.

Lemma hashes_of_frame m m' ts : (forall t, t ∈ ts -> m' !! t = m !! t) -> hashes_of m' ts = hashes_of m ts.
Proof.
  intros H. unfold hashes_of. induction ts as [|t ts IH]; [done|]. cbn. rewrite H by left. rewrite IH; [done|]. intros x Hx. apply H. by right.
Qed.

Lemma hashes_of_length m ts : (forall t, t ∈ ts -> is_Some (m !! t)) -> length (hashes_of m ts) = length ts.
Proof.
  intros H. unfold hashes_of. induction ts as [|t ts IH]; [done|]. cbn. destruct (H t) as [tb ->]; [left|]. cbn. rewrite IH; [done|]. intros x Hx. apply H. by right.
Qed.

(** Links do not depend on what the tables hold. *)
Lemma linked_prevs m m' ptr ts i : (forall t, table_prev <$> m' !! t = table_prev <$> m !! t) -> linked m ptr ts i -> linked m' ptr ts i.
Proof.
  intros H. revert ptr. induction ts as [|t ts IH]; intros ptr; [done|]. intros (-> & tb & next & Ht & Hp & Hl). split; [done|].
  specialize (H t). rewrite Ht in H. cbn in H. apply fmap_Some in H as (tb' & Ht' & E). exists tb', next. split; [done|]. split; [congruence|]. by apply IH.
Qed.

(** The tables that were there. *)
Lemma write_existing us : forall w prev hashes,
  (forall t, t ∈ us -> is_Some (tables w !! t)) -> NoDup us -> (length us <= length hashes)%nat ->
  exists m', write_hashes w prev (map Allocated us) hashes =
      write_hashes (set_tables w m') (from_option (fun t => Some (Allocated t)) prev (last us)) [] (drop (length us) hashes) /\
    (forall t, table_prev <$> m' !! t = table_prev <$> tables w !! t) /\ (forall t, t ∉ us -> m' !! t = tables w !! t) /\
    hashes_of m' us = take (length us) hashes.
Proof.
  induction us as [|t us IH]; intros w prev [|hash hashes] Hin Hnd Hlen; cbn [length] in Hlen; try lia.
  - exists (tables w). by destruct w.
  - exists (tables w). by destruct w.
  - apply NoDup_cons in Hnd as [Ht Hnd]. destruct (Hin t) as [tb Htb]; [left|]. cbn [map write_hashes]. rewrite Htb. cbn [of_option]. rewrite ret_bind.
    set (w1 := set_tables w _). destruct (IH w1 (Some (Allocated t)) hashes) as (m' & E & Hp & Hf & Hh); [|done|lia|].
    { intros x Hx. cbn. rewrite lookup_insert. case_decide; [by eexists|]. apply Hin. by right. }
    exists m'. rewrite E, last_cons. split; [by destruct (last us)|]. split; [|split].
    + intros x. rewrite Hp. cbn. rewrite lookup_insert. case_decide; subst; [by rewrite Htb|done].
    + intros x Hx. apply not_elem_of_cons in Hx as [Hne Hx]. rewrite Hf by done. cbn. by rewrite lookup_insert_ne.
    + cbn [length take]. rewrite <- Hh. unfold hashes_of at 1. cbn. rewrite Hf by done. cbn. by rewrite lookup_insert_eq.
Qed.

(** New tables in front. *)
Lemma write_new i hashes : forall w ptr ts,
  linked (tables w) ptr ts i -> NoDup ts ->
  exists ptr' new m', write_hashes w (Some ptr) [] hashes = Ret (Some ptr', set_tables w m') /\ linked m' ptr' (new ++ ts) i /\ NoDup (new ++ ts) /\
    hashes_of m' (new ++ ts) = reverse hashes ++ hashes_of (tables w) ts /\
    (forall t, t ∈ new -> tables w !! t = None /\ is_Some (m' !! t)) /\ (forall t, t ∉ new -> m' !! t = tables w !! t).
Proof.
  induction hashes as [|hash hashes IH]; intros w ptr ts Hl Hnd; cbn [write_hashes].
  - exists ptr, [], (tables w). split; [by destruct w|]. do 3 (split; [done|]). split; [by intros t ?%elem_of_nil|done].
  - set (t := base.fresh _). assert (tables w !! t = None) as Ht by (apply not_elem_of_dom, is_fresh).
    assert (t ∉ ts) as Hts. { intros Hin. destruct (linked_present _ _ _ _ _ Hl Hin). congruence. }
    set (w1 := set_tables w _). destruct (IH w1 (Allocated t) (t :: ts)) as (ptr' & new & m' & -> & Hl' & Hnd' & Hh & Hn & Hf).
    { split; [done|]. eexists _, ptr. cbn. rewrite lookup_insert_eq. split; [done|]. split; [done|]. eapply linked_frame; [|exact Hl].
      intros x Hx. rewrite lookup_insert_ne; [done|congruence]. }
    { by constructor. }
    exists ptr', (new ++ [t]), m'. rewrite <- app_assoc. cbn [app]. split; [done|]. split; [done|]. split; [done|]. split; [|split].
    + rewrite Hh, reverse_cons, <- app_assoc. f_equal. unfold hashes_of at 1. cbn. rewrite lookup_insert_eq. cbn. f_equal. apply hashes_of_frame.
      intros x Hx. rewrite lookup_insert_ne; [done|congruence].
    + intros x [Hx|Hx%list_elem_of_singleton]%elem_of_app.
      * destruct (Hn x Hx) as [H1 H2]. split; [|done]. cbn in H1. by apply lookup_insert_None in H1 as [? _].
      * subst x. split; [done|]. destruct (decide (t ∈ new)) as [Hin|Hin]; [apply (Hn t Hin)|]. rewrite Hf by done. cbn. rewrite lookup_insert_eq. by eexists.
    + intros x Hx. apply not_elem_of_app in Hx as [H1 H2]. rewrite Hf by done. cbn. rewrite lookup_insert_ne; [done|]. intros ->. apply H2. by left.
Qed.

(** ** Changing one object *)

Lemma queues_ok_one w C m' i x ts' :
  queues_ok w C -> object_ok m' i x ts' -> (forall t, t ∉ ts' -> m' !! t = tables w !! t) -> (forall t, t ∈ default [] (C !! i) -> t ∈ ts') ->
  (forall j ts t, j <> i -> C !! j = Some ts -> t ∈ ts -> t ∉ ts') ->
  queues_ok (mkQueues (<[i := x]> (objects w)) m') (<[i := ts']> C) /\
  (forall j q, j <> i -> holds w C j q -> holds (mkQueues (<[i := x]> (objects w)) m') (<[i := ts']> C) j q).
Proof.
  intros [Ho Hdom Hd Hu] Hx Hf Hsub Hdis. split; [constructor; cbn [objects tables]|].
  - intros k o. rewrite !lookup_insert. case_decide; subst; [intros [= <-]; eauto|]. intros Hk. destruct (Ho k o Hk) as (ts & Hts & Hok).
    exists ts. split; [done|]. eapply object_ok_frame; [|exact Hok]. intros t Ht. apply Hf. by eapply Hdis.
  - intros k. rewrite !lookup_insert. case_decide; [intros _; by eexists|apply Hdom].
  - intros k k' ts ts2 t. rewrite !lookup_insert. repeat case_decide; subst; [done|..].
    + intros [= <-] Hk Ht Ht'. by destruct (Hdis k' ts2 t).
    + intros Hk [= <-] Ht Ht'. by destruct (Hdis k ts t).
    + by apply Hd.
  - intros t Ht. destruct (decide (t ∈ ts')) as [Hin|Hin]; [exists i, ts'; by rewrite lookup_insert_eq|]. rewrite Hf in Ht by done.
    destruct (Hu t Ht) as (k & ts & Hk & Htk). destruct (decide (k = i)) as [->|Hne]; [destruct Hin; apply Hsub; by rewrite Hk|].
    exists k, ts. by rewrite lookup_insert_ne.
  - intros j q Hj (o & ts & Hjo & Hjt & ->). exists o, ts. cbn. rewrite !lookup_insert_ne by done. split; [done|]. split; [done|]. unfold queue_of.
    rewrite (hashes_of_frame (tables w) m' ts); [done|]. intros t Ht. apply Hf. by eapply Hdis.
Qed.

(** The constructor. *)
Lemma QueueObject_new_spec w C this results garbage capacity :
  queues_ok w C -> objects w !! this = None ->
  let w' := set_object w this (QueueObject_new this results garbage capacity) in
  queues_ok w' (<[this := []]> C) /\ holds w' (<[this := []]> C) this (ConcurrentQueue_new results garbage capacity) /\
  forall i q, i <> this -> holds w C i q -> holds w' (<[this := []]> C) i q.
Proof.
  intros K Hthis. destruct (queues_ok_one w C (tables w) this (QueueObject_new this results garbage capacity) []) as [K' H']; [done|..].
  - constructor; [by constructor|by constructor|done|constructor].
  - done.
  - destruct (C !! this) eqn:E; [|done]. destruct (qo_dom _ _ K this) as [? ?]; [by eexists|congruence].
  - intros ? ? ? _ _ _. apply not_elem_of_nil.
  - split; [exact K'|]. split; [|exact H']. eexists _, []. cbn. by rewrite !lookup_insert_eq.
Qed.

(** The state [q'] follows [q]: no table is lost, and none takes the place of the one
    inside the object. *)
Record follows q q' : Prop := mk_follows {
  fw_tables : (length (implicitProducerHash q) <= length (implicitProducerHash q'))%nat;
  fw_initial : exists hash, last (implicitProducerHash q') = Some hash /\ hash_capacity hash = INITIAL_IMPLICIT_PRODUCER_HASH_SIZE;
  fw_producers : (length (cq_producers q) <= length (cq_producers q'))%nat;
  fw_tail : producerListTail q' = link_of (length (cq_producers q'));
  fw_next : forall k n, cq_producers q' !! k = Some n -> node_next n = link_of k }.

Lemma write_queue_spec w C i q q' :
  queues_ok w C -> holds w C i q -> follows q q' ->
  exists w' C', write_queue w i q' = Ret w' /\ queues_ok w' C' /\ holds w' C' i q' /\
    (forall j q, j <> i -> holds w C j q -> holds w' C' j q) /\ dom (objects w') = dom (objects w).
Proof.
  intros K (o & ts & Ho & Hts & ->) [Ft (h0 & Fi & Fc) Fp Fl Fn]. destruct (qo_objects _ _ K i o Ho) as (ts' & Hts' & [Hf Hw Hl Hnd]). replace ts' with ts in * by congruence. clear Hts'.
  unfold write_queue, object. rewrite Ho. cbn [of_option]. rewrite ret_bind. pose proof (chain_length _ _ _ _ Hl Hnd).
  destruct (read_hashes_spec w i o Ho Hf ts (S (size (tables w))) _ Hl ltac:(lia)) as (l & -> & E1 & _). rewrite ret_bind, E1, reverse_app. cbn [reverse rev_append app].
  apply last_Some in Fi as (hs & Eh). rewrite Eh, reverse_app. cbn [reverse rev_append app].
  assert (length ts <= length hs)%nat as Hlen.
  { cbn [queue_of implicitProducerHash] in Ft. rewrite Eh, !length_app, hashes_of_length in Ft by (intros t; by eapply linked_present). cbn in Ft. lia. }
  assert (reverse (map Allocated ts) = map Allocated (reverse ts)) as -> by (symmetry; apply (fmap_reverse Allocated)). cbn [write_hashes]. unfold object. rewrite Ho. cbn [of_option]. rewrite ret_bind.
  set (o1 := mkObject (ob_heap o) _ _ _ _ _ _ _ _ _ _ _ _). set (w1 := set_object w i o1).
  destruct (write_existing (reverse ts) w1 (Some (InitialOf i)) (reverse hs)) as (m1 & -> & Hp1 & Hf1 & Hh1).
  { intros t Ht. rewrite elem_of_reverse in Ht. by eapply linked_present. } { by rewrite reverse_Permutation. } { by rewrite !length_reverse. }
  assert (from_option (fun t => Some (Allocated t)) (Some (InitialOf i)) (last (reverse ts)) = Some (ob_implicitProducerHash o)) as ->.
  { destruct ts as [|t ts]; [cbn in Hl; by rewrite Hl|]. destruct Hl as [-> _]. by rewrite reverse_cons, last_snoc. }
  set (w2 := set_tables w1 m1). assert (linked (tables w2) (ob_implicitProducerHash o) ts i) as L2 by (by eapply linked_prevs).
  destruct (write_new i (drop (length (reverse ts)) (reverse hs)) w2 _ ts L2 Hnd) as (ptr' & new & m' & -> & L' & Nd' & Hh' & Hn' & Hf').
  rewrite ret_bind. cbn [of_option]. rewrite ret_bind. cbn [objects set_tables set_object]. unfold w2, w1. cbn [objects set_tables set_object]. rewrite lookup_insert_eq. cbn [of_option]. rewrite ret_bind.
  set (x := mkObject (cq_heap q') _ _ _ _ _ _ _ _ _ _ _ _).
  destruct (queues_ok_one w C m' i x (new ++ ts)) as [K' H'].
  - done.
  - constructor; [by destruct Hf; constructor| |done|done]. constructor; [done|done|]. cbn. destruct Hw as [_ _ ->]. rewrite <- replicate_add. f_equal. cbn in Fp. lia.
  - intros t Ht. apply not_elem_of_app in Ht as [H1 H2]. rewrite Hf' by done. cbn. rewrite Hf1; [done|]. by rewrite elem_of_reverse.
  - rewrite Hts. intros t Ht. cbn in Ht. apply elem_of_app. by right.
  - intros j tj t Hj Cj Ht [Hin|Hin]%elem_of_app.
    + destruct (qo_dom _ _ K j) as [oj Hoj]; [by eexists|]. destruct (qo_objects _ _ K j oj Hoj) as (tj' & Cj' & [_ _ Lj _]). replace tj' with tj in * by congruence.
      destruct (linked_present _ _ _ _ _ Lj Ht) as [tb Htb]. destruct (Hn' t Hin) as [Hnone _]. cbn in Hnone. specialize (Hp1 t). rewrite Hnone in Hp1. cbn in Hp1. by rewrite Htb in Hp1.
    + apply Hj. by eapply (qo_disjoint _ _ K).
  - eexists _, (<[i := new ++ ts]> C). split; [done|].
    match goal with |- queues_ok ?u _ /\ _ => replace u with (mkQueues (<[i := x]> (objects w)) m') by (unfold set_object; cbn; by rewrite insert_insert_eq) end.
    split; [exact K'|]. split; [|split; [exact H'|]].
    + exists x, (new ++ ts). cbn. rewrite !lookup_insert_eq. split; [done|]. split; [done|]. unfold queue_of. cbn.
      rewrite Hh'. cbn. rewrite <- (reverse_involutive (hashes_of m1 ts)), <- hashes_of_reverse, Hh1, <- reverse_app, take_drop, reverse_involutive.
      destruct q', h0. cbn in *. by subst.
    + cbn. rewrite dom_insert_L. apply elem_of_dom_2 in Ho. set_solver.
Qed.
End Write.
