(* ===== verification/QueueMoveTrace.v ===== *)
(** * Runs over several queues

    Queues are made, used, moved, swapped and destroyed in any order.  Every queue
    behaves as its own first-in first-out lists, which go where it is moved; a queue
    that was moved from is empty and can be used again; at the end no hash table is
    left. *)
From S2P Require Import Prelude QueueDetails QueueBlock Producer ImplicitProducer ExplicitProducer ProducerHash Queue QueueSpec QueueThreads QueueTokens QueueRuns QueueTrace QueueGrowth QueueMove QueueMoveSpec QueueMoveWrite.

Section Runs.
Context {T : Type}.
Implicit Types (w : Queues T) (o : QueueObject T) (q : ConcurrentQueue T) (ts : list nat) (m : gmap nat HashTable) (C : gmap nat (list nat)).

(** ** Destruction *)

Lemma destroy_tables_spec i o : forall ts fuel w ptr,
  objects w !! i = Some o -> fixed_ok i o -> linked (tables w) ptr ts i -> NoDup ts -> (S (length ts) <= fuel)%nat ->
  exists m', destroy_tables fuel w (Some ptr) = Ret (set_tables w m') /\ (forall t, t ∈ ts -> m' !! t = None) /\ (forall t, t ∉ ts -> m' !! t = tables w !! t).
Proof.
  induction ts as [|t ts IH]; intros [|fuel] w ptr Ho Hf Hl Hnd Hlt; cbn [length] in Hlt; try lia; cbn [destroy_tables].
  - cbn in Hl. subst ptr. rewrite (hash_at_initial w i o Ho Hf), ret_bind. cbn [table_prev]. rewrite ret_bind. exists (tables w).
    split; [by destruct fuel, w|]. split; [by intros t ?%elem_of_nil|done].
  - destruct Hl as (-> & tb & next & Ht & Hp & Hl). cbn [hash_at]. rewrite Ht. cbn [of_option]. rewrite ret_bind, Hp, ret_bind.
    apply NoDup_cons in Hnd as [Htn Hnd]. destruct (IH fuel (set_tables w (delete t (tables w))) next Ho Hf) as (m' & E & Hin & Hout); [|done|lia|].
    { eapply linked_frame; [|exact Hl]. intros x Hx. cbn. rewrite lookup_delete_ne; [done|congruence]. }
    exists m'. split; [exact E|]. split.
    + intros x [->|Hx]%elem_of_cons; [|by apply Hin]. rewrite Hout by done. cbn. by rewrite lookup_delete_eq.
    + intros x Hx. apply not_elem_of_cons in Hx as [Hne Hx]. rewrite Hout by done. cbn. by rewrite lookup_delete_ne.
Qed.

Lemma destroy_queue_spec w C i q qs bss :
  queues_ok w C -> holds w C i q -> list_rep q qs bss ->
  exists h w', destroy_queue w i = Ret (known q (length qs), h, w') /\ blocks h = ∅ /\ queues_ok w' (delete i C) /\
    (forall j q, j <> i -> holds w C j q -> holds w' (delete i C) j q) /\ objects w' = delete i (objects w).
Proof.
  intros K H R. unfold destroy_queue. rewrite (read_queue_spec w C i q K H), ret_bind.
  destruct (ConcurrentQueue_destroy_spec q qs bss R) as (h & -> & Hb). rewrite ret_bind. destruct H as (o & ts & Ho & Hts & ->).
  pose proof (qo_objects _ _ K i o Ho) as (ts' & Hts' & [Hf _ Hl Hnd]). replace ts' with ts in * by congruence. clear Hts'.
  rewrite Ho. cbn [fmap option_fmap option_map]. pose proof (chain_length _ _ _ _ Hl Hnd).
  destruct (destroy_tables_spec i o ts (S (S (size (tables w)))) w _ Ho Hf Hl Hnd ltac:(lia)) as (m' & -> & Hin & Hout). rewrite ret_bind.
  assert (forall j tj t, j <> i -> C !! j = Some tj -> t ∈ tj -> t ∉ ts) as Hdis.
  { intros j tj t Hj Cj Ht Ht'. apply Hj. by eapply (qo_disjoint _ _ K). }
  eexists h, _. split; [done|]. split; [done|]. split; [constructor; cbn [objects tables set_tables]|split; [|done]].
  - intros j oj. rewrite !lookup_delete. case_decide; [done|]. intros Hj. destruct (qo_objects _ _ K j oj Hj) as (tj & Cj & Hok). exists tj. split; [done|].
    eapply object_ok_frame; [|exact Hok]. intros t Ht. apply Hout. by eapply Hdis.
  - intros j. rewrite !lookup_delete. case_decide; [by intros [? ?]|apply K].
  - intros j j' tj tj' t. rewrite !lookup_delete. repeat case_decide; try done. apply K.
  - intros t Ht. assert (t ∉ ts) as Hn. { intros Hts'. rewrite (Hin t Hts') in Ht. by destruct Ht. } rewrite (Hout t Hn) in Ht.
    destruct (qo_used _ _ K t Ht) as (j & tj & Cj & Htj). exists j, tj. rewrite lookup_delete_ne; [done|]. intros <-. congruence.
  - intros j q Hj (oj & tj & Hoj & Cj & ->). exists oj, tj. cbn. rewrite !lookup_delete_ne by done. split; [done|]. split; [done|]. unfold queue_of.
    rewrite (hashes_of_frame (tables w) m' tj); [done|]. intros t Ht. apply Hout. by eapply Hdis.
Qed.

(** ** Operations *)

(** What grows into the representation of a queue follows it. *)
Lemma rep_follows q q' qs bss O : grows q q' -> queue_rep q' qs bss O -> follows q q'.
Proof.
  intros [G1 G2] Q. pose proof (qr_list _ _ _ _ Q) as R. destruct (qr_hashes _ _ _ _ Q) as (M & _ & Hh & _). constructor; try done.
  - apply Hh.
  - by rewrite (lr_tail _ _ _ R), (lr_length _ _ _ R).
  - intros k nd Hk. destruct (lookup_lt_is_Some_2 qs k) as [l Hl]; [rewrite <- (lr_length _ _ _ R); by eapply lookup_lt_Some|].
    destruct (lr_nodes _ _ _ R k l Hl) as (nd' & bs & Hk' & _ & [En _]). congruence.
Qed.

Lemma queue_rep_ids q qs bss O n g : queue_rep q qs bss O -> queue_rep (set_consumer_ids q n g) qs bss O.
Proof. intros [R Hnu Hh Hk Hc]. constructor; try done. by eapply list_rep_ext; [..|exact R]. Qed.

Inductive MOp :=
  | MNew (results garbage : list bool) (capacity : Z)
  | MConsumer (i : nat)
  | MUse (i : nat) (op : QOp T)
  | MMove (i : nat) (results : list bool)
  | MSwap (i j : nat)
  | MDestroy (i : nat).

Inductive MAnswer := MMade (i : nat) | MUsed (a : QAnswer T) | MDone | MDestroyed (dead : list nat) (left : nat) | MAbsent.

(** The queues, and the tokens that were made for each. *)
Record MState := mkMState { ms_queues : Queues T; ms_next : nat; ms_tokens : gmap nat (list ConsumerToken * list TokenSlot) }.

(** The consumer tokens an operation uses are among the [k] there are. *)
Definition consumers_there (k : nat) (op : QOp T) : bool :=
  match op with
  | QDequeue (WithToken j) _ | QDequeueBulk (Some j) _ _ => bool_decide (j < k)%nat
  | QMoveConsumer j j' | QSwapConsumers j j' => bool_decide (j < k)%nat && bool_decide (j' < k)%nat
  | _ => true
  end.

(** Addresses are given out in order.  The tokens of a queue go with it. *)
Definition mop_step (st : MState) (op : MOp) : outcome (MAnswer * MState) :=
  let '(mkMState w next tokens) := st in
  match op with
  | MNew results garbage capacity =>
      Ret (MMade next, mkMState (set_object w next (QueueObject_new next results garbage capacity)) (S next) (<[next := ([], [])]> tokens))
  | MConsumer i =>
      match tokens !! i with
      | Some (consumers, slots) =>
          q ← read_queue w i;
          let '(token, q) := ConsumerToken_new q in
          w ← write_queue w i q; Ret (MDone, mkMState w next (<[i := (consumers ++ [token], slots)]> tokens))
      | None => Ret (MAbsent, st)
      end
  | MUse i op =>
      match tokens !! i with
      | Some (consumers, slots) =>
          if consumers_there (length consumers) op then
            q ← read_queue w i;
            '(a, qst) ← qop_step (mkQState q consumers slots) op;
            w ← write_queue w i (st_queue qst); Ret (MUsed a, mkMState w next (<[i := (st_consumers qst, st_slots qst)]> tokens))
          else Ret (MAbsent, st)
      | None => Ret (MAbsent, st)
      end
  | MMove i results =>
      match tokens !! i with
      | Some x => w ← move_construct w next i results; Ret (MMade next, mkMState w (S next) (<[next := x]> (<[i := ([], [])]> tokens)))
      | None => Ret (MAbsent, st)
      end
  | MSwap i j =>
      match tokens !! i, tokens !! j with
      | Some x, Some y => w ← swap_internal w i j; Ret (MDone, mkMState w next (<[j := x]> (<[i := y]> tokens)))
      | _, _ => Ret (MAbsent, st)
      end
  | MDestroy i =>
      match tokens !! i with
      | Some _ => '(dead, h, w) ← destroy_queue w i; Ret (MDestroyed dead (size (blocks h)), mkMState w next (delete i tokens))
      | None => Ret (MAbsent, st)
      end
  end.

Fixpoint mop_run (st : MState) (ops : list MOp) : outcome (list MAnswer * MState) :=
  match ops with
  | [] => Ret ([], st)
  | op :: ops => '(a, st) ← mop_step st op; '(l, st) ← mop_run st ops; Ret (a :: l, st)
  end.

Definition nothing_made : MState := mkMState (mkQueues ∅ ∅) 0 ∅.

(** ** The abstract queues *)

(** The lists of a queue, who holds its producer tokens, and how many consumer tokens it
    has. *)
Definition Lists : Type := gmap Owner (list T) * list TokenSlot * nat.
Definition no_lists : Lists := (∅, [], 0%nat).

Definition queues_used (op : MOp) : list nat :=
  match op with MNew _ _ _ => [] | MConsumer i | MUse i _ | MMove i _ | MDestroy i => [i] | MSwap i j => [i; j] end.

Implicit Types (A : gmap nat Lists).

Inductive mstep : nat * gmap nat Lists -> MOp -> MAnswer -> nat * gmap nat Lists -> Prop :=
  | ms_new n A results garbage capacity : mstep (n, A) (MNew results garbage capacity) (MMade n) (S n, <[n := no_lists]> A)
  | ms_consumer n A i s slots k : A !! i = Some (s, slots, k) -> mstep (n, A) (MConsumer i) MDone (n, <[i := (s, slots, S k)]> A)
  | ms_use n A i s slots k op a s' slots' : A !! i = Some (s, slots, k) -> consumers_there k op = true -> qstep (s, slots) op a (s', slots') ->
      mstep (n, A) (MUse i op) (MUsed a) (n, <[i := (s', slots', k)]> A)
  | ms_move n A i x results : A !! i = Some x -> mstep (n, A) (MMove i results) (MMade n) (S n, <[n := x]> (<[i := no_lists]> A))
  | ms_swap n A i j x y : A !! i = Some x -> A !! j = Some y -> mstep (n, A) (MSwap i j) MDone (n, <[j := x]> (<[i := y]> A))
  | ms_destroy n A i s slots k dead : A !! i = Some (s, slots, k) -> (forall t, t ∈ dead <-> exists p, slots !! t = Some (Held p)) ->
      mstep (n, A) (MDestroy i) (MDestroyed dead 0) (n, delete i A)
  | ms_absent n A op i : i ∈ queues_used op -> A !! i = None -> mstep (n, A) op MAbsent (n, A)
  | ms_no_consumer n A i s slots k op : A !! i = Some (s, slots, k) -> consumers_there k op = false -> mstep (n, A) (MUse i op) MAbsent (n, A).

Inductive mrun : nat * gmap nat Lists -> list MOp -> list MAnswer -> nat * gmap nat Lists -> Prop :=
  | mr_done c : mrun c [] [] c
  | mr_next c op a c1 ops answers c' : mstep c op a c1 -> mrun c1 ops answers c' -> mrun c (op :: ops) (a :: answers) c'.

(** What the operations must satisfy; [mem] says that every allocation succeeds. *)
Definition mop_ok (mem : Prop) (op : MOp) : Prop :=
  match op with
  | MNew _ _ capacity => capacity_ok capacity
  | MUse _ op => exists n, qop_ok mem n op
  | _ => True
  end.

(** No allocation for the queues it makes fails. *)
Definition has_memory (op : MOp) : Prop :=
  match op with MNew results _ _ | MMove _ results => Forall (fun r => r = true) results | _ => True end.

Definition mop_size (op : MOp) : nat := match op with MUse _ op => qop_size op | _ => 0 end.

Lemma qop_ok_there mem n k op : qop_ok mem n op -> consumers_there k op = true -> qop_ok mem k op.
Proof.
  destruct op as [|way throws| | | | | | |[j|] throws max| | | | |j j'|j j']; try done; cbn.
  - by destruct way as [| |j]; cbn; [..|intros _ ?%bool_decide_eq_true].
  - by intros [_ Hm] ?%bool_decide_eq_true.
  - by intros _ [?%bool_decide_eq_true ?%bool_decide_eq_true]%andb_true_iff.
  - by intros _ [?%bool_decide_eq_true ?%bool_decide_eq_true]%andb_true_iff.
Qed.

(** ** The invariant *)

(** The queue at [i] is sound and has the lists [x]. *)
Definition queue_has (mem : Prop) (b c : nat) w C (i : nat) (tokens : option (list ConsumerToken * list TokenSlot)) (x : Lists) : Prop :=
  exists q consumers slots qs bss O, holds w C i q /\ tokens = Some (consumers, slots) /\
    run_inv x.2 b c (mkQState q consumers slots) qs bss O /\ x.1 = (view O qs, slots) /\ (mem -> healthy q).

Record runs_inv (mem : Prop) (b c : nat) (st : MState) (A : gmap nat Lists) C : Prop := mk_runs_inv {
  mi_ok : queues_ok (ms_queues st) C;
  mi_queues : forall i x, A !! i = Some x -> queue_has mem b c (ms_queues st) C i (ms_tokens st !! i) x;
  mi_objects : dom (objects (ms_queues st)) = dom A;
  mi_tokens : dom (ms_tokens st) = dom A;
  mi_next : forall i, i ∈ dom A -> (i < ms_next st)%nat }.

Lemma queue_has_mono mem b c d w C i tokens x : queue_has mem b c w C i tokens x -> queue_has mem (S b) (c + d) w C i tokens x.
Proof. intros (q & consumers & slots & qs & bss & O & Hq & Ht & I & Hx & Hm). exists q, consumers, slots, qs, bss, O. split; [done|]. split; [done|]. split; [by apply run_inv_S|done]. Qed.

(** A step that leaves all queues alone but those it says something about. *)
Lemma runs_inv_step mem b c d st A C w' next' tokens' A' C' :
  runs_inv mem b c st A C -> queues_ok w' C' -> dom (objects w') = dom A' -> dom tokens' = dom A' -> (forall i, i ∈ dom A' -> (i < next')%nat) ->
  (forall i x, A' !! i = Some x -> queue_has mem (S b) (c + d) w' C' i (tokens' !! i) x \/
    (A !! i = Some x /\ tokens' !! i = ms_tokens st !! i /\ forall q, holds (ms_queues st) C i q -> holds w' C' i q)) ->
  runs_inv mem (S b) (c + d) (mkMState w' next' tokens') A' C'.
Proof.
  intros I K Ho Ht Hn Hq. constructor; cbn [ms_queues ms_tokens ms_next]; try done. intros i x Hx. destruct (Hq i x Hx) as [H|(HA & Et & Hh)]; [done|].
  apply queue_has_mono. destruct (mi_queues _ _ _ _ _ _ I i x HA) as (q & consumers & slots & qs & bss & O & Hi & Htk & R). exists q, consumers, slots, qs, bss, O.
  split; [by apply Hh|]. rewrite Et. done.
Qed.

(** What a step must show. *)
Definition mstep_ok (mem : Prop) (b c : nat) (st : MState) A (op : MOp) : Prop :=
  exists a st' A' C', mop_step st op = Ret (a, st') /\ mstep (ms_next st, A) op a (ms_next st', A') /\
    runs_inv mem (S b) (c + mop_size op) st' A' C' /\
    forall i qop r, op = MUse i qop -> a = MUsed r -> mem -> may_allocate qop -> ~ refused r.

Lemma tokens_absent mem b c st A C i : runs_inv mem b c st A C -> ms_tokens st !! i = None -> A !! i = None.
Proof. intros I Ht. apply not_elem_of_dom. rewrite <- (mi_tokens _ _ _ _ _ _ I). by apply not_elem_of_dom. Qed.

Lemma tokens_present mem b c st A C i y : runs_inv mem b c st A C -> ms_tokens st !! i = Some y ->
  exists x, A !! i = Some x /\ queue_has mem b c (ms_queues st) C i (Some y) x.
Proof.
  intros I Ht. assert (i ∈ dom A) as Hi by (rewrite <- (mi_tokens _ _ _ _ _ _ I); by eapply elem_of_dom_2). apply elem_of_dom in Hi as [x Hx].
  exists x. split; [done|]. rewrite <- Ht. by apply (mi_queues _ _ _ _ _ _ I).
Qed.

Lemma step_absent mem b c st A C op : runs_inv mem b c st A C -> mop_step st op = Ret (MAbsent, st) -> mstep (ms_next st, A) op MAbsent (ms_next st, A) -> mstep_ok mem b c st A op.
Proof.
  intros I E M. exists MAbsent, st, A, C. split; [done|]. split; [done|]. split; [|done]. destruct st as [w next tokens].
  apply (runs_inv_step mem b c _ _ A C _ _ _ A C I); try apply I. intros i x Hx. by right.
Qed.

Lemma step_new mem b c st A C results garbage capacity :
  runs_inv mem b c st A C -> capacity_ok capacity -> (mem -> has_memory (MNew results garbage capacity)) -> mstep_ok mem b c st A (MNew results garbage capacity).
Proof.
  intros I Hc Hm. destruct st as [w next tokens]. pose proof I as [K _ Ho Ht Hn]. cbn in K, Ho, Ht, Hn.
  assert (next ∉ dom A) as Hfresh by (intros Hin%Hn; lia).
  assert (objects w !! next = None) as Hnone by (apply not_elem_of_dom; by rewrite Ho).
  destruct (QueueObject_new_spec w C next results garbage capacity K Hnone) as (K' & H' & Hother). destruct (new_queue_rep (T := T) results garbage capacity Hc) as [Q Hh].
  eexists _, _, _, (<[next := []]> C). split; [done|]. split; [constructor|]. split; [|done]. eapply runs_inv_step; [exact I|exact K'|..].
  - cbn. by rewrite !dom_insert_L, Ho.
  - by rewrite !dom_insert_L, Ht.
  - intros i. rewrite dom_insert_L, elem_of_union, elem_of_singleton. intros [->|Hi]; [lia|]. specialize (Hn i Hi). lia.
  - intros i x. rewrite !lookup_insert. case_decide; subst.
    + intros [= <-]. left. eexists _, [], [], [], [], ∅. split; [exact H'|]. split; [done|]. split; [|split; [by unfold view; rewrite fmap_empty|intros H; by apply Hh, Hm]].
      destruct (start_run_inv _ 0 Q) as (I0 & _). apply (run_inv_S 0 b). destruct I0 as [Q0 Hn0 Ht0 Ha0 Hx0 Hp0 Hl0]. constructor; try done. cbn. lia.
    + intros Hx. right. split; [done|]. split; [done|]. intros q. by apply Hother.
Qed.

(** An operation of one queue. *)
Lemma runs_inv_write mem b c d st A C i q q' consumers' slots' x' qs' bss' O' :
  runs_inv mem b c st A C -> i ∈ dom A -> holds (ms_queues st) C i q -> follows q q' ->
  run_inv x'.2 (S b) (c + d) (mkQState q' consumers' slots') qs' bss' O' -> x'.1 = (view O' qs', slots') -> (mem -> healthy q') ->
  exists w' C', write_queue (ms_queues st) i q' = Ret w' /\
    runs_inv mem (S b) (c + d) (mkMState w' (ms_next st) (<[i := (consumers', slots')]> (ms_tokens st))) (<[i := x']> A) C'.
Proof.
  intros I Hi Hq Hf R Hx Hm. pose proof I as [K _ Ho Ht Hn]. destruct (write_queue_spec _ C i q q' K Hq Hf) as (w' & C' & E & K' & H' & Hother & Hd).
  assert (dom (<[i := x']> A) = dom A) as Ed by (rewrite dom_insert_L; set_solver).
  exists w', C'. split; [done|]. eapply runs_inv_step; [exact I|exact K'|by rewrite Hd, Ed| |by rewrite Ed|].
  - rewrite dom_insert_L, Ht, Ed. set_solver.
  - intros j x. rewrite !lookup_insert. case_decide; subst.
    + intros [= <-]. left. eexists q', consumers', slots', qs', bss', O'. done.
    + intros Hj. right. split; [done|]. split; [done|]. intros q2. by apply Hother.
Qed.

Lemma step_use mem b c st A C i op :
  runs_inv mem b c st A C -> mop_ok mem (MUse i op) -> Z.of_nat b + 1 < UINT_MOD -> Z.of_nat c + Z.of_nat (qop_size op) + 32 < 9223372036854775808 ->
  mstep_ok mem b c st A (MUse i op).
Proof.
  intros I [n Hop] Hb Hc. pose proof I as [K _ _ _ _]. destruct (ms_tokens st !! i) as [[consumers slots]|] eqn:Et.
  2: { eapply step_absent; [exact I|destruct st; cbn in *; by rewrite Et|]. eapply (ms_absent _ _ _ i); [by left|by eapply tokens_absent]. }
  destruct (tokens_present _ _ _ _ _ _ _ _ I Et) as ([[s slots0] k] & HA & q & consumers0 & slots1 & qs & bss & O & Hq & [= <- <-] & R & [= -> ->] & Hm). cbn in R.
  pose proof (ri_count _ _ _ _ _ _ _ R) as Ek. cbn in Ek. destruct (consumers_there k op) eqn:Ec.
  2: { eapply step_absent; [exact I|destruct st; cbn in *; by rewrite Et, Ek, Ec|by eapply ms_no_consumer]. }
  assert (qop_ok (healthy q) k op) as Hok by (eapply qop_ok_mono; [exact Hm|by eapply qop_ok_there]).
  destruct (qop_step_spec k b c op _ qs bss O R Hok) as (a & st' & qs' & bss' & O' & E & Hs & R' & Hh); [by split|].
  destruct st' as [q' consumers' slots']. cbn in Hs, Hh.
  destruct (runs_inv_write mem b c (qop_size op) st A C i q q' consumers' slots' (view O' qs', slots', k) qs' bss' O' I) as (w' & C' & Ew & I'); try done.
  { by eapply elem_of_dom_2. } { eapply rep_follows; [exact (qop_step_keeps _ _ _ E)|apply R']. } { intros H. by apply Hh, Hm. }
  eexists _, _, _, C'. split; [|split; [|split; [exact I'|]]].
  - destruct st as [w next tokens]. cbn [mop_step ms_tokens ms_queues] in *. rewrite Et, Ek, Ec, (read_queue_spec w C i q K Hq), ret_bind, E, ret_bind.
    cbn [st_queue]. by rewrite Ew, ret_bind.
  - by econstructor.
  - intros ? ? r [= <- <-] [= <-] H Ha. by apply Hh; [apply Hm|].
Qed.

Lemma step_consumer mem b c st A C i : runs_inv mem b c st A C -> mstep_ok mem b c st A (MConsumer i).
Proof.
  intros I. pose proof I as [K _ _ _ _]. destruct (ms_tokens st !! i) as [[consumers slots]|] eqn:Et.
  2: { eapply step_absent; [exact I|destruct st; cbn in *; by rewrite Et|]. eapply (ms_absent _ _ _ i); [by left|by eapply tokens_absent]. }
  destruct (tokens_present _ _ _ _ _ _ _ _ I Et) as ([[s slots0] k] & HA & q & consumers0 & slots1 & qs & bss & O & Hq & [= <- <-] & R & [= -> ->] & Hm). cbn in R.
  set (token := mkConsumerToken (nextExplicitConsumerId q) (u32 (-1)) 0 None None).
  set (q' := set_consumer_ids q (nextExplicitConsumerId q +u 1) (globalExplicitConsumerOffset q)).
  destruct (runs_inv_write mem b c 0 st A C i q q' (consumers ++ [token]) slots (view O qs, slots, S k) qs bss O I) as (w' & C' & Ew & I'); try done.
  { by eapply elem_of_dom_2. } { eapply (rep_follows _ _ qs bss O); [by split|apply queue_rep_ids, R]. }
  { apply run_inv_S. destruct R as [Q Hn Ht Ha Hx Hp Hl]. cbn in *. constructor; try done.
    - by apply queue_rep_ids.
    - cbn. rewrite length_app. cbn. lia.
    - cbn. apply Forall_app. split; [done|]. constructor; [by left|constructor]. }
  eexists _, _, _, C'. split; [|split; [|split; [exact I'|done]]]; [|by eapply ms_consumer].
  destruct st as [w next tokens]. cbn [mop_step ms_tokens ms_queues] in *. rewrite Et, (read_queue_spec w C i q K Hq), ret_bind. cbn [ConsumerToken_new]. fold q'. by rewrite Ew, ret_bind.
Qed.

(** The lists of a queue that has been moved to another address. *)
Lemma queue_has_at mem b c d w C i y x w' C' j :
  queue_has mem b c w C i (Some y) x -> (forall q, holds w C i q -> holds w' C' j q) -> queue_has mem (S b) (c + d) w' C' j (Some y) x.
Proof.
  intros H Hh. apply queue_has_mono. destruct H as (q & consumers & slots & qs & bss & O & Hq & Ht & R). exists q, consumers, slots, qs, bss, O.
  split; [by apply Hh|done].
Qed.

(** An object holds one queue. *)
Lemma holds_inj w C i q q' : holds w C i q -> holds w C i q' -> q = q'.
Proof. intros (o & ts & Ho & Hts & ->) (o' & ts' & Ho' & Hts' & ->). by replace o' with o by congruence; replace ts' with ts by congruence. Qed.

Lemma step_swap mem b c st A C i j : runs_inv mem b c st A C -> mstep_ok mem b c st A (MSwap i j).
Proof.
  intros I. pose proof I as [K _ Ho Ht Hn]. destruct (ms_tokens st !! i) as [ti|] eqn:Ei.
  2: { eapply step_absent; [exact I|destruct st; cbn in *; by rewrite Ei|]. eapply (ms_absent _ _ _ i); [by left|by eapply tokens_absent]. }
  destruct (ms_tokens st !! j) as [tj|] eqn:Ej.
  2: { eapply step_absent; [exact I|destruct st; cbn in *; by rewrite Ei, Ej|]. eapply (ms_absent _ _ _ j); [by right; left|by eapply tokens_absent]. }
  destruct (tokens_present _ _ _ _ _ _ _ _ I Ei) as (x & Ax & Hx). destruct (tokens_present _ _ _ _ _ _ _ _ I Ej) as (y & Ay & Hy).
  assert (exists w' C', swap_internal (ms_queues st) i j = Ret w' /\
    runs_inv mem (S b) (c + 0) (mkMState w' (ms_next st) (<[j := ti]> (<[i := tj]> (ms_tokens st)))) (<[j := x]> (<[i := y]> A)) C') as (w' & C' & E & I').
  { destruct (decide (i = j)) as [->|Hne].
    - replace tj with ti by congruence. replace y with x by congruence. rewrite !insert_insert_eq, !fin_maps.insert_id by done. exists (ms_queues st), C.
      split; [unfold swap_internal; by rewrite decide_True|]. apply (runs_inv_step mem b c _ _ A C _ _ _ A C I); try apply I. intros k z Hz. by right.
    - pose proof Hx as (qa & _ & _ & _ & _ & _ & Ha & _). pose proof Hy as (qb & _ & _ & _ & _ & _ & Hb & _).
      destruct (swap_internal_spec _ C i j qa qb K Ha Hb Hne) as (w' & C' & E & K' & Hi & Hj & Hother & Hd). exists w', C'. split; [done|].
      assert (dom (<[j := x]> (<[i := y]> A)) = dom A) as Ed by (rewrite !dom_insert_L; apply elem_of_dom_2 in Ax, Ay; set_solver).
      eapply runs_inv_step; [exact I|exact K'|by rewrite Hd, Ed| |by rewrite Ed|].
      + rewrite !dom_insert_L, Ht. rewrite !dom_insert_L in Ed. done.
      + intros k z. rewrite !lookup_insert. repeat case_decide; subst; try done.
        * intros [= <-]. left. eapply queue_has_at; [exact Hx|]. intros q Hq. by rewrite (holds_inj _ _ _ _ _ Hq Ha).
        * intros [= <-]. left. eapply queue_has_at; [exact Hy|]. intros q Hq. by rewrite (holds_inj _ _ _ _ _ Hq Hb).
        * intros Hz. right. split; [done|]. split; [done|]. intros q. by apply Hother. }
  eexists _, _, _, C'. split; [|split; [|split; [exact I'|done]]]; [|by eapply ms_swap].
  destruct st as [w next tokens]. cbn [mop_step ms_tokens ms_queues] in *. by rewrite Ei, Ej, E.
Qed.

Lemma step_move mem b c st A C i results :
  runs_inv mem b c st A C -> (mem -> has_memory (MMove i results)) -> mstep_ok mem b c st A (MMove i results).
Proof.
  intros I Hm. pose proof I as [K _ Ho Ht Hn]. destruct (ms_tokens st !! i) as [ti|] eqn:Ei.
  2: { eapply step_absent; [exact I|destruct st; cbn in *; by rewrite Ei|]. eapply (ms_absent _ _ _ i); [by left|by eapply tokens_absent]. }
  destruct (tokens_present _ _ _ _ _ _ _ _ I Ei) as (x & Ax & Hx). pose proof Hx as (qb & _ & _ & _ & _ & _ & Hb & _). set (j := ms_next st) in *.
  assert (i ∈ dom A) as Hi by (by eapply elem_of_dom_2). assert (j ∉ dom A) as Hfresh by (intros Hin%Hn; lia). assert (i <> j) as Hne by (intros ->; done).
  assert (objects (ms_queues st) !! j = None) as Hnone by (apply not_elem_of_dom; by rewrite Ho).
  destruct (move_construct_spec _ C j i results qb K Hnone Hb) as (w' & C' & E & K' & Hj & Hi' & Hother & Hd).
  destruct (new_queue_rep (T := T) results [] 0) as [Q Hh]; [by vm_compute|]. destruct (start_run_inv _ 0 Q) as (I0 & _).
  assert (runs_inv mem (S b) (c + 0) (mkMState w' (S j) (<[j := ti]> (<[i := ([], [])]> (ms_tokens st)))) (<[j := x]> (<[i := no_lists]> A)) C') as I'.
  { eapply runs_inv_step; [exact I|exact K'|..].
    - rewrite Hd, !dom_insert_L, Ho. set_solver.
    - rewrite !dom_insert_L, Ht. set_solver.
    - intros k. rewrite !dom_insert_L, !elem_of_union, !elem_of_singleton. intros [->|[->|Hk]]; [lia|..]; [specialize (Hn i Hi)|specialize (Hn k Hk)]; lia.
    - intros k z. rewrite !lookup_insert. repeat case_decide; subst; try done.
      + intros [= <-]. left. eapply queue_has_at; [exact Hx|]. intros q Hq. by rewrite (holds_inj _ _ _ _ _ Hq Hb).
      + intros [= <-]. left. eexists _, [], [], [], [], ∅. split; [exact Hi'|]. split; [done|]. split; [|split; [by unfold view; rewrite fmap_empty|intros Hmem; by apply Hh, Hm]].
        apply run_inv_S. destruct I0 as [Q0 Hn0 Ht0 Ha0 Hx0 Hp0 Hl0]. constructor; try done. cbn. lia.
      + intros Hz. right. split; [done|]. split; [done|]. intros q. apply Hother; congruence. }
  eexists _, _, _, C'. split; [|split; [|split; [exact I'|done]]]; [|by eapply ms_move].
  destruct st as [w next tokens]. cbn [mop_step ms_tokens ms_queues ms_next] in *. unfold j in *. by rewrite Ei, E.
Qed.

Lemma step_destroy mem b c st A C i : runs_inv mem b c st A C -> mstep_ok mem b c st A (MDestroy i).
Proof.
  intros I. pose proof I as [K _ Ho Ht Hn]. destruct (ms_tokens st !! i) as [[consumers slots]|] eqn:Ei.
  2: { eapply step_absent; [exact I|destruct st; cbn in *; by rewrite Ei|]. eapply (ms_absent _ _ _ i); [by left|by eapply tokens_absent]. }
  destruct (tokens_present _ _ _ _ _ _ _ _ I Ei) as ([[s slots0] k] & HA & q & consumers0 & slots1 & qs & bss & O & Hq & [= <- <-] & R & [= -> ->] & Hm). cbn in R.
  pose proof (qr_list _ _ _ _ (ri_queue _ _ _ _ _ _ _ R)) as L.
  destruct (destroy_queue_spec _ C i q qs bss K Hq L) as (h & w' & E & Hb & K' & Hother & Eo).
  assert (runs_inv mem (S b) (c + 0) (mkMState w' (ms_next st) (delete i (ms_tokens st))) (delete i A) (delete i C)) as I'.
  { eapply runs_inv_step; [exact I|exact K'|by rewrite Eo, !dom_delete_L, Ho|by rewrite !dom_delete_L, Ht|..].
    - intros j. rewrite dom_delete_L, elem_of_difference. intros [Hj _]. by apply Hn.
    - intros j x. rewrite !lookup_delete. case_decide; [done|]. intros Hj. right. split; [done|]. split; [done|]. intros q2. by apply Hother. }
  eexists _, _, _, (delete i C). split; [|split; [|split; [exact I'|done]]]; [|eapply (ms_destroy _ _ _ _ _ _ (known q (length qs))); [exact HA|]].
  - destruct st as [w next tokens]. cbn [mop_step ms_tokens ms_queues] in *. rewrite Ei, E, ret_bind, Hb, map_size_empty. done.
  - intros t. by apply (run_inv_known _ _ _ _ _ _ _ _ R).
Qed.

Lemma mop_step_spec mem b c st A C op :
  runs_inv mem b c st A C -> mop_ok mem op -> (mem -> has_memory op) -> Z.of_nat b + 1 < UINT_MOD ->
  Z.of_nat c + Z.of_nat (mop_size op) + 32 < 9223372036854775808 -> mstep_ok mem b c st A op.
Proof.
  intros I Hop Hm Hb Hc. destruct op.
  - by eapply step_new.
  - by eapply step_consumer.
  - by eapply step_use.
  - by eapply step_move.
  - by eapply step_swap.
  - by eapply step_destroy.
Qed.

(** Every element and every token was accepted. *)
Definition accepted (op : MOp) (a : MAnswer) : Prop :=
  match op, a with MUse _ qop, MUsed r => may_allocate qop -> ~ refused r | _, _ => True end.

Lemma mop_run_spec mem ops : forall b c st A C,
  runs_inv mem b c st A C -> Forall (mop_ok mem) ops -> (mem -> Forall has_memory ops) -> Z.of_nat b + Z.of_nat (length ops) < UINT_MOD ->
  Z.of_nat c + Z.of_nat (sum_list_with mop_size ops) + 32 < 9223372036854775808 ->
  exists answers st' A' C' b' c', mop_run st ops = Ret (answers, st') /\ mrun (ms_next st, A) ops answers (ms_next st', A') /\
    runs_inv mem b' c' st' A' C' /\ (mem -> Forall2 accepted ops answers).
Proof.
  induction ops as [|op ops IH]; intros b c st A C I Hops Hm Hb Hc; cbn [mop_run length sum_list_with] in *.
  { eexists [], st, A, C, b, c. split; [done|]. split; [constructor|]. split; [done|constructor]. }
  apply Forall_cons in Hops as [Hop Hops].
  destruct (mop_step_spec mem b c st A C op I Hop) as (a & st1 & A1 & C1 & -> & S1 & I1 & H1); [by intros [? _]%Hm%Forall_cons|lia|lia|]. rewrite ret_bind.
  destruct (IH _ _ st1 A1 C1 I1 Hops) as (l & st2 & A2 & C2 & b2 & c2 & -> & S2 & I2 & H2); [by intros [_ ?]%Hm%Forall_cons|lia|lia|].
  rewrite ret_bind. eexists (a :: l), st2, A2, C2, b2, c2. split; [done|]. split; [by econstructor|]. split; [done|].
  intros H. constructor; [|by apply H2]. destruct op; try done. destruct a; try done. cbn. by eapply H1.
Qed.

Lemma nothing_made_inv mem : runs_inv mem 0 0 nothing_made ∅ ∅.
Proof.
  constructor; cbn [nothing_made ms_queues ms_tokens ms_next objects]; [|by intros i x; rewrite lookup_empty|by rewrite !dom_empty_L..|].
  2: { intros i. rewrite dom_empty_L. by intros ?%elem_of_empty. }
  constructor; cbn; [by intros i o; rewrite lookup_empty|intros i; rewrite lookup_empty; by intros [? ?]|by intros i j ts ts' t; rewrite lookup_empty|].
  intros t. rewrite lookup_empty. by intros [? ?].
Qed.

(** Nothing is left when every queue is gone. *)
Lemma runs_inv_empty mem b c st C : runs_inv mem b c st ∅ C -> objects (ms_queues st) = ∅ /\ tables (ms_queues st) = ∅.
Proof.
  intros [K _ Ho _ _]. rewrite dom_empty_L in Ho. apply dom_empty_inv_L in Ho. split; [done|]. apply map_eq. intros t. rewrite lookup_empty.
  destruct (tables (ms_queues st) !! t) as [tb|] eqn:E; [|done]. destruct (qo_used _ _ K t) as (i & ts & Ci & _); [by eexists|].
  destruct (qo_dom _ _ K i) as [o Hio]; [by eexists|]. by rewrite Ho, lookup_empty in Hio.
Qed.

Lemma runs_inv_parents mem b c st A C i o : runs_inv mem b c st A C -> objects (ms_queues st) !! i = Some o ->
  ob_parents o = replicate (length (ob_producers o)) i.
Proof. intros I Hi. destruct (qo_objects _ _ (mi_ok _ _ _ _ _ _ I) i o Hi) as (ts & _ & [_ Hw _ _]). apply Hw. Qed.
End Runs.

Arguments MOp : clear implicits.
Arguments MAnswer : clear implicits.
Arguments MState : clear implicits.


(** Two queues, one with so many threads that it has two hash tables and one with a
    producer token, are swapped; one is moved and used again; all are destroyed. *)
Definition demo_mops : list (MOp Z) :=
  [MNew [] [] 64; MNew [] [] 0] ++ map (fun i => MUse 0 (QEnqueue CanAlloc false [] (Z.of_nat i) (Some (Z.of_nat i)))) (seq 1 20) ++
  [MUse 1 QNewToken; MUse 1 (QEnqueueWith 0 CanAlloc false [] (Some 100)); MSwap 0 1; MUse 0 (QDequeueFrom 0 false);
   MUse 1 (QEnqueue CanAlloc false [] 3 (Some 33)); MMove 1 []; MUse 1 QSize; MUse 2 QSize; MConsumer 2; MUse 2 (QDequeue (WithToken 0) false);
   MUse 1 (QEnqueue CanAlloc false [] 3 (Some 44)); MSwap 1 2; MUse 1 QSize; MUse 2 QSize; MDestroy 0; MDestroy 1; MUse 1 QSize; MDestroy 2].

