(* ===== verification/Semaphore.v ===== *)
(** * The semaphore (utils/concurrentqueue-1.0.3/lightweightsemaphore.h)

    [Semaphore] is the POSIX semaphore of the operating system, a counter; what its
    calls answer is an input ([SysResult]).  [LightweightSemaphore] counts permits in
    an atomic variable and goes to the operating system only to sleep and to wake
    sleepers.  Every member function is split at its atomic operations: the position
    of a thread in a call is a [CallPc], and any interleaving of threads is a list of
    [SEvent]s.  Results of type [bool] are 0 and 1. *)
From S2P Require Import Prelude.

(** ** Signed integers *)

(** [ssize_t] and [int] *)
Definition s64 (x : Z) : Z := (x + 9223372036854775808) mod UINT64_MOD - 9223372036854775808.
Definition s32 (x : Z) : Z := (x + 2147483648) mod UINT_MOD - 2147483648.

Lemma s64_small x : -9223372036854775808 <= x < 9223372036854775808 -> s64 x = x.
Proof. unfold s64, UINT64_MOD. intros. rewrite Z.mod_small; lia. Qed.

Lemma s32_small x : -2147483648 <= x < 2147483648 -> s32 x = x.
Proof. unfold s32, UINT_MOD. intros. rewrite Z.mod_small; lia. Qed.

(** ** The semaphore of the operating system *)

(** A system call succeeds, is interrupted by a signal, or fails, at a timeout among
    others. *)
Inductive SysResult := SysOk | SysIntr | SysErr.

(** One round of [Semaphore::wait]: [None] while the call blocks, otherwise the
    counter and, unless the call was interrupted, what [wait] returns. *)
Definition Semaphore_wait (value : Z) (r : SysResult) : option (Z * option bool) :=
  match r with
  | SysOk => if 0 <? value then Some (value - 1, Some true) else None
  | SysIntr => Some (value, None)
  | SysErr => Some (value, Some false)
  end.

(** [Semaphore::try_wait] does not block. *)
Definition Semaphore_try_wait (value : Z) (r : SysResult) : Z * option bool :=
  match r with
  | SysOk => if 0 <? value then (value - 1, Some true) else (value, Some false)
  | SysIntr => (value, None)
  | SysErr => (value, Some false)
  end.

(** The time [Semaphore::timed_wait] waits until, from the time of the clock. *)
Definition timed_wait_until (tv_sec tv_nsec usecs : Z) : Z * Z :=
  let tv_sec := s64 (tv_sec + usecs / 1000000) in
  let tv_nsec := s64 (tv_nsec + s64 (usecs mod 1000000 * 1000)) in
  if 1000000000 <=? tv_nsec then (s64 (tv_sec + 1), tv_nsec - 1000000000) else (tv_sec, tv_nsec).

(** [Semaphore::timed_wait] waits as [wait] does, with a timeout for an error. *)
Definition Semaphore_timed_wait : Z -> SysResult -> option (Z * option bool) := Semaphore_wait.

(** One [sem_post] of [Semaphore::signal]; it is repeated when it fails. *)
Definition Semaphore_signal (value : Z) (r : SysResult) : Z * bool :=
  match r with SysOk => (value + 1, true) | _ => (value, false) end.

(** ** The lightweight semaphore *)

Record LightweightSemaphore := mkSema { m_count : Z; m_sema : Z; m_maxSpins : Z }.

Definition set_count (s : LightweightSemaphore) (n : Z) : LightweightSemaphore := mkSema n (m_sema s) (m_maxSpins s).
Definition set_sema (s : LightweightSemaphore) (v : Z) : LightweightSemaphore := mkSema (m_count s) v (m_maxSpins s).

(** The constructor *)
Definition LightweightSemaphore_new (initialCount maxSpins : Z) : outcome LightweightSemaphore :=
  if (0 <=? initialCount) && (0 <=? maxSpins) then Ret (mkSema initialCount 0 maxSpins) else Fault AssertFailed.

(** What is not determined by the code: whether a weak compare-and-exchange fails
    without a reason, and what the operating system answers. *)
Record Choice := mkChoice { spurious : bool; answer : SysResult }.

(** In [tryWait] and [tryWaitMany]: before the load, or in the loop. *)
Inductive TryPc := TLoad | TCas (oldCount : Z).

(** The test of the loop, on the count just read. *)
Definition try_loop (oldCount : Z) : TryPc + Z := if 0 <? oldCount then inl (TCas oldCount) else inr 0.

Definition tryWait (s : LightweightSemaphore) (pc : TryPc) (ch : Choice) : LightweightSemaphore * (TryPc + Z) :=
  match pc with
  | TLoad => (s, try_loop (m_count s))
  | TCas oldCount =>
      if negb (spurious ch) && (m_count s =? oldCount) then (set_count s (oldCount - 1), inr 1)
      else (s, try_loop (m_count s))
  end.

Definition newCount (max oldCount : Z) : Z := if max <? oldCount then oldCount - max else 0.

Definition tryWaitMany (max : Z) (s : LightweightSemaphore) (pc : TryPc) (ch : Choice) : LightweightSemaphore * (TryPc + Z) :=
  match pc with
  | TLoad => (s, try_loop (m_count s))
  | TCas oldCount =>
      if negb (spurious ch) && (m_count s =? oldCount) then (set_count s (newCount max oldCount), inr (oldCount - newCount max oldCount))
      else (s, try_loop (m_count s))
  end.

(** In the two functions that wait: spinning, before the subtraction, asleep, on the
    way back after a timeout, and taking more after the first permit. *)
Inductive WaitPc :=
  | WSpin (spin : Z) | WSpinCas (spin oldCount : Z) | WSub | WBlock
  | WBack | WBackTry | WBackCas (oldCount : Z) | WMore (pc : TryPc).

(** The loop that undoes the subtraction: the permit meant for this thread is taken
    ([inr true]), or the count is put right again ([inr false]). *)
Definition back_off (s : LightweightSemaphore) (pc : WaitPc) (ch : Choice) : LightweightSemaphore * (WaitPc + bool) :=
  match pc with
  | WBackTry =>
      match Semaphore_try_wait (m_sema s) (answer ch) with
      | (v, Some true) => (set_sema s v, inr true)
      | (v, Some false) => (set_sema s v, inl WBack)
      | (v, None) => (set_sema s v, inl WBackTry)
      end
  | WBackCas oldCount => if m_count s =? oldCount then (set_count s (oldCount + 1), inr false) else (s, inl WBack)
  | _ => (s, inl (if 0 <=? m_count s then WBackTry else WBackCas (m_count s)))
  end.

(** Asleep: [wait] without a timeout, [timed_wait] with one. *)
Definition sleep (timeout_usecs : Z) (s : LightweightSemaphore) (ch : Choice) : option (LightweightSemaphore * (WaitPc + bool)) :=
  let sys := if timeout_usecs <? 0 then Semaphore_wait else Semaphore_timed_wait in
  match sys (m_sema s) (answer ch) with
  | None => None
  | Some (v, Some true) => Some (set_sema s v, inr true)
  | Some (v, Some false) => Some (set_sema s v, inl WBack)
  | Some (v, None) => Some (set_sema s v, inl WBlock)
  end.

Definition waitWithPartialSpinning (timeout_usecs : Z) (s : LightweightSemaphore) (pc : WaitPc) (ch : Choice)
    : option (LightweightSemaphore * (WaitPc + Z)) :=
  let to_bool (r : WaitPc + bool) : WaitPc + Z := match r with inl pc => inl pc | inr b => inr (if b then 1 else 0) end in
  match pc with
  | WSpin spin =>
      if 0 <=? spin - 1 then Some (s, inl (if 0 <? m_count s then WSpinCas (spin - 1) (m_count s) else WSpin (spin - 1)))
      else Some (s, inl WSub)
  | WSpinCas spin oldCount => if m_count s =? oldCount then Some (set_count s (oldCount - 1), inr 1) else Some (s, inl (WSpin spin))
  | WSub =>
      let oldCount := m_count s in
      let s := set_count s (s64 (oldCount - 1)) in
      Some (s, if 0 <? oldCount then inr 1 else inl (if timeout_usecs =? 0 then WBack else WBlock))
  | WBlock => '(s, r) ← sleep timeout_usecs s ch; Some (s, to_bool r)
  | WBack | WBackTry | WBackCas _ => let '(s, r) := back_off s pc ch in Some (s, to_bool r)
  | WMore _ => None
  end.

Definition waitManyWithPartialSpinning (max timeout_usecs : Z) (s : LightweightSemaphore) (pc : WaitPc) (ch : Choice)
    : option (LightweightSemaphore * (WaitPc + Z)) :=
  let first : WaitPc + Z := if 1 <? max then inl (WMore TLoad) else inr 1 in
  let continue (r : WaitPc + bool) : WaitPc + Z := match r with inl pc => inl pc | inr true => first | inr false => inr 0 end in
  match pc with
  | WSpin spin =>
      if 0 <=? spin - 1 then Some (s, inl (if 0 <? m_count s then WSpinCas (spin - 1) (m_count s) else WSpin (spin - 1)))
      else Some (s, inl WSub)
  | WSpinCas spin oldCount =>
      if m_count s =? oldCount then Some (set_count s (newCount max oldCount), inr (oldCount - newCount max oldCount)) else Some (s, inl (WSpin spin))
  | WSub =>
      let oldCount := m_count s in
      let s := set_count s (s64 (oldCount - 1)) in
      Some (s, if oldCount <=? 0 then inl (if timeout_usecs =? 0 then WBack else WBlock) else first)
  | WBlock => '(s, r) ← sleep timeout_usecs s ch; Some (s, continue r)
  | WBack | WBackTry | WBackCas _ => let '(s, r) := back_off s pc ch in Some (s, continue r)
  | WMore pc =>
      let '(s, r) := tryWaitMany (max - 1) s pc ch in
      Some (s, match r with inl pc => inl (WMore pc) | inr n => inr (1 + n) end)
  end.

(** ** Calls *)

Inductive Call :=
  | CTryWait | CWait (timeout_usecs : Z) | CTryWaitMany (max : Z) | CWaitMany (max timeout_usecs : Z) | CSignal (count : Z).

(** In [signal]: before the addition, or with [n] sleepers left to wake. *)
Inductive CallPc := InTry (pc : TryPc) | InWait (pc : WaitPc) | InSignal | InPost (n : Z).

Definition enter (c : Call) : outcome CallPc :=
  match c with
  | CTryWait | CWait _ => Ret (InTry TLoad)
  | CTryWaitMany max | CWaitMany max _ => if 0 <=? max then Ret (InTry TLoad) else Fault AssertFailed
  | CSignal count => if 0 <=? count then Ret InSignal else Fault AssertFailed
  end.

Definition signal (count : Z) (s : LightweightSemaphore) (pc : CallPc) (ch : Choice) : option (LightweightSemaphore * (CallPc + Z)) :=
  match pc with
  | InSignal =>
      let oldCount := m_count s in
      let s := set_count s (s64 (oldCount + count)) in
      let toRelease := if s64 (- oldCount) <? count then s64 (- oldCount) else count in
      Some (s, if 0 <? toRelease then inl (InPost (s32 toRelease)) else inr 0)
  | InPost n =>
      if 0 <? n then let '(v, ok) := Semaphore_signal (m_sema s) (answer ch) in Some (set_sema s v, inl (InPost (if ok then n - 1 else n)))
      else Some (s, inr 0)
  | _ => None
  end.

(** The next step of a call: [None] when it blocks. *)
Definition call_step (c : Call) (s : LightweightSemaphore) (pc : CallPc) (ch : Choice) : option (LightweightSemaphore * (CallPc + Z)) :=
  match c, pc with
  | CTryWait, InTry pc => let '(s, r) := tryWait s pc ch in Some (s, match r with inl pc => inl (InTry pc) | inr n => inr n end)
  | CWait _, InTry pc =>
      let '(s, r) := tryWait s pc ch in
      Some (s, match r with inl pc => inl (InTry pc) | inr n => if n =? 0 then inl (InWait (WSpin (m_maxSpins s))) else inr n end)
  | CWait timeout, InWait pc =>
      '(s, r) ← waitWithPartialSpinning timeout s pc ch; Some (s, match r with inl pc => inl (InWait pc) | inr n => inr n end)
  | CTryWaitMany max, InTry pc =>
      let '(s, r) := tryWaitMany max s pc ch in Some (s, match r with inl pc => inl (InTry pc) | inr n => inr n end)
  | CWaitMany max _, InTry pc =>
      let '(s, r) := tryWaitMany max s pc ch in
      Some (s, match r with inl pc => inl (InTry pc)
               | inr n => if (n =? 0) && (0 <? max) then inl (InWait (WSpin (m_maxSpins s))) else inr n end)
  | CWaitMany max timeout, InWait pc =>
      '(s, r) ← waitManyWithPartialSpinning max timeout s pc ch; Some (s, match r with inl pc => inl (InWait pc) | inr n => inr n end)
  | CSignal count, pc => signal count s pc ch
  | _, _ => None
  end.

(** [waitMany] without a timeout is [waitMany] with a negative one, and asserts that it
    has got something. *)
Definition waitMany_result (r : Z) : outcome Z := if 0 <? r then Ret r else Fault AssertFailed.

(** [availableApprox] *)
Definition availableApprox (s : LightweightSemaphore) : Z := if 0 <? m_count s then u64 (m_count s) else 0.
