(* ===== verification/SemaphoreSpec.v ===== *)
(** * What the semaphore promises

    Permits are neither made up nor lost, whatever threads interleave: [weights] says
    what the position of a thread in a call accounts for, [call_step_conserves] that
    every atomic step keeps the account, and the theorems sum it over all threads. *)
From S2P Require Import Prelude Semaphore.

(** ** The account of one call *)

(** Permits the call has taken, permits it has added, whether the thread has
    announced that it sleeps, and the sleepers it still has to wake. *)
Record Weights := mkWeights { taken : Z; given : Z; sleeping : Z; unposted : Z }.

Definition no_weights : Weights := mkWeights 0 0 0 0.

Definition weights (pc : CallPc) (c : Call) : Weights :=
  match pc with
  | InWait (WBlock | WBack | WBackTry | WBackCas _) => mkWeights 0 0 1 0
  | InWait (WMore _) => mkWeights 1 0 0 0
  | InPost n => mkWeights 0 (match c with CSignal count => count | _ => 0 end) 0 n
  | _ => no_weights
  end.

(** A call that has returned [r]. *)
Definition weights_done (c : Call) (r : Z) : Weights :=
  match c with CSignal count => mkWeights 0 count 0 0 | _ => mkWeights r 0 0 0 end.

Definition weights_of (c : Call) (r : CallPc + Z) : Weights :=
  match r with inl pc => weights pc c | inr n => weights_done c n end.

(** Permits a call may take, and what positions remember. *)
Definition demand (c : Call) : Z := match c with CTryWait | CWait _ => 1 | CTryWaitMany max | CWaitMany max _ => max | CSignal _ => 0 end.

(** Permits a call adds. *)
Definition asked_by (c : Call) : Z := match c with CSignal count => count | _ => 0 end.

Definition try_ok (pc : TryPc) : Prop := match pc with TLoad => True | TCas oldCount => 0 < oldCount end.

Definition wait_ok (c : Call) (pc : WaitPc) : Prop :=
  match pc with
  | WSpinCas _ oldCount => 0 < oldCount
  | WBackCas oldCount => oldCount < 0
  | WMore pc => 1 < demand c /\ try_ok pc
  | _ => True
  end.

Definition pc_ok (c : Call) (pc : CallPc) : Prop :=
  match pc with
  | InTry pc => try_ok pc /\ 0 <= demand c /\ match c with CSignal _ => False | _ => True end
  | InWait pc => wait_ok c pc /\ 0 < demand c /\ match c with CWait _ | CWaitMany _ _ => True | _ => False end
  | InSignal => match c with CSignal count => 0 <= count | _ => False end
  | InPost n => 0 <= n /\ match c with CSignal count => 0 <= count | _ => False end
  end.

Definition result_ok (c : Call) (r : CallPc + Z) : Prop :=
  match r with inl pc => pc_ok c pc | inr n => 0 <= n <= demand c end.

(** Sleepers that have not been released. *)
Definition debt (s : LightweightSemaphore) : Z := Z.max 0 (- m_count s).

(** The count does not overflow, and the sleepers fit an [int]. *)
Definition in_range (c : Call) (pc : CallPc) (s : LightweightSemaphore) : Prop :=
  -2147483648 < m_count s < 9223372036854775808 /\ 0 <= m_sema s /\
  match c, pc with CSignal count, InSignal => m_count s + count < 9223372036854775808 | _, _ => True end.

(** One step changes both sides of the account alike. *)
Record conserves (s : LightweightSemaphore) (w : Weights) (s' : LightweightSemaphore) (w' : Weights) : Prop := mk_conserves {
  co_count : m_count s' + taken w' + sleeping w' - given w' = m_count s + taken w + sleeping w - given w;
  co_sema : m_sema s' + unposted w' + debt s' - sleeping w' = m_sema s + unposted w + debt s - sleeping w;
  co_pos : 0 <= m_sema s' }.

Ltac account := constructor; unfold debt, set_count, set_sema in *; cbn in *; lia.

Lemma try_loop_cases n : (exists m, try_loop n = inl (TCas m) /\ 0 < m) \/ try_loop n = inr 0.
Proof. unfold try_loop. destruct (Z.ltb_spec 0 n); [left; by exists n|by right]. Qed.

Lemma newCount_bounds max old : 0 <= max -> 0 < old -> 0 <= newCount max old <= old /\ old - newCount max old <= max /\ (0 < max -> newCount max old < old).
Proof. unfold newCount. intros. destruct (Z.ltb_spec max old); lia. Qed.

(** [tryWait] is [tryWaitMany] of one permit. *)
Lemma tryWait_many s pc ch : try_ok pc -> tryWait s pc ch = tryWaitMany 1 s pc ch.
Proof.
  destruct pc as [|old]; [done|]. cbn. intros Ho. unfold newCount. destruct (Z.ltb_spec 1 old).
  - by replace (old - (old - 1)) with 1 by lia.
  - assert (old = 1) as -> by lia. done.
Qed.

(** [tryWaitMany] takes between none and [max] permits, all at once. *)
Lemma tryWaitMany_spec max s pc ch s' r :
  tryWaitMany max s pc ch = (s', r) -> try_ok pc -> 0 <= max ->
  (s' = s /\ ((exists pc', r = inl pc' /\ try_ok pc') \/ r = inr 0)) \/
  (exists n, r = inr n /\ 0 <= n <= max /\ s' = set_count s (m_count s - n) /\ 0 <= m_count s - n /\ 0 < m_count s).
Proof.
  intros E Hpc Hm. destruct pc as [|old]; cbn in E.
  - injection E as <- <-. left. split; [done|]. destruct (try_loop_cases (m_count s)) as [(m & -> & Hm')| ->]; [left; by eexists|by right].
  - destruct (_ && _) eqn:Eb; injection E as <- <-.
    + apply andb_prop in Eb as [_ Eq%Z.eqb_eq]. cbn in Hpc. pose proof (newCount_bounds max old Hm Hpc). right. eexists. split; [done|].
      rewrite Eq. split; [lia|]. split; [f_equal; lia|]. lia.
    + left. split; [done|]. destruct (try_loop_cases (m_count s)) as [(m & -> & Hm')| ->]; [left; by eexists|by right].
Qed.

(** [sleep] and [back_off] end with the permit that was announced, or give up. *)
Lemma sleep_spec timeout s ch s' r :
  sleep timeout s ch = Some (s', r) ->
  (r = inr true /\ 0 < m_sema s /\ s' = set_sema s (m_sema s - 1)) \/ (s' = s /\ (r = inl WBlock \/ r = inl WBack)).
Proof.
  unfold sleep. assert ((if timeout <? 0 then Semaphore_wait else Semaphore_timed_wait) = Semaphore_wait) as -> by (by destruct (timeout <? 0)).
  assert (set_sema s (m_sema s) = s) as Es by (by destruct s). unfold Semaphore_wait. destruct (answer ch).
  - destruct (Z.ltb_spec 0 (m_sema s)); [|done]. intros [= <- <-]. by left.
  - intros [= <- <-]. rewrite Es. auto.
  - intros [= <- <-]. rewrite Es. auto.
Qed.

Lemma back_off_spec s pc ch s' r c :
  back_off s pc ch = (s', r) -> wait_ok c pc -> (pc = WBack \/ pc = WBackTry \/ exists n, pc = WBackCas n) ->
  (r = inr true /\ 0 < m_sema s /\ s' = set_sema s (m_sema s - 1)) \/
  (r = inr false /\ m_count s < 0 /\ s' = set_count s (m_count s + 1)) \/
  (s' = s /\ (r = inl WBack \/ r = inl WBackTry \/ exists n, r = inl (WBackCas n) /\ n < 0)).
Proof.
  intros E Ho [-> |[-> |(n & ->)]]; cbn in E.
  - injection E as <- <-. do 2 right. split; [done|]. destruct (Z.leb_spec 0 (m_count s)); [auto|]. do 2 right. eauto.
  - assert (set_sema s (m_sema s) = s) as Es by (by destruct s). unfold Semaphore_try_wait in E. destruct (answer ch).
    + destruct (Z.ltb_spec 0 (m_sema s)); injection E as <- <-; [by left|]. rewrite Es. right; right; split; [done|]; auto.
    + injection E as <- <-. rewrite Es. right; right; split; [done|]; auto.
    + injection E as <- <-. rewrite Es. right; right; split; [done|]; auto.
  - destruct (Z.eqb_spec (m_count s) n) as [En|En]; injection E as <- <-; [|right; right; split; [done|]; auto]. right. left. cbn in Ho. rewrite En. done.
Qed.

(** ** Every step keeps the account *)

Definition step_conserves (c : Call) (s : LightweightSemaphore) (pc : CallPc) (s' : LightweightSemaphore) (r : CallPc + Z) : Prop :=
  result_ok c r /\ conserves s (weights pc c) s' (weights_of c r) /\ m_maxSpins s' = m_maxSpins s.

Lemma conserves_refl s w : 0 <= m_sema s -> conserves s w s w.
Proof. by constructor. Qed.

(** The permit a thread slept for. *)
Lemma woken_conserves s w : 0 < m_sema s -> taken w = 1 -> given w = 0 -> sleeping w = 0 -> unposted w = 0 ->
  conserves s (mkWeights 0 0 1 0) (set_sema s (m_sema s - 1)) w.
Proof. destruct w. cbn. intros ? -> -> -> ->. account. Qed.

(** What [waitWithPartialSpinning] and [waitManyWithPartialSpinning] share: [first]
    is what follows once a permit has been taken. *)
Lemma asleep_conserves c timeout s pc ch s' r0 r first :
  (pc = WBlock /\ sleep timeout s ch = Some (s', r0)) \/ (pc <> WBlock /\ back_off s pc ch = (s', r0)) ->
  (pc = WBlock \/ pc = WBack \/ pc = WBackTry \/ exists n, pc = WBackCas n) ->
  result_ok c first -> weights_of c first = mkWeights 1 0 0 0 -> demand c <> 0 -> pc_ok c (InWait pc) -> 0 <= m_sema s ->
  (forall n, c <> CSignal n) -> r = match r0 with inl pc => inl (InWait pc) | inr true => first | inr false => inr 0 end ->
  step_conserves c s (InWait pc) s' r.
Proof.
  intros E Hpc Hf Wf Hd (Ho & Hd' & Hk) Hs Hc ->. assert (weights (InWait pc) c = mkWeights 0 0 1 0) as Wp by (by destruct Hpc as [-> |[-> |[-> |(n & ->)]]]).
  unfold step_conserves. rewrite Wp.
  assert ((r0 = inr true /\ 0 < m_sema s /\ s' = set_sema s (m_sema s - 1)) \/ (r0 = inr false /\ m_count s < 0 /\ s' = set_count s (m_count s + 1)) \/
    (s' = s /\ exists pc', r0 = inl pc' /\ wait_ok c pc' /\ weights (InWait pc') c = mkWeights 0 0 1 0)) as [(-> & Hp & ->)|[(-> & Hn & ->)|(-> & pc' & -> & Ho' & W')]].
  { destruct E as [[-> E]|[Hne E]].
    - destruct (sleep_spec _ _ _ _ _ E) as [?|(-> & [-> | ->])]; [by left|..]; do 2 right; (split; [done|]); by eexists.
    - destruct (back_off_spec _ _ _ _ _ c E Ho) as [?|[?|(-> & [-> |[-> |(n & -> & Hn)]])]]; [by destruct Hpc|auto|auto|..];
        do 2 right; (split; [done|]); by eexists. }
  - split; [done|]. split; [|done]. apply woken_conserves; by rewrite ?Wf.
  - split; [cbn; lia|]. split; [|done]. assert (weights_of c (inr 0) = no_weights) as -> by (destruct c; cbn; try done; by destruct (Hc count)). account.
  - split; [done|]. split; [|done]. unfold weights_of. rewrite W'. by apply conserves_refl.
Qed.

Lemma spinning_conserves c s pc0 pc s' :
  s' = s -> weights (InWait pc0) c = no_weights -> wait_ok c pc -> weights (InWait pc) c = no_weights -> pc_ok c (InWait pc0) -> 0 <= m_sema s ->
  step_conserves c s (InWait pc0) s' (inl (InWait pc)).
Proof. intros -> W0 Ho W (_ & Hd & Hk) Hs. split; [done|]. split; [|done]. cbn [weights_of]. rewrite W0, W. by apply conserves_refl. Qed.

(** Permits taken from the count, while it is positive. *)
Lemma taken_conserves c s pc s' r n w :
  weights pc c = mkWeights w 0 0 0 -> s' = set_count s (m_count s - n) -> 0 <= m_count s - n -> 0 < m_count s -> result_ok c r ->
  weights_of c r = mkWeights (w + n) 0 0 0 -> 0 <= m_sema s -> step_conserves c s pc s' r.
Proof. intros W -> H1 H2 Hr Wr Hs. split; [done|]. split; [|done]. rewrite W, Wr. account. Qed.

(** The subtraction: a permit, or the announcement to sleep. *)
Lemma sub_conserves c s s' r first timeout :
  s' = set_count s (s64 (m_count s - 1)) -> r = (if 0 <? m_count s then first else inl (InWait (if timeout =? 0 then WBack else WBlock))) ->
  result_ok c first -> weights_of c first = mkWeights 1 0 0 0 -> pc_ok c (InWait WSub) -> in_range c (InWait WSub) s -> step_conserves c s (InWait WSub) s' r.
Proof.
  intros -> -> Hf Wf (_ & Hd & Hk) (Hr & Hs & _). rewrite s64_small by lia. destruct (Z.ltb_spec 0 (m_count s)).
  - eapply (taken_conserves _ _ _ _ _ 1 0); try done; lia.
  - split; [by destruct (timeout =? 0)|]. split; [|done]. replace (weights_of c _) with (mkWeights 0 0 1 0) by (by destruct (timeout =? 0)).
    cbn [weights]. account.
Qed.

Lemma wait_conserves timeout s pc ch s' r :
  call_step (CWait timeout) s (InWait pc) ch = Some (s', r) -> pc_ok (CWait timeout) (InWait pc) -> in_range (CWait timeout) (InWait pc) s ->
  step_conserves (CWait timeout) s (InWait pc) s' r.
Proof.
  intros E Hpc Hr. pose proof Hpc as (Ho & Hd & _). pose proof Hr as (Hc & Hs & _). cbn [call_step] in E.
  destruct pc as [spin|spin old| | | | |old|pc]; cbn [waitWithPartialSpinning mbind option_bind] in E.
  - destruct (Z.leb_spec 0 (spin - 1)); injection E as <- <-; apply spinning_conserves; try done; by destruct (Z.ltb_spec 0 (m_count s)).
  - destruct (Z.eqb_spec (m_count s) old) as [En|En]; injection E as <- <-; [|by apply spinning_conserves].
    cbn in Ho. eapply (taken_conserves _ _ _ _ _ 1 0); rewrite ?En; try done; cbn; lia.
  - injection E as <- <-. eapply (sub_conserves _ _ _ _ (inr 1) timeout); first [done|by destruct (0 <? m_count s)].
  - destruct (sleep timeout s ch) as [[s1 r0]|] eqn:Es; [|done]. cbn in E. injection E as <- <-.
    eapply (asleep_conserves _ timeout _ _ ch _ r0 _ (inr 1)); eauto; first [done|cbn; lia|by destruct r0 as [|[]]].
  - destruct (back_off s WBack ch) as [s1 r0] eqn:Es. cbn in E. injection E as <- <-.
    eapply (asleep_conserves _ timeout _ _ ch _ r0 _ (inr 1)); eauto; first [done|cbn; lia|by destruct r0 as [|[]]].
  - destruct (back_off s WBackTry ch) as [s1 r0] eqn:Es. cbn in E. injection E as <- <-.
    eapply (asleep_conserves _ timeout _ _ ch _ r0 _ (inr 1)); eauto; first [done|cbn; lia|by destruct r0 as [|[]]].
  - destruct (back_off s (WBackCas old) ch) as [s1 r0] eqn:Es. cbn in E. injection E as <- <-.
    eapply (asleep_conserves _ timeout _ _ ch _ r0 _ (inr 1)); eauto 6; first [done|cbn; lia|by destruct r0 as [|[]]].
  - done.
Qed.

Lemma wait_many_conserves max timeout s pc ch s' r :
  call_step (CWaitMany max timeout) s (InWait pc) ch = Some (s', r) -> pc_ok (CWaitMany max timeout) (InWait pc) -> in_range (CWaitMany max timeout) (InWait pc) s ->
  step_conserves (CWaitMany max timeout) s (InWait pc) s' r.
Proof.
  intros E Hpc Hr. pose proof Hpc as (Ho & Hd & _). pose proof Hr as (Hc & Hs & _). cbn in Hd. cbn [call_step] in E.
  set (first := if 1 <? max then inl (InWait (WMore TLoad)) else inr 1 : CallPc + Z).
  assert (result_ok (CWaitMany max timeout) first /\ weights_of (CWaitMany max timeout) first = mkWeights 1 0 0 0) as [Hf Wf].
  { unfold first. destruct (Z.ltb_spec 1 max); cbn; repeat split; lia. }
  assert (forall r0 : WaitPc + bool, match match r0 with inl pc => inl pc | inr true => if 1 <? max then inl (WMore TLoad) else inr 1 | inr false => inr 0 end with
      inl pc => inl (InWait pc) | inr n => inr n end = match r0 with inl pc => inl (InWait pc) | inr true => first | inr false => inr 0 end) as Er.
  { intros [pc'|[]]; unfold first; try done. by destruct (1 <? max). }
  destruct pc as [spin|spin old| | | | |old|pc]; cbn [waitManyWithPartialSpinning mbind option_bind] in E.
  - destruct (Z.leb_spec 0 (spin - 1)); injection E as <- <-; apply spinning_conserves; try done; by destruct (Z.ltb_spec 0 (m_count s)).
  - destruct (Z.eqb_spec (m_count s) old) as [En|En]; injection E as <- <-; [|by apply spinning_conserves].
    cbn in Ho. pose proof (newCount_bounds max old ltac:(lia) Ho).
    eapply (taken_conserves _ _ _ _ _ (old - newCount max old) 0); rewrite ?En; try done; cbn; try lia; f_equal; lia.
  - injection E as <- <-. eapply (sub_conserves _ _ _ _ first timeout); try done. unfold first.
    destruct (Z.leb_spec (m_count s) 0), (Z.ltb_spec 0 (m_count s)); try lia; [done|by destruct (1 <? max)].
  - destruct (sleep timeout s ch) as [[s1 r0]|] eqn:Es; [|done]. cbn [mbind option_bind] in E. injection E as <- <-.
    eapply (asleep_conserves _ timeout _ _ ch _ r0 _ first); eauto; first [done|cbn; lia].
  - destruct (back_off s WBack ch) as [s1 r0] eqn:Es. cbn [mbind option_bind] in E. injection E as <- <-.
    eapply (asleep_conserves _ timeout _ _ ch _ r0 _ first); eauto; first [done|cbn; lia].
  - destruct (back_off s WBackTry ch) as [s1 r0] eqn:Es. cbn [mbind option_bind] in E. injection E as <- <-.
    eapply (asleep_conserves _ timeout _ _ ch _ r0 _ first); eauto; first [done|cbn; lia].
  - destruct (back_off s (WBackCas old) ch) as [s1 r0] eqn:Es. cbn [mbind option_bind] in E. injection E as <- <-.
    eapply (asleep_conserves _ timeout _ _ ch _ r0 _ first); eauto 6; first [done|cbn; lia].
  - destruct Ho as [Hm Ho]. cbn in Hm. destruct (tryWaitMany (max - 1) s pc ch) as [s1 r0] eqn:Es. cbn in E. injection E as <- <-.
    destruct (tryWaitMany_spec _ _ _ _ _ _ Es Ho ltac:(lia)) as [(-> & [(pc' & -> & Hpc')| ->])|(n & -> & Hn & -> & Hp & Hc')].
    + split; [done|]. split; [by apply conserves_refl|done].
    + split; [cbn; lia|]. split; [by apply conserves_refl|done].
    + eapply (taken_conserves _ _ _ _ _ n 1); try done. cbn. lia.
Qed.

Lemma signal_conserves count s pc ch s' r :
  signal count s pc ch = Some (s', r) -> pc_ok (CSignal count) pc -> in_range (CSignal count) pc s -> step_conserves (CSignal count) s pc s' r.
Proof.
  intros E Hpc (Hc & Hs & Hr). destruct pc as [?|?| |n]; cbn in E; [done|done|..].
  - cbn in Hpc. assert (s64 (- m_count s) = - m_count s \/ m_count s + count < 0) as Hneg by (left; apply s64_small; lia).
    rewrite (s64_small (m_count s + count)), (s64_small (- m_count s)) in E by lia.
    set (toRelease := if - m_count s <? count then - m_count s else count) in *.
    assert (toRelease = Z.min (- m_count s) count) as Et by (unfold toRelease; destruct (Z.ltb_spec (- m_count s) count); lia).
    injection E as <- <-. destruct (Z.ltb_spec 0 toRelease).
    + rewrite s32_small by lia. split; [cbn; lia|]. split; [|done]. cbn [weights_of weights]. account.
    + split; [cbn; lia|]. split; [|done]. cbn [weights_of weights_done weights]. account.
  - destruct Hpc as [Hn Hcount]. destruct (Z.ltb_spec 0 n).
    + unfold Semaphore_signal in E. destruct (answer ch); injection E as <- <-; (split; [cbn; lia|]); (split; [|done]); cbn [weights_of weights]; account.
    + injection E as <- <-. split; [cbn; lia|]. split; [|done]. cbn [weights_of weights weights_done]. assert (n = 0) as -> by lia. account.
Qed.

(** The try functions, and what they go on to when they find nothing. *)
Lemma try_conserves c s pc s' r0 r next :
  ((exists pc', r0 = inl pc' /\ try_ok pc') \/ r0 = inr 0) /\ s' = s \/
  (exists n, r0 = inr n /\ 0 <= n <= demand c /\ s' = set_count s (m_count s - n) /\ 0 <= m_count s - n /\ 0 < m_count s) ->
  0 <= demand c -> match c with CSignal _ => False | _ => True end -> 0 <= m_sema s -> (forall n, weights_done c n = mkWeights n 0 0 0) ->
  result_ok c next -> weights_of c next = no_weights ->
  r = match r0 with inl pc' => inl (InTry pc') | inr n => if n =? 0 then next else inr n end ->
  step_conserves c s (InTry pc) s' r.
Proof.
  intros Hr Hd Ha Hs Wd Hnext Wn ->. destruct Hr as [([(pc' & -> & Hpc)| ->] & ->)|(n & -> & Hn & -> & Hp & Hc)].
  - split; [done|]. split; [by apply conserves_refl|done].
  - split; [done|]. split; [|done]. cbn [weights Z.eqb]. rewrite Wn. by apply conserves_refl.
  - destruct (Z.eqb_spec n 0) as [->|Hne].
    + eapply (taken_conserves _ _ _ _ _ 0 0); try done.
    + eapply (taken_conserves _ _ _ _ _ n 0); try done. cbn. by rewrite Wd.
Qed.

Lemma call_step_conserves c s pc ch s' r :
  call_step c s pc ch = Some (s', r) -> pc_ok c pc -> in_range c pc s -> step_conserves c s pc s' r.
Proof.
  intros E Hpc Hr. pose proof Hr as (Hc & Hs & _). destruct c as [|timeout|max|max timeout|count]; cbn [call_step] in E.
  5:{ by eapply signal_conserves. }
  all: destruct pc as [pc|pc| |]; try done; first [by eapply wait_conserves|by eapply wait_many_conserves|idtac].
  all: destruct Hpc as (Ho & Hd & _); cbn in Hd; rewrite ?tryWait_many in E by done.
  - destruct (tryWaitMany 1 s pc ch) as [s1 r0] eqn:Et. apply tryWaitMany_spec in Et; [|done|lia]. injection E as <- <-.
    eapply (try_conserves _ _ _ _ r0 _ (inr 0)); try done; [tauto|]. destruct r0 as [|n]; [done|]. by destruct (Z.eqb_spec n 0) as [->|].
  - destruct (tryWaitMany 1 s pc ch) as [s1 r0] eqn:Et. apply tryWaitMany_spec in Et; [|done|lia]. injection E as <- <-.
    eapply (try_conserves _ _ _ _ r0 _ (inl (InWait (WSpin (m_maxSpins s1))))); try done. tauto.
  - destruct (tryWaitMany max s pc ch) as [s1 r0] eqn:Et. apply tryWaitMany_spec in Et; [|done|lia]. injection E as <- <-.
    eapply (try_conserves _ _ _ _ r0 _ (inr 0)); try done; [tauto|]. destruct r0 as [|n]; [done|]. by destruct (Z.eqb_spec n 0) as [->|].
  - destruct (tryWaitMany max s pc ch) as [s1 r0] eqn:Et. apply tryWaitMany_spec in Et; [|done|lia]. injection E as <- <-.
    eapply (try_conserves _ _ _ _ r0 _ (if 0 <? max then inl (InWait (WSpin (m_maxSpins s1))) else inr 0)); try done; [tauto|..].
    + destruct (Z.ltb_spec 0 max); cbn; [done|lia].
    + by destruct (0 <? max).
    + destruct r0 as [|n]; [done|]. destruct (Z.eqb_spec n 0) as [->|]; [by destruct (0 <? max)|done].
Qed.

(** ** Blocking *)

(** Only a thread asleep in the operating system blocks. *)
Lemma call_step_blocks c s pc ch :
  call_step c s pc ch = None -> pc_ok c pc -> pc = InWait WBlock /\ answer ch = SysOk /\ m_sema s <= 0.
Proof.
  assert (forall timeout, sleep timeout s ch = None -> answer ch = SysOk /\ m_sema s <= 0) as Hsleep.
  { intros timeout. unfold sleep. assert ((if timeout <? 0 then Semaphore_wait else Semaphore_timed_wait) = Semaphore_wait) as -> by (by destruct (timeout <? 0)).
    unfold Semaphore_wait. destruct (answer ch); try done. destruct (Z.ltb_spec 0 (m_sema s)); done. }
  intros E Hpc. destruct pc as [pc|pc| |m].
  - destruct Hpc as (Ho & Hd & Hc). destruct c as [| |max|max timeout|]; cbn [call_step] in E; [by destruct (tryWait s pc ch)..|by destruct (tryWaitMany max s pc ch)|by destruct (tryWaitMany max s pc ch)|done].
  - destruct Hpc as (Ho & Hd & Hc). destruct c as [|timeout| |max timeout|]; try done; cbn [call_step] in E.
    + destruct pc as [spin|spin old| | | | |old|pc]; cbn [waitWithPartialSpinning] in E.
      1-3: repeat case_match; done.
      * destruct (sleep timeout s ch) as [[? ?]|] eqn:Es; [done|]. by destruct (Hsleep _ Es).
      * by destruct (back_off s WBack ch).
      * by destruct (back_off s WBackTry ch).
      * by destruct (back_off s (WBackCas old) ch).
      * cbn in Ho. lia.
    + destruct pc as [spin|spin old| | | | |old|pc]; cbn [waitManyWithPartialSpinning] in E.
      1-3: repeat case_match; done.
      * destruct (sleep timeout s ch) as [[? ?]|] eqn:Es; [done|]. by destruct (Hsleep _ Es).
      * by destruct (back_off s WBack ch).
      * by destruct (back_off s WBackTry ch).
      * by destruct (back_off s (WBackCas old) ch).
      * by destruct (tryWaitMany (max - 1) s pc ch).
  - destruct c; done.
  - destruct c; try by destruct Hpc. cbn in E. destruct (0 <? m), (answer ch); done.
Qed.

(** ** Waiting without a timeout *)

(** Not on the way back after a failed wait. *)
Definition not_back (pc : CallPc) : Prop := match pc with InWait (WBack | WBackTry | WBackCas _) => False | _ => True end.

(** When [sem_wait] does not fail, [waitMany] without a timeout returns with a permit. *)
Lemma wait_forever max timeout s pc ch s' r :
  call_step (CWaitMany max timeout) s pc ch = Some (s', r) -> pc_ok (CWaitMany max timeout) pc -> timeout < 0 -> 0 < max ->
  answer ch <> SysErr -> not_back pc -> match r with inl pc' => not_back pc' | inr n => 0 < n end.
Proof.
  intros E Hpc Ht Hm Ha Hb. destruct pc as [pc|pc| |]; cbn [call_step] in E; try done.
  - destruct (tryWaitMany max s pc ch) as [s1 r1] eqn:E1. injection E as <- <-. destruct Hpc as [Hpc _].
    destruct (tryWaitMany_spec _ _ _ _ _ _ E1 Hpc ltac:(lia)) as [(_ & [(pc' & -> & _)| ->])|(m & -> & Hm' & _)]; [done| |].
    + cbn [Z.eqb andb]. by replace (0 <? max) with true by (zbool; lia).
    + destruct (Z.eqb_spec m 0); cbn [andb]; [by replace (0 <? max) with true by (zbool; lia)|lia].
  - destruct Hpc as (Hw & _). destruct pc as [spin|spin old| | | | |old|pc]; try done; cbn [waitManyWithPartialSpinning] in E.
    + by destruct (0 <=? spin - 1); [destruct (0 <? m_count s)|]; injection E as <- <-.
    + cbn in Hw. destruct (m_count s =? old); injection E as <- <-; [|done]. pose proof (newCount_bounds max old ltac:(lia) Hw). lia.
    + injection E as <- <-. destruct (m_count s <=? 0); [by destruct (Z.eqb_spec timeout 0); [lia|]|]. destruct (1 <? max); [done|lia].
    + destruct (sleep timeout s ch) as [[s1 r1]|] eqn:E1; [|done]. injection E as <- <-. unfold sleep in E1. rewrite (proj2 (Z.ltb_lt timeout 0) Ht) in E1.
      unfold Semaphore_wait in E1. destruct (answer ch); [|injection E1 as <- <-; done|done].
      destruct (0 <? m_sema s); [|done]. injection E1 as <- <-. destruct (1 <? max); [done|lia].
    + destruct Hw as [Hd Hw]. cbn in Hd. destruct (tryWaitMany (max - 1) s pc ch) as [s1 r1] eqn:E1. injection E as <- <-.
      destruct (tryWaitMany_spec _ _ _ _ _ _ E1 Hw ltac:(lia)) as [(_ & [(pc' & -> & _)| ->])|(m & -> & Hm' & _)]; [done|lia|lia].
Qed.
