(* ===== verification/SemaphoreTrace.v ===== *)
(** * Threads that share a semaphore

    Any number of threads call the semaphore in any interleaving of their atomic
    steps.  No permit is given out that was not put in, none is lost, and nobody
    sleeps while a permit is there. *)
From S2P Require Import Prelude Semaphore SemaphoreSpec.

(** ** Worlds *)

Inductive SemaThread := Idle | Busy (c : Call) (pc : CallPc).

(** The semaphore, the threads, and the calls that have returned, with their results. *)
Record SemaWorld := mkSemaWorld { sw_sema : LightweightSemaphore; sw_threads : list SemaThread; sw_log : list (Call * Z) }.

(** A thread that is idle makes a call; a thread takes a step of its call, if it is
    not blocked. *)
Inductive SEvent := ECall (i : nat) (c : Call) | EStep (i : nat) (ch : Choice).

Definition sema_step (w : SemaWorld) (ev : SEvent) : outcome SemaWorld :=
  let put i th s log := mkSemaWorld s (<[i := th]> (sw_threads w)) log in
  match ev with
  | ECall i c =>
      match sw_threads w !! i with
      | Some Idle => pc ← enter c; Ret (put i (Busy c pc) (sw_sema w) (sw_log w))
      | _ => Ret w
      end
  | EStep i ch =>
      match sw_threads w !! i with
      | Some (Busy c pc) =>
          match call_step c (sw_sema w) pc ch with
          | None => Ret w
          | Some (s, inl pc) => Ret (put i (Busy c pc) s (sw_log w))
          | Some (s, inr n) => Ret (put i Idle s (sw_log w ++ [(c, n)]))
          end
      | _ => Ret w
      end
  end.

Fixpoint sema_run (w : SemaWorld) (evs : list SEvent) : outcome SemaWorld :=
  match evs with [] => Ret w | ev :: evs => w ← sema_step w ev; sema_run w evs end.

(** [k] idle threads and a new semaphore. *)
Definition sema_start (initialCount maxSpins : Z) (k : nat) : outcome SemaWorld :=
  s ← LightweightSemaphore_new initialCount maxSpins; Ret (mkSemaWorld s (replicate k Idle) []).

(** ** The account of a world *)

Definition thread_weights (th : SemaThread) : Weights := match th with Idle => no_weights | Busy c pc => weights pc c end.
Definition log_weights (e : Call * Z) : Weights := weights_done e.1 e.2.

(** The sum of a field over the calls in progress and the calls that returned. *)
Definition sum_of (f : Weights -> Z) (w : SemaWorld) : Z :=
  total (fun th => f (thread_weights th)) (sw_threads w) + total (fun e => f (log_weights e)) (sw_log w).

(** Permits put in so far and not taken. *)
Definition permits (n : Z) (w : SemaWorld) : Z := n + sum_of given w - sum_of taken w.

(** Permits all signals will have put in. *)
Definition asked (w : SemaWorld) : Z :=
  total (fun th => match th with Idle => 0 | Busy c _ => asked_by c end) (sw_threads w) + total (fun e => asked_by e.1) (sw_log w).
Definition cost (ev : SEvent) : Z := match ev with ECall _ c => asked_by c | EStep _ _ => 0 end.

Definition event_ok (ev : SEvent) : Prop :=
  match ev with ECall _ (CTryWaitMany max | CWaitMany max _) => 0 <= max | ECall _ (CSignal count) => 0 <= count | _ => True end.

Record world_inv (n : Z) (w : SemaWorld) : Prop := mk_world_inv {
  wi_threads : forall i c pc, sw_threads w !! i = Some (Busy c pc) -> pc_ok c pc;
  wi_log : Forall (fun e => 0 <= e.2 <= demand e.1) (sw_log w);
  wi_count : m_count (sw_sema w) + sum_of sleeping w = permits n w;
  wi_sema : m_sema (sw_sema w) + sum_of unposted w + debt (sw_sema w) = sum_of sleeping w;
  wi_pos : 0 <= m_sema (sw_sema w);
  wi_spins : 0 <= m_maxSpins (sw_sema w) }.

Lemma thread_nonneg n w f : world_inv n w -> (f = sleeping \/ f = unposted \/ f = taken \/ f = given) ->
  Forall (fun th => 0 <= f (thread_weights th)) (sw_threads w).
Proof.
  intros I Hf. apply Forall_lookup. intros i [|c pc] Hi; [by destruct Hf as [-> |[-> |[-> | ->]]]|].
  pose proof (wi_threads _ _ I i c pc Hi) as Hpc. destruct pc as [?|[]| |m]; destruct Hf as [-> |[-> |[-> | ->]]]; cbn in *; try lia; destruct c; lia.
Qed.

(** The sleepers are at most the threads. *)
Lemma sleeping_bound w : 0 <= sum_of sleeping w <= Z.of_nat (length (sw_threads w)).
Proof.
  unfold sum_of.
  assert (total (fun e => sleeping (log_weights e)) (sw_log w) = 0) as ->.
  { generalize (sw_log w). induction l as [|[c r] l IH]; [done|]. cbn in *. rewrite IH. by destruct c. }
  pose proof (total_bounds (fun th => sleeping (thread_weights th)) 0 1 (sw_threads w)) as H. rewrite Z.mul_0_l, Z.mul_1_l in H.
  rewrite Z.add_0_r. apply H. apply Forall_true. intros [|c [?|[]| |?]]; cbn; lia.
Qed.

Lemma sum_unposted w : sum_of unposted w = total (fun th => unposted (thread_weights th)) (sw_threads w).
Proof.
  unfold sum_of. assert (total (fun e => unposted (log_weights e)) (sw_log w) = 0) as ->; [|lia].
  generalize (sw_log w). induction l as [|[c r] l IH]; [done|]. cbn in *. rewrite IH. by destruct c.
Qed.

Lemma taken_nonneg n w : world_inv n w -> 0 <= sum_of taken w.
Proof.
  intros I. unfold sum_of. pose proof (total_nonneg _ _ (thread_nonneg n w taken I ltac:(auto))).
  assert (0 <= total (fun e => taken (log_weights e)) (sw_log w)); [|lia].
  apply total_nonneg. eapply Forall_impl; [apply (wi_log _ _ I)|]. intros [[] r]; cbn; lia.
Qed.

(** What signals have put in is at most what they will have put in. *)
Lemma given_asked n w i c pc :
  world_inv n w -> sw_threads w !! i = Some (Busy c pc) ->
  sum_of given w + (asked_by c - given (weights pc c)) <= asked w.
Proof.
  intros I Hi. unfold sum_of, asked.
  assert (total (fun e => given (log_weights e)) (sw_log w) <= total (fun e => asked_by e.1) (sw_log w)) by (apply total_le, Forall_true; intros [[] ?]; cbn; lia).
  assert (total (fun th => given (thread_weights th)) (sw_threads w) + (asked_by c - given (weights pc c)) <=
    total (fun th => match th with Idle => 0 | Busy c _ => asked_by c end) (sw_threads w)); [|lia].
  pose proof (total_insert (fun th => given (thread_weights th)) (sw_threads w) i _ Idle Hi) as E1.
  pose proof (total_insert (fun th => match th with Idle => 0 | Busy c _ => asked_by c end) (sw_threads w) i _ Idle Hi) as E2.
  cbn in E1, E2. assert (total (fun th => given (thread_weights th)) (<[i := Idle]> (sw_threads w)) <=
    total (fun th => match th with Idle => 0 | Busy c _ => asked_by c end) (<[i := Idle]> (sw_threads w))); [|lia].
  apply total_le, Forall_lookup. intros j [|c' pc'] Hj; [done|]. apply list_lookup_insert_Some in Hj as [(_ & ? & _)|(_ & Hj)]; [done|].
  pose proof (wi_threads _ _ I j c' pc' Hj) as Hpc. destruct pc' as [?|[]| |m], c'; cbn in *; lia.
Qed.

Lemma given_le_asked n w : world_inv n w -> sum_of given w <= asked w.
Proof.
  intros I. unfold sum_of, asked. apply Z.add_le_mono; apply total_le.
  - apply Forall_lookup. intros j [|c' pc'] Hj; [done|].
    pose proof (wi_threads _ _ I j c' pc' Hj) as Hpc. destruct pc' as [?|[]| |m], c'; cbn in *; lia.
  - apply Forall_true. intros [[] ?]; cbn; lia.
Qed.

(** ** Every step keeps the account *)

(** Replacing thread [i] and adding to the log. *)
Lemma sum_put f w i th th' s log :
  sw_threads w !! i = Some th ->
  sum_of f (mkSemaWorld s (<[i := th']> (sw_threads w)) (sw_log w ++ log)) =
  sum_of f w - f (thread_weights th) + (f (thread_weights th') + total (fun e => f (log_weights e)) log).
Proof. intros Hi. unfold sum_of. cbn. rewrite (total_insert _ _ _ _ _ Hi), total_app. lia. Qed.

Lemma in_range_at n w i c pc :
  world_inv n w -> Z.of_nat (length (sw_threads w)) < 2147483648 -> n + asked w < 9223372036854775808 ->
  sw_threads w !! i = Some (Busy c pc) -> in_range c pc (sw_sema w).
Proof.
  intros I Hlen Hask Hi. pose proof (sleeping_bound w). pose proof (taken_nonneg _ _ I). pose proof (given_le_asked _ _ I).
  pose proof (given_asked _ _ _ _ _ I Hi) as Hg. pose proof (total_nonneg _ _ (thread_nonneg n w unposted I ltac:(auto))) as Hp.
  rewrite <- sum_unposted in Hp. destruct I as [_ _ Hc Hs Hpos _]. unfold permits, debt in *. split; [lia|]. split; [done|].
  destruct c, pc; try done. cbn in Hg. lia.
Qed.

(** The state after a step of thread [i]. *)
Lemma world_inv_put n w i c pc s' r th' log :
  world_inv n w -> sw_threads w !! i = Some (Busy c pc) -> step_conserves c (sw_sema w) pc s' r -> pc_ok c pc ->
  (th', log) = match r with inl pc' => (Busy c pc', []) | inr m => (Idle, [(c, m)]) end ->
  let w' := mkSemaWorld s' (<[i := th']> (sw_threads w)) (sw_log w ++ log) in world_inv n w' /\ asked w' = asked w.
Proof.
  intros I Hi (Hr & [Cc Cs Cp] & Es) Hpc El. cbv zeta.
  assert (forall f, f no_weights = 0 -> f (thread_weights th') + total (fun e => f (log_weights e)) log = f (weights_of c r)) as Hw.
  { intros f Hf. destruct r as [pc'|m]; injection El as -> ->; cbn [thread_weights total weights_of]; rewrite ?Hf; unfold log_weights; cbn [fst snd]; lia. }
  split; [|unfold asked; cbn; rewrite (total_insert _ _ _ _ _ Hi), total_app; destruct r; injection El as -> ->; cbn; lia].
  pose proof I as [Ht Hl Hc Hs Hpos Hsp]. constructor; cbn [sw_sema sw_threads sw_log].
  - intros j c' pc' Hj. apply list_lookup_insert_Some in Hj as [(_ & E & _)|(_ & Hj)]; [|by eapply Ht].
    destruct r as [pc1|m]; injection El as -> ->; [|done]. by injection E as <- <-.
  - apply Forall_app. split; [done|]. destruct r; injection El as -> ->; by constructor.
  - unfold permits in *. rewrite !(sum_put _ _ _ _ _ _ _ Hi), !Hw by done. cbn [thread_weights]. lia.
  - rewrite !(sum_put _ _ _ _ _ _ _ Hi), !Hw by done. cbn [thread_weights]. lia.
  - done.
  - by rewrite Es.
Qed.

Lemma sema_step_inv n w ev :
  world_inv n w -> event_ok ev -> Z.of_nat (length (sw_threads w)) < 2147483648 -> n + asked w + cost ev < 9223372036854775808 -> 0 <= cost ev ->
  exists w', sema_step w ev = Ret w' /\ world_inv n w' /\ asked w' <= asked w + cost ev /\ length (sw_threads w') = length (sw_threads w).
Proof.
  intros I Hev Hlen Hask Hcost. destruct ev as [i c|i ch]; cbn [sema_step cost] in *.
  - destruct (sw_threads w !! i) as [[|c' pc']|] eqn:Hi; [|exists w; by auto with lia..].
    assert (exists pc, enter c = Ret pc /\ pc_ok c pc /\ weights pc c = no_weights) as (pc & -> & Hpc & Wpc).
    { destruct c as [| |max|max t|count]; cbn in Hev |- *; try (eexists; by repeat split).
      all: match goal with |- context [0 <=? ?z] => destruct (Z.leb_spec 0 z) end; [|lia]; eexists; by repeat split. }
    cbn [mbind outcome_bind]. eexists. split; [done|]. pose proof I as [Ht Hl Hc Hs Hpos Hsp].
    assert (forall f, sum_of f (mkSemaWorld (sw_sema w) (<[i := Busy c pc]> (sw_threads w)) (sw_log w)) = sum_of f w) as Hw.
    { intros f. unfold sum_of. cbn. rewrite (total_insert _ _ _ _ _ Hi). cbn. rewrite Wpc. lia. }
    split; [|split; [unfold asked; cbn; rewrite (total_insert _ _ _ _ _ Hi); cbn; lia|cbn; apply length_insert]].
    constructor; unfold permits in *; rewrite ?Hw; try done. intros j c' pc' Hj.
    apply list_lookup_insert_Some in Hj as [(_ & E & _)|(_ & Hj)]; [by injection E as <- <-|by eapply Ht].
  - destruct (sw_threads w !! i) as [[|c pc]|] eqn:Hi; [exists w; by auto with lia| |exists w; by auto with lia].
    destruct (call_step c (sw_sema w) pc ch) as [[s' r]|] eqn:Es; [|exists w; by auto with lia].
    pose proof (wi_threads _ _ I _ _ _ Hi) as Hpc.
    pose proof (call_step_conserves _ _ _ _ _ _ Es Hpc (in_range_at n w i c pc I Hlen ltac:(lia) Hi)) as Hcons.
    destruct r as [pc'|m];
      [destruct (world_inv_put n w i c pc s' (inl pc') _ _ I Hi Hcons Hpc eq_refl) as [I' Ea]; rewrite app_nil_r in I', Ea
      |destruct (world_inv_put n w i c pc s' (inr m) _ _ I Hi Hcons Hpc eq_refl) as [I' Ea]];
      eexists; (split; [done|]); (split; [exact I'|]); (split; [lia|]); apply length_insert.
Qed.

Lemma sema_run_inv n evs : forall w,
  world_inv n w -> Forall event_ok evs -> Z.of_nat (length (sw_threads w)) < 2147483648 -> n + asked w + total cost evs < 9223372036854775808 ->
  exists w', sema_run w evs = Ret w' /\ world_inv n w' /\ asked w' <= asked w + total cost evs /\ length (sw_threads w') = length (sw_threads w).
Proof.
  induction evs as [|ev evs IH]; intros w I Hevs Hlen Hask; cbn [sema_run total] in *; [exists w; by auto with lia|].
  apply Forall_cons in Hevs as [Hev Hevs].
  assert (Forall (fun ev => 0 <= cost ev) (ev :: evs)) as Hpos.
  { apply Forall_cons. split; [by destruct ev as [? []|]|]. eapply Forall_impl; [exact Hevs|]. by intros [? []|]. }
  apply Forall_cons in Hpos as [Hp Hps]. pose proof (total_nonneg cost evs Hps).
  destruct (sema_step_inv n w ev I Hev Hlen ltac:(lia) Hp) as (w1 & -> & I1 & Ha & El). cbn [mbind outcome_bind].
  destruct (IH w1 I1 Hevs ltac:(lia) ltac:(lia)) as (w2 & -> & I2 & Ha2 & El2). exists w2. by auto with lia.
Qed.

Lemma sema_start_inv n spins k : 0 <= n -> 0 <= spins ->
  exists w, sema_start n spins k = Ret w /\ world_inv n w /\ asked w = 0 /\ length (sw_threads w) = k.
Proof.
  intros Hn Hs. unfold sema_start, LightweightSemaphore_new.
  replace (0 <=? n) with true by (symmetry; by apply Z.leb_le). replace (0 <=? spins) with true by (symmetry; by apply Z.leb_le). cbn [andb mbind outcome_bind].
  assert (forall (f : SemaThread -> Z), f Idle = 0 -> total f (replicate k Idle) = 0) as Ht.
  { intros f Hf. clear -Hf. induction k as [|k IH]; cbn; [done|]. rewrite IH, Hf. done. }
  eexists. split; [done|]. split; [|split; [unfold asked; cbn; by rewrite Ht|apply length_replicate]].
  constructor; unfold permits, sum_of, debt; cbn; rewrite ?Ht by done; try done; try lia.
  intros i c pc Hi. apply lookup_replicate in Hi as [? _]. done.
Qed.

(** A run of [k] threads. *)
Lemma reachable_inv n spins k evs :
  0 <= n -> 0 <= spins -> Z.of_nat k < 2147483648 -> Forall event_ok evs -> n + total cost evs < 9223372036854775808 ->
  exists w, (sema_start n spins k ≫= fun w => sema_run w evs) = Ret w /\ world_inv n w /\ length (sw_threads w) = k /\ n + asked w < 9223372036854775808.
Proof.
  intros Hn Hs Hk Hevs Hb. destruct (sema_start_inv n spins k Hn Hs) as (w0 & -> & I0 & Ha & El). cbn [mbind outcome_bind].
  destruct (sema_run_inv n evs w0 I0 Hevs ltac:(lia) ltac:(lia)) as (w & E & I & Ha' & El'). exists w. by auto with lia.
Qed.

(** C33: Whatever threads interleave, the calls that have returned or taken their first permit
    took no more permits than the semaphore had at first and signals have put in; the
    permits left are those of the counter, of the operating system's semaphore and of
    signals in progress; and no call takes more than it asked for. *)
Theorem semaphore_conserves_permits n spins k evs :
  0 <= n -> 0 <= spins -> Z.of_nat k < 2147483648 -> Forall event_ok evs -> n + total cost evs < 9223372036854775808 ->
  exists w, (sema_start n spins k ≫= fun w => sema_run w evs) = Ret w /\ 0 <= permits n w /\
    permits n w = availableApprox (sw_sema w) + m_sema (sw_sema w) + sum_of unposted w /\
    Forall (fun e => 0 <= e.2 <= demand e.1) (sw_log w).
Proof.
  intros Hn Hs Hk Hevs Hb. destruct (reachable_inv n spins k evs Hn Hs Hk Hevs Hb) as (w & E & I & El & Ha). exists w. split; [done|].
  pose proof (total_nonneg _ _ (thread_nonneg n w unposted I ltac:(auto))) as Hp. rewrite <- sum_unposted in Hp.
  pose proof (sleeping_bound w). pose proof (taken_nonneg _ _ I). pose proof (given_le_asked _ _ I). pose proof I as [_ Hl Hc Hse Hpos _].
  unfold permits, availableApprox, debt in *.
  destruct (Z.ltb_spec 0 (m_count (sw_sema w))); [rewrite u64_small by (unfold is_u64, UINT64_MOD; lia)|]; (split; [lia|]); (split; [lia|done]).
Qed.

Lemma semaphore_conserves_permits_witness :
  exists w, (sema_start 1 10000 2 ≫= fun w => sema_run w [ECall 0 (CWait (-1)); EStep 0 (mkChoice false SysOk); EStep 0 (mkChoice false SysOk); ECall 1 (CSignal 3)]) = Ret w /\
    0 <= permits 1 w /\ permits 1 w = availableApprox (sw_sema w) + m_sema (sw_sema w) + sum_of unposted w /\
    Forall (fun e => 0 <= e.2 <= demand e.1) (sw_log w).
Proof. apply (semaphore_conserves_permits 1 10000 2); [lia|lia|lia|repeat constructor; cbn; lia|cbn; lia]. Defined.

(** ** Nobody sleeps in vain *)

(** No signal is on its way to the operating system. *)
Definition settled (w : SemaWorld) : Prop := forall i c m, sw_threads w !! i <> Some (Busy c (InPost m)).

Lemma settled_unposted w : settled w -> sum_of unposted w = 0.
Proof.
  intros Hs. rewrite sum_unposted. unfold settled in Hs. induction (sw_threads w) as [|th l IH]; [done|]. cbn. rewrite IH by (intros i; apply (Hs (S i))).
  destruct th as [|c pc]; [done|]. destruct pc as [?|[]| |m]; try done. by destruct (Hs 0%nat c m).
Qed.

Lemma sleeper_counts n w i c pc : world_inv n w -> sw_threads w !! i = Some (Busy c pc) -> sleeping (weights pc c) <= sum_of sleeping w.
Proof.
  intros I Hi. pose proof (total_elem _ _ i _ (thread_nonneg n w sleeping I ltac:(auto)) Hi) as Hle. cbn in Hle. unfold sum_of.
  assert (total (fun e => sleeping (log_weights e)) (sw_log w) = 0) as ->; [|lia].
  generalize (sw_log w). induction l as [|[c' r] l IH]; [done|]. cbn in *. rewrite IH. by destruct c'.
Qed.

Lemma blocked_no_permits n w i c pc ch :
  world_inv n w -> settled w -> sw_threads w !! i = Some (Busy c pc) -> call_step c (sw_sema w) pc ch = None -> permits n w = 0.
Proof.
  intros I Hs Hi E. destruct (call_step_blocks _ _ _ _ E (wi_threads _ _ I _ _ _ Hi)) as (-> & _ & H0).
  pose proof (sleeper_counts _ _ _ _ _ I Hi) as Hw. cbn in Hw. rewrite <- (wi_count _ _ I).
  pose proof (wi_sema _ _ I) as Hse. rewrite (settled_unposted _ Hs) in Hse. pose proof (wi_pos _ _ I). unfold debt in Hse. lia.
Qed.

(** C34: No wake-up is lost: in every state threads can reach, once the signals that have
    begun have finished, no thread blocks while a permit is left. *)
Theorem semaphore_no_lost_wakeup n spins k evs w i c pc ch :
  0 <= n -> 0 <= spins -> Z.of_nat k < 2147483648 -> Forall event_ok evs -> n + total cost evs < 9223372036854775808 ->
  (sema_start n spins k ≫= fun w => sema_run w evs) = Ret w -> settled w -> 0 < permits n w ->
  sw_threads w !! i = Some (Busy c pc) -> is_Some (call_step c (sw_sema w) pc ch).
Proof.
  intros Hn Hs Hk Hevs Hb E Hse Hp Hi. destruct (reachable_inv n spins k evs Hn Hs Hk Hevs Hb) as (w' & E' & I & _ & _).
  rewrite E in E'. injection E' as <-. destruct (call_step c (sw_sema w) pc ch) eqn:Ec; [by eexists|].
  pose proof (blocked_no_permits _ _ _ _ _ _ I Hse Hi Ec). lia.
Qed.

(** A thread goes to sleep, another signals. *)
Definition demo_sema : list SEvent :=
  ECall 0 (CWait (-1)) :: replicate 3 (EStep 0 (mkChoice false SysOk)) ++ ECall 1 (CSignal 1) :: replicate 3 (EStep 1 (mkChoice false SysOk)).

Definition demo_sema_end : SemaWorld := mkSemaWorld (mkSema 0 1 0) [Busy (CWait (-1)) (InWait WBlock); Idle] [(CSignal 1, 0)].

Lemma semaphore_no_lost_wakeup_witness :
  (sema_start 0 0 2 ≫= fun w => sema_run w demo_sema) = Ret demo_sema_end /\ is_Some (call_step (CWait (-1)) (sw_sema demo_sema_end) (InWait WBlock) (mkChoice false SysOk)).
Proof.
  split; [reflexivity|]. apply (semaphore_no_lost_wakeup 0 0 2 demo_sema demo_sema_end 0).
  - lia.
  - lia.
  - lia.
  - repeat constructor; cbn; lia.
  - cbn. lia.
  - reflexivity.
  - intros [|[|i]] c m; cbn; discriminate.
  - reflexivity.
  - reflexivity.
Defined.

(** ** A thread alone *)

Definition alone : Choice := mkChoice false SysOk.

(** The steps a thread needs when nobody interferes. *)
Definition try_steps (s : LightweightSemaphore) (pc : TryPc) : Z :=
  match pc with TLoad => 2 | TCas oldCount => if m_count s =? oldCount then 1 else 2 end.

Definition wait_steps (s : LightweightSemaphore) (pc : WaitPc) : Z :=
  match pc with
  | WSpin spin => 6 + 2 * Z.max 0 spin
  | WSpinCas spin _ => 7 + 2 * Z.max 0 spin
  | WSub => 5
  | WBlock => 3
  | WBack => 4
  | WBackTry => if 0 <? m_sema s then 3 else 5
  | WBackCas oldCount => if m_count s =? oldCount then 1 else 5
  | WMore pc => try_steps s pc
  end.

Definition steps (c : Call) (s : LightweightSemaphore) (pc : CallPc) : Z :=
  match pc with
  | InTry pc => 6 + 2 * m_maxSpins s + try_steps s pc
  | InWait pc => wait_steps s pc
  | InSignal => 2 + asked_by c
  | InPost m => 1 + m
  end.

(** The count and the operating system's semaphore agree for a thread on its way back. *)
Definition back_ok (s : LightweightSemaphore) (pc : CallPc) : Prop :=
  match pc with InWait (WBack | WBackTry | WBackCas _) => 0 <= m_count s -> 0 < m_sema s | _ => True end.

Lemma try_steps_bounds s pc : 1 <= try_steps s pc <= 2.
Proof. destruct pc; cbn; [lia|]. destruct (_ =? _); lia. Qed.

(** Alone, a try function returns or comes closer to it. *)
Lemma try_alone max s pc s' r :
  tryWaitMany max s pc alone = (s', r) -> try_ok pc -> m_maxSpins s' = m_maxSpins s /\ match r with inl pc' => try_steps s' pc' < try_steps s pc | inr _ => True end.
Proof.
  intros E Ho. destruct pc as [|old]; cbn in E.
  - injection E as <- <-. split; [done|]. unfold try_loop. destruct (Z.ltb_spec 0 (m_count s)); [|done]. cbn. rewrite Z.eqb_refl. lia.
  - destruct (Z.eqb_spec (m_count s) old) as [En|En]; injection E as <- <-; (split; [done|]); [done|].
    unfold try_loop. destruct (Z.ltb_spec 0 (m_count s)); [|done]. cbn. rewrite Z.eqb_refl. destruct (Z.eqb_spec (m_count s) old); lia.
Qed.

Lemma back_alone s pc s' r :
  back_off s pc alone = (s', r) -> (pc = WBack \/ pc = WBackTry \/ exists n, pc = WBackCas n) -> back_ok s (InWait pc) ->
  match r with inl pc' => wait_steps s' pc' < wait_steps s pc | inr true => 3 <= wait_steps s pc | inr false => True end.
Proof.
  intros E Hpc Hb. destruct Hpc as [-> |[-> |(old & ->)]]; cbn in E, Hb |- *.
  - injection E as <- <-. destruct (Z.leb_spec 0 (m_count s)); cbn; [|rewrite Z.eqb_refl; lia].
    destruct (Z.ltb_spec 0 (m_sema s)); lia.
  - destruct (Z.ltb_spec 0 (m_sema s)); injection E as <- <-; cbn; lia.
  - destruct (Z.eqb_spec (m_count s) old); injection E as <- <-; cbn; lia.
Qed.

Lemma sleep_alone timeout s s' r : sleep timeout s alone = Some (s', r) -> r = inr true.
Proof.
  unfold sleep. assert ((if timeout <? 0 then Semaphore_wait else Semaphore_timed_wait) = Semaphore_wait) as -> by (by destruct (timeout <? 0)).
  cbn. destruct (0 <? m_sema s); [|done]. by intros [= _ <-].
Qed.

Lemma wait_alone c s pc s' r :
  call_step c s (InWait pc) alone = Some (s', r) -> pc_ok c (InWait pc) -> back_ok s (InWait pc) ->
  match r with inl pc' => steps c s' pc' < wait_steps s pc | inr _ => True end.
Proof.
  intros E (Ho & Hd & Hc) Hb. destruct c as [|timeout| |max timeout|]; try done; cbn [call_step] in E.
  - destruct pc as [spin|spin old| | | | |old|pc]; cbn [waitWithPartialSpinning mbind option_bind] in E.
    + destruct (Z.leb_spec 0 (spin - 1)); injection E as <- <-; cbn; [destruct (0 <? m_count s); cbn; lia|lia].
    + destruct (m_count s =? old); injection E as <- <-; cbn; [done|lia].
    + injection E as <- <-. destruct (0 <? m_count s); [done|]. destruct (timeout =? 0); cbn; lia.
    + destruct (sleep timeout s alone) as [[s1 r0]|] eqn:Es; [|done]. apply sleep_alone in Es as ->. by injection E as <- <-.
    + destruct (back_off s WBack alone) as [s1 r0] eqn:Es. injection E as <- <-. apply back_alone in Es; [|auto|done]. by destruct r0.
    + destruct (back_off s WBackTry alone) as [s1 r0] eqn:Es. injection E as <- <-. apply back_alone in Es; [|auto|done]. by destruct r0.
    + destruct (back_off s (WBackCas old) alone) as [s1 r0] eqn:Es. injection E as <- <-. apply back_alone in Es; [|eauto|done]. by destruct r0.
    + done.
  - assert (forall s1 r0, (match r0 with inl pc' => wait_steps s1 pc' < wait_steps s pc | inr true => 3 <= wait_steps s pc | inr false => True end) ->
      match match match r0 with inl pc => inl pc | inr true => if 1 <? max then inl (WMore TLoad) else inr 1 | inr false => inr 0 end with
        inl pc => inl (InWait pc) | inr n => inr n end with inl pc' => steps (CWaitMany max timeout) s1 pc' < wait_steps s pc | inr _ => True end) as Hn.
    { intros s1 [pc'|[]] H; [done| |done]. destruct (1 <? max); [|done]. cbn. lia. }
    destruct pc as [spin|spin old| | | | |old|pc]; cbn [waitManyWithPartialSpinning mbind option_bind] in E.
    + destruct (Z.leb_spec 0 (spin - 1)); injection E as <- <-; cbn; [destruct (0 <? m_count s); cbn; lia|lia].
    + destruct (m_count s =? old); injection E as <- <-; cbn; [done|lia].
    + injection E as <- <-. destruct (m_count s <=? 0); [destruct (timeout =? 0); cbn; lia|]. destruct (1 <? max); cbn; [lia|done].
    + destruct (sleep timeout s alone) as [[s1 r0]|] eqn:Es; [|done]. apply sleep_alone in Es as ->. injection E as <- <-.
      apply (Hn _ (inr true)). cbn. lia.
    + destruct (back_off s WBack alone) as [s1 r0] eqn:Es. injection E as <- <-. apply Hn. apply back_alone in Es; [done|auto|done].
    + destruct (back_off s WBackTry alone) as [s1 r0] eqn:Es. injection E as <- <-. apply Hn. apply back_alone in Es; [done|auto|done].
    + destruct (back_off s (WBackCas old) alone) as [s1 r0] eqn:Es. injection E as <- <-. apply Hn. apply back_alone in Es; [done|eauto|done].
    + destruct Ho as [Hm Ho]. destruct (tryWaitMany (max - 1) s pc alone) as [s1 r0] eqn:Es. injection E as <- <-.
      apply try_alone in Es as [_ Es]; [|done]. by destruct r0.
Qed.

Lemma call_alone c s pc s' r :
  call_step c s pc alone = Some (s', r) -> pc_ok c pc -> in_range c pc s -> back_ok s pc -> 0 <= m_maxSpins s ->
  match r with inl pc' => steps c s' pc' < steps c s pc | inr _ => True end.
Proof.
  intros E Hpc (Hr & Hs & Hr') Hb Hsp. destruct pc as [pc|pc| |m].
  - destruct Hpc as (Ho & Hd & Hc). destruct c as [|timeout|max|max timeout|]; try done; cbn [call_step] in E; rewrite ?tryWait_many in E by done;
      match type of E with context [tryWaitMany ?m s pc alone] => destruct (tryWaitMany m s pc alone) as [s1 r0] eqn:Es end;
      injection E as <- <-; pose proof (try_steps_bounds s pc); apply try_alone in Es as [Em Es]; try done; destruct r0 as [pc'|n]; cbn [steps]; try lia;
      destruct (n =? 0); cbn; rewrite ?Em; try done; try lia. destruct (0 <? max); cbn; [lia|done].
  - by apply wait_alone.
  - destruct c as [| | | |count]; try done. cbn in E, Hpc, Hr'. rewrite (s64_small (- m_count s)) in E by lia. injection E as <- <-.
    match goal with |- context [0 <? ?t] => set (toRelease := t) end.
    assert (toRelease = Z.min (- m_count s) count) as Et by (unfold toRelease; destruct (Z.ltb_spec (- m_count s) count); lia).
    destruct (Z.ltb_spec 0 toRelease); [|done]. cbn. rewrite s32_small by lia. lia.
  - destruct c as [| | | |count]; try by destruct Hpc. cbn in E. destruct (Z.ltb_spec 0 m); injection E as <- <-; cbn; [lia|done].
Qed.

(** Nobody but thread [i] is on its way to the operating system. *)
Definition settled_but (i : nat) (w : SemaWorld) : Prop := forall j c m, j <> i -> sw_threads w !! j <> Some (Busy c (InPost m)).

Lemma settled_at i w c pc : settled_but i w -> sw_threads w !! i = Some (Busy c pc) -> (forall m, pc <> InPost m) -> settled w.
Proof. intros Hs Hi Hpc j c' m Hj. destruct (decide (j = i)) as [->|Hne]; [|by eapply Hs]. rewrite Hi in Hj. injection Hj as _ ->. by apply (Hpc m). Qed.

Lemma back_ok_at n w i c pc : world_inv n w -> settled_but i w -> sw_threads w !! i = Some (Busy c pc) -> back_ok (sw_sema w) pc.
Proof.
  intros I Hs Hi. destruct pc as [|pc| |]; try done. assert (sum_of unposted w = 0) as Hu by (eapply settled_unposted, settled_at; done).
  pose proof (sleeper_counts _ _ _ _ _ I Hi) as Hw. pose proof (wi_sema _ _ I) as Hse. unfold debt in Hse.
  destruct pc; cbn in Hw |- *; try done; lia.
Qed.

Lemma run_alone n i c bound : forall m w pc,
  world_inv n w -> settled_but i w -> Z.of_nat (length (sw_threads w)) < 2147483648 -> n + asked w < 9223372036854775808 ->
  sw_threads w !! i = Some (Busy c pc) -> steps c (sw_sema w) pc <= Z.of_nat m -> Z.of_nat m <= bound ->
  exists k w', Z.of_nat k <= bound /\ sema_run w (replicate k (EStep i alone)) = Ret w' /\
    (sw_threads w' !! i = Some Idle \/ (sw_threads w' !! i = Some (Busy c (InWait WBlock)) /\ permits n w' = 0)).
Proof.
  intros m. revert bound. induction m as [|m IH]; intros bound w pc I Hs Hlen Ha Hi Hm Hb.
  { exfalso. pose proof (wi_threads _ _ I _ _ _ Hi) as Hpc. pose proof (wi_spins _ _ I). destruct pc as [pc|pc| |k]; cbn in Hm.
    - pose proof (try_steps_bounds (sw_sema w) pc). lia.
    - destruct pc; cbn in Hm; try lia; try (destruct (_ <? _) || destruct (_ =? _)); try lia. pose proof (try_steps_bounds (sw_sema w) pc). lia.
    - destruct c; try done. cbn in *. lia.
    - destruct Hpc. lia. }
  pose proof (wi_threads _ _ I _ _ _ Hi) as Hpc. pose proof (in_range_at n w i c pc I Hlen Ha Hi) as Hr.
  destruct (call_step c (sw_sema w) pc alone) as [[s' r]|] eqn:Es.
  2:{ exists 0%nat, w. split; [lia|]. split; [done|]. right. destruct (call_step_blocks _ _ _ _ Es Hpc) as (-> & _ & _). split; [done|].
      eapply blocked_no_permits; [done|eapply settled_at; done|done|done]. }
  pose proof (call_alone _ _ _ _ _ Es Hpc Hr (back_ok_at _ _ _ _ _ I Hs Hi) (wi_spins _ _ I)) as Hdec.
  pose proof (call_step_conserves _ _ _ _ _ _ Es Hpc Hr) as Hcons. assert (i < length (sw_threads w))%nat as Hlt by (by eapply lookup_lt_Some).
  destruct r as [pc'|res].
  - destruct (world_inv_put n w i c pc s' (inl pc') _ _ I Hi Hcons Hpc eq_refl) as [I' Ea]. rewrite app_nil_r in I', Ea.
    destruct (IH (bound - 1) _ pc' I') as (k & w' & Hk & E & Hw); cbn; rewrite ?length_insert, ?Ea; try lia.
    + intros j c' m' Hne. cbn [sw_threads]. rewrite list_lookup_insert_ne by done. by apply Hs.
    + by rewrite list_lookup_insert_eq.
    + exists (S k), w'. split; [lia|]. split; [|done]. cbn. rewrite Hi, Es. exact E.
  - eexists 1%nat, _. split; [lia|]. split; [cbn; rewrite Hi, Es; done|]. left. cbn. by rewrite list_lookup_insert_eq.
Qed.

(** C35: A call never waits for another thread that is only slow: from every state threads can
    reach, with no other signal halfway, a thread that runs alone returns within the
    number of steps [steps] gives (two for each spin left and eight more; the count
    and two more for a signal), or sleeps because no permit is left. *)
Theorem semaphore_returns_alone n spins k evs w i c pc :
  0 <= n -> 0 <= spins -> Z.of_nat k < 2147483648 -> Forall event_ok evs -> n + total cost evs < 9223372036854775808 ->
  (sema_start n spins k ≫= fun w => sema_run w evs) = Ret w -> settled_but i w -> sw_threads w !! i = Some (Busy c pc) ->
  exists m w', Z.of_nat m <= steps c (sw_sema w) pc /\ sema_run w (replicate m (EStep i alone)) = Ret w' /\
    (sw_threads w' !! i = Some Idle \/ (sw_threads w' !! i = Some (Busy c (InWait WBlock)) /\ permits n w' = 0)).
Proof.
  intros Hn Hs Hk Hevs Hb E Hse Hi. destruct (reachable_inv n spins k evs Hn Hs Hk Hevs Hb) as (w' & E' & I & El & Ha).
  rewrite E in E'. injection E' as <-. assert (0 <= steps c (sw_sema w) pc) as Hpos.
  { pose proof (wi_threads _ _ I _ _ _ Hi) as Hpc. pose proof (wi_spins _ _ I). destruct pc as [pc|pc| |j]; cbn.
    - pose proof (try_steps_bounds (sw_sema w) pc). lia.
    - destruct pc; cbn; try lia; try (destruct (_ <? _) || destruct (_ =? _)); try lia. pose proof (try_steps_bounds (sw_sema w) pc). lia.
    - destruct c; try done. cbn in *. lia.
    - destruct Hpc. lia. }
  apply (run_alone n i c _ (Z.to_nat (steps c (sw_sema w) pc)) w pc I Hse); try done; lia.
Qed.

Lemma semaphore_returns_alone_witness :
  exists m w', Z.of_nat m <= 3 /\ sema_run demo_sema_end (replicate m (EStep 0 alone)) = Ret w' /\
    (sw_threads w' !! 0%nat = Some Idle \/ (sw_threads w' !! 0%nat = Some (Busy (CWait (-1)) (InWait WBlock)) /\ permits 0 w' = 0)).
Proof.
  apply (semaphore_returns_alone 0 0 2 demo_sema demo_sema_end 0 (CWait (-1)) (InWait WBlock)).
  - lia.
  - lia.
  - lia.
  - repeat constructor; cbn; lia.
  - cbn. lia.
  - reflexivity.
  - intros [|[|i]] c m _; cbn; discriminate.
  - reflexivity.
Defined.

(** The deadline of [timed_wait] is the time of the clock plus the timeout, with a number
    of nanoseconds the operating system accepts. *)
Theorem timed_wait_deadline sec nsec usecs :
  0 <= sec < 4611686018427387904 -> 0 <= nsec < 1000000000 -> 0 <= usecs < 9223372036854775808 ->
  let '(s, ns) := timed_wait_until sec nsec usecs in
  0 <= ns < 1000000000 /\ 1000000000 * s + ns = 1000000000 * sec + nsec + 1000 * usecs.
Proof.
  intros Hs Hn Hu. unfold timed_wait_until. pose proof (Z.div_mod usecs 1000000 ltac:(lia)). pose proof (Z.mod_pos_bound usecs 1000000 ltac:(lia)).
  rewrite (s64_small (usecs mod 1000000 * 1000)), (s64_small (nsec + _)), (s64_small (sec + _)) by lia.
  destruct (Z.leb_spec 1000000000 (nsec + usecs mod 1000000 * 1000)); [rewrite s64_small by lia|]; split; lia.
Qed.

Lemma timed_wait_deadline_witness :
  let '(s, ns) := timed_wait_until 1700000000 999999999 2500001 in
  0 <= ns < 1000000000 /\ 1000000000 * s + ns = 1000000000 * 1700000000 + 999999999 + 1000 * 2500001.
Proof. apply (timed_wait_deadline 1700000000 999999999 2500001); lia. Defined.
