(* ===== verification/BlockingQueue.v ===== *)
(** * The blocking queue (utils/concurrentqueue-1.0.3/blockingconcurrentqueue.h)

    A [BlockingConcurrentQueue] is a queue and a semaphore that counts its elements.
    Its functions are split at the atomic operations of the semaphore; a call of the
    queue inside is one step.  [st_queue] of the state [inner] is the queue inside, the
    rest of it the tokens callers have made for it. *)
From S2P Require Import Prelude QueueDetails QueueBlock Producer ImplicitProducer ExplicitProducer ProducerHash Queue QueueBulk QueueSpec QueueThreads QueueRuns Semaphore.

Definition MAX_SEMA_SPINS : Z := 10000.

Section Blocking.
Context {T : Type}.

Record BlockingConcurrentQueue := mkBlocking { inner : QState T; sema : LightweightSemaphore }.

(** The constructors, around the queue [q] that a constructor of [ConcurrentQueue] has
    made; [None] when the semaphore cannot be allocated and [std::bad_alloc] is thrown. *)
Definition BlockingConcurrentQueue_new (q : ConcurrentQueue T) : outcome (option (ConcurrentQueue T * LightweightSemaphore)) :=
  let '(ok, h) := malloc (cq_heap q) in
  if negb ok then Ret None else s ← LightweightSemaphore_new 0 MAX_SEMA_SPINS; Ret (Some (set_heap q h, s)).

(** ** Calls *)

(** A call, with the operation it makes on the queue inside: an enqueue of one element or
    many, with or without a producer token, that may or may not allocate; a dequeue of
    one element, with or without a consumer token; or a dequeue of many. *)
Inductive BCall :=
  | BEnqueue (op : QOp T) | BTryDequeue (op : QOp T) | BWaitDequeue (op : QOp T) | BWaitDequeueTimed (op : QOp T) (timeout_usecs : Z)
  | BTryDequeueBulk (consumer throws : option nat) (max : Z)
  | BWaitDequeueBulk (consumer throws : option nat) (max : Z)
  | BWaitDequeueBulkTimed (consumer throws : option nat) (max timeout_usecs : Z).

(** Before the operation on the queue inside, in [signal], in one of the waits of the
    semaphore, in the loop that takes an element, in the loop that takes [max] elements
    of which it has [items]. *)
Inductive BPc := PInner | PSignal (pc : CallPc) | PWait (pc : CallPc) | PTake | PTakeMany (items : list T) (max : Z) (throws : option nat).

(** The next state of a step; [None] when the thread blocks. *)
Definition BStep : Type := outcome (option (BlockingConcurrentQueue * (BPc + QAnswer T))).

Definition with_sema (b : BlockingConcurrentQueue) (s : LightweightSemaphore) : BlockingConcurrentQueue := mkBlocking (inner b) s.
Definition with_inner (b : BlockingConcurrentQueue) (q : QState T) : BlockingConcurrentQueue := mkBlocking q (sema b).

(** How many elements an enqueue signals. *)
Definition signal_count (op : QOp T) : Z :=
  match op with QEnqueueBulk _ _ _ items | QEnqueueBulkWith _ _ _ _ items => s64 (Z.of_nat (length items)) | _ => 1 end.

(** [enqueue], [try_enqueue], [enqueue_bulk] and [try_enqueue_bulk] *)
Definition bq_enqueue (op : QOp T) (b : BlockingConcurrentQueue) (pc : BPc) (ch : Choice) : BStep :=
  match pc with
  | PInner =>
      '(a, q) ← qop_step (inner b) op;
      match a with
      | QEnqueued Enqueued => pc ← enter (CSignal (signal_count op)); Ret (Some (with_inner b q, inl (PSignal pc)))
      | _ => Ret (Some (with_inner b q, inr a))
      end
  | PSignal pc =>
      match call_step (CSignal (signal_count op)) (sema b) pc ch with
      | None => Ret None
      | Some (s, inl pc) => Ret (Some (with_sema b s, inl (PSignal pc)))
      | Some (s, inr _) => Ret (Some (with_sema b s, inr (QEnqueued Enqueued)))
      end
  | _ => Fault BadPointer
  end.

(** [while (!inner.try_dequeue(item)) continue;] *)
Definition take_loop (op : QOp T) (b : BlockingConcurrentQueue) : BStep :=
  '(a, q) ← qop_step (inner b) op;
  Ret (Some (with_inner b q, match a with QDequeued Nothing => inl PTake | _ => inr a end)).

(** [while (count != max)], the elements taken so far being [items]. *)
Definition many_loop (items : list T) (max : Z) (throws : option nat) : BPc + QAnswer T :=
  if Z.of_nat (length items) =? max then inr (QDequeuedBulk items false) else inl (PTakeMany items max throws).

(** [count += inner.try_dequeue_bulk(itemFirst, max - count);] *)
Definition take_many (consumer throws : option nat) (items : list T) (max : Z) (b : BlockingConcurrentQueue) : BStep :=
  '(a, q) ← qop_step (inner b) (QDequeueBulk consumer throws (max -w Z.of_nat (length items)));
  match a with
  | QDequeuedBulk l false => Ret (Some (with_inner b q, many_loop (items ++ l) max (throws_after throws l)))
  | QDequeuedBulk l true => Ret (Some (with_inner b q, inr (QDequeuedBulk (items ++ l) true)))
  | _ => Fault BadPointer
  end.

(** A wait of the semaphore, and what follows its result. *)
Definition wait_step (c : Call) (next : Z -> outcome (BPc + QAnswer T)) (b : BlockingConcurrentQueue) (pc : CallPc) (ch : Choice) : BStep :=
  match call_step c (sema b) pc ch with
  | None => Ret None
  | Some (s, inl pc) => Ret (Some (with_sema b s, inl (PWait pc)))
  | Some (s, inr r) => n ← next r; Ret (Some (with_sema b s, n))
  end.

(** [try_dequeue] *)
Definition bq_try_dequeue (op : QOp T) (b : BlockingConcurrentQueue) (pc : BPc) (ch : Choice) : BStep :=
  match pc with
  | PWait pc => wait_step CTryWait (fun r => Ret (if r =? 0 then inr (QDequeued Nothing) else inl PTake)) b pc ch
  | PTake => take_loop op b
  | _ => Fault BadPointer
  end.

(** [wait_dequeue]: when [wait] fails it is called again. *)
Definition bq_wait_dequeue (op : QOp T) (b : BlockingConcurrentQueue) (pc : BPc) (ch : Choice) : BStep :=
  match pc with
  | PWait pc => wait_step (CWait (-1)) (fun r => Ret (if r =? 0 then inl (PWait (InTry TLoad)) else inl PTake)) b pc ch
  | PTake => take_loop op b
  | _ => Fault BadPointer
  end.

(** [wait_dequeue_timed] *)
Definition bq_wait_dequeue_timed (op : QOp T) (timeout_usecs : Z) (b : BlockingConcurrentQueue) (pc : BPc) (ch : Choice) : BStep :=
  match pc with
  | PWait pc => wait_step (CWait timeout_usecs) (fun r => Ret (if r =? 0 then inr (QDequeued Nothing) else inl PTake)) b pc ch
  | PTake => take_loop op b
  | _ => Fault BadPointer
  end.

(** [try_dequeue_bulk] *)
Definition bq_try_dequeue_bulk (consumer throws : option nat) (max : Z) (b : BlockingConcurrentQueue) (pc : BPc) (ch : Choice) : BStep :=
  match pc with
  | PWait pc => wait_step (CTryWaitMany (s64 max)) (fun r => Ret (many_loop [] (u64 r) throws)) b pc ch
  | PTakeMany items max throws => take_many consumer throws items max b
  | _ => Fault BadPointer
  end.

(** [wait_dequeue_bulk] *)
Definition bq_wait_dequeue_bulk (consumer throws : option nat) (max : Z) (b : BlockingConcurrentQueue) (pc : BPc) (ch : Choice) : BStep :=
  match pc with
  | PWait pc => wait_step (CWaitMany (s64 max) (-1)) (fun r => r ← waitMany_result r; Ret (many_loop [] (u64 r) throws)) b pc ch
  | PTakeMany items max throws => take_many consumer throws items max b
  | _ => Fault BadPointer
  end.

(** [wait_dequeue_bulk_timed] *)
Definition bq_wait_dequeue_bulk_timed (consumer throws : option nat) (max timeout_usecs : Z) (b : BlockingConcurrentQueue) (pc : BPc) (ch : Choice) : BStep :=
  match pc with
  | PWait pc => wait_step (CWaitMany (s64 max) timeout_usecs) (fun r => Ret (many_loop [] (u64 r) throws)) b pc ch
  | PTakeMany items max throws => take_many consumer throws items max b
  | _ => Fault BadPointer
  end.

(** The call of the semaphore inside a call. *)
Definition sema_call (c : BCall) : Call :=
  match c with
  | BEnqueue op => CSignal (signal_count op)
  | BTryDequeue _ => CTryWait
  | BWaitDequeue _ => CWait (-1)
  | BWaitDequeueTimed _ timeout => CWait timeout
  | BTryDequeueBulk _ _ max => CTryWaitMany (s64 max)
  | BWaitDequeueBulk _ _ max => CWaitMany (s64 max) (-1)
  | BWaitDequeueBulkTimed _ _ max timeout => CWaitMany (s64 max) timeout
  end.

(** Dequeues start with the semaphore. *)
Definition bq_enter (c : BCall) : outcome BPc :=
  match c with BEnqueue _ => Ret PInner | _ => pc ← enter (sema_call c); Ret (PWait pc) end.

Definition bq_step (c : BCall) (b : BlockingConcurrentQueue) (pc : BPc) (ch : Choice) : BStep :=
  match c with
  | BEnqueue op => bq_enqueue op b pc ch
  | BTryDequeue op => bq_try_dequeue op b pc ch
  | BWaitDequeue op => bq_wait_dequeue op b pc ch
  | BWaitDequeueTimed op timeout => bq_wait_dequeue_timed op timeout b pc ch
  | BTryDequeueBulk consumer throws max => bq_try_dequeue_bulk consumer throws max b pc ch
  | BWaitDequeueBulk consumer throws max => bq_wait_dequeue_bulk consumer throws max b pc ch
  | BWaitDequeueBulkTimed consumer throws max timeout => bq_wait_dequeue_bulk_timed consumer throws max timeout b pc ch
  end.

(** [size_approx] *)
Definition bq_size_approx (b : BlockingConcurrentQueue) : Z := availableApprox (sema b).
End Blocking.

Arguments BlockingConcurrentQueue : clear implicits.
Arguments BCall : clear implicits.
Arguments BPc : clear implicits.
