(* ===== verification/BlockingQueueSpec.v ===== *)
(** * What the blocking queue promises

    Any number of threads share a blocking queue.  The permits of the semaphore, the
    permits threads hold and the elements not yet signalled add up to the elements of
    the queue inside, so the loops that take elements never go round. *)
From S2P Require Import Prelude QueueDetails QueueBlock Producer ImplicitProducer ImplicitSpec BlockCells ExplicitProducer ProducerHash Queue QueueBulk QueueSpec QueueBulkSpec QueueThreads QueueRuns Semaphore SemaphoreSpec BlockingQueue.

(** ** The number of elements *)

Section Elements.
Context {T : Type}.
Implicit Types (s : gmap Owner (list T)) (op : QOp T) (a : QAnswer T).

Definition elements_of s : Z := Z.of_nat (length (concat (map_to_list s).*2)).

Lemma elements_split s o : elements_of s = Z.of_nat (length (fifo_of s o)) + elements_of (delete o s).
Proof.
  unfold elements_of, fifo_of. rewrite <- Nat2Z.inj_add, <- length_app. f_equal. destruct (s !! o) as [l|] eqn:E; cbn [default].
  - apply Permutation_length. rewrite <- (map_to_list_delete s o l E). done.
  - by rewrite delete_id.
Qed.

Lemma elements_insert s o l : elements_of (<[o := l]> s) = elements_of s - Z.of_nat (length (fifo_of s o)) + Z.of_nat (length l).
Proof. rewrite (elements_split (<[o := l]> s) o), (elements_split s o). unfold fifo_of. rewrite lookup_insert_eq, delete_insert_eq. cbn. lia. Qed.

Lemma elements_nonneg s : 0 <= elements_of s.
Proof. unfold elements_of. lia. Qed.

Lemma elements_empty s : (forall o l, s !! o = Some l -> l = []) -> elements_of s = 0.
Proof.
  intros H. unfold elements_of. assert (Forall (fun l => l = []) (map_to_list s).*2) as Hf.
  { apply Forall_forall. intros l Hl. apply list_elem_of_fmap in Hl as ((o & l') & -> & Hl%elem_of_map_to_list). by eapply H. }
  induction Hf as [|? ? -> _ IH]; [done|exact IH].
Qed.

Definition is_enqueue op : Prop :=
  match op with QEnqueue _ _ _ _ _ | QEnqueueWith _ _ _ _ _ | QEnqueueBulk _ _ _ _ | QEnqueueBulkWith _ _ _ _ _ => True | _ => False end.
Definition is_token_op op : Prop :=
  match op with QNewToken | QDestroyToken _ | QMoveToken _ | QSwapTokens _ _ | QMoveConsumer _ _ | QSwapConsumers _ _ => True | _ => False end.
Definition is_dequeue op : Prop := match op with QDequeue (Scored | WithToken _) _ => True | _ => False end.

(** The elements an answer says were added. *)
Definition added op a : Z := match a with QEnqueued Enqueued => Z.of_nat (qop_size op) | _ => 0 end.

Lemma enqueues_elements s o items r s' :
  enqueues s o items r s' -> elements_of s' = elements_of s + match r with Enqueued => Z.of_nat (length items) | _ => 0 end.
Proof.
  destruct r; cbn; [intros (vs & -> & ->)|intros [[-> _]| ->]|intros [_ ->]]; rewrite ?elements_insert, ?length_app, ?length_fmap; lia.
Qed.

Lemma enqueue_elements s slots op a s' slots' :
  qstep (s, slots) op a (s', slots') -> is_enqueue op -> elements_of s' = elements_of s + added op a.
Proof.
  intros H Hop. inversion H; subst; try done; try (cbn; lia);
    match goal with E : enqueues _ _ _ ?r _ |- _ => rewrite (enqueues_elements _ _ _ _ _ E); by destruct r end.
Qed.

(** A dequeue takes one element, or there is none. *)
Lemma dequeue_elements s slots op a s' slots' :
  qstep (s, slots) op a (s', slots') -> is_dequeue op ->
  exists r, a = QDequeued r /\ (r = Nothing -> elements_of s = 0 /\ s' = s) /\ (r <> Nothing -> elements_of s' = elements_of s - 1).
Proof.
  intros H Hop. destruct op as [|way throws| | | | | | | | | | | | |]; try done.
  inversion H as [|? ? ? ? r ? Hd| | | | | | | | | | | | | | |? ? ? ? [Hin _]]; subst; [|by apply elem_of_nil in Hin]. exists r. split; [done|].
  inversion Hd as [o v l _ Ho|o v l _ Ho|? Hall]; subst.
  - split; [done|]. intros _. rewrite elements_insert. unfold fifo_of. rewrite Ho. cbn [length default from_option id]. lia.
  - split; [done|]. intros _. rewrite elements_insert. unfold fifo_of. rewrite Ho. cbn [length default from_option id]. lia.
  - split; [intros _; split; [|done]|by intros []]. apply elements_empty. intros o l. by apply Hall.
Qed.

Lemma takes_elements P s vs s' : takes P s vs s' -> elements_of s' = elements_of s - Z.of_nat (length vs).
Proof.
  induction 1 as [|s o v l vs s' _ Ho _ IH]; [cbn; lia|]. rewrite IH, elements_insert. unfold fifo_of. rewrite Ho.
  cbn [length default from_option id]. lia.
Qed.

(** A bulk dequeue whose assignments do not throw takes as many as it was asked for when
    there are as many. *)
Lemma bulk_elements s slots consumer max a s' slots' :
  qstep (s, slots) (QDequeueBulk consumer None max) a (s', slots') -> max <= elements_of s ->
  exists l, a = QDequeuedBulk l false /\ Z.of_nat (length l) = max /\ elements_of s' = elements_of s - max.
Proof.
  intros H Hle. inversion H as [| | | | | | | | |? ? ? ? ? l threw ? Hd| | | | | | |? ? ? ? [Hin _]]; subst; [|by apply elem_of_nil in Hin].
  destruct Hd as (vs & Ht & -> & -> & Hn & Hall). exists vs. pose proof (takes_elements _ _ _ _ Ht) as He.
  assert (threw_in None vs = false) as Et by (apply bool_decide_false; cbn; lia). rewrite Et in *. rewrite (written_all _ _ Et). split; [done|].
  destruct (Z.eq_dec (Z.of_nat (length vs)) max) as [E|E]; [split; [done|lia]|].
  rewrite (elements_empty s') in He; [lia|]. intros o l. apply Hall; [done|lia|done].
Qed.

Lemma token_elements s slots op a s' slots' :
  qstep (s, slots) op a (s', slots') -> is_token_op op -> elements_of s' = elements_of s.
Proof. intros H Hop. inversion H; subst; try done. rewrite elements_insert. lia. Qed.

Lemma qrun_snoc (c : gmap Owner (list T) * list TokenSlot) ops answers c1 op a c2 :
  qrun c ops answers c1 -> qstep c1 op a c2 -> qrun c (ops ++ [op]) (answers ++ [a]) c2.
Proof. induction 1; intros; cbn; econstructor; eauto using qrun. Qed.

(** No sub-queue is longer than all of them together. *)
Lemma run_inv_tight n b c st qs bss (O : gmap Owner nat) :
  run_inv n b c st qs bss O -> run_inv n b (Z.to_nat (elements_of (view O qs))) st qs bss O.
Proof.
  intros [Q Hn Ht Ha Hx Hp Hl]. constructor; try done. intros o l Ho. pose proof (elements_split (view O qs) o) as E.
  unfold fifo_of in E. rewrite Ho in E. cbn in E. pose proof (elements_nonneg (delete o (view O qs))). lia.
Qed.

(** An operation that found what it was sure to find: an element, or as many as it
    asked for. *)
Definition found (e : QOp T * QAnswer T) : Prop :=
  match e with
  | (_, QDequeued Nothing) => False
  | (QDequeueBulk _ _ max, QDequeuedBulk l _) => Z.of_nat (length l) = max
  | _ => True
  end.

Lemma enqueue_found s slots op a s' slots' : qstep (s, slots) op a (s', slots') -> is_enqueue op -> found (op, a).
Proof. intros H Hop. destruct op; try done; inversion H; subst; exact Logic.I. Qed.

Lemma token_found s slots op a s' slots' :
  qstep (s, slots) op a (s', slots') -> is_token_op op -> found (op, a).
Proof. intros H Hop. destruct op; try done; inversion H; subst; exact Logic.I. Qed.
End Elements.

(** ** Worlds *)

Section Spec.
Context {T : Type}.
Implicit Types (s : gmap Owner (list T)) (op : QOp T) (a : QAnswer T) (b : BlockingConcurrentQueue T).

Inductive BThread := BIdle | BBusy (c : BCall T) (pc : BPc T).

(** The queue, the threads, and the operations made on the queue inside, with their
    answers. *)
Record BWorld := mkBWorld { bw_queue : BlockingConcurrentQueue T; bw_threads : list BThread; bw_ops : list (QOp T * QAnswer T) }.

(** A thread makes a call, a thread takes a step, a token is made or destroyed. *)
Inductive BEvent := BEnter (i : nat) (c : BCall T) | BAdvance (i : nat) (ch : Choice) | BToken (op : QOp T).

(** The operation a step makes on the queue inside. *)
Definition inner_op (c : BCall T) (pc : BPc T) : option (QOp T) :=
  match c, pc with
  | BEnqueue op, PInner | BTryDequeue op, PTake | BWaitDequeue op, PTake | BWaitDequeueTimed op _, PTake => Some op
  | BTryDequeueBulk consumer _ _, PTakeMany items max throws | BWaitDequeueBulk consumer _ _, PTakeMany items max throws
  | BWaitDequeueBulkTimed consumer _ _ _, PTakeMany items max throws => Some (QDequeueBulk consumer throws (max -w Z.of_nat (length items)))
  | _, _ => None
  end.

Definition log_of (q : QState T) (o : option (QOp T)) : list (QOp T * QAnswer T) :=
  match o with
  | None => []
  | Some op => match qop_step q op with Ret (a, _) => [(op, a)] | Fault _ => [] end
  end.

Definition bworld_step (w : BWorld) (ev : BEvent) : outcome BWorld :=
  let b := bw_queue w in
  match ev with
  | BEnter i c =>
      match bw_threads w !! i with
      | Some BIdle => pc ← bq_enter c; Ret (mkBWorld b (<[i := BBusy c pc]> (bw_threads w)) (bw_ops w))
      | _ => Ret w
      end
  | BAdvance i ch =>
      match bw_threads w !! i with
      | Some (BBusy c pc) =>
          r ← bq_step c b pc ch;
          Ret (match r with
               | None => w
               | Some (b', inl pc') => mkBWorld b' (<[i := BBusy c pc']> (bw_threads w)) (bw_ops w ++ log_of (inner b) (inner_op c pc))
               | Some (b', inr _) => mkBWorld b' (<[i := BIdle]> (bw_threads w)) (bw_ops w ++ log_of (inner b) (inner_op c pc))
               end)
      | _ => Ret w
      end
  | BToken op => '(a, q) ← qop_step (inner b) op; Ret (mkBWorld (with_inner b q) (bw_threads w) (bw_ops w ++ [(op, a)]))
  end.

Fixpoint bworld_run (w : BWorld) (evs : list BEvent) : outcome BWorld :=
  match evs with [] => Ret w | ev :: evs => w ← bworld_step w ev; bworld_run w evs end.

Definition enqueues_call (c : BCall T) : bool := match c with BEnqueue _ => true | _ => false end.

(** Calls that take one element, and calls that take many. *)
Definition takes_one (c : BCall T) : bool := match c with BTryDequeue _ | BWaitDequeue _ | BWaitDequeueTimed _ _ => true | _ => false end.
Definition takes_many (c : BCall T) : bool :=
  match c with BTryDequeueBulk _ _ _ | BWaitDequeueBulk _ _ _ | BWaitDequeueBulkTimed _ _ _ _ => true | _ => false end.

(** [mem]: memory can be had; [may_fail]: the threads whose system calls may fail. *)
Variable (mem : Prop) (may_fail : nat -> bool) (n : nat).

(** What callers respect: consumer tokens exist; assignments of a bulk dequeue do not
    throw; numbers of elements fit [ssize_t]. *)
Definition bcall_ok (c : BCall T) : Prop :=
  match c with
  | BEnqueue op => qop_ok mem n op /\ is_enqueue op /\ Z.of_nat (qop_size op) < 9223372036854775808
  | BTryDequeue op | BWaitDequeue op | BWaitDequeueTimed op _ => qop_ok mem n op /\ is_dequeue op
  | BTryDequeueBulk consumer throws max | BWaitDequeueBulk consumer throws max | BWaitDequeueBulkTimed consumer throws max _ =>
      (forall k, consumer = Some k -> (k < n)%nat) /\ throws = None /\ 0 <= max < 9223372036854775808
  end.

(** [wait_dequeue_bulk] without a timeout asks for something, and [sem_wait] does not
    fail in it. *)
Definition forever_ok (i : nat) (c : BCall T) : Prop :=
  match c with BWaitDequeueBulk _ _ max => 0 < max /\ may_fail i = false | _ => True end.

Definition bevent_ok (ev : BEvent) : Prop :=
  match ev with
  | BEnter i c => bcall_ok c /\ forever_ok i c
  | BAdvance i ch => answer ch = SysErr -> may_fail i = true
  | BToken op => is_token_op op /\ qop_ok mem n op
  end.

(** How many elements an event may bring. *)
Definition event_size (ev : BEvent) : Z := match ev with BEnter _ (BEnqueue op) => Z.of_nat (qop_size op) | _ => 0 end.

(** ** The account of the threads *)

Definition bweights (th : BThread) : Weights :=
  match th with BBusy c (PSignal pc | PWait pc) => weights pc (sema_call c) | _ => no_weights end.

(** Elements of the queue a thread accounts for: those it will signal, those it may
    take, the one it sleeps for. *)
Definition stake (th : BThread) : Z :=
  match th with
  | BBusy _ PTake => 1
  | BBusy _ (PTakeMany items max _) => max - Z.of_nat (length items)
  | BBusy c (PSignal _) => asked_by (sema_call c) - given (bweights th)
  | BBusy _ (PWait _) => sleeping (bweights th) + taken (bweights th)
  | _ => 0
  end.

(** Elements a thread is about to enqueue. *)
Definition pending (th : BThread) : Z := match th with BBusy c PInner => match c with BEnqueue op => Z.of_nat (qop_size op) | _ => 0 end | _ => 0 end.

Definition bpc_ok (c : BCall T) (pc : BPc T) : Prop :=
  match pc with
  | PInner => enqueues_call c = true
  | PSignal pc => enqueues_call c = true /\ pc_ok (sema_call c) pc
  | PWait pc => enqueues_call c = false /\ pc_ok (sema_call c) pc /\ match c with BWaitDequeueBulk _ _ _ => not_back pc | _ => True end
  | PTake => takes_one c = true
  | PTakeMany items max throws => takes_many c = true /\ items = [] /\ throws = None /\ 0 < max < 9223372036854775808
  end.

Definition thread_ok (i : nat) (c : BCall T) (pc : BPc T) : Prop := bcall_ok c /\ forever_ok i c /\ bpc_ok c pc.

Definition bsema (w : BWorld) : LightweightSemaphore := sema (bw_queue w).
Definition bsum (f : BThread -> Z) (w : BWorld) : Z := total f (bw_threads w).
Definition sleepers : BWorld -> Z := bsum (fun th => sleeping (bweights th)).

(** [bound] operations have been made, and [room] elements enqueued or announced. *)
Record binv (bound : nat) (room : Z) (w : BWorld) s : Prop := mk_binv {
  bi_inner : exists qs bss O, run_inv n bound (Z.to_nat (elements_of s)) (inner (bw_queue w)) qs bss O /\ s = view O qs;
  bi_healthy : mem -> healthy (st_queue (inner (bw_queue w)));
  bi_threads : forall i c pc, bw_threads w !! i = Some (BBusy c pc) -> thread_ok i c pc;
  bi_count : m_count (bsema w) + bsum stake w = elements_of s;
  bi_sema : m_sema (bsema w) + bsum (fun th => unposted (bweights th)) w + debt (bsema w) = sleepers w;
  bi_pos : 0 <= m_sema (bsema w);
  bi_bound : elements_of s + bsum pending w <= room;
  bi_ops : qrun (∅, []) (bw_ops w).*1 (bw_ops w).*2 (s, st_slots (inner (bw_queue w)));
  bi_found : Forall found (bw_ops w) }.

(** What is asked of the size of the world. *)
Definition in_bounds (bound : nat) (room : Z) (w : BWorld) : Prop :=
  Z.of_nat (length (bw_threads w)) < 2147483648 /\ Z.of_nat bound + 1 < UINT_MOD /\ room + 32 < 9223372036854775808.

Lemma signal_count_size op : is_enqueue op -> Z.of_nat (qop_size op) < 9223372036854775808 -> signal_count op = Z.of_nat (qop_size op).
Proof. destruct op; try done; cbn; intros _ H; apply s64_small; lia. Qed.

(** ** Every step keeps the account *)

(** The shares of a thread in the account. *)
Lemma thread_shares i c pc : thread_ok i c pc ->
  let th := BBusy c pc in 0 <= unposted (bweights th) /\ 0 <= sleeping (bweights th) <= stake th /\ sleeping (bweights th) <= 1 /\ 0 <= pending th.
Proof.
  intros (_ & _ & Hpc). destruct pc as [|pc|pc| |items max throws]; cbn zeta.
  - destruct c; cbn; lia.
  - destruct Hpc as [Hk Hpc]. destruct c; try done. destruct pc as [?|[]| |m]; cbn in *; lia || tauto.
  - destruct Hpc as (_ & Hpc & _). destruct pc as [?|[]| |m], c; cbn in *; lia || tauto.
  - destruct c; cbn; lia.
  - destruct Hpc as (_ & -> & _ & Hm). destruct c; cbn; lia.
Qed.

Lemma bthreads_forall bound room w s (P : BThread -> Prop) :
  binv bound room w s -> P BIdle -> (forall i c pc, thread_ok i c pc -> P (BBusy c pc)) -> Forall P (bw_threads w).
Proof. intros I H0 H. apply Forall_lookup. intros i [|c pc] Hi; [done|]. eapply H. by eapply bi_threads. Qed.

Lemma shares_nonneg bound room w s : binv bound room w s ->
  0 <= bsum (fun th => unposted (bweights th)) w /\ 0 <= sleepers w <= bsum stake w /\ sleepers w <= Z.of_nat (length (bw_threads w)) /\ 0 <= bsum pending w.
Proof.
  intros I. repeat split.
  - apply total_nonneg, (bthreads_forall _ _ _ _ _ I); [done|]. intros i c pc H. by destruct (thread_shares i c pc H).
  - apply total_nonneg, (bthreads_forall _ _ _ _ _ I); [done|]. intros i c pc H. destruct (thread_shares i c pc H); lia.
  - apply total_le, (bthreads_forall _ _ _ _ _ I); [done|]. intros i c pc H. destruct (thread_shares i c pc H); lia.
  - pose proof (total_bounds (fun th => sleeping (bweights th)) 0 1 (bw_threads w)) as H. unfold sleepers, bsum. rewrite Z.mul_1_l in H. apply H.
    apply (bthreads_forall _ _ _ _ _ I); [cbn; lia|]. intros i c pc Ht. destruct (thread_shares i c pc Ht); lia.
  - apply total_nonneg, (bthreads_forall _ _ _ _ _ I); [done|]. intros i c pc H. destruct (thread_shares i c pc H); lia.
Qed.

Lemma stake_at bound room w s i c pc : binv bound room w s -> bw_threads w !! i = Some (BBusy c pc) -> stake (BBusy c pc) <= bsum stake w.
Proof.
  intros I Hi. apply (total_elem _ _ i); [|done]. apply (bthreads_forall _ _ _ _ _ I); [done|]. intros j c' pc' H. destruct (thread_shares j c' pc' H); lia.
Qed.

Lemma binv_range bound room w s i c pc0 :
  binv bound room w s -> in_bounds bound room w -> bw_threads w !! i = Some (BBusy c (PSignal pc0)) \/ bw_threads w !! i = Some (BBusy c (PWait pc0)) ->
  in_range (sema_call c) pc0 (bsema w).
Proof.
  intros I (Hlen & Hb & Hroom) Hi. destruct (shares_nonneg _ _ _ _ I) as (Hu & [Hs Hst] & Hk & Hp).
  assert (match sema_call c, pc0 with CSignal count, InSignal => count <= bsum stake w | _, _ => True end) as Hsig.
  { destruct (sema_call c) eqn:Ec, pc0; try done. destruct Hi as [Hi|Hi].
    - pose proof (stake_at _ _ _ _ _ _ _ I Hi) as H. cbn in H. rewrite Ec in H. cbn in H. lia.
    - destruct (bi_threads _ _ _ _ I i _ _ Hi) as (_ & _ & Hk' & Hpc & _). rewrite Ec in Hpc. destruct c; done. }
  destruct I as [_ _ _ Hcount Hsema Hpos Hbound _ _]. unfold debt in *. split; [lia|]. split; [done|].
  destruct (sema_call c), pc0; try done. lia.
Qed.

(** Replacing thread [i]. *)
Lemma bsum_put f w i th th' b ops :
  bw_threads w !! i = Some th -> bsum f (mkBWorld b (<[i := th']> (bw_threads w)) ops) = bsum f w - f th + f th'.
Proof. intros Hi. unfold bsum. cbn. by apply total_insert. Qed.

Lemma threads_ok_insert bound room w s i th' :
  binv bound room w s -> (forall c pc, th' = BBusy c pc -> thread_ok i c pc) ->
  forall j c pc, <[i := th']> (bw_threads w) !! j = Some (BBusy c pc) -> thread_ok j c pc.
Proof. intros I Hth j c pc Hj. apply list_lookup_insert_Some in Hj as [(<- & E & _)|(_ & Hj)]; [by apply Hth|by eapply bi_threads]. Qed.

(** What a call of the semaphore gives and takes in each kind of call. *)
Lemma sema_shares i c pc0 pc r :
  thread_ok i c pc -> pc = PSignal pc0 \/ pc = PWait pc0 -> result_ok (sema_call c) r ->
  bweights (BBusy c pc) = weights pc0 (sema_call c) /\ pending (BBusy c pc) = 0 /\
  stake (BBusy c pc) = (if enqueues_call c then asked_by (sema_call c) else 0) + taken (weights pc0 (sema_call c)) + sleeping (weights pc0 (sema_call c)) - given (weights pc0 (sema_call c)) /\
  (if enqueues_call c then taken (weights_of (sema_call c) r) = 0 /\ sleeping (weights_of (sema_call c) r) = 0 else given (weights_of (sema_call c) r) = 0).
Proof.
  intros (_ & _ & Hpc) [-> | ->] Hr; [destruct Hpc as [Hk Hpc]|destruct Hpc as (Hk & Hpc & _)]; destruct c; try done; cbn in Hpc, Hr |- *;
    (split; [done|]; split; [done|]); destruct pc0 as [?|[]| |m]; try (exfalso; cbn in *; tauto); cbn; (split; [lia|]);
    destruct r as [[?|[]| |]|]; cbn in *; try tauto; lia.
Qed.

(** A step of the semaphore inside the call of thread [i]. *)
Lemma binv_sema bound room w s i c pc pc0 sm r th' :
  binv bound room w s -> bw_threads w !! i = Some (BBusy c pc) -> pc = PSignal pc0 \/ pc = PWait pc0 ->
  step_conserves (sema_call c) (bsema w) pc0 sm r -> (forall c' pc', th' = BBusy c' pc' -> thread_ok i c' pc') ->
  bweights th' = match r with inl _ => weights_of (sema_call c) r | inr _ => no_weights end -> pending th' = 0 ->
  stake th' = (if enqueues_call c then asked_by (sema_call c) else 0) + taken (weights_of (sema_call c) r) + sleeping (weights_of (sema_call c) r) - given (weights_of (sema_call c) r) ->
  binv bound room (mkBWorld (with_sema (bw_queue w) sm) (<[i := th']> (bw_threads w)) (bw_ops w)) s.
Proof.
  intros I Hi Epc (Hr & [Cc Cs Cp] & _) Hth Wth Pth Sth. pose proof I as [Hin Hhe Ht Hc Hs Hpos Hb Hops Hf].
  destruct (sema_shares i c pc0 pc r (Ht i c pc Hi) Epc Hr) as (Wpc & Ppc & Spc & Hz).
  assert (unposted (bweights th') = unposted (weights_of (sema_call c) r) /\ sleeping (bweights th') = sleeping (weights_of (sema_call c) r)) as [Wu Ws].
  { rewrite Wth. destruct r; [done|]. by destruct c. }
  constructor; cbn [bw_queue bw_threads bw_ops with_sema inner]; try done.
  - by eapply threads_ok_insert.
  - rewrite (bsum_put _ _ _ _ _ _ _ Hi), Sth, Spc. cbn. unfold bsema in *. lia.
  - unfold sleepers in *. rewrite !(bsum_put _ _ _ _ _ _ _ Hi), Wu, Ws, Wpc. cbn. unfold bsema in *. lia.
  - rewrite (bsum_put _ _ _ _ _ _ _ Hi), Pth, Ppc. lia.
Qed.

Lemma binv_S bound room w s d : 0 <= d -> binv bound room w s -> binv (S bound) (room + d) w s.
Proof.
  intros Hd [(qs & bss & O & R & ->) Hhe Ht Hc Hs Hpos Hb Hops Hf]. constructor; try done; [|lia].
  exists qs, bss, O. split; [|done]. rewrite <- (Nat.add_0_r (Z.to_nat _)). by apply run_inv_S.
Qed.

(** An operation on the queue inside. *)
Lemma inner_step bound room w s op :
  binv bound room w s -> qop_ok mem n op -> Z.of_nat bound + 1 < UINT_MOD -> elements_of s + Z.of_nat (qop_size op) + 32 < 9223372036854775808 ->
  exists a q' s', qop_step (inner (bw_queue w)) op = Ret (a, q') /\ qstep (s, st_slots (inner (bw_queue w))) op a (s', st_slots q') /\
    (mem -> healthy (st_queue q')) /\ exists qs bss O, run_inv n (S bound) (Z.to_nat (elements_of s')) q' qs bss O /\ s' = view O qs.
Proof.
  intros I Hop Hb Hfit. destruct (bi_inner _ _ _ _ I) as (qs & bss & O & R & ->). pose proof (elements_nonneg (view O qs)).
  destruct (qop_step_spec n bound _ op _ qs bss O R) as (a & st' & qs' & bss' & O' & E & S & R' & Hh).
  { eapply qop_ok_mono; [|exact Hop]. apply I. } { split; lia. }
  exists a, st', (view O' qs'). split; [done|]. split; [done|]. split; [intros Hm; by apply Hh, I|].
  exists qs', bss', O'. split; [by eapply run_inv_tight|done].
Qed.

(** What is left to show after an operation on the queue inside. *)
Lemma binv_inner bound room w s op a q' s' (threads : list BThread) :
  binv bound room w s -> qstep (s, st_slots (inner (bw_queue w))) op a (s', st_slots q') -> (mem -> healthy (st_queue q')) ->
  (exists qs bss O, run_inv n (S bound) (Z.to_nat (elements_of s')) q' qs bss O /\ s' = view O qs) ->
  (forall j c pc, threads !! j = Some (BBusy c pc) -> thread_ok j c pc) ->
  total stake threads = bsum stake w + elements_of s' - elements_of s ->
  total (fun th => unposted (bweights th)) threads = bsum (fun th => unposted (bweights th)) w ->
  total (fun th => sleeping (bweights th)) threads = sleepers w ->
  elements_of s' + total pending threads <= elements_of s + bsum pending w -> found (op, a) ->
  binv (S bound) room (mkBWorld (with_inner (bw_queue w) q') threads (bw_ops w ++ [(op, a)])) s'.
Proof.
  intros [Hin Hhe Ht Hc Hs Hpos Hb Hops Hf] Hq Hh R Hth Hst Hun Hsl Hel Ha.
  constructor; cbn [bw_queue bw_threads bw_ops with_inner inner]; try done.
  - unfold bsum, bsema in *. cbn. lia.
  - unfold sleepers, bsum, bsema in *. cbn. lia.
  - unfold bsum in *. cbn. lia.
  - rewrite !fmap_app. by eapply qrun_snoc.
  - apply Forall_app. split; [done|]. by constructor.
Qed.

(** ** The permits threads hold *)

Definition holding (th : BThread) : Z :=
  match th with
  | BBusy _ PTake => 1
  | BBusy _ (PTakeMany items max _) => max - Z.of_nat (length items)
  | BBusy c (PWait pc) => taken (weights pc (sema_call c))
  | _ => 0
  end.

Lemma holding_shares i c pc : thread_ok i c pc -> 0 <= holding (BBusy c pc) <= stake (BBusy c pc) - sleeping (bweights (BBusy c pc)).
Proof.
  intros H. pose proof (thread_shares i c pc H). destruct pc; cbn in *; lia.
Qed.

(** They are at most the elements. *)
Lemma holding_le bound room w s : binv bound room w s -> bsum holding w <= elements_of s.
Proof.
  intros I. destruct (shares_nonneg _ _ _ _ I) as (Hu & _).
  assert (bsum holding w <= bsum stake w - sleepers w) as Hst.
  { unfold sleepers, bsum. rewrite <- total_sub. apply total_le, (bthreads_forall _ _ _ _ _ I); [done|]. intros i c pc H. apply holding_shares in H. lia. }
  destruct I as [_ _ _ Hc Hs Hpos _ _ _]. unfold debt in *. lia.
Qed.

Lemma taker_finds bound room w s i c pc : binv bound room w s -> bw_threads w !! i = Some (BBusy c pc) -> holding (BBusy c pc) <= elements_of s.
Proof.
  intros I Hi. pose proof (holding_le _ _ _ _ I). assert (Forall (fun th => 0 <= holding th) (bw_threads w)) as Hf.
  { apply (bthreads_forall _ _ _ _ _ I); [done|]. intros j c' pc' H0. apply holding_shares in H0. lia. }
  pose proof (total_elem holding (bw_threads w) i _ Hf Hi) as Hel. unfold bsum in *. lia.
Qed.

(** ** Every step *)

(** What a step of thread [i] must show. *)
Definition advances (bound : nat) (room : Z) (w : BWorld) (ev : BEvent) : Prop :=
  exists w' s', bworld_step w ev = Ret w' /\ binv (S bound) room w' s' /\ length (bw_threads w') = length (bw_threads w).

Lemma step_inner_enqueue bound room w s i op ch :
  binv bound room w s -> bw_threads w !! i = Some (BBusy (BEnqueue op) PInner) -> in_bounds bound room w -> advances bound room w (BAdvance i ch).
Proof.
  intros I Hi (Hlen & Hb & Hroom). destruct (bi_threads _ _ _ _ I i _ _ Hi) as ((Hop & Henq & Hsz) & _). pose proof (signal_count_size op Henq Hsz) as Esig.
  assert (Z.of_nat (qop_size op) <= bsum pending w) as Hpen.
  { apply (total_elem pending _ i _) in Hi; [exact Hi|]. apply (bthreads_forall _ _ _ _ _ I); [done|]. intros j c pc H. destruct (thread_shares j c pc H); lia. }
  destruct (inner_step bound room w s op I Hop Hb) as (a & q' & s' & E & Hq & Hh & R); [pose proof (bi_bound _ _ _ _ I); lia|].
  pose proof (enqueue_elements _ _ _ _ _ _ Hq Henq) as Hel. pose proof (enqueue_found _ _ _ _ _ _ Hq Henq) as Hfound.
  unfold advances. cbn [bworld_step]. rewrite Hi. cbn [bq_step bq_enqueue inner_op log_of]. rewrite E, ret_bind.
  assert (a = QEnqueued Enqueued \/ a <> QEnqueued Enqueued) as [->|Hne] by (destruct a as [[]| | | | | |]; auto).
  - cbn [enter]. rewrite Esig. replace (0 <=? Z.of_nat (qop_size op)) with true by (zbool; lia). rewrite !ret_bind. cbn [added] in Hel.
    eexists _, s'. split; [done|]. split; [|cbn; apply length_insert].
    eapply binv_inner; try done; unfold sleepers, bsum; rewrite ?(total_insert _ _ _ _ _ Hi); cbn; rewrite ?Esig; try lia.
    apply (threads_ok_insert bound room w s); [done|]. intros c pc [= <- <-]. split; [done|]. split; [done|]. split; [done|]. cbn. lia.
  - eexists (mkBWorld (with_inner (bw_queue w) q') (<[i := BIdle]> (bw_threads w)) (bw_ops w ++ [(op, a)])), s'.
    split; [destruct a as [[]| | | | | |]; done|]. split; [|cbn; apply length_insert].
    assert (added op a = 0) as Ha0 by (by destruct a as [[]| | | | | |]).
    eapply binv_inner; try done; unfold sleepers, bsum; rewrite ?(total_insert _ _ _ _ _ Hi); cbn; try lia.
    by apply (threads_ok_insert bound room w s).
Qed.

(** After a dequeue from the queue inside the call is over. *)
Lemma binv_taken bound room w s i c pc op a q' s' k :
  binv bound room w s -> bw_threads w !! i = Some (BBusy c pc) -> stake (BBusy c pc) = k -> bweights (BBusy c pc) = no_weights -> pending (BBusy c pc) = 0 ->
  qstep (s, st_slots (inner (bw_queue w))) op a (s', st_slots q') -> (mem -> healthy (st_queue q')) ->
  (exists qs bss O, run_inv n (S bound) (Z.to_nat (elements_of s')) q' qs bss O /\ s' = view O qs) ->
  elements_of s' = elements_of s - k -> 0 <= k -> found (op, a) ->
  binv (S bound) room (mkBWorld (with_inner (bw_queue w) q') (<[i := BIdle]> (bw_threads w)) (bw_ops w ++ [(op, a)])) s'.
Proof.
  intros I Hi Sk Wk Pk Hq Hh R Hel Hk Hf. eapply binv_inner; try done; unfold sleepers, bsum; rewrite ?(total_insert _ _ _ _ _ Hi), ?Sk, ?Wk, ?Pk; cbn; try lia.
  by apply (threads_ok_insert bound room w s).
Qed.

Lemma step_take bound room w s i c ch :
  binv bound room w s -> bw_threads w !! i = Some (BBusy c PTake) -> in_bounds bound room w -> advances bound room w (BAdvance i ch).
Proof.
  intros I Hi (Hlen & Hb & Hroom). destruct (bi_threads _ _ _ _ I i _ _ Hi) as (Hcall & _ & Hpc). cbn in Hpc.
  destruct (shares_nonneg _ _ _ _ I) as (_ & _ & _ & Hpen). pose proof (bi_bound _ _ _ _ I) as Hbd.
  assert (exists op, inner_op c PTake = Some op /\ qop_ok mem n op /\ is_dequeue op /\ bq_step c (bw_queue w) PTake ch = take_loop op (bw_queue w)) as (op & Eo & Hop & Hkind & Es).
  { destruct c as [|op|op|op t| | |]; try done; exists op; destruct Hcall; done. }
  assert (qop_size op = 0%nat) as E0 by (by destruct op).
  destruct (inner_step bound room w s op I Hop Hb) as (a & q' & s' & E & Hq & Hh & R); [rewrite E0; lia|].
  destruct (dequeue_elements _ _ _ _ _ _ Hq Hkind) as (r & -> & Hno & Hyes). pose proof (taker_finds _ _ _ _ _ _ _ I Hi) as Hhold. cbn in Hhold.
  assert (r <> Nothing) as Hr by (intros ->; destruct (Hno eq_refl); lia). specialize (Hyes Hr).
  unfold advances. cbn [bworld_step]. rewrite Hi, Es, Eo. unfold take_loop. rewrite E, !ret_bind. cbn [log_of]. rewrite E.
  eexists (mkBWorld (with_inner (bw_queue w) q') (<[i := BIdle]> (bw_threads w)) (bw_ops w ++ [(op, QDequeued r)])), s'.
  split; [by destruct r|]. split; [|cbn; apply length_insert]. eapply (binv_taken _ _ _ _ _ _ _ _ _ _ _ 1); try done. destruct op; try done. by destruct r.
Qed.

Lemma step_take_many bound room w s i c items max throws ch :
  binv bound room w s -> bw_threads w !! i = Some (BBusy c (PTakeMany items max throws)) -> in_bounds bound room w -> advances bound room w (BAdvance i ch).
Proof.
  intros I Hi (Hlen & Hb & Hroom). destruct (bi_threads _ _ _ _ I i _ _ Hi) as (Hcall & _ & Hk & -> & -> & Hmax).
  destruct (shares_nonneg _ _ _ _ I) as (_ & _ & _ & Hpen). pose proof (bi_bound _ _ _ _ I) as Hbd.
  assert (max -w Z.of_nat (length (@nil T)) = max) as Emax by (cbn; rewrite u64_small by (unfold is_u64, UINT64_MOD; lia); lia).
  assert (exists consumer, inner_op c (PTakeMany [] max None) = Some (QDequeueBulk consumer None max) /\ (forall k, consumer = Some k -> (k < n)%nat) /\
    bq_step c (bw_queue w) (PTakeMany [] max None) ch = take_many consumer None [] max (bw_queue w)) as (consumer & Eo & Hcons & Es).
  { destruct c as [| | | |consumer t m|consumer t m|consumer t m u]; try done; exists consumer; cbn [inner_op]; rewrite Emax; by destruct Hcall. }
  destruct (inner_step bound room w s (QDequeueBulk consumer None max) I) as (a & q' & s' & E & Hq & Hh & R); [|done|cbn; lia|].
  { cbn. assert (is_u64 max) by (unfold is_u64, UINT64_MOD; lia). destruct consumer as [k|]; [split; [by apply Hcons|done]|done]. }
  pose proof (taker_finds _ _ _ _ _ _ _ I Hi) as Hhold. cbn in Hhold.
  destruct (bulk_elements _ _ _ _ _ _ _ Hq ltac:(lia)) as (l & -> & El & Hel).
  unfold advances. cbn [bworld_step]. rewrite Hi, Es, Eo. unfold take_many. rewrite Emax, E, ret_bind. cbv beta iota. cbn [app]. unfold many_loop.
  rewrite El, Z.eqb_refl, ret_bind. cbn [log_of]. rewrite E. eexists _, s'. split; [done|]. split; [|cbn; apply length_insert].
  eapply (binv_taken _ _ _ _ _ _ _ _ _ _ _ max); try done; cbn; lia.
Qed.

Lemma step_signal bound room w s i op pc ch :
  binv bound room w s -> bw_threads w !! i = Some (BBusy (BEnqueue op) (PSignal pc)) -> in_bounds bound room w -> advances bound room w (BAdvance i ch).
Proof.
  intros I Hi Hbd. destruct (bi_threads _ _ _ _ I i _ _ Hi) as (Hcall & Hfor & _ & Hpc). pose proof (binv_range _ _ _ _ _ _ _ I Hbd (or_introl Hi)) as Hr.
  assert (forall w', binv bound room w' s -> binv (S bound) room w' s) as HS by (intros w' I'; rewrite <- (Z.add_0_r room); by apply binv_S).
  unfold advances. cbn [bworld_step]. rewrite Hi. cbn [bq_step bq_enqueue inner_op log_of sema_call] in *. change (sema (bw_queue w)) with (bsema w).
  destruct (call_step (CSignal (signal_count op)) (bsema w) pc ch) as [[sm r]|] eqn:Es; [|exists w, s; auto].
  pose proof (call_step_conserves _ _ _ _ _ _ Es Hpc Hr) as Hcons. pose proof Hcons as (Hres & _ & _).
  destruct r as [pc'|r]; (eexists _, s; split; [done|]; split; [|cbn; apply length_insert]; rewrite app_nil_r; apply HS).
  - eapply (binv_sema _ _ _ _ _ _ _ _ _ (inl pc')); [done|exact Hi|by left|done| |done|done|cbn].
    + intros c' pc1 [= <- <-]. done.
    + destruct pc' as [?|[]| |m]; cbn in *; lia || tauto.
  - eapply (binv_sema _ _ _ _ _ _ _ _ _ (inr r)); [done|exact Hi|by left|done|done|done|done|cbn; lia].
Qed.

(** What may follow the result [r] of a wait: the call is over, it waits again, or it
    has its permits. *)
Definition next_ok (i : nat) (c : BCall T) (r : Z) (o : BPc T + QAnswer T) : Prop :=
  match o with
  | inl pc => thread_ok i c pc /\ bweights (BBusy c pc) = no_weights /\ pending (BBusy c pc) = 0 /\ stake (BBusy c pc) = r
  | inr _ => r = 0
  end.

Lemma step_wait bound room w s i c pc ch next :
  binv bound room w s -> bw_threads w !! i = Some (BBusy c (PWait pc)) -> in_bounds bound room w -> (answer ch = SysErr -> may_fail i = true) ->
  bq_step c (bw_queue w) (PWait pc) ch = wait_step (sema_call c) next (bw_queue w) pc ch ->
  (forall r, 0 <= r <= demand (sema_call c) -> match c with BWaitDequeueBulk _ _ _ => 0 < r | _ => True end -> exists o, next r = Ret o /\ next_ok i c r o) ->
  advances bound room w (BAdvance i ch).
Proof.
  intros I Hi Hbd Hch Ebq Hnext. destruct (bi_threads _ _ _ _ I i _ _ Hi) as (Hcall & Hfor & Hk & Hpc & Hback).
  pose proof (binv_range _ _ _ _ _ _ _ I Hbd (or_intror Hi)) as Hr.
  assert (forall w', binv bound room w' s -> binv (S bound) room w' s) as HS by (intros w' I'; rewrite <- (Z.add_0_r room); by apply binv_S).
  assert (inner_op c (PWait pc) = None) as Eo by (by destruct c).
  unfold advances. cbn [bworld_step]. rewrite Hi, Ebq, Eo. unfold wait_step. change (sema (bw_queue w)) with (bsema w). cbn [log_of].
  destruct (call_step (sema_call c) (bsema w) pc ch) as [[sm r]|] eqn:Es; [|exists w, s; auto].
  pose proof (call_step_conserves _ _ _ _ _ _ Es Hpc Hr) as Hcons. pose proof Hcons as (Hres & _ & _).
  assert (match c with BWaitDequeueBulk _ _ _ => match r with inl pc' => not_back pc' | inr m => 0 < m end | _ => True end) as Hforever.
  { destruct c; try done. destruct Hfor as [Hm Hf]. destruct Hcall as (_ & _ & Hmax). cbn [sema_call] in *. rewrite s64_small in * by lia.
    eapply wait_forever; [exact Es|done|lia|done| |done]. intros Herr. by rewrite (Hch Herr) in Hf. }
  destruct r as [pc'|r].
  - eexists _, s. split; [done|]. split; [|cbn; apply length_insert]. rewrite app_nil_r. apply HS.
    eapply (binv_sema _ _ _ _ _ _ _ _ _ (inl pc')); [done|exact Hi|by right|done| |done|by destruct c|cbn].
    + intros c' pc1 [= <- <-]. split; [done|]. split; [done|]. split; [done|]. split; [done|]. by destruct c.
    + rewrite Hk. destruct c; try done; destruct pc' as [?|[]| |m]; cbn in *; lia || tauto.
  - destruct (Hnext r Hres) as (o & -> & Ho); [by destruct c|]. rewrite ret_bind. assert (weights_of (sema_call c) (inr r) = mkWeights r 0 0 0) as Wr by (by destruct c).
    destruct o as [pc'|a]; (eexists _, s; split; [done|]; split; [|cbn; apply length_insert]; rewrite app_nil_r; apply HS);
      (eapply (binv_sema _ _ _ _ _ _ _ _ _ (inr r)); [done|exact Hi|by right|done|..]); rewrite ?Wr, ?Hk.
    + intros c' pc1 [= <- <-]. apply Ho.
    + apply Ho.
    + apply Ho.
    + destruct Ho as (_ & _ & _ & ->). cbn. lia.
    + done.
    + done.
    + done.
    + cbn in Ho. subst r. done.
Qed.

(** What follows the waits of single dequeues and of bulk dequeues. *)
Lemma next_one i c r failed :
  bcall_ok c -> takes_one c = true -> 0 <= r <= 1 -> failed = inl (PWait (InTry TLoad)) \/ (exists a, failed = inr a) ->
  next_ok i c r (if r =? 0 then failed else inl PTake).
Proof.
  intros Hc Hk Hr Hf. destruct (Z.eqb_spec r 0) as [->|Hne].
  - destruct Hf as [-> |(a & ->)]; [|done]. destruct c; try done; (split; [|done]; split; [done|]; split; [done|]; split; [done|]; cbn; auto with lia).
  - assert (r = 1) as -> by lia. destruct c; try done; (split; [|done]; split; [done|]; done).
Qed.

Lemma next_many i c r : bcall_ok c -> forever_ok i c -> takes_many c = true -> 0 <= r <= demand (sema_call c) -> next_ok i c r (many_loop [] (u64 r) None).
Proof.
  intros Hc Hf Hk Hr. assert (0 <= r < 9223372036854775808) as Hb.
  { destruct c; try done; destruct Hc as (_ & _ & Hm); cbn in Hr; rewrite s64_small in Hr by lia; lia. }
  unfold many_loop. rewrite u64_small by (unfold is_u64, UINT64_MOD; lia). change (Z.of_nat (length (@nil T))) with 0. destruct (Z.eqb_spec 0 r) as [<-|Hne]; [done|].
  split; [split; [done|]; split; [done|]; split; [done|]; split; [done|]; split; [done|lia]|]. destruct c; try done; cbn; repeat split; lia.
Qed.

Lemma step_waiting bound room w s i c pc ch :
  binv bound room w s -> bw_threads w !! i = Some (BBusy c (PWait pc)) -> in_bounds bound room w -> (answer ch = SysErr -> may_fail i = true) ->
  advances bound room w (BAdvance i ch).
Proof.
  intros I Hi Hbd Hch. destruct (bi_threads _ _ _ _ I i _ _ Hi) as (Hcall & Hfor & Hk & _). pose proof (next_one i c) as H1. pose proof (next_many i c) as H2.
  destruct c as [|op|op|op t|consumer t m|consumer t m|consumer t m u]; [done|..]; (eapply step_wait; [exact I|exact Hi|done|done|reflexivity|]); intros r Hr Hpos.
  - eexists. split; [done|]. apply H1; [done|done|exact Hr|eauto].
  - eexists. split; [done|]. apply H1; [done|done|exact Hr|eauto].
  - eexists. split; [done|]. apply H1; [done|done|exact Hr|eauto].
  - eexists. split; [done|]. pose proof Hcall as (_ & -> & _). by apply H2.
  - unfold waitMany_result. rewrite (proj2 (Z.ltb_lt 0 r) Hpos), ret_bind. eexists. split; [done|]. pose proof Hcall as (_ & -> & _). by apply H2.
  - eexists. split; [done|]. pose proof Hcall as (_ & -> & _). by apply H2.
Qed.

(** A call begins. *)
Lemma enter_ok i c : bcall_ok c -> forever_ok i c ->
  exists pc, bq_enter c = Ret pc /\ thread_ok i c pc /\ stake (BBusy c pc) = 0 /\ bweights (BBusy c pc) = no_weights /\ pending (BBusy c pc) = event_size (BEnter i c).
Proof.
  intros Hc Hf. destruct (enqueues_call c) eqn:Ek; [destruct c; try done; exists PInner; done|].
  assert (0 <= demand (sema_call c)) as Hd by (destruct c; try (cbn; lia); destruct Hc as (_ & _ & Hm); cbn; rewrite s64_small; lia).
  assert (bq_enter c = Ret (PWait (InTry TLoad))) as ->.
  { destruct c; try done; cbn [bq_enter enter sema_call demand] in *; by replace (0 <=? s64 max) with true by (zbool; lia). }
  eexists. split; [done|]. split; [|by destruct c]. split; [done|]. split; [done|]. split; [done|]. split; [|by destruct c].
  split; [done|]. split; [done|]. by destruct c.
Qed.
End Spec.

Arguments BWorld : clear implicits.
Arguments BThread : clear implicits.
Arguments BEvent : clear implicits.
