(* ===== verification/BlockingQueueTrace.v ===== *)
(** * Threads on a blocking queue

    Any interleaving of calls on a new blocking queue keeps the account of
    BlockingQueueSpec.v; and nobody sleeps while an element is there that nobody has
    claimed. *)
From S2P Require Import Prelude QueueDetails QueueBlock Producer ImplicitProducer ImplicitSpec ExplicitProducer ProducerHash Queue QueueBulk QueueSpec QueueThreads QueueRuns QueueTrace Semaphore SemaphoreSpec BlockingQueue BlockingQueueSpec.

Section Trace.
Context {T : Type}.
Implicit Types (s : gmap Owner (list T)).

Variable (mem : Prop) (may_fail : nat -> bool) (n : nat).
Local Abbreviation binv := (binv (T := T) mem may_fail n).
Local Abbreviation bevent_ok := (bevent_ok (T := T) mem may_fail n).

(** ** Every event *)

Lemma event_size_nonneg (ev : BEvent T) : 0 <= event_size ev.
Proof. destruct ev as [i []| |]; cbn; lia. Qed.

Lemma bworld_enter bound room w s i c :
  binv bound room w s -> bevent_ok (BEnter i c) ->
  exists w' s', bworld_step w (BEnter i c) = Ret w' /\ binv (S bound) (room + event_size (BEnter i c)) w' s' /\ length (bw_threads w') = length (bw_threads w).
Proof.
  intros I [Hc Hf]. pose proof (event_size_nonneg (BEnter i c)) as Hz. cbn [bworld_step].
  destruct (bw_threads w !! i) as [[|c' pc']|] eqn:Hi; [|exists w, s; split; [done|]; split; [by apply binv_S|done]..].
  destruct (enter_ok mem may_fail n i c Hc Hf) as (pc & -> & Ht & Es & Ew & Ep). rewrite ret_bind. eexists _, s. split; [done|].
  split; [|cbn; apply length_insert]. destruct (binv_S _ _ _ _ _ _ _ _ Hz I) as [Hin Hhe _ Hcnt Hs Hpos _ Hops Hfd].
  constructor; try done; cbn [bw_threads].
  - eapply threads_ok_insert; [exact I|]. by intros c1 pc1 [= <- <-].
  - rewrite (bsum_put _ _ _ _ _ _ _ Hi), Es. unfold bsema in *. cbn in *. lia.
  - unfold sleepers in *. rewrite !(bsum_put _ _ _ _ _ _ _ Hi), Ew. unfold bsema in *. cbn in *. lia.
  - rewrite (bsum_put _ _ _ _ _ _ _ Hi), Ep. pose proof (bi_bound _ _ _ _ _ _ _ I). cbn [pending]. lia.
Qed.

Lemma bworld_step_inv bound room w s ev :
  binv bound room w s -> bevent_ok ev -> in_bounds bound (room + event_size ev) w ->
  exists w' s', bworld_step w ev = Ret w' /\ binv (S bound) (room + event_size ev) w' s' /\ length (bw_threads w') = length (bw_threads w).
Proof.
  intros I Hev Hb. destruct ev as [i c|i ch|op]; [by apply (bworld_enter bound room w s)|cbn [event_size] in *; rewrite Z.add_0_r in *..].
  - assert (binv (S bound) room w s) as IS by (rewrite <- (Z.add_0_r room); by apply binv_S).
    destruct (bw_threads w !! i) as [[|c pc]|] eqn:Hi; [exists w, s; cbn; by rewrite Hi| |exists w, s; cbn; by rewrite Hi].
    destruct (bi_threads _ _ _ _ _ _ _ I i _ _ Hi) as (_ & _ & Hpc). destruct pc as [|pc|pc| |items max throws].
    + destruct c; try done. by eapply step_inner_enqueue.
    + destruct c; try (by destruct Hpc). by eapply step_signal.
    + by eapply step_waiting.
    + by eapply step_take.
    + by eapply step_take_many.
  - destruct Hev as [Hev Hop]. assert (qop_size op = 0%nat) as E0 by (by destruct op).
    destruct Hb as (_ & Hb & Hroom). destruct (shares_nonneg _ _ _ _ _ _ _ I) as (_ & _ & _ & Hpen). pose proof (bi_bound _ _ _ _ _ _ _ I) as Hbd.
    destruct (inner_step mem may_fail n bound room w s op I Hop Hb) as (a & q' & s' & E & Hq & Hh & R); [rewrite E0; lia|].
    pose proof (token_elements _ _ _ _ _ _ Hq Hev) as Hel. cbn [bworld_step]. rewrite E, ret_bind. eexists _, s'. split; [done|]. split; [|done].
    eapply binv_inner; try done; [apply I|rewrite Hel; unfold bsum; lia|rewrite Hel; unfold bsum; lia|by eapply token_found].
Qed.

Lemma bworld_run_inv evs : forall bound room w s,
  binv bound room w s -> Forall bevent_ok evs -> Z.of_nat (length (bw_threads w)) < 2147483648 -> Z.of_nat bound + Z.of_nat (length evs) < UINT_MOD ->
  room + total event_size evs + 32 < 9223372036854775808 ->
  exists bound' w' s', bworld_run w evs = Ret w' /\ binv bound' (room + total event_size evs) w' s' /\ length (bw_threads w') = length (bw_threads w).
Proof.
  induction evs as [|ev evs IH]; intros bound room w s I Hevs Hlen Hb Hroom; cbn [bworld_run length total] in *.
  { exists bound, w, s. by rewrite Z.add_0_r. }
  apply Forall_cons in Hevs as [Hev Hevs]. assert (0 <= total event_size evs) as Hz by (apply total_nonneg, Forall_true, event_size_nonneg).
  destruct (bworld_step_inv bound room w s ev I Hev) as (w1 & s1 & -> & I1 & El); [by split; [|split; lia]|]. rewrite ret_bind.
  destruct (IH (S bound) (room + event_size ev) w1 s1 I1 Hevs ltac:(lia) ltac:(lia) ltac:(lia)) as (bound' & w2 & s2 & -> & I2 & El2).
  exists bound', w2, s2. rewrite El2, El. split; [done|]. split; [|done]. by replace (room + (event_size ev + total event_size evs)) with (room + event_size ev + total event_size evs) by lia.
Qed.

(** ** New queues *)

(** [k] idle threads around a new queue. *)
Definition bworld (m k : nat) (qs : ConcurrentQueue T * LightweightSemaphore) : BWorld T :=
  mkBWorld (mkBlocking (start m qs.1) qs.2) (replicate k BIdle) [].

Lemma idle_total k (f : BThread T -> Z) : f BIdle = 0 -> total f (replicate k BIdle) = 0.
Proof. intros Hf. induction k as [|k IH]; cbn; [done|]. by rewrite IH, Hf. Qed.

Lemma bworld_inv k q sm : queue_rep q [] [] ∅ -> (mem -> healthy q) -> sm = mkSema 0 0 MAX_SEMA_SPINS -> binv 0 0 (bworld n k (q, sm)) ∅.
Proof.
  intros Q Hh ->. destruct (start_run_inv q n Q) as (R & Es & Hs).
  constructor; unfold sleepers, bsum, bsema; cbn [bworld bw_queue bw_threads bw_ops inner sema fst snd]; rewrite ?idle_total by done; try done; [|auto|..].
  - exists [], [], ∅. split; [done|]. apply map_eq. intros o. by rewrite view_lookup, !lookup_empty.
  - intros i c pc Hi. apply lookup_replicate in Hi as [? _]. done.
  - rewrite Es. constructor.
Qed.

(** ** Nobody sleeps in vain *)

(** No enqueue is between the queue inside and the end of its signal. *)
Definition signalled (w : BWorld T) : Prop := forall i c pc, bw_threads w !! i <> Some (BBusy c (PSignal pc)).

Lemma bq_step_blocks bound room w s i c pc ch :
  binv bound room w s -> bw_threads w !! i = Some (BBusy c pc) -> bq_step c (bw_queue w) pc ch = Ret None ->
  (exists pc', pc = PSignal pc') \/ (pc = PWait (InWait WBlock) /\ m_sema (bsema w) <= 0).
Proof.
  intros I Hi E. destruct (bi_threads _ _ _ _ _ _ _ I i _ _ Hi) as (_ & _ & Hpc). destruct pc as [|pc|pc| |items max throws]; [|by eauto| | |].
  - destruct c; try done. cbn in E. apply bind_Ret in E as ([a q] & _ & E). destruct a as [[]| | | | | |]; try done.
    apply bind_Ret in E as (? & _ & E). done.
  - destruct Hpc as (Hk & Hpc & _). assert (call_step (sema_call c) (bsema w) pc ch = None) as Es.
    { destruct c; try done; cbn [bq_step bq_try_dequeue bq_wait_dequeue bq_wait_dequeue_timed bq_try_dequeue_bulk bq_wait_dequeue_bulk bq_wait_dequeue_bulk_timed] in E;
        unfold wait_step in E; change (sema (bw_queue w)) with (bsema w) in E; cbn [sema_call];
        match type of E with context [call_step ?cc ?ss pc ch] => destruct (call_step cc ss pc ch) as [[? []]|] end; try done;
        apply bind_Ret in E as (? & _ & E); done. }
    destruct (call_step_blocks _ _ _ _ Es Hpc) as (-> & _ & H0). by right.
  - destruct c; try done; cbn [bq_step bq_try_dequeue bq_wait_dequeue bq_wait_dequeue_timed] in E; unfold take_loop in E; apply bind_Ret in E as ([a q] & _ & E); done.
  - destruct Hpc as (Hk & _). destruct c; try done; cbn [bq_step bq_try_dequeue_bulk bq_wait_dequeue_bulk bq_wait_dequeue_bulk_timed] in E; unfold take_many in E;
      apply bind_Ret in E as ([a q] & _ & E); destruct a as [| | | | | |l []]; done.
Qed.

Lemma signalled_account bound room w s :
  binv bound room w s -> signalled w -> bsum (fun th => unposted (bweights th)) w = 0 /\ bsum stake w = sleepers w + bsum holding w.
Proof.
  intros I Hs. unfold sleepers, bsum.
  assert (forall i c pc, bw_threads w !! i = Some (BBusy c pc) -> bpc_ok c pc /\ forall pc', pc <> PSignal pc') as Ht.
  { intros i c pc Hi. split; [by eapply bi_threads|]. intros pc' ->. by apply (Hs i c pc'). }
  clear I Hs. induction (bw_threads w) as [|th l IH]; [done|]. destruct IH as [IH1 IH2]; [intros i; apply (Ht (S i))|]. cbn [total].
  specialize (Ht 0%nat). destruct th as [|c pc]; [cbn; lia|]. destruct (Ht c pc eq_refl) as [Hpc Hns].
  destruct pc as [|pc|pc| |]; [cbn; lia|by destruct (Hns pc)|destruct Hpc as (Hk & Hpc & _)|cbn; lia|cbn; lia].
  destruct pc as [?|[]| |m], c; cbn in *; try lia; tauto.
Qed.

(** A thread that blocks waits for an element that is not there. *)
Lemma blocked_empty bound room w s i c pc ch :
  binv bound room w s -> signalled w -> bw_threads w !! i = Some (BBusy c pc) -> bq_step c (bw_queue w) pc ch = Ret None ->
  elements_of s = bsum holding w.
Proof.
  intros I Hs Hi E. destruct (bq_step_blocks _ _ _ _ _ _ _ _ I Hi E) as [(pc' & ->)|[-> H0]]; [by destruct (Hs i c pc')|].
  destruct (signalled_account _ _ _ _ I Hs) as [Hu Hst].
  assert (sleeping (bweights (BBusy c (PWait (InWait WBlock)))) <= sleepers w) as Hsl.
  { apply (total_elem (fun th => sleeping (bweights th)) (bw_threads w) i); [|done]. eapply bthreads_forall; [exact I|done|].
    intros j c' pc' H. apply thread_shares in H. lia. }
  cbn in Hsl. destruct I as [_ _ _ Hc Hse Hpos _ _ _]. unfold debt in *. lia.
Qed.
End Trace.

(** A run of threads on a new queue. *)
Lemma blocking_reachable {T} results garbage capacity may_fail n k (evs : list (BEvent T)) qs :
  capacity_ok capacity -> Z.of_nat k < 2147483648 -> Forall (bevent_ok (Forall (fun r => r = true) results) may_fail n) evs ->
  Z.of_nat (length evs) < UINT_MOD -> total event_size evs + 32 < 9223372036854775808 ->
  BlockingConcurrentQueue_new (ConcurrentQueue_new results garbage capacity) = Ret (Some qs) ->
  exists bound w s, bworld_run (bworld n k qs) evs = Ret w /\
    binv (Forall (fun r => r = true) results) may_fail n bound (total event_size evs) w s /\ length (bw_threads w) = k.
Proof.
  intros Hcap Hk Hevs Hlen Hsize E. unfold BlockingConcurrentQueue_new in E. destruct (new_queue_rep (T := T) results garbage capacity Hcap) as [[R Hnu Hh Hks Hc] Hhe].
  pose proof (malloc_spec (cq_heap (ConcurrentQueue_new (T := T) results garbage capacity))) as Hm.
  destruct (malloc _) as [ok h]. destruct Hm as [Hm _]. destruct ok; [|done]. cbn in E. injection E as <-.
  assert (queue_rep (set_heap (ConcurrentQueue_new (T := T) results garbage capacity) h) [] [] ∅) as Q.
  { constructor; try done. by apply list_rep_mem. }
  assert (Forall (fun r => r = true) results -> healthy (set_heap (ConcurrentQueue_new (T := T) results garbage capacity) h)) as Hhe'.
  { intros Hr. destruct (Hhe Hr) as [Ho Hu]. split; [|done]. by apply (mem_only_blocks _ _ Hm). }
  pose proof (bworld_inv _ may_fail n k _ _ Q Hhe' eq_refl) as I.
  destruct (bworld_run_inv _ may_fail n evs 0 0 _ ∅ I Hevs) as (bound & w & s & Er & Iw & El); cbn [bworld bw_threads] in *; rewrite ?length_replicate in *; [done|lia|lia|].
  exists bound, w, s. done.
Qed.


(** Two threads enqueue, one with a producer token and many elements; a third waits for
    one element and then for many. *)
Definition demo_bops : list (BEvent Z) :=
  let go i := BAdvance i (mkChoice false SysOk) in
  [BToken QNewToken; BEnter 2 (BWaitDequeue (QDequeue Scored false)); go 2%nat; go 2%nat;
   BEnter 0 (BEnqueue (QEnqueue CanAlloc false [] 4711 (Some 7))); go 0%nat; go 0%nat;
   BEnter 1 (BEnqueue (QEnqueueBulkWith 0 CanAlloc false (fun _ => []) [Some 8; Some 9; Some 10])); go 1%nat; go 1%nat;
   go 2%nat; go 2%nat; go 2%nat; BEnter 2 (BWaitDequeueBulk None None 2); go 2%nat; go 2%nat; go 2%nat].



(** A thread waits for elements of an empty queue until it has spun enough. *)
Definition demo_wait : list (BEvent Z) :=
  BEnter 0 (BWaitDequeueBulk None None 5) :: replicate (Z.to_nat 10003) (BAdvance 0 (mkChoice false SysOk)).

Definition demo_queue : ConcurrentQueue Z * LightweightSemaphore := (ConcurrentQueue_new [] [] 64, mkSema 0 0 MAX_SEMA_SPINS).

Definition demo_blocked : BWorld Z :=
  mkBWorld (mkBlocking (start 0 demo_queue.1) (mkSema (-1) 0 MAX_SEMA_SPINS)) [BBusy (BWaitDequeueBulk None None 5) (PWait (InWait WBlock))] [].


(** Why the assignments of bulk dequeues must not throw: the call has taken permits for
    all the elements, and the exception leaves those of the other producers in the queue
    without one.  Here three elements of two threads are enqueued, the first assignment
    throws, and two elements stay that no blocking call will ever find. *)
Definition demo_throw : list (BEvent Z) :=
  let go i := BAdvance i (mkChoice false SysOk) in
  [BEnter 0 (BEnqueue (QEnqueueBulk CanAlloc (fun _ => []) 4711 [Some 1; Some 2])); go 0%nat; go 0%nat;
   BEnter 0 (BEnqueue (QEnqueue CanAlloc false [] 4712 (Some 3))); go 0%nat; go 0%nat;
   BEnter 1 (BTryDequeueBulk None (Some 0%nat) 3); go 1%nat; go 1%nat; go 1%nat].

Example bulk_throw_loses_permits :
  exists w, bworld_run (bworld 0 2 demo_queue) demo_throw = Ret w /\ bw_threads w = [BIdle; BIdle] /\
    bq_size_approx (bw_queue w) = 0 /\ queue_size_approx (st_queue (inner (bw_queue w))) = Ret 2.
Proof. eexists. split; [vm_compute; reflexivity|]. vm_compute. auto. Qed.
