(* ===== verification/BlockingMove.v ===== *)
(** * Moving and swapping blocking queues (blockingconcurrentqueue.h)

    A blocking queue is an object whose first member is the queue inside, at the same
    address, and that owns its semaphore through a pointer.  Swapping exchanges both; a
    queue that was moved from keeps a queue without elements and has no semaphore. *)
From S2P Require Import Prelude QueueDetails QueueBlock Producer ProducerHash Queue QueueSpec QueueRuns QueueMove QueueMoveSpec Semaphore BlockingQueue.

Section Move.
Context {T : Type}.

(** The semaphore of each queue; [Some None] is a null pointer. *)
Record BlockingQueues := mkBlockingQueues { bo_inner : Queues T; bo_sema : gmap nat (option LightweightSemaphore) }.

Implicit Types (w : BlockingQueues) (this other : nat).

Definition sema_at w this : outcome (option LightweightSemaphore) := of_option BadPointer (bo_sema w !! this).

(** The move constructor. *)
Definition bq_move_construct w this other (results : list bool) : outcome BlockingQueues :=
  inner ← move_construct (bo_inner w) this other results;
  s ← sema_at w other;
  Ret (mkBlockingQueues inner (<[other := None]> (<[this := s]> (bo_sema w)))).

(** [swap_internal], which [swap] and the move assignment call. *)
Definition bq_swap_internal w this other : outcome BlockingQueues :=
  if decide (this = other) then Ret w
  else
    inner ← swap_internal (bo_inner w) this other;
    s ← sema_at w this; s' ← sema_at w other;
    Ret (mkBlockingQueues inner (<[other := s]> (<[this := s']> (bo_sema w)))).

(** The queue at [this], with the tokens callers have made for it.  A call goes through
    the semaphore's pointer. *)
Definition read_blocking w this (consumers : list ConsumerToken) (slots : list TokenSlot) : outcome (BlockingConcurrentQueue T) :=
  q ← read_queue (bo_inner w) this;
  s ← sema_at w this;
  s ← of_option BadPointer s;
  Ret (mkBlocking (mkQState q consumers slots) s).

(** ** Correctness *)

(** The objects are sound, and each has a pointer to a semaphore. *)
Definition blocking_ok w (C : gmap nat (list nat)) : Prop := queues_ok (bo_inner w) C /\ dom (bo_sema w) = dom (objects (bo_inner w)).

Lemma blocking_parts w C this : blocking_ok w C -> is_Some (objects (bo_inner w) !! this) ->
  exists q s, holds (bo_inner w) C this q /\ bo_sema w !! this = Some s /\
    forall consumers slots, read_blocking w this consumers slots = (s ← of_option BadPointer s; Ret (mkBlocking (mkQState q consumers slots) s)).
Proof.
  intros [K Hd] [o Ho]. destruct (qo_objects _ _ K this o Ho) as (ts & Hts & _).
  assert (this ∈ dom (bo_sema w)) as [s Hs]%elem_of_dom by (rewrite Hd; by eapply elem_of_dom_2).
  exists (queue_of (tables (bo_inner w)) o ts), s. assert (holds (bo_inner w) C this (queue_of (tables (bo_inner w)) o ts)) as H by (by exists o, ts).
  split; [done|]. split; [done|]. intros consumers slots. unfold read_blocking, sema_at. by rewrite (read_queue_spec _ C this _ K H), ret_bind, Hs.
Qed.

Lemma read_blocking_holds w C this q s consumers slots :
  blocking_ok w C -> holds (bo_inner w) C this q -> bo_sema w !! this = Some s ->
  read_blocking w this consumers slots = (s ← of_option BadPointer s; Ret (mkBlocking (mkQState q consumers slots) s)).
Proof. intros [K _] H Hs. unfold read_blocking, sema_at. by rewrite (read_queue_spec _ C this q K H), ret_bind, Hs. Qed.

(** What an object that is left alone reads. *)
Lemma read_blocking_other w C w' C' i consumers slots :
  blocking_ok w C -> blocking_ok w' C' -> is_Some (objects (bo_inner w) !! i) -> bo_sema w' !! i = bo_sema w !! i ->
  (forall q, holds (bo_inner w) C i q -> holds (bo_inner w') C' i q) -> read_blocking w' i consumers slots = read_blocking w i consumers slots.
Proof.
  intros K K' Hi Es Hh. destruct (blocking_parts w C i K Hi) as (q & s & H & Hs & ->). apply (read_blocking_holds w' C'); [done|auto|congruence].
Qed.

(** Swapping two blocking queues exchanges what they are: queue, elements and semaphore;
    other queues are left alone. *)
Theorem blocking_swap_exchanges w C this other :
  blocking_ok w C -> is_Some (objects (bo_inner w) !! this) -> is_Some (objects (bo_inner w) !! other) ->
  exists w' C', bq_swap_internal w this other = Ret w' /\ blocking_ok w' C' /\
    forall i consumers slots, is_Some (objects (bo_inner w) !! i) ->
      read_blocking w' i consumers slots = read_blocking w (if decide (i = this) then other else if decide (i = other) then this else i) consumers slots.
Proof.
  intros K Ha Hb. unfold bq_swap_internal. destruct (decide (this = other)) as [->|Hne].
  { exists w, C. split; [done|]. split; [done|]. intros i ? ? _. repeat case_decide; subst; done. }
  destruct (blocking_parts w C this K Ha) as (qa & sa & Hqa & Hsa & Ra). destruct (blocking_parts w C other K Hb) as (qb & sb & Hqb & Hsb & Rb).
  destruct (swap_internal_spec _ C this other qa qb (proj1 K) Hqa Hqb Hne) as (inner' & C' & -> & K' & H1 & H2 & Hother & Hd).
  unfold sema_at. rewrite ret_bind, Hsa, Hsb. cbn [of_option]. rewrite !ret_bind. eexists _, C'. split; [done|].
  assert (blocking_ok (mkBlockingQueues inner' (<[other := sa]> (<[this := sb]> (bo_sema w)))) C') as Kw.
  { split; [done|]. cbn. rewrite Hd, !dom_insert_L, (proj2 K). apply elem_of_dom in Ha, Hb. set_solver. }
  split; [exact Kw|]. intros i consumers slots Hi. case_decide; [subst i|case_decide; [subst i|]].
  - rewrite (read_blocking_holds _ C' this qb sb _ _ Kw H1), Rb; [done|]. cbn. by rewrite lookup_insert_ne, lookup_insert_eq.
  - rewrite (read_blocking_holds _ C' other qa sa _ _ Kw H2), Ra; [done|]. cbn. by rewrite lookup_insert_eq.
  - apply (read_blocking_other w C _ C'); try done; [cbn; by rewrite !lookup_insert_ne|]. intros q. by apply Hother.
Qed.

(** Moving a blocking queue takes queue, elements and semaphore along.  The one that is
    left holds a new queue, but every call on it goes through a null pointer. *)
Theorem blocking_move_takes_all w C this other results :
  blocking_ok w C -> objects (bo_inner w) !! this = None -> is_Some (objects (bo_inner w) !! other) ->
  exists w' C', bq_move_construct w this other results = Ret w' /\ blocking_ok w' C' /\
    (forall consumers slots, read_blocking w' this consumers slots = read_blocking w other consumers slots) /\
    read_queue (bo_inner w') other = Ret (ConcurrentQueue_new results [] 0) /\
    (forall consumers slots, read_blocking w' other consumers slots = Fault BadPointer) /\
    forall i consumers slots, i <> other -> is_Some (objects (bo_inner w) !! i) -> read_blocking w' i consumers slots = read_blocking w i consumers slots.
Proof.
  intros K Ha Hb. assert (this <> other) as Hne by (intros ->; destruct Hb; congruence).
  destruct (blocking_parts w C other K Hb) as (qb & sb & Hqb & Hsb & Rb). unfold bq_move_construct.
  destruct (move_construct_spec _ C this other results qb (proj1 K) Ha Hqb) as (inner' & C' & -> & K' & H1 & H2 & Hother & Hd).
  unfold sema_at. rewrite ret_bind, Hsb. cbn [of_option]. rewrite ret_bind. eexists _, C'. split; [done|].
  assert (blocking_ok (mkBlockingQueues inner' (<[other := None]> (<[this := sb]> (bo_sema w)))) C') as Kw.
  { split; [done|]. cbn. rewrite Hd, !dom_insert_L, (proj2 K). apply elem_of_dom in Hb. set_solver. }
  split; [exact Kw|]. split; [|split; [|split]].
  - intros consumers slots. rewrite (read_blocking_holds _ C' this qb sb _ _ Kw H1), Rb; [done|]. cbn. by rewrite lookup_insert_ne, lookup_insert_eq.
  - by apply (read_queue_spec _ C').
  - intros consumers slots. rewrite (read_blocking_holds _ C' other _ None _ _ Kw H2); [done|]. cbn. by rewrite lookup_insert_eq.
  - intros i consumers slots Hi Hin. assert (i <> this) as Hit by (intros ->; destruct Hin; congruence).
    apply (read_blocking_other w C _ C'); try done; [cbn; by rewrite !lookup_insert_ne|]. intros q. by apply Hother.
Qed.
End Move.
