(* ===== verification/ThreadPool.v ===== *)
(** * The thread pool (utils/thread-pool/thread_pool.hpp)

    [Pool] is the state of class [thread_pool]: the queue, the counter of
    unfinished tasks, the flags, and where each worker is in its loop.  The public
    and private member functions are split into the atomic steps they consist of:
    [push_task] increments the counter, then pushes under the lock; [worker] tests
    [running], tests [paused], pops under the lock, runs the task, decrements the
    counter.  Any interleaving of these steps by any number of threads is a list
    of [TEvent]s.  [std::uint_fast32_t] and [std::uint_fast64_t] have 64 bits here,
    as with the GNU library on 64-bit machines.

    The logs of a [Trace] (tasks pushed, popped and executed) are not part of the
    program; they let the theorems say that every task runs once, in order. *)
From S2P Require Import Prelude.

Section ThreadPool.
Context {A : Type}.

(** ** State *)

(** What the queue holds: a function given to [push_task], or the wrapper [submit]
    makes around a function.  The flag tells whether the function throws. *)
Inductive Task := Plain (a : A) (throws : bool) | Submitted (a : A) (throws : bool).

(** A worker between two steps of its loop. *)
Inductive Worker :=
  | WLoop                 (** before the test of [running] *)
  | WAwake                (** [running] was true *)
  | WUnpaused             (** [paused] was false *)
  | WRun (t : Task)       (** a task was popped *)
  | WDone (t : Task)      (** the task has returned *)
  | WExited.

Record Pool := mkPool {
  tasks : list Task; tasks_total : Z; paused : bool; running : bool;
  thread_count : Z; threads : list Worker;
  pushing : list Task;                      (** calls of [push_task] between their two steps *)
  promises : list (A * bool) }.             (** futures set: a value, or an exception *)

Definition set_tasks (p : Pool) (ts : list Task) (n : Z) (pu : list Task) : Pool :=
  mkPool ts n (paused p) (running p) (thread_count p) (threads p) pu (promises p).
Definition set_flags (p : Pool) (pa ru : bool) : Pool :=
  mkPool (tasks p) (tasks_total p) pa ru (thread_count p) (threads p) (pushing p) (promises p).
Definition set_threads (p : Pool) (n : Z) (l : list Worker) : Pool :=
  mkPool (tasks p) (tasks_total p) (paused p) (running p) n l (pushing p) (promises p).
Definition set_promises (p : Pool) (l : list (A * bool)) : Pool :=
  mkPool (tasks p) (tasks_total p) (paused p) (running p) (thread_count p) (threads p) (pushing p) l.

(** ** Member functions *)

(** [create_threads]: every worker at the beginning of its loop. *)
Definition create_threads (n : Z) : list Worker := replicate (Z.to_nat n) WLoop.

(** The constructor; [hw] is [std::thread::hardware_concurrency()]. *)
Definition thread_pool (hw n : Z) : Pool :=
  let n := if n =? 0 then hw else n in
  mkPool [] 0 false true n (create_threads n) [] [].

Definition get_tasks_queued (p : Pool) : Z := Z.of_nat (length (tasks p)).
Definition get_tasks_running (p : Pool) : Z := tasks_total p -w get_tasks_queued p.
Definition get_tasks_total (p : Pool) : Z := tasks_total p.
Definition get_thread_count (p : Pool) : Z := thread_count p.

(** The two steps of [push_task]. *)
Definition push_count (p : Pool) (t : Task) : Pool :=
  set_tasks p (tasks p) (tasks_total p +w 1) (pushing p ++ [t]).
Definition push_queue (p : Pool) (i : nat) : Pool :=
  match pushing p !! i with
  | Some t => set_tasks p (tasks p ++ [t]) (tasks_total p) (delete i (pushing p))
  | None => p
  end.

(** [submit] pushes a wrapper that catches what the function throws. *)
Definition submit (a : A) (throws : bool) : Task := Submitted a throws.

(** [pop_task] *)
Definition pop_task (p : Pool) : option (Task * Pool) :=
  match tasks p with
  | [] => None
  | t :: ts => Some (t, set_tasks p ts (tasks_total p) (pushing p))
  end.

(** Running a task: an exception a plain function throws leaves the thread
    function, which ends the process; the wrapper stores it in the future. *)
Definition run_task (p : Pool) (t : Task) : outcome Pool :=
  match t with
  | Plain _ true => Fault UncaughtException
  | Plain _ false => Ret p
  | Submitted a throws => Ret (set_promises p (promises p ++ [(a, negb throws)]))
  end.

(** The next step of worker [i]. *)
Definition worker (p : Pool) (i : nat) : outcome Pool :=
  let put p' w := set_threads p' (thread_count p') (<[i := w]> (threads p')) in
  match threads p !! i with
  | None | Some WExited => Ret p
  | Some WLoop => Ret (put p (if running p then WAwake else WExited))
  | Some WAwake => Ret (put p (if paused p then WLoop else WUnpaused))
  | Some WUnpaused =>
      Ret (match pop_task p with Some (t, p') => put p' (WRun t) | None => put p WLoop end)
  | Some (WRun t) => p' ← run_task p t; Ret (put p' (WDone t))
  | Some (WDone _) => Ret (set_tasks (put p WLoop) (tasks p) (tasks_total p -w 1) (pushing p))
  end.

(** The test of the loop of [wait_for_tasks]: whether it returns now. *)
Definition wait_for_tasks (p : Pool) : bool :=
  if negb (paused p) then tasks_total p =? 0 else get_tasks_running p =? 0.

Definition is_exited (w : Worker) : bool := match w with WExited => true | _ => false end.

(** [destroy_threads] returns when every worker has left its loop. *)
Definition destroy_threads (p : Pool) : bool := forallb is_exited (threads p).

(** The end of [reset], after [destroy_threads]. *)
Definition reset_finish (p : Pool) (hw n : Z) (was_paused : bool) : Pool :=
  let n := if n =? 0 then hw else n in
  set_flags (set_threads p n (create_threads n)) was_paused true.

(** ** Interleavings *)

Inductive TEvent :=
  | TPush (t : Task) | TEnqueue (i : nat) | TWorker (i : nat)
  | TPause (b : bool) | TStop | TReset (hw n : Z) (was_paused : bool).

Definition pool_step (p : Pool) (ev : TEvent) : outcome Pool :=
  match ev with
  | TPush t => Ret (push_count p t)
  | TEnqueue i => Ret (push_queue p i)
  | TWorker i => worker p i
  | TPause b => Ret (set_flags p b (running p))
  | TStop => Ret (set_flags p (paused p) false)
  | TReset hw n w => Ret (if destroy_threads p then reset_finish p hw n w else p)
  end.

Record Trace := mkTrace {
  tr_pool : Pool; tr_pushed : list Task; tr_entered : list Task; tr_popped : list Task; tr_executed : list Task }.

(** What a step adds to the logs. *)
Definition log_step (p : Pool) (ev : TEvent) : list Task * list Task * list Task * list Task :=
  match ev with
  | TPush t => ([t], [], [], [])
  | TEnqueue i => ([], option_list (pushing p !! i), [], [])
  | TWorker i =>
      match threads p !! i with
      | Some WUnpaused => ([], [], option_list (fst <$> pop_task p), [])
      | Some (WRun t) => ([], [], [], [t])
      | _ => ([], [], [], [])
      end
  | _ => ([], [], [], [])
  end.

Definition trace_step (tr : Trace) (ev : TEvent) : outcome Trace :=
  p ← pool_step (tr_pool tr) ev;
  let '(a, b, c, d) := log_step (tr_pool tr) ev in
  Ret (mkTrace p (tr_pushed tr ++ a) (tr_entered tr ++ b) (tr_popped tr ++ c) (tr_executed tr ++ d)).

Fixpoint trace_run (tr : Trace) (evs : list TEvent) : outcome Trace :=
  match evs with
  | [] => Ret tr
  | ev :: evs => tr' ← trace_step tr ev; trace_run tr' evs
  end.

Definition trace_init (p : Pool) : Trace := mkTrace p [] [] [] [].

(** ** The invariant *)

(** The tasks popped and not yet run, and the tasks run and not yet counted. *)
Definition in_run (w : Worker) : list Task := match w with WRun t => [t] | _ => [] end.
Definition uncounted (w : Worker) : list Task := match w with WDone t => [t] | _ => [] end.

(** Tasks counted in [tasks_total]. *)
Definition unfinished_tasks (p : Pool) : list Task :=
  tasks p ++ pushing p ++ (threads p ≫= in_run) ++ (threads p ≫= uncounted).

(** What the future of a submitted function receives. *)
Definition future_of (t : Task) : option (A * bool) :=
  match t with Submitted a throws => Some (a, negb throws) | Plain _ _ => None end.

Record pool_inv (tr : Trace) : Prop := mk_pool_inv {
  pi_total : tasks_total (tr_pool tr) = u64 (Z.of_nat (length (unfinished_tasks (tr_pool tr))));
  pi_pushed : tr_pushed tr ≡ₚ tr_entered tr ++ pushing (tr_pool tr);
  pi_entered : tr_entered tr = tr_popped tr ++ tasks (tr_pool tr);
  pi_popped : tr_popped tr ≡ₚ tr_executed tr ++ (threads (tr_pool tr) ≫= in_run);
  pi_futures : promises (tr_pool tr) = omap future_of (tr_executed tr) }.

Lemma bind_insert {B} (f : Worker -> list B) l i w w' :
  l !! i = Some w -> <[i := w']> l ≫= f ≡ₚ f w' ++ (delete i l ≫= f).
Proof.
  intros Hi. rewrite (insert_take_drop l i w') by (by eapply lookup_lt_Some).
  rewrite delete_take_drop, !bind_app. cbn. rewrite Permutation_app_swap_app. done.
Qed.

Lemma bind_delete {B} (f : Worker -> list B) l i w :
  l !! i = Some w -> l ≫= f ≡ₚ f w ++ (delete i l ≫= f).
Proof. intros Hi. rewrite <- (list_insert_id l i w Hi) at 1. by eapply bind_insert. Qed.

Lemma delete_perm {B} (l : list B) i x : l !! i = Some x -> l ≡ₚ x :: delete i l.
Proof. intros Hi. by apply delete_Permutation. Qed.

Lemma length_bind_insert {B} (f : Worker -> list B) l i w w' :
  l !! i = Some w ->
  (length (<[i := w']> l ≫= f) + length (f w) = length (l ≫= f) + length (f w'))%nat.
Proof.
  intros Hi. rewrite (bind_insert f l i w w' Hi), (bind_delete f l i w Hi), !length_app. lia.
Qed.

(** [tasks_total] after a change by [d] of the number of unfinished tasks. *)
Lemma total_shift x (n m : nat) d :
  x = u64 (Z.of_nat n) -> Z.of_nat m = Z.of_nat n + d -> u64 (x + d) = u64 (Z.of_nat m).
Proof. intros -> ->. by rewrite u64_add_l. Qed.

Lemma unfinished_length p :
  length (unfinished_tasks p) =
    (length (tasks p) + length (pushing p) + length (threads p ≫= in_run) + length (threads p ≫= uncounted))%nat.
Proof. unfold unfinished_tasks. rewrite !length_app. lia. Qed.

(** A worker step that only changes the state of worker [i] from [w] to [w'],
    neither of them with a task. *)
Lemma inv_move tr i w w' :
  threads (tr_pool tr) !! i = Some w -> in_run w = in_run w' -> uncounted w = uncounted w' ->
  pool_inv tr ->
  pool_inv (mkTrace (set_threads (tr_pool tr) (thread_count (tr_pool tr)) (<[i := w']> (threads (tr_pool tr))))
              (tr_pushed tr) (tr_entered tr) (tr_popped tr) (tr_executed tr)).
Proof.
  intros Hi Er Eu [Ht Hp He Hx Hf]. constructor; cbn [tr_pool tr_pushed tr_entered tr_popped tr_executed]; try done.
  - cbn [tasks_total set_threads]. rewrite Ht. rewrite !unfinished_length. cbn [tasks pushing threads set_threads].
    pose proof (length_bind_insert in_run _ i w w' Hi). pose proof (length_bind_insert uncounted _ i w w' Hi).
    rewrite Er in *. rewrite Eu in *. do 2 f_equal. lia.
  - cbn [threads set_threads]. rewrite Hx. rewrite (bind_insert in_run _ i w w' Hi), (bind_delete in_run _ i w Hi). by rewrite Er.
Qed.

Lemma app_nil4 tr : mkTrace (tr_pool tr) (tr_pushed tr ++ []) (tr_entered tr ++ []) (tr_popped tr ++ []) (tr_executed tr ++ []) = tr.
Proof. destruct tr. cbn. by rewrite !app_nil_r. Qed.

(** Reduces the projections of a state that was just built. *)
Ltac pool_cbn :=
  cbn [tr_pool tr_pushed tr_entered tr_popped tr_executed tasks tasks_total paused running thread_count threads
       pushing promises push_count set_tasks set_flags set_threads set_promises in_run uncounted length app] in *.

Lemma inv_worker tr i p' :
  pool_inv tr -> worker (tr_pool tr) i = Ret p' ->
  let '(a, b, c, d) := log_step (tr_pool tr) (TWorker i) in
  pool_inv (mkTrace p' (tr_pushed tr ++ a) (tr_entered tr ++ b) (tr_popped tr ++ c) (tr_executed tr ++ d)).
Proof.
  intros Hinv. unfold worker, log_step. destruct (threads (tr_pool tr) !! i) as [w|] eqn:Hi;
    [|intros E; simplify_eq; by rewrite app_nil4].
  destruct w as [| | |t|t|]; intros E; simplify_eq; rewrite ?app_nil_r.
  - eapply inv_move; [exact Hi| | |done]; by destruct (running _).
  - eapply inv_move; [exact Hi| | |done]; by destruct (paused _).
  - unfold pop_task. destruct (tasks (tr_pool tr)) as [|t ts] eqn:Et; cbn [option_list fmap option_fmap option_map fst].
    { rewrite app_nil_r. by eapply inv_move. }
    destruct Hinv as [Ht Hp He Hx Hf]. pose proof (length_bind_insert in_run _ i _ (WRun t) Hi) as L1.
    pose proof (length_bind_insert uncounted _ i _ (WRun t) Hi) as L2. pool_cbn.
    constructor; pool_cbn; try done.
    + rewrite Ht, !unfinished_length. pool_cbn. rewrite Et. pool_cbn. do 2 f_equal. lia.
    + rewrite He, Et. by rewrite <- app_assoc.
    + rewrite Hx. rewrite (bind_insert in_run _ i _ (WRun t) Hi), (bind_delete in_run _ i _ Hi). pool_cbn.
      rewrite <- app_assoc. f_equiv. by rewrite Permutation_app_comm.
  - apply bind_Ret in E as (p1 & E1 & E). destruct Hinv as [Ht Hp He Hx Hf].
    pose proof (length_bind_insert in_run _ i _ (WDone t) Hi) as L1.
    pose proof (length_bind_insert uncounted _ i _ (WDone t) Hi) as L2. pool_cbn.
    assert (p1 = set_promises (tr_pool tr) (promises (tr_pool tr) ++ option_list (future_of t))) as ->.
    { destruct t as [a []|a b]; cbn in E1; simplify_eq; [|done]. destruct (tr_pool tr). cbn. by rewrite app_nil_r. }
    simplify_eq. constructor; pool_cbn; try done.
    + rewrite Ht, !unfinished_length. pool_cbn. do 2 f_equal. lia.
    + rewrite Hx. rewrite (bind_insert in_run _ i _ (WDone t) Hi), (bind_delete in_run _ i _ Hi). pool_cbn. by rewrite <- app_assoc.
    + rewrite Hf, omap_app. by destruct t.
  - destruct Hinv as [Ht Hp He Hx Hf]. pose proof (length_bind_insert in_run _ i _ WLoop Hi) as L1.
    pose proof (length_bind_insert uncounted _ i _ WLoop Hi) as L2. pool_cbn.
    constructor; pool_cbn; try done.
    + eapply (total_shift _ _ _ (-1)); [exact Ht|]. rewrite !unfinished_length. pool_cbn. lia.
    + rewrite Hx. by rewrite (bind_insert in_run _ i _ WLoop Hi), (bind_delete in_run _ i _ Hi).
  - by destruct tr.
Qed.

Lemma exited_empty {B} (f : Worker -> list B) l : f WExited = [] -> forallb is_exited l = true -> l ≫= f = [].
Proof.
  intros Hf. induction l as [|w l IH]; [done|]. cbn [forallb]. intros [Hw Hl]%andb_true_iff.
  rewrite bind_cons, IH by done. destruct w; try done. by rewrite Hf.
Qed.

Lemma created_empty {B} (f : Worker -> list B) n : f WLoop = [] -> create_threads n ≫= f = [].
Proof.
  intros Hf. unfold create_threads. induction (Z.to_nat n) as [|k IH]; [done|].
  cbn [replicate]. by rewrite bind_cons, Hf, IH.
Qed.

Lemma inv_step tr ev tr' : pool_inv tr -> trace_step tr ev = Ret tr' -> pool_inv tr'.
Proof.
  intros Hinv E. unfold trace_step in E. apply bind_Ret in E as (p' & Ep & E). destruct ev as [t|i|i|b| |hw n w]; cbn in Ep.
  - simplify_eq. destruct Hinv as [Ht Hp He Hx Hf]. cbn in E. simplify_eq. constructor; pool_cbn; rewrite ?app_nil_r; try done.
    + eapply (total_shift _ _ _ 1); [exact Ht|]. rewrite !unfinished_length. pool_cbn. rewrite length_app. pool_cbn. lia.
    + rewrite Hp. by rewrite <- app_assoc.
  - simplify_eq. unfold push_queue in E. cbn [log_step] in E. destruct (pushing (tr_pool tr) !! i) as [t|] eqn:Ei; cbn in E; simplify_eq.
    + destruct Hinv as [Ht Hp He Hx Hf]. pose proof (delete_perm _ _ _ Ei) as Pd.
      constructor; pool_cbn; rewrite ?app_nil_r; try done.
      * rewrite Ht. rewrite !unfinished_length. pool_cbn. rewrite length_app. pool_cbn.
        apply Permutation_length in Pd. cbn [length] in Pd. do 2 f_equal. lia.
      * rewrite Hp, Pd at 1. by rewrite <- app_assoc.
      * rewrite He. by rewrite <- app_assoc.
    + by rewrite app_nil4.
  - pose proof (inv_worker tr i p' Hinv Ep) as Hw.
    destruct (log_step (tr_pool tr) (TWorker i)) as [[[a b] c] d]. by simplify_eq.
  - simplify_eq. cbn in E. simplify_eq. rewrite !app_nil_r. by destruct Hinv.
  - simplify_eq. cbn in E. simplify_eq. rewrite !app_nil_r. by destruct Hinv.
  - simplify_eq. cbn in E. simplify_eq. rewrite !app_nil_r. destruct (destroy_threads (tr_pool tr)) eqn:Ed.
    + destruct Hinv as [Ht Hp He Hx Hf]. unfold destroy_threads in Ed. constructor; unfold reset_finish; pool_cbn; try done.
      * rewrite Ht. rewrite !unfinished_length. pool_cbn. by rewrite !created_empty, !exited_empty.
      * rewrite Hx. by rewrite created_empty, exited_empty.
    + by destruct tr.
Qed.

Lemma pool_inv_run tr evs tr' : pool_inv tr -> trace_run tr evs = Ret tr' -> pool_inv tr'.
Proof.
  revert tr. induction evs as [|ev evs IH]; intros tr Hi E; cbn in E; [by simplify_eq|].
  apply bind_Ret in E as (tr1 & E1 & E). eapply IH; [|done]. by eapply inv_step.
Qed.

Lemma inv_init hw n : pool_inv (trace_init (thread_pool hw n)).
Proof.
  unfold trace_init, thread_pool. constructor; rewrite ?unfinished_length; pool_cbn; by rewrite ?created_empty.
Qed.

(** ** Returning *)

(** A function given to [push_task] does not throw. *)
Definition harmless (t : Task) : Prop := match t with Plain _ true => False | _ => True end.

Definition pushes_harmless (ev : TEvent) : Prop := match ev with TPush t => harmless t | _ => True end.

Definition all_harmless (p : Pool) : Prop := Forall harmless (unfinished_tasks p).

Lemma harmless_run p i t : all_harmless p -> threads p !! i = Some (WRun t) -> harmless t.
Proof.
  intros Hh Hi. unfold all_harmless, unfinished_tasks in Hh. rewrite !Forall_app in Hh.
  destruct Hh as (_ & _ & Hr & _). rewrite (bind_delete in_run _ i _ Hi) in Hr. cbn [in_run] in Hr.
  rewrite Forall_app, Forall_singleton in Hr. apply Hr.
Qed.

Lemma run_task_returns p t : harmless t -> returns (run_task p t).
Proof. destruct t as [a []|a b]; [done|by eexists|by eexists]. Qed.

Lemma worker_returns p i : all_harmless p -> returns (worker p i).
Proof.
  intros Hh. unfold worker. destruct (threads p !! i) as [[| | |t|t|]|] eqn:Hi; try by eexists.
  destruct (run_task_returns p t) as [p' E]; [by eapply harmless_run|]. rewrite E. by eexists.
Qed.

Lemma unfinished_move p n i w w' :
  threads p !! i = Some w -> in_run w = in_run w' -> uncounted w = uncounted w' ->
  unfinished_tasks (set_threads p n (<[i := w']> (threads p))) ≡ₚ unfinished_tasks p.
Proof.
  intros Hi Er Eu. unfold unfinished_tasks. pool_cbn.
  rewrite (bind_insert in_run _ i w w' Hi), (bind_delete in_run _ i w Hi).
  rewrite (bind_insert uncounted _ i w w' Hi), (bind_delete uncounted _ i w Hi). by rewrite Er, Eu.
Qed.

(** Where a task of the new state was in the old one. *)
Ltac where_from Hr Hu Hi :=
  let H := fresh in
  intros [H|[H|[H|H]]];
  try (apply (Hr _ _ _ _ Hi) in H as [H|H]); try (apply (Hu _ _ _ _ Hi) in H as [H|H]);
  cbn [in_run uncounted] in H; try (by apply elem_of_nil in H); try tauto;
  try (apply list_elem_of_singleton in H as ->).

(** No step brings in a task that was not pushed. *)
Lemma unfinished_step p ev p' t :
  pool_step p ev = Ret p' -> t ∈ unfinished_tasks p' -> t ∈ unfinished_tasks p \/ ev = TPush t.
Proof.
  assert (forall (l : list Worker) i w w', l !! i = Some w -> t ∈ <[i := w']> l ≫= in_run ->
    t ∈ in_run w' \/ t ∈ l ≫= in_run) as Hr.
  { intros l i w w' Hi. rewrite (bind_insert in_run l i w w' Hi), (bind_delete in_run l i w Hi). set_solver. }
  assert (forall (l : list Worker) i w w', l !! i = Some w -> t ∈ <[i := w']> l ≫= uncounted ->
    t ∈ uncounted w' \/ t ∈ l ≫= uncounted) as Hu.
  { intros l i w w' Hi. rewrite (bind_insert uncounted l i w w' Hi), (bind_delete uncounted l i w Hi). set_solver. }
  assert (forall (l : list Worker) i x, l !! i = Some (WRun x) -> x ∈ l ≫= in_run) as Hin.
  { intros l i x Hi. rewrite (bind_delete in_run l i _ Hi). cbn [in_run]. set_solver. }
  unfold unfinished_tasks. rewrite !elem_of_app. destruct ev as [x|i|i|b| |hw n w]; cbn [pool_step]; intros E.
  - simplify_eq. pool_cbn. rewrite elem_of_app, list_elem_of_singleton. naive_solver.
  - simplify_eq. unfold push_queue. destruct (pushing p !! i) as [x|] eqn:Ei; [|naive_solver]. pool_cbn.
    rewrite elem_of_app, list_elem_of_singleton. rewrite (delete_perm _ _ _ Ei) at 2. rewrite elem_of_cons. naive_solver.
  - unfold worker in E. destruct (threads p !! i) as [[| | |x|x|]|] eqn:Hi; simplify_eq; pool_cbn; try naive_solver.
    + destruct (running p); where_from Hr Hu Hi.
    + destruct (paused p); where_from Hr Hu Hi.
    + unfold pop_task. destruct (tasks p) as [|x ts] eqn:Et; pool_cbn; where_from Hr Hu Hi; rewrite ?elem_of_cons; first [tauto|left; left; left; reflexivity|rewrite <- Et; tauto].
    + apply bind_Ret in E as (p1 & E1 & E). assert (exists pr, p1 = set_promises p pr) as [pr ->].
      { destruct x as [a []|a b]; cbn in E1; simplify_eq; [exists (promises p1); by destruct p1|by eexists]. }
      simplify_eq. pool_cbn. specialize (Hin _ _ _ Hi). where_from Hr Hu Hi; tauto.
    + where_from Hr Hu Hi.
  - simplify_eq. naive_solver.
  - simplify_eq. naive_solver.
  - simplify_eq. destruct (destroy_threads p); [|naive_solver]. unfold reset_finish. pool_cbn.
    rewrite !created_empty by done. set_solver.
Qed.

Lemma harmless_step p ev p' : pushes_harmless ev -> all_harmless p -> pool_step p ev = Ret p' -> all_harmless p'.
Proof.
  intros Hev Hh E. apply Forall_forall. intros t Ht. destruct (unfinished_step p ev p' t E Ht) as [Hin|Hpush].
  - unfold all_harmless in Hh. rewrite Forall_forall in Hh. by apply Hh.
  - by subst ev.
Qed.

Lemma trace_step_returns tr ev : all_harmless (tr_pool tr) -> returns (trace_step tr ev).
Proof.
  intros Hh. unfold trace_step. assert (returns (pool_step (tr_pool tr) ev)) as [p' E].
  { destruct ev; cbn; try by eexists. by apply worker_returns. }
  rewrite E. cbn. destruct (log_step _ _) as [[[? ?] ?] ?]. by eexists.
Qed.

Lemma trace_step_pool tr ev tr' : trace_step tr ev = Ret tr' -> pool_step (tr_pool tr) ev = Ret (tr_pool tr').
Proof.
  unfold trace_step. intros E. apply bind_Ret in E as (p & E1 & E). destruct (log_step _ _) as [[[? ?] ?] ?]. by simplify_eq.
Qed.

Lemma trace_run_returns tr evs :
  Forall pushes_harmless evs -> all_harmless (tr_pool tr) ->
  exists tr', trace_run tr evs = Ret tr' /\ all_harmless (tr_pool tr').
Proof.
  intros Hev. revert tr. induction Hev as [|ev evs Hev _ IH]; intros tr Hh; cbn; [by exists tr|].
  destruct (trace_step_returns tr ev Hh) as [tr1 E]. rewrite E. cbn. apply IH.
  eapply harmless_step; [exact Hev|exact Hh|]. by apply trace_step_pool.
Qed.

(** ** One worker empties the queue *)

Lemma trace_run_app tr l1 l2 tr' :
  trace_run tr l1 = Ret tr' -> trace_run tr (l1 ++ l2) = trace_run tr' l2.
Proof.
  revert tr. induction l1 as [|ev l1 IH]; intros tr E; cbn in *; [by simplify_eq|].
  apply bind_Ret in E as (tr1 & E1 & E). rewrite E1. cbn. by apply IH.
Qed.

(** The five steps that run one task. *)
Lemma worker_round tr i t ts :
  threads (tr_pool tr) !! i = Some WLoop -> running (tr_pool tr) = true -> paused (tr_pool tr) = false ->
  tasks (tr_pool tr) = t :: ts -> harmless t ->
  exists tr', trace_run tr (replicate 5 (TWorker i)) = Ret tr' /\
    tasks (tr_pool tr') = ts /\ threads (tr_pool tr') = threads (tr_pool tr) /\
    running (tr_pool tr') = true /\ paused (tr_pool tr') = false /\
    tr_executed tr' = tr_executed tr ++ [t] /\ pushing (tr_pool tr') = pushing (tr_pool tr).
Proof.
  intros Hi Hr Hp Ht Hh. destruct tr as [p a b c d]. destruct p as [tks tot pa ru n th pu pr]. cbn in *. subst.
  assert (forall w, <[i := w]> th !! i = Some w) as Hl.
  { intros w. apply list_lookup_insert_eq. by eapply lookup_lt_Some. }
  unfold trace_step. cbn. unfold worker, log_step. cbn. rewrite Hi. cbn.
  do 2 (rewrite ?list_insert_insert_eq, ?Hl; cbn).
  destruct t as [x []|x e]; [done| |]; cbn; do 4 (rewrite ?list_insert_insert_eq, ?Hl; cbn);
    eexists; (split; [reflexivity|]); cbn;
    rewrite ?list_insert_insert_eq, (list_insert_id th i WLoop Hi), ?app_nil_r; done.
Qed.

Lemma worker_drains ts tr i :
  threads (tr_pool tr) !! i = Some WLoop -> running (tr_pool tr) = true -> paused (tr_pool tr) = false ->
  tasks (tr_pool tr) = ts -> Forall harmless ts ->
  exists tr', trace_run tr (replicate (5 * length ts) (TWorker i)) = Ret tr' /\
    tasks (tr_pool tr') = [] /\ threads (tr_pool tr') = threads (tr_pool tr) /\
    tr_executed tr' = tr_executed tr ++ ts /\ pushing (tr_pool tr') = pushing (tr_pool tr).
Proof.
  revert tr. induction ts as [|t ts IH]; intros tr Hi Hr Hp Ht Hh.
  { exists tr. cbn. by rewrite app_nil_r. }
  apply Forall_cons in Hh as [Hh Hhs].
  destruct (worker_round tr i t ts Hi Hr Hp Ht Hh) as (tr1 & E1 & Ht1 & Hth1 & Hr1 & Hp1 & Hx1 & Hu1).
  destruct (IH tr1) as (tr2 & E2 & Ht2 & Hth2 & Hx2 & Hu2); [by rewrite Hth1|done..|].
  exists tr2. replace (5 * length (t :: ts))%nat with (5 + 5 * length ts)%nat by (cbn [length]; lia).
  rewrite replicate_add, (trace_run_app _ _ _ _ E1). split; [done|]. split; [done|]. split; [congruence|].
  split; [|congruence]. rewrite Hx2, Hx1. by rewrite <- app_assoc.
Qed.

(** ** Properties *)

(** C36: every task runs once.  For every number of threads and every interleaving
    of the steps of [push_task], the workers, [paused], the end of [reset] and the
    stop of the pool, in which no function given to [push_task] throws: all steps
    return; the tasks pushed are exactly those executed, running, queued or being
    pushed; they leave the queue in the order in which they entered it; the futures
    set are those of the submitted functions executed, with an exception exactly
    when the function threw; and when [wait_for_tasks] returns (with fewer than
    2^64 unfinished tasks) no task is running, and if the pool is not paused every
    task pushed has been executed. *)
Theorem pool_runs_every_task_once (hw n : Z) (evs : list TEvent) (Hev : Forall pushes_harmless evs) :
  exists tr, trace_run (trace_init (thread_pool hw n)) evs = Ret tr /\
    (tr_pushed tr ≡ₚ tr_executed tr ++ (threads (tr_pool tr) ≫= in_run) ++ tasks (tr_pool tr) ++ pushing (tr_pool tr)) /\
    tr_entered tr = tr_popped tr ++ tasks (tr_pool tr) /\
    promises (tr_pool tr) = omap future_of (tr_executed tr) /\
    (Z.of_nat (length (unfinished_tasks (tr_pool tr))) < UINT64_MOD -> wait_for_tasks (tr_pool tr) = true ->
       threads (tr_pool tr) ≫= in_run = [] /\ (paused (tr_pool tr) = false -> tr_pushed tr ≡ₚ tr_executed tr)).
Proof.
  assert (all_harmless (tr_pool (trace_init (thread_pool hw n)))) as Hh.
  { unfold all_harmless, unfinished_tasks, trace_init, thread_pool. pool_cbn. rewrite !created_empty by done. constructor. }
  destruct (trace_run_returns _ evs Hev Hh) as (tr & E & _). exists tr. split; [done|].
  pose proof (pool_inv_run _ _ _ (inv_init hw n) E) as [Ht Hp He Hx Hf].
  assert (tr_pushed tr ≡ₚ tr_executed tr ++ (threads (tr_pool tr) ≫= in_run) ++ tasks (tr_pool tr) ++ pushing (tr_pool tr)) as Hall.
  { rewrite Hp, He, Hx. by rewrite <- !app_assoc. }
  split; [done|]. split; [done|]. split; [done|]. intros Hlt Hw.
  unfold wait_for_tasks, get_tasks_running, get_tasks_queued in Hw. rewrite Ht in Hw.
  rewrite unfinished_length in *. rewrite u64_small in Hw by (unfold is_u64; lia).
  destruct (paused (tr_pool tr)); cbn [negb] in Hw.
  - rewrite u64_small in Hw by (unfold is_u64; lia). apply Z.eqb_eq in Hw. split; [|done].
    apply nil_length_inv. lia.
  - apply Z.eqb_eq in Hw. assert (threads (tr_pool tr) ≫= in_run = []) as Hr by (apply nil_length_inv; lia).
    split; [done|]. intros _. rewrite Hall, Hr.
    assert (tasks (tr_pool tr) = []) as -> by (apply nil_length_inv; lia).
    assert (pushing (tr_pool tr) = []) as -> by (apply nil_length_inv; lia).
    cbn. by rewrite app_nil_r.
Qed.

End ThreadPool.

Arguments Task : clear implicits.
Arguments Pool : clear implicits.
Arguments Trace : clear implicits.
Arguments TEvent : clear implicits.

(** ** [parallelize_loop] *)

(** A signed 64-bit integer. *)
Definition i64 (x : Z) : Z := (x + 9223372036854775808) mod UINT64_MOD - 9223372036854775808.

(** The bounds of block [t]. *)
Definition loop_block (first last block_size num_blocks t : Z) : Z * Z :=
  (i64 (i64 (t *w block_size) + first),
   if t =? num_blocks -w 1 then i64 (last + 1) else i64 (i64 ((t +w 1) *w block_size) + first)).

(** The blocks [parallelize_loop] pushes, [T] being [std::int64_t]. *)
Definition parallelize_loop (first_index index_after_last num_blocks thread_count : Z) : outcome (list (Z * Z)) :=
  if first_index =? index_after_last then Ret []
  else
    let '(first, last) := if index_after_last <? first_index then (index_after_last, first_index)
                          else (first_index, index_after_last) in
    let last := i64 (last - 1) in
    let num_blocks := if num_blocks =? 0 then thread_count else num_blocks in
    let total_size := u64 (i64 (i64 (last - first) + 1)) in
    if num_blocks =? 0 then Fault DivisionByZero
    else
      let block_size := total_size / num_blocks in
      let '(block_size, num_blocks) :=
        if block_size =? 0 then (1, if 1 <? total_size then total_size else 1) else (block_size, num_blocks) in
      Ret (map (loop_block first last block_size num_blocks) (seqZ 0 num_blocks)).

Definition is_i64 (x : Z) : Prop := -9223372036854775808 <= x < 9223372036854775808.

Lemma i64_small x : is_i64 x -> i64 x = x.
Proof. unfold is_i64, i64, UINT64_MOD. intros. rewrite Z.mod_small; lia. Qed.

(** Equal blocks of [b] indices from [f] on, the last one up to [l]. *)
Lemma blocks_cover f l b n :
  0 < b -> (0 < n)%nat -> b * Z.of_nat n <= l - f ->
  flat_map (fun se => seqZ (fst se) (snd se - fst se))
    (map (fun t => (t * b + f, if t =? Z.of_nat n - 1 then l else (t + 1) * b + f)) (seqZ 0 (Z.of_nat n))) = seqZ f (l - f).
Proof.
  intros Hb Hn Hl. destruct n as [|k]; [lia|]. clear Hn.
  assert (forall m, (m <= k)%nat ->
    flat_map (fun se => seqZ (fst se) (snd se - fst se))
      (map (fun t => (t * b + f, if t =? Z.of_nat (S k) - 1 then l else (t + 1) * b + f)) (seqZ 0 (Z.of_nat m)))
    = seqZ f (Z.of_nat m * b)) as Hpre.
  { induction m as [|m IH]; intros Hm; [done|].
    rewrite seqZ_S, Z.add_0_l, map_app, flat_map_app, IH by lia.
    cbn [map flat_map fst snd]. rewrite app_nil_r. rewrite (proj2 (Z.eqb_neq _ _)) by lia.
    replace (Z.of_nat (S m) * b) with (Z.of_nat m * b + b) by lia. rewrite seqZ_app by nia.
    f_equal. f_equal; lia. }
  rewrite seqZ_S, Z.add_0_l, map_app, flat_map_app, Hpre by lia.
  cbn [map flat_map fst snd]. rewrite app_nil_r. rewrite (proj2 (Z.eqb_eq _ _)) by lia.
  replace (l - f) with (Z.of_nat k * b + (l - f - Z.of_nat k * b)) by lia. rewrite seqZ_app by nia.
  f_equal. f_equal; lia.
Qed.

(** The blocks without wrap-around. *)
Lemma loop_block_small f l b n t :
  is_i64 f -> is_i64 l -> f < l -> l - f < 9223372036854775808 -> 0 < b -> 0 <= t < n -> b * n <= l - f ->
  loop_block f (l - 1) b n t = (t * b + f, if t =? n - 1 then l else (t + 1) * b + f).
Proof.
  unfold is_i64. intros Hf Hl Hfl Hsz Hb Ht Hn. unfold loop_block.
  assert (0 <= t * b) by nia. assert ((t + 1) * b <= l - f) by nia. assert (t * b <= l - f) by nia.
  assert (n <= l - f) by nia.
  rewrite (u64_small (t * b)) by (unfold is_u64, UINT64_MOD; lia).
  rewrite (u64_small (t + 1)) by (unfold is_u64, UINT64_MOD; lia).
  rewrite (u64_small (_ * b)) by (unfold is_u64, UINT64_MOD; lia).
  rewrite (u64_small (n - 1)) by (unfold is_u64, UINT64_MOD; lia).
  rewrite (i64_small (t * b)) by (unfold is_i64; lia). rewrite (i64_small (t * b + f)) by (unfold is_i64; lia).
  rewrite (i64_small (_ * b)) by (unfold is_i64; lia). rewrite (i64_small (_ * b + f)) by (unfold is_i64; lia).
  by rewrite (i64_small (_ + 1)) by (unfold is_i64; lia); replace (l - 1 + 1) with l by lia.
Qed.

(** [parallelize_loop] splits the loop into blocks that cover every index of
    [first .. after_last - 1] exactly once and in order, none of them empty and at
    most as many as asked for.  With the bounds reversed it runs over the same
    indices, although its documentation says it is equivalent to a loop that would
    not run at all. *)
Theorem parallelize_loop_covers (first after_last num_blocks thread_count : Z)
    (Hf : is_i64 first) (Hl : is_i64 after_last) (Hfl : first < after_last) (Hsz : after_last - first < 9223372036854775808)
    (Hn : 0 <= num_blocks) (Ht : 0 < thread_count) :
  exists blocks, parallelize_loop first after_last num_blocks thread_count = Ret blocks /\
    flat_map (fun se => seqZ (fst se) (snd se - fst se)) blocks = seqZ first (after_last - first) /\
    Forall (fun se => fst se < snd se) blocks /\
    Z.of_nat (length blocks) <= (if num_blocks =? 0 then thread_count else num_blocks) /\
    parallelize_loop after_last first num_blocks thread_count = Ret blocks.
Proof.
  set (nb := if num_blocks =? 0 then thread_count else num_blocks).
  assert (0 < nb) as Hnb by (unfold nb; destruct (Z.eqb_spec num_blocks 0); lia).
  set (total := after_last - first).
  set (b := if total / nb =? 0 then 1 else total / nb).
  set (n := if total / nb =? 0 then (if 1 <? total then total else 1) else nb).
  assert (0 < b /\ 0 < n <= nb /\ b * n <= total) as (Hb & Hnn & Hbn).
  { unfold b, n, total. pose proof (Z.mul_div_le (after_last - first) nb Hnb).
    pose proof (Z.mod_pos_bound (after_last - first) nb Hnb). pose proof (Z.div_mod (after_last - first) nb).
    destruct (Z.eqb_spec ((after_last - first) / nb) 0) as [E|E].
    - rewrite E in *. destruct (Z.ltb_spec 1 (after_last - first)); nia.
    - assert (0 <= (after_last - first) / nb) by (apply Z.div_pos; lia). nia. }
  exists (map (fun t => (t * b + first, if t =? n - 1 then after_last else (t + 1) * b + first)) (seqZ 0 n)).
  assert (forall x y, x = after_last -> y = first -> (if x <? y then (x, y) else (y, x)) = (first, after_last)) as Hsw.
  { intros x y -> ->. by rewrite (proj2 (Z.ltb_ge _ _)) by lia. }
  assert (i64 (after_last - 1) = after_last - 1) as E1 by (apply i64_small; unfold is_i64 in *; lia).
  assert (u64 (i64 (i64 (after_last - 1 - first) + 1)) = total) as E2.
  { unfold total. rewrite (i64_small (after_last - 1 - first)) by (unfold is_i64; lia).
    rewrite i64_small by (unfold is_i64 in *; lia). rewrite u64_small by (unfold is_u64, UINT64_MOD; lia). lia. }
  assert (map (loop_block first (after_last - 1) b n) (seqZ 0 n) =
    map (fun t => (t * b + first, if t =? n - 1 then after_last else (t + 1) * b + first)) (seqZ 0 n)) as E3.
  { apply map_ext_in. intros t Hin%list_elem_of_In%elem_of_seqZ. apply loop_block_small; try done; lia. }
  split; [|split; [|split; [|split]]].
  - unfold parallelize_loop. rewrite (proj2 (Z.eqb_neq _ _)) by lia. rewrite (proj2 (Z.ltb_ge _ _)) by lia.
    fold nb. cbn beta zeta iota. rewrite E1, E2. rewrite (proj2 (Z.eqb_neq nb 0)) by lia.
    rewrite <- E3. unfold b, n. by destruct (total / nb =? 0).
  - pose proof (blocks_cover first after_last b (Z.to_nat n) Hb) as Hc. rewrite Z2Nat.id in Hc by lia. apply Hc; lia.
  - apply Forall_forall. intros se Hin. apply list_elem_of_fmap in Hin as (t & -> & Hin%elem_of_seqZ). cbn [fst snd].
    destruct (Z.eqb_spec t (n - 1)); nia.
  - rewrite length_map, length_seqZ. fold nb. lia.
  - unfold parallelize_loop. rewrite (proj2 (Z.eqb_neq _ _)) by lia. rewrite (proj2 (Z.ltb_lt first after_last)) by lia.
    fold nb. cbn beta zeta iota. rewrite E1, E2. rewrite (proj2 (Z.eqb_neq nb 0)) by lia.
    rewrite <- E3. unfold b, n. by destruct (total / nb =? 0).
Qed.

(** ** Witnesses *)

Lemma parallelize_loop_covers_witness :
  exists blocks, parallelize_loop 3 13 4 8 = Ret blocks /\
    flat_map (fun se => seqZ (fst se) (snd se - fst se)) blocks = seqZ 3 10.
Proof.
  destruct (parallelize_loop_covers 3 13 4 8) as (blocks & E & Hc & _);
    [unfold is_i64; lia|unfold is_i64; lia|lia|lia|lia|lia|]. exists blocks. split; [exact E|exact Hc].
Defined.

Definition demo_pool_events : list (TEvent nat) :=
  [TPush (Plain 1%nat false); TEnqueue 0; TPush (submit 2%nat true); TWorker 0; TWorker 1; TWorker 0; TEnqueue 0;
   TWorker 1; TWorker 0; TWorker 1; TWorker 1; TWorker 0; TWorker 0; TWorker 1].

Lemma pool_runs_every_task_once_witness :
  exists tr, trace_run (trace_init (thread_pool 8 2)) demo_pool_events = Ret tr /\
    tr_pushed tr ≡ₚ tr_executed tr /\ promises (tr_pool tr) = [(2%nat, false)].
Proof.
  destruct (pool_runs_every_task_once 8 2 demo_pool_events ltac:(repeat constructor)) as (tr & E & _ & _ & Hf & Hw).
  exists tr. split; [exact E|]. rewrite Hf. vm_compute in E. injection E as <-. split; [|reflexivity].
  apply Hw; vm_compute; reflexivity.
Defined.

