(* ===== verification/SyncedStream.v ===== *)
(** * The synchronized stream (thread_pool.hpp, class synced_stream)

    Threads print to one stream under a mutex; an item at a time reaches the stream.
    Under any interleaving of their steps the stream has whole calls one after the
    other. *)
From S2P Require Import Prelude.

(** ** State *)

(** A thread outside a call, waiting for the mutex with the items to print, or holding
    it with those not yet written. *)
Inductive Printer := PrIdle | PrWaiting (items : list string) | PrWriting (rest : list string).

(** [out_stream] has the items written so far; [calls] are the calls that have taken the
    mutex, in that order, with the thread that made them. *)
Record SyncedStream := mkStream { stream_mutex : option nat; out_stream : list string; printers : list Printer; calls : list (nat * list string) }.

(** ** Operations *)

Inductive StreamCall := Print (items : list string) | Println (items : list string).

Definition newline : string := String (Ascii.ascii_of_nat 10) EmptyString.

(** [println] prints its items and a newline. *)
Definition items_of (c : StreamCall) : list string := match c with Print items => items | Println items => items ++ [newline] end.

(** Thread [i] makes a call, or takes a step: it locks the mutex if nobody has it, writes
    the next item, or unlocks the mutex when there is none left. *)
Inductive StreamEvent := SEnter (i : nat) (c : StreamCall) | SAdvance (i : nat).

Definition set_printer (s : SyncedStream) (i : nat) (p : Printer) : list Printer := <[i := p]> (printers s).

Definition stream_step (s : SyncedStream) (ev : StreamEvent) : SyncedStream :=
  match ev with
  | SEnter i c =>
      match printers s !! i with
      | Some PrIdle => mkStream (stream_mutex s) (out_stream s) (set_printer s i (PrWaiting (items_of c))) (calls s)
      | _ => s
      end
  | SAdvance i =>
      match printers s !! i, stream_mutex s with
      | Some (PrWaiting items), None => mkStream (Some i) (out_stream s) (set_printer s i (PrWriting items)) (calls s ++ [(i, items)])
      | Some (PrWriting (x :: rest)), m => mkStream m (out_stream s ++ [x]) (set_printer s i (PrWriting rest)) (calls s)
      | Some (PrWriting []), _ => mkStream None (out_stream s) (set_printer s i PrIdle) (calls s)
      | _, _ => s
      end
  end.

Definition stream_run (n : nat) (evs : list StreamEvent) : SyncedStream := foldl stream_step (mkStream None [] (replicate n PrIdle) []) evs.

(** ** Correctness *)

(** Only the holder of the mutex writes; it has written all of its call but the rest. *)
Record stream_inv (s : SyncedStream) : Prop := mk_stream_inv {
  si_holder : forall i rest, printers s !! i = Some (PrWriting rest) -> stream_mutex s = Some i;
  si_free : stream_mutex s = None -> out_stream s = concat (calls s).*2;
  si_held : forall i, stream_mutex s = Some i -> exists before written rest, calls s = before ++ [(i, written ++ rest)] /\
    printers s !! i = Some (PrWriting rest) /\ out_stream s = concat before.*2 ++ written }.


(** A thread that does not hold the mutex changes where it is. *)
Lemma stream_inv_printer s i p : stream_inv s -> stream_mutex s <> Some i -> (forall rest, p <> PrWriting rest) ->
  stream_inv (mkStream (stream_mutex s) (out_stream s) (set_printer s i p) (calls s)).
Proof.
  intros [Hh Hf Hd] Hm Hp. constructor; cbn; [|done|].
  - intros j rest [(-> & E & _)|(_ & Hj)]%list_lookup_insert_Some; [by destruct (Hp rest)|by eapply Hh].
  - intros j Hj. destruct (Hd j Hj) as (before & written & rest & Ec & Ep & Eo). exists before, written, rest. split; [done|]. split; [|done].
    unfold set_printer. rewrite list_lookup_insert_ne; [done|]. congruence.
Qed.

Lemma stream_step_inv s ev : stream_inv s -> stream_inv (stream_step s ev).
Proof.
  intros I. pose proof I as [Hh Hf Hd]. destruct ev as [i c|i]; cbn [stream_step].
  - destruct (printers s !! i) as [[| |]|] eqn:Ei; try done. apply stream_inv_printer; [done| |done].
    intros Hm. destruct (Hd i Hm) as (? & ? & ? & _ & Ep & _). congruence.
  - destruct (printers s !! i) as [[|items|[|x rest]]|] eqn:Ei; try done.
    + destruct (stream_mutex s) as [j|] eqn:Em; [done|]. constructor; cbn; [|done|].
      * intros j rest [(-> & _)|(_ & Hj)]%list_lookup_insert_Some; [done|]. apply Hh in Hj. congruence.
      * intros j [= <-]. exists (calls s), [], items. split; [done|]. split; [apply list_lookup_insert_eq; by eapply lookup_lt_Some|].
        rewrite app_nil_r. by apply Hf.
    + pose proof (Hh _ _ Ei) as Em. destruct (Hd i Em) as (before & written & rest & Ec & Ep & Eo). rewrite Ei in Ep. injection Ep as <-. rewrite app_nil_r in Ec.
      constructor; cbn; [|intros _|done].
      * intros j rest [(_ & ? & _)|(Hne & Hj)]%list_lookup_insert_Some; [done|]. apply Hh in Hj. congruence.
      * rewrite Eo, Ec, fmap_app, concat_app. cbn. by rewrite app_nil_r.
    + pose proof (Hh _ _ Ei) as Em. destruct (Hd i Em) as (before & written & rest' & Ec & Ep & Eo). rewrite Ei in Ep. injection Ep as <-.
      constructor; cbn; [|by rewrite Em|].
      * intros j r [(-> & _)|(_ & Hj)]%list_lookup_insert_Some; [done|by eapply Hh].
      * intros j Hj. rewrite Em in Hj. injection Hj as <-. exists before, (written ++ [x]), rest. rewrite Ec, Eo, <- !app_assoc. cbn. split; [done|].
        split; [apply list_lookup_insert_eq; by eapply lookup_lt_Some|done].
Qed.

(** Whatever the interleaving, when nobody holds the mutex the stream has the items of
    the calls that took it, each call's together, in the order in which they took it;
    while a thread holds it, only that thread writes, and it has written a beginning of
    its call. *)
Theorem stream_prints_whole_calls n evs :
  let s := stream_run n evs in
  (stream_mutex s = None -> out_stream s = concat (calls s).*2) /\
  (forall i, stream_mutex s = Some i -> exists before written rest, calls s = before ++ [(i, written ++ rest)] /\ out_stream s = concat before.*2 ++ written) /\
  (forall i j r r', printers s !! i = Some (PrWriting r) -> printers s !! j = Some (PrWriting r') -> i = j).
Proof.
  assert (stream_inv (stream_run n evs)) as [Hh Hf Hd].
  { unfold stream_run. induction evs as [|ev evs IH] using rev_ind; [|rewrite foldl_app; by apply stream_step_inv].
    constructor; cbn; [|done|done]. intros i rest [? _]%lookup_replicate_1. done. }
  split; [done|]. split; [|intros i j r r' Hi%Hh Hj%Hh; congruence].
  intros i Hi. destruct (Hd i Hi) as (before & written & rest & Ec & _ & Eo). by exists before, written, rest.
Qed.
