(* ===== verification/Storage.v ===== *)
(** * What the volume server is built on

    - [vector]: a [std::vector] as its allocated storage and its size, with the
      unchecked [operator[]] (C++ standard library);
    - [LevelDB]: the database, a library outside the repository, as a class of
      operations; [LevelDBLaws] states the documented behaviour of [Get], [Put],
      [Delete] and of an iterator;
    - [MoveQueue]: the part of [moodycamel::ConcurrentQueue] the server uses,
      with the laws [MoveQueueLaws]: nothing is lost or invented, the order is
      left open.

    Each class has an instance that satisfies its laws. *)
From stdpp Require Import sorting gmultiset.
From S2P Require Import Prelude.

(** ** std::vector *)

(** [vec_buf] is the allocated storage, one slot per element of the capacity, and
    [vec_size] is [size()].  A slot is [None] when the object in it has been
    destroyed and its storage cannot be read as an object any more. *)
Record vector (A : Type) := mkVec { vec_buf : list (option A); vec_size : nat }.
Arguments mkVec {A}.
Arguments vec_buf {A}.
Arguments vec_size {A}.

Definition vec_empty {A} : vector A := mkVec [] 0.

(** [v.resize(n, x)] for [n >= v.size()] *)
Definition vec_resize {A} (v : vector A) (n : nat) (x : A) : vector A :=
  mkVec (take (vec_size v) (vec_buf v) ++ replicate (n - vec_size v) (Some x) ++ drop n (vec_buf v)) n.

(** [v.clear()]: the elements are destroyed, the storage stays allocated.
    [destroy] is what remains readable of a destroyed element. *)
Definition vec_clear {A} (destroy : A -> option A) (v : vector A) : vector A :=
  mkVec (map (fun s => s ≫= destroy) (take (vec_size v) (vec_buf v)) ++ drop (vec_size v) (vec_buf v)) 0.

(** [v[i]]: addresses the [i]-th slot of the storage, without looking at the
    size.  The language defines the result only for [i < v.size()]. *)
Definition vec_at {A} (v : vector A) (i : Z) : outcome A :=
  match vec_buf v !! Z.to_nat i with
  | Some (Some a) => Ret a
  | _ => Fault OutOfBounds
  end.

(** [v[i] = a] *)
Definition vec_set {A} (v : vector A) (i : Z) (a : A) : outcome (vector A) :=
  match vec_buf v !! Z.to_nat i with
  | Some (Some _) => Ret (mkVec (<[Z.to_nat i := Some a]> (vec_buf v)) (vec_size v))
  | _ => Fault OutOfBounds
  end.

(** ** std::set<std::string> *)

(** The iteration order of the set: lexicographic. *)
Definition string_le (a b : string) : Prop := String.leb a b = true.

#[export] Instance string_le_dec a b : Decision (string_le a b).
Proof. unfold string_le; apply _. Defined.

Definition set_iter (s : gset string) : list string := merge_sort string_le (elements s).

(** A destroyed empty set owns no node: its header can still be read. *)
Definition set_destroy (s : gset string) : option (gset string) :=
  if decide (s = ∅) then Some ∅ else None.

(** ** LevelDB *)

(** The boolean of a write is [Status::ok()]; [db_get] is [None] when the status
    of [Get] is not ok. *)
Class LevelDB (DB : Type) := {
  db_get : DB -> string -> option string;
  db_put : DB -> string -> string -> bool * DB;
  db_delete : DB -> string -> bool * DB;
  db_keys : DB -> list string }.

Class LevelDBLaws (DB : Type) `{!LevelDB DB} : Prop := {
  db_get_put : forall d k v k',
    db_get (snd (db_put d k v)) k' = if decide (k = k') then Some v else db_get d k';
  db_get_delete : forall d k k',
    db_get (snd (db_delete d k)) k' = if decide (k = k') then None else db_get d k';
  db_keys_spec : forall d k, k ∈ db_keys d <-> is_Some (db_get d k) }.

(** A finite map. *)
#[export] Instance gmap_LevelDB : LevelDB (gmap string string) := {|
  db_get d k := d !! k;
  db_put d k v := (true, <[k := v]> d);
  db_delete d k := (true, delete k d);
  db_keys d := (map_to_list d).*1 |}.

#[export] Instance gmap_LevelDBLaws : LevelDBLaws (gmap string string).
Proof.
  split; intros; simpl.
  - rewrite lookup_insert. by case_decide.
  - rewrite lookup_delete. by case_decide.
  - rewrite list_elem_of_fmap. split.
    + intros ([k' v] & -> & H). apply elem_of_map_to_list in H. by exists v.
    + intros [v H]. exists (k, v). by rewrite elem_of_map_to_list.
Qed.

(** ** The queue of keys to move *)

Class MoveQueue (Q : Type) := {
  q_empty : Q;
  enqueue : Q -> string -> Q;
  try_dequeue : Q -> option (string * Q) }.

(** [q_elems] is the content of the queue up to order. *)
Class MoveQueueLaws (Q : Type) `{!MoveQueue Q} := {
  q_elems : Q -> gmultiset string;
  q_elems_empty : q_elems q_empty = ∅;
  q_elems_enqueue : forall q x, q_elems (enqueue q x) = {[+ x +]} ⊎ q_elems q;
  try_dequeue_Some : forall q x q', try_dequeue q = Some (x, q') -> q_elems q = {[+ x +]} ⊎ q_elems q';
  try_dequeue_None : forall q, try_dequeue q = None <-> q_elems q = ∅ }.

(** A first-in first-out list. *)
#[export] Instance list_MoveQueue : MoveQueue (list string) := {|
  q_empty := [];
  enqueue q x := q ++ [x];
  try_dequeue q := match q with [] => None | x :: q => Some (x, q) end |}.

#[export] Program Instance list_MoveQueueLaws : MoveQueueLaws (list string) := {|
  q_elems q := list_to_set_disj q |}.
Next Obligation. done. Qed.
Next Obligation. intros q x. simpl. rewrite list_to_set_disj_app. simpl. multiset_solver. Qed.
Next Obligation. intros [|y q] x q' H; simplify_eq/=. done. Qed.
Next Obligation. intros [|y q]; simpl; split; try done. multiset_solver. Qed.

(** ** Lemmas *)

Lemma vec_at_Ret {A} (v : vector A) i a :
  vec_at v i = Ret a <-> vec_buf v !! Z.to_nat i = Some (Some a).
Proof. unfold vec_at. destruct (vec_buf v !! Z.to_nat i) as [[]|]; naive_solver. Qed.

Lemma vec_set_Ret {A} (v : vector A) i a b :
  vec_at v i = Ret a ->
  vec_set v i b = Ret (mkVec (<[Z.to_nat i := Some b]> (vec_buf v)) (vec_size v)).
Proof. rewrite vec_at_Ret. unfold vec_set. by intros ->. Qed.

Lemma vec_at_set {A} (v v' : vector A) i j b :
  vec_set v i b = Ret v' -> 0 <= i -> 0 <= j ->
  vec_at v' j = if decide (i = j) then Ret b else vec_at v j.
Proof.
  unfold vec_set. intros H Hi Hj. destruct (vec_buf v !! Z.to_nat i) as [[c|]|] eqn:E; simplify_eq.
  unfold vec_at. simpl. case_decide as D.
  - subst. rewrite list_lookup_insert_eq; [done|]. by eapply lookup_lt_Some.
  - by rewrite list_lookup_insert_ne by lia.
Qed.

(** Every slot below [n] holds an object. *)
Definition vec_full {A} (n : Z) (v : vector A) : Prop :=
  forall i, 0 <= i < n -> exists a, vec_at v i = Ret a.

Lemma vec_full_set {A} n (v v' : vector A) i b :
  vec_set v i b = Ret v' -> 0 <= i -> vec_full n v -> vec_full n v'.
Proof.
  intros H Hi Hf j Hj. rewrite (vec_at_set _ _ _ _ _ H) by lia. case_decide; eauto.
Qed.

Lemma set_iter_elem s k : k ∈ set_iter s <-> k ∈ s.
Proof. unfold set_iter. by rewrite merge_sort_Permutation, elem_of_elements. Qed.

Lemma vec_resize_fresh {A} (n : nat) (x : A) i :
  0 <= i < Z.of_nat n -> vec_at (vec_resize vec_empty n x) i = Ret x.
Proof.
  intros Hi. apply vec_at_Ret. simpl. rewrite drop_nil, app_nil_r, Nat.sub_0_r.
  apply lookup_replicate_2. lia.
Qed.

Lemma set_iter_nodup s : NoDup (set_iter s).
Proof. unfold set_iter. rewrite merge_sort_Permutation. apply NoDup_elements. Qed.

Lemma multiplicity_nodup (k : string) l :
  NoDup l -> multiplicity k (list_to_set_disj l) = if decide (k ∈ l) then 1%nat else 0%nat.
Proof.
  induction 1 as [|x l Hx _ IH]; simpl; [done|].
  rewrite multiplicity_disj_union, IH. destruct (decide (k = x)) as [->|Hne].
  - rewrite multiplicity_singleton. repeat case_decide; try done; set_solver.
  - rewrite multiplicity_singleton_ne by done. repeat case_decide; try done; set_solver.
Qed.
