(* ===== verification/MoveQueueImpl.v ===== *)
(** * The queue of keys to move is a [ConcurrentQueue]

    The volume server is proved against [MoveQueueLaws] of Storage.v, and uses the
    queue of Queue.v with its elements being keys.  This file joins the two: the
    queue, called by any threads, obeys those laws, as long as memory can be allocated
    and the counters do not overflow. *)
From stdpp Require Import gmultiset.
From S2P Require Import Prelude QueueDetails QueueBlock Producer ImplicitProducer ImplicitIndex ImplicitSpec ImplicitTrace ExplicitProducer ProducerHash Queue QueueSpec QueueThreads QueueRuns QueueTrace Storage.

(** The keys of all sub-queues. *)
Definition elems (s : gmap Owner (list string)) : gmultiset string := list_to_set_disj (concat (map_to_list s).*2).

(** The queue has [n] producers and holds the keys [m]. *)
Definition queue_holds (q : ConcurrentQueue string) (n : nat) (m : gmultiset string) : Prop :=
  healthy q /\ exists qs bss M, queue_rep q qs bss M /\ length qs = n /\ m = elems (view M qs).

(** The counters have room for one more. *)
Definition fits (n : nat) (m : gmultiset string) : Prop :=
  Z.of_nat n + 1 < UINT_MOD /\ Z.of_nat (size m) + 33 < 9223372036854775808.

Lemma elems_split s id : elems s = list_to_set_disj (fifo_of s id) ⊎ elems (delete id s).
Proof.
  unfold elems, fifo_of. rewrite <- list_to_set_disj_app. apply list_to_set_disj_perm. destruct (s !! id) as [l|] eqn:E; cbn.
  - rewrite <- (map_to_list_delete s id l E). done.
  - by rewrite delete_id.
Qed.

Lemma elems_insert s id l : elems (<[id := l]> s) = list_to_set_disj l ⊎ elems (delete id s).
Proof. rewrite (elems_split _ id). unfold fifo_of. by rewrite lookup_insert_eq, delete_insert_eq. Qed.

Lemma elems_push s id key : elems (<[id := fifo_of s id ++ [key]]> s) = {[+ key +]} ⊎ elems s.
Proof.
  rewrite elems_insert, (elems_split s id), list_to_set_disj_app. change (list_to_set_disj [key]) with ({[+ key +]} ⊎ ∅ : gmultiset string).
  generalize (list_to_set_disj (fifo_of s id) : gmultiset string) (elems (delete id s)). multiset_solver.
Qed.

Lemma elems_pop s id key l : s !! id = Some (key :: l) -> elems s = {[+ key +]} ⊎ elems (<[id := l]> s).
Proof.
  intros E. rewrite elems_insert, (elems_split s id). unfold fifo_of. rewrite E.
  apply (eq_sym (gmultiset_disj_union_assoc _ _ _)).
Qed.

Lemma size_disj (l : list string) : size (list_to_set_disj l : gmultiset string) = length l.
Proof.
  induction l as [|x l IH]; [done|].
  change (size ({[+ x +]} ⊎ list_to_set_disj l : gmultiset string) = S (length l)).
  by rewrite gmultiset_size_disj_union, gmultiset_size_singleton, IH.
Qed.

Lemma elems_length (s : gmap Owner (list string)) id l : s !! id = Some l -> (length l <= size (elems s))%nat.
Proof.
  intros Hl. rewrite (elems_split s id). unfold fifo_of. rewrite Hl. cbn. rewrite gmultiset_size_disj_union, size_disj. lia.
Qed.

