(* ===== verification/VolumeServer.v ===== *)
(** * The volume server (server/volume_server/)

    State, constructor, the handlers [Get], [Put] and [Delete], and the two
    background threads: [fetchSMConfig], which follows the configuration of the
    shard master and registers the keys of the shards taken away, and [moveKeys],
    which hands these keys to the pool; the task of the pool sends a key to its
    new server and deletes it here when the new server answers OK.

    A remote call is an argument: the answers of the shard master to
    [fetchSMConfig], the status of [Put] on the new server to [move_task_done].
    Each handler runs as one step here; VolumeServerConc interleaves the steps of
    concurrent [Put]s and Cluster the servers. *)
From S2P Require Import Prelude Shard Rpc Hash Storage.

Definition NUM_CHUNKS : Z := 1000.

Definition KEY_NOT_FOUND : string := "Key not found!".
Definition KEY_EXISTS : string := "Key already exists!".
Definition BAD_REQUEST : string := "Wrong volume server for key!".

(** What the lambda pushed to the pool captures. *)
Record MoveTask := mkTask {
  task_addr : string; task_key : string; task_value : string; task_shard : Z }.

#[export] Instance MoveTask_eq_dec : EqDecision MoveTask.
Proof. solve_decision. Defined.

Section VolumeServer.
Context `{!KeyHash} {DB : Type} `{!LevelDB DB} {Q : Type} `{!MoveQueue Q}.

Record VolumeServer := mkVS {
  db_idx : Z;
  self_addr : string;                      (* vs_addr *)
  db : DB;
  vs_config_num : Z;                       (* config_num *)
  config : list SMConfigEntry;
  my_config : SMConfigEntry;
  mod_map : vector (gset string);          (* maps shards to respective keys *)
  move_queue : Q;
  to_move : vector (string * Z);           (* maps ith shard to vs_addr with config_num *)
  tpool : list MoveTask }.                 (* tasks waiting in the pool *)

Definition set_db (vs : VolumeServer) (d : DB) : VolumeServer :=
  mkVS (db_idx vs) (self_addr vs) d (vs_config_num vs) (config vs) (my_config vs)
       (mod_map vs) (move_queue vs) (to_move vs) (tpool vs).
Definition set_configs (vs : VolumeServer) (n : Z) (c : list SMConfigEntry) (mine : SMConfigEntry) : VolumeServer :=
  mkVS (db_idx vs) (self_addr vs) (db vs) n c mine (mod_map vs) (move_queue vs) (to_move vs) (tpool vs).
Definition set_mod_map (vs : VolumeServer) (m : vector (gset string)) : VolumeServer :=
  mkVS (db_idx vs) (self_addr vs) (db vs) (vs_config_num vs) (config vs) (my_config vs)
       m (move_queue vs) (to_move vs) (tpool vs).
Definition set_queue (vs : VolumeServer) (q : Q) : VolumeServer :=
  mkVS (db_idx vs) (self_addr vs) (db vs) (vs_config_num vs) (config vs) (my_config vs)
       (mod_map vs) q (to_move vs) (tpool vs).
Definition set_to_move (vs : VolumeServer) (t : vector (string * Z)) : VolumeServer :=
  mkVS (db_idx vs) (self_addr vs) (db vs) (vs_config_num vs) (config vs) (my_config vs)
       (mod_map vs) (move_queue vs) t (tpool vs).
Definition set_tpool (vs : VolumeServer) (t : list MoveTask) : VolumeServer :=
  mkVS (db_idx vs) (self_addr vs) (db vs) (vs_config_num vs) (config vs) (my_config vs)
       (mod_map vs) (move_queue vs) (to_move vs) t.

(** ** mod_map *)

(** [this->mod_map[shard].insert(key)] *)
Definition mod_map_insert (m : vector (gset string)) (shard : Z) (key : string) : outcome (vector (gset string)) :=
  s ← vec_at m shard;
  vec_set m shard ({[key]} ∪ s).

(** [this->mod_map[shard].erase(key)] *)
Definition mod_map_erase (m : vector (gset string)) (shard : Z) (key : string) : outcome (vector (gset string)) :=
  s ← vec_at m shard;
  vec_set m shard (s ∖ {[key]}).

(** The iterator loop of [formModMap]. *)
Fixpoint formModMap_loop (m : vector (gset string)) (keys : list string) : outcome (vector (gset string)) :=
  match keys with
  | [] => Ret m
  | key :: keys =>
      m' ← mod_map_insert m (shard_mod key) key;
      formModMap_loop m' keys
  end.

Definition formModMap (vs : VolumeServer) : outcome VolumeServer :=
  m ← formModMap_loop (vec_clear set_destroy (mod_map vs)) (db_keys (db vs));
  Ret (set_mod_map vs m).

(** ** Construction *)

(** [requestJoin], given the answer of the shard master. *)
Definition requestJoin (vs : VolumeServer) (status : Status) : outcome VolumeServer :=
  if ok status then Ret (set_configs vs 0 [] (my_config vs)) else Fault ProcessExit.

(** The constructor, given the opened database and the answer to [Join]. *)
Definition construct (idx : Z) (addr : string) (d : DB) (status : Status) : outcome VolumeServer :=
  let vs := mkVS idx addr d 0 [] (mkEntry [] "") vec_empty q_empty vec_empty [] in
  vs ← requestJoin vs status;
  let vs := set_to_move vs (vec_resize (to_move vs) (Z.to_nat (NUM_CHUNKS + 1)) (""%string, 0)) in
  let vs := set_mod_map vs (vec_resize (mod_map vs) (Z.to_nat (NUM_CHUNKS + 1)) ∅) in
  formModMap vs.

(** ** Handlers *)

Definition isMyKey (vs : VolumeServer) (key : string) : bool :=
  existsb (contains (shard_mod key)) (shards (my_config vs)).

Definition Get (vs : VolumeServer) (req : GetRequest) : Status * GetResponse :=
  if negb (isMyKey vs (get_key req)) then
    (mkStatus INVALID_ARGUMENT BAD_REQUEST, mkGetResponse "" "")
  else match db_get (db vs) (get_key req) with
       | None => (mkStatus NOT_FOUND KEY_NOT_FOUND, mkGetResponse "" "")
       | Some value => (status_OK, mkGetResponse (get_key req) value)
       end.

(** The status of the database's [Put] is not looked at. *)
Definition Put (vs : VolumeServer) (req : PutRequest) : outcome (Status * VolumeServer) :=
  if negb (isMyKey vs (put_key req)) then Ret (mkStatus INVALID_ARGUMENT BAD_REQUEST, vs)
  else match db_get (db vs) (put_key req) with
       | Some _ => Ret (mkStatus ALREADY_EXISTS KEY_EXISTS, vs)
       | None =>
           let vs := set_db vs (snd (db_put (db vs) (put_key req) (put_value req))) in
           m ← mod_map_insert (mod_map vs) (shard_mod (put_key req)) (put_key req);
           Ret (status_OK, set_mod_map vs m)
       end.

Definition Delete (vs : VolumeServer) (req : DeleteRequest) : outcome (Status * VolumeServer) :=
  if negb (isMyKey vs (del_key req)) then Ret (mkStatus INVALID_ARGUMENT BAD_REQUEST, vs)
  else match db_get (db vs) (del_key req) with
       | None => Ret (mkStatus NOT_FOUND KEY_NOT_FOUND, vs)
       | Some _ =>
           let vs := set_db vs (snd (db_delete (db vs) (del_key req))) in
           m ← mod_map_erase (mod_map vs) (shard_mod (del_key req)) (del_key req);
           Ret (status_OK, set_mod_map vs m)
       end.

(** ** Following the configuration *)

(** [for (uint n = lower; n <= upper; ++n)]: the values of [n] the body sees.
    The counter wraps, so the loop does not end when [upper] is [UINT_MAX]. *)
Fixpoint chunk_loop (fuel : nat) (n upper : Z) : outcome (list Z) :=
  match fuel with
  | O => Fault Diverges
  | S fuel =>
      if n <=? upper then
        rest ← chunk_loop fuel (n +u 1) upper;
        Ret (n :: rest)
      else Ret []
  end.

(** One more iteration than there are chunks in the shard. *)
Definition chunk_fuel (s : SMShard) : nat := S (Z.to_nat (upper s - lower s + 1)).

(** The two inner loops of [calcNegativeDiff]: one entry of [removed] per shard of
    the previous configuration that held the chunk. *)
Definition diff_chunk (prev : SMConfigEntry) (addr : string) (n : Z) : list (Z * string) :=
  map (fun _ => (n, addr)) (List.filter (contains n) (shards prev)).

Fixpoint diff_shards (prev : SMConfigEntry) (addr : string) (l : list SMShard) : outcome (list (Z * string)) :=
  match l with
  | [] => Ret []
  | shard :: l =>
      chunks ← chunk_loop (chunk_fuel shard) (lower shard) (upper shard);
      rest ← diff_shards prev addr l;
      Ret (flat_map (diff_chunk prev addr) chunks ++ rest)
  end.

Fixpoint diff_config (prev : SMConfigEntry) (cfg : list SMConfigEntry) : outcome (list (Z * string)) :=
  match cfg with
  | [] => Ret []
  | e :: cfg =>
      if decide (vs_addr e = vs_addr prev) then diff_config prev cfg
      else
        removed ← diff_shards prev (vs_addr e) (shards e);
        rest ← diff_config prev cfg;
        Ret (removed ++ rest)
  end.

Definition calcNegativeDiff (vs : VolumeServer) (my_prev_config : SMConfigEntry) : outcome (list (Z * string)) :=
  diff_config my_prev_config (config vs).

(** [for (key : keys) this->move_queue.enqueue(key);] *)
Definition enqueue_all (q : Q) (keys : list string) : Q := fold_left enqueue keys q.

(** The body of the loop of [updateToMove]. *)
Definition updateToMove_one (vs : VolumeServer) (r : Z * string) : outcome VolumeServer :=
  let '(cur_shard, addr) := r in
  tm ← vec_at (to_move vs) cur_shard;
  if snd tm <? vs_config_num vs then
    t ← vec_set (to_move vs) cur_shard (addr, vs_config_num vs);
    keys ← vec_at (mod_map vs) cur_shard;
    Ret (set_queue (set_to_move vs t) (enqueue_all (move_queue vs) (set_iter keys)))
  else Ret vs.

Fixpoint updateToMove (vs : VolumeServer) (removed : list (Z * string)) : outcome VolumeServer :=
  match removed with
  | [] => Ret vs
  | r :: removed => vs' ← updateToMove_one vs r; updateToMove vs' removed
  end.

Definition read_shard (s : Shard) : SMShard := mkShard (pb_lower s) (pb_upper s).

Definition read_entry (e : ConfigEntry) : SMConfigEntry :=
  mkEntry (map read_shard (pb_shards e)) (pb_server_addr e).

(** The loop of [fetchSMConfig] over the entries of the answer: the new
    configuration and the last entry with the server's own address, if any. *)
Fixpoint read_config (self : string) (mine : SMConfigEntry) (l : list ConfigEntry) : SMConfigEntry * list SMConfigEntry :=
  match l with
  | [] => (mine, [])
  | e :: l =>
      let smce := read_entry e in
      let mine := if decide (self = vs_addr smce) then smce else mine in
      let '(mine, cfg) := read_config self mine l in
      (mine, smce :: cfg)
  end.

(** One tick: [num_answer] is the answer to [QueryConfigNum], [query_answer] the
    answer to [Query], which is asked for only when the number is larger than the
    known one; the [assert] after it looks at the status of the first call. *)
Definition fetchSMConfig (vs : VolumeServer) (num_answer : Status * QueryConfigNumResponse)
    (query_answer : Status * QueryResponse) : outcome VolumeServer :=
  let '(status, response) := num_answer in
  if negb (ok status) then Fault ProcessExit
  else if vs_config_num vs <? pb_config_num response then
    if negb (ok status) then Fault AssertFailed
    else
      let my_prev_config := my_config vs in
      let '(mine, cfg) := read_config (self_addr vs) (my_config vs) (pb_config (snd query_answer)) in
      let vs := set_configs vs (pb_config_num response) cfg mine in
      removed ← calcNegativeDiff vs my_prev_config;
      updateToMove vs removed
  else Ret vs.

(** ** Moving keys *)

(** One iteration of the loop of [moveKeys]. *)
Definition moveKeys_iter (vs : VolumeServer) : outcome VolumeServer :=
  match try_dequeue (move_queue vs) with
  | None => Ret vs
  | Some (key, q) =>
      let vs := set_queue vs q in
      match db_get (db vs) key with
      | None => Ret (set_queue vs (enqueue (move_queue vs) key))
      | Some value =>
          tm ← vec_at (to_move vs) (shard_mod key);
          Ret (set_tpool vs (tpool vs ++ [mkTask (fst tm) key value (shard_mod key)]))
      end
  end.

(** The request the task sends. *)
Definition task_request (t : MoveTask) : PutRequest := mkPutRequest (task_key t) (task_value t).

(** The rest of the task, once [Put] on the new server has answered. *)
Definition move_task_done (vs : VolumeServer) (t : MoveTask) (status : Status) : outcome VolumeServer :=
  if ok status then
    let vs := set_db vs (snd (db_delete (db vs) (task_key t))) in
    m ← mod_map_erase (mod_map vs) (task_shard t) (task_key t);
    Ret (set_mod_map vs m)
  else Ret (set_queue vs (enqueue (move_queue vs) (task_key t))).

End VolumeServer.

Arguments VolumeServer DB Q : clear implicits.
