(* ===== verification/VolumeServerSpec.v ===== *)
(** * What the volume server promises

    [vs_inv] is the consistency the code asks for in a comment ("IMP keep it
    consistent with leveldb"): the slot of chunk [i] of [mod_map] is the set of
    the stored keys whose chunk is [i].  The constructor establishes it for any
    database found on disk and every operation preserves it.  The handlers refine
    an abstract store with an ownership test.  The difference of two
    configurations and the keys it puts in the queue are characterised exactly. *)
From stdpp Require Import gmultiset.
From S2P Require Import Prelude Shard Rpc Hash Storage VolumeServer.

(** ** The abstract store *)

Record KV := mkKV { owned : string -> bool; store : string -> option string }.

Inductive kv_op := OGet (k : string) | OPut (k v : string) | ODelete (k v : string).

Definition upd (f : string -> option string) (k : string) (o : option string) : string -> option string :=
  fun k' => if decide (k = k') then o else f k'.

(** The status code of an operation, the value it returns and the new store. *)
Definition kv_step (s : KV) (op : kv_op) : (StatusCode * string) * KV :=
  match op with
  | OGet k =>
      if negb (owned s k) then ((INVALID_ARGUMENT, ""), s)
      else match store s k with None => ((NOT_FOUND, ""), s) | Some v => ((OK, v), s) end
  | OPut k v =>
      if negb (owned s k) then ((INVALID_ARGUMENT, ""), s)
      else match store s k with
           | Some _ => ((ALREADY_EXISTS, ""), s)
           | None => ((OK, ""), mkKV (owned s) (upd (store s) k (Some v)))
           end
  | ODelete k _ =>
      if negb (owned s k) then ((INVALID_ARGUMENT, ""), s)
      else match store s k with
           | None => ((NOT_FOUND, ""), s)
           | Some _ => ((OK, ""), mkKV (owned s) (upd (store s) k None))
           end
  end.

Fixpoint kv_run (s : KV) (ops : list kv_op) : list (StatusCode * string) * KV :=
  match ops with
  | [] => ([], s)
  | op :: ops =>
      let '(r, s') := kv_step s op in
      let '(rs, s'') := kv_run s' ops in (r :: rs, s'')
  end.

Section Spec.
Context `{!KeyHash} {DB : Type} `{!LevelDB DB} `{!LevelDBLaws DB}.
Context {Q : Type} `{!MoveQueue Q} `{!MoveQueueLaws Q}.

(** ** The implementation on the same operations *)

Definition vs_step (vs : VolumeServer DB Q) (op : kv_op) : outcome ((StatusCode * string) * VolumeServer DB Q) :=
  match op with
  | OGet k => let '(st, res) := Get vs (mkGetRequest k) in Ret ((error_code st, res_value res), vs)
  | OPut k v => '(st, vs') ← Put vs (mkPutRequest k v); Ret ((error_code st, ""%string), vs')
  | ODelete k v => '(st, vs') ← Delete vs (mkDeleteRequest k v); Ret ((error_code st, ""%string), vs')
  end.

Fixpoint vs_run (vs : VolumeServer DB Q) (ops : list kv_op) : outcome (list (StatusCode * string) * VolumeServer DB Q) :=
  match ops with
  | [] => Ret ([], vs)
  | op :: ops =>
      '(r, vs') ← vs_step vs op;
      '(rs, vs'') ← vs_run vs' ops;
      Ret (r :: rs, vs'')
  end.

(** ** The invariant *)

Record vs_inv (vs : VolumeServer DB Q) : Prop := mk_vs_inv {
  inv_mod_full : vec_full (NUM_CHUNKS + 1) (mod_map vs);
  inv_to_full : vec_full (NUM_CHUNKS + 1) (to_move vs);
  inv_to_num : forall i p, 0 <= i < NUM_CHUNKS + 1 -> vec_at (to_move vs) i = Ret p -> snd p <= vs_config_num vs;
  inv_pool : Forall (fun t => task_shard t = shard_mod (task_key t)) (tpool vs);
  inv_mod_db : forall i s k, 0 <= i < NUM_CHUNKS + 1 -> vec_at (mod_map vs) i = Ret s ->
    (k ∈ s <-> shard_mod k = i /\ is_Some (db_get (db vs) k)) }.

(** The server represents the store. *)
Record vs_refines (vs : VolumeServer DB Q) (s : KV) : Prop := mk_vs_refines {
  ref_owned : forall k, owned s k = isMyKey vs k;
  ref_store : forall k, store s k = db_get (db vs) k }.

(** ** mod_map *)

Lemma chunk_range k : 0 <= shard_mod k < NUM_CHUNKS + 1.
Proof. pose proof (shard_mod_range k). unfold NUM_CHUNKS. lia. Qed.

Lemma mod_map_insert_spec m i k :
  vec_full (NUM_CHUNKS + 1) m -> 0 <= i < NUM_CHUNKS + 1 ->
  exists s m', vec_at m i = Ret s /\ mod_map_insert m i k = Ret m' /\ vec_full (NUM_CHUNKS + 1) m' /\
    forall j, 0 <= j -> vec_at m' j = if decide (i = j) then Ret ({[k]} ∪ s) else vec_at m j.
Proof.
  intros Hf Hi. destruct (Hf i Hi) as [s Hs]. unfold mod_map_insert. rewrite Hs. cbn [mbind outcome_bind].
  pose proof (vec_set_Ret m i s ({[k]} ∪ s) Hs) as E. rewrite E. do 2 eexists. split; [done|].
  split; [done|]. split; [eapply vec_full_set; eauto; lia|].
  intros j Hj. eapply vec_at_set; eauto; lia.
Qed.

Lemma mod_map_erase_spec m i k :
  vec_full (NUM_CHUNKS + 1) m -> 0 <= i < NUM_CHUNKS + 1 ->
  exists s m', vec_at m i = Ret s /\ mod_map_erase m i k = Ret m' /\ vec_full (NUM_CHUNKS + 1) m' /\
    forall j, 0 <= j -> vec_at m' j = if decide (i = j) then Ret (s ∖ {[k]}) else vec_at m j.
Proof.
  intros Hf Hi. destruct (Hf i Hi) as [s Hs]. unfold mod_map_erase. rewrite Hs. cbn [mbind outcome_bind].
  pose proof (vec_set_Ret m i s (s ∖ {[k]}) Hs) as E. rewrite E. do 2 eexists. split; [done|].
  split; [done|]. split; [eapply vec_full_set; eauto; lia|].
  intros j Hj. eapply vec_at_set; eauto; lia.
Qed.

(** Storing a key and inserting it in its slot keeps the invariant. *)
Lemma store_inv vs k v m :
  vs_inv vs -> mod_map_insert (mod_map vs) (shard_mod k) k = Ret m ->
  vs_inv (set_mod_map (set_db vs (snd (db_put (db vs) k v))) m).
Proof.
  intros Hi Hm. destruct (mod_map_insert_spec (mod_map vs) (shard_mod k) k (inv_mod_full _ Hi) (chunk_range k))
    as (s & m' & Hs & E & Hf & Hat). rewrite Hm in E. injection E as <-.
  constructor; simpl; [done|apply Hi|apply (inv_to_num _ Hi)|apply Hi|]. intros i s' k' Hr Hs'. rewrite Hat in Hs' by lia.
  rewrite db_get_put. case_decide as D.
  - injection Hs' as <-. pose proof (inv_mod_db _ Hi _ s k' Hr ltac:(by rewrite <- D)) as Hk.
    rewrite elem_of_union, elem_of_singleton, Hk. case_decide; naive_solver.
  - rewrite (inv_mod_db _ Hi _ s' k' Hr Hs'). case_decide; naive_solver.
Qed.

(** Deleting a key and erasing it from its slot keeps the invariant. *)
Lemma unstore_inv vs k m :
  vs_inv vs -> mod_map_erase (mod_map vs) (shard_mod k) k = Ret m ->
  vs_inv (set_mod_map (set_db vs (snd (db_delete (db vs) k))) m).
Proof.
  intros Hi Hm. destruct (mod_map_erase_spec (mod_map vs) (shard_mod k) k (inv_mod_full _ Hi) (chunk_range k))
    as (s & m' & Hs & E & Hf & Hat). rewrite Hm in E. injection E as <-.
  constructor; simpl; [done|apply Hi|apply (inv_to_num _ Hi)|apply Hi|]. intros i s' k' Hr Hs'. rewrite Hat in Hs' by lia.
  rewrite db_get_delete. case_decide as D.
  - injection Hs' as <-. pose proof (inv_mod_db _ Hi _ s k' Hr ltac:(by rewrite <- D)) as Hk.
    rewrite elem_of_difference, elem_of_singleton, Hk. case_decide; [|naive_solver].
    split; [naive_solver|]. intros [_ [? ?]]. done.
  - rewrite (inv_mod_db _ Hi _ s' k' Hr Hs'). case_decide as D'; [|done].
    subst k'. split; [naive_solver|]. intros [_ [? ?]]. done.
Qed.

Lemma mod_map_insert_returns vs k :
  vs_inv vs -> exists m, mod_map_insert (mod_map vs) (shard_mod k) k = Ret m.
Proof.
  intros Hi. destruct (mod_map_insert_spec _ _ k (inv_mod_full _ Hi) (chunk_range k)) as (? & m & _ & ? & _).
  eauto.
Qed.

Lemma mod_map_erase_returns vs k :
  vs_inv vs -> exists m, mod_map_erase (mod_map vs) (shard_mod k) k = Ret m.
Proof.
  intros Hi. destruct (mod_map_erase_spec _ _ k (inv_mod_full _ Hi) (chunk_range k)) as (? & m & _ & ? & _).
  eauto.
Qed.

(** ** formModMap and the constructor *)

Lemma formModMap_loop_spec m keys :
  vec_full (NUM_CHUNKS + 1) m ->
  exists m', formModMap_loop m keys = Ret m' /\ vec_full (NUM_CHUNKS + 1) m' /\
    vec_size m' = vec_size m /\
    forall i s s', 0 <= i < NUM_CHUNKS + 1 -> vec_at m i = Ret s -> vec_at m' i = Ret s' ->
      forall k, k ∈ s' <-> k ∈ s \/ (k ∈ keys /\ shard_mod k = i).
Proof.
  revert m. induction keys as [|x keys IH]; intros m Hf.
  { exists m. split; [done|]. split; [done|]. split; [done|]. intros i s s' Hr Hs Hs' k.
    rewrite Hs in Hs'. injection Hs' as <-. set_solver. }
  destruct (mod_map_insert_spec m (shard_mod x) x Hf (chunk_range x)) as (s0 & m1 & Hs0 & E & Hf1 & Hat).
  destruct (IH m1 Hf1) as (m' & E' & Hf' & Hsz & Hk). exists m'. simpl. rewrite E. cbn [mbind outcome_bind].
  split; [done|]. split; [done|]. split.
  - rewrite Hsz. unfold mod_map_insert in E. rewrite Hs0 in E. cbn [mbind outcome_bind] in E.
    rewrite (vec_set_Ret _ _ _ _ Hs0) in E. by injection E as <-.
  - intros i s s' Hr Hs Hs' k. specialize (Hat i ltac:(lia)). case_decide as D.
    + rewrite (Hk i _ _ Hr Hat Hs' k). subst i. rewrite Hs0 in Hs. injection Hs as <-. set_solver.
    + rewrite Hs in Hat. rewrite (Hk i _ _ Hr Hat Hs' k). set_solver.
Qed.

Lemma cleared_fresh i :
  0 <= i < NUM_CHUNKS + 1 ->
  vec_at (vec_clear set_destroy (vec_resize vec_empty (Z.to_nat (NUM_CHUNKS + 1)) ∅)) i = Ret ∅.
Proof.
  intros Hi. apply vec_at_Ret. unfold vec_clear. cbn [vec_buf vec_size vec_resize vec_empty take app].
  rewrite drop_nil, app_nil_r, Nat.sub_0_r.
  rewrite app_nil_r, take_ge by (rewrite length_replicate; lia).
  rewrite list_lookup_fmap, lookup_replicate_2 by lia. done.
Qed.

Lemma construct_spec idx addr d status :
  ok status = true ->
  exists vs, construct idx addr d status = Ret vs /\ vs_inv vs /\ db vs = d /\ self_addr vs = addr /\
    vs_config_num vs = 0 /\ config vs = [] /\ my_config vs = mkEntry [] "" /\
    move_queue vs = q_empty /\ tpool vs = [] /\ vec_size (mod_map vs) = 0%nat.
Proof.
  intros Hok. unfold construct, requestJoin. rewrite Hok. cbn [mbind outcome_bind].
  unfold formModMap. cbn [mod_map set_mod_map set_to_move set_configs db].
  set (m0 := vec_clear _ _).
  assert (forall i, 0 <= i < NUM_CHUNKS + 1 -> vec_at m0 i = Ret ∅) as Hm0 by apply cleared_fresh.
  destruct (formModMap_loop_spec m0 (db_keys d)) as (m & E & Hf & Hsz & Hk).
  { intros i Hi. eauto. }
  rewrite E. cbn [mbind outcome_bind]. eexists. split; [done|]. split; [|done].
  constructor; simpl; [done| | |done|].
  - intros i Hi. eexists. apply vec_resize_fresh. lia.
  - intros i p Hi Hp. rewrite vec_resize_fresh in Hp by lia. by injection Hp as <-.
  - intros i s k Hr Hs. rewrite (Hk i ∅ s Hr (Hm0 i Hr) Hs k), db_keys_spec. set_solver.
Qed.

(** ** The handlers *)

Lemma vs_step_refines vs s op :
  vs_inv vs -> vs_refines vs s ->
  exists r vs', vs_step vs op = Ret (r, vs') /\ r = fst (kv_step s op) /\ vs_inv vs' /\
    vs_refines vs' (snd (kv_step s op)).
Proof.
  intros Hi Hr. destruct op as [k|k v|k v]; cbn [vs_step kv_step]; rewrite (ref_owned _ _ Hr), (ref_store _ _ Hr).
  - unfold Get. cbn [get_key]. destruct (isMyKey vs k); cbn [negb]; [|by do 2 eexists].
    destruct (db_get (db vs) k); by do 2 eexists.
  - unfold Put. cbn [put_key put_value]. destruct (isMyKey vs k) eqn:Em; cbn [negb]; [|by do 2 eexists].
    destruct (db_get (db vs) k) eqn:E; [by do 2 eexists|].
    destruct (mod_map_insert_returns vs k Hi) as [m Hm]. cbn [set_db mod_map]. rewrite Hm.
    do 2 eexists. split; [done|]. split; [done|]. split; [by apply store_inv|].
    constructor; simpl; [apply Hr|]. intros k'. unfold upd. rewrite db_get_put. case_decide; [done|apply Hr].
  - unfold Delete. cbn [del_key]. destruct (isMyKey vs k) eqn:Em; cbn [negb]; [|by do 2 eexists].
    destruct (db_get (db vs) k) eqn:E; [|by do 2 eexists].
    destruct (mod_map_erase_returns vs k Hi) as [m Hm]. cbn [set_db mod_map]. rewrite Hm.
    do 2 eexists. split; [done|]. split; [done|]. split; [by apply unstore_inv|].
    constructor; simpl; [apply Hr|]. intros k'. unfold upd. rewrite db_get_delete. case_decide; [done|apply Hr].
Qed.

(** ** The difference of two configurations *)

Lemma chunk_loop_ok fuel n u :
  0 <= n -> n <= u + 1 -> u < UINT_MOD - 1 -> u - n + 1 < Z.of_nat fuel ->
  chunk_loop fuel n u = Ret (seqZ n (u - n + 1)).
Proof.
  revert n. induction fuel as [|fuel IH]; intros n Hn Hnu Hu Hf; [lia|]. cbn [chunk_loop].
  destruct (Z.leb_spec n u) as [Hle|Hgt].
  - rewrite (u32_small (n + 1)) by (unfold is_u32; lia). rewrite IH by lia. cbn [mbind outcome_bind].
    rewrite (seqZ_cons n) by lia. do 2 f_equal. f_equal; lia.
  - by rewrite seqZ_nil by lia.
Qed.

(** Shards over which [calcNegativeDiff] terminates. *)
Definition shard_bounded (s : SMShard) : Prop := shard_wf s /\ upper s < UINT_MOD - 1.

Lemma chunk_loop_shard s n :
  shard_bounded s ->
  exists l, chunk_loop (chunk_fuel s) (lower s) (upper s) = Ret l /\ (n ∈ l <-> contains n s = true).
Proof.
  intros [[H1 [H2 H3]] H4]. eexists. split; [apply chunk_loop_ok; unfold chunk_fuel; lia|].
  rewrite elem_of_seqZ, contains_spec. lia.
Qed.

Lemma diff_chunk_elem prev addr n m a :
  (m, a) ∈ diff_chunk prev addr n <-> m = n /\ a = addr /\ (0 < holders n (shards prev))%nat.
Proof.
  unfold diff_chunk. rewrite list_elem_of_fmap. unfold holders. split.
  - intros (s & E & Hs). injection E as -> ->. split; [done|]. split; [done|].
    destruct (List.filter _ _); [by apply elem_of_nil in Hs|simpl; lia].
  - intros (-> & -> & Hh). destruct (List.filter _ _) as [|s l] eqn:E; simpl in Hh; [lia|].
    exists s. split; [done|]. constructor.
Qed.

Lemma diff_shards_spec prev addr l :
  Forall shard_bounded l ->
  exists r, diff_shards prev addr l = Ret r /\
    forall n a, (n, a) ∈ r <-> a = addr /\ (0 < holders n l)%nat /\ (0 < holders n (shards prev))%nat.
Proof.
  induction 1 as [|s l Hs _ IH].
  { exists []. split; [done|]. intros n a. rewrite elem_of_nil, holders_nil. naive_solver lia. }
  destruct IH as (r & E & Hr). destruct (chunk_loop_shard s 0 Hs) as (cs & Ec & _).
  eexists. cbn [diff_shards]. rewrite Ec. cbn [mbind outcome_bind]. rewrite E. cbn [mbind outcome_bind].
  split; [done|]. intros n a. rewrite elem_of_app, Hr, holders_cons.
  assert (n ∈ cs <-> contains n s = true) as Hcs.
  { destruct (chunk_loop_shard s n Hs) as (cs' & Ec' & H'). rewrite Ec in Ec'. by injection Ec' as ->. }
  rewrite list_elem_of_In, in_flat_map. setoid_rewrite <- list_elem_of_In. setoid_rewrite diff_chunk_elem.
  destruct (contains n s); split; intros; deex; subst; naive_solver lia.
Qed.

Definition config_bounded (cfg : list SMConfigEntry) : Prop :=
  Forall (fun e => Forall shard_bounded (shards e)) cfg.

Lemma diff_config_spec prev cfg :
  config_bounded cfg ->
  exists r, diff_config prev cfg = Ret r /\
    forall n a, (n, a) ∈ r <->
      exists e, e ∈ cfg /\ vs_addr e = a /\ a <> vs_addr prev /\
        (0 < holders n (shards e))%nat /\ (0 < holders n (shards prev))%nat.
Proof.
  induction 1 as [|e cfg He _ IH].
  { exists []. split; [done|]. intros n a. rewrite elem_of_nil. split; [done|].
    intros (e & He & _). by apply elem_of_nil in He. }
  destruct IH as (r & E & Hr). cbn [diff_config]. case_decide as D.
  - exists r. split; [done|]. intros n a. rewrite Hr. split.
    + intros (e' & ? & ?). exists e'. rewrite elem_of_cons. naive_solver.
    + intros (e' & [->|?]%elem_of_cons & ?); naive_solver.
  - destruct (diff_shards_spec prev (vs_addr e) (shards e) He) as (r1 & E1 & Hr1).
    rewrite E1. cbn [mbind outcome_bind]. rewrite E. cbn [mbind outcome_bind].
    eexists. split; [done|]. intros n a. rewrite elem_of_app, Hr1, Hr. split.
    + intros [(-> & ? & ?)|(e' & ? & ?)]; [exists e|exists e']; rewrite elem_of_cons; naive_solver.
    + intros (e' & [->|?]%elem_of_cons & ?); naive_solver.
Qed.

(** ** Registering the keys to move *)

(** Equal but for the queue and [to_move]. *)
Record same_but_moves (vs vs' : VolumeServer DB Q) : Prop := mk_same {
  same_self : self_addr vs' = self_addr vs;
  same_db : db vs' = db vs;
  same_num : vs_config_num vs' = vs_config_num vs;
  same_config : config vs' = config vs;
  same_mine : my_config vs' = my_config vs;
  same_mod : mod_map vs' = mod_map vs;
  same_pool : tpool vs' = tpool vs }.

Lemma same_refl vs : same_but_moves vs vs.
Proof. done. Qed.

Lemma same_trans vs1 vs2 vs3 : same_but_moves vs1 vs2 -> same_but_moves vs2 vs3 -> same_but_moves vs1 vs3.
Proof. intros [] []. constructor; congruence. Qed.

(** The first destination listed for chunk [i]. *)
Definition first_dest (removed : list (Z * string)) (i : Z) : option string :=
  snd <$> List.find (fun r => fst r =? i) removed.

(** What [updateToMove] does to the entry [(addr, num)] of chunk [i], and whether
    it registers the keys of the chunk. *)
Definition new_dest (num : Z) (removed : list (Z * string)) (i : Z) (old : string * Z) : string * Z :=
  match first_dest removed i with
  | Some a => if snd old <? num then (a, num) else old
  | None => old
  end.

Definition registers (num : Z) (removed : list (Z * string)) (i : Z) (old : string * Z) : bool :=
  match first_dest removed i with Some _ => snd old <? num | None => false end.

Lemma enqueue_all_elems q l : q_elems (enqueue_all q l) = list_to_set_disj l ⊎ q_elems q.
Proof.
  revert q. unfold enqueue_all. induction l as [|x l IH]; intros q; simpl; [multiset_solver|].
  rewrite IH, q_elems_enqueue. multiset_solver.
Qed.

(** One iteration of the loop. *)
Lemma updateToMove_one_spec vs n a old s :
  0 <= n < NUM_CHUNKS + 1 -> vec_at (to_move vs) n = Ret old -> vec_at (mod_map vs) n = Ret s ->
  exists vs', updateToMove_one vs (n, a) = Ret vs' /\ same_but_moves vs vs' /\
    (forall i, 0 <= i -> vec_at (to_move vs') i =
       if decide (n = i) then Ret (if snd old <? vs_config_num vs then (a, vs_config_num vs) else old)
       else vec_at (to_move vs) i) /\
    (forall k, multiplicity k (q_elems (move_queue vs')) =
       ((if (snd old <? vs_config_num vs)%Z && bool_decide (k ∈ s) then 1 else 0)
        + multiplicity k (q_elems (move_queue vs)))%nat).
Proof.
  intros Hn Hold Hs. unfold updateToMove_one. rewrite Hold. cbn [mbind outcome_bind].
  destruct (snd old <? vs_config_num vs) eqn:E; cbn [andb].
  - pose proof (vec_set_Ret _ _ _ (a, vs_config_num vs) Hold) as Et. rewrite Et. cbn [mbind outcome_bind].
    rewrite Hs. cbn [mbind outcome_bind]. eexists. split; [done|]. split; [done|]. split.
    + intros i Hi. cbn [to_move set_queue set_to_move]. apply (vec_at_set _ _ _ _ _ Et); lia.
    + intros k. cbn [move_queue set_queue]. rewrite enqueue_all_elems, multiplicity_disj_union.
      rewrite multiplicity_nodup by apply set_iter_nodup.
      case_decide as D; rewrite set_iter_elem in D; by case_bool_decide.
  - exists vs. split; [done|]. split; [apply same_refl|]. split; [|done].
    intros i Hi. case_decide; congruence.
Qed.

Lemma updateToMove_spec removed vs :
  vec_full (NUM_CHUNKS + 1) (to_move vs) -> vec_full (NUM_CHUNKS + 1) (mod_map vs) ->
  Forall (fun r => 0 <= fst r < NUM_CHUNKS + 1) removed ->
  exists vs', updateToMove vs removed = Ret vs' /\ same_but_moves vs vs' /\
    (forall i old, 0 <= i < NUM_CHUNKS + 1 -> vec_at (to_move vs) i = Ret old ->
       vec_at (to_move vs') i = Ret (new_dest (vs_config_num vs) removed i old)) /\
    (forall k old s, vec_at (to_move vs) (shard_mod k) = Ret old ->
       (forall i s, 0 <= i < NUM_CHUNKS + 1 -> vec_at (mod_map vs) i = Ret s -> k ∈ s -> shard_mod k = i) ->
       vec_at (mod_map vs) (shard_mod k) = Ret s ->
       multiplicity k (q_elems (move_queue vs')) =
         ((if registers (vs_config_num vs) removed (shard_mod k) old && bool_decide (k ∈ s) then 1 else 0)
          + multiplicity k (q_elems (move_queue vs)))%nat).
Proof.
  intros Hto Hmod HF. revert vs Hto Hmod. induction HF as [|[n a] removed Hn _ IH]; intros vs Hto Hmod.
  { exists vs. split; [done|]. split; [apply same_refl|]. done. }
  simpl in Hn. destruct (Hto n Hn) as [old Hold]. destruct (Hmod n Hn) as [s Hs].
  destruct (updateToMove_one_spec vs n a old s Hn Hold Hs) as (vs1 & E1 & Hsame & Hto1 & Hq1).
  destruct (IH vs1) as (vs2 & E2 & Hsame2 & Hto2 & Hq2).
  { intros i Hi. rewrite Hto1 by lia. case_decide; eauto. }
  { by rewrite (same_mod _ _ Hsame). }
  exists vs2. cbn [updateToMove]. rewrite E1. cbn [mbind outcome_bind]. split; [done|].
  split; [by eapply same_trans|]. rewrite (same_num _ _ Hsame) in Hto2, Hq2.
  unfold new_dest, registers, first_dest in *. cbn [List.find fst]. split.
  - intros i old' Hi Hold'. specialize (Hto1 i ltac:(lia)). case_decide as D.
    + subst i. rewrite Hold in Hold'. injection Hold' as <-. rewrite Z.eqb_refl. cbn [fmap option_fmap option_map snd].
      rewrite (Hto2 _ _ Hi Hto1). f_equal. destruct (List.find _ _) as [[]|]; [|done]. cbn [fmap option_fmap option_map snd].
      destruct (snd old <? vs_config_num vs) eqn:E; [|by rewrite E]. cbn [snd]. by rewrite Z.ltb_irrefl.
    + rewrite (proj2 (Z.eqb_neq _ _)) by done. rewrite Hold' in Hto1. by rewrite (Hto2 _ _ Hi Hto1).
  - intros k old' s' Hold' Hown Hs'. pose proof (chunk_range k) as Hk.
    specialize (Hto1 (shard_mod k) (proj1 Hk)). rewrite (same_mod _ _ Hsame) in Hq2. case_decide as D.
    + rewrite <- D, Hold in Hold'. injection Hold' as <-. rewrite <- D, Hs in Hs'. injection Hs' as <-.
      rewrite (Hq2 k _ s Hto1 Hown ltac:(by rewrite <- D)), Hq1, D, Z.eqb_refl. cbn [fmap option_fmap option_map].
      destruct (List.find _ _) as [[]|]; cbn [fmap option_fmap option_map];
        destruct (snd old <? vs_config_num vs) eqn:E; cbn [snd andb]; rewrite ?Z.ltb_irrefl, ?E; cbn [andb]; lia.
    + rewrite Hold' in Hto1. rewrite (Hq2 k old' s' Hto1 Hown Hs'), Hq1.
      rewrite (proj2 (Z.eqb_neq _ _)) by done.
      rewrite (bool_decide_eq_false_2 (k ∈ s)); [by rewrite andb_false_r|].
      intros Hin. apply D. symmetry. by apply (Hown n s).
Qed.

(** ** fetchSMConfig *)

Lemma read_config_spec self mine l :
  read_config self mine l =
    (default mine (last (filter (fun e => self = vs_addr e) (map read_entry l))), map read_entry l).
Proof.
  revert mine. induction l as [|e l IH]; intros mine; [done|]. cbn [read_config map].
  rewrite IH, filter_cons. destruct (decide (self = vs_addr (read_entry e))); [|done].
  rewrite last_cons. by destruct (last _).
Qed.

(** Chunk [i], held by the entry [prev], is given to the server [a] by [cfg]. *)
Definition moved_away (prev : SMConfigEntry) (cfg : list SMConfigEntry) (i : Z) (a : string) : Prop :=
  exists e, e ∈ cfg /\ vs_addr e = a /\ a <> vs_addr prev /\
    (0 < holders i (shards e))%nat /\ (0 < holders i (shards prev))%nat.

Lemma first_dest_spec r i :
  (forall a, first_dest r i = Some a -> (i, a) ∈ r) /\
  (first_dest r i = None -> forall a, (i, a) ∉ r).
Proof.
  unfold first_dest. split.
  - intros a ([n a'] & Hf & Ha)%fmap_Some. apply List.find_some in Hf as [Hin E].
    simpl in *. subst a'. apply Z.eqb_eq in E. subst n. by apply list_elem_of_In.
  - intros Hn a Hin. apply list_elem_of_In in Hin. destruct (List.find _ _) eqn:E; [done|].
    pose proof (List.find_none _ _ E _ Hin) as Hc. simpl in Hc. by rewrite Z.eqb_refl in Hc.
Qed.

(** Entries all of whose chunks are chunks. *)
Definition entry_in_range (e : SMConfigEntry) : Prop :=
  Forall (fun s => shard_wf s /\ upper s <= NUM_CHUNKS) (shards e).

Lemma in_range_bounded cfg : Forall entry_in_range cfg -> config_bounded cfg.
Proof.
  intros Hc. eapply Forall_impl; [exact Hc|]. intros e He. eapply Forall_impl; [exact He|]. intros s [? ?].
  split; [done|]. unfold NUM_CHUNKS, UINT_MOD in *. lia.
Qed.

Lemma in_range_holders e n :
  entry_in_range e -> (0 < holders n (shards e))%nat -> 0 <= n < NUM_CHUNKS + 1.
Proof.
  intros He Hh. apply holders_existsb, existsb_exists in Hh as (s & Hin & Hc).
  apply contains_spec in Hc. unfold entry_in_range in He. rewrite Forall_forall in He.
  destruct (He s) as [[? ?] ?]; [by apply list_elem_of_In|]. lia.
Qed.

(** What one tick with news does. *)
Record fetched (vs vs' : VolumeServer DB Q) (num : Z) (cfg : list SMConfigEntry) : Prop := mk_fetched {
  f_self : self_addr vs' = self_addr vs;
  f_db : db vs' = db vs;
  f_mod : mod_map vs' = mod_map vs;
  f_pool : tpool vs' = tpool vs;
  f_num : vs_config_num vs' = num;
  f_config : config vs' = cfg;
  f_mine : my_config vs' = default (my_config vs) (last (filter (fun e => self_addr vs = vs_addr e) cfg));
  f_dest : forall i old, 0 <= i < NUM_CHUNKS + 1 -> vec_at (to_move vs) i = Ret old ->
    (exists a, moved_away (my_config vs) cfg i a /\ vec_at (to_move vs') i = Ret (a, num)) \/
    ((forall a, ~ moved_away (my_config vs) cfg i a) /\ vec_at (to_move vs') i = Ret old);
  f_queue : forall k,
    ((exists a, moved_away (my_config vs) cfg (shard_mod k) a) /\ is_Some (db_get (db vs) k) /\
       multiplicity k (q_elems (move_queue vs')) = S (multiplicity k (q_elems (move_queue vs)))) \/
    (((forall a, ~ moved_away (my_config vs) cfg (shard_mod k) a) \/ db_get (db vs) k = None) /\
       multiplicity k (q_elems (move_queue vs')) = multiplicity k (q_elems (move_queue vs))) }.

Lemma fetch_spec vs status st2 num resp :
  vs_inv vs -> ok status = true -> vs_config_num vs < num ->
  Forall entry_in_range (map read_entry (pb_config resp)) -> entry_in_range (my_config vs) ->
  exists vs', fetchSMConfig vs (status, mkQueryConfigNumResponse num) (st2, resp) = Ret vs' /\
    vs_inv vs' /\ fetched vs vs' num (map read_entry (pb_config resp)).
Proof.
  intros Hi Hok Hnum Hcfg Hprev. unfold fetchSMConfig. rewrite Hok. cbn [negb pb_config_num snd].
  rewrite (proj2 (Z.ltb_lt _ _)) by done. rewrite read_config_spec.
  set (cfg := map read_entry (pb_config resp)) in *. set (mine := default _ _).
  unfold calcNegativeDiff. cbn [config set_configs].
  destruct (diff_config_spec (my_config vs) cfg (in_range_bounded _ Hcfg)) as (r & Er & Hr).
  rewrite Er. cbn [mbind outcome_bind].
  set (vs1 := set_configs vs num cfg mine).
  destruct (updateToMove_spec r vs1) as (vs' & E & Hs & Hto & Hq).
  { apply Hi. } { apply Hi. }
  { apply Forall_forall. intros [n a] Hin. apply Hr in Hin as (e & _ & _ & _ & _ & Hh). simpl.
    by apply (in_range_holders _ _ Hprev). }
  exists vs'. split; [done|].
  assert (forall i old, 0 <= i < NUM_CHUNKS + 1 -> vec_at (to_move vs) i = Ret old -> (snd old <? num) = true) as Hlt.
  { intros i old Hr' Hold. apply Z.ltb_lt. pose proof (inv_to_num _ Hi _ _ Hr' Hold). lia. }
  assert (forall i old, 0 <= i < NUM_CHUNKS + 1 -> vec_at (to_move vs) i = Ret old ->
    (exists a, moved_away (my_config vs) cfg i a /\ vec_at (to_move vs') i = Ret (a, num)) \/
    ((forall a, ~ moved_away (my_config vs) cfg i a) /\ vec_at (to_move vs') i = Ret old)) as Hdest.
  { intros i old Hi' Hold. specialize (Hto i old Hi' Hold). unfold new_dest in Hto. cbn in Hto.
    rewrite (Hlt i old Hi' Hold) in Hto. destruct (first_dest_spec r i) as [H1 H2].
    destruct (first_dest r i) as [a|].
    - left. exists a. split; [by apply Hr, H1|done].
    - right. split; [|done]. intros a Ha. apply (H2 eq_refl a). by apply Hr. }
  split.
  - constructor.
    + rewrite (same_mod _ _ Hs). apply Hi.
    + intros i Hi'. destruct (inv_to_full _ Hi i Hi') as [old Hold].
      destruct (Hdest i old Hi' Hold) as [(a & _ & ?)|[_ ?]]; eauto.
    + rewrite (same_num _ _ Hs). cbn. intros i p Hi' Hp. destruct (inv_to_full _ Hi i Hi') as [old Hold].
      destruct (Hdest i old Hi' Hold) as [(a & _ & E')|[_ E']]; rewrite E' in Hp; injection Hp as <-; simpl; [lia|].
      pose proof (inv_to_num _ Hi _ _ Hi' Hold). lia.
    + rewrite (same_pool _ _ Hs). apply Hi.
    + rewrite (same_mod _ _ Hs), (same_db _ _ Hs). apply Hi.
  - constructor; try (by rewrite ?(same_self _ _ Hs), ?(same_db _ _ Hs), ?(same_mod _ _ Hs), ?(same_pool _ _ Hs),
      ?(same_num _ _ Hs), ?(same_config _ _ Hs), ?(same_mine _ _ Hs)).
    intros k. pose proof (chunk_range k) as Hk.
    destruct (inv_to_full _ Hi _ Hk) as [old Hold]. destruct (inv_mod_full _ Hi _ Hk) as [s Hsl].
    rewrite (Hq k old s Hold); [|by intros i s' Hr' Hs' Hin; apply (inv_mod_db _ Hi i s' k Hr' Hs') in Hin as [? _]|done].
    pose proof (inv_mod_db _ Hi _ s k Hk Hsl) as Hin. unfold registers. cbn.
    rewrite (Hlt _ _ Hk Hold). destruct (first_dest_spec r (shard_mod k)) as [H1 H2].
    destruct (first_dest r (shard_mod k)) as [a|].
    + case_bool_decide as Hb; cbn.
      * left. split; [exists a; by apply Hr, H1|]. split; [by apply Hin|done].
      * right. split; [|done]. right. apply eq_None_not_Some. intros Hsome. apply Hb, Hin. done.
    + right. split; [|done]. left. intros a Ha. apply (H2 eq_refl a). by apply Hr.
Qed.

(** ** Moving keys *)

Lemma set_queue_inv vs q : vs_inv vs -> vs_inv (set_queue vs q).
Proof. intros [? ? ? ? ?]. by constructor. Qed.

Lemma set_configs_inv vs n c mine : vs_inv vs -> vs_config_num vs <= n -> vs_inv (set_configs vs n c mine).
Proof.
  intros [? ? Hnum ? ?] Hn. constructor; try done. simpl. intros i p Hi Hp. specialize (Hnum i p Hi Hp). lia.
Qed.

(** The three outcomes of an iteration: nothing to do, a key that is not stored
    goes back, a stored key becomes a task. *)
Inductive moved_one (vs vs' : VolumeServer DB Q) : Prop :=
  | moved_idle : q_elems (move_queue vs) = ∅ -> vs' = vs -> moved_one vs vs'
  | moved_back k :
      k ∈ q_elems (move_queue vs) -> db_get (db vs) k = None ->
      q_elems (move_queue vs') = q_elems (move_queue vs) -> tpool vs' = tpool vs ->
      moved_one vs vs'
  | moved_task k v dest num :
      q_elems (move_queue vs) = {[+ k +]} ⊎ q_elems (move_queue vs') -> db_get (db vs) k = Some v ->
      vec_at (to_move vs) (shard_mod k) = Ret (dest, num) ->
      tpool vs' = tpool vs ++ [mkTask dest k v (shard_mod k)] ->
      moved_one vs vs'.

Lemma moveKeys_iter_ok vs :
  vs_inv vs ->
  exists vs', moveKeys_iter vs = Ret vs' /\ vs_inv vs' /\ db vs' = db vs /\ my_config vs' = my_config vs /\
    self_addr vs' = self_addr vs /\ moved_one vs vs'.
Proof.
  intros Hi. unfold moveKeys_iter. destruct (try_dequeue (move_queue vs)) as [[k q]|] eqn:Eq.
  - pose proof (try_dequeue_Some _ _ _ Eq) as Hq. cbn [set_queue db move_queue to_move tpool].
    destruct (db_get (db vs) k) as [v|] eqn:Ek.
    + destruct (inv_to_full _ Hi _ (chunk_range k)) as [[dest num] Hd]. rewrite Hd. cbn [mbind outcome_bind].
      eexists. split; [done|]. split; [|do 3 (split; [done|]); by eapply moved_task].
      destruct Hi as [? ? ? ? ?]. constructor; try done. simpl. by apply Forall_app; split; [|constructor].
    + eexists. split; [done|]. split; [by apply (set_queue_inv _ _ Hi)|].
      do 3 (split; [done|]). eapply (moved_back _ _ k); [rewrite Hq; multiset_solver|done| |done].
      cbn [move_queue set_queue]. by rewrite q_elems_enqueue, Hq.
  - exists vs. do 5 (split; [done|]). by apply moved_idle; [apply try_dequeue_None|].
Qed.

Lemma move_task_done_ok vs t status :
  vs_inv vs -> task_shard t = shard_mod (task_key t) ->
  exists vs', move_task_done vs t status = Ret vs' /\ vs_inv vs' /\ my_config vs' = my_config vs /\
    self_addr vs' = self_addr vs /\ tpool vs' = tpool vs /\
    (forall k, db_get (db vs') k = if ok status && bool_decide (task_key t = k) then None else db_get (db vs) k) /\
    q_elems (move_queue vs') =
      (if ok status then ∅ else {[+ task_key t +]}) ⊎ q_elems (move_queue vs).
Proof.
  intros Hi Ht. unfold move_task_done. destruct (ok status); cbn [andb].
  - destruct (mod_map_erase_returns vs (task_key t) Hi) as [m Hm].
    cbn [set_db mod_map]. rewrite Ht, Hm. cbn [mbind outcome_bind]. eexists. split; [done|].
    split; [by apply unstore_inv|]. do 3 (split; [done|]). split; [|simpl; multiset_solver].
    intros k. simpl. rewrite db_get_delete. case_decide; by case_bool_decide.
  - eexists. split; [done|]. split; [by apply set_queue_inv|]. do 4 (split; [done|]).
    simpl. apply q_elems_enqueue.
Qed.

Lemma vs_run_refines ops vs s :
  vs_inv vs -> vs_refines vs s ->
  exists rs vs', vs_run vs ops = Ret (rs, vs') /\ rs = fst (kv_run s ops) /\ vs_inv vs' /\
    vs_refines vs' (snd (kv_run s ops)).
Proof.
  revert vs s. induction ops as [|op ops IH]; intros vs s Hi Hr; [by do 2 eexists|].
  destruct (vs_step_refines vs s op Hi Hr) as (r & vs1 & E1 & Hr1 & Hi1 & Href1).
  destruct (IH vs1 _ Hi1 Href1) as (rs & vs2 & E2 & Hrs & Hi2 & Href2).
  exists (r :: rs), vs2. cbn [vs_run kv_run]. rewrite E1. cbn [mbind outcome_bind]. rewrite E2.
  destruct (kv_step s op) as [r' s']. cbn [fst snd] in *. destruct (kv_run s' ops) as [rs' s'']. cbn [fst snd] in *.
  by subst.
Qed.

End Spec.

Arguments vs_inv {_ DB _ Q} vs.
Arguments vs_refines {_ DB _ Q} vs s.

(** ** A concrete server, for the witnesses *)

Definition demo_new (d : gmap string string) : outcome (VolumeServer (gmap string string) (list string)) :=
  construct (H := md5_KeyHash) 1 "a" d status_OK.

Definition demo_vs (d : gmap string string) (mine : SMConfigEntry) : VolumeServer (gmap string string) (list string) :=
  match demo_new d with
  | Ret vs => set_configs vs 1 [mine] mine
  | Fault _ => mkVS 1 "a" d 1 [mine] mine vec_empty [] vec_empty []
  end.

Lemma demo_vs_inv d mine : vs_inv (H := md5_KeyHash) (demo_vs d mine).
Proof.
  unfold demo_vs, demo_new.
  destruct (construct_spec (H := md5_KeyHash) (Q := list string) 1 "a" d status_OK eq_refl)
    as (vs & -> & Hi & _ & _ & Hn & _).
  apply set_configs_inv; [done|]. rewrite Hn. lia.
Qed.

Lemma demo_vs_db d mine : db (demo_vs d mine) = d.
Proof.
  unfold demo_vs, demo_new.
  by destruct (construct_spec (H := md5_KeyHash) (Q := list string) 1 "a" d status_OK eq_refl)
    as (vs & -> & Hi & Hd & _).
Qed.

Lemma demo_vs_mine d mine : my_config (demo_vs d mine) = mine.
Proof. unfold demo_vs. by destruct (demo_new d). Qed.

(** ** Properties *)

Section Properties.
Context `{!KeyHash} {DB : Type} `{!LevelDB DB} `{!LevelDBLaws DB}.
Context {Q : Type} `{!MoveQueue Q} `{!MoveQueueLaws Q}.

(** the constructor rebuilds [mod_map] from disk.  When the shard master
    accepts the join, the constructor returns for any database found on disk,
    and the new server is consistent: the slot of each chunk of [mod_map] holds
    exactly the stored keys of that chunk; the queue and the pool are empty and
    the configuration number is 0.  When the join is refused the process exits. *)
Theorem construct_consistent (idx : Z) (addr : string) (d : DB) (status : Status) :
  (ok status = true -> exists vs : VolumeServer DB Q,
     construct idx addr d status = Ret vs /\ vs_inv vs /\ db vs = d /\ vs_config_num vs = 0 /\
     move_queue vs = q_empty /\ tpool vs = []) /\
  (ok status = false -> construct (Q := Q) idx addr d status = Fault ProcessExit).
Proof.
  split.
  - intros Hok. destruct (construct_spec (Q := Q) idx addr d status Hok)
      as (vs & E & Hi & Hd & _ & Hn & _ & _ & Hq & Hp & _). by exists vs.
  - intros Hok. unfold construct, requestJoin. by rewrite Hok.
Qed.

(** [formModMap] clears the vector the constructor has just resized, so when
    the constructor returns [mod_map.size()] is 0: the chunk of every key is out
    of the range of the vector, and every [mod_map\[shard_mod\]] of the server is
    an access beyond the end. *)
Theorem construct_mod_map_has_size_zero (idx : Z) (addr : string) (d : DB) (status : Status)
    (vs : VolumeServer DB Q) (Hc : construct idx addr d status = Ret vs) :
  vec_size (mod_map vs) = 0%nat /\ forall key, ~ shard_mod key < Z.of_nat (vec_size (mod_map vs)).
Proof.
  destruct (ok status) eqn:Hok.
  - destruct (construct_spec (Q := Q) idx addr d status Hok) as (vs' & E & _ & _ & _ & _ & _ & _ & _ & _ & Hs).
    rewrite E in Hc. injection Hc as <-. split; [done|]. intros key. rewrite Hs.
    pose proof (shard_mod_range key). lia.
  - unfold construct, requestJoin in Hc. by rewrite Hok in Hc.
Qed.


(** [calcNegativeDiff] terminates on a configuration whose shards end below
    [UINT_MAX] and returns exactly the pairs of a chunk of the previous entry and
    the address of another server whose new shards hold it. *)
Theorem calcNegativeDiff_exact (vs : VolumeServer DB Q) (prev : SMConfigEntry)
    (Hb : config_bounded (config vs)) :
  exists removed, calcNegativeDiff vs prev = Ret removed /\
    forall n a, (n, a) ∈ removed <-> moved_away prev (config vs) n a.
Proof. unfold calcNegativeDiff, moved_away. by apply diff_config_spec. Qed.

(** C5: a tick that sees a newer configuration returns a consistent server that
    has adopted it: number, entries, and its own entry (kept when the new
    configuration has none); the database and the pool are untouched; each chunk
    its previous entry held and another server now holds has that server and the
    new number in [to_move], the others keep theirs; each stored key of these
    chunks is put in the queue exactly once more, no other key is. *)
Theorem fetchSMConfig_registers_moves (vs : VolumeServer DB Q) (status st2 : Status) (num : Z) (resp : QueryResponse)
    (Hi : vs_inv vs) (Hok : ok status = true) (Hnum : vs_config_num vs < num)
    (Hcfg : Forall entry_in_range (map read_entry (pb_config resp))) (Hmine : entry_in_range (my_config vs)) :
  exists vs', fetchSMConfig vs (status, mkQueryConfigNumResponse num) (st2, resp) = Ret vs' /\
    vs_inv vs' /\ fetched vs vs' num (map read_entry (pb_config resp)).
Proof. by apply fetch_spec. Qed.

(** an iteration of [moveKeys] on a consistent server returns a consistent
    server with the same database; if the queue is not empty it takes one key:
    a key that is no longer stored goes back to the queue, a stored key becomes
    a task with its value and the destination registered for its chunk. *)
Theorem moveKeys_iter_correct (vs : VolumeServer DB Q) (Hi : vs_inv vs) :
  exists vs', moveKeys_iter vs = Ret vs' /\ vs_inv vs' /\ db vs' = db vs /\ moved_one vs vs'.
Proof.
  destruct (moveKeys_iter_ok vs Hi) as (vs' & E & Hi' & Hd & _ & _ & Hm). by exists vs'.
Qed.

(** when the new server has answered, the end of a move task keeps the server
    consistent: on OK the key, and no other, leaves the database and [mod_map];
    on any other status the database is untouched and the key is in the queue
    again. *)
Theorem move_task_done_correct (vs : VolumeServer DB Q) (t : MoveTask) (status : Status)
    (Hi : vs_inv vs) (Ht : task_shard t = shard_mod (task_key t)) :
  exists vs', move_task_done vs t status = Ret vs' /\ vs_inv vs' /\
    (forall k, db_get (db vs') k = if ok status && bool_decide (task_key t = k) then None else db_get (db vs) k) /\
    q_elems (move_queue vs') = (if ok status then ∅ else {[+ task_key t +]}) ⊎ q_elems (move_queue vs).
Proof.
  destruct (move_task_done_ok vs t status Hi Ht) as (vs' & E & Hi' & _ & _ & _ & Hd & Hq). by exists vs'.
Qed.

(** a server that has left keeps serving: when the new configuration has no
    entry with its address, the tick keeps [my_config], so [isMyKey] accepts the
    same keys as before and [Put] still stores them. *)
Theorem left_server_keeps_serving (vs : VolumeServer DB Q) (status st2 : Status) (num : Z) (resp : QueryResponse)
    (Hi : vs_inv vs) (Hok : ok status = true) (Hnum : vs_config_num vs < num)
    (Hcfg : Forall entry_in_range (map read_entry (pb_config resp))) (Hmine : entry_in_range (my_config vs))
    (Hleft : self_addr vs ∉ map vs_addr (map read_entry (pb_config resp))) :
  exists vs', fetchSMConfig vs (status, mkQueryConfigNumResponse num) (st2, resp) = Ret vs' /\
    forall key, isMyKey vs' key = isMyKey vs key.
Proof.
  destruct (fetch_spec vs status st2 num resp Hi Hok Hnum Hcfg Hmine) as (vs' & E & _ & Hf).
  exists vs'. split; [done|]. intros key. unfold isMyKey. rewrite (f_mine _ _ _ _ Hf).
  replace (filter _ _) with (@nil SMConfigEntry); [done|]. symmetry.
  clear -Hleft. induction (map read_entry (pb_config resp)) as [|e l IH]; [done|]. simpl in Hleft.
  rewrite filter_cons_False by set_solver. apply IH. set_solver.
Qed.
End Properties.

(** the chunk loop of [calcNegativeDiff] does not end on a shard whose upper
    bound is [UINT_MAX]: no number of iterations is enough. *)
Theorem chunk_loop_diverges (n : Z) (fuel : nat) (Hn : is_u32 n) :
  chunk_loop fuel n (UINT_MOD - 1) = Fault Diverges.
Proof.
  revert n Hn. induction fuel as [|fuel IH]; intros n Hn; [done|]. cbn [chunk_loop].
  unfold is_u32 in Hn. rewrite (proj2 (Z.leb_le _ _)) by lia. by rewrite IH by apply u32_range.
Qed.

Lemma chunk_loop_diverges_witness : chunk_loop 5 7 (UINT_MOD - 1) = Fault Diverges.
Proof. apply (chunk_loop_diverges 7 5). vm_compute. split; congruence. Defined.

(** ** Witnesses *)

Lemma construct_consistent_witness :
  exists vs, demo_new {[ "key1" := "value1" ]} = Ret vs /\ vs_inv (H := md5_KeyHash) vs /\
    db vs = {[ "key1" := "value1" ]} /\ vs_config_num vs = 0 /\ move_queue vs = [] /\ tpool vs = [].
Proof.
  exact (proj1 (construct_consistent (H := md5_KeyHash) (Q := list string) 1 "a" {[ "key1" := "value1" ]} status_OK)
           eq_refl).
Defined.

Lemma construct_mod_map_has_size_zero_witness :
  exists vs, demo_new ∅ = Ret vs /\ vec_size (mod_map vs) = 0%nat.
Proof.
  destruct (demo_new ∅) as [vs|f] eqn:E; [|vm_compute in E; discriminate].
  exists vs. split; [reflexivity|].
  exact (proj1 (construct_mod_map_has_size_zero (H := md5_KeyHash) 1 "a" ∅ status_OK vs E)).
Defined.

Definition demo_entry : SMConfigEntry := mkEntry [mkShard 0 1000] "a".

Definition demo_ops : list kv_op :=
  [OGet "key1"; OPut "key1" "value1"; OGet "key1"; OPut "key1" "other"; OGet "key1"; ODelete "key1" ""; OGet "key1"].


Lemma calcNegativeDiff_exact_witness :
  exists removed, calcNegativeDiff
      (set_configs (demo_vs ∅ demo_entry) 2 [mkEntry [mkShard 0 996] "a"; mkEntry [mkShard 997 1000] "b"] demo_entry)
      demo_entry = Ret removed /\ (998, "b"%string) ∈ removed /\ (996, "b"%string) ∉ removed.
Proof.
  destruct (calcNegativeDiff_exact
    (set_configs (demo_vs ∅ demo_entry) 2 [mkEntry [mkShard 0 996] "a"; mkEntry [mkShard 997 1000] "b"] demo_entry)
    demo_entry) as (removed & E & Hr).
  - repeat constructor; vm_compute; congruence.
  - exists removed. split; [exact E|]. split; [apply Hr|intros Hin; apply Hr in Hin].
    + exists (mkEntry [mkShard 997 1000] "b"). repeat split; try (vm_compute; try congruence; lia).
      simpl. right. constructor.
    + destruct Hin as (e & He & Ha & _ & Hh & _). simpl in He.
      apply elem_of_cons in He as [->|He]; [discriminate|].
      apply elem_of_cons in He as [->|He]; [vm_compute in Hh; lia|]. by apply elem_of_nil in He.
Defined.

Definition demo_response : QueryResponse :=
  mkQueryResponse [mkPbEntry [mkPbShard 0 499] "a"; mkPbEntry [mkPbShard 500 1000] "b"].

Lemma fetchSMConfig_registers_moves_witness :
  exists vs', fetchSMConfig (demo_vs {[ "key1" := "value1" ]} demo_entry)
      (status_OK, mkQueryConfigNumResponse 2) (status_OK, demo_response) = Ret vs' /\
    my_config vs' = mkEntry [mkShard 0 499] "a".
Proof.
  destruct (fetchSMConfig_registers_moves (H := md5_KeyHash) (demo_vs {[ "key1" := "value1" ]} demo_entry)
    status_OK status_OK 2 demo_response) as (vs' & E & _ & Hf).
  - apply demo_vs_inv.
  - reflexivity.
  - vm_compute. reflexivity.
  - repeat constructor; vm_compute; congruence.
  - rewrite demo_vs_mine. repeat constructor; vm_compute; congruence.
  - exists vs'. split; [exact E|]. rewrite (f_mine _ _ _ _ Hf). vm_compute. reflexivity.
Defined.

Lemma moveKeys_iter_correct_witness :
  exists vs', moveKeys_iter (H := md5_KeyHash)
      (set_queue (demo_vs {[ "key1" := "value1" ]} demo_entry) ["key1"%string]) = Ret vs' /\
    vs_inv (H := md5_KeyHash) vs'.
Proof.
  destruct (moveKeys_iter_correct (H := md5_KeyHash)
    (set_queue (demo_vs {[ "key1" := "value1" ]} demo_entry) ["key1"%string])) as (vs' & E & Hi & _).
  - apply set_queue_inv, demo_vs_inv.
  - exists vs'. split; [exact E|exact Hi].
Defined.

Lemma move_task_done_correct_witness :
  exists vs', move_task_done (demo_vs {[ "key1" := "value1" ]} demo_entry)
      (mkTask "b" "key1" "value1" (md5_shard_mod "key1")) status_OK = Ret vs' /\
    db_get (db vs') "key1" = None.
Proof.
  destruct (move_task_done_correct (H := md5_KeyHash) (demo_vs {[ "key1" := "value1" ]} demo_entry)
    (mkTask "b" "key1" "value1" (md5_shard_mod "key1")) status_OK) as (vs' & E & _ & Hd & _).
  - apply demo_vs_inv.
  - reflexivity.
  - exists vs'. split; [exact E|]. rewrite Hd. vm_compute. reflexivity.
Defined.

Lemma left_server_keeps_serving_witness :
  exists vs', fetchSMConfig (demo_vs ∅ demo_entry) (status_OK, mkQueryConfigNumResponse 2)
      (status_OK, mkQueryResponse [mkPbEntry [mkPbShard 0 1000] "b"]) = Ret vs' /\
    isMyKey (H := md5_KeyHash) vs' "key1" = true.
Proof.
  destruct (left_server_keeps_serving (H := md5_KeyHash) (demo_vs ∅ demo_entry) status_OK status_OK 2
    (mkQueryResponse [mkPbEntry [mkPbShard 0 1000] "b"])) as (vs' & E & Hk).
  - apply demo_vs_inv.
  - reflexivity.
  - vm_compute. reflexivity.
  - repeat constructor; vm_compute; congruence.
  - rewrite demo_vs_mine. repeat constructor; vm_compute; congruence.
  - vm_compute. set_solver.
  - exists vs'. split; [exact E|]. rewrite Hk. vm_compute. reflexivity.
Defined.

(** ** Error paths that are lost *)

(** a failed [Query] is taken for an empty configuration: the [assert] looks
    at the status of [QueryConfigNum], so when the second call fails and leaves
    the answer empty the server still records the new number with no entries,
    and every later tick with that number does nothing. *)
Theorem failed_query_swallowed `{!KeyHash} {DB : Type} `{!LevelDB DB} {Q : Type} `{!MoveQueue Q}
    (vs : VolumeServer DB Q) (num : Z) (Hnum : vs_config_num vs < num) :
  exists vs', fetchSMConfig vs (status_OK, mkQueryConfigNumResponse num)
      (mkStatus UNAVAILABLE "", mkQueryResponse []) = Ret vs' /\
    config vs' = [] /\ vs_config_num vs' = num /\
    forall answer, fetchSMConfig vs' (status_OK, mkQueryConfigNumResponse num) answer = Ret vs'.
Proof.
  unfold fetchSMConfig at 1. cbn. rewrite (proj2 (Z.ltb_lt _ _)) by done. cbn.
  eexists. split; [done|]. split; [done|]. split; [done|]. intros answer. unfold fetchSMConfig.
  cbn. by rewrite Z.ltb_irrefl.
Qed.

Lemma failed_query_swallowed_witness :
  exists vs', fetchSMConfig (demo_vs ∅ demo_entry) (status_OK, mkQueryConfigNumResponse 2)
      (mkStatus UNAVAILABLE "", mkQueryResponse []) = Ret vs' /\ config vs' = [] /\ vs_config_num vs' = 2 /\
    forall answer, fetchSMConfig vs' (status_OK, mkQueryConfigNumResponse 2) answer = Ret vs'.
Proof.
  apply (failed_query_swallowed (H := md5_KeyHash) (demo_vs ∅ demo_entry) 2). vm_compute. reflexivity.
Defined.

(** a chunk number beyond [NUM_CHUNKS] crashes the tick: a server to which the
    range [0, 2000] was moved (the shard master accepts it) indexes [to_move] and
    [mod_map], which have 1001 slots, out of bounds when the range moves on. *)
Theorem move_beyond_chunks_out_of_bounds :
  fetchSMConfig (demo_vs ∅ (mkEntry [mkShard 0 2000] "a"))
    (status_OK, mkQueryConfigNumResponse 2)
    (status_OK, mkQueryResponse [mkPbEntry [] "a"; mkPbEntry [mkPbShard 0 2000] "b"])
  = Fault OutOfBounds.
Proof. vm_compute. reflexivity. Qed.

(** A database whose writes fail. *)
Definition full_disk : LevelDB (gmap string string) := {|
  db_get d k := d !! k;
  db_put d k v := (false, d);
  db_delete d k := (false, d);
  db_keys d := (map_to_list d).*1 |}.

(** [Put] answers OK when the database refuses the write: the status of
    [db->Put] is ignored, the key is entered in [mod_map] without being stored,
    and the next [Get] answers NOT_FOUND. *)
Theorem put_ignores_write_failure :
  exists vs', Put (H := md5_KeyHash) (LevelDB0 := full_disk) (demo_vs ∅ demo_entry) (mkPutRequest "key1" "value1")
      = Ret (status_OK, vs') /\
    error_code (fst (Get (H := md5_KeyHash) (LevelDB0 := full_disk) vs' (mkGetRequest "key1"))) = NOT_FOUND /\
    exists s, vec_at (mod_map vs') (md5_shard_mod "key1") = Ret s /\ "key1"%string ∈ s.
Proof.
  eexists. split; [vm_compute; reflexivity|]. split; [vm_compute; reflexivity|].
  eexists. split; [vm_compute; reflexivity|]. vm_compute. reflexivity.
Qed.
