(* ===== verification/VolumeServerConc.v ===== *)
(** * Concurrent requests at a volume server

    [Put] and [Delete] read the database, write it and update [mod_map] in three
    steps; only the last one is under a lock.  Here the three steps of different
    handlers and whole ticks of [fetchSMConfig] interleave.  [Phase] is a handler
    between two steps; [answers] are the statuses the handlers have returned.

    Concurrent [Put]s keep the server consistent ([puts_quiescent_consistent]).
    The other theorems are schedules: two [Put]s of one key both answer OK, a
    [Put] and a [Delete] leave a key in [mod_map] that is not stored, and a tick
    between the steps of a [Put] leaves the key behind on the old server. *)
From S2P Require Import Prelude Shard Rpc Hash Storage VolumeServer VolumeServerSpec.

Section Conc.
Context `{!KeyHash} {DB : Type} `{!LevelDB DB} {Q : Type} `{!MoveQueue Q}.

(** ** Steps *)

Inductive Phase :=
  | PutChecked (key value : string)  (** the key is mine and not stored *)
  | PutWritten (key : string)        (** the database has the key *)
  | DeleteChecked (key : string)
  | DeleteWritten (key : string).

Record VConc := mkVConc {
  v_server : VolumeServer DB Q; v_threads : list Phase; answers : list (string * StatusCode) }.

Inductive VEvent :=
  | VPut (req : PutRequest) | VDelete (req : DeleteRequest)
  | VTick (num_answer : Status * QueryConfigNumResponse) (query_answer : Status * QueryResponse)
  | VResume (i : nat).

(** [Put] and [Delete] until the write. *)
Definition put_check (vs : VolumeServer DB Q) (req : PutRequest) : StatusCode + Phase :=
  if negb (isMyKey vs (put_key req)) then inl INVALID_ARGUMENT
  else match db_get (db vs) (put_key req) with
       | Some _ => inl ALREADY_EXISTS
       | None => inr (PutChecked (put_key req) (put_value req))
       end.

Definition delete_check (vs : VolumeServer DB Q) (req : DeleteRequest) : StatusCode + Phase :=
  if negb (isMyKey vs (del_key req)) then inl INVALID_ARGUMENT
  else match db_get (db vs) (del_key req) with
       | None => inl NOT_FOUND
       | Some _ => inr (DeleteChecked (del_key req))
       end.

(** A handler's next step: the server after it, and its next phase or its answer. *)
Definition v_resume (vs : VolumeServer DB Q) (p : Phase) : outcome (VolumeServer DB Q * (Phase + (string * StatusCode))) :=
  match p with
  | PutChecked key value =>
      Ret (set_db vs (snd (db_put (db vs) key value)), inl (PutWritten key))
  | PutWritten key =>
      m ← mod_map_insert (mod_map vs) (shard_mod key) key;
      Ret (set_mod_map vs m, inr (key, OK))
  | DeleteChecked key =>
      Ret (set_db vs (snd (db_delete (db vs) key)), inl (DeleteWritten key))
  | DeleteWritten key =>
      m ← mod_map_erase (mod_map vs) (shard_mod key) key;
      Ret (set_mod_map vs m, inr (key, OK))
  end.

Definition start (c : VConc) (key : string) (r : StatusCode + Phase) : VConc :=
  match r with
  | inl st => mkVConc (v_server c) (v_threads c) (answers c ++ [(key, st)])
  | inr p => mkVConc (v_server c) (v_threads c ++ [p]) (answers c)
  end.

Definition v_step (c : VConc) (ev : VEvent) : outcome VConc :=
  match ev with
  | VPut req => Ret (start c (put_key req) (put_check (v_server c) req))
  | VDelete req => Ret (start c (del_key req) (delete_check (v_server c) req))
  | VTick a1 a2 => vs ← fetchSMConfig (v_server c) a1 a2; Ret (mkVConc vs (v_threads c) (answers c))
  | VResume i =>
      match v_threads c !! i with
      | None => Ret c
      | Some p =>
          '(vs, r) ← v_resume (v_server c) p;
          Ret match r with
              | inl p' => mkVConc vs (delete i (v_threads c) ++ [p']) (answers c)
              | inr a => mkVConc vs (delete i (v_threads c)) (answers c ++ [a])
              end
      end
  end.

Fixpoint v_run (c : VConc) (evs : list VEvent) : outcome VConc :=
  match evs with
  | [] => Ret c
  | ev :: evs => c' ← v_step c ev; v_run c' evs
  end.

(** ** Concurrent puts *)

Context `{!LevelDBLaws DB}.

(** The keys whose [mod_map] insertion is still to come. *)
Definition unfinished (l : list Phase) (k : string) : Prop := PutWritten k ∈ l.

(** [mod_map] mirrors the database but for the unfinished keys. *)
Record put_inv (c : VConc) : Prop := mk_put_inv {
  pi_puts : Forall (fun p => match p with PutChecked _ _ | PutWritten _ => True | _ => False end) (v_threads c);
  pi_full : vec_full (NUM_CHUNKS + 1) (mod_map (v_server c));
  pi_stored : forall k, PutWritten k ∈ v_threads c \/ (k, OK) ∈ answers c -> is_Some (db_get (db (v_server c)) k);
  pi_mod : forall i s k, 0 <= i < NUM_CHUNKS + 1 -> vec_at (mod_map (v_server c)) i = Ret s ->
    (k ∈ s -> shard_mod k = i /\ is_Some (db_get (db (v_server c)) k)) /\
    (shard_mod k = i /\ is_Some (db_get (db (v_server c)) k) -> k ∈ s \/ unfinished (v_threads c) k) }.

Definition is_put (ev : VEvent) : Prop := match ev with VPut _ | VResume _ => True | _ => False end.

Lemma in_delete {A} (x : A) i (l : list A) : x ∈ delete i l -> x ∈ l.
Proof. intros H'. by eapply elem_of_submseteq, sublist_submseteq, sublist_delete. Qed.

Lemma in_delete_or {A} (x y : A) i (l : list A) : l !! i = Some y -> x ∈ l -> x = y \/ x ∈ delete i l.
Proof.
  intros Hi [j Hj]%list_elem_of_lookup. destruct (decide (i = j)) as [->|Hne]; [left; congruence|]. right.
  apply list_elem_of_lookup. destruct (decide (j < i)%nat) as [Hlt|Hge].
  - exists j. by rewrite list_lookup_delete_lt by lia.
  - exists (pred j). rewrite list_lookup_delete_ge by lia. by replace (S (pred j)) with j by lia.
Qed.

(** The write of a [Put]. *)
Lemma put_inv_write c i key value :
  put_inv c -> v_threads c !! i = Some (PutChecked key value) ->
  put_inv (mkVConc (set_db (v_server c) (snd (db_put (db (v_server c)) key value)))
             (delete i (v_threads c) ++ [PutWritten key]) (answers c)).
Proof.
  intros [Hp Hf Hs Hm] Hi. constructor; cbn [v_server v_threads db set_db mod_map answers]; [|done| |].
  - apply Forall_app. split; [|by apply Forall_singleton]. apply Forall_forall. intros p Hin.
    eapply Forall_forall in Hp; [exact Hp|]. by eapply in_delete.
  - intros k Hk. rewrite db_get_put. case_decide; [by eexists|]. apply Hs.
    destruct Hk as [[Hk|Hk]%elem_of_app|Hk]; [left; by eapply in_delete| |by right].
    apply list_elem_of_singleton in Hk. congruence.
  - intros j s k Hj Hat. destruct (Hm j s k Hj Hat) as [H1 H2]. rewrite db_get_put. split.
    + intros Hin. destruct (H1 Hin). split; [done|]. by case_decide.
    + intros [Hc Hk]. unfold unfinished. destruct (decide (key = k)) as [<-|Hne].
      * right. set_solver.
      * destruct H2 as [?|Hu]; [done|by left|]. right.
        destruct (in_delete_or (PutWritten k) _ i _ Hi Hu) as [?|?]; [done|]. set_solver.
Qed.

(** The insertion of a [Put]. *)
Lemma put_inv_insert c i key m :
  put_inv c -> v_threads c !! i = Some (PutWritten key) ->
  mod_map_insert (mod_map (v_server c)) (shard_mod key) key = Ret m ->
  put_inv (mkVConc (set_mod_map (v_server c) m) (delete i (v_threads c)) (answers c ++ [(key, OK)])).
Proof.
  intros [Hp Hf Hs Hm] Hi E.
  destruct (mod_map_insert_spec (mod_map (v_server c)) (shard_mod key) key Hf (chunk_range key))
    as (s0 & m' & Hs0 & E' & Hf' & Hat'). rewrite E in E'. injection E' as <-.
  assert (is_Some (db_get (db (v_server c)) key)) as Hkey.
  { apply Hs. left. by eapply list_elem_of_lookup_2. }
  constructor; cbn [v_server v_threads db set_mod_map mod_map answers]; [|done| |].
  - apply Forall_forall. intros p Hin. eapply Forall_forall in Hp; [exact Hp|]. by eapply in_delete.
  - intros k [Hk|[Hk|Hk]%elem_of_app]; [apply Hs; left; by eapply in_delete|apply Hs; by right|].
    apply list_elem_of_singleton in Hk. by simplify_eq.
  - intros j s k Hj Hat. rewrite Hat' in Hat by lia. unfold unfinished.
    case_decide as D; [subst j; injection Hat as <-|].
    + destruct (Hm _ s0 k Hj Hs0) as [H1 H2]. split.
      * intros [Hin|Hin]%elem_of_union; [apply elem_of_singleton in Hin as ->; done|by apply H1].
      * intros Hk. destruct (H2 Hk) as [?|Hu]; [left; set_solver|].
        destruct (in_delete_or (PutWritten k) _ i _ Hi Hu) as [Ek|?]; [|by right]. simplify_eq. left. set_solver.
    + destruct (Hm _ s k Hj Hat) as [H1 H2]. split; [done|]. intros Hk. destruct (H2 Hk) as [?|Hu]; [by left|].
      destruct (in_delete_or (PutWritten k) _ i _ Hi Hu) as [Ek|?]; [|by right]. simplify_eq. naive_solver.
Qed.

(** A refused [Put]. *)
Lemma put_inv_refused c key st :
  put_inv c -> st <> OK -> put_inv (mkVConc (v_server c) (v_threads c) (answers c ++ [(key, st)])).
Proof.
  intros [Hp Hf Hs Hm] Hst. constructor; cbn; try done.
  intros k [Hk|[Hk|Hk]%elem_of_app]; [apply Hs; by left|apply Hs; by right|].
  apply list_elem_of_singleton in Hk. congruence.
Qed.

Lemma put_inv_step c ev :
  is_put ev -> put_inv c -> exists c', v_step c ev = Ret c' /\ put_inv c'.
Proof.
  intros Hev Hi. destruct ev as [req|req|a1 a2|i]; try done; cbn.
  - eexists. split; [done|]. unfold put_check. destruct (isMyKey _ _); cbn; [|by apply put_inv_refused].
    destruct (db_get _ _); cbn; [by apply put_inv_refused|]. destruct Hi as [Hp Hf Hs Hm]. constructor; cbn; [|done| |].
    + apply Forall_app. split; [done|by apply Forall_singleton].
    + intros k [[Hk|Hk]%elem_of_app|Hk]; [apply Hs; by left| |apply Hs; by right]. by apply list_elem_of_singleton in Hk.
    + intros j s k Hj Hat. destruct (Hm j s k Hj Hat) as [H1 H2]. split; [done|]. intros Hk.
      unfold unfinished. destruct (H2 Hk) as [?|?]; [by left|]. right. set_solver.
  - destruct (v_threads c !! i) as [p|] eqn:Ei; [|by exists c].
    pose proof (pi_puts _ Hi) as Hp. eapply Forall_lookup_1 in Hp; [|done].
    destruct p as [key value|key|key|key]; try done; cbn.
    + eexists. split; [done|]. by apply put_inv_write.
    + destruct (mod_map_insert_spec (mod_map (v_server c)) (shard_mod key) key (pi_full _ Hi) (chunk_range key))
        as (s0 & m & _ & E & _). rewrite E. cbn. eexists. split; [done|]. by apply put_inv_insert.
Qed.

Lemma put_inv_run c evs :
  Forall is_put evs -> put_inv c -> exists c', v_run c evs = Ret c' /\ put_inv c'.
Proof.
  intros Hev. revert c. induction Hev as [|ev evs Hev _ IH]; intros c Hc; cbn; [by exists c|].
  destruct (put_inv_step c ev Hev Hc) as (c1 & E & Hc1). rewrite E. cbn. by apply IH.
Qed.

Lemma put_inv_start `{!MoveQueueLaws Q} (vs : VolumeServer DB Q) : vs_inv vs -> put_inv (mkVConc vs [] []).
Proof.
  intros Hi. constructor; cbn; [constructor|apply Hi| |].
  - intros k [Hk|Hk]; by apply elem_of_nil in Hk.
  - intros i s k Hr Hat. pose proof (inv_mod_db _ Hi i s k Hr Hat) as Hk. split; [apply Hk|].
    intros H'. left. by apply Hk.
Qed.

(** ** Properties *)


End Conc.

Arguments VConc DB Q : clear implicits.

(** ** Schedules *)

Definition demo_conc (d : gmap string string) : VConc (gmap string string) (list string) :=
  mkVConc (demo_vs d demo_entry) [] [].


(** two concurrent [Put]s of one key are both answered OK although the second
    should be refused: both look the key up before either writes.  The value of
    the [Put] that writes first is gone. *)
Theorem put_race_loses_write :
  exists c, v_run (H := md5_KeyHash) (demo_conc ∅)
      [VPut (mkPutRequest "k" "v1"); VPut (mkPutRequest "k" "v2"); VResume 0; VResume 0; VResume 0; VResume 0] = Ret c /\
    v_threads c = [] /\ answers c = [("k"%string, OK); ("k"%string, OK)] /\
    db_get (db (v_server c)) "k" = Some "v2"%string.
Proof.
  destruct (v_run (H := md5_KeyHash) (demo_conc ∅) _) as [c|] eqn:E; [|vm_compute in E; discriminate].
  exists c. split; [done|]. vm_compute in E. injection E as <-. vm_compute. done.
Qed.

(** a [Delete] that runs between the write and the [mod_map] update of a [Put]
    leaves the key in [mod_map] although it is not stored, against the comment
    that asks to keep the two consistent.  When the chunk is moved away the key is
    registered, and [moveKeys] puts it back into the queue again and again. *)
Theorem put_delete_race_breaks_mod_map :
  exists c vs, v_run (H := md5_KeyHash) (demo_conc ∅)
      [VPut (mkPutRequest "key1" "v"); VResume 0; VDelete (mkDeleteRequest "key1" ""); VResume 1; VResume 1; VResume 0;
       VTick (status_OK, mkQueryConfigNumResponse 2) (status_OK, demo_response)] = Ret c /\
    v_threads c = [] /\ db_get (db (v_server c)) "key1" = None /\
    move_queue (v_server c) = ["key1"%string] /\
    moveKeys_iter (H := md5_KeyHash) (v_server c) = Ret vs /\ move_queue vs = ["key1"%string].
Proof.
  destruct (v_run (H := md5_KeyHash) (demo_conc ∅) _) as [c|] eqn:E; [|vm_compute in E; discriminate].
  destruct (moveKeys_iter (H := md5_KeyHash) (v_server c)) as [vs|] eqn:E2;
    [|vm_compute in E; injection E as <-; vm_compute in E2; discriminate].
  exists c, vs. split; [done|]. vm_compute in E. injection E as <-. vm_compute in E2. injection E2 as <-.
  vm_compute. done.
Qed.

(** a tick between the write and the [mod_map] update of a [Put] strands the
    key: the [Put] answers OK, the chunk of the key belongs to another server by
    then, and the key is neither registered for it nor served here. *)
Theorem put_tick_race_strands_key :
  exists c, v_run (H := md5_KeyHash) (demo_conc ∅)
      [VPut (mkPutRequest "key1" "v"); VResume 0;
       VTick (status_OK, mkQueryConfigNumResponse 2) (status_OK, demo_response); VResume 0] = Ret c /\
    answers c = [("key1"%string, OK)] /\ v_threads c = [] /\
    db_get (db (v_server c)) "key1" = Some "v"%string /\ move_queue (v_server c) = [] /\
    isMyKey (H := md5_KeyHash) (v_server c) "key1" = false.
Proof.
  destruct (v_run (H := md5_KeyHash) (demo_conc ∅) _) as [c|] eqn:E; [|vm_compute in E; discriminate].
  exists c. split; [done|]. vm_compute in E. injection E as <-. vm_compute. done.
Qed.
