(* ===== verification/Client.v ===== *)
(** * The client (client/client.cc)

    The client caches the configuration of the shard master with its number,
    finds the server of a key in the cache, and forwards [Get], [Put] and
    [Delete] to it.  The remote calls are collected in [Network]: what the shard
    master and the volume servers answer.  [vs_stub] keeps the addresses for which
    a channel exists.  The second half composes the client with the handlers of
    ShardMaster.v and VolumeServer.v: the server the client picks is the one that
    accepts the key. *)
From S2P Require Import Prelude Shard Rpc Hash ShardMaster ShardMasterSpec Storage VolumeServer VolumeServerSpec.

Definition num_chunks : Z := 1000.

Definition KEY_NOT_EXISTS : string := "Volume server for corresponding key doesn't exist!".
Definition RPC_FAIL : string := "RPC Failed!".
Definition RPC_FAIL_RESET : string := "RPC Failed! Resetting config".
Definition query_OK : string := "Success!".

(** The answers to the remote calls of one client operation. *)
Record Network := mkNetwork {
  net_config_num : Status * QueryConfigNumResponse;
  net_query : Status * QueryResponse;
  net_get : string -> GetRequest -> Status * GetResponse;
  net_put : string -> PutRequest -> Status;
  net_delete : string -> DeleteRequest -> Status;
  net_move : MoveRequest -> Status }.

Record Client := mkClient {
  vs_stub : gset string; mappings : list ConfigEntry; client_config_num : Z }.

Definition Client_init : Client := mkClient ∅ [] 0.

(** ** Operations *)

Section Client.
Context `{!KeyHash}.

(** [Query]: its result and the client after it. *)
Definition client_Query (c : Client) (net : Network) : string * Client :=
  let '(status, response) := net_config_num net in
  if negb (ok status) then (RPC_FAIL, c)
  else if client_config_num c <? pb_config_num response then
    let '(status_, answer) := net_query net in
    if negb (ok status_) then (RPC_FAIL_RESET, mkClient (vs_stub c) [] 0)
    else (query_OK, mkClient (vs_stub c) (pb_config answer) (pb_config_num response))
  else (query_OK, c).

(** The test of the inner loop of [getVSAddr]. *)
Definition holds (n : Z) (s : Shard) : bool := (pb_lower s <=? n) && (n <=? pb_upper s).

Fixpoint find_server (n : Z) (config : list ConfigEntry) : string :=
  match config with
  | [] => ""
  | e :: config => if existsb (holds n) (pb_shards e) then pb_server_addr e else find_server n config
  end.

Definition getVSAddr (c : Client) (key : string) : string := find_server (shard_mod key) (mappings c).

Definition createChannelIfNotExists (c : Client) (addr : string) : Client :=
  if decide (addr ∈ vs_stub c) then c
  else mkClient ({[addr]} ∪ vs_stub c) (mappings c) (client_config_num c).

(** The beginning shared by [Get], [Put] and [Delete]: refresh the cache (whatever
    the result of [Query]), find the server, open a channel. *)
Definition client_route (c : Client) (net : Network) (key : string) : option string * Client :=
  let c := snd (client_Query c net) in
  let addr := getVSAddr c key in
  if bool_decide (addr = ""%string) then (None, c) else (Some addr, createChannelIfNotExists c addr).

Definition client_Get (c : Client) (net : Network) (key : string) : string * Client :=
  match client_route c net key with
  | (None, c) => (KEY_NOT_EXISTS, c)
  | (Some addr, c) =>
      let '(status, response) := net_get net addr (mkGetRequest key) in
      (if ok status then res_value response else RPC_FAIL, c)
  end.

Definition client_Put (c : Client) (net : Network) (key value : string) : string * Client :=
  match client_route c net key with
  | (None, c) => (KEY_NOT_EXISTS, c)
  | (Some addr, c) => (if ok (net_put net addr (mkPutRequest key value)) then query_OK else RPC_FAIL, c)
  end.

Definition client_Delete (c : Client) (net : Network) (key value : string) : string * Client :=
  match client_route c net key with
  | (None, c) => (KEY_NOT_EXISTS, c)
  | (Some addr, c) => (if ok (net_delete net addr (mkDeleteRequest key value)) then query_OK else RPC_FAIL, c)
  end.

Definition client_Move (c : Client) (net : Network) (shard : Z * Z) (addr : string) : string :=
  if ok (net_move net (mkMoveRequest addr (mkPbShard (fst shard) (snd shard)))) then query_OK else RPC_FAIL.

(** ** Lemmas *)

Lemma find_server_owner n config :
  find_server n config = default ""%string (owner (map read_entry config) n).
Proof.
  unfold owner. induction config as [|e config IH]; [done|]. cbn [find_server map List.find].
  assert (existsb (holds n) (pb_shards e) = existsb (contains n) (shards (read_entry e))) as ->.
  { cbn [shards read_entry]. induction (pb_shards e) as [|s l IHl]; [done|]. cbn. by rewrite IHl. }
  destruct (existsb _ _); [done|]. apply IH.
Qed.

Lemma read_query_entry e : read_entry (Query_entry e) = e.
Proof.
  destruct e as [l a]. unfold read_entry, Query_entry. cbn. f_equal. rewrite map_map.
  rewrite <- (map_id l) at 2. apply map_ext. by intros [].
Qed.

Lemma read_query cfg : map read_entry (map Query_entry cfg) = cfg.
Proof. rewrite map_map. rewrite <- (map_id cfg) at 2. apply map_ext. apply read_query_entry. Qed.

End Client.

(** ** Properties *)

(** C15: the answer of [Query] read back by the volume server's loop is the
    configuration: the entries in order with all their shards, and for a server
    of a configuration with distinct addresses its own entry. *)
Theorem query_roundtrip (sm : ShardMaster) (self : string) (mine e : SMConfigEntry)
    (Hd : NoDup (addrs (sm_config sm))) (He : e ∈ sm_config sm) (Hs : vs_addr e = self) :
  read_config self mine (pb_config (snd (Query sm))) = (e, sm_config sm).
Proof.
  rewrite read_config_spec. cbn [Query snd pb_config]. rewrite read_query. f_equal.
  enough (filter (fun x => self = vs_addr x) (sm_config sm) = [e]) as -> by done.
  destruct sm as [cfg num]. cbn [sm_config] in *. clear num. induction cfg as [|x cfg IH]; [by apply elem_of_nil in He|].
  apply NoDup_cons in Hd as [Hx Hd]. apply elem_of_cons in He as [->|He].
  - rewrite filter_cons_True by done. f_equal. clear IH Hd. induction cfg as [|y cfg IH]; [done|].
    cbn [addrs map] in Hx. apply not_elem_of_cons in Hx as [Hne Hx].
    rewrite filter_cons_False by congruence. by apply IH.
  - rewrite filter_cons_False; [by apply IH|]. intros E. apply Hx. rewrite <- E, <- Hs.
    unfold addrs. apply list_elem_of_fmap. by exists e.
Qed.

Lemma query_roundtrip_witness :
  read_config "b" (mkEntry [] "") (pb_config (snd (Query
    (mkSM [mkEntry [mkShard 0 499] "a"; mkEntry [mkShard 500 1000] "b"] 2)))) =
  (mkEntry [mkShard 500 1000] "b", [mkEntry [mkShard 0 499] "a"; mkEntry [mkShard 500 1000] "b"]).
Proof.
  apply (query_roundtrip (mkSM [mkEntry [mkShard 0 499] "a"; mkEntry [mkShard 500 1000] "b"] 2)).
  - simpl. apply NoDup_cons. split; [intros H; apply list_elem_of_singleton in H; discriminate|apply NoDup_singleton].
  - simpl. right. constructor.
  - reflexivity.
Defined.


Definition demo_sm : ShardMaster :=
  snd (Join (snd (Join ShardMaster_init (mkJoinRequest "a"))) (mkJoinRequest "b")).

Definition demo_client : Client := mkClient ∅ (pb_config (snd (Query demo_sm))) 2.

Lemma demo_sm_inv : sm_inv demo_sm.
Proof. unfold demo_sm. repeat apply Join_inv; try (vm_compute; congruence). apply sm_init_inv. Qed.


(** what [Query] does to the cache, on every branch: no answer to
    [QueryConfigNum] or no newer number, the cache is kept; a newer number and an
    answer to [Query], the cache is the answer with its number; a newer number
    and no answer, the cache is emptied and the number reset, so that the next
    [Query] that gets a non-zero number and an answer fetches it. *)
Theorem client_query_branches (c : Client) (net : Network) (st1 st2 : Status) (n : Z) (r : QueryResponse)
    (H1 : net_config_num net = (st1, mkQueryConfigNumResponse n)) (H2 : net_query net = (st2, r)) :
  client_Query c net =
    if negb (ok st1) then (RPC_FAIL, c)
    else if n <=? client_config_num c then (query_OK, c)
    else if ok st2 then (query_OK, mkClient (vs_stub c) (pb_config r) n)
    else (RPC_FAIL_RESET, mkClient (vs_stub c) [] 0).
Proof.
  unfold client_Query. rewrite H1, H2. cbn [pb_config_num]. destruct (ok st1); cbn [negb]; [|done].
  zbool; try lia; try done. by destruct (ok st2).
Qed.

Definition demo_net : Network := mkNetwork
  (QueryConfigNum demo_sm) (Query demo_sm)
  (fun _ _ => (status_OK, mkGetResponse "" "")) (fun _ _ => status_OK) (fun _ _ => status_OK) (fun _ => status_OK).

Lemma client_query_branches_witness :
  client_Query Client_init demo_net = (query_OK, mkClient ∅ (pb_config (snd (Query demo_sm))) 2).
Proof.
  exact (client_query_branches Client_init demo_net status_OK status_OK 2 (snd (Query demo_sm)) eq_refl eq_refl).
Defined.

(** a shard master that restarts (its number starts again at 0) is not
    noticed: as long as its number does not exceed the cached one, every [Query]
    answers Success and keeps the old cache, although the configurations
    differ.  A comment in the code says the configuration is queried on any
    mismatch. *)
Theorem client_ignores_smaller_number (c : Client) (net : Network) (n : Z) (r : QueryResponse)
    (H1 : net_config_num net = (status_OK, mkQueryConfigNumResponse n)) (H2 : net_query net = (status_OK, r))
    (Hn : n < client_config_num c) (Hr : pb_config r <> mappings c) :
  client_Query c net = (query_OK, c) /\ mappings (snd (client_Query c net)) <> pb_config r.
Proof.
  assert (client_Query c net = (query_OK, c)) as E.
  { unfold client_Query. rewrite H1. cbn. by rewrite (proj2 (Z.ltb_ge _ _)) by lia. }
  split; [exact E|]. rewrite E. cbn. congruence.
Qed.

Lemma client_ignores_smaller_number_witness :
  client_Query (mkClient ∅ [] 5) demo_net = (query_OK, mkClient ∅ [] 5).
Proof.
  refine (proj1 (client_ignores_smaller_number (mkClient ∅ [] 5) demo_net 2 (snd (Query demo_sm)) eq_refl eq_refl _ _)).
  - vm_compute. reflexivity.
  - vm_compute. discriminate.
Defined.
