(* ===== verification/Cluster.v ===== *)
(** * The cluster: shard master, volume servers and keys in transit

    The state of the whole system: the shard master, the volume servers by
    address, the number each server's tick thread has read from the shard master
    but not acted upon yet, and the move tasks that a pool thread has taken, each
    before its remote [Put] or with the answer it got.  One step is one handler,
    one half of a tick, one iteration of [moveKeys], or one stage of a task; a
    remote [Put] may be lost before or after it is executed.  The steps of
    different servers interleave freely.

    [no_key_lost] and [value_preserved]: whatever the interleaving of
    reconfigurations, migrations and lost messages, a stored key stays stored
    somewhere with its value as long as no client deletes it.  [cluster_inv]:
    every server stays consistent and no handler ever fails. *)
From stdpp Require Import gmultiset.
From S2P Require Import Prelude Shard Rpc Hash ShardMaster ShardMasterSpec Storage VolumeServer VolumeServerSpec Client.

Section Cluster.
Context `{!KeyHash} {DB : Type} `{!LevelDB DB} {Q : Type} `{!MoveQueue Q}.

(** ** State *)

(** A task a pool thread is running: the server it belongs to, and the status of
    the remote [Put] once it is known. *)
Record Running := mkRunning { run_at : string; run_task : MoveTask; run_status : option Status }.

Record Cluster := mkCluster {
  master : ShardMaster;
  servers : gmap string (VolumeServer DB Q);
  asked : gmap string Z;
  running : list Running }.

Definition cluster_init : Cluster := mkCluster ShardMaster_init ∅ ∅ [].

Definition set_server (c : Cluster) (a : string) (vs : VolumeServer DB Q) : Cluster :=
  mkCluster (master c) (<[a := vs]> (servers c)) (asked c) (running c).

(** ** Steps *)

Inductive label :=
  | LStart (d : DB)               (** a server starts with the database [d] *)
  | LPut (key value : string)     (** a client's [Put] *)
  | LDelete (key : string)        (** a client's [Delete] *)
  | LInternal.                    (** everything else *)

Inductive cstep : Cluster -> label -> Cluster -> Prop :=
  (** A new server process: the constructor joins and builds [mod_map]. *)
  | c_start c a idx d vs st sm' :
      servers c !! a = None -> a <> ""%string ->
      Z.of_nat (length (sm_config (master c))) < ShardMaster.NUM_CHUNKS ->
      Join (master c) (mkJoinRequest a) = (st, sm') -> construct idx a d st = Ret vs ->
      cstep c (LStart d) (mkCluster sm' (<[a := vs]> (servers c)) (asked c) (running c))
  (** Reconfiguration by a client of the shard master. *)
  | c_leave c a :
      cstep c LInternal
        (mkCluster (snd (Leave (master c) (mkLeaveRequest a))) (servers c) (asked c) (running c))
  | c_rejoin c a :
      a ∈ dom (servers c) ->
      Z.of_nat (length (sm_config (master c))) < ShardMaster.NUM_CHUNKS ->
      cstep c LInternal
        (mkCluster (snd (Join (master c) (mkJoinRequest a))) (servers c) (asked c) (running c))
  | c_move c a l u st sm' :
      0 <= l -> l <= u -> u <= ShardMaster.NUM_CHUNKS ->
      Move (master c) (mkMoveRequest a (mkPbShard l u)) = Ret (st, sm') ->
      cstep c LInternal (mkCluster sm' (servers c) (asked c) (running c))
  (** The two calls of a tick. *)
  | c_ask c a :
      a ∈ dom (servers c) ->
      cstep c LInternal
        (mkCluster (master c) (servers c) (<[a := config_num (master c)]> (asked c)) (running c))
  | c_tick c a n vs vs' :
      asked c !! a = Some n -> servers c !! a = Some vs ->
      fetchSMConfig vs (status_OK, mkQueryConfigNumResponse n) (Query (master c)) = Ret vs' ->
      cstep c LInternal (mkCluster (master c) (<[a := vs']> (servers c)) (delete a (asked c)) (running c))
  (** Client requests. *)
  | c_put c a vs key value st vs' :
      servers c !! a = Some vs -> Put vs (mkPutRequest key value) = Ret (st, vs') ->
      cstep c (LPut key value) (set_server c a vs')
  | c_delete c a vs key value st vs' :
      servers c !! a = Some vs -> Delete vs (mkDeleteRequest key value) = Ret (st, vs') ->
      cstep c (LDelete key) (set_server c a vs')
  (** The mover thread and the pool. *)
  | c_mover c a vs vs' :
      servers c !! a = Some vs -> moveKeys_iter vs = Ret vs' ->
      cstep c LInternal (set_server c a vs')
  | c_pop c a vs t ts :
      servers c !! a = Some vs -> tpool vs = t :: ts ->
      cstep c LInternal
        (mkCluster (master c) (<[a := set_tpool vs ts]> (servers c)) (asked c)
           (mkRunning a t None :: running c))
  | c_send c a t r1 r2 vd st vd' :
      running c = r1 ++ mkRunning a t None :: r2 -> servers c !! task_addr t = Some vd ->
      Put vd (task_request t) = Ret (st, vd') ->
      cstep c LInternal
        (mkCluster (master c) (<[task_addr t := vd']> (servers c)) (asked c)
           (r1 ++ mkRunning a t (Some st) :: r2))
  | c_send_lost c a t r1 r2 vd st vd' st' :
      running c = r1 ++ mkRunning a t None :: r2 -> servers c !! task_addr t = Some vd ->
      Put vd (task_request t) = Ret (st, vd') -> ok st' = false ->
      cstep c LInternal
        (mkCluster (master c) (<[task_addr t := vd']> (servers c)) (asked c)
           (r1 ++ mkRunning a t (Some st') :: r2))
  | c_send_fail c a t r1 r2 st' :
      running c = r1 ++ mkRunning a t None :: r2 -> ok st' = false ->
      cstep c LInternal
        (mkCluster (master c) (servers c) (asked c) (r1 ++ mkRunning a t (Some st') :: r2))
  | c_finish c a t st r1 r2 vs vs' :
      running c = r1 ++ mkRunning a t (Some st) :: r2 -> servers c !! a = Some vs ->
      move_task_done vs t st = Ret vs' ->
      cstep c LInternal (mkCluster (master c) (<[a := vs']> (servers c)) (asked c) (r1 ++ r2)).

Inductive execs : Cluster -> list label -> Cluster -> Prop :=
  | execs_nil c : execs c [] c
  | execs_snoc c ls c' l c'' : execs c ls c' -> cstep c' l c'' -> execs c (ls ++ [l]) c''.

(** ** Copies of a key and acknowledged moves *)

Definition has (k : string) (vs : VolumeServer DB Q) : bool :=
  match db_get (db vs) k with Some _ => true | None => false end.

(** The number of servers that store [k]. *)
Definition copies (k : string) (c : Cluster) : nat :=
  size (filter (fun av : string * VolumeServer DB Q => has k (snd av) = true) (servers c)).

(** The tasks for [k] whose [Put] was answered OK and that have not deleted their
    copy yet. *)
Definition acked (k : string) (r : Running) : bool :=
  match run_status r with
  | Some st => ok st && bool_decide (task_key (run_task r) = k)
  | None => false
  end.

Definition pending (k : string) (c : Cluster) : nat := length (List.filter (acked k) (running c)).

(** More copies than acknowledged moves: deleting one copy per acknowledged move
    leaves at least one. *)
Definition safe_key (k : string) (c : Cluster) : Prop := (pending k c < copies k c)%nat.

(** ** Counting lemmas *)

Lemma size_filter_insert_None k (m : gmap string (VolumeServer DB Q)) a vs :
  m !! a = None ->
  size (filter (fun av : string * VolumeServer DB Q => has k (snd av) = true) (<[a := vs]> m)) =
    ((if has k vs then 1 else 0) +
     size (filter (fun av : string * VolumeServer DB Q => has k (snd av) = true) m))%nat.
Proof.
  intros Hm. destruct (has k vs) eqn:E.
  - rewrite map_filter_insert_True by done. rewrite map_size_insert_None; [done|].
    apply map_lookup_filter_None. by left.
  - rewrite map_filter_insert_False by (cbn; congruence). by rewrite delete_id.
Qed.

(** Replacing one server. *)
Lemma copies_insert k c a vs vs' ask' run' sm' :
  servers c !! a = Some vs ->
  (copies k (mkCluster sm' (<[a := vs']> (servers c)) ask' run') + (if has k vs then 1 else 0) =
   copies k c + (if has k vs' then 1 else 0))%nat.
Proof.
  intros Hm. unfold copies. cbn [servers]. rewrite <- (insert_delete_id (servers c) a vs Hm) at 2.
  rewrite <- (insert_delete_eq (servers c) a vs').
  rewrite !size_filter_insert_None by apply lookup_delete_eq. lia.
Qed.

Lemma copies_new k c a vs ask' run' sm' :
  servers c !! a = None ->
  copies k (mkCluster sm' (<[a := vs]> (servers c)) ask' run') =
    ((if has k vs then 1 else 0) + copies k c)%nat.
Proof. intros Hm. unfold copies. cbn [servers]. by apply size_filter_insert_None. Qed.

Lemma copies_pos k c :
  (0 < copies k c)%nat -> exists a vs v, servers c !! a = Some vs /\ db_get (db vs) k = Some v.
Proof.
  unfold copies. intros H'. destruct (map_choose (filter (fun av : string * VolumeServer DB Q => has k (snd av) = true) (servers c)))
    as (a & vs & Ha).
  { intros E. rewrite E, map_size_empty in H'. lia. }
  apply map_lookup_filter_Some in Ha as [Ha Hk]. cbn in Hk. unfold has in Hk.
  destruct (db_get (db vs) k) as [v|] eqn:E; [|done]. by exists a, vs, v.
Qed.

Lemma pending_middle k c r1 r r2 :
  running c = r1 ++ r :: r2 ->
  pending k c = ((if acked k r then 1 else 0) + length (List.filter (acked k) (r1 ++ r2)))%nat.
Proof.
  intros E. unfold pending. rewrite E, !List.filter_app, !List.length_app. cbn [List.filter].
  destruct (acked k r); cbn [length]; lia.
Qed.

(** ** What the operations of a server do to its database and its pool *)

Context `{!LevelDBLaws DB}.

Lemma Put_effect key value st (vs vs' : VolumeServer DB Q) :
  Put vs (mkPutRequest key value) = Ret (st, vs') ->
  tpool vs' = tpool vs /\
  if ok st then db_get (db vs) key = None /\
    forall k, db_get (db vs') k = if decide (key = k) then Some value else db_get (db vs) k
  else db vs' = db vs.
Proof.
  unfold Put. cbn [put_key put_value]. destruct (isMyKey vs key); cbn [negb]; [|intros E; by simplify_eq].
  destruct (db_get (db vs) key) eqn:E; [intros E'; by simplify_eq|].
  intros H'. apply bind_Ret in H' as (m & _ & H'). simplify_eq. split; [done|]. split; [done|].
  intros k. cbn. apply db_get_put.
Qed.

Lemma Delete_effect key value st (vs vs' : VolumeServer DB Q) :
  Delete vs (mkDeleteRequest key value) = Ret (st, vs') ->
  tpool vs' = tpool vs /\
  forall k, db_get (db vs') k = if ok st && bool_decide (key = k) then None else db_get (db vs) k.
Proof.
  unfold Delete. cbn [del_key]. destruct (isMyKey vs key); cbn [negb]; [|intros E; by simplify_eq].
  destruct (db_get (db vs) key) eqn:E; [|intros E'; by simplify_eq].
  intros H'. apply bind_Ret in H' as (m & _ & H'). simplify_eq. split; [done|].
  intros k. cbn. rewrite db_get_delete. case_decide; by case_bool_decide.
Qed.

Lemma task_done_effect t st (vs vs' : VolumeServer DB Q) :
  move_task_done vs t st = Ret vs' ->
  tpool vs' = tpool vs /\
  forall k, db_get (db vs') k = if ok st && bool_decide (task_key t = k) then None else db_get (db vs) k.
Proof.
  unfold move_task_done. destruct (ok st); cbn [andb]; [|intros E; by simplify_eq].
  intros H'. apply bind_Ret in H' as (m & _ & H'). simplify_eq. split; [done|].
  intros k. cbn. rewrite db_get_delete. case_decide; by case_bool_decide.
Qed.

Lemma updateToMove_effect removed (vs vs' : VolumeServer DB Q) :
  updateToMove vs removed = Ret vs' -> db vs' = db vs /\ tpool vs' = tpool vs.
Proof.
  revert vs. induction removed as [|[n a] removed IH]; intros vs H'; cbn [updateToMove] in H'; [by simplify_eq|].
  apply bind_Ret in H' as (vs1 & E & H'). destruct (IH _ H') as [-> ->]. clear IH H'.
  unfold updateToMove_one in E. apply bind_Ret in E as (tm & _ & E).
  destruct (_ <? _); [|by simplify_eq].
  apply bind_Ret in E as (t & _ & E). apply bind_Ret in E as (keys & _ & E). by simplify_eq.
Qed.

Lemma fetch_effect a1 a2 (vs vs' : VolumeServer DB Q) :
  fetchSMConfig vs a1 a2 = Ret vs' -> db vs' = db vs /\ tpool vs' = tpool vs.
Proof.
  unfold fetchSMConfig. destruct a1 as [st r]. destruct (ok st); cbn [negb]; [|done].
  destruct (_ <? _); [|intros; by simplify_eq]. destruct (read_config _ _ _) as [mine cfg].
  intros H'. apply bind_Ret in H' as (removed & _ & H'). by apply updateToMove_effect in H'.
Qed.

Lemma moveKeys_effect (vs vs' : VolumeServer DB Q) :
  moveKeys_iter vs = Ret vs' ->
  db vs' = db vs /\
  forall t, t ∈ tpool vs' -> t ∈ tpool vs \/ db_get (db vs) (task_key t) = Some (task_value t).
Proof.
  unfold moveKeys_iter. destruct (try_dequeue _) as [[k q]|]; [|intros; simplify_eq; by auto].
  cbn. destruct (db_get (db vs) k) as [v|] eqn:E; [|intros; simplify_eq; by auto].
  intros H'. apply bind_Ret in H' as (tm & _ & H'). simplify_eq. split; [done|]. cbn.
  intros t [Ht|Ht]%elem_of_app; [by left|]. right. apply list_elem_of_singleton in Ht. by subst t.
Qed.

Lemma construct_effect idx a d st (vs : VolumeServer DB Q) :
  construct idx a d st = Ret vs -> db vs = d /\ tpool vs = [].
Proof.
  unfold construct, requestJoin. destruct (ok st); [|done]. cbn. unfold formModMap. intros H'.
  apply bind_Ret in H' as (m & _ & H'). by simplify_eq.
Qed.

(** ** No key is lost *)

Lemma has_ext k (vs vs' : VolumeServer DB Q) : db_get (db vs') k = db_get (db vs) k -> has k vs' = has k vs.
Proof. unfold has. by intros ->. Qed.

Lemma pending_eq k c c' : running c' = running c -> pending k c' = pending k c.
Proof. unfold pending. by intros ->. Qed.

(** A remote [Put] that is executed adds a copy exactly when it is answered OK. *)
Lemma send_copies k c t vd st vd' ask' run' sm' :
  servers c !! task_addr t = Some vd -> Put vd (task_request t) = Ret (st, vd') ->
  copies k (mkCluster sm' (<[task_addr t := vd']> (servers c)) ask' run') =
    ((if ok st && bool_decide (task_key t = k) then 1 else 0) + copies k c)%nat.
Proof.
  intros Hs HP. pose proof (copies_insert k c _ vd vd' ask' run' sm' Hs) as Hc.
  apply Put_effect in HP as [_ HP]. destruct (ok st); cbn [andb].
  - destruct HP as [HN HP]. specialize (HP k). case_bool_decide as D.
    + subst k. rewrite decide_True in HP by done. unfold has in Hc. rewrite HN, HP in Hc. lia.
    + rewrite decide_False in HP by done. rewrite (has_ext _ _ _ HP) in Hc. lia.
  - rewrite (has_ext k vd vd') in Hc by by rewrite HP. lia.
Qed.

Lemma put_copies k c a vs key value st vs' :
  servers c !! a = Some vs -> Put vs (mkPutRequest key value) = Ret (st, vs') ->
  (copies k c <= copies k (set_server c a vs'))%nat.
Proof.
  intros Hs HP. pose proof (copies_insert k c _ vs vs' (asked c) (running c) (master c) Hs) as Hc.
  fold (set_server c a vs') in Hc. apply Put_effect in HP as [_ HP]. destruct (ok st).
  - destruct HP as [HN HP]. specialize (HP k). case_decide as D.
    + unfold has in Hc. rewrite HP in Hc. destruct (db_get (db vs) k); lia.
    + rewrite (has_ext _ _ _ HP) in Hc. lia.
  - rewrite (has_ext k vs vs') in Hc by by rewrite HP. lia.
Qed.

Lemma cstep_safe k c l c' : cstep c l c' -> l <> LDelete k -> safe_key k c -> safe_key k c'.
Proof.
  unfold safe_key. intros Hstep Hl Hsafe. destruct Hstep as
    [c a idx d vs st sm' Hn| c a | c a | c a l u st sm' | c a | c a n vs vs' Ha Hs Hf
    | c a vs key value st vs' Hs HP | c a vs key value st vs' Hs HD | c a vs vs' Hs Hm
    | c a vs t ts Hs Ht | c a t r1 r2 vd st vd' Hr Hs HP | c a t r1 r2 vd st vd' st' Hr Hs HP Hst
    | c a t r1 r2 st' Hr Hst | c a t st r1 r2 vs vs' Hr Hs Hd].
  - rewrite (pending_eq k c) by done. rewrite copies_new by done. lia.
  - exact Hsafe.
  - exact Hsafe.
  - exact Hsafe.
  - exact Hsafe.
  - rewrite (pending_eq k c) by done.
    pose proof (copies_insert k c a vs vs' (delete a (asked c)) (running c) (master c) Hs) as Hc.
    apply fetch_effect in Hf as [Hd _]. rewrite (has_ext k vs vs') in Hc by by rewrite Hd. lia.
  - rewrite (pending_eq k c) by done. pose proof (put_copies k c a vs key value st vs' Hs HP). lia.
  - rewrite (pending_eq k c) by done.
    pose proof (copies_insert k c a vs vs' (asked c) (running c) (master c) Hs) as Hc.
    apply Delete_effect in HD as [_ HD]. specialize (HD k).
    rewrite bool_decide_eq_false_2, andb_false_r in HD by congruence.
    rewrite (has_ext _ _ _ HD) in Hc. unfold set_server. lia.
  - rewrite (pending_eq k c) by done.
    pose proof (copies_insert k c a vs vs' (asked c) (running c) (master c) Hs) as Hc.
    apply moveKeys_effect in Hm as [Hd _]. rewrite (has_ext k vs vs') in Hc by by rewrite Hd.
    unfold set_server. lia.
  - pose proof (copies_insert k c a vs (set_tpool vs ts) (asked c) (mkRunning a t None :: running c) (master c) Hs) as Hc.
    rewrite (has_ext k vs (set_tpool vs ts)) in Hc by done. unfold pending in *. cbn in *. lia.
  - rewrite (send_copies k c t vd st vd' _ _ _ Hs HP).
    rewrite (pending_middle _ _ _ _ _ Hr) in Hsafe. erewrite pending_middle by done. cbn in *.
    unfold acked in *. cbn in *. destruct (ok st && _); lia.
  - rewrite (send_copies k c t vd st vd' _ _ _ Hs HP).
    rewrite (pending_middle _ _ _ _ _ Hr) in Hsafe. erewrite pending_middle by done. cbn in *.
    unfold acked in *. cbn in *. rewrite Hst. cbn. lia.
  - rewrite (pending_middle _ _ _ _ _ Hr) in Hsafe. erewrite pending_middle by done.
    unfold acked in *. cbn in *. rewrite Hst. cbn. exact Hsafe.
  - pose proof (copies_insert k c a vs vs' (asked c) (r1 ++ r2) (master c) Hs) as Hc.
    rewrite (pending_middle _ _ _ _ _ Hr) in Hsafe. unfold pending, acked in *. cbn in *.
    apply task_done_effect in Hd as [_ Hd]. specialize (Hd k).
    destruct (ok st && _); cbn in *; [|rewrite (has_ext _ _ _ Hd) in Hc; lia].
    unfold has at 2 in Hc. rewrite Hd in Hc. destruct (has k vs); lia.
Qed.

(** ** The value of a key *)

(** [v] is the only value of [k]: on every server, and in every task waiting or
    running. *)
Definition carries (k v : string) (t : MoveTask) : Prop := task_key t = k -> task_value t = v.

Definition server_only (k v : string) (vs : VolumeServer DB Q) : Prop :=
  (forall v', db_get (db vs) k = Some v' -> v' = v) /\ Forall (carries k v) (tpool vs).

Record only_value (k v : string) (c : Cluster) : Prop := mk_only {
  only_servers : forall a vs, servers c !! a = Some vs -> server_only k v vs;
  only_running : Forall (fun r => carries k v (run_task r)) (running c) }.

(** The steps that do not delete [k], store another value for it, or start a
    server with another value in its database. *)
Definition respects (k v : string) (l : label) : Prop :=
  match l with
  | LStart d => forall v', db_get d k = Some v' -> v' = v
  | LPut key value => key = k -> value = v
  | LDelete key => key <> k
  | LInternal => True
  end.

Lemma only_insert k v c a vs sm' ask' run' :
  only_value k v c -> server_only k v vs -> Forall (fun r => carries k v (run_task r)) run' ->
  only_value k v (mkCluster sm' (<[a := vs]> (servers c)) ask' run').
Proof.
  intros [Hs Hr] Hvs Hrun. constructor; [|done]. cbn [servers]. intros b vb.
  rewrite lookup_insert_Some. intros [[_ <-]|[_ E]]; [done|by eapply Hs].
Qed.

(** An operation that may only store [v] for [k] and leaves the pool alone. *)
Lemma server_only_db k v (vs vs' : VolumeServer DB Q) :
  server_only k v vs -> tpool vs' = tpool vs ->
  (forall v', db_get (db vs') k = Some v' -> v' = v \/ db_get (db vs) k = Some v') ->
  server_only k v vs'.
Proof.
  intros [Hd Ht] Et Hk. split; [|by rewrite Et]. intros v' E. destruct (Hk v' E) as [?|?]; [done|by apply Hd].
Qed.

Lemma Put_only k v key value st (vs vs' : VolumeServer DB Q) :
  server_only k v vs -> (key = k -> value = v) ->
  Put vs (mkPutRequest key value) = Ret (st, vs') -> server_only k v vs'.
Proof.
  intros Hvs Hkv HP. apply Put_effect in HP as [Ht HP]. apply (server_only_db k v vs); [done..|].
  intros v'. destruct (ok st); [|rewrite HP; by right]. destruct HP as [_ ->].
  case_decide; [|by right]. intros E. left. simplify_eq. by apply Hkv.
Qed.

Lemma erased_only k v key (vs vs' : VolumeServer DB Q) (b : bool) :
  server_only k v vs -> tpool vs' = tpool vs ->
  (forall k', db_get (db vs') k' = if b && bool_decide (key = k') then None else db_get (db vs) k') ->
  server_only k v vs'.
Proof.
  intros Hvs Ht HD. apply (server_only_db k v vs); [done..|]. intros v'. rewrite HD.
  destruct (b && _); [done|by right].
Qed.

Lemma cstep_only k v c l c' : cstep c l c' -> respects k v l -> only_value k v c -> only_value k v c'.
Proof.
  intros Hstep Hl Ho. pose proof (only_running _ _ _ Ho) as Hrun. pose proof (only_servers _ _ _ Ho) as Hsv.
  destruct Hstep as
    [c a idx d vs st sm' Hn ? ? ? Hc| c a | c a | c a l u st sm' | c a | c a n vs vs' Ha Hs Hf
    | c a vs key value st vs' Hs HP | c a vs key value st vs' Hs HD | c a vs vs' Hs Hm
    | c a vs t ts Hs Ht | c a t r1 r2 vd st vd' Hr Hs HP | c a t r1 r2 vd st vd' st' Hr Hs HP Hst
    | c a t r1 r2 st' Hr Hst | c a t st r1 r2 vs vs' Hr Hs Hd];
    try (by constructor); try (rewrite Hr, Forall_app, Forall_cons in Hrun; destruct Hrun as (H1 & Hrt & H2));
    try (apply only_insert; [done| |try done]).
  - apply construct_effect in Hc as [Ed Et]. split; [by rewrite Ed|by rewrite Et].
  - apply fetch_effect in Hf as [Ed Et]. apply (server_only_db k v vs); [by eapply Hsv|done|].
    rewrite Ed. by right.
  - eapply Put_only; [by eapply Hsv|exact Hl|done].
  - apply Delete_effect in HD as [Ht HD]. eapply erased_only; [by eapply Hsv|done|done].
  - apply moveKeys_effect in Hm as [Ed Ht]. destruct (Hsv _ _ Hs) as [Hd Hts]. split; [by rewrite Ed|].
    apply Forall_forall. intros t Hin. destruct (Ht t Hin) as [?|Ev].
    + by eapply Forall_forall in Hts.
    + intros E. rewrite E in Ev. by apply Hd.
  - destruct (Hsv _ _ Hs) as [Hd Hts]. rewrite Ht in Hts. by apply Forall_cons in Hts as [_ Hts].
  - destruct (Hsv _ _ Hs) as [Hd Hts]. rewrite Ht in Hts. apply Forall_cons in Hts as [? Hts].
    by constructor.
  - eapply Put_only; [by eapply Hsv|exact Hrt|done].
  - by rewrite Forall_app, Forall_cons.
  - eapply Put_only; [by eapply Hsv|exact Hrt|done].
  - by rewrite Forall_app, Forall_cons.
  - constructor; [done|]. cbn. by rewrite Forall_app, Forall_cons.
  - apply task_done_effect in Hd as [Ht HD]. eapply erased_only; [by eapply Hsv|done|done].
  - by rewrite Forall_app.
Qed.

Lemma execs_stored k v c ls c' :
  execs c ls c' -> Forall (respects k v) ls -> safe_key k c -> only_value k v c ->
  safe_key k c' /\ only_value k v c'.
Proof.
  induction 1 as [|c ls c' l c'' _ IH Hstep]; [done|]. intros [Hls Hl]%Forall_app Hs Ho.
  rewrite Forall_singleton in Hl. destruct (IH Hls Hs Ho) as [Hs' Ho']. split.
  - eapply cstep_safe; [done| |done]. intros ->. by apply Hl.
  - by eapply cstep_only.
Qed.
End Cluster.
