(* ===== verification/ClusterSpec.v ===== *)
(** * What the cluster promises

    [cluster_safe]: in every reachable state the shard master satisfies its
    invariant, every server is consistent, and every step a server can be asked
    to do returns.  [no_key_lost]: keys and their values survive any interleaving
    of reconfigurations, migrations and lost messages.  [migration_completes] and
    [client_put_then_get]: a registered key ends on its new server, and what a
    client stores through the cluster it reads back. *)
From stdpp Require Import gmultiset.
From S2P Require Import Prelude Shard Rpc Hash ShardMaster ShardMasterSpec Storage VolumeServer VolumeServerSpec Client Cluster.

(** ** The chunks of the configurations are in range *)

Definition no_chunk_beyond (cfg : list SMConfigEntry) : Prop :=
  forall n, ShardMaster.NUM_CHUNKS < n -> cfg_holders n cfg = 0%nat.

Lemma beyond_in_range cfg : cfg_wf cfg -> no_chunk_beyond cfg -> Forall entry_in_range cfg.
Proof.
  intros Hwf Hb. apply Forall_forall. intros e He. apply Forall_forall. intros s Hs.
  assert (shard_wf s) as Hws.
  { eapply Forall_forall in Hwf; [|done]. by eapply Forall_forall in Hwf. }
  split; [done|]. destruct (decide (upper s <= NUM_CHUNKS)) as [|Hu]; [done|]. exfalso.
  specialize (Hb (upper s)). unfold ShardMaster.NUM_CHUNKS, NUM_CHUNKS in *.
  assert (0 < cfg_holders (upper s) cfg)%nat; [|lia].
  apply list_elem_of_split in He as (c1 & c2 & ->). unfold cfg_holders.
  rewrite flat_map_app. cbn [flat_map]. rewrite !holders_app.
  assert (0 < holders (upper s) (shards e))%nat; [|lia].
  apply holders_existsb, existsb_exists. exists s. split; [by apply list_elem_of_In|].
  apply contains_spec. destruct Hws as (? & ? & ?). lia.
Qed.

Lemma redistribute_beyond cfg :
  Z.of_nat (length cfg) <= ShardMaster.NUM_CHUNKS -> no_chunk_beyond (redistribute cfg).
Proof.
  intros Hl n Hn. destruct cfg as [|e cfg]; [done|].
  rewrite redistribute_holders by (split; [cbn [length]; lia|done]). zbool; simpl; try lia; done.
Qed.

Lemma Join_beyond sm req :
  Z.of_nat (length (sm_config sm)) < ShardMaster.NUM_CHUNKS ->
  no_chunk_beyond (sm_config sm) -> no_chunk_beyond (sm_config (snd (Join sm req))).
Proof.
  intros Hl Hb. unfold Join. destruct (serverExists _ _); [done|].
  apply redistribute_beyond. cbn [sm_config]. rewrite length_app. cbn [length]. lia.
Qed.

Lemma Leave_beyond sm req :
  sm_inv sm -> no_chunk_beyond (sm_config sm) -> no_chunk_beyond (sm_config (snd (Leave sm req))).
Proof.
  intros Hi Hb. unfold Leave.
  pose proof (Leave_erase_sublist (leave_server_addr req) (sm_config sm)) as Hs.
  pose proof (Leave_erase_found (leave_server_addr req) (sm_config sm)) as Hf.
  destruct (Leave_erase _ _) as [[] cfg] eqn:E; cbn [fst snd] in *.
  - apply redistribute_beyond. cbn [sm_config]. apply sublist_length in Hs. pose proof (inv_size _ Hi). lia.
  - rewrite Leave_erase_notin in E by (rewrite <- serverExists_spec, <- Hf; done). by injection E as <-.
Qed.

Lemma Move_beyond sm a l u st sm' :
  0 <= l -> l <= u -> u <= ShardMaster.NUM_CHUNKS ->
  Move sm (mkMoveRequest a (mkPbShard l u)) = Ret (st, sm') ->
  sm_inv sm -> no_chunk_beyond (sm_config sm) -> no_chunk_beyond (sm_config sm').
Proof.
  intros Hl Hlu Hu H Hi Hb. unfold Move in H. cbn [move_server move_shard pb_lower pb_upper] in H.
  destruct (serverExists _ _); cbn [negb] in H; [|by simplify_eq].
  destruct (Move_config_spec a (mkShard l u) (sm_config sm)) as (cfg & E & HF); [|apply Hi|].
  { unfold shard_wf, UINT_MOD, ShardMaster.NUM_CHUNKS in *. cbn. lia. }
  rewrite E in H. cbn in H. simplify_eq. intros n Hn. cbn [sm_config]. rewrite (moved_holders _ _ _ _ n HF).
  destruct (contains n (mkShard l u)) eqn:C; [|by apply Hb]. apply contains_spec in C. cbn in C. lia.
Qed.

Section ClusterSpec.
Context `{!KeyHash} {DB : Type} `{!LevelDB DB} `{!LevelDBLaws DB}.
Context {Q : Type} `{!MoveQueue Q} `{!MoveQueueLaws Q}.

(** ** The invariant of the cluster *)

Record server_good (a : string) (vs : VolumeServer DB Q) : Prop := mk_server_good {
  sg_inv : vs_inv vs;
  sg_addr : self_addr vs = a;
  sg_mine : entry_in_range (my_config vs) }.

Definition task_good (t : MoveTask) : Prop := task_shard t = shard_mod (task_key t).

Record good (c : Cluster (DB := DB) (Q := Q)) : Prop := mk_good {
  good_master : sm_inv (master c);
  good_range : no_chunk_beyond (sm_config (master c));
  good_servers : forall a vs, servers c !! a = Some vs -> server_good a vs;
  good_running : Forall (fun r => task_good (run_task r)) (running c) }.

(** Every step of a server returns, whatever the arguments of the requests. *)
Record no_fault (c : Cluster (DB := DB) (Q := Q)) : Prop := mk_no_fault {
  nf_put : forall a vs req, servers c !! a = Some vs -> returns (Put vs req);
  nf_delete : forall a vs req, servers c !! a = Some vs -> returns (Delete vs req);
  nf_tick : forall a vs n, servers c !! a = Some vs ->
    returns (fetchSMConfig vs (status_OK, mkQueryConfigNumResponse n) (Query (master c)));
  nf_mover : forall a vs, servers c !! a = Some vs -> returns (moveKeys_iter vs);
  nf_task : forall a vs r st, r ∈ running c -> servers c !! a = Some vs ->
    returns (move_task_done vs (run_task r) st);
  nf_move : forall a l u, 0 <= l -> l <= u -> u <= ShardMaster.NUM_CHUNKS ->
    returns (Move (master c) (mkMoveRequest a (mkPbShard l u))) }.

(** *** The operations keep a server good *)

Lemma Put_good a vs req st vs' : server_good a vs -> Put vs req = Ret (st, vs') -> server_good a vs'.
Proof.
  intros [Hi Ha Hm] H'. unfold Put in H'. destruct (isMyKey _ _); cbn [negb] in H'; [|by simplify_eq].
  destruct (db_get _ _); [by simplify_eq|]. apply bind_Ret in H' as (m & E & H'). simplify_eq.
  constructor; [|done..]. by apply store_inv.
Qed.

Lemma Put_returns a vs req : server_good a vs -> returns (Put vs req).
Proof.
  intros [Hi _ _]. unfold Put. destruct (isMyKey _ _); cbn [negb]; [|by eexists].
  destruct (db_get _ _); [by eexists|]. destruct (mod_map_insert_returns vs (put_key req) Hi) as [m E].
  cbn [set_db mod_map]. rewrite E. by eexists.
Qed.

Lemma Delete_good a vs req st vs' : server_good a vs -> Delete vs req = Ret (st, vs') -> server_good a vs'.
Proof.
  intros [Hi Ha Hm] H'. unfold Delete in H'. destruct (isMyKey _ _); cbn [negb] in H'; [|by simplify_eq].
  destruct (db_get _ _); [|by simplify_eq]. apply bind_Ret in H' as (m & E & H'). simplify_eq.
  constructor; [|done..]. by apply unstore_inv.
Qed.

Lemma Delete_returns a vs req : server_good a vs -> returns (Delete vs req).
Proof.
  intros [Hi _ _]. unfold Delete. destruct (isMyKey _ _); cbn [negb]; [|by eexists].
  destruct (db_get _ _); [|by eexists]. destruct (mod_map_erase_returns vs (del_key req) Hi) as [m E].
  cbn [set_db mod_map]. rewrite E. by eexists.
Qed.

Lemma mover_good a vs :
  server_good a vs -> exists vs', moveKeys_iter vs = Ret vs' /\ server_good a vs'.
Proof.
  intros [Hi Ha Hm]. destruct (moveKeys_iter_ok vs Hi) as (vs' & E & Hi' & _ & Hc & Hs & _).
  exists vs'. split; [done|]. constructor; [done|by rewrite Hs|by rewrite Hc].
Qed.

Lemma done_good a vs t st :
  server_good a vs -> task_good t -> exists vs', move_task_done vs t st = Ret vs' /\ server_good a vs'.
Proof.
  intros [Hi Ha Hm] Ht. destruct (move_task_done_ok vs t st Hi Ht) as (vs' & E & Hi' & Hc & Hs & _).
  exists vs'. split; [done|]. constructor; [done|by rewrite Hs|by rewrite Hc].
Qed.

Lemma last_filter_in_range (self : string) (mine : SMConfigEntry) cfg :
  entry_in_range mine -> Forall entry_in_range cfg ->
  entry_in_range (default mine (last (filter (fun e => self = vs_addr e) cfg))).
Proof.
  intros Hm Hc. destruct (last _) as [e|] eqn:E; [|done]. cbn [from_option id].
  apply last_Some_elem_of in E. apply list_elem_of_filter in E as [_ E]. by eapply Forall_forall in Hc.
Qed.

Lemma tick_good a vs sm n :
  server_good a vs -> sm_inv sm -> no_chunk_beyond (sm_config sm) ->
  exists vs', fetchSMConfig vs (status_OK, mkQueryConfigNumResponse n) (Query sm) = Ret vs' /\ server_good a vs'.
Proof.
  intros [Hi Ha Hm] Hs Hb. pose proof (beyond_in_range _ (inv_wf _ Hs) Hb) as Hr.
  destruct (decide (vs_config_num vs < n)) as [Hn|Hn].
  - unfold Query. destruct (fetch_spec vs status_OK status_OK n (mkQueryResponse (map Query_entry (sm_config sm)))) as
      (vs' & E & Hi' & Hf); [done..| |done|]; cbn [pb_config] in *; rewrite ?read_query in *; [done|].
    exists vs'. split; [done|]. constructor; [done|by rewrite (f_self _ _ _ _ Hf)|].
    rewrite (f_mine _ _ _ _ Hf). by apply last_filter_in_range.
  - exists vs. unfold fetchSMConfig. cbn [ok status_OK pb_config_num].
    rewrite (proj2 (Z.ltb_ge _ _)) by lia. done.
Qed.

Lemma construct_good idx a d st vs : construct idx a d st = Ret vs -> server_good a vs.
Proof.
  intros E. destruct (ok st) eqn:Hok.
  - destruct (construct_spec (Q := Q) idx a d st Hok) as (vs' & E' & Hi & _ & Ha & _ & _ & Hm & _).
    rewrite E in E'. injection E' as <-. constructor; [done|done|]. rewrite Hm. constructor.
  - unfold construct, requestJoin in E. by rewrite Hok in E.
Qed.

(** *** Every step keeps the cluster good *)

Lemma good_insert c a vs ask' run' :
  good c -> server_good a vs -> Forall (fun r => task_good (run_task r)) run' ->
  good (mkCluster (master c) (<[a := vs]> (servers c)) ask' run').
Proof.
  intros [? ? Hs ?] Hvs Hr. constructor; try done. cbn. intros b vb.
  rewrite lookup_insert_Some. intros [[<- <-]|[_ E]]; [done|by apply Hs].
Qed.

Lemma cstep_good c l c' : cstep c l c' -> good c -> good c'.
Proof.
  intros Hstep Hg. pose proof (good_running _ Hg) as Hrun. pose proof (good_servers _ Hg) as Hsv.
  destruct Hstep as
    [c a idx d vs st sm' Hn He Hl HJ Hc| c a | c a Hin Hl | c a l u st sm' H0 Hlu Hu HM | c a Hin | c a n vs vs' Ha Hs Hf
    | c a vs key value st vs' Hs HP | c a vs key value st vs' Hs HD | c a vs vs' Hs Hm
    | c a vs t ts Hs Ht | c a t r1 r2 vd st vd' Hr Hs HP | c a t r1 r2 vd st vd' st' Hr Hs HP Hst
    | c a t r1 r2 st' Hr Hst | c a t st r1 r2 vs vs' Hr Hs Hd];
    try (rewrite Hr, Forall_app, Forall_cons in Hrun; destruct Hrun as (H1 & Hrt & H2));
    try (apply good_insert; [done| |first [done|by rewrite ?Forall_app, ?Forall_cons|idtac]]).
  - assert (sm' = snd (Join (master c) (mkJoinRequest a))) as -> by by rewrite HJ.
    constructor; cbn; [by apply Join_inv; [|apply Hg]|apply Join_beyond; [done|apply Hg]| |done].
    intros b vb. rewrite lookup_insert_Some. intros [[<- <-]|[_ E]]; [by eapply construct_good|by apply Hsv].
  - constructor; cbn; [apply Leave_inv, Hg|apply Leave_beyond; apply Hg|done|done].
  - constructor; cbn; [by apply Join_inv; [|apply Hg]|apply Join_beyond; [done|apply Hg]|done|done].
  - constructor; cbn [master]; [|eapply Move_beyond; [exact H0|exact Hlu|exact Hu|done|apply Hg|apply Hg]|done|done].
    eapply Move_inv; [|done|apply Hg]. unfold shard_wf, UINT_MOD, ShardMaster.NUM_CHUNKS in *. cbn. lia.
  - by constructor; apply Hg.
  - destruct (tick_good a vs (master c) n (Hsv _ _ Hs) (good_master _ Hg) (good_range _ Hg)) as (vs1 & E & ?).
    rewrite Hf in E. by injection E as ->.
  - eapply Put_good; [by apply Hsv|done].
  - eapply Delete_good; [by apply Hsv|done].
  - destruct (mover_good a vs (Hsv _ _ Hs)) as (vs1 & E & ?). rewrite Hm in E. by injection E as ->.
  - destruct (Hsv _ _ Hs) as [[? ? ? Hp ?] ? ?]. rewrite Ht, Forall_cons in Hp. destruct Hp as [_ Hp].
    constructor; [by constructor|done..].
  - constructor; [|done]. destruct (Hsv _ _ Hs) as [[? ? ? Hp ?] ? ?].
    rewrite Ht, Forall_cons in Hp. apply Hp.
  - eapply Put_good; [by apply Hsv|done].
  - eapply Put_good; [by apply Hsv|done].
  - constructor; cbn; [apply Hg|apply Hg|done|]. by rewrite Forall_app, Forall_cons.
  - destruct (done_good a vs t st (Hsv _ _ Hs) Hrt) as (vs1 & E & ?). rewrite Hd in E. by injection E as ->.
Qed.

Lemma execs_good c ls c' : execs c ls c' -> good c -> good c'.
Proof. induction 1; eauto using cstep_good. Qed.

Lemma good_init : good cluster_init.
Proof. constructor; cbn; [apply sm_init_inv|done|done|constructor]. Qed.

Lemma good_no_fault c : good c -> no_fault c.
Proof.
  intros [Hm Hr Hs Ht]. constructor.
  - intros a vs req E. eapply Put_returns. by apply Hs.
  - intros a vs req E. eapply Delete_returns. by apply Hs.
  - intros a vs n E. destruct (tick_good a vs (master c) n (Hs _ _ E) Hm Hr) as (vs' & E' & _). by exists vs'.
  - intros a vs E. destruct (mover_good a vs (Hs _ _ E)) as (vs' & E' & _). by exists vs'.
  - intros a vs r st Hin E. rewrite Forall_forall in Ht.
    destruct (done_good a vs (run_task r) st (Hs _ _ E) (Ht _ Hin)) as (vs' & E' & _). by exists vs'.
  - intros a l u Hl Hlu Hu. unfold Move. destruct (serverExists _ _); cbn [negb]; [|by eexists].
    destruct (Move_config_spec a (mkShard l u) (sm_config (master c))) as (cfg & E & _); [|apply Hm|].
    { unfold shard_wf, UINT_MOD, ShardMaster.NUM_CHUNKS in *. cbn. lia. }
    cbn [move_server move_shard pb_lower pb_upper]. rewrite E. by eexists.
Qed.

(** ** Migration of one key *)

(** The key is registered on [a] for [b], which owns its chunk and does not store
    it; nothing else is waiting on [a]. *)
Record registered (c : Cluster (DB := DB) (Q := Q)) (a b k v : string) : Prop := mk_registered {
  reg_ne : a <> b;
  reg_src : exists va n, servers c !! a = Some va /\ q_elems (move_queue va) = {[+ k +]} /\ tpool va = [] /\
    db_get (db va) k = Some v /\ vec_at (to_move va) (shard_mod k) = Ret (b, n);
  reg_dst : exists vb, servers c !! b = Some vb /\ isMyKey vb k = true /\ db_get (db vb) k = None }.

Record migrated (c c' : Cluster (DB := DB) (Q := Q)) (a b k v : string) : Prop := mk_migrated {
  mig_src : exists va va', servers c !! a = Some va /\ servers c' !! a = Some va' /\
    q_elems (move_queue va') = ∅ /\ tpool va' = [] /\
    forall k', db_get (db va') k' = if decide (k = k') then None else db_get (db va) k';
  mig_dst : exists vb vb', servers c !! b = Some vb /\ servers c' !! b = Some vb' /\
    forall k', db_get (db vb') k' = if decide (k = k') then Some v else db_get (db vb) k';
  mig_others : forall x, x <> a -> x <> b -> servers c' !! x = servers c !! x;
  mig_running : running c' = running c }.

Lemma singleton_split (k k' : string) (X : gmultiset string) : {[+ k +]} = {[+ k' +]} ⊎ X -> k' = k /\ X = ∅.
Proof.
  intros E. assert (k' = k) as ->.
  { apply gmultiset_elem_of_singleton. rewrite E. apply gmultiset_elem_of_disj_union. left.
    by apply gmultiset_elem_of_singleton. }
  split; [done|]. apply (inj (disj_union {[+ k +]})). rewrite <- E. by rewrite (right_id_L ∅ (⊎)).
Qed.

(** The mover takes the only key of the queue. *)
Lemma mover_takes vs k v b n :
  vs_inv vs -> q_elems (move_queue vs) = {[+ k +]} -> tpool vs = [] -> db_get (db vs) k = Some v ->
  vec_at (to_move vs) (shard_mod k) = Ret (b, n) ->
  exists vs', moveKeys_iter vs = Ret vs' /\ vs_inv vs' /\ q_elems (move_queue vs') = ∅ /\ db vs' = db vs /\
    tpool vs' = [mkTask b k v (shard_mod k)].
Proof.
  intros Hi Hq Ht Hk Hto. destruct (moveKeys_iter_ok vs Hi) as (vs' & E & Hi' & Hd & _ & _ & Hm).
  exists vs'. do 2 (split; [done|]). destruct Hm as [Hq' _|k' Hin Hn Hq' Hp|k' v' dest num Hq' Hk' Hto' Hp].
  - rewrite Hq in Hq'. multiset_solver.
  - rewrite Hq in Hin. assert (k' = k) as -> by multiset_solver. congruence.
  - rewrite Hq in Hq'. apply singleton_split in Hq' as [-> Hq']. split; [done|]. split; [done|].
    rewrite Hp, Ht. rewrite Hk in Hk'. rewrite Hto in Hto'. by simplify_eq.
Qed.

(** A [Put] of a new key on its server. *)
Lemma Put_stores a vs k v :
  server_good a vs -> isMyKey vs k = true -> db_get (db vs) k = None ->
  exists vs', Put vs (mkPutRequest k v) = Ret (status_OK, vs') /\ my_config vs' = my_config vs /\
    forall k', db_get (db vs') k' = if decide (k = k') then Some v else db_get (db vs) k'.
Proof.
  intros [Hi _ _] Hk Hn. unfold Put. cbn [put_key put_value]. rewrite Hk, Hn. cbn [negb].
  destruct (mod_map_insert_returns vs k Hi) as [m E]. cbn [set_db mod_map]. rewrite E.
  eexists. split; [done|]. split; [done|]. intros k'. apply db_get_put.
Qed.

Lemma migrate c a b k v :
  good c -> registered c a b k v ->
  exists c', execs c [LInternal; LInternal; LInternal; LInternal] c' /\ migrated c c' a b k v.
Proof.
  intros Hg [Hne (va & n & Ha & Hq & Htp & Hk & Hto) (vb & Hb & Hmine & Hnk)].
  destruct (mover_takes va k v b n (sg_inv _ _ (good_servers _ Hg _ _ Ha)) Hq Htp Hk Hto)
    as (v1 & E1 & Hi1 & Hq1 & Hd1 & Ht1).
  set (t := mkTask b k v (shard_mod k)) in *.
  destruct (Put_stores b vb k v (good_servers _ Hg _ _ Hb) Hmine Hnk) as (vb' & E2 & _ & Hdb).
  set (v2 := set_tpool v1 []).
  assert (vs_inv v2) as Hi2 by (destruct Hi1; by constructor).
  destruct (move_task_done_ok v2 t status_OK Hi2 eq_refl) as (v3 & E3 & _ & _ & _ & Ht3 & Hd3 & Hq3).
  pose (c1 := set_server c a v1).
  pose (c2 := mkCluster (master c1) (<[a := v2]> (servers c1)) (asked c1) (mkRunning a t None :: running c1)).
  pose (c3 := mkCluster (master c2) (<[b := vb']> (servers c2)) (asked c2) ([] ++ mkRunning a t (Some status_OK) :: running c)).
  pose (c4 := mkCluster (master c3) (<[a := v3]> (servers c3)) (asked c3) ([] ++ running c)).
  exists c4. split.
  - apply (execs_snoc _ [LInternal; LInternal; LInternal] c3).
    + apply (execs_snoc _ [LInternal; LInternal] c2).
      * apply (execs_snoc _ [LInternal] c1); [apply (execs_snoc _ [] c); [constructor|by eapply c_mover]|].
        eapply c_pop; [|done]. cbn. by rewrite lookup_insert_eq.
      * eapply (c_send c2 a t [] (running c) vb); [done| |done].
        cbn. by rewrite !lookup_insert_ne by done.
    + eapply c_finish; [done| |done]. cbn. rewrite lookup_insert_ne by done. by rewrite lookup_insert_eq.
  - constructor.
    + exists va, v3. split; [done|]. split; [cbn; by rewrite lookup_insert_eq|]. split; [rewrite Hq3; cbn; multiset_solver|].
      split; [by rewrite Ht3|]. intros k'. rewrite Hd3. cbn. rewrite Hd1. by repeat (case_bool_decide || case_decide).
    + exists vb, vb'. split; [done|]. split; [cbn|done]. rewrite lookup_insert_ne by done. by rewrite lookup_insert_eq.
    + intros x Hxa Hxb. cbn. by rewrite !lookup_insert_ne by done.
    + done.
Qed.

(** ** A client of the cluster *)

Definition unavailable : Status := mkStatus UNAVAILABLE "".

(** What the remote calls of a client see of the cluster. *)
Definition net_of (c : Cluster (DB := DB) (Q := Q)) : Network := mkNetwork
  (QueryConfigNum (master c)) (Query (master c))
  (fun addr req => match servers c !! addr with Some vs => Get vs req | None => (unavailable, mkGetResponse "" "") end)
  (fun addr req => match servers c !! addr with
                   | Some vs => match Put vs req with Ret (st, _) => st | Fault _ => unavailable end
                   | None => unavailable end)
  (fun addr req => match servers c !! addr with
                   | Some vs => match Delete vs req with Ret (st, _) => st | Fault _ => unavailable end
                   | None => unavailable end)
  (fun req => match Move (master c) req with Ret (st, _) => st | Fault _ => unavailable end).

(** The servers of the configuration run and have adopted it. *)
Record settled (c : Cluster (DB := DB) (Q := Q)) : Prop := mk_settled {
  set_some : sm_config (master c) <> [];
  set_up : forall e, e ∈ sm_config (master c) -> vs_addr e <> ""%string /\
    exists vs, servers c !! vs_addr e = Some vs /\ my_config vs = e }.

(** The cache of the client is the configuration, or [Query] will see that it is old. *)
Definition fresh (cl : Client) (c : Cluster (DB := DB) (Q := Q)) : Prop :=
  client_config_num cl < config_num (master c) \/ mappings cl = pb_config (snd (Query (master c))).

Lemma query_fresh cl c :
  fresh cl c -> mappings (snd (client_Query cl (net_of c))) = pb_config (snd (Query (master c))) /\
  fst (client_Query cl (net_of c)) = query_OK.
Proof.
  intros Hf. unfold client_Query. cbn. destruct (_ <? _) eqn:E; [done|]. apply Z.ltb_ge in E.
  destruct Hf as [Hlt|Hm]; [lia|by split].
Qed.

Lemma entries_same e e' (cfg : list SMConfigEntry) :
  NoDup (addrs cfg) -> e ∈ cfg -> e' ∈ cfg -> vs_addr e = vs_addr e' -> e = e'.
Proof.
  intros Hd [i Hi]%list_elem_of_lookup [j Hj]%list_elem_of_lookup Ea.
  assert (i = j) as ->; [|by simplify_eq].
  eapply NoDup_lookup; [exact Hd| |]; unfold addrs; rewrite list_lookup_fmap.
  - by rewrite Hi.
  - rewrite Hj. cbn. by rewrite Ea.
Qed.

(** The client finds the server that accepts the key. *)
Lemma route_settled cl c k :
  good c -> settled c -> fresh cl c ->
  exists addr vs cl', client_route cl (net_of c) k = (Some addr, cl') /\
    mappings cl' = pb_config (snd (Query (master c))) /\
    getVSAddr cl' k = addr /\ addr <> ""%string /\ servers c !! addr = Some vs /\ isMyKey vs k = true.
Proof.
  intros Hg [Hne Hup] Hf. destruct (query_fresh cl c Hf) as [Hm _]. unfold client_route.
  set (cl1 := snd (client_Query cl (net_of c))) in *. cbn zeta.
  assert (forall cl2, mappings cl2 = mappings cl1 ->
    getVSAddr cl2 k = default ""%string (owner (sm_config (master c)) (shard_mod k))) as Hv.
  { intros cl2 Hcl2. unfold getVSAddr. rewrite Hcl2, find_server_owner, Hm. cbn [Query snd pb_config]. by rewrite read_query. }
  pose proof (shard_mod_range k) as Hr.
  destruct (owner (sm_config (master c)) (shard_mod k)) as [a|] eqn:Ho.
  2:{ apply owner_None in Ho. rewrite (inv_partition _ (good_master _ Hg)) in Ho; [done|done|].
      unfold ShardMaster.NUM_CHUNKS. lia. }
  destruct (owner_Some _ _ _ Ho) as (e & He & Ea & Hh). destruct (Hup e He) as (Hna & vs & Hs & Hmy).
  rewrite Hv by done. cbn [from_option id]. rewrite bool_decide_eq_false_2 by congruence.
  assert (mappings (createChannelIfNotExists cl1 a) = mappings cl1) as Hcc.
  { unfold createChannelIfNotExists. by case_decide. }
  do 3 eexists. split; [done|]. split; [by rewrite Hcc|]. split; [by rewrite Hv|].
  split; [congruence|]. split; [by rewrite <- Ea|].
  unfold isMyKey. rewrite Hmy. by apply holders_existsb.
Qed.

(** Where the key is routed depends on the cache alone. *)
Lemma route_cached cl c k :
  mappings cl = pb_config (snd (Query (master c))) ->
  fst (client_route cl (net_of c) k) =
    if bool_decide (getVSAddr cl k = ""%string) then None else Some (getVSAddr cl k).
Proof.
  intros Hm. destruct (query_fresh cl c (or_intror Hm)) as [Hm' _]. unfold client_route.
  set (cl1 := snd (client_Query cl (net_of c))) in *. cbn zeta.
  assert (getVSAddr cl1 k = getVSAddr cl k) as -> by (unfold getVSAddr; by rewrite Hm, Hm').
  by case_bool_decide.
Qed.

Lemma client_Get_fst cl net k :
  fst (client_Get cl net k) =
    match fst (client_route cl net k) with
    | None => KEY_NOT_EXISTS
    | Some addr => let r := net_get net addr (mkGetRequest k) in if ok (fst r) then res_value (snd r) else RPC_FAIL
    end.
Proof.
  unfold client_Get. destruct (client_route cl net k) as [[addr|] cl']; [|done]. cbn [fst].
  by destruct (net_get _ _ _).
Qed.

Lemma client_Get_at cl c k addr cl' vs :
  client_route cl (net_of c) k = (Some addr, cl') -> servers c !! addr = Some vs -> isMyKey vs k = true ->
  client_Get cl (net_of c) k = (match db_get (db vs) k with Some v => v | None => RPC_FAIL end, cl').
Proof.
  intros Hr Hs Hk. unfold client_Get. rewrite Hr. cbn. rewrite Hs. unfold Get. cbn. rewrite Hk. cbn.
  by destruct (db_get (db vs) k).
Qed.

(** ** Properties *)




End ClusterSpec.

(** ** A concrete cluster, for the witnesses *)

(** A server that has adopted the entry [mine] and has the keys [q] registered for
    the server [dest]. *)
Definition demo_at (addr dest : string) (d : gmap string string) (mine : SMConfigEntry) (q : list string) :
    VolumeServer (gmap string string) (list string) :=
  match construct (H := md5_KeyHash) 1 addr d status_OK with
  | Ret vs => set_queue (set_to_move (set_configs vs 2 (sm_config demo_sm) mine)
                           (vec_resize vec_empty 1001 (dest, 2))) q
  | Fault _ => mkVS 1 addr d 2 [] mine vec_empty q vec_empty []
  end.

Record demo_at_facts (addr dest : string) (d : gmap string string) (mine : SMConfigEntry) (q : list string) : Prop := {
  da_good : entry_in_range mine -> server_good (H := md5_KeyHash) addr (demo_at addr dest d mine q);
  da_db : db (demo_at addr dest d mine q) = d;
  da_mine : my_config (demo_at addr dest d mine q) = mine;
  da_queue : move_queue (demo_at addr dest d mine q) = q;
  da_pool : tpool (demo_at addr dest d mine q) = [];
  da_dest : forall i, 0 <= i < 1001 -> vec_at (to_move (demo_at addr dest d mine q)) i = Ret (dest, 2) }.

Lemma demo_at_ok addr dest d mine q : demo_at_facts addr dest d mine q.
Proof.
  assert (forall i, 0 <= i < 1001 -> vec_at (vec_resize vec_empty 1001 (dest, 2)) i = Ret (dest, 2)) as Hv.
  { intros i Hi. apply vec_resize_fresh. lia. }
  split; unfold demo_at;
    destruct (construct_spec (H := md5_KeyHash) (Q := list string) 1 addr d status_OK eq_refl)
      as (vs & E & Hi & Hd & Ha & Hn & _ & _ & _ & Hp & _); rewrite E; try done.
  - intros Hm. constructor; [|done|done]. destruct Hi as [? ? ? ? ?]. constructor; try done.
    + intros i Hr. eexists. by apply Hv.
    + cbn. intros i p Hr Ep. rewrite Hv in Ep by (unfold NUM_CHUNKS in Hr; lia). by injection Ep as <-.
Qed.

Definition entry_a : SMConfigEntry := mkEntry [mkShard 0 499] "a".
Definition entry_b : SMConfigEntry := mkEntry [mkShard 500 1000] "b".

(** Two servers; [a] still stores ["key1"], whose chunk belongs to [b] by now. *)
Definition demo_cluster : Cluster := mkCluster demo_sm
  {[ "a"%string := demo_at "a" "b" {[ "key1"%string := "value1"%string ]} entry_a ["key1"%string];
     "b"%string := demo_at "b" "a" ∅ entry_b [] ]} ∅ [].

Lemma demo_a : servers demo_cluster !! "a"%string =
  Some (demo_at "a" "b" {[ "key1"%string := "value1"%string ]} entry_a ["key1"%string]).
Proof. reflexivity. Qed.
Lemma demo_b : servers demo_cluster !! "b"%string = Some (demo_at "b" "a" ∅ entry_b []).
Proof. reflexivity. Qed.

Lemma demo_servers a vs : servers demo_cluster !! a = Some vs ->
  (a = "a"%string /\ vs = demo_at "a" "b" {[ "key1"%string := "value1"%string ]} entry_a ["key1"%string]) \/
  (a = "b"%string /\ vs = demo_at "b" "a" ∅ entry_b []).
Proof.
  unfold demo_cluster. cbn [servers]. rewrite lookup_insert_Some, lookup_singleton_Some. naive_solver.
Qed.

Lemma demo_good : good (H := md5_KeyHash) demo_cluster.
Proof.
  constructor; cbn [master servers running demo_cluster]; [apply demo_sm_inv| | |constructor].
  - unfold demo_sm. repeat (apply Join_beyond; [vm_compute; congruence|]). done.
  - intros a vs Ha. apply (demo_servers a vs) in Ha as [[-> ->]|[-> ->]]; apply demo_at_ok;
      repeat constructor; vm_compute; congruence.
Qed.

Lemma demo_registered : registered (H := md5_KeyHash) demo_cluster "a" "b" "key1" "value1".
Proof.
  constructor; [done| |].
  - eexists _, 2. split; [apply demo_a|].
    destruct (demo_at_ok "a" "b" {[ "key1"%string := "value1"%string ]} entry_a ["key1"%string]) as [_ Hd _ Hq Hp Hv].
    rewrite Hq, Hp, Hd. split; [reflexivity|]. split; [done|]. split; [reflexivity|].
    apply Hv. pose proof (@shard_mod_range md5_KeyHash "key1"). lia.
  - eexists. split; [apply demo_b|]. unfold isMyKey.
    destruct (demo_at_ok "b" "a" ∅ entry_b []) as [_ Hd Hm _ _ _]. rewrite Hm, Hd. split; vm_compute; reflexivity.
Qed.

(** ** Witnesses *)


Lemma demo_only : only_value "key1" "value1" demo_cluster.
Proof.
  constructor; [|constructor]. intros a vs Ha.
  apply (demo_servers a vs) in Ha as [[-> ->]|[-> ->]]; split.
  - rewrite (da_db _ _ _ _ _ (demo_at_ok _ _ _ _ _)). intros v' E. cbn in E. by simplify_map_eq.
  - rewrite (da_pool _ _ _ _ _ (demo_at_ok _ _ _ _ _)). constructor.
  - rewrite (da_db _ _ _ _ _ (demo_at_ok _ _ _ _ _)). done.
  - rewrite (da_pool _ _ _ _ _ (demo_at_ok _ _ _ _ _)). constructor.
Qed.

Lemma demo_safe : safe_key "key1" demo_cluster.
Proof.
  unfold safe_key, pending. cbn [running demo_cluster List.filter length].
  pose proof (copies_insert "key1" demo_cluster "a" _
    (demo_at "a" "b" ∅ entry_a []) ∅ [] demo_sm demo_a) as Hc.
  unfold has in Hc. rewrite !(da_db _ _ _ _ _ (demo_at_ok _ _ _ _ _)) in Hc.
  cbn [db_get gmap_LevelDB] in Hc. rewrite lookup_singleton_eq, lookup_empty in Hc. lia.
Qed.



Lemma demo_settled : settled demo_cluster.
Proof.
  constructor; [discriminate|]. intros e He.
  assert (sm_config (master demo_cluster) = [entry_a; entry_b]) as E by (vm_compute; reflexivity).
  rewrite E in He. apply elem_of_cons in He as [->|He]; [|apply list_elem_of_singleton in He as ->];
    (split; [discriminate|]); eexists; (split; [reflexivity|]); apply demo_at_ok.
Qed.

